(* ===== verification/_CoqProject ===== *)
-Q . S2P
Prelude.v
GoValues.v
Text.v
Regexp.v
Prog.v
Domain.v
Ports.v
CreateOrder.v
Reconciler.v
Passes.v
Decorators.v
Saves.v
Provider.v
Store.v
Safety.v
System.v
Simulator.v
Outcomes.v
Transparency.v
Recovery.v
Json.v
JsonText.v
JsonStream.v
Http.v
PaymentClient.v
InventoryClient.v
HttpApi.v
Tracing.v
Logging.v
Redaction.v
Metrics.v
Sha256.v
Migrations.v
Repository.v
Documents.v
Deployment.v
Replies.v
Wire.v
EndToEnd.v
Convergence.v
DeployedReplies.v
Main.v
