(* ===== verification/Prelude.v ===== *)
(** * Verification of the order service (ordersvc)

The service takes orders over HTTP, charges them through a Payment Service,
reserves stock through an Inventory Service, and keeps each order in Postgres.
A background reconciler finishes the orders a request left undecided.  What has
to hold is that no interleaving of requests, workers, crashes and lost answers
charges an order twice, loses a charge, or shows an order in a state that the
outside world contradicts.  All paths below are under src/.

** Parts, and the files that model them

- Prelude.v: scope, hint databases, tactics, 64-bit wrap-around.  GoValues.v:
  Go errors with their wrapping structure ([errors.Is], [errors.As], [%w], [%v],
  [errors.Join]), the error values that each package declares, and [any] values.
  Text.v: UTF-8 and [strings].  Regexp.v: what a pattern matches, declaratively,
  and the leftmost-first matcher of [regexp] that finds it.  Prog.v: programs that
  call an interface, their executions, handlers, and a weakest precondition over
  protocols.
- Domain.v, internal/domain/order.go: the [Order] aggregate, its constructor,
  [Total] on int64, the transition methods, the event buffer.
- Ports.v, internal/usecase/ports.go: every port method as a call of [portE];
  the classification of payment errors.
- CreateOrder.v, internal/usecase/create_order.go: [Execute] as the composition
  of [processOrder], [settlePayment], [fulfillOrder] and [saveTransition]; the
  first three are the consecutive parts of the one Go function.
- Reconciler.v, internal/usecase/reconciler.go: one order, one page, [RunOnce]
  with its cursor, [Run].  Passes.v: what one pass does with its page.
- Decorators.v, internal/usecase/*_decorator.go: metrics, logging and tracing
  around the usecase, tracing around the repository, and [createOrder], the
  stack that cmd/orderservice/main.go builds.  Saves.v: a request inserts only the
  order it asks for, recovery inserts none.
- Json.v: decoding of JSON values into Go structs.  JsonText.v: their texts, byte by
  byte: [Marshal] with its escapes, and the reader of [json.Decoder] and
  [json.Unmarshal].  JsonStream.v: what the reader leaves unread, and that a
  written document reads back.  Http.v: what is used of net/http and net/url,
  with all the requests that one call of [Do] may send.
  Documents.v: the documents of the service, from the bytes of a request to the
  bytes of the charge, of the reservation and of the stored items.
- PaymentClient.v, InventoryClient.v: internal/paymentclient/client.go and
  internal/inventoryclient/client.go, from the request to the closing of the body.
- HttpApi.v, internal/httpapi/handler.go: POST /orders.
- Repository.v, internal/repository/postgres/order_repo.go and the tables of
  migrations/*.sql.  Migrations.v (over Sha256.v), migrations.go.
- Tracing.v, Logging.v, Metrics.v: observability/*.go.  Redaction.v: what the
  patterns of the logger leave in a line.
- Main.v, cmd/orderservice/main.go: configuration, wiring, start and stop, and
  what the process reports when [run] fails.

Contracts between the parts:

- Provider.v is what the usecases rely on of the Payment Service, as the class
  [PaymentProvider] (idempotency per key, final answers, a truthful lookup).
  PaymentClient.v discharges it from the wire contract [PaymentService], which speaks
  of single requests.  A [Do] may send several (Http.v, [sends]): net/http repeats a
  GET, or a POST with an Idempotency-Key, after a lost connection, and follows
  redirects.  The contract asks that a redirect leads to the same charge or lookup,
  that a key some charge has touched is never refused as untouched, and that a repeated
  key changes no final charge; of the Inventory Service nothing is asked.
- Store.v is what they rely on of the store: each method one atomic step on a
  map of orders, which may also fail with or without effect.  Repository.v
  discharges it for the SQL the adapter sends.
- Safety.v ([SafeUsecase]) and Outcomes.v ([TellingUsecase]) are protocols a
  usecase keeps; the interactor and each decorator are instances, so the stack
  is one too.
- Deployment.v shows that the adapters are collaborators that Outcomes.v allows.
- Wire.v puts the adapters under the threads of System.v: the deployment, whose
  threads interleave statement by statement and request by request.  One call of
  each adapter has the whole effect of the port call; what comes after it, the
  draining and closing of a body or the closing of a cursor, changes nothing
  ([adapters_atomic]).  EndToEnd.v: so the deployment is simulated by the system of
  ports ([deployment_refines]), call by call ([refines_call]).

** State and effects

A Go function that calls a collaborator is a [prog]: a tree of calls, one per
call in the source and in its order.  A pointer that may be nil is an option and
dereferencing nil is [Panic].  A method with a pointer receiver returns the new
aggregate; where the source clones before it mutates, the model keeps both.
The store, the ledger, the calls made and the reservations that succeeded are the
[world] of System.v, which interleaves any number of threads call by call and lets every thread stop
between two calls, every call fail before or after its effect, and charges in
flight settle at any time.

** What the theorems show

- System.v: in every reachable state, one charge request per order under its id,
  failed orders are never charged, paid orders match the ledger, approved charges
  stay recoverable, reservations only for approved charges, completed only what was
  reserved, rows only advance, nothing panics.  Simulator.v runs the system on concrete worlds, for the
  witnesses.
- EndToEnd.v: the same of the rows of the table, of what is submitted to net/http and
  of what net/http sends for it: one charge submitted per key, and every POST under
  that key a copy of it; a completed row has a reservation answered with success.
- Outcomes.v and HttpApi.v: what a request did, given what it answers, for every
  error and for executions cut short.  Replies.v: in the running system, what a reply
  says of the order that was asked for holds of the store and the ledger from then on;
  DeployedReplies.v: of the rows, the ledger and the requests sent, in the deployment.
- Passes.v: a pass tries every order of its page whatever fails, and joins the
  failures.  Recovery.v: in the running system, an order whose charge is settled
  reaches its final state, whatever the other threads do and some calls fail.
  Convergence.v: the same of the rows of the deployment, where calls are statements
  and requests, and what counts as a good answer is said of rows and responses.
- Transparency.v: what the decorators add, and that they add nothing else.
- Domain.v: lifecycle, event history, validation, exact totals and overflow.
- PaymentClient.v, InventoryClient.v, Repository.v, Migrations.v: every branch of
  the adapters, refinement of the contracts above, round trips of stored and
  sent documents, all-or-nothing migrations.
- Documents.v: every request with valid texts can be submitted; whatever bytes are
  accepted, the order made of them is stored, charged and reserved unmangled.
- Logging.v, Redaction.v, Metrics.v, Tracing.v: redaction at any depth, by key and
  by pattern, bounded label sets, the pending gauge (Deployment.v),
  complete and ordered export, every tracing configuration.
- Main.v: ordered start and stop on every path, the HTTP server included; total
  parsing of durations.

** Bounds and fuel

- [Run] takes the number of ticks before its context is done.
  [recovery_converges] and [deployed_recovery_converges] need five ticks more than
  there are badly answered calls, times two more than there are orders: a row takes
  at most four steps to a final status, and between two visits to it every pass moves
  the cursor past at least one order or wraps it.
- [replace_all] of Regexp.v and [parse_terms] of Main.v recurse on fuel equal to
  the length of their input; [replace_all_fuel] and [parse_terms_fuel] prove that
  more changes nothing, since each step consumes.  A loop of the matcher makes at
  most one iteration per rune left.
- [read_json] of JsonText.v recurses on fuel of twice the length of its input, which
  [read_fuel] and [read_json_fuel] show to be enough: every call that does not
  consume a byte is followed by one that does.  Nesting stops at
  [maxNestingDepth], the bound of encoding/json.
- [run_calls] of Simulator.v bounds the calls of one thread; its callers give 1000
  to a request and 2000 to a worker, more than either makes, or fewer where the run
  is to be interrupted.
- Amounts, quantities and durations are [Z] with [wrap64] where Go computes.

** Not modelled

- The requests that one [Do] sends are one step of the deployment: what other threads
  do, and what settles late, comes before or after them.
- Items are a list: a nil slice and an empty one are the same, and are written as
  null.  Items are written by [Save] only, which gets the orders of [NewOrder], and
  these have items.
- The logger passes values of other Go types than string, error, map[string]any and
  []any as they are, and does not sanitise the trace and span ids of the context; so
  does the model.  [%q] is exact for invalid bytes and runes up to U+00FF.
- JSON numbers with a fraction or an exponent are read and then refused as
  integers; their value is never needed.
- What Postgres makes of a jsonb text is a value, not a text: the driver's bytes on
  the way back are decoded as that value.
- Third-party code: OpenTelemetry, slog, the Prometheus client and the Postgres
  driver are answers of the interfaces.
- The SQL engine: statements act on the table of Repository.v, which refuses the
  texts that Postgres cannot keep.  Collation, timestamp precision and jsonb key
  order are parameters.
- testing/setup: containers for the integration tests. *)

From Stdlib Require Export ZArith Lia.
From Stdlib Require Export Ascii.
From stdpp Require Export base tactics list strings gmap sorting pretty.

#[export] Set Default Goal Selector "!".
#[export] Set Warnings "-clear-no-such-hyp".

(** ** Scope and automation *)

Declare Scope ordersvc_scope.
Delimit Scope ordersvc_scope with ordersvc.

(** Lemmas that close the routine goals of the development. *)
Create HintDb ordersvc.
(** Rewrite rules that normalise the accessors of the model. *)
Create Rewrite HintDb ordersvc_simpl.

(** ** Machine integers

Go's [int64], and [int] on the 64-bit targets the service is built for, wrap
around modulo [2^64] in two's complement. *)
Definition min_int64 : Z := (- 2 ^ 63)%Z.
Definition max_int64 : Z := (2 ^ 63 - 1)%Z.
Definition int64_range (z : Z) : Prop := (min_int64 <= z <= max_int64)%Z.
Definition wrap64 (z : Z) : Z := ((z + 2 ^ 63) mod 2 ^ 64 - 2 ^ 63)%Z.

#[global] Instance int64_range_dec z : Decision (int64_range z).
Proof. unfold int64_range. apply _. Defined.

(** Boolean reading of a decidable proposition, the guard of a Go [if]. *)
Notation "'⟦' P '⟧'" := (bool_decide P) (at level 0, P at level 200, format "⟦ P ⟧") : ordersvc_scope.
#[global] Open Scope ordersvc_scope.

(** ** Tactics *)

(** [go_case] destructs the next discriminee of a [match] or [if], in the goal
or in a hypothesis, and simplifies the equations it leaves. *)
Ltac go_case :=
  match goal with
  | |- context [bool_decide ?P] => case_bool_decide
  | H : context [bool_decide ?P] |- _ => case_bool_decide
  | |- context [match ?x with _ => _ end] => destruct x eqn:?
  | H : context [match ?x with _ => _ end] |- _ => destruct x eqn:?
  end; simplify_eq/=.

Ltac go_cases := repeat go_case.

(** ** Generic lemmas *)

(** Elements told apart by [f]. *)
Lemma NoDup_map_inj {A B} (f : A → B) (l : list A) x y :
  NoDup (map f l) → x ∈ l → y ∈ l → f x = f y → x = y.
Proof.
  induction l as [|z l IH]; [by intros _ ?%elem_of_nil|]. simpl. intros [Hz Hl]%NoDup_cons.
  assert (∀ w, w ∈ l → f z = f w → False) as Hout.
  { intros w Hw Heq. apply Hz. rewrite Heq. by apply list_elem_of_fmap_2. }
  rewrite !elem_of_cons. intros [->|Hx] [->|Hy] Heq; [done| | |by apply IH];
    exfalso; by eapply Hout.
Qed.

Lemma wrap64_range z : int64_range (wrap64 z).
Proof.
  unfold int64_range, wrap64, min_int64, max_int64.
  pose proof (Z.mod_pos_bound (z + 2 ^ 63) (2 ^ 64) ltac:(lia)). lia.
Qed.

Lemma wrap64_id z : int64_range z → wrap64 z = z.
Proof.
  unfold int64_range, wrap64, min_int64, max_int64. intros.
  rewrite Z.mod_small by lia. lia.
Qed.

Lemma wrap64_add_l a b : wrap64 (wrap64 a + b) = wrap64 (a + b).
Proof.
  unfold wrap64. f_equal.
  replace ((a + 2 ^ 63) mod 2 ^ 64 - 2 ^ 63 + b + 2 ^ 63)%Z
    with ((a + 2 ^ 63) mod 2 ^ 64 + b)%Z by lia.
  rewrite Z.add_mod_idemp_l by lia. f_equal. lia.
Qed.

Lemma wrap64_add_r a b : wrap64 (a + wrap64 b) = wrap64 (a + b).
Proof. by rewrite Z.add_comm, wrap64_add_l, Z.add_comm. Qed.

#[export] Hint Resolve wrap64_range : ordersvc.

(** A part of a mapped list is a part of the list, mapped. *)
Lemma sublist_map_inv {A B} (f : A → B) l k :
  l `sublist_of` map f k → ∃ k', k' `sublist_of` k ∧ map f k' = l.
Proof.
  revert l. induction k as [|x k IH]; intros l; simpl.
  - intros ->%sublist_nil_r. by exists [].
  - intros [Hl|(l' & -> & Hl)]%sublist_cons_r; apply IH in Hl as (k' & Hk' & <-).
    + exists k'. split; [by apply sublist_cons|done].
    + exists (x :: k'). split; [by apply sublist_skip|done].
Qed.
