(* ===== verification/GoValues.v ===== *)
(** * Go values shared by the components: errors and [any]

Error values with their wrapping structure ([errors.New], [fmt.Errorf] with
[%w], [errors.Join], the two [HTTPStatusError] types) and the dynamic values
that travel through event attributes and log fields. *)

From S2P Require Import Prelude.

(** ** Errors *)

(** The package-level error variables of the module, and the ones of the
standard library it compares against.  Each is allocated once by
[errors.New], so its identity is its name. *)
Inductive sentinel :=
(* internal/domain/order.go *)
| ErrEmptyOrder | ErrEmptyCustomer | ErrInvalidOrderItem
| ErrOrderNotPending | ErrOrderNotPaid
(* internal/usecase/create_order.go *)
| ErrNilRequest | ErrInvalidCustomerTier | ErrPaymentUncertain
| ErrPaymentRejected | ErrFulfillmentPending | ErrConcurrentStateChange
(* internal/usecase/reconciler.go *)
| ErrUnknownChargeStatus | ErrMissingChargeReference
(* internal/paymentclient/client.go *)
| ErrInvalidResponse
(* internal/repository/postgres *)
| ErrNotFound | ErrMigrationChecksumChanged
(* internal/httpapi/handler.go *)
| errExtraJSONValue
(* observability/tracing.go *)
| ErrServiceNameRequired | ErrUnsupportedTraceExporter
(* cmd/orderservice/main.go *)
| errDatabaseURLRequired | errPaymentURLRequired | errInventoryURLRequired
(* the standard library *)
| sql_ErrNoRows | io_EOF | http_ErrServerClosed.

#[global] Instance sentinel_eq_dec : EqDecision sentinel.
Proof. solve_decision. Defined.

(** The [errors.New] declarations of each package: the variable and its text. *)
Definition domain_errors : list (sentinel * string) :=
  [(ErrEmptyOrder, "order: must contain at least one item");
   (ErrEmptyCustomer, "order: customer ID is required");
   (ErrInvalidOrderItem, "order: item must have a product ID, positive quantity, and non-negative price");
   (ErrOrderNotPending, "order: can only transition from pending or payment_unknown state");
   (ErrOrderNotPaid, "order: requires a paid fulfillment state")].

Definition create_order_errors : list (sentinel * string) :=
  [(ErrNilRequest, "create order: request is required");
   (ErrInvalidCustomerTier, "create order: invalid customer tier");
   (ErrPaymentUncertain, "create order: payment outcome is uncertain");
   (ErrPaymentRejected, "create order: payment request was rejected");
   (ErrFulfillmentPending, "create order: fulfillment is pending");
   (ErrConcurrentStateChange, "create order: order state changed concurrently")].

Definition reconciler_errors : list (sentinel * string) :=
  [(ErrUnknownChargeStatus, "reconcile order: unknown provider charge status");
   (ErrMissingChargeReference, "reconcile order: approved charge has no reference")].

Definition paymentclient_errors : list (sentinel * string) :=
  [(ErrInvalidResponse, "payment service returned an invalid response")].

Definition order_repo_errors : list (sentinel * string) := [(ErrNotFound, "order not found")].

Definition migrations_errors : list (sentinel * string) :=
  [(ErrMigrationChecksumChanged, "migration checksum changed")].

Definition httpapi_errors : list (sentinel * string) := [(errExtraJSONValue, "extra JSON value")].

Definition tracing_errors : list (sentinel * string) :=
  [(ErrServiceNameRequired, "service name is required");
   (ErrUnsupportedTraceExporter, "unsupported trace exporter")].

Definition main_errors : list (sentinel * string) :=
  [(errDatabaseURLRequired, "DATABASE_URL is required");
   (errPaymentURLRequired, "PAYMENT_SERVICE_URL is required");
   (errInventoryURLRequired, "INVENTORY_SERVICE_URL is required")].

Definition library_errors : list (sentinel * string) :=
  [(sql_ErrNoRows, "sql: no rows in result set"); (io_EOF, "EOF");
   (http_ErrServerClosed, "http: Server closed")].

Definition declared_errors : list (sentinel * string) :=
  domain_errors ++ create_order_errors ++ reconciler_errors ++ paymentclient_errors ++
  order_repo_errors ++ migrations_errors ++ httpapi_errors ++ tracing_errors ++ main_errors ++
  library_errors.

(** Every variable is declared once, with a text of its own. *)
Example declared_once : NoDup declared_errors.*1 ∧ NoDup declared_errors.*2.
Proof. split; apply (bool_decide_unpack _); vm_compute; exact I. Qed.

Lemma sentinel_declared s : ∃ text, (s, text) ∈ declared_errors.
Proof. destruct s; eexists; apply list_elem_of_In; simpl; tauto. Qed.

(** The text of a sentinel, as declared. *)
Definition sentinel_text (s : sentinel) : string :=
  match list_find (λ kv : sentinel * string, kv.1 = s) declared_errors with
  | Some (_, (_, text)) => text
  | None => ""
  end.

(** The [Error] methods of the two [HTTPStatusError] types. *)
Definition payment_status_text (code : Z) : string :=
  "payment service returned HTTP status " +:+ pretty code.
Definition inventory_status_text (code : Z) : string :=
  "inventory service returned HTTP status " +:+ pretty code.

(** The two adapters that declare an [HTTPStatusError]. *)
Inductive http_adapter := PaymentAdapter | InventoryAdapter.

(** One piece of an [fmt.Errorf] format: literal text, an error under [%w]
(kept in the chain) or an error under [%v] (flattened to its text). *)
Inductive seg (E : Type) :=
| Lit (text : string)
| Wrap (e : E)
| Verb (e : E).
Arguments Lit {E} _. Arguments Wrap {E} _. Arguments Verb {E} _.

#[warnings="-register-all"]
Inductive error :=
| Sentinel (s : sentinel)
| HTTPStatusError (adapter : http_adapter) (StatusCode : Z)
(** an error made outside the module: its text, and, when its type has the
[OutcomeMayHaveCommitted] method, the answer of that method *)
| Foreign (text : string) (committed : option bool)
| Errorf (segs : list (seg error))
| Join (errs : list error).

(** [errors.Is(err, target)] for a sentinel target: a depth-first search of
the wrapping tree. *)
Fixpoint errors_Is (err : error) (target : sentinel) : bool :=
  match err with
  | Sentinel s => ⟦s = target⟧
  | HTTPStatusError _ _ | Foreign _ _ => false
  | Errorf segs =>
      existsb (λ sg, match sg with Wrap e => errors_Is e target | _ => false end) segs
  | Join errs => existsb (λ e, errors_Is e target) errs
  end.

(** First answer of a search over a list, in order. *)
Definition first_some {A B} (f : A → option B) : list A → option B :=
  fix go l := match l with
              | [] => None
              | x :: l => match f x with Some b => Some b | None => go l end
              end.

(** [err.Error()]. *)
Fixpoint Error_text (err : error) : string :=
  match err with
  | Sentinel s => sentinel_text s
  | HTTPStatusError PaymentAdapter code => payment_status_text code
  | HTTPStatusError InventoryAdapter code => inventory_status_text code
  | Foreign text _ => text
  | Errorf segs =>
      foldr (λ sg acc, match sg with
                       | Lit s => s
                       | Wrap e | Verb e => Error_text e
                       end +:+ acc) "" segs
  | Join errs =>
      (fix lines l := match l with
                      | [] => ""
                      | [e] => Error_text e
                      | e :: l => Error_text e +:+ String "010"%char (lines l)
                      end) errs
  end.

(** [errors.Join(errs...)] over non-nil errors: nil when there is none. *)
Definition errors_Join (errs : list error) : option error :=
  match errs with [] => None | _ => Some (Join errs) end.

(** [fmt.Errorf("text: %w", err)]. *)
Definition wrapf (text : string) (err : error) : error := Errorf [Lit text; Wrap err].

(** ** Dynamic values *)

(** The values the service puts in event attributes and log fields.  A Go map
is its list of entries, in an order the code never relies on. *)
#[warnings="-register-all"]
Inductive any :=
| VNil
| VString (s : string)
| VInt (z : Z)
| VInt64 (z : Z)
| VBool (b : bool)
| VTime (t : Z)
| VError (e : error)
| VMap (entries : list (string * any))
| VSlice (elems : list any)
| VOther (go_type : string).

(** ** Lemmas *)

Lemma errors_Is_wrap_head t s segs :
  errors_Is (Errorf (Wrap (Sentinel t) :: segs)) s = ⟦t = s⟧ || errors_Is (Errorf segs) s.
Proof. reflexivity. Qed.

Lemma errors_Is_wrapf text e s : errors_Is (wrapf text e) s = errors_Is e s.
Proof. simpl. apply orb_false_r. Qed.

#[export] Hint Rewrite errors_Is_wrapf : ordersvc_simpl.
