(* ===== verification/Text.v ===== *)
(** * Go strings as text

UTF-8 decoding into runes and what the service uses of package strings. *)

From S2P Require Import Prelude.

(** ** Runes *)

(** A rune with the bytes it was decoded from. *)
Record rune := mkRune { code : N; bytes : string }.

#[global] Instance rune_eq_dec : EqDecision rune.
Proof. solve_decision. Defined.

Definition byte_at (s : string) : option (N * string) :=
  match s with String c s => Some (N_of_ascii c, s) | EmptyString => None end.

Definition continuation (n : N) : bool := (128 <=? n)%N && (n <=? 191)%N.

(** [n] continuation bytes: their value and the string after them. *)
Fixpoint continuations (n : nat) (acc : N) (s : string) : option (N * string) :=
  match n with
  | 0 => Some (acc, s)
  | S n =>
      match byte_at s with
      | Some (b, s) => if continuation b then continuations n (acc * 64 + (b - 128))%N s else None
      | None => None
      end
  end.

(** The length and range of the sequence that a first byte announces, as
[utf8.DecodeRune] checks them: no overlong forms, no surrogates. *)
Definition sequence (b : N) : option (nat * N * N * N) :=
  if (b <? 128)%N then Some (0%nat, b, 0, 127)%N
  else if ((194 <=? b) && (b <=? 223))%N then Some (1%nat, b - 192, 128, 2047)%N
  else if ((224 <=? b) && (b <=? 239))%N then Some (2%nat, b - 224, 2048, 65535)%N
  else if ((240 <=? b) && (b <=? 244))%N then Some (3%nat, b - 240, 65536, 1114111)%N
  else None.

Definition surrogate (n : N) : bool := ((55296 <=? n) && (n <=? 57343))%N.

Fixpoint take_bytes (n : nat) (s : string) : string :=
  match n, s with
  | S n, String c s => String c (take_bytes n s)
  | _, _ => EmptyString
  end.

(** The first rune of a string and what follows it; an invalid byte is the
replacement character, one byte wide. *)
Definition decode_rune (s : string) : option (rune * string) :=
  match byte_at s with
  | None => None
  | Some (b, s') =>
      let invalid := (mkRune 65533 (take_bytes 1 s), s') in
      match sequence b with
      | Some (n, v, lo, hi) =>
          match continuations n v s' with
          | Some (v, s'') =>
              if ((lo <=? v) && (v <=? hi))%N && negb (surrogate v)
              then Some (mkRune v (take_bytes (S n) s), s'') else Some invalid
          | None => Some invalid
          end
      | None => Some invalid
      end
  end.

Fixpoint runes_fuel (fuel : nat) (s : string) : list rune :=
  match fuel with
  | 0 => []
  | S fuel =>
      match decode_rune s with
      | Some (r, s) => r :: runes_fuel fuel s
      | None => []
      end
  end.
Definition runes (s : string) : list rune := runes_fuel (String.length s) s.

Definition concat_bytes (rs : list rune) : string := foldr (λ r acc, bytes r +:+ acc) "" rs.

(** ** Package strings *)

(** [unicode.ToLower], exact on every rune whose lower case is ASCII: the ASCII
letters, U+0130 and U+212A (Kelvin sign); other runes are left as they are. *)
Definition lower_rune (r : rune) : rune :=
  let c := code r in
  let ascii_rune n := mkRune n (String (ascii_of_N n) "") in
  if ((65 <=? c) && (c <=? 90))%N then ascii_rune (c + 32)%N
  else if (c =? 304)%N then ascii_rune 105%N
  else if (c =? 8490)%N then ascii_rune 107%N
  else r.

Definition ToLower (s : string) : string := concat_bytes (map lower_rune (runes s)).

(** [unicode.IsSpace]. *)
Definition IsSpace (c : N) : bool :=
  ((9 <=? c) && (c <=? 13) || (8192 <=? c) && (c <=? 8202))%N
  || ⟦c ∈ [32; 133; 160; 5760; 8232; 8233; 8239; 8287; 12288]%N⟧.

Fixpoint trim_left (rs : list rune) : list rune :=
  match rs with
  | r :: rs' => if IsSpace (code r) then trim_left rs' else rs
  | [] => []
  end.

Definition TrimSpace (s : string) : string :=
  concat_bytes (rev (trim_left (rev (trim_left (runes s))))).

(** [strings.ReplaceAll(s, "-", "_")]. *)
Fixpoint hyphens_to_underscores (s : string) : string :=
  match s with
  | String c s => String (if ⟦c = "-"%char⟧ then "_"%char else c) (hyphens_to_underscores s)
  | EmptyString => EmptyString
  end.

(** ** Quoting *)

Definition lower_hex (n : N) : ascii := ascii_of_N (if (n <? 10)%N then 48 + n else 87 + n)%N.

Definition hex_byte (n : N) : string :=
  String (lower_hex (n / 16)) (String (lower_hex (n mod 16)) "").

(** The letters of the escapes [strconv] has for control characters. *)
Definition control_escapes : list (N * ascii) :=
  [(7, "a"); (8, "b"); (9, "t"); (10, "n"); (11, "v"); (12, "f"); (13, "r")]%N%char.

(** One rune of a quoted text, as [strconv.Quote] writes it: exact for invalid bytes
and for the runes up to U+00FF; the others count as printable. *)
Definition quote_rune (r : rune) : string :=
  let c := code r in
  if ⟦c = 65533%N⟧ && ⟦String.length (bytes r) = 1⟧ then
    match byte_at (bytes r) with Some (b, _) => "\x" +:+ hex_byte b | None => "" end
  else if ⟦c = 34%N⟧ || ⟦c = 92%N⟧ then String "\" (bytes r)
  else match list_find (λ e, e.1 = c) control_escapes with
       | Some (_, (_, letter)) => String "\" (String letter "")
       | None =>
           if (c <? 32)%N || ⟦c = 127%N⟧ then "\x" +:+ hex_byte c
           else if ((127 <? c) && (c <=? 160))%N || ⟦c = 173%N⟧ then "\u00" +:+ hex_byte c
           else bytes r
       end.

(** [%q] of a string. *)
Definition quoted (s : string) : string :=
  String "034" (foldr (λ r acc, quote_rune r +:+ acc) (String "034" "") (runes s)).

(** Read with ' for the double quote. *)
Example quoted_texts :
  map (λ s, map (λ c, if ⟦c = "034"%char⟧ then "'"%char else c) (String.list_ascii_of_string (quoted s)))
    ["paid"; String "034" "a\"; String "010" (String "000" (String "255" "")); "é"] =
  map String.list_ascii_of_string ["'paid'"; "'\'a\\'"; "'\n\x00\xff'"; "'é'"].
Proof. vm_compute. reflexivity. Qed.

(** ** Lemmas *)

Lemma string_app_assoc (a b c : string) : (a +:+ b) +:+ c = a +:+ (b +:+ c).
Proof. induction a as [|x a IH]; [done|]. exact (f_equal (String x) IH). Qed.

(** Decoding loses no byte. *)
Lemma continuations_bytes n v s v' s' :
  continuations n v s = Some (v', s') → take_bytes n s +:+ s' = s.
Proof.
  revert v s. induction n as [|n IH]; intros v s; simpl; [by intros [= _ ->]|].
  destruct s as [|c s]; simpl; [done|]. destruct (continuation _); [|done].
    intros H. cbn [take_bytes]. exact (f_equal (String c) (IH _ _ H)).
Qed.

Lemma String_length_app a b : String.length (a +:+ b) = String.length a + String.length b.
Proof. induction a as [|x a IH]; [done|]. exact (f_equal S IH). Qed.

Lemma decode_rune_bytes s r s' : decode_rune s = Some (r, s') → bytes r +:+ s' = s ∧ String.length s' < String.length s.
Proof.
  unfold decode_rune. destruct s as [|c s]; [done|]. cbn [byte_at].
  assert (∀ r s', Some (mkRune 65533 (take_bytes 1 (String c s)), s) = Some (r, s') →
    bytes r +:+ s' = String c s ∧ String.length s' < String.length (String c s)) as Hinv.
  { intros r' s'' [= <- <-]. simpl. split; [done|lia]. }
  destruct (sequence _) as [[[[n v] lo] hi]|]; [|by apply Hinv].
  destruct (continuations n v s) as [[v' s'']|] eqn:Hc; [|by apply Hinv].
  destruct (_ && _); [|by apply Hinv]. intros [= <- <-]. cbn [bytes take_bytes].
  apply continuations_bytes in Hc. split; [exact (f_equal (String c) Hc)|].
  rewrite <- Hc. cbn [String.length]. rewrite String_length_app. lia.
Qed.

Lemma concat_bytes_app a b : concat_bytes (a ++ b) = concat_bytes a +:+ concat_bytes b.
Proof.
  induction a as [|c a IH]; [done|]. simpl. by rewrite string_app_assoc, IH.
Qed.

Lemma concat_runes s : concat_bytes (runes s) = s.
Proof.
  unfold runes. remember (String.length s) as n eqn:Hn. assert (String.length s <= n) as Hle by lia.
  clear Hn. revert s Hle. induction n as [|n IH]; intros s Hle; simpl.
  { by destruct s; simpl in *; [|lia]. }
  destruct (decode_rune s) as [[r s']|] eqn:Hd.
  - destruct (decode_rune_bytes _ _ _ Hd) as [Hb Hlt]. simpl. by rewrite IH by lia.
  - unfold decode_rune in Hd. destruct s as [|c s]; [done|]. simpl in Hd. by repeat case_match.
Qed.

Lemma runes_fuel_enough s n : String.length s <= n → runes_fuel n s = runes s.
Proof.
  unfold runes. revert s. induction n as [n IH] using lt_wf_ind. intros s Hn.
  destruct (decode_rune s) as [[r s']|] eqn:Hd.
  - destruct (decode_rune_bytes _ _ _ Hd) as [_ Hl]. destruct n as [|n]; [lia|].
    destruct (String.length s) as [|l] eqn:Hs; [lia|]. cbn [runes_fuel]. rewrite Hd. f_equal.
    rewrite IH by lia. symmetry. apply (IH l); lia.
  - destruct n, (String.length s); cbn [runes_fuel]; by rewrite ?Hd.
Qed.

Lemma runes_decode s r s' : decode_rune s = Some (r, s') → runes s = r :: runes s'.
Proof.
  intros Hd. destruct (decode_rune_bytes _ _ _ Hd) as [_ Hl]. unfold runes at 1.
  destruct (String.length s) as [|n] eqn:Hs; [lia|]. cbn [runes_fuel]. rewrite Hd.
  by rewrite runes_fuel_enough by lia.
Qed.

Lemma decode_rune_total c s : is_Some (decode_rune (String c s)).
Proof. unfold decode_rune. simpl. by repeat case_match. Qed.

(** *** Decoding a text that was cut *)

(** [cut t s]: [t] is [s] up to where another text was put, that starts with an
ASCII character. *)
Inductive cut : string → string → Prop :=
| cut_same s : cut s s
| cut_here c t s : (N_of_ascii c < 128)%N → cut (String c t) s
| cut_later c t s : cut t s → cut (String c t) (String c s).

Lemma cut_app a t s : cut t s → cut (a +:+ t) (a +:+ s).
Proof. intros H. induction a as [|c a IH]; [done|]. exact (cut_later c _ _ IH). Qed.

Lemma continuations_local n v s v' s' t :
  continuations n v s = Some (v', s') →
  continuations n v (take_bytes n s +:+ t) = Some (v', t) ∧
  take_bytes n (take_bytes n s +:+ t) = take_bytes n s.
Proof.
  revert v s. induction n as [|n IH]; intros v s; simpl; [by intros [= -> _]|].
  destruct s as [|c s]; [done|]. simpl. destruct (continuation _); [|done].
  intros [IH1 IH2]%IH. split; [exact IH1|]. exact (f_equal (String c) IH2).
Qed.

Lemma continuations_cut n v t s v' t' :
  cut t s → continuations n v t = Some (v', t') → ∃ s', continuations n v s = Some (v', s').
Proof.
  intros H. revert n v. induction H as [s|c t s Hc|c t s _ IH]; intros n v Ht; [by eauto| |].
  - destruct n as [|n]; simpl in *; [by simplify_eq; eauto|].
    unfold continuation in Ht. by rewrite (proj2 (N.leb_gt 128 _) Hc) in Ht.
  - destruct n as [|n]; simpl in *; [by simplify_eq; eauto|]. destruct (continuation _); [|done]. eauto.
Qed.

(** A rune of a text is the rune of the cut text. *)
Lemma decode_rune_cut s r s' t :
  decode_rune s = Some (r, s') → cut t s' → decode_rune (bytes r +:+ t) = Some (r, t).
Proof.
  destruct s as [|c s]; [done|]. unfold decode_rune at 1. cbn [byte_at].
  assert (∀ t, (∀ n v lo hi, sequence (N_of_ascii c) = Some (n, v, lo, hi) →
      ∀ v' t', continuations n v t = Some (v', t') → ((lo <=? v') && (v' <=? hi))%N && negb (surrogate v') = false) →
    decode_rune (String c t) = Some (mkRune 65533 (String c EmptyString), t)) as Hinv.
  { clear. intros t H. unfold decode_rune. cbn [byte_at take_bytes].
    destruct (sequence _) as [[[[n v] lo] hi]|]; [|done]. specialize (H _ _ _ _ eq_refl).
    destruct (continuations n v t) as [[v' t']|]; [|done]. by rewrite (H _ _ eq_refl). }
  destruct (sequence _) as [[[[n v] lo] hi]|] eqn:Hs.
  2: { intros [= <- <-] _. by apply Hinv. }
  destruct (continuations n v s) as [[v' s'']|] eqn:Hc.
  - destruct (_ && _) eqn:Hok; intros [= <- <-] Hcut; cbn [bytes take_bytes].
    + destruct (continuations_local _ _ _ _ _ t Hc) as [Hl1 Hl2].
      change (decode_rune (String c (take_bytes n s +:+ t)) = Some (mkRune v' (String c (take_bytes n s)), t)).
      unfold decode_rune. cbn [byte_at take_bytes]. by rewrite Hs, Hl1, Hl2, Hok.
    + apply Hinv. intros ? ? ? ? [= <- <- <- <-] v2 t2 Ht.
      destruct (continuations_cut _ _ _ _ _ _ Hcut Ht) as [? ?]. by simplify_eq.
  - intros [= <- <-] Hcut. apply Hinv. intros ? ? ? ? [= <- <- <- <-] v2 t2 Ht.
    destruct (continuations_cut _ _ _ _ _ _ Hcut Ht) as [? ?]. by simplify_eq.
Qed.

(** ** Valid text *)

Definition rune_of (a : ascii) : rune := mkRune (N_of_ascii a) (String a EmptyString).

(** A byte that starts no sequence. *)
Definition invalid_rune (r : rune) : bool := (code r =? 65533)%N && ⟦String.length (bytes r) = 1⟧.

(** [utf8.EncodeRune]. *)
Definition EncodeRune (c : N) : string :=
  let byte n s := String (ascii_of_N n) s in
  if (c <? 128)%N then byte c EmptyString
  else if (c <? 2048)%N then byte (192 + c / 64)%N (byte (128 + c mod 64)%N EmptyString)
  else if (c <? 65536)%N then
    byte (224 + c / 4096)%N (byte (128 + c / 64 mod 64)%N (byte (128 + c mod 64)%N EmptyString))
  else
    byte (240 + c / 262144)%N (byte (128 + c / 4096 mod 64)%N
      (byte (128 + c / 64 mod 64)%N (byte (128 + c mod 64)%N EmptyString))).

Definition replacement : rune := mkRune 65533 (EncodeRune 65533).

(** What encoding/json makes of a string: each invalid byte is replaced. *)
Definition repair (r : rune) : rune := if invalid_rune r then replacement else r.
Definition to_valid (s : string) : string := concat_bytes (map repair (runes s)).
Definition valid_text (s : string) : Prop := to_valid s = s.

#[global] Instance valid_text_dec s : Decision (valid_text s).
Proof. unfold valid_text. apply _. Defined.

(** A rune that is decoded from its bytes, whatever follows them. *)
Definition self_delimiting (r : rune) : Prop :=
  invalid_rune r = false ∧ ∀ t, decode_rune (bytes r +:+ t) = Some (r, t).

(** The cases of a decoded rune: an invalid byte, or a sequence that is decoded
whatever follows it. *)
Lemma decode_rune_cases s r s' :
  decode_rune s = Some (r, s') →
  invalid_rune r = true ∨
  (∃ c n v lo hi cs, sequence (N_of_ascii c) = Some (n, v, lo, hi) ∧ bytes r = String c cs ∧
     (∀ t, continuations n v (cs +:+ t) = Some (code r, t) ∧ take_bytes n (cs +:+ t) = cs) ∧
     ((lo <=? code r) && (code r <=? hi))%N && negb (surrogate (code r)) = true).
Proof.
  destruct s as [|c s]; [done|]. unfold decode_rune. cbn [byte_at take_bytes].
  destruct (sequence _) as [[[[n v] lo] hi]|] eqn:Hs; [|intros [= <- <-]; by left].
  destruct (continuations n v s) as [[v' s'']|] eqn:Hc; [|intros [= <- <-]; by left].
  destruct (_ && _) eqn:Hok; intros [= <- <-]; [right|by left].
  exists c, n, v, lo, hi, (take_bytes n s). split_and!; try done. intros t.
  by eapply continuations_local.
Qed.

Lemma decode_rune_self s r s' :
  decode_rune s = Some (r, s') → invalid_rune r = false → self_delimiting r.
Proof.
  intros Hd Hr. split; [done|]. intros t.
  destruct (decode_rune_cases _ _ _ Hd) as [?|(c & n & v & lo & hi & cs & Hs & Hb & Ht & Hok)]; [congruence|].
  destruct (Ht t) as [Hc Htake]. rewrite Hb. change (String c cs +:+ t) with (String c (cs +:+ t)).
  unfold decode_rune. cbn [byte_at take_bytes]. rewrite Hs, Hc, Htake, Hok. destruct r; simpl in *. by subst.
Qed.

Lemma rune_of_self a : (N_of_ascii a < 128)%N → self_delimiting (rune_of a).
Proof.
  intros Ha. split.
  - unfold invalid_rune, rune_of. simpl. destruct (N.eqb_spec (N_of_ascii a) 65533); [lia|done].
  - intros t. unfold rune_of, decode_rune. simpl. unfold sequence. rewrite (proj2 (N.ltb_lt _ _) Ha). simpl.
    assert (surrogate (N_of_ascii a) = false) as ->.
    { unfold surrogate. apply andb_false_iff. left. apply N.leb_gt. lia. }
    rewrite (proj2 (N.leb_le (N_of_ascii a) 127)) by lia. by destruct (N_of_ascii a).
Qed.

Lemma replacement_self : self_delimiting replacement.
Proof. split; [reflexivity|]. intros t. reflexivity. Qed.

Lemma runes_self rs t : Forall self_delimiting rs → runes (concat_bytes rs +:+ t) = rs ++ runes t.
Proof.
  induction 1 as [|r rs [_ Hr] _ IH]; [done|]. simpl. rewrite string_app_assoc, (runes_decode _ _ _ (Hr _)).
  by rewrite IH.
Qed.

Lemma string_app_nil_r (s : string) : s +:+ "" = s.
Proof. induction s as [|c s IH]; [done|]. exact (f_equal (String c) IH). Qed.

Lemma runes_concat_self rs : Forall self_delimiting rs → runes (concat_bytes rs) = rs.
Proof.
  intros H. rewrite <- (string_app_nil_r (concat_bytes rs)), runes_self by done. apply app_nil_r.
Qed.

(** The runes of a text, one after the other. *)
Lemma runes_Forall (P : rune → Prop) s :
  (∀ s r s', decode_rune s = Some (r, s') → P r) → Forall P (runes s).
Proof.
  intros HP. induction s as [s IH] using (induction_ltof1 _ String.length).
  destruct s as [|c s]; [constructor|]. destruct (decode_rune_total c s) as [[r s'] Hd].
  rewrite (runes_decode _ _ _ Hd). constructor; [by eapply HP|].
  apply IH. destruct (decode_rune_bytes _ _ _ Hd). unfold ltof. lia.
Qed.

Lemma repair_self s : Forall self_delimiting (map repair (runes s)).
Proof.
  apply Forall_map, runes_Forall. intros t r t' Hd. unfold repair.
  destruct (invalid_rune r) eqn:Hr; [apply replacement_self|by eapply decode_rune_self].
Qed.

Lemma repair_id rs : Forall self_delimiting rs → map repair rs = rs.
Proof. induction 1 as [|r rs [Hr _] _ IH]; [done|]. simpl. unfold repair at 1. by rewrite Hr, IH. Qed.

(** Valid text is text of self-delimiting runes. *)
Lemma valid_text_self rs : Forall self_delimiting rs → valid_text (concat_bytes rs).
Proof. intros H. unfold valid_text, to_valid. by rewrite runes_concat_self, repair_id. Qed.

Lemma to_valid_valid s : valid_text (to_valid s).
Proof. apply valid_text_self, repair_self. Qed.

Lemma valid_text_runes s : valid_text s → Forall self_delimiting (runes s).
Proof.
  unfold valid_text, to_valid. intros H. rewrite <- H, runes_concat_self; apply repair_self.
Qed.

(** *** Encoding and decoding a rune *)

Lemma string_cons_app c s t : String c s +:+ t = String c (s +:+ t).
Proof. reflexivity. Qed.
Lemma string_nil_app t : "" +:+ t = t.
Proof. reflexivity. Qed.

Ltac decide_bytes :=
  repeat match goal with
  | |- context [(?a <? ?b)%N] => first
      [rewrite (proj2 (N.ltb_lt a b)) by lia | rewrite (proj2 (N.ltb_ge a b)) by lia]
  | |- context [(?a <=? ?b)%N] => first
      [rewrite (proj2 (N.leb_le a b)) by lia | rewrite (proj2 (N.leb_gt a b)) by lia]
  end.

(** [c] in base 64. *)
Lemma base64 c :
  c = (64 * (c / 64) + c mod 64)%N ∧ (c mod 64 < 64)%N.
Proof. split; [apply N.div_mod'|by apply N.mod_lt]. Qed.

Lemma EncodeRune_self c :
  (c < 1114112)%N → surrogate c = false → self_delimiting (mkRune c (EncodeRune c)).
Proof.
  intros Hc Hsur. split.
  { unfold invalid_rune. simpl. destruct (N.eqb_spec c 65533) as [->|]; [reflexivity|done]. }
  intros t. cbn [bytes]. unfold EncodeRune. cbv zeta beta.
  destruct (base64 c) as [E1 L1]. destruct (base64 (c / 64)) as [E2 L2]. rewrite N.Div0.div_div in *.
  change (64 * 64)%N with 4096%N in *. destruct (base64 (c / 4096)) as [E3 L3]. rewrite N.Div0.div_div in *.
  change (4096 * 64)%N with 262144%N in *.
  set (r0 := (c mod 64)%N) in *. set (r1 := (c / 64 mod 64)%N) in *. set (r2 := (c / 4096 mod 64)%N) in *.
  set (q1 := (c / 64)%N) in *. set (q2 := (c / 4096)%N) in *. set (q3 := (c / 262144)%N) in *.
  clearbody r0 r1 r2 q1 q2 q3.
  destruct (N.ltb_spec c 128); [|destruct (N.ltb_spec c 2048); [|destruct (N.ltb_spec c 65536)]];
    rewrite ?string_cons_app, string_nil_app; unfold decode_rune; cbn [byte_at]; rewrite !N_ascii_embedding by lia; unfold sequence; decide_bytes;
    cbn [andb continuations byte_at]; rewrite ?N_ascii_embedding by lia; unfold continuation; decide_bytes;
    cbn [andb continuations byte_at]; rewrite ?N_ascii_embedding by lia; unfold continuation; decide_bytes;
    cbn [andb continuations byte_at]; rewrite ?N_ascii_embedding by lia; unfold continuation; decide_bytes;
    cbn [andb continuations byte_at take_bytes].
  - by rewrite Hsur.
  - replace ((192 + q1 - 192) * 64 + (128 + r0 - 128))%N with c by lia. decide_bytes. by rewrite Hsur.
  - replace (((224 + q2 - 224) * 64 + (128 + r1 - 128)) * 64 + (128 + r0 - 128))%N with c by lia.
    decide_bytes. by rewrite Hsur.
  - replace ((((240 + q3 - 240) * 64 + (128 + r2 - 128)) * 64 + (128 + r1 - 128)) * 64 + (128 + r0 - 128))%N
      with c by lia. decide_bytes. by rewrite Hsur.
Qed.

Lemma base64_split x y : (y < 64)%N → ((x * 64 + y) / 64 = x ∧ (x * 64 + y) mod 64 = y)%N.
Proof.
  intros Hy. split.
  - symmetry. apply (N.div_unique _ _ _ y); lia.
  - symmetry. apply (N.mod_unique _ _ x); lia.
Qed.

Lemma continuation_value a :
  continuation (N_of_ascii a) = true → ∃ y, N_of_ascii a = (128 + y)%N ∧ (y < 64)%N.
Proof.
  unfold continuation. intros [H1%N.leb_le H2%N.leb_le]%andb_true_iff.
  exists (N_of_ascii a - 128)%N. lia.
Qed.

Lemma ascii_of_value a n : N_of_ascii a = n → ascii_of_N n = a.
Proof. intros <-. apply ascii_N_embedding. Qed.

(** The bytes of a decoded rune are its encoding. *)
Lemma decode_rune_encoded s r s' :
  decode_rune s = Some (r, s') → invalid_rune r = false →
  bytes r = EncodeRune (code r) ∧ (code r < 1114112)%N ∧ surrogate (code r) = false.
Proof.
  intros Hd Hr. destruct (decode_rune_cases _ _ _ Hd) as [?|(b & n & v & lo & hi & cs & Hs & Hb & Ht & Hok)];
    [congruence|]. clear Hd Hr. destruct r as [c bs]. simpl in *. subst bs.
  apply andb_true_iff in Hok as [[Hlo%N.leb_le Hhi%N.leb_le]%andb_true_iff Hsur%negb_true_iff].
  pose proof (N_ascii_bounded b) as Hbb. destruct (Ht "") as [Hc Htake]. rewrite string_app_nil_r in Hc, Htake.
  assert (ascii_of_N (N_of_ascii b) = b) as Hb by apply ascii_N_embedding. unfold sequence in Hs.
  assert (∀ x a s k out, continuations (S k) x (String a s) = Some out →
    ∃ y, N_of_ascii a = (128 + y)%N ∧ (y < 64)%N ∧ continuations k (x * 64 + y) s = Some out) as Hstep.
  { intros x a s0 k out H. cbn [continuations byte_at] in H. destruct (continuation _) eqn:Ha; [|done].
    destruct (continuation_value _ Ha) as (y & Hy & ?). exists y. rewrite Hy in H.
    by replace (128 + y - 128)%N with y in H by lia. }
  revert Hs. destruct (N.ltb_spec (N_of_ascii b) 128);
    repeat match goal with |- (if ?x then _ else _) = _ → _ => destruct x eqn:? end; intros [= <- <- <- <-];
    repeat match goal with H : (_ && _) = true |- _ => apply andb_true_iff in H as [?%N.leb_le ?%N.leb_le] end.
  - simpl in Hc. injection Hc as <- ->. split; [|by split; [lia|]]. unfold EncodeRune. decide_bytes. by rewrite Hb.
  - destruct cs as [|a1 cs]; [done|]. apply Hstep in Hc as (y1 & E1 & L1 & Hc). injection Hc as <- ->.
    split; [|split; [lia|done]]. unfold EncodeRune. decide_bytes. destruct (base64_split (N_of_ascii b - 192) y1 L1) as [-> ->].
    rewrite (ascii_of_value a1 _ E1), (ascii_of_value b) by lia. done.
  - destruct cs as [|a1 cs]; [done|]. apply Hstep in Hc as (y1 & E1 & L1 & Hc).
    destruct cs as [|a2 cs]; [done|]. apply Hstep in Hc as (y2 & E2 & L2 & Hc). injection Hc as <- ->.
    split; [|split; [lia|done]]. unfold EncodeRune. decide_bytes.
    change 4096%N with (64 * 64)%N. rewrite <- N.Div0.div_div.
    destruct (base64_split ((N_of_ascii b - 224) * 64 + y1) y2 L2) as [-> ->].
    destruct (base64_split (N_of_ascii b - 224) y1 L1) as [-> ->].
    rewrite (ascii_of_value a1 _ E1), (ascii_of_value a2 _ E2), (ascii_of_value b) by lia. done.
  - destruct cs as [|a1 cs]; [done|]. apply Hstep in Hc as (y1 & E1 & L1 & Hc).
    destruct cs as [|a2 cs]; [done|]. apply Hstep in Hc as (y2 & E2 & L2 & Hc).
    destruct cs as [|a3 cs]; [done|]. apply Hstep in Hc as (y3 & E3 & L3 & Hc). injection Hc as <- ->.
    split; [|split; [lia|done]]. unfold EncodeRune. decide_bytes.
    change 262144%N with (64 * 64 * 64)%N. change 4096%N with (64 * 64)%N. rewrite <- !N.Div0.div_div.
    destruct (base64_split (((N_of_ascii b - 240) * 64 + y1) * 64 + y2) y3 L3) as [-> ->].
    destruct (base64_split ((N_of_ascii b - 240) * 64 + y1) y2 L2) as [-> ->].
    destruct (base64_split (N_of_ascii b - 240) y1 L1) as [-> ->].
    rewrite (ascii_of_value a1 _ E1), (ascii_of_value a2 _ E2), (ascii_of_value a3 _ E3).
    rewrite (ascii_of_value b) by lia. done.
Qed.
