(* ===== verification/Regexp.v ===== *)
(** * Package regexp

Leftmost-first matching and replacement of all matches, as far as the service
uses them; the meaning of a pattern as a relation between positions of a text;
what is left to match in a text in which every match was replaced. *)

From S2P Require Import Prelude Text.

(** ** The matcher *)

(** The fragment of the syntax the service uses.  [Rep] repeats at least [min]
and at most [max] times, preferring more ([greedy]) or fewer. *)
Inductive regex :=
| Cls (f : N → bool)
| Seq (a b : regex)
| Bound
| Rep (greedy : bool) (min : nat) (max : option nat) (r : regex).

Definition word_char (c : N) : bool :=
  ((48 <=? c) && (c <=? 57) || (65 <=? c) && (c <=? 90) || (97 <=? c) && (c <=? 122) || (c =? 95))%N.

(** [\b] between the rune before a position and the one after it. *)
Definition at_boundary (prev : option N) (s : list rune) : bool :=
  xorb (from_option word_char false prev) (from_option (λ r, word_char (code r)) false (head s)).

Section match_regex.
Context {A : Type}.

(** A repetition of [body], of at most [n] iterations. *)
Fixpoint match_rep (body : option N → list rune → (option N → list rune → option A) → option A)
    (greedy : bool) (n min : nat) (max : option nat) (prev : option N) (s : list rune)
    (k : option N → list rune → option A) : option A :=
  match n with
  | 0 => None
  | S n =>
      let more := body prev s (λ prev s, match_rep body greedy n (pred min) (pred <$> max) prev s k) in
      match min, max with
      | S _, _ => more
      | 0, Some 0 => k prev s
      | 0, _ =>
          if greedy then match more with Some a => Some a | None => k prev s end
          else match k prev s with Some a => Some a | None => more end
      end
  end.

(** The matcher in continuation style: [k] gets the rune before and the text
after the match, and the first success in the order of preference wins.  A loop
makes at most one iteration per rune left beyond its [min], which loses no match
because the bodies of the service's loops consume. *)
Fixpoint match_regex (r : regex) (prev : option N) (s : list rune)
    (k : option N → list rune → option A) : option A :=
  match r with
  | Cls f =>
      match s with
      | c :: s' => if f (code c) then k (Some (code c)) s' else None
      | [] => None
      end
  | Seq a b => match_regex a prev s (λ prev s, match_regex b prev s k)
  | Bound => if at_boundary prev s then k prev s else None
  | Rep greedy min max r => match_rep (match_regex r) greedy (S (min + length s)) min max prev s k
  end.
End match_regex.

(** [ReplaceAllString]: leftmost matches, one after the other; the patterns of
the service match no empty text and its replacements hold no [$]. *)
Fixpoint replace_all (fuel : nat) (r : regex) (by_ : string) (prev : option N) (s : list rune)
    : string :=
  match fuel with
  | 0 => concat_bytes s
  | S fuel =>
      match s with
      | [] => ""
      | c :: s' =>
          match match_regex r prev s (λ prev rest, Some (prev, rest)) with
          | Some (prev, rest) => by_ +:+ replace_all fuel r by_ prev rest
          | None => bytes c +:+ replace_all fuel r by_ (Some (code c)) s'
          end
      end
  end.

Definition ReplaceAllString (r : regex) (s by_ : string) : string :=
  let rs := runes s in replace_all (length rs) r by_ None rs.

Fixpoint literal (cs : list (N → bool)) (r : regex) : regex :=
  match cs with
  | [] => r
  | c :: cs => Seq (Cls c) (literal cs r)
  end.

(** ** What a match consumes *)

(** A pattern that only matches non-empty texts. *)
Fixpoint consumes (r : regex) : bool :=
  match r with
  | Cls _ => true
  | Seq a b => consumes a || consumes b
  | Bound => false
  | Rep _ min _ r => ⟦0 < min⟧ && consumes r
  end.

Section leftovers.
Context {A : Type}.
Implicit Types k : option N → list rune → option A.

(** [k] succeeded on what a match of [s] left: no more than [s], and less if the
match had to consume. *)
Definition leaves (must : bool) (s : list rune) k (a : A) : Prop :=
  ∃ prev' s', k prev' s' = Some a ∧ length s' <= length s ∧ (must = true → length s' < length s).

Lemma leaves_all s k a prev : k prev s = Some a → leaves false s k a.
Proof. intros H. exists prev, s. by split_and!. Qed.

Lemma leaves_then must must' (s : list rune) k a s1 :
  leaves must' s1 k a → length s1 <= length s → (must = true → length s1 < length s) →
  leaves (must || must') s k a ∧ leaves must s k a.
Proof.
  intros (p & s' & Hk & ? & Hc') ? Hc.
  split; exists p, s'; (split_and!; [done|lia|]).
  - intros [Hm|Hm]%orb_true_iff; [specialize (Hc Hm)|specialize (Hc' Hm)]; lia.
  - intros Hm. specialize (Hc Hm). lia.
Qed.

Lemma leaves_weaken must c s k a : leaves must s k a → leaves (c && must) s k a.
Proof. intros (p & s' & ? & ? & H). exists p, s'. split_and!; [done..|]. intros [_ ?]%andb_true_iff. auto. Qed.

Lemma match_rep_leaves body must greedy n min max prev s k a :
  (∀ prev s k, body prev s k = Some a → leaves must s k a) →
  match_rep body greedy n min max prev s k = Some a → leaves (⟦0 < min⟧ && must) s k a.
Proof.
  intros Hbody. revert min max prev s. induction n as [|n IH]; intros min max prev s; [done|].
  cbn [match_rep]. cbv zeta. set (more := body prev s _). intros H.
  assert (more = Some a → leaves (⟦0 < min⟧ && must) s k a) as Hmore.
  { intros (p & s1 & Hrest%IH & Hl & Hc)%Hbody. apply leaves_weaken.
    by destruct (leaves_then must _ _ _ _ _ Hrest Hl Hc). }
  destruct min as [|min]; [|by apply Hmore].
  assert (k prev s = Some a → leaves (⟦0 < 0⟧ && must) s k a) as Hstop by apply leaves_all.
  repeat case_match; simplify_eq; auto.
Qed.

Lemma match_regex_leaves (r : regex) prev s k a :
  match_regex r prev s k = Some a → leaves (consumes r) s k a.
Proof.
  revert prev s k. induction r as [f|r1 IH1 r2 IH2| |greedy min max r IH]; intros prev s k;
    cbn [match_regex consumes].
  - destruct s as [|c s]; [done|]. destruct (f _); [|done]. intros H. exists (Some (code c)), s.
    simpl. split_and!; [done|lia|intros _; lia].
  - intros (p & s1 & H2%IH2 & Hl & Hc)%IH1. by destruct (leaves_then _ _ _ _ _ _ H2 Hl Hc).
  - destruct (at_boundary _ _); [|done]. apply leaves_all.
  - by apply match_rep_leaves.
Qed.
End leftovers.

(** Fuel for the length of the text is enough. *)
Lemma replace_all_fuel r by_ n prev s :
  consumes r = true → length s <= n → replace_all n r by_ prev s = replace_all (length s) r by_ prev s.
Proof.
  intros Hr. revert s prev. induction n as [n IH] using lt_wf_ind. intros s prev Hn.
  destruct s as [|c s]; [by destruct n|]. destruct n as [|n]; simpl in Hn; [lia|].
  cbn [replace_all length]. destruct (match_regex _ _ _ _) as [[p rest]|] eqn:Hm.
  - destruct (match_regex_leaves _ _ _ _ _ Hm) as (p' & s' & [= -> ->] & _ & Hc).
    specialize (Hc Hr). simpl in Hc. rewrite (IH n), (IH (length s)) by lia. done.
  - rewrite (IH n) by lia. done.
Qed.

(** ** The meaning of a pattern *)

(** A position of a text: the rune before it and the text after it. *)
Abbreviation pos := (option N * list rune)%type.

(** [matches r x y]: [r] matches the text between [x] and [y]. *)
Fixpoint matches (r : regex) : pos → pos → Prop :=
  match r with
  | Cls f => λ x y, ∃ c, x.2 = c :: y.2 ∧ f (code c) = true ∧ y.1 = Some (code c)
  | Seq a b => λ x z, ∃ y, matches a x y ∧ matches b y z
  | Bound => λ x y, y = x ∧ at_boundary x.1 x.2 = true
  | Rep _ min max r => λ x y, ∃ n, min <= n ∧ from_option (λ m, n <= m) True max ∧ nsteps (matches r) n x y
  end.

(** Every loop has a body that consumes, and a range that is not empty. *)
Fixpoint well_formed (r : regex) : bool :=
  match r with
  | Cls _ | Bound => true
  | Seq a b => well_formed a && well_formed b
  | Rep _ min max r => consumes r && from_option (λ m, ⟦min <= m⟧) true max && well_formed r
  end.

Definition shrinks (must : bool) (x y : pos) : Prop :=
  length y.2 <= length x.2 ∧ (must = true → length y.2 < length x.2).

Lemma nsteps_shrinks (R : pos → pos → Prop) must n x y :
  (∀ x y, R x y → shrinks must x y) → nsteps R n x y → shrinks (⟦0 < n⟧ && must) x y.
Proof.
  intros HR. induction 1 as [x|n x y z [Hxy Hc]%HR _ [IH _]]; [done|].
  split; [lia|]. intros [_ Hm]%andb_true_iff. specialize (Hc Hm). lia.
Qed.

Lemma matches_shrinks r x y : matches r x y → shrinks (consumes r) x y.
Proof.
  revert x y. induction r as [f|a IHa b IHb| |g min max r IH]; intros x y; cbn [matches consumes].
  - intros (c & Hx & _). unfold shrinks. rewrite Hx. simpl. lia.
  - intros (z & [Hl Hc]%IHa & [Hl' Hc']%IHb). split; [lia|].
    intros [Hm|Hm]%orb_true_iff; [specialize (Hc Hm)|specialize (Hc' Hm)]; lia.
  - by intros [-> _].
  - intros (n & Hn & _ & [Hl Hc]%(nsteps_shrinks _ _ _ _ _ IH)). split; [lia|].
    intros [Hmin%bool_decide_eq_true Hm]%andb_true_iff. apply Hc. rewrite Hm, bool_decide_true by lia. done.
Qed.

(** What holds on along a text holds where a match ends. *)
Lemma matches_invariant (Φ : pos → Prop) r x y :
  (∀ p c s, Φ (p, c :: s) → Φ (Some (code c), s)) → matches r x y → Φ x → Φ y.
Proof.
  intros HΦ. revert x y. induction r as [g|a IHa b IHb| |g min max r IH]; intros x y; cbn [matches].
  - destruct x as [p s], y as [p' s']. simpl. intros (c & -> & _ & ->). apply HΦ.
  - intros (z & Ha & Hb) H. eauto.
  - by intros [-> _].
  - intros (n & _ & _ & Hn). induction Hn; eauto.
Qed.

(** Every match of the pattern takes a rune that [f] admits. *)
Fixpoint needs (f : N → bool) (r : regex) : Prop :=
  match r with
  | Cls g => ∀ c, g c = true → f c = true
  | Seq a b => needs f a ∨ needs f b
  | Bound => False
  | Rep _ min _ r => 0 < min ∧ needs f r
  end.

Lemma matches_needs f r x y :
  matches r x y → needs f r → ¬ Forall (λ c, f (code c) = false) x.2.
Proof.
  revert x y. induction r as [g|a IHa b IHb| |g min max r IH]; intros x y; cbn [matches needs].
  - intros (c & -> & Hg & _) Hf [Hc _]%Forall_cons. by rewrite Hf in Hc.
  - intros (z & Ha & Hb) [Hn|Hn] Hx; [by eapply IHa|]. apply (IHb _ _ Hb Hn).
    apply (matches_invariant (λ x, Forall (λ c, f (code c) = false) x.2) a x z); [|done..].
    by intros p c s [_ ?]%Forall_cons.
  - done.
  - intros (n & Hmin & _ & Hn) [Hpos Hneed]. destruct Hn as [x|n x z y Hxz _]; [lia|]. by eapply IH.
Qed.

Section correct.
Context {A : Type}.
Implicit Types k : option N → list rune → option A.

(** What a matcher [body] for the relation [R] has to do. *)
Definition sound_for (body : option N → list rune → (option N → list rune → option A) → option A)
    (R : pos → pos → Prop) : Prop :=
  ∀ p s k a, body p s k = Some a → ∃ y : pos, R (p, s) y ∧ k y.1 y.2 = Some a.
Definition complete_for (body : option N → list rune → (option N → list rune → option A) → option A)
    (R : pos → pos → Prop) : Prop :=
  ∀ x (y : pos) k, R x y → is_Some (k y.1 y.2) → is_Some (body x.1 x.2 k).

Lemma match_rep_sound body R g n min max p s k a :
  sound_for body R → from_option (λ m, min <= m) True max →
  match_rep body g n min max p s k = Some a →
  ∃ (i : nat) (y : pos), min <= i ∧ from_option (λ m, i <= m) True max ∧ nsteps R i (p, s) y ∧ k y.1 y.2 = Some a.
Proof.
  intros HR. revert min max p s. induction n as [|n IH]; intros min max p s Hmax; [done|].
  cbn [match_rep]. cbv zeta. set (more := body p s _). intros H.
  assert ((min = 0 → max ≠ Some 0) → more = Some a → ∃ (i : nat) (y : pos), min <= i ∧ from_option (λ m, i <= m) True max ∧
    nsteps R i (p, s) y ∧ k y.1 y.2 = Some a) as Hmore.
  { intros Hpos ([p1 s1] & H1 & (i & y & ? & Hi & ? & ?)%IH)%HR.
    - exists (S i), y. split_and!; [lia| |by econstructor|done]. destruct max as [m|]; [|done]. simpl in *.
      destruct m; [|lia]. destruct min; [by destruct Hpos|lia].
    - destruct max as [m|]; [|done]. simpl in *. destruct m; lia. }
  assert (min = 0 → k p s = Some a → ∃ (i : nat) (y : pos), min <= i ∧ from_option (λ m, i <= m) True max ∧
    nsteps R i (p, s) y ∧ k y.1 y.2 = Some a) as Hstop.
  { intros -> ?. exists 0, (p, s). split_and!; [lia| |constructor|done]. destruct max; simpl; [lia|done]. }
  repeat case_match; simplify_eq; auto.
Qed.

Lemma match_rep_complete body R g n i min max (x y : pos) k :
  complete_for body R → (∀ x y, R x y → length y.2 < length x.2) →
  nsteps R i x y → min <= i → from_option (λ m, i <= m) True max → min + length x.2 < n →
  is_Some (k y.1 y.2) → is_Some (match_rep body g n min max x.1 x.2 k).
Proof.
  intros HR Hc Hi. revert n min max.
  induction Hi as [x|i x y z Hxy _ IH]; intros n min max Hmin Hmax Hn Hk; (destruct n as [|n]; [lia|]);
    cbn [match_rep]; cbv zeta; set (more := body _ _ _).
  - replace min with 0 by lia. destruct Hk as [a Hk]. rewrite Hk. destruct max as [[|?]|], g, more; eauto.
  - assert (is_Some more) as [a Ha].
    { apply (HR x y); [done|]. apply IH; [lia| | |done].
      - destruct max as [[|m]|]; simpl in *; lia.
      - specialize (Hc _ _ Hxy). destruct min; simpl; lia. }
    rewrite Ha. destruct min, max as [[|?]|], g; simpl in *; try lia; eauto; destruct (k x.1 x.2); eauto.
Qed.

Lemma match_regex_sound r : well_formed r = true → sound_for (match_regex r) (matches r).
Proof.
  induction r as [f|a IHa b IHb| |g min max r IH]; cbn [well_formed]; intros Hwf p s k v;
    cbn [match_regex matches].
  - destruct s as [|c s]; [done|]. destruct (f _) eqn:Hf; [|done]. intros. by exists (Some (code c), s); eauto.
  - apply andb_true_iff in Hwf as [Ha Hb]. intros ([p1 s1] & H1 & (y & H2 & Hk)%(IHb Hb))%(IHa Ha).
    exists y. split; [by exists (p1, s1)|done].
  - destruct (at_boundary p s) eqn:Hb; [|done]. intros. by exists (p, s).
  - apply andb_true_iff in Hwf as [[_ Hmax]%andb_true_iff Hwf].
    intros (i & y & ? & ? & ? & ?)%(match_rep_sound _ _ _ _ _ _ _ _ _ _ (IH Hwf)).
    + by exists y; eauto.
    + destruct max; [|done]. by apply bool_decide_eq_true in Hmax.
Qed.

Lemma match_regex_complete r : well_formed r = true → complete_for (match_regex r) (matches r).
Proof.
  induction r as [f|a IHa b IHb| |g min max r IH]; cbn [well_formed]; intros Hwf x y k;
    cbn [match_regex matches].
  - destruct x as [p s], y as [p' s']. simpl. intros (c & -> & -> & ->) Hk. done.
  - apply andb_true_iff in Hwf as [Ha Hb]. intros (z & H1 & H2) Hk.
    apply (IHa Ha _ _ _ H1). by apply (IHb Hb z y k).
  - intros [-> ->] Hk. done.
  - apply andb_true_iff in Hwf as [[Hcons Hmax]%andb_true_iff Hwf]. intros (i & Hmin & Hi & Hn) Hk.
    eapply match_rep_complete; eauto.
    intros ?? [_ H]%matches_shrinks. auto.
Qed.
End correct.

#[export] Hint Resolve match_regex_sound match_regex_complete : ordersvc.

(** ** The meaning of a replacement *)

(** The longest text to which a class of runes leaves nothing to repeat. *)
Lemma greedy_class_maximal {A} f n min p s (k : option N → list rune → option A) a :
  (∀ p s, is_Some (k p s)) → min + length s < n →
  match_rep (match_regex (Cls f)) true n min None p s k = Some a →
  ∃ p' s', k p' s' = Some a ∧ from_option (λ r, f (code r)) false (head s') = false ∧
    ((min = 0 ∧ (p', s') = (p, s)) ∨ from_option f false p' = true).
Proof.
  intros Hk. revert min p s. induction n as [|n IH]; intros min p s Hn; [lia|].
  cbn [match_rep match_regex]. cbv zeta.
  assert (∀ c s', s = c :: s' → f (code c) = true →
    match_rep (match_regex (Cls f)) true n (pred min) None (Some (code c)) s' k = Some a →
    ∃ p' s', k p' s' = Some a ∧ from_option (λ r, f (code r)) false (head s') = false ∧
      ((min = 0 ∧ (p', s') = (p, s)) ∨ from_option f false p' = true)) as Hmore.
  { intros c s' -> Hf (p2 & s2 & ? & ? & Hlast)%IH; [|simpl in Hn; lia].
    exists p2, s2. split_and!; [done..|]. right. by destruct Hlast as [[_ [= -> ->]]|]. }
  destruct min as [|min]; destruct s as [|c s']; try done.
  - intros H. exists p, []. auto.
  - destruct (f (code c)) eqn:Hf; cbn [fmap option_fmap option_map].
    + destruct (match_rep _ _ _ _ _ _ _ _) eqn:Hm; intros [=]; subst.
      * by apply (Hmore c s').
      * destruct (match_rep_complete (match_regex (Cls f)) (matches (Cls f)) true n 0 (pred 0) None
          (Some (code c), s') (Some (code c), s') k) as [? Ht]; try done; simpl in *; try lia; try constructor.
        -- exact (match_regex_complete (Cls f) eq_refl).
        -- intros [??] [??] (? & -> & _). simpl. lia.
        -- congruence.
    + intros H. exists p, (c :: s'). simpl. auto.
  - destruct (f (code c)) eqn:Hf; [|done]. cbn [fmap option_fmap option_map]. by apply (Hmore c s').
Qed.

(** What a match has to leave for the replacement to start no new match: no word
goes on across its end. *)
Definition word_ends (p : option N) (s : list rune) : Prop :=
  from_option (λ r, word_char (code r)) false (head s) = true → from_option word_char false p = false.

Lemma boundary_word_ends p s : at_boundary p s = true → word_ends p s.
Proof. unfold at_boundary, word_ends. by destruct (from_option _ _ p), (from_option _ _ (head s)). Qed.

(** [replaced r by p s out]: [out] is the text [s] after the rune [p] with every
leftmost match of [r] replaced. *)
Inductive replaced (r : regex) (by_ : list rune) : option N → list rune → list rune → Prop :=
| replaced_end p : replaced r by_ p [] []
| replaced_match p s p' s' out :
    matches r (p, s) (p', s') → word_ends p' s' →
    replaced r by_ p' s' out → replaced r by_ p s (by_ ++ out)
| replaced_copy p c s out :
    (∀ y, ¬ matches r (p, c :: s) y) →
    replaced r by_ (Some (code c)) s out → replaced r by_ p (c :: s) (c :: out).

(** The match that the search prefers ends a word. *)
Definition ends_words (r : regex) : Prop :=
  ∀ p s p' s', match_regex r p s (λ p s, Some (p, s)) = Some (p', s') → word_ends p' s'.

Lemma replace_all_replaced r by_ p s :
  well_formed r = true → consumes r = true → ends_words r →
  ∃ out, replaced r by_ p s out ∧ replace_all (length s) r (concat_bytes by_) p s = concat_bytes out.
Proof.
  intros Hwf Hcons Hends. remember (length s) as n eqn:Hn. revert p s Hn.
  induction n as [n IH] using lt_wf_ind. intros p s ->. destruct s as [|c s].
  { exists []. split; [constructor|done]. }
  cbn [replace_all length]. destruct (match_regex _ _ _ _) as [[p' s']|] eqn:Hm.
  - destruct (match_regex_leaves _ _ _ _ _ Hm) as (p2 & s2 & [= -> ->] & _ & Hlt). specialize (Hlt Hcons).
    simpl in Hlt. rewrite replace_all_fuel by (done || lia).
    destruct (IH (length s') Hlt p' s' eq_refl) as (out & Hout & Ho). rewrite Ho.
    destruct (match_regex_sound r Hwf _ _ _ _ Hm) as ([p2 s2] & Hy & [= -> ->]).
    exists (by_ ++ out). split; [by eapply replaced_match; eauto|].
    unfold concat_bytes. rewrite foldr_app. fold (concat_bytes out). clear. induction by_ as [|b by_ IH]; [done|].
    simpl. by rewrite string_app_assoc, IH.
  - destruct (IH (length s) ltac:(simpl; lia) (Some (code c)) s eq_refl) as (out & Hout & Ho).
    rewrite Ho. exists (c :: out). split; [|done]. constructor; [|done]. intros y Hy.
    destruct (match_regex_complete r Hwf _ _ (λ p s, Some (p, s)) Hy) as [? H]; [done|]. simpl in H. congruence.
Qed.

(** ** What is left to match *)

(** No match of [r] starts at any position of the text [s] after the rune [p]. *)
Fixpoint no_match (r : regex) (p : option N) (s : list rune) : Prop :=
  (∀ y, ¬ matches r (p, s) y) ∧
  match s with [] => True | c :: s => no_match r (Some (code c)) s end.

Fixpoint no_match_b (r : regex) (p : option N) (s : list rune) : bool :=
  match match_regex r p s (λ p s, Some (p, s)) with Some _ => false | None => true end &&
  match s with [] => true | c :: s => no_match_b r (Some (code c)) s end.

Lemma no_match_without f r p s :
  needs f r → Forall (λ c, f (code c) = false) s → no_match r p s.
Proof.
  intros Hr. revert p. induction s as [|c s IH]; intros p Hs.
  - split; [|done]. intros y Hy. by apply (matches_needs f _ _ _ Hy).
  - split; [intros y Hy; by apply (matches_needs f _ _ _ Hy)|]. apply Forall_cons in Hs as [_ Hs]. by apply IH.
Qed.

Lemma no_match_b_correct r p s : well_formed r = true → no_match_b r p s = true → no_match r p s.
Proof.
  intros Hwf. revert p. induction s as [|c s IH]; intros p [Hm H]%andb_true_iff; (split; [|by auto]);
    intros y Hy; destruct (match_regex_complete r Hwf _ _ (λ p s, Some (p, s)) Hy) as [? He];
    (done || (simpl in He; by rewrite He in Hm)).
Qed.

(** [within f r]: [r] only matches runes of the class [f]. *)
Fixpoint within (f : N → bool) (r : regex) : Prop :=
  match r with
  | Cls g => ∀ c, g c = true → f c = true
  | Seq a b => within f a ∧ within f b
  | Bound => True
  | Rep _ _ _ r => within f r
  end.

Definition keeps_boundary (x y : pos) : Prop :=
  at_boundary x.1 x.2 = true → at_boundary y.1 y.2 = true.

(** [linked f x y]: what a pattern within [f] can read from [x], it can read from
[y]: the texts agree up to a rune of [x] that is not in [f]. *)
Inductive linked (f : N → bool) : pos → pos → Prop :=
| linked_stop x y :
    keeps_boundary x y → from_option (λ c, f (code c)) false (head x.2) = false → linked f x y
| linked_rune p p' c s s' :
    keeps_boundary (p, c :: s) (p', c :: s') → linked f (Some (code c), s) (Some (code c), s') →
    linked f (p, c :: s) (p', c :: s').

Lemma linked_boundary f x y : linked f x y → keeps_boundary x y.
Proof. by destruct 1. Qed.

Lemma matches_linked f r x x' y :
  within f r → matches r x x' → linked f x y → ∃ y', matches r y y' ∧ linked f x' y'.
Proof.
  revert x x' y. induction r as [g|a IHa b IHb| |g min max r IH]; intros x x' y; cbn [within matches].
  - intros Hw (c & Hs & Hg & Hp) Hl. inversion Hl as [? ? _ Hstop|p p' c' s s' _ Hl']; subst; simpl in *.
    + rewrite Hs in Hstop. simpl in Hstop. apply Hw in Hg. congruence.
    + simplify_eq. exists (Some (code c), s'). destruct x'; simpl in *; subst. by eauto.
  - intros [Hwa Hwb] (z & Ha & Hb) Hl. destruct (IHa _ _ _ Hwa Ha Hl) as (z' & Ha' & Hl').
    destruct (IHb _ _ _ Hwb Hb Hl') as (y' & ? & ?). eauto.
  - intros _ [-> Hb] Hl. exists y. split; [|done]. split; [done|]. by apply (linked_boundary _ _ _ Hl).
  - intros Hw (n & Hmin & Hmax & Hn) Hl.
    assert (∃ y', nsteps (matches r) n y y' ∧ linked f x' y') as (y' & ? & ?); [|by eauto 10].
    clear Hmin Hmax. revert y Hl. induction Hn as [x|n x z w Hxz _ IHn]; intros y Hl.
    + exists y. split; [constructor|done].
    + destruct (IH _ _ _ Hw Hxz Hl) as (z' & ? & Hl'). destruct (IHn z' Hl') as (y' & ? & ?).
      exists y'. split; [by econstructor|done].
Qed.

Lemma linked_prefix f m c p out :
  f (code c) = false → linked f (p, m ++ c :: out) (p, m ++ [c]).
Proof.
  intros Hc. revert p. induction m as [|d m IH]; intros p; simpl.
  - by apply linked_stop; [exact id|].
  - by apply linked_rune; [exact id|].
Qed.

(** Nothing to match in a text that ends with a rune outside of the pattern:
nothing to match in it before any other text. *)
Lemma no_match_before f r m c p out :
  within f r → f (code c) = false → no_match r p (m ++ [c]) →
  no_match r (Some (code c)) out → no_match r p (m ++ c :: out).
Proof.
  intros Hw Hc Hm Hout. revert p Hm. induction m as [|d m IH]; intros p [H0 Hm]; simpl.
  - split; [|exact Hout]. intros y Hy. destruct (matches_linked f r _ _ (p, [c]) Hw Hy) as (y' & Hy' & _).
    + by apply (linked_prefix f [] c).
    + by apply (H0 y').
  - split; [|by apply IH]. intros y Hy.
    destruct (matches_linked f r _ _ (p, d :: m ++ [c]) Hw Hy) as (y' & Hy' & _).
    + by apply (linked_prefix f (d :: m) c).
    + by apply (H0 y').
Qed.

(** What precedes a rune outside of the pattern does not matter, if a word does not. *)
Lemma no_match_any f r p c s :
  within f r → f (code c) = false → word_char (code c) = false →
  no_match r (Some 65%N) (c :: s) → no_match r p (c :: s).
Proof.
  intros Hw Hf Hc [H0 Hs]. split; [|done]. intros y Hy.
  destruct (matches_linked f r _ _ (Some 65%N, c :: s) Hw Hy) as (y' & Hy' & _); [|by apply (H0 y')].
  apply linked_stop; [|done]. intros _. unfold at_boundary. simpl. by rewrite Hc.
Qed.

Section replaced.
(** [P] is replaced by a text in brackets.  [f] holds no bracket, and no match of
[Q], which is within [f], starts in the replacement, whatever comes before. *)
Context (f : N → bool) (P Q : regex) (m : list rune) (open close : rune).
Context (within_f : within f Q) (consumes_Q : consumes Q = true).
Context (f_open : f (code open) = false) (f_close : f (code close) = false).
Context (close_no_word : word_char (code close) = false).
Context (at_word : ∀ x y, matches P x y → at_boundary x.1 x.2 = true).
Context (not_inside : ∀ p, no_match Q p (open :: m ++ [close])).

Definition fits (po p : option N) (s : list rune) : Prop :=
  po = p ∨ (from_option word_char false po = false ∧ word_ends p s).

Lemma replaced_linked po p s out :
  replaced P (open :: m ++ [close]) p s out → fits po p s → linked f (po, out) (p, s).
Proof.
  intros H. revert po. induction H as [p|p s p' s' out Hm _ _ _|p c s out _ _ IH]; intros po Hpo.
  - apply linked_stop; [|done]. unfold keeps_boundary, at_boundary. simpl.
    destruct Hpo as [->|[-> _]]; done.
  - apply linked_stop; [|done]. intros _. by apply (at_word _ _ Hm).
  - apply linked_rune; [|by apply IH; left]. unfold keeps_boundary, at_boundary. simpl.
    destruct Hpo as [->|[-> Hw]]; [done|]. unfold word_ends in Hw. simpl in Hw.
    destruct (word_char (code c)); [by rewrite Hw|done].
Qed.

(** What the replacement leaves: if nothing matched before, nothing does; and
nothing matches the replaced pattern itself. *)
Lemma replaced_no_match po p s out :
  replaced P (open :: m ++ [close]) p s out → Q = P ∨ no_match Q p s → fits po p s → no_match Q po out.
Proof.
  intros H. revert po. induction H as [p|p s p' s' out Hm Hends _ IH|p c s out Hno Hr IH]; intros po HQ Hpo.
  - split; [|done]. intros y [_ Hc]%matches_shrinks. specialize (Hc consumes_Q). simpl in Hc. lia.
  - replace ((open :: m ++ [close]) ++ out) with ((open :: m) ++ close :: out)
      by (simpl; by rewrite <- app_assoc).
    apply (no_match_before f); [done..| |].
    + apply not_inside.
    + apply IH; [|by right]. destruct HQ as [->|HQ]; [by left|]. right.
      apply (matches_invariant (λ x, no_match Q x.1 x.2) P (p, s) (p', s')); [|done..].
      by intros ??? [_ ?].
  - simpl. assert (replaced P (open :: m ++ [close]) p (c :: s) (c :: out)) as Hc by by constructor.
    split; [|apply IH; [|by left]; destruct HQ as [->|[_ ?]]; auto].
    intros y Hy. destruct (matches_linked f Q _ _ (p, c :: s) within_f Hy) as (y' & Hy' & _).
    + by apply replaced_linked.
    + destruct HQ as [->|[HQ _]]; [by apply (Hno y')|by apply (HQ y')].
Qed.
End replaced.

(** ** Replacing in a decoded text *)

Lemma string_app_inv a s t : a +:+ s = a +:+ t → s = t.
Proof. induction a as [|c a IH]; [done|]. intros H. apply IH. by injection H. Qed.

(** Runes that are the decoding of their bytes. *)
Definition decoded (s : list rune) : Prop := runes (concat_bytes s) = s.

Lemma decoded_runes t : decoded (runes t).
Proof. unfold decoded. by rewrite concat_runes. Qed.

Lemma decoded_cons c s :
  decoded (c :: s) → decode_rune (concat_bytes (c :: s)) = Some (c, concat_bytes s) ∧ decoded s.
Proof.
  unfold decoded. set (t := concat_bytes (c :: s)). intros H.
  destruct (decode_rune t) as [[r t']|] eqn:Hd.
  - pose proof (runes_decode _ _ _ Hd) as Hr. rewrite H in Hr. injection Hr as -> Hr.
    destruct (decode_rune_bytes _ _ _ Hd) as [Hb _]. apply string_app_inv in Hb as ->. by split; [|symmetry].
  - destruct t as [|x t0] eqn:Ht; [done|]. destruct (decode_rune_total x t0). congruence.
Qed.

(** Writing a replaced text and reading it back gives the same runes. *)
Lemma replaced_decoded P m p s out :
  Forall self_delimiting m → (∃ a m', m = rune_of a :: m' ∧ (N_of_ascii a < 128)%N) → replaced P m p s out → decoded s →
  decoded out ∧ cut (concat_bytes out) (concat_bytes s).
Proof.
  intros Hm Hne. induction 1 as [p|p s p' s' out Hmatch _ _ IH|p c s out _ _ IH]; intros Hs.
  - split; [done|constructor].
  - destruct IH as [IH _].
    { apply (matches_invariant (λ x, decoded x.2) P (p, s) (p', s')); [|done..].
      by intros ??? [_ ?]%decoded_cons. }
    unfold decoded. rewrite concat_bytes_app, runes_self, IH by done. split; [done|].
    destruct Hne as (a & m' & -> & Ha). by apply cut_here.
  - apply decoded_cons in Hs as [Hd Hs]. destruct (IH Hs) as [Hout Hcut]. split.
    + unfold decoded. simpl. rewrite (runes_decode _ _ _ (decode_rune_cut _ _ _ _ Hd Hcut)). by rewrite Hout.
    + by apply cut_app.
Qed.
