(* ===== verification/Prog.v ===== *)
(** * Effectful programs

Go code that calls its collaborators is a [prog]: a finite tree whose nodes
are calls to an interface and whose branches are the answers.  The file gives
its monad, its executions (with crashes), a deterministic interpreter, a
weakest-precondition calculus over protocols and the interpretation of one
interface by programs over another. *)

From S2P Require Import Prelude.

(** ** Programs *)

(** [Panic] is a run-time panic (a nil dereference). *)
Inductive prog (E : Type → Type) (A : Type) : Type :=
| Ret (a : A)
| Panic (msg : string)
| Vis {R : Type} (e : E R) (k : R → prog E A).
Arguments Ret {E A} _.
Arguments Panic {E A} _.
Arguments Vis {E A R} _ _.

Definition trigger {E R} (e : E R) : prog E R := Vis e Ret.

Fixpoint prog_bind {E A B} (f : A → prog E B) (p : prog E A) : prog E B :=
  match p with
  | Ret a => f a
  | Panic msg => Panic msg
  | Vis e k => Vis e (λ r, prog_bind f (k r))
  end.

#[global] Instance prog_mret {E} : MRet (prog E) := λ A, Ret.
#[global] Instance prog_mbind {E} : MBind (prog E) := λ A B, prog_bind.

(** A pointer dereference: panics on nil. *)
Definition deref {E A} (ptr : option A) : prog E A :=
  match ptr with Some a => Ret a | None => Panic "nil pointer dereference" end.

(** ** Executions *)

(** One call with the answer it got. *)
Inductive call (E : Type → Type) : Type :=
| Call {R : Type} (e : E R) (r : R).
Arguments Call {E R} _ _.

(** How an execution ends: with a result, a panic, or because the process was
stopped between two calls. *)
Inductive outcome (A : Type) : Type :=
| Returned (a : A)
| Panicked (msg : string)
| Interrupted.
Arguments Returned {A} _. Arguments Panicked {A} _. Arguments Interrupted {A}.

(** [exec p tr o]: the program can make the calls of [tr], get their answers
and end as [o]. *)
Fixpoint exec {E A} (p : prog E A) (tr : list (call E)) (o : outcome A) : Prop :=
  (tr = [] ∧ o = Interrupted) ∨
  match p with
  | Ret a => tr = [] ∧ o = Returned a
  | Panic msg => tr = [] ∧ o = Panicked msg
  | Vis e k => ∃ r tr', tr = Call e r :: tr' ∧ exec (k r) tr' o
  end.

(** Running against a deterministic, stateful implementation of the calls. *)
Definition handler (E : Type → Type) (W : Type) : Type := ∀ R, E R → W → R * W.

Fixpoint run {E A W} (h : handler E W) (p : prog E A) (w : W) : outcome A * W :=
  match p with
  | Ret a => (Returned a, w)
  | Panic msg => (Panicked msg, w)
  | Vis e k => let '(r, w') := h _ e w in run h (k r) w'
  end.

(** The calls of that run. *)
Fixpoint run_trace {E A W} (h : handler E W) (p : prog E A) (w : W) : list (call E) :=
  match p with
  | Ret _ | Panic _ => []
  | Vis e k => let '(r, w') := h _ e w in Call e r :: run_trace h (k r) w'
  end.

(** ** Protocols and weakest preconditions *)

(** A protocol over ghost states: which calls a program may make in a ghost
state, and which answers (with the ghost state after them) it may rely on. *)
Record protocol (E : Type → Type) := Protocol {
  ghost : Type;
  allowed : ∀ R, ghost → E R → Prop;
  answers : ∀ R, ghost → E R → R → ghost → Prop }.
Arguments ghost {E} _.
Arguments allowed {E} _ {R} _ _.
Arguments answers {E} _ {R} _ _ _ _.

(** [wp P p Q g]: from ghost state [g], [p] makes only allowed calls, never
panics, and returns with [Q] when the answers respect the protocol. *)
Fixpoint wp {E A} (P : protocol E) (p : prog E A)
    (Q : A → ghost P → Prop) (g : ghost P) : Prop :=
  match p with
  | Ret a => Q a g
  | Panic _ => False
  | Vis e k => allowed P g e ∧ ∀ r g', answers P g e r g' → wp P (k r) Q g'
  end.

(** The ghost states a trace can lead to when its answers respect [P]. *)
Fixpoint follows {E} (P : protocol E) (g : ghost P) (tr : list (call E)) (g' : ghost P) : Prop :=
  match tr with
  | [] => g' = g
  | Call e r :: tr => ∃ g1, answers P g e r g1 ∧ follows P g1 tr g'
  end.

(** The call of a trace element is allowed. *)
Definition call_allowed {E} (P : protocol E) (g : ghost P) (c : call E) : Prop :=
  match c with Call e _ => allowed P g e end.

(** ** Interpretation of an interface by another *)

Fixpoint interp {E F A} (h : ∀ R, E R → prog F R) (p : prog E A) : prog F A :=
  match p with
  | Ret a => Ret a
  | Panic msg => Panic msg
  | Vis e k => prog_bind (λ r, interp h (k r)) (h _ e)
  end.

(** Pointwise equality of programs: the same calls and, after equal answers,
equal programs. *)
Fixpoint prog_eq {E A} (p q : prog E A) : Prop :=
  match p with
  | Ret a => q = Ret a
  | Panic msg => q = Panic msg
  | Vis e k => ∃ k', q = Vis e k' ∧ ∀ r, prog_eq (k r) (k' r)
  end.

#[global] Instance prog_equiv {E A} : Equiv (prog E A) := prog_eq.

(** A run against an implementation is an execution. *)
Lemma run_exec {E A W} (h : handler E W) (p : prog E A) w :
  exec p (run_trace h p w) (run h p w).1.
Proof.
  revert w. induction p as [a|msg|R e k IH]; intros w; cbn; [by right..|].
  destruct (h R e w) as [r w'] eqn:Hh. right. exists r, (run_trace h (k r) w'). by split.
Qed.

(** The complete executions of a sequence. *)
Lemma exec_bind {E A B} (p : prog E A) (f : A → prog E B) tr b :
  exec (p ≫= f) tr (Returned b) ↔
  ∃ a tr1 tr2, tr = tr1 ++ tr2 ∧ exec p tr1 (Returned a) ∧ exec (f a) tr2 (Returned b).
Proof.
  revert tr. induction p as [a|msg|R e k IH]; intros tr; cbn.
  - split.
    + intros H. exists a, [], tr. auto.
    + by intros (a' & tr1 & tr2 & -> & [[_ ?]|[-> [= ->]]] & Hf).
  - split; [intros [[_ ?]|[_ ?]]; done|]. intros (a' & ? & ? & _ & [[_ ?]|[_ ?]] & _); done.
  - split.
    + intros [[_ ?]|(r & tr' & -> & H)]; [done|]. apply IH in H as (a & tr1 & tr2 & -> & H1 & H2).
      exists a, (Call e r :: tr1), tr2. split; [done|]. split; [|done]. right. eauto.
    + intros (a & tr1 & tr2 & -> & [[_ ?]|(r & tr' & -> & H1)] & H2); [done|]. right.
      exists r, (tr' ++ tr2). split; [done|]. apply IH. by exists a, tr', tr2.
Qed.

Lemma exec_ret {E A} (a : A) (tr : list (call E)) b :
  exec (Ret a) tr (Returned b) ↔ tr = [] ∧ b = a.
Proof. simpl. split; [intros [[_ ?]|[? [= ->]]]; done|]. intros [-> ->]. by right. Qed.

Lemma exec_trigger {E A R} (e : E R) (k : R → prog E A) tr b :
  exec (trigger e ≫= k) tr (Returned b) ↔ ∃ r tr', tr = Call e r :: tr' ∧ exec (k r) tr' (Returned b).
Proof. simpl. split; [intros [[_ ?]|?]; done|]. by right. Qed.

(** ** The monad *)

Section monad.
Context {E : Type → Type}.

Lemma bind_ret_l {A B} (a : A) (f : A → prog E B) : (Ret a ≫= f) = f a.
Proof. reflexivity. Qed.

Lemma bind_trigger {R A} (e : E R) (k : R → prog E A) : (trigger e ≫= k) = Vis e k.
Proof. reflexivity. Qed.

#[global] Instance prog_eq_refl {A} : Reflexive (≡@{prog E A}).
Proof. intros p. induction p as [| |R e k IH]; cbn; [done..|]. by exists k. Qed.

#[global] Instance prog_eq_sym {A} : Symmetric (≡@{prog E A}).
Proof.
  intros p. induction p as [| |R e k IH]; cbn; intros q H; [by subst..|].
  destruct H as (k' & -> & H). exists k. split; [done|]. intros r. by apply IH.
Qed.

#[global] Instance prog_eq_trans {A} : Transitive (≡@{prog E A}).
Proof.
  intros p. induction p as [| |R e k IH]; cbn; intros q s Hpq Hqs; [by subst..|].
  destruct Hpq as (k' & -> & Hk). destruct Hqs as (k'' & -> & Hk').
  exists k''. split; [done|]. intros r. eapply IH; [apply Hk|apply Hk'].
Qed.

#[global] Instance prog_eq_equivalence {A} : Equivalence (≡@{prog E A}).
Proof. split; apply _. Qed.

#[global] Instance prog_bind_proper {A B} :
  Proper (pointwise_relation A (≡) ==> (≡) ==> (≡)) (@prog_bind E A B).
Proof.
  intros f g Hfg p. induction p as [a| |R e k IH]; cbn; intros q H; subst; cbn.
  - apply Hfg.
  - done.
  - destruct H as (k' & -> & Hk). cbn. eexists. split; [done|]. intros r. by apply IH.
Qed.

Lemma bind_assoc {A B C} (p : prog E A) (f : A → prog E B) (g : B → prog E C) :
  (p ≫= f) ≫= g ≡ p ≫= (λ a, f a ≫= g).
Proof.
  induction p as [a| |R e k IH]; [done..|].
  cbn. eexists. split; [done|]. intros r. apply IH.
Qed.

Lemma bind_ret_r {A} (p : prog E A) : p ≫= Ret ≡ p.
Proof.
  induction p as [a| |R e k IH]; [done..|].
  cbn. eexists. split; [done|]. intros r. apply IH.
Qed.
End monad.

(** ** Rules of the calculus *)

Section wp_rules.
Context {E : Type → Type} (P : protocol E).

Lemma wp_ret {A} (a : A) (Q : A → ghost P → Prop) g : Q a g → wp P (Ret a) Q g.
Proof. done. Qed.

Lemma wp_mono {A} (p : prog E A) (Q Q' : A → ghost P → Prop) g :
  wp P p Q g → (∀ a g', Q a g' → Q' a g') → wp P p Q' g.
Proof.
  revert g. induction p as [a| |R e k IH]; cbn; intros g Hp HQ; [by apply HQ|done|].
  destruct Hp as [Ha Hk]. split; [done|]. intros r g' Hr. apply IH; eauto.
Qed.

Lemma wp_and {A} (p : prog E A) (Q Q' : A → ghost P → Prop) g :
  wp P p Q g → wp P p Q' g → wp P p (λ a g', Q a g' ∧ Q' a g') g.
Proof.
  revert g. induction p as [a| |R e k IH]; cbn; intros g Hp Hp'; [done..|].
  destruct Hp as [Ha Hk], Hp' as [_ Hk']. split; [done|]. auto.
Qed.

Lemma wp_bind {A B} (p : prog E A) (f : A → prog E B) Q g :
  wp P p (λ a g', wp P (f a) Q g') g → wp P (p ≫= f) Q g.
Proof.
  revert g. induction p as [a| |R e k IH]; cbn; intros g Hp; [done..|].
  destruct Hp as [Ha Hk]. split; [done|]. intros r g' Hr. by apply IH, Hk.
Qed.

Lemma wp_bind_mono {A B} (p : prog E A) (f : A → prog E B) (Q : A → ghost P → Prop) Q' g :
  wp P p Q g → (∀ a g', Q a g' → wp P (f a) Q' g') → wp P (p ≫= f) Q' g.
Proof. intros Hp Hf. apply wp_bind. by eapply wp_mono. Qed.

Lemma wp_trigger {R A} (e : E R) (k : R → prog E A) Q g :
  allowed P g e → (∀ r g', answers P g e r g' → wp P (k r) Q g') →
  wp P (trigger e ≫= k) Q g.
Proof. by split. Qed.

Lemma wp_proper {A} (p q : prog E A) Q g : p ≡ q → wp P p Q g → wp P q Q g.
Proof.
  revert q g. induction p as [a| |R e k IH]; cbn; intros q g Heq Hp; [by subst..|].
  destruct Heq as (k' & -> & Hk). destruct Hp as [Ha Hp].
  split; [done|]. intros r g' Hr. eapply IH; [apply Hk|by apply Hp].
Qed.

(** Every execution whose answers respect the protocol makes allowed calls
only, does not panic, and returns with the postcondition. *)
Lemma wp_exec {A} (p : prog E A) Q g tr o g' :
  wp P p Q g → exec p tr o → follows P g tr g' →
  (∀ tr1 c tr2, tr = tr1 ++ c :: tr2 →
     ∃ g1, follows P g tr1 g1 ∧ call_allowed P g1 c) ∧
  match o with Returned a => Q a g' | Panicked _ => False | Interrupted => True end.
Proof.
  revert g tr. induction p as [a|msg|R e k IH]; cbn; intros g tr Hp He Hf.
  - destruct He as [[-> ->]|[-> ->]]; cbn in Hf; subst g';
      (split; [intros [] * ?; simplify_eq/=|done]).
  - done.
  - destruct Hp as [Ha Hk]. destruct He as [[-> ->]|(r & tr' & -> & He)].
    + split; [intros [] * ?; simplify_eq/=|done].
    + destruct Hf as (g1 & Hr & Hf). destruct (IH r g1 tr' (Hk _ _ Hr) He Hf) as [Hc Ho].
      split; [|done]. intros [|c tr1] c' tr2 Heq; simplify_list_eq.
      * by exists g.
      * destruct (Hc tr1 _ _ eq_refl) as (g2 & Hg2 & Hal).
        exists g2. split; [|done]. by exists g1.
Qed.
End wp_rules.

(** Interpreting a program by a handler that turns allowed calls into programs
with protocol answers. *)
Lemma wp_interp {E F : Type → Type} {G A : Type}
    (allowed1 : ∀ R, G → E R → Prop) (answers1 : ∀ R, G → E R → R → G → Prop)
    (allowed2 : ∀ R, G → F R → Prop) (answers2 : ∀ R, G → F R → R → G → Prop)
    (h : ∀ R, E R → prog F R) (p : prog E A) Q g :
  (∀ R (e : E R) g, allowed1 R g e →
     wp (Protocol F G allowed2 answers2) (h R e) (answers1 R g e) g) →
  wp (Protocol E G allowed1 answers1) p Q g →
  wp (Protocol F G allowed2 answers2) (interp h p) Q g.
Proof.
  intros Hh. revert g. induction p as [a| |R e k IH]; cbn; intros g Hp; [done..|].
  destruct Hp as [Ha Hk]. eapply wp_bind_mono; [by apply Hh|].
  intros r g' Hr. by apply IH, Hk.
Qed.

(** [wp] is stepped with its rules, never by computation. *)
#[global] Arguments wp : simpl never.
