(* ===== verification/Domain.v ===== *)
(** * The Order aggregate (src/internal/domain/order.go)

The aggregate's data, its constructor, [Total] on 64-bit integers, the five
transition methods and the event buffer, with the lifecycle relation they
implement. *)

From S2P Require Import Prelude GoValues Text.

(** ** Data *)

(** [type OrderStatus string]: the status read back from the database may be
any string, so it stays one here. *)
Definition OrderStatus : Type := string.

Definition OrderStatusPending : OrderStatus := "pending".
Definition OrderStatusPaid : OrderStatus := "paid".
Definition OrderStatusFailed : OrderStatus := "failed".
Definition OrderStatusPaymentUnknown : OrderStatus := "payment_unknown".
Definition OrderStatusFulfillmentPending : OrderStatus := "fulfillment_pending".
Definition OrderStatusCompleted : OrderStatus := "completed".

#[global] Instance OrderStatus_eq_dec : EqDecision OrderStatus := String.eq_dec.

(** [time.Time] as nanoseconds since the epoch. *)
Definition Time : Type := Z.
Bind Scope Z_scope with Time.

Record OrderItem := mkOrderItem {
  ProductID : string;
  Quantity : Z;
  UnitPrice : Z }.

Record Event := mkEvent {
  Name : string;
  At : Time;
  Attrs : list (string * any) }.

Record Order := mkOrder {
  ID : string;
  CustomerID : string;
  Items : list OrderItem;
  Status : OrderStatus;
  CreatedAt : Time;
  PaymentReference : string;
  events : list Event }.

#[global] Instance OrderItem_eq_dec : EqDecision OrderItem.
Proof. solve_decision. Defined.

(** Assignments to one field. *)
Definition set_Status (s : OrderStatus) (o : Order) : Order :=
  mkOrder (ID o) (CustomerID o) (Items o) s (CreatedAt o) (PaymentReference o) (events o).
Definition set_PaymentReference (ref : string) (o : Order) : Order :=
  mkOrder (ID o) (CustomerID o) (Items o) (Status o) (CreatedAt o) ref (events o).
Definition set_events (es : list Event) (o : Order) : Order :=
  mkOrder (ID o) (CustomerID o) (Items o) (Status o) (CreatedAt o) (PaymentReference o) es.

(** ** Operations *)

Definition record (e : Event) (o : Order) : Order := set_events (events o ++ [e]) o.

(** The guard of one line item in [NewOrder]. *)
Definition invalid_item (item : OrderItem) : bool :=
  ⟦ProductID item = ""⟧ || (Quantity item <=? 0)%Z || (UnitPrice item <? 0)%Z.

Definition NewOrder (id customerID : string) (items : list OrderItem)
    (createdAt : Time) : option Order * option error :=
  if ⟦customerID = ""⟧ then (None, Some (Sentinel ErrEmptyCustomer))
  else if ⟦length items = 0⟧ then (None, Some (Sentinel ErrEmptyOrder))
  else if existsb invalid_item items then (None, Some (Sentinel ErrInvalidOrderItem))
  else
    let itemsCopy := items in
    let o := mkOrder id customerID itemsCopy OrderStatusPending createdAt "" [] in
    (Some (record (mkEvent "order.created" createdAt
        [("order_id", VString id); ("item_count", VInt (Z.of_nat (length items)))]) o),
     None).

(** [total += it.UnitPrice * int64(it.Quantity)], wrapping at each operation. *)
Definition Total (o : Order) : Z :=
  foldl (λ total it, wrap64 (total + wrap64 (UnitPrice it * Quantity it))) 0%Z (Items o).

(** [fmt.Errorf("%w: current status %q", sentinel, o.Status)]. *)
Definition status_error (s : sentinel) (o : Order) : error :=
  Errorf [Wrap (Sentinel s); Lit ": current status "; Lit (quoted (Status o))].

Definition MarkPaid (o : Order) (paidAt : Time) (paymentRef : string) : Order * option error :=
  if ⟦Status o ≠ OrderStatusPending ∧ Status o ≠ OrderStatusPaymentUnknown⟧
  then (o, Some (status_error ErrOrderNotPending o))
  else
    let o := set_Status OrderStatusPaid o in
    let o := set_PaymentReference paymentRef o in
    (record (mkEvent "order.paid" paidAt [("order_id", VString (ID o))]) o, None).

Definition MarkFailed (o : Order) (failedAt : Time) (reason : string) : Order * option error :=
  if ⟦Status o ≠ OrderStatusPending ∧ Status o ≠ OrderStatusPaymentUnknown⟧
  then (o, Some (status_error ErrOrderNotPending o))
  else
    let o := set_Status OrderStatusFailed o in
    (record (mkEvent "order.failed" failedAt
       [("order_id", VString (ID o)); ("reason", VString reason)]) o, None).

Definition MarkPaymentUnknown (o : Order) (at_ : Time) (reason : string) : Order * option error :=
  if ⟦Status o ≠ OrderStatusPending⟧
  then (o, Some (status_error ErrOrderNotPending o))
  else
    let o := set_Status OrderStatusPaymentUnknown o in
    (record (mkEvent "order.payment_unknown" at_
       [("order_id", VString (ID o)); ("reason", VString reason)]) o, None).

Definition MarkFulfillmentPending (o : Order) (at_ : Time) (reason : string)
    : Order * option error :=
  if ⟦Status o ≠ OrderStatusPaid⟧
  then (o, Some (status_error ErrOrderNotPaid o))
  else
    let o := set_Status OrderStatusFulfillmentPending o in
    (record (mkEvent "order.fulfillment_pending" at_
       [("order_id", VString (ID o)); ("reason", VString reason)]) o, None).

Definition Complete (o : Order) (completedAt : Time) : Order * option error :=
  if ⟦Status o ≠ OrderStatusPaid ∧ Status o ≠ OrderStatusFulfillmentPending⟧
  then (o, Some (status_error ErrOrderNotPaid o))
  else
    let o := set_Status OrderStatusCompleted o in
    (record (mkEvent "order.completed" completedAt [("order_id", VString (ID o))]) o, None).

(** Returns the drained events and the aggregate without them. *)
Definition PullEvents (o : Order) : list Event * Order := (events o, set_events [] o).

(** ** The lifecycle the methods implement *)

Inductive transition : OrderStatus → OrderStatus → Prop :=
| pending_paid : transition OrderStatusPending OrderStatusPaid
| pending_failed : transition OrderStatusPending OrderStatusFailed
| pending_unknown : transition OrderStatusPending OrderStatusPaymentUnknown
| unknown_paid : transition OrderStatusPaymentUnknown OrderStatusPaid
| unknown_failed : transition OrderStatusPaymentUnknown OrderStatusFailed
| paid_fulfillment : transition OrderStatusPaid OrderStatusFulfillmentPending
| paid_completed : transition OrderStatusPaid OrderStatusCompleted
| fulfillment_completed : transition OrderStatusFulfillmentPending OrderStatusCompleted.
#[export] Hint Constructors transition : ordersvc.

(** The statuses of the CHECK constraint. *)
Definition known_statuses : list OrderStatus :=
  [OrderStatusPending; OrderStatusPaid; OrderStatusFailed; OrderStatusPaymentUnknown;
   OrderStatusFulfillmentPending; OrderStatusCompleted].

(** How far along its lifecycle a status is. *)
Definition rank (s : OrderStatus) : nat :=
  if ⟦s = OrderStatusPending⟧ then 0
  else if ⟦s = OrderStatusPaymentUnknown⟧ then 1
  else if ⟦s = OrderStatusPaid⟧ then 2
  else if ⟦s = OrderStatusFulfillmentPending⟧ then 3
  else 4.

(** One call of a transition method. *)
Inductive op :=
| OpMarkPaid (at_ : Time) (ref : string)
| OpMarkFailed (at_ : Time) (reason : string)
| OpMarkPaymentUnknown (at_ : Time) (reason : string)
| OpMarkFulfillmentPending (at_ : Time) (reason : string)
| OpComplete (at_ : Time).

Definition apply_op (o : Order) (c : op) : Order * option error :=
  match c with
  | OpMarkPaid t ref => MarkPaid o t ref
  | OpMarkFailed t reason => MarkFailed o t reason
  | OpMarkPaymentUnknown t reason => MarkPaymentUnknown o t reason
  | OpMarkFulfillmentPending t reason => MarkFulfillmentPending o t reason
  | OpComplete t => Complete o t
  end.

Definition op_target (c : op) : OrderStatus :=
  match c with
  | OpMarkPaid _ _ => OrderStatusPaid
  | OpMarkFailed _ _ => OrderStatusFailed
  | OpMarkPaymentUnknown _ _ => OrderStatusPaymentUnknown
  | OpMarkFulfillmentPending _ _ => OrderStatusFulfillmentPending
  | OpComplete _ => OrderStatusCompleted
  end.

(** A caller that makes a sequence of calls, whatever they return. *)
Definition apply_ops (o : Order) (cs : list op) : Order :=
  foldl (λ o c, (apply_op o c).1) o cs.

(** The calls of the sequence that succeed. *)
Fixpoint accepted (o : Order) (cs : list op) : list op :=
  match cs with
  | [] => []
  | c :: cs => match apply_op o c with
               | (o', None) => c :: accepted o' cs
               | (o', Some _) => accepted o' cs
               end
  end.

(** The name of the event that reports a status. *)
Definition event_name (s : OrderStatus) : string :=
  if ⟦s = OrderStatusPending⟧ then "order.created" else "order." +:+ s.

(** The invariant of an aggregate. *)
Record wf_order (o : Order) : Prop := {
  wf_customer : CustomerID o ≠ "";
  wf_items : Items o ≠ [];
  wf_valid : Forall (λ it, ProductID it ≠ "" ∧ (0 < Quantity it)%Z ∧ (0 <= UnitPrice it)%Z) (Items o);
  wf_status : Status o ∈ known_statuses }.

(** The exact order value, over the integers. *)
Definition exact_total (items : list OrderItem) : Z :=
  foldr (λ it acc, UnitPrice it * Quantity it + acc)%Z 0%Z items.

(** What an accepted call does to the aggregate. *)
Definition op_event (o : Order) (c : op) : Event :=
  let id := ("order_id", VString (ID o)) in
  match c with
  | OpMarkPaid t _ => mkEvent "order.paid" t [id]
  | OpMarkFailed t reason => mkEvent "order.failed" t [id; ("reason", VString reason)]
  | OpMarkPaymentUnknown t reason =>
      mkEvent "order.payment_unknown" t [id; ("reason", VString reason)]
  | OpMarkFulfillmentPending t reason =>
      mkEvent "order.fulfillment_pending" t [id; ("reason", VString reason)]
  | OpComplete t => mkEvent "order.completed" t [id]
  end.

Definition op_reference (o : Order) (c : op) : string :=
  match c with OpMarkPaid _ ref => ref | _ => PaymentReference o end.

Definition advance (o : Order) (c : op) : Order :=
  mkOrder (ID o) (CustomerID o) (Items o) (op_target c) (CreatedAt o)
    (op_reference o c) (events o ++ [op_event o c]).

(** The sentinel a refused call returns. *)
Definition op_sentinel (c : op) : sentinel :=
  match c with
  | OpMarkPaid _ _ | OpMarkFailed _ _ | OpMarkPaymentUnknown _ _ => ErrOrderNotPending
  | OpMarkFulfillmentPending _ _ | OpComplete _ => ErrOrderNotPaid
  end.

(** Sets that payment is settled in: paid and everything after it. *)
Definition settled_paid (s : OrderStatus) : Prop :=
  s = OrderStatusPaid ∨ s = OrderStatusFulfillmentPending ∨ s = OrderStatusCompleted.
#[global] Instance settled_paid_dec s : Decision (settled_paid s).
Proof. unfold settled_paid. apply _. Defined.

(** ** Lemmas on the lifecycle *)

#[global] Instance transition_dec s s' : Decision (transition s s').
Proof.
  refine (cast_if (decide ((s, s') ∈
    [(OrderStatusPending, OrderStatusPaid); (OrderStatusPending, OrderStatusFailed);
     (OrderStatusPending, OrderStatusPaymentUnknown);
     (OrderStatusPaymentUnknown, OrderStatusPaid);
     (OrderStatusPaymentUnknown, OrderStatusFailed);
     (OrderStatusPaid, OrderStatusFulfillmentPending);
     (OrderStatusPaid, OrderStatusCompleted);
     (OrderStatusFulfillmentPending, OrderStatusCompleted)]))).
  - abstract (rewrite !elem_of_cons, elem_of_nil, !pair_equal_spec in *;
      destruct_or!; destruct_and?; subst; by constructor).
  - abstract (intros Ht; match goal with Hn : _ ∉ _ |- _ => apply Hn end;
      destruct Ht; apply (bool_decide_unpack _); vm_compute; done).
Defined.

Lemma transition_rank s s' : transition s s' → rank s < rank s'.
Proof. destruct 1; vm_compute; lia. Qed.

Lemma transition_known s s' : transition s s' → s ∈ known_statuses ∧ s' ∈ known_statuses.
Proof. destruct 1; split; apply (bool_decide_unpack _); vm_compute; done. Qed.

Lemma rtc_transition_rank s s' : rtc transition s s' → s = s' ∨ rank s < rank s'.
Proof.
  induction 1 as [|s1 s2 s3 Ht _ IH]; [by left|]. right. apply transition_rank in Ht.
  destruct IH as [->|]; lia.
Qed.

Lemma rtc_transition_antisym s s' : rtc transition s s' → rtc transition s' s → s' = s.
Proof. intros [->|H]%rtc_transition_rank [H'|H']%rtc_transition_rank; try done. lia. Qed.

Lemma rank_bound s : rank s <= 4.
Proof. unfold rank. go_cases; lia. Qed.

Lemma transition_irrefl s : ¬ transition s s.
Proof. intros H%transition_rank. lia. Qed.

(** No transition leaves a terminal status. *)
Lemma terminal_stuck s s' :
  s = OrderStatusFailed ∨ s = OrderStatusCompleted → ¬ transition s s'.
Proof. intros [-> | ->]; inversion 1. Qed.

(** The aggregate's methods are exactly the lifecycle. *)
Lemma apply_op_accept o c :
  transition (Status o) (op_target c) → apply_op o c = (advance o c, None).
Proof.
  destruct o, c; simpl; intros H; inversion H; subst; reflexivity.
Qed.

Lemma apply_op_refuse o c :
  ¬ transition (Status o) (op_target c) →
  apply_op o c = (o, Some (status_error (op_sentinel c) o)).
Proof.
  destruct o as [? ? ? s ? ? ?], c; simpl; intros H;
    unfold MarkPaid, MarkFailed, MarkPaymentUnknown, MarkFulfillmentPending, Complete; simpl;
    (rewrite bool_decide_eq_true_2; [reflexivity|]);
    try split; intros ->; apply H; constructor.
Qed.

Lemma apply_op_inv o c o' :
  apply_op o c = (o', None) → transition (Status o) (op_target c) ∧ o' = advance o c.
Proof.
  destruct (decide (transition (Status o) (op_target c))) as [Ht|Ht].
  - rewrite apply_op_accept by done. naive_solver.
  - rewrite apply_op_refuse by done. naive_solver.
Qed.

Lemma apply_op_cases o c :
  (transition (Status o) (op_target c) ∧ apply_op o c = (advance o c, None)) ∨
  (¬ transition (Status o) (op_target c) ∧
   apply_op o c = (o, Some (status_error (op_sentinel c) o))).
Proof.
  destruct (decide (transition (Status o) (op_target c)));
    [left|right]; split; auto using apply_op_accept, apply_op_refuse.
Qed.

Lemma apply_ops_snoc o cs c : apply_ops o (cs ++ [c]) = (apply_op (apply_ops o cs) c).1.
Proof. unfold apply_ops. by rewrite foldl_app. Qed.

(** [invalid_item] is the negation of the item invariant. *)
Lemma invalid_item_false it :
  invalid_item it = false ↔ ProductID it ≠ "" ∧ (0 < Quantity it)%Z ∧ (0 <= UnitPrice it)%Z.
Proof.
  unfold invalid_item.
  rewrite !orb_false_iff, bool_decide_eq_false, Z.leb_gt, Z.ltb_ge. tauto.
Qed.

Lemma items_valid items :
  existsb invalid_item items = false ↔
  Forall (λ it, ProductID it ≠ "" ∧ (0 < Quantity it)%Z ∧ (0 <= UnitPrice it)%Z) items.
Proof.
  induction items as [|it items IH]; simpl; [split; auto|].
  rewrite orb_false_iff, Forall_cons, invalid_item_false, IH. tauto.
Qed.

(** What a successful [NewOrder] returns, and when it succeeds. *)
Lemma NewOrder_Some id cust items t :
  cust ≠ "" → items ≠ [] → existsb invalid_item items = false →
  NewOrder id cust items t =
    (Some (mkOrder id cust items OrderStatusPending t ""
       [mkEvent "order.created" t
          [("order_id", VString id); ("item_count", VInt (Z.of_nat (length items)))]]), None).
Proof.
  intros Hc Hi Hv. unfold NewOrder.
  rewrite !bool_decide_eq_false_2, Hv; [done| |done].
  intros ?%nil_length_inv. done.
Qed.

Lemma NewOrder_inv id cust items t o e :
  NewOrder id cust items t = (Some o, e) →
  cust ≠ "" ∧ items ≠ [] ∧ existsb invalid_item items = false ∧ e = None ∧
  o = mkOrder id cust items OrderStatusPending t ""
       [mkEvent "order.created" t
          [("order_id", VString id); ("item_count", VInt (Z.of_nat (length items)))]].
Proof.
  unfold NewOrder. intros. go_cases. split_and!; try done. by intros ->.
Qed.

Lemma NewOrder_None id cust items t e :
  NewOrder id cust items t = (None, e) →
  ∃ s, e = Some (Sentinel s) ∧ s ∈ [ErrEmptyCustomer; ErrEmptyOrder; ErrInvalidOrderItem].
Proof. unfold NewOrder. intros. go_cases; eexists; (split; [done|]); set_solver. Qed.

(** [Total] is the exact value reduced to 64 bits. *)
Lemma Total_fold acc items :
  foldl (λ total it, wrap64 (total + wrap64 (UnitPrice it * Quantity it))) (wrap64 acc) items
  = wrap64 (acc + exact_total items).
Proof.
  revert acc. induction items as [|it items IH]; intros acc; simpl.
  - f_equal. lia.
  - rewrite wrap64_add_r, wrap64_add_l, IH. f_equal. lia.
Qed.

Lemma Total_wrap o : Total o = wrap64 (exact_total (Items o)).
Proof.
  unfold Total. change 0%Z with (wrap64 0) at 1. by rewrite Total_fold.
Qed.

(** ** Sequences of calls *)

Section sequences.
Variables (id cust : string) (items : list OrderItem) (t : Time) (o0 : Order) (e0 : option error).
Hypothesis new : NewOrder id cust items t = (Some o0, e0).

Lemma new_wf : wf_order o0.
Proof.
  apply NewOrder_inv in new as (Hc & Hi & Hv & _ & ->).
  split; simpl; [done..|by apply items_valid|].
  by apply (bool_decide_unpack _).
Qed.

(** An invariant of fresh orders that every accepted call keeps holds after
any sequence of calls. *)
Lemma apply_ops_ind (I : Order → Prop) cs :
  I o0 → (∀ o c, I o → transition (Status o) (op_target c) → I (advance o c)) →
  I (apply_ops o0 cs).
Proof.
  intros H0 Hs. induction cs as [|c cs IH] using rev_ind; [done|].
  rewrite apply_ops_snoc.
  destruct (apply_op_cases (apply_ops o0 cs) c) as [[Ht ->]|[_ ->]]; simpl; auto.
Qed.
End sequences.

Lemma advance_wf o c : wf_order o → transition (Status o) (op_target c) → wf_order (advance o c).
Proof. intros [] Ht. split; simpl; [done..|]. by apply transition_known in Ht as [_ ?]. Qed.

Lemma accepted_length o cs : rank (Status o) + length (accepted o cs) <= 4.
Proof.
  revert o. induction cs as [|c cs IH]; intros o; simpl; [pose proof (rank_bound (Status o)); lia|].
  destruct (apply_op_cases o c) as [[Ht ->]|[_ ->]]; [|apply IH].
  specialize (IH (advance o c)). apply transition_rank in Ht. simpl in *. lia.
Qed.

Lemma transition_event s s' : transition s s' → event_name s' = "order." +:+ s'.
Proof. by destruct 1. Qed.

Lemma op_event_name o c : Name (op_event o c) = "order." +:+ op_target c.
Proof. by destruct c. Qed.

(** The money-relevant part of the invariant: a reference is present exactly
when the order was paid. *)
Definition reference_of (o : Order) (cs : list op) : Prop :=
  if ⟦settled_paid (Status o)⟧
  then ∃ t, OpMarkPaid t (PaymentReference o) ∈ cs
  else PaymentReference o = "".

Lemma reference_of_advance o c cs :
  reference_of o cs → transition (Status o) (op_target c) →
  reference_of (advance o c) (cs ++ [c]).
Proof.
  unfold reference_of. destruct o as [oid ocust oit s ot ref oes], c; simpl; intros H Ht;
    inversion Ht; subst; vm_compute bool_decide in *; simpl in *;
    repeat match goal with H : ∃ _, _ |- _ => destruct H as [? H] end;
    try done; eexists; apply elem_of_app;
    first [left; eassumption | right; by apply list_elem_of_singleton].
Qed.

Lemma reference_of_apply_ops o cs :
  reference_of o [] → reference_of (apply_ops o cs) cs.
Proof.
  intros H0. induction cs as [|c cs IH] using rev_ind; [done|].
  rewrite apply_ops_snoc.
  destruct (apply_op_cases (apply_ops o cs) c) as [[Ht ->]|[_ ->]]; simpl.
  - by apply reference_of_advance.
  - revert IH. unfold reference_of. case_bool_decide; [|done].
    intros [t Ht]. exists t. apply elem_of_app. by left.
Qed.

(** The event log of an order explains its status: the last event names it, and
each one names a status the lifecycle allows after the previous one. *)
Definition log_explains (o : Order) : Prop :=
  ∃ ss, map Name (events o) = map event_name ss ∧ head ss = Some OrderStatusPending ∧
    last ss = Some (Status o) ∧
    ∀ i s s', ss !! i = Some s → ss !! S i = Some s' → transition s s'.

Lemma log_explains_advance o c :
  log_explains o → transition (Status o) (op_target c) → log_explains (advance o c).
Proof.
  intros (ss & Hn & Hh & Hl & Hc) Ht. exists (ss ++ [op_target c]). split_and!; simpl.
  - rewrite !map_app, Hn. simpl. by rewrite op_event_name, (transition_event _ _ Ht).
  - by destruct ss.
  - by rewrite last_snoc.
  - intros i s s' Hi Hi'.
    apply lookup_app_Some in Hi'. destruct Hi' as [Hi'|[Hge Hi']].
    + apply lookup_lt_Some in Hi' as Hlt.
      rewrite lookup_app_l in Hi by lia. by eapply Hc.
    + apply list_lookup_singleton_Some in Hi' as [? <-].
      rewrite lookup_app_l in Hi by (apply lookup_lt_Some in Hi; rewrite length_app in Hi; simpl in Hi; lia).
      rewrite last_lookup in Hl. assert (i = pred (length ss)) as -> by lia.
      rewrite Hi in Hl. by injection Hl as ->.
Qed.

(** ** Properties *)

(** C21: the five transition methods implement the lifecycle exactly: a call
succeeds iff the lifecycle has the edge from the current status to the one the
method sets; then it sets the status, keeps identity, customer, items and
creation time, sets the payment reference only when marking paid, and appends
one event; otherwise it changes nothing and returns its sentinel with the
current status. *)
Theorem methods_implement_lifecycle (o : Order) (c : op) :
  apply_op o c =
    if ⟦transition (Status o) (op_target c)⟧ then (advance o c, None)
    else (o, Some (status_error (op_sentinel c) o)).
Proof. case_bool_decide; auto using apply_op_accept, apply_op_refuse. Qed.

(** C32: [NewOrder] returns an order exactly when the customer is present, there
is at least one item and every item is valid; the order is then pending,
well-formed, carries the arguments and one creation event; otherwise no order
is returned and the error is the first check that fails. *)
Theorem NewOrder_correct (id cust : string) (items : list OrderItem) (t : Time) :
  match NewOrder id cust items t with
  | (Some o, err) =>
      err = None ∧ wf_order o ∧ ID o = id ∧ CustomerID o = cust ∧ Items o = items ∧
      Status o = OrderStatusPending ∧ CreatedAt o = t ∧ PaymentReference o = "" ∧
      map Name (events o) = ["order.created"]
  | (None, Some err) =>
      err = Sentinel (if ⟦cust = ""⟧ then ErrEmptyCustomer
                      else if ⟦items = []⟧ then ErrEmptyOrder else ErrInvalidOrderItem) ∧
      (cust = "" ∨ items = [] ∨ ∃ it, it ∈ items ∧
         (ProductID it = "" ∨ (Quantity it <= 0)%Z ∨ (UnitPrice it < 0)%Z))
  | (None, None) => False
  end.
Proof.
  destruct (NewOrder id cust items t) as [[o|] e] eqn:H.
  - pose proof (new_wf _ _ _ _ _ _ H). apply NewOrder_inv in H as (? & ? & ? & -> & ->). done.
  - unfold NewOrder in H.
    repeat case_bool_decide; subst; simplify_eq/=;
      try (destruct (existsb _ _) eqn:Hx; simplify_eq/=);
      try match goal with Hl : length _ = 0 |- _ => apply nil_length_inv in Hl end;
      try done; (split; [done|]); auto.
    right; right. apply existsb_exists in Hx as (it & Hin & Hit).
    exists it. split; [by apply list_elem_of_In|].
    unfold invalid_item in Hit.
    rewrite !orb_true_iff, bool_decide_eq_true, Z.leb_le, Z.ltb_lt in Hit. tauto.
Qed.

(** C33: every order that the methods can produce from [NewOrder], whatever the
sequence of calls and refusals, is well-formed (known status, customer, valid
items) and still has the identity, items and creation time it was made with. *)
Theorem reachable_order_wf (id cust : string) (items : list OrderItem) (t : Time)
    (o0 : Order) (e0 : option error) (cs : list op)
    (new : NewOrder id cust items t = (Some o0, e0)) :
  let o := apply_ops o0 cs in
  wf_order o ∧ ID o = id ∧ CustomerID o = cust ∧ Items o = items ∧ CreatedAt o = t.
Proof.
  refine (apply_ops_ind o0
    (λ o, wf_order o ∧ ID o = id ∧ CustomerID o = cust ∧ Items o = items ∧ CreatedAt o = t) cs _ _).
  - split; [by eapply new_wf|]. by apply NewOrder_inv in new as (_ & _ & _ & _ & ->).
  - intros o c [Hwf ?] Ht. split; [by apply advance_wf|done].
Qed.

Lemma terminal_accepts_none o cs :
  Status o = OrderStatusFailed ∨ Status o = OrderStatusCompleted → accepted o cs = [] ∧ apply_ops o cs = o.
Proof.
  intros Hs. induction cs as [|c cs [IH1 IH2]]; [done|]. unfold apply_ops in *. simpl.
  rewrite apply_op_refuse by (by apply terminal_stuck). by split.
Qed.

(** C34: along any sequence of calls an order changes status at most four times
in its whole life; it is paid at most once, and never both paid and failed; once
it is failed or completed, every call is refused and leaves it as it is. *)
Theorem lifecycle_bounded (o : Order) (cs : list op) :
  length (accepted o cs) <= 4 ∧
  length (filter (λ c, op_target c = OrderStatusPaid ∨ op_target c = OrderStatusFailed)
            (accepted o cs)) <= 1 ∧
  (Status o = OrderStatusFailed ∨ Status o = OrderStatusCompleted → accepted o cs = [] ∧ apply_ops o cs = o).
Proof.
  split_and!; [pose proof (accepted_length o cs); lia| |apply terminal_accepts_none].
  enough (length (filter (λ c, op_target c = OrderStatusPaid ∨ op_target c = OrderStatusFailed)
            (accepted o cs)) <= if ⟦rank (Status o) < 2⟧ then 1 else 0)
    by (case_bool_decide; lia).
  revert o. induction cs as [|c cs IH]; intros o; simpl; [case_bool_decide; simpl; lia|].
  destruct (apply_op_cases o c) as [[Ht ->]|[_ ->]]; [|apply IH].
  specialize (IH (advance o c)). simpl in IH.
  rewrite filter_cons. destruct o as [? ? ? s ? ? ?], c; simpl in *; inversion Ht; subst;
    vm_compute bool_decide in *; vm_compute decide; simpl in *; lia.
Qed.

(** on every order the methods can produce, the payment reference is the
one given to [MarkPaid] when the order is paid, awaiting fulfillment or
completed, and empty otherwise: no order is completed without a payment. *)
Theorem reference_iff_paid (id cust : string) (items : list OrderItem) (t : Time)
    (o0 : Order) (e0 : option error) (cs : list op)
    (new : NewOrder id cust items t = (Some o0, e0)) :
  let o := apply_ops o0 cs in
  if ⟦settled_paid (Status o)⟧
  then ∃ t, OpMarkPaid t (PaymentReference o) ∈ cs
  else PaymentReference o = "".
Proof.
  apply (reference_of_apply_ops o0 cs).
  by apply NewOrder_inv in new as (_ & _ & _ & _ & ->).
Qed.

(** C31: the recorded events are a complete audit trail: they start with the
creation, each next one names a status the lifecycle allows after the previous
one, and the last one names the current status. *)
Theorem events_replay_status (id cust : string) (items : list OrderItem) (t : Time)
    (o0 : Order) (e0 : option error) (cs : list op)
    (new : NewOrder id cust items t = (Some o0, e0)) :
  let o := apply_ops o0 cs in
  ∃ ss, map Name (events o) = map event_name ss ∧ head ss = Some OrderStatusPending ∧
    last ss = Some (Status o) ∧
    ∀ i s s', ss !! i = Some s → ss !! S i = Some s' → transition s s'.
Proof.
  refine (apply_ops_ind o0 log_explains cs _ log_explains_advance).
  apply NewOrder_inv in new as (_ & _ & _ & _ & ->).
  exists [OrderStatusPending]. split_and!; try done; by intros [|i] ? ?.
Qed.

(** [NewOrder] puts no upper bound on quantities and prices, so it accepts
orders whose [Total], the amount charged, has wrapped around: a one-item order
for 2 units at 2^62 cents is accepted and its total is negative. *)
Theorem Total_can_overflow :
  let items := [mkOrderItem "sku" 2 (2 ^ 62)%Z] in
  ∃ o, NewOrder "ord" "cust" items 0%Z = (Some o, None) ∧
    Forall (λ it, int64_range (Quantity it) ∧ int64_range (UnitPrice it)) items ∧
    (Total o < 0 < exact_total items)%Z.
Proof.
  eexists. split; [vm_compute; reflexivity|].
  split; [repeat constructor; vm_compute; intros ?; discriminate|]. vm_compute. done.
Qed.

(** C35: [Total] is the exact order value modulo [2^64] in two's complement, so it
is exact, and non-negative, whenever the exact value fits in an [int64]; when it
does not, nothing stops it: some validated orders have a negative total. *)
Theorem Total_exact (o : Order) (wf : wf_order o) :
  Total o = wrap64 (exact_total (Items o)) ∧ (0 <= exact_total (Items o))%Z ∧
  ((exact_total (Items o) <= max_int64)%Z → Total o = exact_total (Items o)) ∧
  (∃ items o', NewOrder "ord" "cust" items 0%Z = (Some o', None) ∧
     Forall (λ it, int64_range (Quantity it) ∧ int64_range (UnitPrice it)) items ∧
     (Total o' < 0 < exact_total items)%Z).
Proof.
  assert (0 <= exact_total (Items o))%Z as Hpos.
  { destruct wf as [_ _ Hv _]. induction Hv as [|it its (_ & ? & ?) _ IH]; simpl; [lia|]. nia. }
  split_and!; [apply Total_wrap|done| |eexists; exact Total_can_overflow]. intros Hmax.
  rewrite Total_wrap. apply wrap64_id. unfold int64_range, min_int64. lia.
Qed.

(** ** Witnesses *)

Definition example_items : list OrderItem := [mkOrderItem "sku_1" 2 1500].
Definition example_order : Order :=
  mkOrder "ord_1" "cust_1" example_items OrderStatusPending 0 ""
    [mkEvent "order.created" 0 [("order_id", VString "ord_1"); ("item_count", VInt 1)]].
Definition example_ops : list op :=
  [OpComplete 1; OpMarkPaymentUnknown 1 "timeout"; OpMarkPaid 2 "ref_1";
   OpMarkFailed 3 "late"; OpMarkFulfillmentPending 3 "inventory"; OpComplete 4].

Lemma example_new :
  NewOrder "ord_1" "cust_1" example_items 0 = (Some example_order, None).
Proof. vm_compute. reflexivity. Qed.

Lemma reachable_order_wf_witness :
  Status (apply_ops example_order example_ops) = OrderStatusCompleted ∧
  wf_order (apply_ops example_order example_ops).
Proof.
  split; [vm_compute; reflexivity|].
  exact (proj1 (reachable_order_wf "ord_1" "cust_1" example_items 0 example_order None
    example_ops example_new)).
Defined.

Lemma reference_iff_paid_witness :
  ∃ t, OpMarkPaid t (PaymentReference (apply_ops example_order example_ops)) ∈ example_ops.
Proof.
  pose proof (reference_iff_paid "ord_1" "cust_1" example_items 0 example_order None
    example_ops example_new) as H. cbv zeta in H.
  rewrite bool_decide_eq_true_2 in H by (right; right; vm_compute; reflexivity).
  exact H.
Defined.

Lemma events_replay_status_witness :
  map Name (events (apply_ops example_order example_ops)) =
    ["order.created"; "order.payment_unknown"; "order.paid";
     "order.fulfillment_pending"; "order.completed"] ∧
  ∃ ss, map Name (events (apply_ops example_order example_ops)) = map event_name ss ∧
    head ss = Some OrderStatusPending ∧
    last ss = Some (Status (apply_ops example_order example_ops)) ∧
    ∀ i s s', ss !! i = Some s → ss !! S i = Some s' → transition s s'.
Proof.
  split; [vm_compute; reflexivity|].
  exact (events_replay_status "ord_1" "cust_1" example_items 0 example_order None example_ops example_new).
Defined.

Lemma Total_exact_witness : Total example_order = 3000%Z.
Proof.
  refine (proj1 (proj2 (proj2 (Total_exact example_order _))) _).
  - split; [done|done|repeat constructor; done|apply (bool_decide_unpack _); vm_compute; done].
  - vm_compute. discriminate.
Defined.
