(* ===== verification/Ports.v ===== *)
(** * Ports of the usecase layer (src/internal/usecase/ports.go)

The request and result shapes, the classification of payment errors, and the
calls the usecases make to their collaborators, as one interface [portE]. *)

From S2P Require Import Prelude GoValues Prog Domain.

(** ** Data *)

(** A span handle; a context carries the active one. *)
Definition Span : Type := N.
Bind Scope N_scope with Span.
Record Ctx := mkCtx { ctx_span : Span }.

Definition Duration : Type := Z.
Bind Scope Z_scope with Duration.
Definition CustomerTier : Type := string.

Module PaymentRequest.
Record t := mk {
  OrderID : string;
  CustomerID : string;
  AmountCents : Z;
  IdempotencyKey : string }.
End PaymentRequest.

Module PaymentResult.
Record t := mk {
  Reference : string;
  Status : string }.
Definition zero : t := mk "" "".
End PaymentResult.

Module InventoryRequest.
Record t := mk {
  OrderID : string;
  Items : list OrderItem;
  IdempotencyKey : string }.
End InventoryRequest.

(** ** Payment failures *)

(** [HTTPStatusError.OutcomeMayHaveCommitted] of package paymentclient. *)
Definition OutcomeMayHaveCommitted (StatusCode : Z) : bool :=
  if (StatusCode >=? 500)%Z then true
  else ⟦StatusCode ∈ [408; 409; 425; 429]%Z⟧.

(** [errors.As(err, &failure)] for the [PaymentFailure] interface: the answer of
the first error of the tree, depth first, whose type has the method. *)
Fixpoint as_PaymentFailure (err : error) : option bool :=
  match err with
  | Sentinel _ => None
  | HTTPStatusError PaymentAdapter code => Some (OutcomeMayHaveCommitted code)
  | HTTPStatusError InventoryAdapter _ => None
  | Foreign _ committed => committed
  | Errorf segs =>
      first_some (λ sg, match sg with Wrap e => as_PaymentFailure e | _ => None end) segs
  | Join errs => first_some as_PaymentFailure errs
  end.

Definition PaymentOutcomeMayHaveCommitted (err : error) : bool :=
  match as_PaymentFailure err with
  | Some answer => answer
  | None => true
  end.

(** ** The interface *)

(** Every method of the port interfaces the usecases hold, [rand.Read] and
[ctx.Err()].  The index is the type of the answer; a Go [(T, error)] result is
a pair, with [None] for a nil error or pointer. *)
Inductive portE : Type → Type :=
(* Clock *)
| Now : portE Time
(* crypto/rand *)
| rand_Read (n : nat) : portE (list Byte.byte * option error)
(* context.Context *)
| ctx_Err (ctx : Ctx) : portE (option error)
(* OrderRepository and ReconciliationRepository *)
| Save (ctx : Ctx) (order : Order) : portE (option error)
| SaveIfStatus (ctx : Ctx) (order : Order) (expected : OrderStatus) : portE (bool * option error)
| FindByID (ctx : Ctx) (id : string) : portE (option Order * option error)
| ListRecoverableIDs (ctx : Ctx) (afterID : string) (olderThan : Time) (limit : Z)
    : portE (list string * option error)
(* PaymentClient and ChargeLookup *)
| Charge (ctx : Ctx) (req : PaymentRequest.t) : portE (PaymentResult.t * option error)
| LookupCharge (ctx : Ctx) (idempotencyKey : string)
    : portE (PaymentResult.t * bool * option error)
(* InventoryClient *)
| Reserve (ctx : Ctx) (req : InventoryRequest.t) : portE (option error)
(* Tracer and Span *)
| Start (ctx : Ctx) (spanName : string) : portE (Ctx * Span)
| SpanFromContext (ctx : Ctx) : portE Span
| AddEvent (span : Span) (name : string) (attrs : list (string * any)) : portE unit
| RecordError (span : Span) (err : error) : portE unit
| End_ (span : Span) : portE unit
(* Logger *)
| Info (ctx : Ctx) (msg : string) (kv : list any) : portE unit
| LogError (ctx : Ctx) (msg : string) (err : error) (kv : list any) : portE unit
(* MetricsRecorder *)
| IncOrdersCreated (status customerTier : string) : portE unit
| ObserveStepDuration (ctx : Ctx) (step : string) (d : Duration) : portE unit.

(** ** Telemetry calls *)

(** Calls that only report: they read no order state and change none. *)
Definition telemetry {R} (e : portE R) : bool :=
  match e with
  | Start _ _ | SpanFromContext _ | AddEvent _ _ _ | RecordError _ _ | End_ _
  | Info _ _ _ | LogError _ _ _ _ | IncOrdersCreated _ _ | ObserveStepDuration _ _ _ => true
  | _ => false
  end.

(** ** Lemmas *)

Lemma as_PaymentFailure_wrapf text e : as_PaymentFailure (wrapf text e) = as_PaymentFailure e.
Proof. simpl. by destruct (as_PaymentFailure e). Qed.

Lemma PaymentOutcomeMayHaveCommitted_wrapf text e :
  PaymentOutcomeMayHaveCommitted (wrapf text e) = PaymentOutcomeMayHaveCommitted e.
Proof. unfold PaymentOutcomeMayHaveCommitted. by rewrite as_PaymentFailure_wrapf. Qed.

#[export] Hint Rewrite as_PaymentFailure_wrapf PaymentOutcomeMayHaveCommitted_wrapf : ordersvc_simpl.
