(* ===== verification/CreateOrder.v ===== *)
(** * The CreateOrder interactor (src/internal/usecase/create_order.go)

[Execute] and its helpers as programs over the ports, statement by statement. *)

From S2P Require Import Prelude GoValues Prog Domain Ports.

(** ** Requests *)

Definition CustomerTierFree : CustomerTier := "free".
Definition CustomerTierPremium : CustomerTier := "premium".

Module CreateOrderRequest.
Record t := mk {
  CustomerID : string;
  CustomerTier : CustomerTier;
  Items : list OrderItem }.
End CreateOrderRequest.

Definition normalizedCustomerTier (tier : CustomerTier) : CustomerTier * bool :=
  if ⟦tier = "" ∨ tier = CustomerTierFree⟧ then (CustomerTierFree, true)
  else if ⟦tier = CustomerTierPremium⟧ then (CustomerTierPremium, true)
  else ("", false).

(** ** Helpers *)

(** [t.Sub(u)], which saturates at the bounds of a [Duration]. *)
Definition Sub (t u : Time) : Duration := Z.max min_int64 (Z.min max_int64 (t - u)).

(** [uc.metrics.ObserveStepDuration(ctx, step, uc.clock.Now().Sub(started))]. *)
Definition observe_since (ctx : Ctx) (step : string) (started : Time) : prog portE unit :=
  now ← trigger Now;
  trigger (ObserveStepDuration ctx step (Sub now started)).

Definition cloneOrder (order : Order) : Order :=
  let copyOrder := order in
  mkOrder (ID copyOrder) (CustomerID copyOrder) (Items order) (Status copyOrder)
    (CreatedAt copyOrder) (PaymentReference copyOrder) (events copyOrder).

(** [hex.EncodeToString]. *)
Definition hex_digit (n : N) : Ascii.ascii :=
  Ascii.ascii_of_N (if (n <? 10)%N then 48 + n else 87 + n)%N.
Fixpoint hex_EncodeToString (bytes : list Byte.byte) : string :=
  match bytes with
  | [] => ""
  | b :: bytes =>
      let n := Byte.to_N b in
      String (hex_digit (n / 16)%N) (String (hex_digit (n mod 16)%N) (hex_EncodeToString bytes))
  end.

Definition newOrderID : prog portE (string * option error) :=
  '(buf, err) ← trigger (rand_Read 16);
  match err with
  | Some err => mret ("", Some err)
  | None => mret ("ord_" +:+ hex_EncodeToString buf, None)
  end.

(** [event.Attrs[key]]. *)
Definition attr_lookup (key : string) (attrs : list (string * any)) : any :=
  match list_find (λ kv, kv.1 = key) attrs with
  | Some (_, (_, v)) => v
  | None => VNil
  end.

(** The fields of one business log line: the keys of the map, sorted, so that
Go's random map iteration order does not show. *)
Definition event_fields (event : Event) : list any :=
  let keys := merge_sort String.le (map fst (Attrs event)) in
  [VString "occurred_at"; VTime (At event)] ++
  flat_map (λ key, [VString key; attr_lookup key (Attrs event)]) keys.

Fixpoint emit_each (ctx : Ctx) (span : Span) (es : list Event) : prog portE unit :=
  match es with
  | [] => mret tt
  | event :: es =>
      _ ← trigger (AddEvent span (Name event) (Attrs event));
      _ ← trigger (Info ctx (Name event) (event_fields event));
      emit_each ctx span es
  end.

(** Drains the events of the aggregate; returns it without them. *)
Definition emitDomainEvents (ctx : Ctx) (order : Order) : prog portE Order :=
  span ← trigger (SpanFromContext ctx);
  let '(es, order) := PullEvents order in
  _ ← emit_each ctx span es;
  mret order.

Definition emitEvents (ctx : Ctx) (order : Order) : prog portE Order :=
  emitDomainEvents ctx order.

Definition saveTransition (ctx : Ctx) (previous next : Order)
    : prog portE (option Order * option error) :=
  '(updated, err) ← trigger (SaveIfStatus ctx next (Status previous));
  match err with
  | Some err => mret (Some previous, Some err)
  | None =>
      if negb updated then
        '(current, err) ← trigger (FindByID ctx (ID previous));
        match err with
        | Some err =>
            mret (Some previous,
                  Some (Errorf [Wrap (Sentinel ErrConcurrentStateChange);
                                Lit ": reload order: "; Wrap err]))
        | None => mret (current, Some (Sentinel ErrConcurrentStateChange))
        end
      else
        next ← emitEvents ctx next;
        mret (Some next, None)
  end.

(** ** Execute *)

(** The [switch] on the answer of the Payment Service: [inl] is an early return,
[inr] the paid order that goes on to fulfillment. *)
Definition settlePayment (ctx : Ctx) (order : Order) (result : PaymentResult.t)
    (chargeErr : option error) : prog portE ((option Order * option error) + Order) :=
  match chargeErr with
  | Some chargeErr =>
      let outcomeOrder := cloneOrder order in
      now ← trigger Now;
      let '(outcomeOrder, err, prefix, outcomeErr) :=
        if PaymentOutcomeMayHaveCommitted chargeErr then
          let '(o, err) := MarkPaymentUnknown outcomeOrder now "ambiguous_provider_error" in
          (o, err, "mark payment outcome unknown: ",
           Errorf [Wrap (Sentinel ErrPaymentUncertain); Lit ": charge: "; Wrap chargeErr])
        else
          let '(o, err) := MarkFailed outcomeOrder now "payment_request_rejected" in
          (o, err, "mark payment request rejected: ",
           Errorf [Wrap (Sentinel ErrPaymentRejected); Lit ": charge: "; Wrap chargeErr]) in
      match err with
      | Some err => mret (inl (None, Some (wrapf prefix err)))
      | None =>
          '(saved, err) ← saveTransition ctx order outcomeOrder;
          match err with
          | Some err =>
              if errors_Is err ErrConcurrentStateChange then
                mret (inl (saved, Some (Errorf [Wrap (Sentinel ErrPaymentUncertain); Lit ": "; Wrap err])))
              else
                mret (inl (saved, Some (Errorf [Wrap outcomeErr; Lit "; save payment outcome: "; Wrap err])))
          | None => mret (inl (saved, Some outcomeErr))
          end
      end
  | None =>
      if ⟦PaymentResult.Status result = "declined"⟧ then
        let failedOrder := cloneOrder order in
        now ← trigger Now;
        let '(failedOrder, err) := MarkFailed failedOrder now "payment_declined" in
        match err with
        | Some err => mret (inl (None, Some (wrapf "mark order failed: " err)))
        | None =>
            '(saved, err) ← saveTransition ctx order failedOrder;
            match err with
            | Some err =>
                if errors_Is err ErrConcurrentStateChange then
                  mret (inl (saved, Some (Errorf [Wrap (Sentinel ErrPaymentUncertain); Lit ": "; Wrap err])))
                else mret (inl (saved, Some (wrapf "save declined order: " err)))
            | None => mret (inl (saved, None))
            end
        end
      else if ⟦PaymentResult.Status result = "approved"⟧ then
        let paidOrder := cloneOrder order in
        now ← trigger Now;
        let '(paidOrder, err) := MarkPaid paidOrder now (PaymentResult.Reference result) in
        match err with
        | Some err => mret (inl (None, Some (wrapf "mark order paid: " err)))
        | None =>
            '(saved, err) ← saveTransition ctx order paidOrder;
            match err with
            | Some err =>
                mret (inl (saved, Some (Errorf [Wrap (Sentinel ErrPaymentUncertain);
                                                Lit ": save paid order: "; Wrap err])))
            | None => order ← deref saved; mret (inr order)
            end
        end
      else
        let unknownOrder := cloneOrder order in
        now ← trigger Now;
        let '(unknownOrder, err) := MarkPaymentUnknown unknownOrder now "invalid_provider_status" in
        match err with
        | Some err => mret (inl (None, Some (wrapf "mark payment outcome unknown: " err)))
        | None =>
            '(saved, err) ← saveTransition ctx order unknownOrder;
            match err with
            | Some err =>
                mret (inl (saved, Some (Errorf [Wrap (Sentinel ErrPaymentUncertain);
                  Lit ": invalid payment status; save unknown outcome: "; Wrap err])))
            | None =>
                mret (inl (saved, Some (Errorf [Wrap (Sentinel ErrPaymentUncertain);
                                                Lit ": invalid payment status"])))
            end
        end
  end.

(** The fulfillment step of a paid order. *)
Definition fulfillOrder (ctx : Ctx) (order : Order) : prog portE (option Order * option error) :=
  fulfillmentStarted ← trigger Now;
  fulfillmentErr ← trigger (Reserve ctx (InventoryRequest.mk (ID order) (Items order) (ID order)));
  _ ← observe_since ctx "fulfillment" fulfillmentStarted;
  match fulfillmentErr with
  | Some fulfillmentErr =>
      let pendingOrder := cloneOrder order in
      now ← trigger Now;
      let '(pendingOrder, err) := MarkFulfillmentPending pendingOrder now "inventory_reservation_error" in
      match err with
      | Some err => mret (Some order, Some (wrapf "mark fulfillment pending: " err))
      | None =>
          '(saved, err) ← saveTransition ctx order pendingOrder;
          match err with
          | Some err =>
              mret (saved, Some (Errorf [Wrap (Sentinel ErrFulfillmentPending);
                Lit ": reserve inventory: "; Verb fulfillmentErr;
                Lit "; save fulfillment state: "; Wrap err]))
          | None =>
              mret (saved, Some (Errorf [Wrap (Sentinel ErrFulfillmentPending);
                Lit ": reserve inventory: "; Wrap fulfillmentErr]))
          end
      end
  | None =>
      let completedOrder := cloneOrder order in
      now ← trigger Now;
      let '(completedOrder, err) := Complete completedOrder now in
      match err with
      | Some err => mret (Some order, Some (wrapf "complete fulfilled order: " err))
      | None =>
          '(saved, err) ← saveTransition ctx order completedOrder;
          match err with
          | Some err =>
              mret (saved, Some (Errorf [Wrap (Sentinel ErrFulfillmentPending);
                                         Lit ": save completed order: "; Wrap err]))
          | None => mret (saved, None)
          end
      end
  end.

(** From the validated aggregate to the end: save it as pending, charge, settle
and fulfill. *)
Definition processOrder (ctx : Ctx) (order : Order) : prog portE (option Order * option error) :=
  saveErr ← trigger (Save ctx order);
  match saveErr with
  | Some err => mret (None, Some (wrapf "save pending order: " err))
  | None =>
      order ← emitEvents ctx order;
      paymentStarted ← trigger Now;
      '(result, chargeErr) ← trigger (Charge ctx
        (PaymentRequest.mk (ID order) (CustomerID order) (Total order) (ID order)));
      _ ← observe_since ctx "payment" paymentStarted;
      settled ← settlePayment ctx order result chargeErr;
      match settled with
      | inl ret => mret ret
      | inr order => fulfillOrder ctx order
      end
  end.

Definition Execute (ctx : Ctx) (req : option CreateOrderRequest.t)
    : prog portE (option Order * option error) :=
  validationStarted ← trigger Now;
  match req with
  | None =>
      _ ← observe_since ctx "validation" validationStarted;
      mret (None, Some (Sentinel ErrNilRequest))
  | Some req =>
      if negb (normalizedCustomerTier (CreateOrderRequest.CustomerTier req)).2 then
        _ ← observe_since ctx "validation" validationStarted;
        mret (None, Some (Sentinel ErrInvalidCustomerTier))
      else
        '(orderID, err) ← newOrderID;
        match err with
        | Some err =>
            _ ← observe_since ctx "validation" validationStarted;
            mret (None, Some (wrapf "create order ID: " err))
        | None =>
            createdAt ← trigger Now;
            let '(order, err) := NewOrder orderID (CreateOrderRequest.CustomerID req)
                                   (CreateOrderRequest.Items req) createdAt in
            _ ← observe_since ctx "validation" validationStarted;
            match err with
            | Some err => mret (None, Some (wrapf "create order: " err))
            | None =>
                order ← deref order;
                processOrder ctx order
            end
        end
  end.
