(* ===== verification/Reconciler.v ===== *)
(** * The reconciler (src/internal/usecase/reconciler.go)

Recovery of durable intermediate states: one order, one bounded page, and the
periodic loop. *)

From S2P Require Import Prelude GoValues Prog Domain Ports CreateOrder.

(** ** State *)

Module ReconcilerConfig.
Record t := mk {
  MinAge : Duration;
  BatchSize : Z }.
End ReconcilerConfig.

(** The mutable part of a [Reconciler]: its cursor; the collaborators are the
ports. *)
Record Reconciler := mkReconciler {
  config : ReconcilerConfig.t;
  afterID : string }.

Definition set_afterID (id : string) (r : Reconciler) : Reconciler := mkReconciler (config r) id.

Definition second : Duration := 1000000000%Z.
Definition minute : Duration := (60 * second)%Z.

Definition NewReconciler (config : ReconcilerConfig.t) : Reconciler :=
  let config := if (ReconcilerConfig.MinAge config <=? 0)%Z
                then ReconcilerConfig.mk minute (ReconcilerConfig.BatchSize config)
                else config in
  let config := if (ReconcilerConfig.BatchSize config <=? 0)%Z
                then ReconcilerConfig.mk (ReconcilerConfig.MinAge config) 100
                else config in
  mkReconciler config "".

(** ** One order *)

Definition fulfill (ctx : Ctx) (order : Order) : prog portE (option error) :=
  err ← trigger (Reserve ctx (InventoryRequest.mk (ID order) (Items order) (ID order)));
  match err with
  | Some err =>
      if ⟦Status order = OrderStatusPaid⟧ then
        let expected := Status order in
        now ← trigger Now;
        let '(order, transitionErr) :=
          MarkFulfillmentPending order now "inventory_reconciliation_error" in
        match transitionErr with
        | Some transitionErr => mret (Some transitionErr)
        | None =>
            '(updated, saveErr) ← trigger (SaveIfStatus ctx order expected);
            match saveErr with
            | Some saveErr =>
                mret (Some (Errorf [Lit "reserve inventory: "; Verb err;
                                    Lit "; save fulfillment state: "; Wrap saveErr]))
            | None =>
                if (updated : bool) then
                  _ ← emitDomainEvents ctx order;
                  mret (Some (wrapf "reserve inventory: " err))
                else mret (Some (wrapf "reserve inventory: " err))
            end
        end
      else mret (Some (wrapf "reserve inventory: " err))
  | None =>
      let expected := Status order in
      now ← trigger Now;
      let '(order, err) := Complete order now in
      match err with
      | Some err => mret (Some err)
      | None =>
          '(updated, err) ← trigger (SaveIfStatus ctx order expected);
          match err with
          | Some err => mret (Some (wrapf "save completed order: " err))
          | None =>
              if (updated : bool) then
                _ ← emitDomainEvents ctx order;
                mret None
              else mret None
          end
      end
  end.

(** The [switch result.Status]: the order after its transition, or the error
returned early. *)
Definition applyCharge (order : Order) (result : PaymentResult.t)
    : prog portE (error + Order) :=
  if ⟦PaymentResult.Status result = "approved"⟧ then
    if ⟦PaymentResult.Reference result = ""⟧ then mret (inl (Sentinel ErrMissingChargeReference))
    else
      now ← trigger Now;
      let '(order, err) := MarkPaid order now (PaymentResult.Reference result) in
      match err with Some err => mret (inl err) | None => mret (inr order) end
  else if ⟦PaymentResult.Status result = "declined"⟧ then
    now ← trigger Now;
    let '(order, err) := MarkFailed order now "payment_reconciled_declined" in
    match err with Some err => mret (inl err) | None => mret (inr order) end
  else mret (inl (Sentinel ErrUnknownChargeStatus)).

Definition reconcileOrder (ctx : Ctx) (id : string) : prog portE (option error) :=
  '(order, err) ← trigger (FindByID ctx id);
  match err with
  | Some err => mret (Some (wrapf "find order: " err))
  | None =>
      order ← deref order;
      if ⟦Status order = OrderStatusPending ∨ Status order = OrderStatusPaymentUnknown⟧ then
        '(result, found, err) ← trigger (LookupCharge ctx (ID order));
        match err with
        | Some err => mret (Some (wrapf "look up charge: " err))
        | None =>
            if negb found then mret None
            else
              let expected := Status order in
              applied ← applyCharge order result;
              match applied with
              | inl err => mret (Some err)
              | inr order =>
                  '(updated, err) ← trigger (SaveIfStatus ctx order expected);
                  match err with
                  | Some err => mret (Some (wrapf "save payment outcome: " err))
                  | None =>
                      if negb updated then mret None
                      else
                        order ← emitDomainEvents ctx order;
                        if ⟦Status order = OrderStatusFailed⟧ then mret None
                        else fulfill ctx order
                  end
              end
        end
      else if ⟦Status order = OrderStatusPaid ∨ Status order = OrderStatusFulfillmentPending⟧ then
        fulfill ctx order
      else mret None
  end.

(** [defer span.End()] runs after the error is recorded. *)
Definition ReconcileOrder (ctx : Ctx) (id : string) : prog portE (option error) :=
  '(ctx, span) ← trigger (Start ctx "ReconcileOrder.Execute");
  err ← reconcileOrder ctx id;
  _ ← match err with
      | Some err => trigger (RecordError span err)
      | None => mret tt
      end;
  _ ← trigger (End_ span);
  mret err.

(** ** One page *)

(** The loop over the page: the cursor follows every order, failed or not. *)
Fixpoint reconcilePage (ctx : Ctx) (r : Reconciler) (ids : list string) (failures : list error)
    : prog portE (list error * Reconciler) :=
  match ids with
  | [] => mret (failures, r)
  | id :: ids =>
      let r := set_afterID id r in
      err ← ReconcileOrder ctx id;
      let failures := match err with
        | Some err =>
            failures ++ [Errorf [Lit "reconcile order "; Lit id; Lit ": "; Wrap err]]
        | None => failures
        end in
      reconcilePage ctx r ids failures
  end.

(** [RunOnce], with the reconciler it leaves behind. *)
Definition RunOnce (ctx : Ctx) (r : Reconciler) : prog portE (option error * Reconciler) :=
  err ← trigger (ctx_Err ctx);
  match err with
  | Some err => mret (Some err, r)
  | None =>
      now ← trigger Now;
      let cutoff := (now + - ReconcilerConfig.MinAge (config r))%Z in
      '(ids, err) ← trigger (ListRecoverableIDs ctx (afterID r) cutoff
                               (ReconcilerConfig.BatchSize (config r)));
      match err with
      | Some err => mret (Some err, r)
      | None =>
          if ⟦length ids = 0 ∧ afterID r ≠ ""⟧ then
            let r := set_afterID "" r in
            '(ids, err) ← trigger (ListRecoverableIDs ctx "" cutoff
                                     (ReconcilerConfig.BatchSize (config r)));
            match err with
            | Some err => mret (Some err, r)
            | None =>
                '(failures, r) ← reconcilePage ctx r ids [];
                mret (errors_Join failures, r)
            end
          else
            '(failures, r) ← reconcilePage ctx r ids [];
            mret (errors_Join failures, r)
      end
  end.

(** ** The periodic loop *)

(** The period of the ticker. *)
Definition run_interval (interval : Duration) : Duration :=
  if (interval <=? 0)%Z then (30 * second)%Z else interval.

(** [Run] processes a batch at once and then one per tick until the context is
done; [ticks] is the number of ticks the ticker delivers before that. *)
Fixpoint Run (ctx : Ctx) (r : Reconciler) (ticks : nat) : prog portE Reconciler :=
  '(err, r) ← RunOnce ctx r;
  _ ← match err with
      | Some err =>
          ctxErr ← trigger (ctx_Err ctx);
          match ctxErr with
          | None => trigger (LogError ctx "reconciliation.batch_failed" err [])
          | Some _ => mret tt
          end
      | None => mret tt
      end;
  match ticks with
  | 0 => mret r
  | S ticks => Run ctx r ticks
  end.
