(* ===== verification/Passes.v ===== *)
(** * One pass of the reconciler (src/internal/usecase/reconciler.go)

What [RunOnce] does with a page, on every execution: each order of the page is
tried once, in order, whatever became of the ones before it. *)

From S2P Require Import Prelude GoValues Prog Domain Ports CreateOrder Reconciler.

(** ** The listing *)

Definition cutoff_of (r : Reconciler) (now : Time) : Time :=
  (now + - ReconcilerConfig.MinAge (config r))%Z.
Definition list_call (ctx : Ctx) (r : Reconciler) (after : string) (now : Time) : portE (list string * option error) :=
  ListRecoverableIDs ctx after (cutoff_of r now) (ReconcilerConfig.BatchSize (config r)).

(** The calls of [RunOnce] before the page, with the page or the error they end
in and the cursor they leave: the context is done; the scan fails; a page; an
empty page that is the last one, and the scan from the beginning after it. *)
Inductive scanned (ctx : Ctx) (r : Reconciler) : list (call portE) → error + list string → string → Prop :=
| scanned_done err :
    scanned ctx r [Call (ctx_Err ctx) (Some err)] (inl err) (afterID r)
| scanned_failed now ids err :
    scanned ctx r [Call (ctx_Err ctx) None; Call Now now; Call (list_call ctx r (afterID r) now) (ids, Some err)]
      (inl err) (afterID r)
| scanned_page now ids :
    ids ≠ [] ∨ afterID r = "" →
    scanned ctx r [Call (ctx_Err ctx) None; Call Now now; Call (list_call ctx r (afterID r) now) (ids, None)]
      (inr ids) (afterID r)
| scanned_wrapped now ids answer :
    afterID r ≠ "" →
    scanned ctx r [Call (ctx_Err ctx) None; Call Now now; Call (list_call ctx r (afterID r) now) ([], None);
                   Call (list_call ctx r "" now) (ids, answer)]
      (match answer with Some err => inl err | None => inr ids end) "".

(** ** The attempts *)

(** One call of [ReconcileOrder]: its order, its calls and its result. *)
Record attempt := mkAttempt {
  try_id : string;
  try_calls : list (call portE);
  try_result : option error }.

Definition attempted (ctx : Ctx) (a : attempt) : Prop :=
  exec (ReconcileOrder ctx (try_id a)) (try_calls a) (Returned (try_result a)).

Definition failure_of (a : attempt) : option error :=
  (λ err, Errorf [Lit "reconcile order "; Lit (try_id a); Lit ": "; Wrap err]) <$> try_result a.

Lemma exec_reconcilePage ctx r ids fs tr fs' r' :
  exec (reconcilePage ctx r ids fs) tr (Returned (fs', r')) →
  ∃ tries, map try_id tries = ids ∧ Forall (attempted ctx) tries ∧ tr = tries ≫= try_calls ∧
    fs' = fs ++ omap failure_of tries ∧ r' = mkReconciler (config r) (default (afterID r) (last ids)).
Proof.
  revert r fs tr. induction ids as [|id ids IH]; intros r fs tr; cbn [reconcilePage]; cbv zeta.
  - intros [-> [= -> ->]]%exec_ret. exists []. rewrite app_nil_r. by destruct r.
  - intros (err & tr1 & tr2 & -> & H1 & H2)%exec_bind.
    destruct (IH _ _ _ H2) as (tries & <- & Hall & -> & -> & ->).
    exists (mkAttempt id tr1 err :: tries). split_and!; [done|by constructor|done| |].
    + cbn. destruct err as [err|]; cbn; [by rewrite <- app_assoc|done].
    + cbn [map]. rewrite last_cons. cbn. by destruct (last (map try_id tries)).
Qed.

Lemma exec_page ctx r ids tr err r' :
  exec ('(failures, r) ← reconcilePage ctx r ids []; mret (errors_Join failures, r)) tr (Returned (err, r')) →
  ∃ tries, map try_id tries = ids ∧ Forall (attempted ctx) tries ∧ tr = tries ≫= try_calls ∧
    err = errors_Join (omap failure_of tries) ∧ r' = mkReconciler (config r) (default (afterID r) (last ids)).
Proof.
  intros ([fs r1] & tr1 & tr2 & -> & (tries & ? & ? & -> & -> & ->)%exec_reconcilePage &
    [-> [= -> ->]]%exec_ret)%exec_bind.
  exists tries. by rewrite app_nil_r.
Qed.

(** What the joined error says. *)
Lemma joined_none tries :
  errors_Join (omap failure_of tries) = None ↔ Forall (λ a, try_result a = None) tries.
Proof.
  induction tries as [|a tries IH]; cbn; [by split; constructor|]. unfold failure_of at 1.
  destruct (try_result a) as [e|] eqn:Ha; cbn.
  - split; [done|]. intros [Hn _]%Forall_cons. congruence.
  - rewrite Forall_cons, Ha. unfold errors_Join in *. naive_solver.
Qed.

Lemma joined_is s tries :
  (∃ e, errors_Join (omap failure_of tries) = Some e ∧ errors_Is e s = true) ↔
  Exists (λ a, ∃ e, try_result a = Some e ∧ errors_Is e s = true) tries.
Proof.
  trans (existsb (λ e, errors_Is e s) (omap failure_of tries) = true).
  { unfold errors_Join. destruct (omap failure_of tries) as [|e es]; [naive_solver|].
    split; [by intros (? & [= <-] & H)|]. intros H. by eexists. }
  induction tries as [|a tries IH]; cbn; [split; [done|by intros ?%Exists_nil]|].
  rewrite Exists_cons, <- IH. unfold failure_of at 1. destruct (try_result a) as [e|]; cbn.
  - rewrite !orb_false_r, orb_true_iff. naive_solver.
  - naive_solver.
Qed.

(** C20: A pass tries every order of its page, once and in order, and no other, no
matter how the attempts before it ended; its error joins exactly the failures,
each under the id of its order, so that it is nil just if every attempt
succeeded; and the cursor ends after the last order of the page.  A page comes
from one scan after the cursor, or, when that one is empty, from one more from
the beginning; nothing is attempted when the context is done or a scan fails. *)
Theorem RunOnce_tries_the_page (ctx : Ctx) (r r' : Reconciler) (tr : list (call portE)) (err : option error)
    (ran : exec (RunOnce ctx r) tr (Returned (err, r'))) :
  ∃ listing page cursor, scanned ctx r listing page cursor ∧
    match page with
    | inl e => tr = listing ∧ err = Some e ∧ r' = mkReconciler (config r) cursor
    | inr ids => ∃ tries, map try_id tries = ids ∧ Forall (attempted ctx) tries ∧
        tr = listing ++ (tries ≫= try_calls) ∧
        err = errors_Join (omap failure_of tries) ∧
        (err = None ↔ Forall (λ a, try_result a = None) tries) ∧
        (∀ s, (∃ e, err = Some e ∧ errors_Is e s = true) ↔
              Exists (λ a, ∃ e, try_result a = Some e ∧ errors_Is e s = true) tries) ∧
        r' = mkReconciler (config r) (default cursor (last ids))
    end.
Proof.
  assert (∀ ids tr r1 r' err, exec ('(failures, r) ← reconcilePage ctx r1 ids []; mret (errors_Join failures, r)) tr
      (Returned (err, r')) → config r1 = config r →
    ∃ tries, map try_id tries = ids ∧ Forall (attempted ctx) tries ∧ tr = tries ≫= try_calls ∧
      err = errors_Join (omap failure_of tries) ∧
      (err = None ↔ Forall (λ a, try_result a = None) tries) ∧
      (∀ s, (∃ e, err = Some e ∧ errors_Is e s = true) ↔
            Exists (λ a, ∃ e, try_result a = Some e ∧ errors_Is e s = true) tries) ∧
      r' = mkReconciler (config r) (default (afterID r1) (last ids))) as Hpage.
  { intros ids tr' r1 r2 err' (tries & Hids & Hall & -> & -> & ->)%exec_page Hcfg.
    exists tries. rewrite Hcfg. split_and!; try done; [apply joined_none|intros; apply joined_is]. }
  revert ran. unfold RunOnce. intros (done & tr1 & -> & ran)%exec_trigger.
  destruct done as [e|].
  { apply exec_ret in ran as [-> [= -> ->]]. do 3 eexists. split; [apply scanned_done|]. by destruct r. }
  apply exec_trigger in ran as (now & tr2 & -> & ran).
  apply exec_trigger in ran as ([ids [e|]] & tr3 & -> & ran).
  { apply exec_ret in ran as [-> [= -> ->]]. do 3 eexists. split; [apply scanned_failed|]. by destruct r. }
  case_bool_decide as Hempty.
  - destruct Hempty as [->%nil_length_inv Hne]. apply exec_trigger in ran as ([ids' [e|]] & tr4 & -> & ran).
    + apply exec_ret in ran as [-> [= -> ->]]. do 3 eexists. by split; [by apply (scanned_wrapped _ _ now ids' (Some e))|].
    + destruct (Hpage _ _ _ _ _ ran eq_refl) as (tries & ? & ? & -> & ?).
      do 3 eexists. split; [by apply (scanned_wrapped _ _ now ids' None)|]. exists tries. naive_solver.
  - destruct (Hpage _ _ _ _ _ ran eq_refl) as (tries & ? & ? & -> & ?).
    do 3 eexists. split; [apply (scanned_page _ _ now ids)|exists tries; naive_solver].
    destruct ids; [|by left]. right. destruct (decide (afterID r = "")); [done|]. naive_solver.
Qed.

(** ** A pass with a failing order *)

(** A page of two orders: the first cannot be read, the second is done. *)
Definition half_broken : handler portE unit := λ R e w,
  (match e in portE R return R with
   | Now => 90000000000%Z
   | rand_Read _ => ([], None)
   | ctx_Err _ => None
   | Save _ _ => None
   | SaveIfStatus _ _ _ => (true, None)
   | FindByID _ id =>
       if ⟦id = "ord_1"⟧ then (None, Some (Sentinel ErrNotFound))
       else (Some (mkOrder id "cust_1" [] OrderStatusCompleted 0 "ref_1" []), None)
   | ListRecoverableIDs _ _ _ _ => (["ord_1"; "ord_2"], None)
   | Charge _ _ => (PaymentResult.mk "" "", None)
   | LookupCharge _ _ => (PaymentResult.mk "" "", false, None)
   | Reserve _ _ => None
   | Start ctx _ => (ctx, 0%N)
   | SpanFromContext _ => 0%N
   | _ => tt
   end, w).

Definition example_worker : Reconciler := set_afterID "ord_0" (NewReconciler (ReconcilerConfig.mk 0 0)).

Example half_broken_pass :
  (run half_broken (RunOnce (mkCtx 0) example_worker) tt).1 =
    Returned (Some (Join [Errorf [Lit "reconcile order "; Lit "ord_1"; Lit ": ";
                                  Wrap (wrapf "find order: " (Sentinel ErrNotFound))]]),
              set_afterID "ord_2" example_worker).
Proof. vm_compute. reflexivity. Qed.

Lemma RunOnce_tries_the_page_witness :
  ∃ listing page cursor, scanned (mkCtx 0) example_worker listing page cursor ∧ page ≠ inr [].
Proof.
  pose (tr := run_trace half_broken (RunOnce (mkCtx 0) example_worker) tt).
  destruct (RunOnce_tries_the_page (mkCtx 0) example_worker (set_afterID "ord_2" example_worker) tr
    (Some (Join [Errorf [Lit "reconcile order "; Lit "ord_1"; Lit ": ";
                         Wrap (wrapf "find order: " (Sentinel ErrNotFound))]]))) as (l & p & c & Hs & Hp).
  - rewrite <- half_broken_pass. apply run_exec.
  - exists l, p, c. split; [exact Hs|]. intros ->. destruct Hp as (tries & Ht & _ & _ & He & _).
    apply map_eq_nil in Ht as ->. discriminate He.
Defined.
