(* ===== verification/Decorators.v ===== *)
(** * The decorators (src/internal/usecase/*_decorator.go)

Metrics, logging and tracing around a CreateOrder usecase, tracing around the
repository port, and the stack that main.go composes. *)

From S2P Require Import Prelude GoValues Prog Domain Ports CreateOrder.

(** ** The decorated interface *)

(** [CreateOrderUsecase]: a value with an [Execute] method. *)
Record CreateOrderUsecase := mkUsecase {
  uc_Execute : Ctx → option CreateOrderRequest.t → prog portE (option Order * option error) }.

Definition Interactor : CreateOrderUsecase := mkUsecase Execute.

(** The tier label of a request, in bounded form. *)
Definition tier_label (req : option CreateOrderRequest.t) : string :=
  match req with
  | None => "unknown"
  | Some req =>
      let '(normalized, ok) := normalizedCustomerTier (CreateOrderRequest.CustomerTier req) in
      if (ok : bool) then normalized else "unknown"
  end.

Definition MetricsInteractor (inner : CreateOrderUsecase) : CreateOrderUsecase :=
  mkUsecase (λ ctx req,
    '(order, err) ← uc_Execute inner ctx req;
    match order with
    | None => mret (None, err)
    | Some order =>
        let status := if ⟦err = None ∧ Status order = OrderStatusCompleted⟧
                      then "success" else "failure" in
        let tier := tier_label req in
        _ ← trigger (IncOrdersCreated status tier);
        mret (Some order, err)
    end).

(** [d.Milliseconds()]: integer division truncated toward zero. *)
Definition Milliseconds (d : Duration) : Z := Z.quot d 1000000.

Definition LoggingInteractor (inner : CreateOrderUsecase) : CreateOrderUsecase :=
  mkUsecase (λ ctx req,
    start ← trigger Now;
    let itemCount := match req with
                     | Some req => Z.of_nat (length (CreateOrderRequest.Items req))
                     | None => 0%Z
                     end in
    let tier := tier_label req in
    _ ← trigger (Info ctx "CreateOrder.request"
          [VString "item_count"; VInt itemCount; VString "customer_tier"; VString tier]);
    '(order, err) ← uc_Execute inner ctx req;
    now ← trigger Now;
    let durationMS := Milliseconds (Sub now start) in
    match err with
    | Some err =>
        let fields := [VString "duration_ms"; VInt64 durationMS;
                       VString "outcome"; VString "failure"] in
        let fields := match order with
                      | Some order =>
                          fields ++ [VString "order_id"; VString (ID order);
                                     VString "last_known_status"; VString (Status order)]
                      | None => fields
                      end in
        _ ← trigger (LogError ctx "CreateOrder.response" err fields);
        mret (order, Some err)
    | None =>
        order ← deref order;
        let outcome := if ⟦Status order = OrderStatusCompleted⟧ then "success" else "failure" in
        _ ← trigger (Info ctx "CreateOrder.response"
              [VString "duration_ms"; VInt64 durationMS; VString "outcome"; VString outcome;
               VString "order_id"; VString (ID order); VString "status"; VString (Status order)]);
        mret (Some order, None)
    end).

(** [defer span.End()] with the recording of a non-nil error before it. *)
Definition traced {A} (span : Span) (err : A → option error) (body : prog portE A) : prog portE A :=
  a ← body;
  _ ← match err a with
      | Some err => trigger (RecordError span err)
      | None => mret tt
      end;
  _ ← trigger (End_ span);
  mret a.

Definition TracingInteractor (inner : CreateOrderUsecase) : CreateOrderUsecase :=
  mkUsecase (λ ctx req,
    '(ctx, span) ← trigger (Start ctx "CreateOrder.Execute");
    traced span snd (uc_Execute inner ctx req)).

(** [TracingOrderRepository] implements the repository port by a span around
the inner repository; every other call goes through. *)
Definition TracingOrderRepository : ∀ R, portE R → prog portE R :=
  λ R e,
  match e in portE R return prog portE R with
  | Save ctx order =>
      '(ctx, span) ← trigger (Start ctx "orders.repository.save");
      traced span id (trigger (Save ctx order))
  | SaveIfStatus ctx order expected =>
      '(ctx, span) ← trigger (Start ctx "orders.repository.save_if_status");
      traced span snd (trigger (SaveIfStatus ctx order expected))
  | FindByID ctx id =>
      '(ctx, span) ← trigger (Start ctx "orders.repository.find_by_id");
      traced span snd (trigger (FindByID ctx id))
  | e => trigger e
  end.

(** ** The composition of cmd/orderservice/main.go *)

(** The core interactor over the traced repository. *)
Definition core : CreateOrderUsecase :=
  mkUsecase (λ ctx req, interp TracingOrderRepository (uc_Execute Interactor ctx req)).

Definition createOrder : CreateOrderUsecase :=
  TracingInteractor (LoggingInteractor (MetricsInteractor core)).
