(* ===== verification/Saves.v ===== *)
(** * What is saved

Programs whose calls all satisfy a condition, and the one that matters here: which
orders the threads of the process insert.  A request inserts only the order it asks
for; recovery inserts none. *)

From S2P Require Import Prelude GoValues Prog Domain Ports CreateOrder Reconciler Decorators.

(** ** Calls that keep a condition *)

(** Every call [p] can make, whatever it is answered, satisfies [φ]. *)
Fixpoint calls_ok {E A} (φ : ∀ R, E R → Prop) (p : prog E A) : Prop :=
  match p with
  | Ret _ | Panic _ => True
  | Vis e k => φ _ e ∧ ∀ r, calls_ok φ (k r)
  end.

Lemma calls_ok_bind {E A B} φ (p : prog E A) (f : A → prog E B) :
  calls_ok φ p → (∀ a, calls_ok φ (f a)) → calls_ok φ (p ≫= f).
Proof.
  intros Hp Hf. induction p as [a|msg|R e k IH]; [apply Hf|done|].
  destruct Hp as [He Hk]. split; [done|]. intros r. apply IH, Hk.
Qed.

Lemma calls_ok_interp {E F A} φ ψ (h : ∀ R, E R → prog F R) (p : prog E A) :
  (∀ R e, φ R e → calls_ok ψ (h R e)) → calls_ok φ p → calls_ok ψ (interp h p).
Proof.
  intros Hh Hp. induction p as [a|msg|R e k IH]; [done..|]. destruct Hp as [He Hk].
  apply (calls_ok_bind ψ); [by apply Hh|]. intros r. apply IH, Hk.
Qed.

(** ** Orders that are saved *)

(** [Save] is called on orders that satisfy [ψ]. *)
Definition saves (ψ : Order → Prop) {R} (e : portE R) : Prop :=
  match e with Save _ o => ψ o | _ => True end.

(** The order that a request asks for. *)
Definition asked_for (req : CreateOrderRequest.t) (o : Order) : Prop :=
  CustomerID o = CreateOrderRequest.CustomerID req ∧ Items o = CreateOrderRequest.Items req.

Section saves.
Context (ψ : Order → Prop).
Abbreviation saving p := (calls_ok (@saves ψ) p).

(** Steps through a program, closing the calls that are not [Save]. *)
Ltac saves_step :=
  match goal with
  | |- calls_ok _ (mret _) => exact I
  | |- calls_ok _ (Ret _) => exact I
  | |- calls_ok _ (Panic _) => exact I
  | |- calls_ok _ (deref ?o) => destruct o; exact I
  | |- calls_ok _ (trigger _) => split; [exact I|intros ?; exact I]
  | |- calls_ok _ (_ ≫= _) => apply calls_ok_bind; [|intros ?]
  | |- calls_ok _ (match ?x with _ => _ end) => destruct x
  | |- calls_ok _ (let _ := _ in _) => cbv zeta
  end.

Lemma saves_observe_since ctx step t : saving (observe_since ctx step t).
Proof. unfold observe_since. repeat saves_step. Qed.

Lemma saves_emitDomainEvents ctx o : saving (emitDomainEvents ctx o).
Proof.
  unfold emitDomainEvents. apply calls_ok_bind; [saves_step|intros span].
  destruct (PullEvents o) as [es o']. apply calls_ok_bind; [|intros []; exact I].
  induction es as [|e es IH]; cbn [emit_each]; repeat saves_step. exact IH.
Qed.

Lemma saves_saveTransition ctx previous next : saving (saveTransition ctx previous next).
Proof. unfold saveTransition. repeat saves_step; apply saves_emitDomainEvents. Qed.

(** ... and through the calls of helpers that are done. *)
Ltac saves_walk :=
  repeat match goal with
  | |- calls_ok _ (observe_since _ _ _) => apply saves_observe_since
  | |- calls_ok _ (emitDomainEvents _ _) => apply saves_emitDomainEvents
  | |- calls_ok _ (saveTransition _ _ _) => apply saves_saveTransition
  | _ => saves_step
  end.

Lemma saves_processOrder ctx o : ψ o → saving (processOrder ctx o).
Proof.
  intros Ho. unfold processOrder. apply calls_ok_bind; [by split|]. intros saveErr.
  unfold settlePayment, fulfillOrder, emitEvents. saves_walk.
Qed.

Lemma saves_Execute ctx req :
  match req with
  | Some req => ∀ o, asked_for req o → ψ o
  | None => True
  end → saving (Execute ctx req).
Proof.
  intros Hreq. unfold Execute, newOrderID. saves_step; [saves_step|].
  destruct req as [req|]; [|saves_walk]. destruct (negb _); [saves_walk|].
  apply calls_ok_bind; [saves_walk|]. intros [orderID [err|]]; [saves_walk|].
  apply calls_ok_bind; [saves_walk|]. intros createdAt.
  destruct (NewOrder _ _ _ _) as [[o|] err] eqn:Hnew.
  - apply NewOrder_inv in Hnew as (_ & _ & _ & -> & ->).
    apply calls_ok_bind; [saves_walk|]. intros []. by apply saves_processOrder, Hreq.
  - apply calls_ok_bind; [saves_walk|]. intros []. by destruct err.
Qed.

Lemma saves_createOrder ctx req :
  match req with
  | Some req => ∀ o, asked_for req o → ψ o
  | None => True
  end → saving (uc_Execute createOrder ctx req).
Proof.
  intros Hreq.
  assert (∀ ctx, saving (interp TracingOrderRepository (Execute ctx req))) as Hcore.
  { intros ctx'. eapply calls_ok_interp; [|by apply saves_Execute].
    intros R e He. destruct e; simpl; try (split; [exact He|intros ?; exact I]);
      repeat split; try exact He; intros; unfold traced; saves_walk; by split. }
  unfold createOrder, TracingInteractor, LoggingInteractor, MetricsInteractor, core, traced.
  cbn [uc_Execute Interactor]. saves_walk. all: try apply Hcore.
Qed.

Lemma saves_ReconcileOrder ctx id : saving (ReconcileOrder ctx id).
Proof. unfold ReconcileOrder, reconcileOrder, fulfill, applyCharge. saves_walk. Qed.

Lemma saves_Run ctx r ticks : saving (Run ctx r ticks).
Proof.
  assert (∀ ids r failures, saving (reconcilePage ctx r ids failures)) as Hpage.
  { induction ids as [|id ids IH]; intros r' failures; cbn [reconcilePage]; [exact I|].
    cbv zeta. apply calls_ok_bind; [apply saves_ReconcileOrder|]. intros err. apply IH. }
  revert r. induction ticks as [|ticks IH]; intros r; cbn [Run]; unfold RunOnce; saves_walk;
    (apply Hpage || apply IH).
Qed.
End saves.
