(* ===== verification/Provider.v ===== *)
(** * What the Payment Service promises

The Payment Service is not part of the repository.  This interface states the
behaviour the code relies on: idempotency per key, final answers, and the
recovery contract of README.md (the lookup reports what the ledger holds, and
an absent record proves nothing).  The usecases are verified against it. *)

From S2P Require Import Prelude GoValues Domain Ports.

(** What the ledger holds for an idempotency key.  [InFlight]: a request may
still be committed later, after its caller saw a timeout. *)
Inductive charge_state :=
| Untouched
| InFlight
| Approved (ref : string)
| Declined.

#[global] Instance charge_state_eq_dec : EqDecision charge_state.
Proof. solve_decision. Defined.

(** Settled states are final. *)
Definition final (c : charge_state) : Prop :=
  match c with Approved _ | Declined => True | _ => False end.

(** The meaning of a [PaymentResult] as a ledger state. *)
Definition result_state (r : PaymentResult.t) : option charge_state :=
  if ⟦PaymentResult.Status r = "approved"⟧ then Some (Approved (PaymentResult.Reference r))
  else if ⟦PaymentResult.Status r = "declined"⟧ then Some Declined
  else None.

(** A charge changes the ledger only under its own key, never takes back a final
state, answers with the state it leaves, and a definitive rejection leaves the
key as it was. *)
Record charge_law (before after : string → charge_state) (req : PaymentRequest.t)
    (ans : PaymentResult.t * option error) : Prop := {
  charge_frame : ∀ k, k ≠ PaymentRequest.IdempotencyKey req → after k = before k;
  charge_final : ∀ k, final (before k) → after k = before k;
  charge_answer : ∀ c, ans.2 = None → result_state ans.1 = Some c →
    after (PaymentRequest.IdempotencyKey req) = c;
  charge_rejected : ∀ err, ans.2 = Some err → PaymentOutcomeMayHaveCommitted err = false →
    after (PaymentRequest.IdempotencyKey req) = before (PaymentRequest.IdempotencyKey req) }.

(** A lookup changes nothing, and what it finds is what the ledger holds. *)
Record lookup_law (before after : string → charge_state) (key : string)
    (ans : PaymentResult.t * bool * option error) : Prop := {
  lookup_frame : ∀ k, after k = before k;
  lookup_answer : ∀ c, ans.2 = None → ans.1.2 = true → result_state ans.1.1 = Some c →
    before key = c }.

(** On its own the provider only settles charges that are in flight. *)
Record settle_law (before after : string → charge_state) : Prop := {
  settle_untouched : ∀ k, before k = Untouched → after k = Untouched;
  settle_final : ∀ k, final (before k) → after k = before k }.

Class PaymentProvider (P : Type) := {
  ledger : P → string → charge_state;
  charge : P → PaymentRequest.t → PaymentResult.t * option error → P → Prop;
  lookup_charge : P → string → PaymentResult.t * bool * option error → P → Prop;
  settle : P → P → Prop;
  charge_ok p req ans p' : charge p req ans p' → charge_law (ledger p) (ledger p') req ans;
  lookup_ok p key ans p' : lookup_charge p key ans p' → lookup_law (ledger p) (ledger p') key ans;
  settle_ok p p' : settle p p' → settle_law (ledger p) (ledger p') }.

(** ** A concrete provider

A ledger as a map, every behaviour the laws allow included: timeouts that
commit, commit later or never, definitive rejections and lookups that miss. *)
Definition ledger_map (m : gmap string charge_state) (k : string) : charge_state :=
  default Untouched (m !! k).

Definition map_charge (m : gmap string charge_state) (req : PaymentRequest.t)
    (ans : PaymentResult.t * option error) (m' : gmap string charge_state) : Prop :=
  let k := PaymentRequest.IdempotencyKey req in
  match ans with
  | (res, None) =>
      ∃ c, result_state res = Some c ∧ m' = <[k := c]> m ∧
        (final (ledger_map m k) → c = ledger_map m k)
  | (_, Some err) =>
      m' = m ∨
      PaymentOutcomeMayHaveCommitted err = true ∧ ¬ final (ledger_map m k) ∧
      ∃ c, m' = <[k := c]> m
  end.

Definition map_lookup (m : gmap string charge_state) (k : string)
    (ans : PaymentResult.t * bool * option error) (m' : gmap string charge_state) : Prop :=
  m' = m ∧ (ans.2 = None → ans.1.2 = true → result_state ans.1.1 = Some (ledger_map m k)).

Definition map_settle (m m' : gmap string charge_state) : Prop :=
  ∃ k c, ledger_map m k = InFlight ∧ m' = <[k := c]> m.

Lemma ledger_map_insert m k c k' :
  ledger_map (<[k := c]> m) k' = if decide (k = k') then c else ledger_map m k'.
Proof. unfold ledger_map. rewrite lookup_insert. by case_decide. Qed.

#[global] Program Instance map_provider : PaymentProvider (gmap string charge_state) := {|
  ledger := ledger_map; charge := map_charge; lookup_charge := map_lookup; settle := map_settle |}.
Next Obligation.
  intros m req [res [err|]] m'; simpl.
  - intros [->|(Hc & Hf & c & ->)].
    + by split.
    + split; intros; rewrite ?ledger_map_insert; try case_decide; simplify_eq/=; congruence.
  - intros (c & Hc & -> & Hf).
    split; intros; rewrite ?ledger_map_insert; try case_decide; simplify_eq/=; try congruence.
    by rewrite Hf.
Qed.
Next Obligation. intros m k ans m' [-> H]. split; [done|]. intros c ? ?. rewrite H by done. congruence. Qed.
Next Obligation.
  intros m m' (k & c & Hk & ->).
  split; intros k'; rewrite ledger_map_insert; case_decide; subst; rewrite ?Hk; done.
Qed.
