(* ===== verification/Store.v ===== *)
(** * What the order store promises

The abstract specification of the repository port: a map from order ids to
durable orders, on which each method is one atomic step that may also fail,
with or without having taken effect.  Repository.v proves that the Postgres
adapter implements it. *)

From S2P Require Import Prelude GoValues Prog Domain Ports.

(** What the database keeps of an order. *)
Definition durable (timestamptz : Time → Time) (o : Order) : Order :=
  mkOrder (ID o) (CustomerID o) (Items o) (Status o) (timestamptz (CreatedAt o))
    (PaymentReference o) [].

(** The columns a conditional save writes. *)
Definition write_status (o row : Order) : Order :=
  mkOrder (ID row) (CustomerID row) (Items row) (Status o) (CreatedAt row)
    (PaymentReference o) (events row).

Definition recoverable_statuses : list OrderStatus :=
  [OrderStatusPending; OrderStatusPaymentUnknown; OrderStatusPaid; OrderStatusFulfillmentPending].

Section store.
Context (timestamptz : Time → Time).
Abbreviation orders := (gmap string Order).

(** [Save] inserts; a taken id is an error. *)
Definition store_insert (db : orders) (o : Order) : option orders :=
  match db !! ID o with
  | Some _ => None
  | None => Some (<[ID o := durable timestamptz o]> db)
  end.

(** [SaveIfStatus] writes only over the expected status. *)
Definition store_cas (db : orders) (o : Order) (expected : OrderStatus) : option orders :=
  match db !! ID o with
  | Some row => if ⟦Status row = expected⟧ then Some (<[ID o := write_status o row]> db) else None
  | None => None
  end.

Definition save_spec (db : orders) (o : Order) (ans : option error) (db' : orders) : Prop :=
  match ans with
  | None => store_insert db o = Some db'
  | Some _ => db' = db ∨ store_insert db o = Some db'
  end.

Definition cas_spec (db : orders) (o : Order) (expected : OrderStatus)
    (ans : bool * option error) (db' : orders) : Prop :=
  match ans with
  | (true, None) => store_cas db o expected = Some db'
  | (false, None) => store_cas db o expected = None ∧ db' = db
  | (updated, Some _) => updated = false ∧ (db' = db ∨ store_cas db o expected = Some db')
  end.

Definition find_spec (db : orders) (id : string) (ans : option Order * option error) : Prop :=
  match ans with
  | (Some o, None) => db !! id = Some o
  | (None, Some _) => True
  | _ => False
  end.

(** What the recovery scan is to find: the orders in a recoverable status that
are old enough. *)
Definition recoverable (db : orders) (cutoff : Time) (id : string) : Prop :=
  ∃ o, db !! id = Some o ∧ (CreatedAt o <= cutoff)%Z ∧ Status o ∈ recoverable_statuses.

(** A page of the ids [el] after a cursor: the first [limit] of them in order. *)
Record page_spec (id_le : relation string) (el : string → Prop) (afterID : string) (limit : Z)
    (ids : list string) : Prop := {
  page_sorted : StronglySorted (strict id_le) ids;
  page_bounded : (Z.of_nat (length ids) <= Z.max 0 limit)%Z;
  page_sound : Forall (λ id, strict id_le afterID id ∧ el id) ids;
  page_complete : ∀ id, strict id_le afterID id → el id →
    id ∈ ids ∨ (limit <= Z.of_nat (length ids))%Z ∧ Forall (λ j, strict id_le j id) ids }.

Definition list_spec (id_le : relation string) (db : orders) (afterID : string) (cutoff : Time)
    (limit : Z) (ids : list string) : Prop :=
  page_spec id_le (recoverable db cutoff) afterID limit ids.
End store.

(** ** Lemmas *)

Lemma store_insert_Some tz db o db' :
  store_insert tz db o = Some db' ↔
  db !! ID o = None ∧ db' = <[ID o := durable tz o]> db.
Proof. unfold store_insert. destruct (db !! ID o); naive_solver. Qed.

Lemma store_cas_Some db o expected db' :
  store_cas db o expected = Some db' ↔
  ∃ row, db !! ID o = Some row ∧ Status row = expected ∧ db' = <[ID o := write_status o row]> db.
Proof.
  unfold store_cas. destruct (db !! ID o) as [row|]; [|naive_solver].
  case_bool_decide; naive_solver.
Qed.

(** ** Pages *)

Lemma strict_elim (id_le : relation string) `{!PartialOrder id_le} x y :
  id_le x y → x ≠ y → strict id_le x y.
Proof. intros ? Hne. split; [done|]. intros ?. by apply Hne, (anti_symm id_le). Qed.

Lemma sorted_strict (id_le : relation string) `{!PartialOrder id_le} (l : list string) :
  NoDup l → StronglySorted id_le l → StronglySorted (strict id_le) l.
Proof.
  intros Hnd. induction 1 as [|x l Hs IH Hx]; [constructor|]. inv Hnd. constructor; [by apply IH|].
  rewrite Forall_forall in *. intros y Hy. apply (strict_elim _); [by apply Hx|]. by intros ->.
Qed.

(** The beginning of all that is to be found, in order, is a page. *)
Lemma take_page_spec (id_le : relation string) (el : string → Prop) afterID limit (l : list string) :
  StronglySorted (strict id_le) l → (∀ id, id ∈ l ↔ strict id_le afterID id ∧ el id) →
  page_spec id_le el afterID limit (take (Z.to_nat limit) l).
Proof.
  intros Hs Hl. pose proof (take_drop (Z.to_nat limit) l) as Htd. split.
  - rewrite <- Htd in Hs. by apply StronglySorted_app_1_l in Hs.
  - rewrite length_take. lia.
  - apply Forall_forall. intros id Hid. apply Hl. rewrite <- Htd, elem_of_app. by left.
  - intros id Hlt Hel. assert (id ∈ l) as Hid by by apply Hl.
    rewrite <- Htd, elem_of_app in Hid. destruct Hid as [?|Hd]; [by left|]. right. split.
    + rewrite length_take. assert (length (drop (Z.to_nat limit) l) ≠ 0).
      { intros Hnil%nil_length_inv. rewrite Hnil in Hd. by apply not_elem_of_nil in Hd. }
      rewrite length_drop in *. lia.
    + apply Forall_forall. intros j Hj. rewrite <- Htd in Hs.
      by eapply StronglySorted_app_1_elem_of.
Qed.
