(* ===== verification/Safety.v ===== *)
(** * The payment-safety protocol of the usecases

What one thread (a request or a recovery pass) may do, given what it has
learnt from earlier answers: save only along the lifecycle and only what the
provider's answers justify, charge only with the right obtained by inserting
the pending row, reserve only for approved charges, complete only what was reserved.  The usecases, decorators
and reconciler are verified against it; System.v puts threads together. *)

From S2P Require Import Prelude GoValues Prog Domain Ports CreateOrder Reconciler Decorators Provider Store.

(** ** Knowledge of a thread *)

(** Facts that stay true once learnt, whatever other threads do. *)
Inductive fact :=
(** the order has a durable row, with its customer and items *)
| FRow (id customer : string) (items : list OrderItem)
| FApproved (id ref : string)
| FDeclined (id : string)
(** the provider definitively rejected the only charge of the order *)
| FRefused (id : string)
(** a reservation of the items for the order succeeded *)
| FReserved (id : string) (items : list OrderItem).

Record knowledge := mkKnowledge {
  (** orders this thread may charge, once each *)
  tokens : list string;
  facts : list fact }.

Definition no_knowledge : knowledge := mkKnowledge [] [].
Definition learn (f : fact) (g : knowledge) : knowledge := mkKnowledge (tokens g) (f :: facts g).
Definition knows (g : knowledge) (f : fact) : Prop := f ∈ facts g.

Definition row_fact (o : Order) : fact := FRow (ID o) (CustomerID o) (Items o).

(** The status and the payment columns of an order are justified by facts. *)
Definition justified (g : knowledge) (o : Order) : Prop :=
  if ⟦settled_paid (Status o)⟧ then
    knows g (FApproved (ID o) (PaymentReference o)) ∧
    (Status o = OrderStatusCompleted → knows g (row_fact o) ∧ knows g (FReserved (ID o) (Items o)))
  else PaymentReference o = "" ∧
       (Status o = OrderStatusFailed → knows g (FDeclined (ID o)) ∨ knows g (FRefused (ID o))).

(** ** The protocol *)

Definition safe_call {R} (g : knowledge) (e : portE R) : Prop :=
  match e with
  | Save _ o => Status o = OrderStatusPending ∧ PaymentReference o = ""
  | SaveIfStatus _ o expected => transition expected (Status o) ∧ justified g o
  | Charge _ req =>
      let id := PaymentRequest.OrderID req in
      PaymentRequest.IdempotencyKey req = id ∧ id ∈ tokens g ∧
      ∃ items, knows g (FRow id (PaymentRequest.CustomerID req) items) ∧
        PaymentRequest.AmountCents req = wrap64 (exact_total items)
  | Reserve _ req =>
      let id := InventoryRequest.OrderID req in
      InventoryRequest.IdempotencyKey req = id ∧
      (∃ ref, knows g (FApproved id ref)) ∧
      ∃ customer, knows g (FRow id customer (InventoryRequest.Items req))
  | _ => True
  end.

(** The knowledge a provider answer gives. *)
Definition learn_result (id : string) (r : PaymentResult.t) (g : knowledge) : knowledge :=
  match result_state r with
  | Some (Approved ref) => learn (FApproved id ref) g
  | Some Declined => learn (FDeclined id) g
  | _ => g
  end.

(** Removes one token. *)
Fixpoint remove_token (id : string) (l : list string) : list string :=
  match l with
  | [] => []
  | x :: l => if ⟦x = id⟧ then l else x :: remove_token id l
  end.
Definition spend (id : string) (g : knowledge) : knowledge :=
  mkKnowledge (remove_token id (tokens g)) (facts g).

Definition safe_answer {R} (g : knowledge) (e : portE R) : R → knowledge → Prop :=
  match e in portE R return R → knowledge → Prop with
  | Save _ o => λ err g',
      match err with
      | None => g' = mkKnowledge (ID o :: tokens g) (row_fact o :: facts g)
      | Some _ => g' = g
      end
  | FindByID _ id => λ ans g',
      match ans with
      | (Some o, None) =>
          ID o = id ∧ events o = [] ∧ Status o ∈ known_statuses ∧
          (¬ settled_paid (Status o) → PaymentReference o = "") ∧
          g' = learn (row_fact o)
                 (if ⟦settled_paid (Status o)⟧ then learn (FApproved (ID o) (PaymentReference o)) g
                  else g)
      | (None, Some _) => g' = g
      | _ => False
      end
  | Charge _ req => λ ans g',
      let id := PaymentRequest.OrderID req in
      match ans with
      | (res, None) => g' = learn_result id res (spend id g)
      | (_, Some err) =>
          if PaymentOutcomeMayHaveCommitted err then g' = spend id g
          else g' = learn (FRefused id) (spend id g)
      end
  | LookupCharge _ key => λ ans g',
      match ans with
      | (res, true, None) => g' = learn_result key res g
      | _ => g' = g
      end
  | Reserve _ req => λ err g',
      match err with
      | None => g' = learn (FReserved (InventoryRequest.OrderID req) (InventoryRequest.Items req)) g
      | Some _ => g' = g
      end
  | _ => λ _ g', g' = g
  end.

Definition safe : protocol portE := Protocol portE knowledge (@safe_call) (@safe_answer).

(** A program that respects the protocol, whatever it returns. *)
Definition respects {A} (p : prog portE A) : Prop :=
  ∀ g, wp safe p (λ _ _, True) g.

(** ** Rules for the calls *)

(** Calls that need no permission and teach nothing. *)
Definition inert {R} (e : portE R) : bool :=
  match e with
  | Save _ _ | SaveIfStatus _ _ _ | FindByID _ _ | Charge _ _ | LookupCharge _ _ | Reserve _ _ => false
  | _ => true
  end.

Lemma wp_inert {R A} (e : portE R) (k : R → prog portE A) Q g :
  inert e = true → (∀ r, wp safe (k r) Q g) → wp safe (trigger e ≫= k) Q g.
Proof.
  intros He Hk. apply wp_trigger.
  - by destruct e.
  - intros r g' Hg. assert (g' = g) as -> by (by destruct e). apply Hk.
Qed.

Lemma wp_inert_vis {R A} (e : portE R) (k : R → prog portE A) Q g :
  inert e = true → (∀ r, wp safe (k r) Q g) → wp safe (Vis e k) Q g.
Proof. intros. by apply (wp_inert e k). Qed.

(** Steps through a program under [safe], leaving the calls that need a
permission or teach something. *)
Ltac safe_step :=
  match goal with
  | |- wp _ (mret _) _ _ => apply wp_ret
  | |- wp _ (Ret _) _ _ => apply wp_ret
  | |- wp safe (mret ?a ≫= ?f) ?Q ?g => change (wp safe (f a) Q g); cbv beta
  | |- wp safe (deref (Some ?a) ≫= ?f) ?Q ?g => change (wp safe (f a) Q g); cbv beta
  | |- wp _ (trigger _ ≫= _) _ _ => apply wp_inert; [reflexivity|intros ?]
  | |- wp _ (Vis _ _) _ _ => apply wp_inert_vis; [reflexivity|intros ?]
  | |- wp _ ((_ ≫= _) ≫= _) _ _ => apply wp_bind
  | |- wp safe (trigger ?e) ?Q ?g => apply (wp_proper safe (trigger e ≫= Ret)); [reflexivity|]
  end.

Lemma wp_observe_since ctx step t (Q : unit → knowledge → Prop) g :
  Q tt g → wp safe (observe_since ctx step t) Q g.
Proof. intros HQ. unfold observe_since. repeat safe_step. by destruct r0. Qed.

Lemma wp_emit_each ctx span es (Q : unit → knowledge → Prop) g :
  Q tt g → wp safe (emit_each ctx span es) Q g.
Proof. intros HQ. induction es as [|e es IH]; cbn [emit_each]; repeat safe_step; done. Qed.

Lemma wp_emitDomainEvents ctx o (Q : Order → knowledge → Prop) g :
  Q (set_events [] o) g → wp safe (emitDomainEvents ctx o) Q g.
Proof.
  intros HQ. unfold emitDomainEvents. safe_step. simpl.
  apply wp_bind. by apply wp_emit_each.
Qed.

Lemma wp_SaveIfStatus {A} ctx o expected (k : bool * option error → prog portE A) Q g :
  transition expected (Status o) → justified g o →
  (∀ r, wp safe (k r) Q g) → wp safe (trigger (SaveIfStatus ctx o expected) ≫= k) Q g.
Proof. intros. apply wp_trigger; [done|]. intros r g' ->. auto. Qed.

(** A failed or conflicting save returns some order and an error. *)
Lemma wp_saveTransition ctx previous next (Q : option Order * option error → knowledge → Prop) g :
  transition (Status previous) (Status next) → justified g next →
  Q (Some (set_events [] next), None) g →
  (∀ o err g', Q (Some o, Some err) g') →
  wp safe (saveTransition ctx previous next) Q g.
Proof.
  intros Ht Hj Hok Herr. unfold saveTransition.
  apply wp_SaveIfStatus; [done..|]. intros [updated [err|]]; [apply Herr|].
  destruct updated; cbn [negb].
  - apply wp_bind. by apply wp_emitDomainEvents.
  - split; [done|]. intros [[o|] [err|]] g' Hg; try done; apply Herr.
Qed.

Lemma wp_Reserve {A} ctx o (k : option error → prog portE A) Q g ref :
  knows g (FApproved (ID o) ref) → knows g (row_fact o) →
  (∀ err, wp safe (k (Some err)) Q g) →
  wp safe (k None) Q (learn (FReserved (ID o) (Items o)) g) →
  wp safe (trigger (Reserve ctx (InventoryRequest.mk (ID o) (Items o) (ID o))) ≫= k) Q g.
Proof.
  intros Ha Hr Hk Hk'. apply wp_trigger.
  - split_and!; simpl; eauto.
  - intros [err|] g' ->; auto.
Qed.

Lemma knows_learn g f f' : knows g f → knows (learn f' g) f.
Proof. unfold knows. simpl. by apply list_elem_of_further. Qed.
Lemma knows_learned g f : knows (learn f g) f.
Proof. apply list_elem_of_here. Qed.
Lemma knows_learn_result g id r f : knows g f → knows (learn_result id r g) f.
Proof. unfold learn_result. go_cases; auto using knows_learn. Qed.
#[export] Hint Resolve knows_learn knows_learned knows_learn_result : ordersvc.

(** ** The usecases respect the protocol *)

(** A Go result: never a nil order together with a nil error. *)
Definition ret_ok (r : option Order * option error) : Prop := is_Some r.1 ∨ is_Some r.2.

(** What is known of an order about to be fulfilled. *)
Definition paid_order (g : knowledge) (o : Order) : Prop :=
  knows g (FApproved (ID o) (PaymentReference o)) ∧ knows g (row_fact o).

(** The order that leaves the payment step for fulfillment. *)
Definition settled (r : (option Order * option error) + Order) (g : knowledge) : Prop :=
  match r with
  | inl r => ret_ok r
  | inr o => Status o = OrderStatusPaid ∧ paid_order g o
  end.

Lemma justified_advance_paid g o t ref :
  knows g (FApproved (ID o) ref) → justified g (advance o (OpMarkPaid t ref)).
Proof. intros. unfold justified. rewrite bool_decide_eq_true_2 by (by left). done. Qed.

Lemma justified_unsettled g o c :
  PaymentReference o = "" → transition (Status o) (op_target c) →
  ¬ settled_paid (op_target c) →
  (op_target c = OrderStatusFailed → knows g (FDeclined (ID o)) ∨ knows g (FRefused (ID o))) →
  justified g (advance o c).
Proof.
  intros Href Ht Hs Hf. unfold justified. simpl. rewrite bool_decide_eq_false_2 by done.
  split; [|done]. destruct c; simpl in *; try done. exfalso. apply Hs. by left.
Qed.

Lemma justified_keeps_reference g o c :
  knows g (FApproved (ID o) (PaymentReference o)) → settled_paid (op_target c) →
  op_reference o c = PaymentReference o →
  (op_target c = OrderStatusCompleted → knows g (row_fact o) ∧ knows g (FReserved (ID o) (Items o))) →
  justified g (advance o c).
Proof. intros Hk Hs Hr Hc. unfold justified. simpl. by rewrite bool_decide_eq_true_2, Hr. Qed.

(** The branch of a transition method that the current status allows. *)
Ltac accept_op o c :=
  let H := fresh "Hop" in
  pose proof (apply_op_accept o c) as H; cbn [apply_op op_target] in H;
  rewrite H by (cbn [Status cloneOrder]; match goal with Hs : Status _ = _ |- _ => rewrite Hs end; constructor);
  clear H.

(** Closes the early returns that follow a save. *)
Ltac early_return :=
  repeat match goal with
  | |- ∀ _, _ => intros
  | |- wp _ (let '_ := ?x in _) _ _ => destruct x; cbv beta iota
  | |- wp _ (match ?x with _ => _ end) _ _ => destruct x; cbv beta iota
  | |- wp _ (if ?x then _ else _) _ _ => destruct x
  | |- wp _ (mret _) _ _ => apply wp_ret
  | |- ret_ok _ => (left; by eexists) || (right; by eexists)
  | |- settled (inl _) _ => (left; by eexists) || (right; by eexists)
  end.

Lemma wp_fulfillOrder ctx o g :
  Status o = OrderStatusPaid → paid_order g o →
  wp safe (fulfillOrder ctx o) (λ r _, ret_ok r) g.
Proof.
  intros Hs [Ha Hr]. unfold fulfillOrder. safe_step.
  eapply wp_Reserve; [done..| |]; [intros err|];
    apply wp_bind, wp_observe_since; cbv beta zeta; safe_step.
  - accept_op (cloneOrder o) (OpMarkFulfillmentPending r0 "inventory_reservation_error").
    apply wp_bind, wp_saveTransition; [by rewrite ?Hs; constructor| |early_return..].
    apply (justified_keeps_reference g (cloneOrder o)); [done| |done..]. by right; left.
  - accept_op (cloneOrder o) (OpComplete r0).
    apply wp_bind, wp_saveTransition; [by rewrite ?Hs; constructor| |early_return..].
    apply (justified_keeps_reference _ (cloneOrder o)); simpl; eauto with ordersvc. by right; right.
Qed.

(** What the answer of [Charge] taught about an order. *)
Definition charge_known (g : knowledge) (id : string) (result : PaymentResult.t)
    (chargeErr : option error) : Prop :=
  match chargeErr with
  | Some err => PaymentOutcomeMayHaveCommitted err = false → knows g (FRefused id)
  | None =>
      match result_state result with
      | Some (Approved ref) => knows g (FApproved id ref)
      | Some Declined => knows g (FDeclined id)
      | _ => True
      end
  end.

Lemma not_settled_failed : ¬ settled_paid OrderStatusFailed.
Proof. by intros [?|[?|?]]. Qed.
Lemma not_settled_unknown : ¬ settled_paid OrderStatusPaymentUnknown.
Proof. by intros [?|[?|?]]. Qed.
Lemma not_settled_pending : ¬ settled_paid OrderStatusPending.
Proof. by intros [?|[?|?]]. Qed.
#[export] Hint Resolve not_settled_failed not_settled_unknown not_settled_pending : ordersvc.

(** A pending order saved as failed or unknown: any ending is an early return. *)
Lemma wp_save_unpaid {A} ctx o c (k : option Order * option error → prog portE A) Q g :
  Status o = OrderStatusPending → PaymentReference o = "" →
  op_target c = OrderStatusPaymentUnknown ∨
    op_target c = OrderStatusFailed ∧ (knows g (FDeclined (ID o)) ∨ knows g (FRefused (ID o))) →
  (∀ o err g', wp safe (k (Some o, err)) Q g') →
  wp safe (saveTransition ctx o (advance (cloneOrder o) c) ≫= k) Q g.
Proof.
  intros Hs Hr Hc Hk. apply wp_bind, wp_saveTransition; [| |by intros|by intros].
  - simpl. rewrite Hs. destruct Hc as [->|[-> _]]; constructor.
  - apply justified_unsettled; simpl; [done|..].
    + rewrite Hs. destruct Hc as [->|[-> _]]; constructor.
    + destruct Hc as [->|[-> _]]; auto with ordersvc.
    + destruct Hc as [->|[_ ?]]; [done|auto].
Qed.

Lemma wp_settlePayment ctx o result chargeErr g :
  Status o = OrderStatusPending → PaymentReference o = "" → knows g (row_fact o) →
  charge_known g (ID o) result chargeErr →
  wp safe (settlePayment ctx o result chargeErr) settled g.
Proof.
  intros Hs Href Hrow Hk. unfold settlePayment. destruct chargeErr as [err|]; cbv zeta.
  { safe_step. destruct (PaymentOutcomeMayHaveCommitted err) eqn:Hc.
    - accept_op (cloneOrder o) (OpMarkPaymentUnknown r "ambiguous_provider_error").
      apply wp_save_unpaid; [done..|by left|early_return].
    - accept_op (cloneOrder o) (OpMarkFailed r "payment_request_rejected").
      apply wp_save_unpaid; [done..|by right; auto|early_return]. }
  simpl in Hk. unfold result_state in Hk.
  destruct (decide (PaymentResult.Status result = "declined")) as [Hd|Hd];
    [rewrite !(bool_decide_eq_true_2 (_ = "declined")) by done|
     rewrite !(bool_decide_eq_false_2 (_ = "declined")) by done;
     case_bool_decide as Ha]; safe_step.
  - rewrite !(bool_decide_eq_true_2 (_ = "declined")) in Hk by done.
    rewrite bool_decide_eq_false_2 in Hk by (by rewrite Hd).
    accept_op (cloneOrder o) (OpMarkFailed r "payment_declined").
    apply wp_save_unpaid; [done..|by right; auto|early_return].
  - accept_op (cloneOrder o) (OpMarkPaid r (PaymentResult.Reference result)).
    apply wp_bind, wp_saveTransition; [simpl; rewrite Hs; constructor| | |early_return].
    + by apply (justified_advance_paid g (cloneOrder o)).
    + safe_step. apply wp_ret. split; [done|]. split; [done|exact Hrow].
  - accept_op (cloneOrder o) (OpMarkPaymentUnknown r "invalid_provider_status").
    apply wp_save_unpaid; [done..|by left|early_return].
Qed.

Lemma charge_knowledge ctx req ans g g' :
  safe_answer g (Charge ctx req) ans g' →
  charge_known g' (PaymentRequest.OrderID req) ans.1 ans.2 ∧ (∀ f, knows g f → knows g' f).
Proof.
  destruct ans as [res [err|]]; simpl.
  - destruct (PaymentOutcomeMayHaveCommitted err); intros ->; split; eauto with ordersvc.
    by intros.
  - intros ->. split; [|intros; apply knows_learn_result; done].
    unfold learn_result. destruct (result_state res) as [[]|]; auto with ordersvc.
Qed.

Lemma wp_processOrder ctx o g :
  Status o = OrderStatusPending → PaymentReference o = "" →
  wp safe (processOrder ctx o) (λ r _, ret_ok r) g.
Proof.
  intros Hs Hr. unfold processOrder. apply wp_trigger; [done|].
  intros [err|] g1 Hg1; [early_return|]. simpl in Hg1. subst g1.
  apply wp_bind, wp_emitDomainEvents. safe_step.
  apply wp_trigger.
  { split_and!; simpl; [done|by left|]. exists (Items o). split; [by left|by rewrite Total_wrap]. }
  intros [result chargeErr] g2 Hg2. apply charge_knowledge in Hg2 as [Hk Hmono].
  apply wp_bind, wp_observe_since.
  eapply wp_bind_mono; [apply wp_settlePayment; try done|].
  - apply Hmono. by left.
  - intros [ret|o'] g3 Hset; [by apply wp_ret|]. destruct Hset. by apply wp_fulfillOrder.
Qed.

Lemma wp_newOrderID (Q : string * option error → knowledge → Prop) g :
  (∀ r, Q r g) → wp safe newOrderID Q g.
Proof. intros HQ. unfold newOrderID. safe_step. destruct r as [buf [err|]]; by apply wp_ret. Qed.

Lemma wp_Execute ctx req g : wp safe (Execute ctx req) (λ r _, ret_ok r) g.
Proof.
  unfold Execute. safe_step. destruct req as [req|].
  - destruct (negb _).
    + apply wp_bind, wp_observe_since. early_return.
    + apply wp_bind, wp_newOrderID. intros [oid [err|]]; cbv beta iota.
      { apply wp_bind, wp_observe_since. early_return. }
      safe_step. destruct (NewOrder _ _ _ _) as [o err] eqn:Hn.
      apply wp_bind, wp_observe_since. destruct err as [err|]; [early_return|].
      destruct o as [o|]; [|by apply NewOrder_None in Hn as (? & ? & _)].
      safe_step. apply NewOrder_inv in Hn as (_ & _ & _ & _ & ->). by apply wp_processOrder.
  - apply wp_bind, wp_observe_since. early_return.
Qed.

(** ** The reconciler respects the protocol *)

Lemma wp_fulfill ctx o g :
  Status o = OrderStatusPaid ∨ Status o = OrderStatusFulfillmentPending → paid_order g o →
  wp safe (fulfill ctx o) (λ _ _, True) g.
Proof.
  intros Hs [Ha Hr]. unfold fulfill. eapply wp_Reserve; [done..|intros err|].
  - case_bool_decide as Hp; [|by apply wp_ret]. cbv zeta. safe_step.
    accept_op o (OpMarkFulfillmentPending r "inventory_reconciliation_error").
    apply wp_SaveIfStatus.
    + simpl. rewrite Hp. constructor.
    + apply justified_keeps_reference; [done| |done..]. by right; left.
    + intros [updated [e|]]; [by apply wp_ret|].
      destruct updated; [apply wp_bind, wp_emitDomainEvents|]; by apply wp_ret.
  - cbv zeta. safe_step.
    assert (transition (Status o) OrderStatusCompleted) as Ht
      by (destruct Hs as [-> | ->]; constructor).
    pose proof (apply_op_accept o (OpComplete r) Ht) as Hop. simpl in Hop. rewrite Hop.
    apply wp_SaveIfStatus; [done| |].
    + apply justified_keeps_reference; simpl; eauto with ordersvc. by right; right.
    + intros [updated [e|]]; [by apply wp_ret|].
      destruct updated; [apply wp_bind, wp_emitDomainEvents|]; by apply wp_ret.
Qed.

(** A charge looked up for an unpaid order gives a justified next state. *)
Lemma wp_applyCharge o result g :
  Status o = OrderStatusPending ∨ Status o = OrderStatusPaymentUnknown →
  PaymentReference o = "" → knows g (row_fact o) →
  charge_known g (ID o) result None →
  wp safe (applyCharge o result)
    (λ r g', g' = g ∧ match r with
       | inl _ => True
       | inr o' => transition (Status o) (Status o') ∧ justified g o' ∧ ID o' = ID o ∧
           (Status o' = OrderStatusFailed ∨ Status o' = OrderStatusPaid ∧ paid_order g o')
       end) g.
Proof.
  intros Hs Href Hrow Hk. unfold applyCharge. simpl in Hk. unfold result_state in Hk.
  assert (transition (Status o) OrderStatusPaid ∧ transition (Status o) OrderStatusFailed)
    as [Htp Htf] by (destruct Hs as [-> | ->]; split; constructor).
  case_bool_decide as Ha.
  - case_bool_decide; [by apply wp_ret|]. safe_step.
    pose proof (apply_op_accept o (OpMarkPaid r (PaymentResult.Reference result)) Htp) as Hop.
    simpl in Hop. rewrite Hop. apply wp_ret.
    split_and!; try done.
    right. split; [done|]. by split.
  - case_bool_decide as Hd; [|by apply wp_ret]. safe_step.
    pose proof (apply_op_accept o (OpMarkFailed r "payment_reconciled_declined") Htf) as Hop.
    simpl in Hop. rewrite Hop. apply wp_ret. split_and!; try done; [|by left].
    apply justified_unsettled; simpl; auto with ordersvc.
Qed.

Lemma unsettled_early o :
  Status o = OrderStatusPending ∨ Status o = OrderStatusPaymentUnknown → ¬ settled_paid (Status o).
Proof. intros [-> | ->]; auto with ordersvc. Qed.

Lemma reconcileOrder_respects ctx id : respects (reconcileOrder ctx id).
Proof.
  intros g. unfold reconcileOrder. apply wp_trigger; [done|].
  intros [[o|] [err|]] g1 Hg1; try done.
  destruct Hg1 as (_ & _ & _ & Href & ->). safe_step.
  case_bool_decide as Hs.
  - pose proof (unsettled_early _ Hs) as Hns. rewrite (bool_decide_eq_false_2 (settled_paid _)) by done.
    apply wp_trigger; [done|].
    intros [[result found] [err|]] g2 Hg2; [by apply wp_ret|].
    destruct found; [|by apply wp_ret]. simpl in Hg2. subst g2. cbn [negb]. cbv zeta.
    eapply wp_bind_mono; [apply wp_applyCharge; auto with ordersvc|].
    { simpl. unfold learn_result. destruct (result_state result) as [[]|]; auto with ordersvc. }
    intros [err|o'] g3 [-> Ho']; [by apply wp_ret|]. destruct Ho' as (Ht & Hj & Hid & Ho').
    apply wp_SaveIfStatus; [done..|]. intros [updated [err|]]; [by apply wp_ret|].
    destruct updated; [|by apply wp_ret]. cbn [negb].
    apply wp_bind, wp_emitDomainEvents. simpl. case_bool_decide; [by apply wp_ret|].
    destruct Ho' as [?|[Hp ?]]; [done|]. apply wp_fulfill; [by left|done].
  - case_bool_decide as Hp; [|by apply wp_ret].
    rewrite (bool_decide_eq_true_2 (settled_paid _)) by (unfold settled_paid; tauto).
    apply wp_fulfill; [done|]. split; auto with ordersvc.
Qed.

Lemma respects_then {A B} (p : prog portE A) (k : A → prog portE B) :
  respects p → (∀ a, respects (k a)) → respects (p ≫= k).
Proof. intros Hp Hk g. eapply wp_bind_mono; [apply Hp|]. intros a g' _. apply Hk. Qed.

Lemma respects_ret {A} (a : A) : respects (Ret a).
Proof. intros g. by apply wp_ret. Qed.

Lemma respects_inert {R} (e : portE R) : inert e = true → respects (trigger e).
Proof. intros He g. apply (wp_proper safe (trigger e ≫= Ret)); [done|]. apply wp_inert; [done|]. by intros; apply wp_ret. Qed.

(** Structural cases of [respects]. *)
Ltac respects_step :=
  match goal with
  | |- respects (_ ≫= _) => apply respects_then; [|intros ?]
  | |- respects (mret _) => apply respects_ret
  | |- respects (Ret _) => apply respects_ret
  | |- respects (trigger _) => apply respects_inert; reflexivity
  | |- respects (let '_ := ?x in _) => destruct x
  | |- respects (match ?x with _ => _ end) => destruct x
  end.
#[export] Hint Resolve reconcileOrder_respects : ordersvc.

Lemma ReconcileOrder_respects ctx id : respects (ReconcileOrder ctx id).
Proof. unfold ReconcileOrder. repeat respects_step; auto with ordersvc. Qed.

Lemma reconcilePage_respects ctx r ids fs : respects (reconcilePage ctx r ids fs).
Proof.
  revert r fs. induction ids as [|id ids IH]; intros r fs; cbn [reconcilePage];
    repeat respects_step; auto using ReconcileOrder_respects.
Qed.

Lemma RunOnce_respects ctx r : respects (RunOnce ctx r).
Proof.
  unfold RunOnce. repeat (respects_step || (case_bool_decide; cbv zeta));
    auto using reconcilePage_respects.
Qed.

Lemma Run_respects ctx r ticks : respects (Run ctx r ticks).
Proof.
  revert r. induction ticks as [|ticks IH]; intros r; cbn [Run];
    repeat respects_step; auto using RunOnce_respects.
Qed.

(** ** The decorators keep the protocol *)

(** What a decorator assumes of the usecase it wraps, and promises in turn. *)
Class SafeUsecase (u : CreateOrderUsecase) : Prop :=
  safe_usecase ctx req g : wp safe (uc_Execute u ctx req) (λ r _, ret_ok r) g.

#[global] Instance Interactor_safe : SafeUsecase Interactor.
Proof. intros ctx req g. apply wp_Execute. Qed.

Lemma wp_traced {A} span (err : A → option error) (body : prog portE A) Q g :
  wp safe body Q g → wp safe (traced span err body) Q g.
Proof.
  intros Hb. unfold traced. eapply wp_bind_mono; [done|]. intros a g' Ha.
  apply wp_bind. destruct (err a); repeat safe_step; by apply Ha.
Qed.

Lemma wp_trigger_once {R} (e : portE R) g :
  safe_call g e → wp safe (trigger e) (safe_answer g e) g.
Proof. intros He. apply (wp_proper safe (trigger e ≫= Ret)); [done|]. by apply wp_trigger. Qed.

#[global] Instance core_safe : SafeUsecase core.
Proof.
  intros ctx req g.
  refine (wp_interp _ _ _ _ TracingOrderRepository _ _ _ _ (wp_Execute ctx req g)).
  intros R e g1 He.
  destruct e; try exact (wp_trigger_once _ _ He); cbn [TracingOrderRepository];
    safe_step; destruct r as [ctx' span]; apply wp_traced.
  - exact (wp_trigger_once (Save ctx' order) g1 He).
  - exact (wp_trigger_once (SaveIfStatus ctx' order expected) g1 He).
  - exact (wp_trigger_once (FindByID ctx' id) g1 He).
Qed.

#[global] Instance MetricsInteractor_safe u `{!SafeUsecase u} : SafeUsecase (MetricsInteractor u).
Proof.
  intros ctx req g. simpl. eapply wp_bind_mono; [apply safe_usecase|].
  intros [[o|] err] g' Hr; cbv zeta; repeat safe_step; [early_return|done].
Qed.

#[global] Instance LoggingInteractor_safe u `{!SafeUsecase u} : SafeUsecase (LoggingInteractor u).
Proof.
  intros ctx req g. simpl. do 2 safe_step.
  eapply wp_bind_mono; [apply safe_usecase|].
  intros [order [err|]] g' Hr; safe_step; cbv zeta; [safe_step; early_return|].
  destruct Hr as [[o Ho]|[? ?]]; [|done]. simpl in Ho. subst order. repeat safe_step. early_return.
Qed.

#[global] Instance TracingInteractor_safe u `{!SafeUsecase u} : SafeUsecase (TracingInteractor u).
Proof. intros ctx req g. simpl. safe_step. destruct r. apply wp_traced, safe_usecase. Qed.

(** The stack main.go serves. *)
Lemma createOrder_safe : SafeUsecase createOrder.
Proof. apply _. Qed.

Lemma safe_usecase_respects u ctx req : SafeUsecase u → respects (uc_Execute u ctx req).
Proof. intros Hu g. by eapply wp_mono; [apply Hu|]. Qed.
