(* ===== verification/System.v ===== *)
(** * The running system

Any number of create-order requests and recovery workers, interleaved call by
call over one order store and one payment provider, with failures that may or
may not have taken effect, crashes between any two calls, and charges that
settle late.  The invariant of the system gives the payment-safety theorems. *)

From S2P Require Import Prelude GoValues Prog Domain Ports CreateOrder Reconciler Decorators Provider Store Safety.

(** What a thread ends with: the order and the error a request gets from the usecase. *)
Abbreviation thread_result := (option (option Order * option error)).

Section system.
Context {P : Type} `{!PaymentProvider P}.
(** The rounding of timestamps by the database. *)
Context (timestamptz : Time → Time).

(** ** States and steps *)

(** The durable orders, the provider, the logs of the requests that were sent to the
Payment and Inventory services, and the reservations that succeeded. *)
Record world := mkWorld {
  db : gmap string Order;
  prov : P;
  charges : list PaymentRequest.t;
  reservations : list InventoryRequest.t;
  confirmed : list InventoryRequest.t }.

Definition with_db (m : gmap string Order) (w : world) : world :=
  mkWorld m (prov w) (charges w) (reservations w) (confirmed w).
Definition with_prov (p : P) (w : world) : world :=
  mkWorld (db w) p (charges w) (reservations w) (confirmed w).
Definition with_charge (p : P) (req : PaymentRequest.t) (w : world) : world :=
  mkWorld (db w) p (charges w ++ [req]) (reservations w) (confirmed w).
Definition with_reservation (req : InventoryRequest.t) (err : option error) (w : world) : world :=
  mkWorld (db w) (prov w) (charges w) (reservations w ++ [req])
    (confirmed w ++ match err with None => [req] | Some _ => [] end).

(** One call against the world. *)
Definition port_step (w : world) {R} (e : portE R) : R → world → Prop :=
  match e in portE R return R → world → Prop with
  | Save _ o => λ ans w', ∃ m, save_spec timestamptz (db w) o ans m ∧ w' = with_db m w
  | SaveIfStatus _ o expected => λ ans w',
      ∃ m, cas_spec (db w) o expected ans m ∧ w' = with_db m w
  | FindByID _ id => λ ans w', find_spec (db w) id ans ∧ w' = w
  | Charge _ req => λ ans w', ∃ p, charge (prov w) req ans p ∧ w' = with_charge p req w
  | LookupCharge _ key => λ ans w', ∃ p, lookup_charge (prov w) key ans p ∧ w' = with_prov p w
  | Reserve _ req => λ err w', w' = with_reservation req err w
  | _ => λ _ w', w' = w
  end.

Record sys := Sys {
  wld : world;
  threads : list (prog portE thread_result) }.

(** What runs: HTTP requests through the decorated usecase, the periodic worker
and operator-driven retries. *)
Inductive spawnable : prog portE thread_result → Prop :=
| request ctx req : spawnable (reply ← uc_Execute createOrder ctx req; mret (Some reply))
| worker ctx r ticks : spawnable (_ ← Run ctx r ticks; mret None)
| operator ctx id : spawnable (_ ← ReconcileOrder ctx id; mret None).

Inductive sys_step : sys → sys → Prop :=
| step_call i R (e : portE R) k r w w' ts :
    ts !! i = Some (Vis e k) → port_step w e r w' →
    sys_step (Sys w ts) (Sys w' (<[i := k r]> ts))
| step_spawn p w ts : spawnable p → sys_step (Sys w ts) (Sys w (ts ++ [p]))
| step_crash i w ts : sys_step (Sys w ts) (Sys w (<[i := Ret None]> ts))
| step_settle w p ts : settle (prov w) p → sys_step (Sys w ts) (Sys (with_prov p w) ts).

(** A system that has not served anything yet. *)
Definition initial (s : sys) : Prop :=
  db (wld s) = ∅ ∧ charges (wld s) = [] ∧ reservations (wld s) = [] ∧ confirmed (wld s) = [] ∧
  threads s = [] ∧
  ∀ k, ledger (prov (wld s)) k = Untouched.

Definition reachable (s : sys) : Prop := ∃ s0, initial s0 ∧ rtc sys_step s0 s.

(** ** The invariant *)

Definition charged (w : world) : list string := map PaymentRequest.IdempotencyKey (charges w).

Definition holds (w : world) (f : fact) : Prop :=
  match f with
  | FRow id customer items =>
      ∃ row, db w !! id = Some row ∧ CustomerID row = customer ∧ Items row = items
  | FApproved id ref => ledger (prov w) id = Approved ref
  | FDeclined id => ledger (prov w) id = Declined
  | FRefused id => ledger (prov w) id = Untouched ∧ id ∈ charged w
  | FReserved id items => InventoryRequest.mk id items id ∈ confirmed w
  end.

(** The payment columns of a row agree with the ledger, its status with the
reservations. *)
Record row_ok (w : world) (id : string) (row : Order) : Prop := {
  row_id : ID row = id;
  row_events : events row = [];
  row_status : Status row ∈ known_statuses;
  row_paid : settled_paid (Status row) → ledger (prov w) id = Approved (PaymentReference row);
  row_unpaid : ¬ settled_paid (Status row) → PaymentReference row = "";
  row_failed : Status row = OrderStatusFailed →
    ledger (prov w) id = Declined ∨ ledger (prov w) id = Untouched ∧ id ∈ charged w;
  row_completed : Status row = OrderStatusCompleted →
    InventoryRequest.mk id (Items row) id ∈ confirmed w }.

Definition charge_matches (w : world) (req : PaymentRequest.t) : Prop :=
  PaymentRequest.IdempotencyKey req = PaymentRequest.OrderID req ∧
  ∃ row, db w !! PaymentRequest.OrderID req = Some row ∧
    PaymentRequest.CustomerID req = CustomerID row ∧ PaymentRequest.AmountCents req = Total row.

Definition reserve_matches (w : world) (req : InventoryRequest.t) : Prop :=
  InventoryRequest.IdempotencyKey req = InventoryRequest.OrderID req ∧
  (∃ ref, ledger (prov w) (InventoryRequest.OrderID req) = Approved ref) ∧
  ∃ row, db w !! InventoryRequest.OrderID req = Some row ∧ InventoryRequest.Items req = Items row.

(** [toks]: the rights to charge that the threads hold. *)
Record world_ok (w : world) (toks : list string) : Prop := {
  tokens_once : NoDup (toks ++ charged w);
  tokens_rows : ∀ k, k ∈ toks ++ charged w → is_Some (db w !! k);
  uncharged : ∀ k, k ∉ charged w → ledger (prov w) k = Untouched;
  rows_ok : ∀ id row, db w !! id = Some row → row_ok w id row;
  charges_ok : ∀ req, req ∈ charges w → charge_matches w req;
  reservations_ok : ∀ req, req ∈ reservations w → reserve_matches w req;
  confirmed_ok : ∀ req, req ∈ confirmed w → req ∈ reservations w }.

Definition thread_ok (w : world) (p : prog portE thread_result) (g : knowledge) : Prop :=
  Forall (holds w) (facts g) ∧ wp safe p (λ _ _, True) g.

Definition sys_ok (s : sys) : Prop :=
  ∃ gs, world_ok (wld s) (concat (tokens <$> gs)) ∧ Forall2 (thread_ok (wld s)) (threads s) gs.

(** How a row may change: its status along the lifecycle, nothing else but the
payment reference. *)
Definition row_le (row row' : Order) : Prop :=
  ID row' = ID row ∧ CustomerID row' = CustomerID row ∧ Items row' = Items row ∧
  CreatedAt row' = CreatedAt row ∧ rtc transition (Status row) (Status row') ∧
  (Status row' = Status row → PaymentReference row' = PaymentReference row).

Definition db_le (m m' : gmap string Order) : Prop :=
  ∀ id row, m !! id = Some row → ∃ row', m' !! id = Some row' ∧ row_le row row'.

(** ** Growing worlds *)

#[global] Instance row_le_preorder : PreOrder row_le.
Proof.
  split.
  - intros row. repeat split; done.
  - intros r1 r2 r3 (H1 & H2 & H3 & H4 & H5 & H6) (K1 & K2 & K3 & K4 & K5 & K6).
    repeat split; try congruence; [by etrans|].
    intros Heq. assert (Status r2 = Status r1) as Heq2.
    { apply rtc_transition_antisym; [done|by rewrite <-Heq]. }
    rewrite K6, H6 by congruence. done.
Qed.

#[global] Instance db_le_preorder : PreOrder db_le.
Proof.
  split.
  - intros m id row Hm. by exists row.
  - intros m1 m2 m3 H12 H23 id row Hm.
    destruct (H12 _ _ Hm) as (row2 & Hm2 & Hle). destruct (H23 _ _ Hm2) as (row3 & Hm3 & Hle').
    exists row3. split; [done|by etrans].
Qed.

(** The services moved on: settled charges stay, the rejected ones too, and what was
reserved stays reserved. *)
Record prov_le (w w' : world) : Prop := {
  prov_db : db w' = db w;
  prov_final : ∀ k, final (ledger (prov w) k) → ledger (prov w') k = ledger (prov w) k;
  prov_refused : ∀ k, k ∈ charged w → ledger (prov w) k = Untouched → ledger (prov w') k = Untouched;
  prov_charged : ∀ k, k ∈ charged w → k ∈ charged w';
  prov_confirmed : ∀ req, req ∈ confirmed w → req ∈ confirmed w' }.

Lemma prov_le_holds w w' f : prov_le w w' → holds w f → holds w' f.
Proof.
  intros [Hdb Hf Hr Hc Hi]. destruct f as [id c its|id ref|id|id|id its]; simpl; rewrite ?Hdb; [done|..].
  - intros H. by rewrite Hf; rewrite H.
  - intros H. by rewrite Hf; rewrite H.
  - intros [H ?]. auto.
  - apply Hi.
Qed.

Lemma prov_le_row w w' id row : prov_le w w' → row_ok w id row → row_ok w' id row.
Proof.
  intros Hle [Hid He Hs Hp Hu Hf Hi]. split; try done.
  - intros H. by apply (prov_le_holds w w' (FApproved id (PaymentReference row)) Hle), Hp.
  - intros H. destruct (Hf H).
    + left. by apply (prov_le_holds w w' (FDeclined id) Hle).
    + right. by apply (prov_le_holds w w' (FRefused id) Hle).
  - intros H. by apply (prov_confirmed _ _ Hle), Hi.
Qed.

Lemma prov_le_reserve w w' req : prov_le w w' → reserve_matches w req → reserve_matches w' req.
Proof.
  intros Hle (Hk & [ref Hr] & Hrow). split; [done|]. split.
  - exists ref. by apply (prov_le_holds w w' (FApproved (InventoryRequest.OrderID req) ref) Hle).
  - by rewrite (prov_db _ _ Hle).
Qed.

Lemma prov_le_charge w w' req : prov_le w w' → charge_matches w req → charge_matches w' req.
Proof. intros Hle. unfold charge_matches. by rewrite (prov_db _ _ Hle). Qed.

(** The store moved on. *)
Lemma with_db_holds w m f : db_le (db w) m → holds w f → holds (with_db m w) f.
Proof.
  intros Hle. destruct f as [id c its|id ref|id|id|id its]; simpl; [|done..].
  intros (row & Hrow & Hc & Hi). destruct (Hle _ _ Hrow) as (row' & Hrow' & Hr).
  exists row'. destruct Hr as (? & ? & ? & _). split_and!; congruence.
Qed.

Lemma with_db_charge w m req : db_le (db w) m → charge_matches w req → charge_matches (with_db m w) req.
Proof.
  intros Hle (Hk & row & Hrow & Hc & Ha). split; [done|].
  destruct (Hle _ _ Hrow) as (row' & Hrow' & (_ & Hcu & Hit & _)).
  exists row'. split; [done|]. rewrite Hcu, Ha. unfold Total. by rewrite Hit.
Qed.

Lemma with_db_reserve w m req : db_le (db w) m → reserve_matches w req → reserve_matches (with_db m w) req.
Proof.
  intros Hle (Hk & Hr & row & Hrow & Hi). split; [done|]. split; [done|].
  destruct (Hle _ _ Hrow) as (row' & Hrow' & (_ & _ & Hit & _)).
  exists row'. split; [done|congruence].
Qed.

Lemma with_db_ok w m toks :
  world_ok w toks → db_le (db w) m → (∀ id row, m !! id = Some row → row_ok w id row) →
  world_ok (with_db m w) toks.
Proof.
  intros [Ht Hr Hu _ Hc Hv Hi] Hle Hrow. split; simpl; try done.
  - intros k Hk. destruct (Hr k Hk) as [row Hk']. destruct (Hle _ _ Hk') as (row' & -> & _). by eexists.
  - intros id row H. by destruct (Hrow _ _ H).
  - intros req H. by apply with_db_charge, Hc.
  - intros req H. by apply with_db_reserve, Hv.
Qed.

Lemma insert_db_le m id o : m !! id = None → db_le m (<[id := o]> m).
Proof.
  intros Hn id' row Hrow. exists row. split; [|done].
  rewrite lookup_insert_ne; [done|congruence].
Qed.

(** ** Each call keeps the invariant *)

(** What a call must establish for the thread that makes it, next to threads
that hold [rest]. *)
Definition keeps (w w' : world) (g' : knowledge) (rest : list string) : Prop :=
  world_ok w' (tokens g' ++ rest) ∧ Forall (holds w') (facts g') ∧
  (∀ f, holds w f → holds w' f) ∧ db_le (db w) (db w').

Lemma keeps_same w g rest :
  world_ok w (tokens g ++ rest) → Forall (holds w) (facts g) → keeps w w g rest.
Proof. intros. unfold keeps. by split_and!. Qed.

Lemma keeps_db w m g rest :
  world_ok w (tokens g ++ rest) → Forall (holds w) (facts g) → db_le (db w) m →
  (∀ id row, m !! id = Some row → row_ok w id row) → keeps w (with_db m w) g rest.
Proof.
  intros Hw Hg Hle Hrow. unfold keeps. split_and!; [by apply with_db_ok| | |done].
  - eapply Forall_impl; [done|]. intros f. by apply with_db_holds.
  - intros f. by apply with_db_holds.
Qed.

Lemma keeps_learn w w' g f rest : keeps w w' g rest → holds w' f → keeps w w' (learn f g) rest.
Proof. intros (H1 & H2 & H3 & H4) Hf. split_and!; try done. by constructor. Qed.

Lemma insert_row_ok w o toks :
  world_ok w toks → Status o = OrderStatusPending → PaymentReference o = "" →
  ∀ id row, <[ID o := durable timestamptz o]> (db w) !! id = Some row → row_ok w id row.
Proof.
  intros Hw Hs Hr id row. rewrite lookup_insert. case_decide as Hid.
  - intros [= <-]. subst id. split; simpl; rewrite ?Hs; try done.
    + by apply (bool_decide_unpack _).
    + by intros [?|[?|?]].
  - apply (rows_ok _ _ Hw).
Qed.

Lemma Save_keeps w ctx o r w' g rest :
  world_ok w (tokens g ++ rest) → Forall (holds w) (facts g) →
  safe_call g (Save ctx o) → port_step w (Save ctx o) r w' →
  ∃ g', safe_answer g (Save ctx o) r g' ∧ keeps w w' g' rest.
Proof.
  intros Hw Hg [Hs Href] (m & Hm & ->).
  assert (∀ m, store_insert timestamptz (db w) o = Some m →
    db w !! ID o = None ∧ m = <[ID o := durable timestamptz o]> (db w) ∧
    keeps w (with_db m w) g rest) as Hins.
  { intros m' [Hn ->]%store_insert_Some. split_and!; try done.
    apply keeps_db; [done..|by apply insert_db_le|by eapply insert_row_ok]. }
  destruct r as [err|]; simpl in Hm |- *.
  - exists g. split; [done|]. destruct Hm as [->|Hm].
    + destruct w. by apply keeps_same.
    + by apply Hins.
  - destruct (Hins _ Hm) as (Hn & -> & Hk). eexists. split; [done|].
    apply (keeps_learn _ _ (mkKnowledge (ID o :: tokens g) (facts g))).
    2:{ simpl. rewrite lookup_insert_eq. by eexists. }
    destruct Hk as ([Ht Hr Hu Hrow Hc Hv Hi] & Hk). split; [|done]. split; try done.
    + apply NoDup_cons_2; [|done]. intros Hin.
      destruct (tokens_rows _ _ Hw _ Hin) as [row Hrow']. congruence.
    + intros k [->|Hk']%elem_of_cons; [simpl; rewrite lookup_insert_eq; by eexists|by apply Hr].
Qed.

Lemma cas_db_le m o expected m' :
  transition expected (Status o) → store_cas m o expected = Some m' → db_le m m'.
Proof.
  intros Ht (row & Hrow & Hs & ->)%store_cas_Some id r Hr. rewrite lookup_insert.
  case_decide as Hid; [|by exists r].
  subst id. assert (r = row) as -> by congruence. eexists. split; [done|].
  repeat split; simpl; [by apply rtc_once; rewrite Hs|].
  intros Heq. rewrite Heq, Hs in Ht. by apply transition_irrefl in Ht.
Qed.

Lemma justified_row w g o row :
  Forall (holds w) (facts g) → justified g o → transition (Status row) (Status o) →
  db w !! ID o = Some row → row_ok w (ID o) row → row_ok w (ID o) (write_status o row).
Proof.
  rewrite Forall_forall. intros Hg Hj Ht Hrow [Hid He _ _ _ _ _]. unfold justified in Hj.
  apply transition_known in Ht as [_ Hk]. case_bool_decide as Hp.
  - destruct Hj as [Hj Hc]. split; simpl; try done.
    + intros _. apply (Hg _ Hj).
    + intros Hf. rewrite Hf in Hp. by apply not_settled_failed in Hp.
    + intros Hcomp. destruct (Hc Hcomp) as [(row' & Hrow' & _ & Hits)%Hg Hres%Hg].
      simpl in Hres. replace (Items row) with (Items o) by congruence. exact Hres.
  - destruct Hj as [Hr Hf]. split; simpl; try done.
    + intros Hfail. destruct (Hf Hfail) as [H|H]; apply Hg in H; auto.
    + intros Hc. destruct Hp. rewrite Hc. by right; right.
Qed.

Lemma cas_keeps w g o expected m rest :
  world_ok w (tokens g ++ rest) → Forall (holds w) (facts g) →
  transition expected (Status o) → justified g o →
  store_cas (db w) o expected = Some m → keeps w (with_db m w) g rest.
Proof.
  intros Hw Hg Ht Hj Hm. apply keeps_db; [done..|by eapply cas_db_le|].
  apply store_cas_Some in Hm as (row & Hrow & <- & ->). intros id r.
  rewrite lookup_insert. case_decide; [|apply (rows_ok _ _ Hw)].
  intros [= <-]. subst id. eapply justified_row; [done..|]. by apply (rows_ok _ _ Hw).
Qed.

Lemma SaveIfStatus_keeps w ctx o expected r w' g rest :
  world_ok w (tokens g ++ rest) → Forall (holds w) (facts g) →
  safe_call g (SaveIfStatus ctx o expected) → port_step w (SaveIfStatus ctx o expected) r w' →
  ∃ g', safe_answer g (SaveIfStatus ctx o expected) r g' ∧ keeps w w' g' rest.
Proof.
  intros Hw Hg [Ht Hj] (m & Hm & ->). exists g. split; [done|].
  assert (m = db w ∨ store_cas (db w) o expected = Some m) as [->|Hcas]
    by (destruct r as [[] []]; naive_solver).
  - destruct w. by apply keeps_same.
  - by eapply cas_keeps.
Qed.

Lemma FindByID_keeps w ctx id r w' g rest :
  world_ok w (tokens g ++ rest) → Forall (holds w) (facts g) →
  port_step w (FindByID ctx id) r w' →
  ∃ g', safe_answer g (FindByID ctx id) r g' ∧ keeps w w' g' rest.
Proof.
  intros Hw Hg [Hf ->]. destruct r as [[o|] [err|]]; simpl in Hf; try done.
  - destruct (rows_ok _ _ Hw _ _ Hf) as [Hid He Hs Hp Hu _ _].
    eexists. split; [by split_and!|]. apply keeps_learn; [|simpl; rewrite Hid; by exists o].
    case_bool_decide as Hset; [|by apply keeps_same].
    apply keeps_learn; [by apply keeps_same|]. simpl. rewrite Hid. by apply Hp.
  - exists g. split; [done|by apply keeps_same].
Qed.

Lemma prov_le_facts w w' fs : prov_le w w' → Forall (holds w) fs → Forall (holds w') fs.
Proof. intros Hle Hf. eapply Forall_impl; [done|]. intros f. by apply prov_le_holds. Qed.

Lemma db_le_refl_eq m m' : m' = m → db_le m m'.
Proof. by intros ->. Qed.

(** Steps of the provider that send no charge. *)
Lemma with_prov_ok w p toks :
  world_ok w toks → prov_le w (with_prov p w) →
  (∀ k, ledger (prov w) k = Untouched → ledger p k = Untouched) → world_ok (with_prov p w) toks.
Proof.
  intros [Ht Hr Hu Hrow Hc Hv Hi] Hle Hun. split; simpl; try done.
  - intros k Hk. by apply Hun, Hu.
  - intros id row H. by eapply prov_le_row, Hrow.
  - intros req H. by eapply prov_le_reserve, Hv.
Qed.

Lemma lookup_prov_le w p key ans :
  lookup_charge (prov w) key ans p → prov_le w (with_prov p w) ∧
  (∀ k, ledger p k = ledger (prov w) k).
Proof.
  intros [Hf _]%lookup_ok. split; [|done]. split; simpl; intros; rewrite ?Hf; done.
Qed.

Lemma LookupCharge_keeps w ctx key r w' g rest :
  world_ok w (tokens g ++ rest) → Forall (holds w) (facts g) →
  port_step w (LookupCharge ctx key) r w' →
  ∃ g', safe_answer g (LookupCharge ctx key) r g' ∧ keeps w w' g' rest.
Proof.
  intros Hw Hg (p & Hp & ->). destruct (lookup_prov_le _ _ _ _ Hp) as [Hle Heq].
  apply lookup_ok in Hp as [_ Hans].
  assert (keeps w (with_prov p w) g rest) as Hk.
  { unfold keeps. split_and!; [|by eapply prov_le_facts| |done].
    - apply with_prov_ok; [done..|]. intros k. by rewrite Heq.
    - intros f. by apply prov_le_holds. }
  destruct r as [[res found] [err|]]; [destruct found; by exists g|].
  destruct found; [|by exists g].
  eexists. split; [done|]. unfold learn_result.
  destruct (result_state res) as [c|] eqn:Hc; [|done].
  specialize (Hans c eq_refl eq_refl Hc).
  destruct c; try done; (apply keeps_learn; [done|]; simpl; by rewrite Heq).
Qed.

Lemma remove_token_Permutation id l : id ∈ l → l ≡ₚ id :: remove_token id l.
Proof.
  induction l as [|x l IH]; [by intros ?%elem_of_nil|]. simpl.
  case_bool_decide as Hx; [by subst|].
  intros [->|Hin]%elem_of_cons; [done|]. rewrite (IH Hin) at 1. constructor.
Qed.

Lemma charged_with_charge p req w :
  charged (with_charge p req w) = charged w ++ [PaymentRequest.IdempotencyKey req].
Proof. unfold charged. simpl. by rewrite map_app. Qed.

Lemma charge_prov_le w req ans p :
  charge (prov w) req ans p → PaymentRequest.IdempotencyKey req ∉ charged w →
  prov_le w (with_charge p req w).
Proof.
  intros [Hfr Hfin _ _]%charge_ok Hk. split; simpl; [done..| | |done].
  - intros k Hin Hun. rewrite Hfr; [done|]. by intros ->.
  - intros k Hin. rewrite charged_with_charge, elem_of_app. by left.
Qed.

Lemma with_charge_ok w ctx req ans p g rest :
  world_ok w (tokens g ++ rest) → Forall (holds w) (facts g) → safe_call g (Charge ctx req) →
  charge (prov w) req ans p → prov_le w (with_charge p req w) →
  world_ok (with_charge p req w) (remove_token (PaymentRequest.OrderID req) (tokens g) ++ rest).
Proof.
  intros [Ht Hr Hu Hrow Hc Hv Hi] Hg (Hkey & Htok & its & Hknow & Hamt) Hp Hle.
  assert (tokens g ++ rest ++ charged w ≡ₚ
    (remove_token (PaymentRequest.OrderID req) (tokens g) ++ rest) ++ charged (with_charge p req w))
    as Hperm.
  { rewrite charged_with_charge, Hkey.
    rewrite (remove_token_Permutation _ _ Htok) at 1. simpl. solve_Permutation. }
  apply charge_ok in Hp as [Hfr _ _ _].
  split.
  - by rewrite <-Hperm, app_assoc.
  - intros k. rewrite <-Hperm, app_assoc. apply Hr.
  - intros k. rewrite charged_with_charge, not_elem_of_app, not_elem_of_cons. simpl.
    intros (Hk & Hne & _). rewrite Hfr by done. by apply Hu.
  - intros id row H. by eapply prov_le_row, Hrow.
  - intros req' [H|H%list_elem_of_singleton]%elem_of_app; [by eapply prov_le_charge, Hc|].
    subst req'. split; [done|].
    rewrite Forall_forall in Hg. destruct (Hg _ Hknow) as (row & Hrow' & Hcu & Hit).
    exists row. split; [done|]. split; [done|]. by rewrite Hamt, Total_wrap, Hit.
  - intros req' H. by eapply prov_le_reserve, Hv.
  - done.
Qed.

Lemma Charge_keeps w ctx req r w' g rest :
  world_ok w (tokens g ++ rest) → Forall (holds w) (facts g) →
  safe_call g (Charge ctx req) → port_step w (Charge ctx req) r w' →
  ∃ g', safe_answer g (Charge ctx req) r g' ∧ keeps w w' g' rest.
Proof.
  intros Hw Hg Hcall (p & Hp & ->).
  pose proof Hcall as (Hkey & Htok & _).
  assert (PaymentRequest.OrderID req ∉ charged w) as Hfresh.
  { intros Hin. pose proof (tokens_once _ _ Hw) as Hnd.
    rewrite (remove_token_Permutation _ _ Htok) in Hnd. simpl in Hnd.
    apply NoDup_cons in Hnd as [Hnot _]. apply Hnot. rewrite !elem_of_app. by right. }
  assert (prov_le w (with_charge p req w)) as Hle
    by (eapply charge_prov_le; [done|by rewrite Hkey]).
  assert (keeps w (with_charge p req w) (spend (PaymentRequest.OrderID req) g) rest) as Hk.
  { unfold keeps. split_and!; [by eapply with_charge_ok|by eapply prov_le_facts| |done].
    intros f. by apply prov_le_holds. }
  pose proof (uncharged _ _ Hw _ Hfresh) as Hun.
  apply charge_ok in Hp as [_ _ Hans Hrej]. rewrite Hkey in Hans, Hrej.
  destruct r as [res [err|]]; simpl.
  - destruct (PaymentOutcomeMayHaveCommitted err) eqn:Hc; [by eexists|].
    eexists. split; [done|]. apply keeps_learn; [done|].
    split; [simpl; by rewrite (Hrej err)|].
    rewrite charged_with_charge, elem_of_app, list_elem_of_singleton. by right.
  - eexists. split; [done|]. unfold learn_result.
    destruct (result_state res) as [c|] eqn:Hc; [|done].
    specialize (Hans c eq_refl Hc). destruct c; try done; by apply keeps_learn.
Qed.

Lemma Reserve_keeps w ctx req r w' g rest :
  world_ok w (tokens g ++ rest) → Forall (holds w) (facts g) →
  safe_call g (Reserve ctx req) → port_step w (Reserve ctx req) r w' →
  ∃ g', safe_answer g (Reserve ctx req) r g' ∧ keeps w w' g' rest.
Proof.
  intros Hw Hg (Hkey & (ref & Hap) & cu & Hrow) ->.
  assert (prov_le w (with_reservation req r w)) as Hle.
  { split; try done. intros req' Hin. simpl. apply elem_of_app. by left. }
  assert (keeps w (with_reservation req r w) g rest) as Hk.
  2: { destruct r as [err|]; [by exists g|]. eexists. split; [done|]. apply keeps_learn; [done|]. simpl.
       apply elem_of_app, or_intror, list_elem_of_singleton. destruct req; simpl in *. by subst. }
  unfold keeps. split_and!; [|by eapply prov_le_facts| |done].
  - destruct Hw as [Ht Hr Hu Hrows Hc Hv Hi]. split; try done.
    + intros id row H. by eapply prov_le_row, Hrows.
    + intros r' [H|H%list_elem_of_singleton]%elem_of_app; [by eapply prov_le_reserve, Hv|].
      subst r'. rewrite Forall_forall in Hg. split; [done|]. split.
      * exists ref. apply (Hg _ Hap).
      * destruct (Hg _ Hrow) as (row & ? & _ & ?). by exists row.
    + intros r' [H|H]%elem_of_app; apply elem_of_app; [left; by apply Hi|]. right.
      destruct r; [by apply elem_of_nil in H|done].
  - intros f. by apply prov_le_holds.
Qed.

Lemma port_step_keeps w R (e : portE R) r w' g rest :
  world_ok w (tokens g ++ rest) → Forall (holds w) (facts g) →
  safe_call g e → port_step w e r w' →
  ∃ g', safe_answer g e r g' ∧ keeps w w' g' rest.
Proof.
  intros Hw Hg Hc Hs. destruct (inert e) eqn:He.
  - exists g. assert (w' = w) as -> by (by destruct e). split; [by destruct e|by apply keeps_same].
  - destruct e; try done; eauto using Save_keeps, SaveIfStatus_keeps, FindByID_keeps,
      Charge_keeps, LookupCharge_keeps, Reserve_keeps.
Qed.

(** ** The system keeps the invariant *)

Lemma concat_split {A} (l : list (list A)) i x :
  l !! i = Some x → concat l ≡ₚ x ++ concat (delete i l).
Proof. intros H. rewrite (delete_Permutation l i x H) at 1. done. Qed.

Lemma delete_insert_list {A} (l : list A) i y : delete i (<[i := y]> l) = delete i l.
Proof. revert i. induction l as [|x l IH]; intros [|i]; simpl; [done..|]. f_equal. apply IH. Qed.

Lemma concat_replace {A} (l : list (list A)) i x y :
  l !! i = Some x → concat (<[i := y]> l) ≡ₚ y ++ concat (delete i l).
Proof.
  intros H. rewrite (concat_split _ i y).
  - by rewrite delete_insert_list.
  - apply list_lookup_insert_eq. by eapply lookup_lt_Some.
Qed.

#[global] Instance world_ok_Permutation w : Proper ((≡ₚ) ==> iff) (world_ok w).
Proof.
  intros l1 l2 Hl. split; intros [H1 H2 H3 H4 H5 H6 H7]; split; try done.
  - by rewrite <-Hl.
  - intros k. rewrite <-Hl. apply H2.
  - by rewrite Hl.
  - intros k. rewrite Hl. apply H2.
Qed.

Lemma thread_ok_mono w w' p g :
  (∀ f, holds w f → holds w' f) → thread_ok w p g → thread_ok w' p g.
Proof. intros Hm [Hf Hp]. split; [|done]. by eapply Forall_impl. Qed.

Lemma threads_ok_mono w w' ts gs :
  (∀ f, holds w f → holds w' f) → Forall2 (thread_ok w) ts gs → Forall2 (thread_ok w') ts gs.
Proof. intros Hm Hf. eapply Forall2_impl; [done|]. intros p g. by apply thread_ok_mono. Qed.

Lemma spawnable_respects p : spawnable p → respects p.
Proof.
  destruct 1; apply respects_then; try (intros ?; apply respects_ret).
  - apply safe_usecase_respects, createOrder_safe.
  - apply Run_respects.
  - apply ReconcileOrder_respects.
Qed.

Lemma settle_prov_le w p : settle (prov w) p →
  prov_le w (with_prov p w) ∧ ∀ k, ledger (prov w) k = Untouched → ledger p k = Untouched.
Proof. intros [Hu Hf]%settle_ok. split; [|done]. split; simpl; auto. Qed.

Lemma call_keeps_sys i R (e : portE R) k r w w' ts gs :
  world_ok w (concat (tokens <$> gs)) → Forall2 (thread_ok w) ts gs →
  ts !! i = Some (Vis e k) → port_step w e r w' →
  sys_ok (Sys w' (<[i := k r]> ts)) ∧ db_le (db w) (db w').
Proof.
  intros Hw Hts Hi Hs. destruct (Forall2_lookup_l _ _ _ _ _ Hts Hi) as (g & Hg & Hf & Hc & Hk).
  assert ((tokens <$> gs) !! i = Some (tokens g)) as Htok by (by rewrite list_lookup_fmap, Hg).
  rewrite (concat_split _ _ _ Htok) in Hw.
  destruct (port_step_keeps _ _ _ _ _ _ _ Hw Hf Hc Hs) as (g' & Ha & Hw' & Hf' & Hm & Hdb).
  split; [|done]. exists (<[i := g']> gs). simpl. split.
  - by rewrite list_fmap_insert, (concat_replace _ _ _ _ Htok).
  - apply Forall2_insert; [by eapply threads_ok_mono|]. split; [done|]. by apply Hk.
Qed.

Lemma sys_step_keeps s s' :
  sys_ok s → sys_step s s' → sys_ok s' ∧ db_le (db (wld s)) (db (wld s')).
Proof.
  intros (gs & Hw & Hts) Hst.
  destruct Hst as [i R e k r w w' ts Hi Hs|p w ts Hp|i w ts|w p ts Hp]; simpl in *.
  - by eapply call_keeps_sys.
  - split; [|done]. exists (gs ++ [no_knowledge]). simpl. split.
    + by rewrite fmap_app, concat_app, app_nil_r.
    + apply Forall2_app; [done|]. constructor; [|done]. split; [done|].
      by apply spawnable_respects.
  - split; [|done]. exists gs. split; [done|]. simpl.
    destruct (ts !! i) as [p|] eqn:Hi; [|by rewrite list_insert_ge by (by apply lookup_ge_None)].
    destruct (Forall2_lookup_l _ _ _ _ _ Hts Hi) as (g & Hg & Hf & _).
    rewrite <-(list_insert_id gs i g) by done. by apply Forall2_insert.
  - destruct (settle_prov_le _ _ Hp) as [Hle Hun]. split; [|done]. exists gs. simpl. split.
    + by apply with_prov_ok.
    + eapply threads_ok_mono; [|done]. intros f. by apply prov_le_holds.
Qed.

Lemma initial_ok s : initial s → sys_ok s.
Proof.
  intros (Hdb & Hc & Hr & Hi & Ht & Hl). exists []. rewrite Ht. split; [|constructor].
  unfold charged. simpl. split; unfold charged; rewrite ?Hdb, ?Hc, ?Hr, ?Hi; simpl; try done.
  - constructor.
  - by intros k ?%elem_of_nil.
  - by intros req ?%elem_of_nil.
  - by intros req ?%elem_of_nil.
Qed.

Lemma steps_keep s s' : sys_ok s → rtc sys_step s s' → sys_ok s' ∧ db_le (db (wld s)) (db (wld s')).
Proof.
  intros Hok Hst. induction Hst as [s|s1 s2 s3 Hst _ IH]; [done|].
  destruct (sys_step_keeps _ _ Hok Hst) as [Hok2 Hle]. destruct (IH Hok2) as [Hok3 Hle'].
  split; [done|by etrans].
Qed.

Lemma reachable_ok s : reachable s → sys_ok s.
Proof. intros (s0 & Hi & Hst). by apply (steps_keep s0), Hst; apply initial_ok. Qed.

Lemma reachable_world s : reachable s → ∃ toks, world_ok (wld s) toks.
Proof. intros (gs & Hw & _)%reachable_ok. by eexists. Qed.

Lemma not_settled_early s :
  s ∈ known_statuses → ¬ settled_paid s → s ≠ OrderStatusFailed →
  s = OrderStatusPending ∨ s = OrderStatusPaymentUnknown.
Proof.
  unfold known_statuses, settled_paid. rewrite !elem_of_cons, elem_of_nil. naive_solver.
Qed.

(** ** Properties *)

(** C1: however requests, recovery workers, operator retries, crashes and
failures interleave, the service asks for at most one charge per order over its
whole life, and always under the id of the order as idempotency key: no two of its
charge requests name the same order, and each has the order's id as its key. *)
Theorem charged_at_most_once (s : sys) (Hs : reachable s) :
  NoDup (map PaymentRequest.OrderID (charges (wld s))) ∧
  ∀ req, req ∈ charges (wld s) → PaymentRequest.IdempotencyKey req = PaymentRequest.OrderID req.
Proof.
  destruct (reachable_world _ Hs) as [toks Hw].
  assert (∀ req, req ∈ charges (wld s) → PaymentRequest.IdempotencyKey req = PaymentRequest.OrderID req)
    as Hkey by (intros req Hreq; apply (charges_ok _ _ Hw _ Hreq)).
  split; [|exact Hkey]. pose proof (tokens_once _ _ Hw) as (_ & _ & Hn)%NoDup_app.
  replace (map PaymentRequest.OrderID (charges (wld s))) with (charged (wld s)); [done|].
  apply map_ext_in. intros req Hreq. by apply Hkey, list_elem_of_In.
Qed.

(** C2: an order that shows as failed was never charged and never will be:
from the moment its row is failed, the provider's ledger holds neither an
approved nor an undecided charge for it, in every later state. *)
Theorem failed_never_charged (s s' : sys) (id : string) (row : Order)
    (Hs : reachable s) (Hrow : db (wld s) !! id = Some row)
    (Hfailed : Status row = OrderStatusFailed) (Hlater : rtc sys_step s s') :
  ledger (prov (wld s')) id = Declined ∨ ledger (prov (wld s')) id = Untouched.
Proof.
  destruct (steps_keep _ _ (reachable_ok _ Hs) Hlater) as [(gs & Hw & _) Hle].
  destruct (Hle _ _ Hrow) as (row' & Hrow' & _ & _ & _ & _ & Ht & _).
  destruct (rows_ok _ _ Hw _ _ Hrow') as [_ _ _ _ _ Hf _].
  rewrite Hfailed in Ht. destruct (rtc_inv _ _ Ht) as [Heq|(y & Hstep & _)].
  - destruct (Hf (eq_sym Heq)) as [?|[? _]]; auto.
  - by apply (terminal_stuck _ _ (or_introl eq_refl)) in Hstep.
Qed.

(** C3: a durable order that is paid, awaiting fulfillment or completed carries
the reference of the charge that the provider approved for it. *)
Theorem paid_matches_ledger (s : sys) (id : string) (row : Order)
    (Hs : reachable s) (Hrow : db (wld s) !! id = Some row) (Hpaid : settled_paid (Status row)) :
  ledger (prov (wld s)) id = Approved (PaymentReference row).
Proof.
  destruct (reachable_world _ Hs) as [toks Hw]. by apply (rows_ok _ _ Hw _ _ Hrow).
Qed.

(** C12: no approved charge is lost: its order is durable and either carries the
charge's reference in a paid state or is still in a status that recovery
scans and resolves by looking the charge up. *)
Theorem approved_charge_not_lost (s : sys) (id ref : string)
    (Hs : reachable s) (Happroved : ledger (prov (wld s)) id = Approved ref) :
  ∃ row, db (wld s) !! id = Some row ∧
    (settled_paid (Status row) ∧ PaymentReference row = ref ∨
     Status row = OrderStatusPending ∨ Status row = OrderStatusPaymentUnknown).
Proof.
  destruct (reachable_world _ Hs) as [toks Hw].
  destruct (decide (id ∈ charged (wld s))) as [Hin|Hout].
  2:{ apply (uncharged _ _ Hw) in Hout. congruence. }
  destruct (tokens_rows _ _ Hw id) as [row Hrow]; [apply elem_of_app; by right|].
  exists row. split; [done|]. destruct (rows_ok _ _ Hw _ _ Hrow) as [_ _ Hk Hp _ Hf _].
  destruct (decide (settled_paid (Status row))) as [Hset|Hset].
  - left. split; [done|]. specialize (Hp Hset). congruence.
  - right. apply not_settled_early; [done..|]. intros Hfail.
    destruct (Hf Hfail) as [?|[? _]]; congruence.
Qed.

(** Every charge request the service ever sent is for a durable order: it
uses the order's id as order id and idempotency key, its customer, and the
order's total. *)
Theorem charges_match_orders (s : sys) (req : PaymentRequest.t)
    (Hs : reachable s) (Hreq : req ∈ charges (wld s)) :
  ∃ row, db (wld s) !! PaymentRequest.IdempotencyKey req = Some row ∧
    PaymentRequest.OrderID req = ID row ∧ PaymentRequest.CustomerID req = CustomerID row ∧
    PaymentRequest.AmountCents req = Total row.
Proof.
  destruct (reachable_world _ Hs) as [toks Hw].
  destruct (charges_ok _ _ Hw _ Hreq) as (-> & row & Hrow & Hc & Ha).
  exists row. split_and!; try done. symmetry. apply (rows_ok _ _ Hw _ _ Hrow).
Qed.

(** C14: inventory is only ever reserved for orders whose charge the provider
approved, with the order's id as idempotency key and exactly its items. *)
Theorem reservations_are_paid (s : sys) (req : InventoryRequest.t)
    (Hs : reachable s) (Hreq : req ∈ reservations (wld s)) :
  ∃ row ref, db (wld s) !! InventoryRequest.IdempotencyKey req = Some row ∧
    InventoryRequest.OrderID req = ID row ∧ InventoryRequest.Items req = Items row ∧
    ledger (prov (wld s)) (ID row) = Approved ref.
Proof.
  destruct (reachable_world _ Hs) as [toks Hw].
  destruct (reservations_ok _ _ Hw _ Hreq) as (-> & [ref Href] & row & Hrow & Hi).
  exists row, ref. destruct (rows_ok _ _ Hw _ _ Hrow) as [-> _ _ _ _ _ _]. done.
Qed.

(** C13: a durable order is never deleted and only moves forward: identity,
customer, items and creation time never change, the status follows the
lifecycle, the payment reference changes only with the status, and a failed or
completed order never changes again. *)
Theorem durable_orders_only_advance (s s' : sys) (id : string) (row : Order)
    (Hs : reachable s) (Hrow : db (wld s) !! id = Some row) (Hlater : rtc sys_step s s') :
  ∃ row', db (wld s') !! id = Some row' ∧
    ID row' = ID row ∧ CustomerID row' = CustomerID row ∧ Items row' = Items row ∧
    CreatedAt row' = CreatedAt row ∧ rtc transition (Status row) (Status row') ∧
    (Status row' = Status row → PaymentReference row' = PaymentReference row) ∧
    (Status row = OrderStatusFailed ∨ Status row = OrderStatusCompleted → Status row' = Status row).
Proof.
  destruct (steps_keep _ _ (reachable_ok _ Hs) Hlater) as [_ Hle].
  destruct (Hle _ _ Hrow) as (row' & Hrow' & ? & ? & ? & ? & Ht & ?).
  exists row'. split_and!; try done. intros Hterm.
  destruct (rtc_inv _ _ Ht) as [|(y & Hstep & _)]; [done|].
  by apply (terminal_stuck _ _ Hterm) in Hstep.
Qed.

(** C15: no request, worker or operator call ever dereferences a nil order: no
thread of the system panics. *)
Theorem no_thread_panics (s : sys) (p : prog portE thread_result) (Hs : reachable s) (Hp : p ∈ threads s) :
  ∀ msg, p ≠ Panic msg.
Proof.
  intros msg ->. destruct (reachable_ok _ Hs) as (gs & _ & Hts).
  apply list_elem_of_lookup in Hp as [i Hi].
  by destruct (Forall2_lookup_l _ _ _ _ _ Hts Hi) as (g & _ & _ & []).
Qed.
End system.
