(* ===== verification/Simulator.v ===== *)
(** * Concrete runs of the system

A deterministic world that lives up to the store and provider specifications,
and a scheduler that serves requests against it.  Its runs are executions of
System.v, so they exercise every hypothesis of the safety theorems. *)

From S2P Require Import Prelude GoValues Prog Domain Ports CreateOrder Reconciler Decorators Provider Store Safety System.

(** ** A deterministic world *)

(** How the provider treats the next new charge. *)
Inductive demo_payment :=
| Approve (ref : string)
| Decline
| Reject
(** the caller sees a timeout; the ledger ends up with the given state *)
| TimeOut (becomes : charge_state).

Record demo := mkDemo {
  demo_pay : demo_payment;
  demo_reserve : option error;
  demo_now : Time }.

Definition demo_world : Type := world (P := gmap string charge_state).

Definition demo_error (text : string) : error := Foreign text None.
Definition demo_rejection : error := HTTPStatusError PaymentAdapter 401.

(** The answer to a charge, and the ledger state it leaves. *)
Definition demo_charge (d : demo) (before : charge_state)
    : PaymentResult.t * option error * option charge_state :=
  match before with
  | Approved ref => (PaymentResult.mk ref "approved", None, Some before)
  | Declined => (PaymentResult.mk "" "declined", None, Some before)
  | _ =>
      match demo_pay d with
      | Approve ref => (PaymentResult.mk ref "approved", None, Some (Approved ref))
      | Decline => (PaymentResult.mk "" "declined", None, Some Declined)
      | Reject => (PaymentResult.zero, Some demo_rejection, None)
      | TimeOut c => (PaymentResult.zero, Some (demo_error "timeout"), Some c)
      end
  end.

Definition demo_lookup (c : charge_state) : PaymentResult.t * bool * option error :=
  match c with
  | Approved ref => (PaymentResult.mk ref "approved", true, None)
  | Declined => (PaymentResult.mk "" "declined", true, None)
  | _ => (PaymentResult.zero, false, None)
  end.

(** The recoverable orders after a cursor, in order. *)
Definition demo_selected (m : gmap string Order) (afterID : string) (olderThan : Time) : list string :=
  merge_sort String.le (map fst (filter (λ kv : string * Order,
    strict String.le afterID kv.1 ∧ (CreatedAt kv.2 <= olderThan)%Z ∧
    Status kv.2 ∈ recoverable_statuses) (map_to_list m))).

Definition demo_handler (d : demo) : handler portE demo_world :=
  λ R e w,
  match e in portE R return R * demo_world with
  | Now => (demo_now d, w)
  | rand_Read n => ((repeat Byte.x2a n, None), w)
  | ctx_Err _ => (None, w)
  | Save _ o =>
      match store_insert id (db w) o with
      | Some m => (None, with_db m w)
      | None => (Some (demo_error "duplicate key"), w)
      end
  | SaveIfStatus _ o expected =>
      match store_cas (db w) o expected with
      | Some m => ((true, None), with_db m w)
      | None => ((false, None), w)
      end
  | FindByID _ id =>
      match db w !! id with
      | Some o => ((Some o, None), w)
      | None => ((None, Some (wrapf "find: " (Sentinel ErrNotFound))), w)
      end
  | ListRecoverableIDs _ afterID olderThan limit =>
      ((take (Z.to_nat limit) (demo_selected (db w) afterID olderThan), None), w)
  | Charge _ req =>
      let k := PaymentRequest.IdempotencyKey req in
      let '(res, err, c) := demo_charge d (ledger_map (prov w) k) in
      ((res, err), with_charge (match c with Some c => <[k := c]> (prov w) | None => prov w end) req w)
  | LookupCharge _ key => (demo_lookup (ledger_map (prov w) key), w)
  | Reserve _ req => (demo_reserve d, with_reservation req (demo_reserve d) w)
  | Start ctx _ => ((ctx, 1%N), w)
  | SpanFromContext ctx => (ctx_span ctx, w)
  | AddEvent _ _ _ | RecordError _ _ | End_ _ | Info _ _ _ | LogError _ _ _ _
  | IncOrdersCreated _ _ | ObserveStepDuration _ _ _ => (tt, w)
  end.

(** At most [n] calls of a program. *)
Fixpoint run_calls {E W A} (h : handler E W) (n : nat) (p : prog E A) (w : W) : prog E A * W :=
  match n, p with
  | S n, Vis e k => let '(r, w') := h _ e w in run_calls h n (k r) w'
  | _, _ => (p, w)
  end.

Definition demo_sys : Type := sys (P := gmap string charge_state).

(** Starts a program and lets it make [n] calls. *)
Definition serve (d : demo) (n : nat) (p : prog portE thread_result) (s : demo_sys) : demo_sys :=
  let '(p', w') := run_calls (demo_handler d) n p (wld s) in Sys w' (threads s ++ [p']).

Definition demo_start : demo_sys := Sys (mkWorld ∅ ∅ [] [] []) [].

(** ** Its runs are executions of the system *)

Abbreviation demo_step := (sys_step (P := gmap string charge_state) id).
Abbreviation demo_reachable := (reachable (P := gmap string charge_state) id).

Lemma demo_charge_lawful d m req :
  let k := PaymentRequest.IdempotencyKey req in
  let '(res, err, c) := demo_charge d (ledger_map m k) in
  map_charge m req (res, err) (match c with Some c => <[k := c]> m | None => m end).
Proof.
  cbv zeta. unfold demo_charge, map_charge.
  destruct (ledger_map m (PaymentRequest.IdempotencyKey req)) eqn:Hl;
    try destruct (demo_pay d); simpl; try (by left); try (eexists; by split_and!);
    right; split_and!; eauto.
Qed.

Lemma demo_handler_ok d R (e : portE R) w :
  port_step id w e (demo_handler d R e w).1 (demo_handler d R e w).2.
Proof.
  destruct e; simpl; try done.
  - destruct (store_insert id (db w) order) as [m|] eqn:Hm; simpl.
    + by exists m.
    + exists (db w). split; [by left|by destruct w].
  - destruct (store_cas (db w) order expected) as [m|] eqn:Hm; simpl.
    + by exists m.
    + exists (db w). split; [done|by destruct w].
  - destruct (db w !! id) eqn:Hm; simpl; by rewrite ?Hm.
  - pose proof (demo_charge_lawful d (prov w) req) as H. cbv zeta in H.
    destruct (demo_charge d _) as [[res err] c]. simpl. eexists. split; [exact H|done].
  - exists (prov w). split; [|by destruct w].
    split; [done|]. destruct (ledger_map (prov w) idempotencyKey) eqn:Hl; simpl; intros; simplify_eq;
      unfold result_state; simpl; by rewrite ?Hl.
Qed.

Lemma demo_selected_page m afterID olderThan limit :
  list_spec String.le m afterID olderThan limit (take (Z.to_nat limit) (demo_selected m afterID olderThan)).
Proof.
  apply take_page_spec.
  - apply sorted_strict; [apply _| |apply StronglySorted_merge_sort; apply _].
    unfold demo_selected. rewrite merge_sort_Permutation.
    eapply sublist_NoDup; [apply (NoDup_fst_map_to_list m)|]. apply fmap_sublist, sublist_filter.
  - intros id. unfold demo_selected, recoverable. rewrite merge_sort_Permutation, list_elem_of_fmap.
    setoid_rewrite list_elem_of_filter. split.
    + intros ([i o] & -> & (Hlt & Hold & Hs) & Ho%elem_of_map_to_list). split; [done|]. by exists o.
    + intros (Hlt & o & Ho & Hold & Hs). exists (id, o). by rewrite elem_of_map_to_list.
Qed.

Lemma run_calls_steps d n i p w ts p' w' :
  ts !! i = Some p → run_calls (demo_handler d) n p w = (p', w') →
  rtc demo_step (Sys w ts) (Sys w' (<[i := p']> ts)).
Proof.
  revert p w ts. induction n as [|n IH]; intros p w ts Hi Hr; simpl in Hr.
  { simplify_eq. by rewrite list_insert_id. }
  destruct p as [a|m|R e k]; [simplify_eq; by rewrite list_insert_id..|].
  pose proof (demo_handler_ok d R e w) as Hstep.
  destruct (demo_handler d R e w) as [r w1]. simpl in Hstep.
  eapply rtc_l; [by eapply step_call|].
  rewrite <-(list_insert_insert_eq ts i p' (k r)). apply (IH (k r)); [|done].
  apply list_lookup_insert_eq. by eapply lookup_lt_Some.
Qed.

Lemma serve_steps d n p s : spawnable p → rtc demo_step s (serve d n p s).
Proof.
  intros Hp. destruct s as [w ts]. unfold serve. simpl.
  destruct (run_calls (demo_handler d) n p w) as [p' w'] eqn:Hr.
  eapply rtc_l; [by apply step_spawn|].
  replace (ts ++ [p']) with (<[length ts := p']> (ts ++ [p]))
    by (rewrite insert_app_r_alt, Nat.sub_diag by lia; done).
  eapply run_calls_steps; [|done]. by rewrite list_lookup_middle.
Qed.

Lemma demo_start_reachable : demo_reachable demo_start.
Proof. by exists demo_start. Qed.

Lemma serve_reachable d n p s : spawnable p → demo_reachable s → demo_reachable (serve d n p s).
Proof. intros Hp (s0 & Hi & Hs). exists s0. split; [done|]. etrans; [done|]. by apply serve_steps. Qed.

(** ** Scenarios *)

Definition demo_request : option CreateOrderRequest.t :=
  Some (CreateOrderRequest.mk "cust_1" "premium" [mkOrderItem "sku_1" 2 1500]).
Definition demo_ctx : Ctx := mkCtx 0%N.
Definition serve_request (d : demo) (n : nat) : demo_sys → demo_sys :=
  serve d n (reply ← uc_Execute createOrder demo_ctx demo_request; mret (Some reply)).
(** Old enough for recovery. *)
Definition an_hour_later (d : demo) : demo :=
  mkDemo (demo_pay d) (demo_reserve d) (demo_now d + 3600 * second)%Z.
Definition serve_worker (d : demo) : demo_sys → demo_sys :=
  serve (an_hour_later d) 1000 (_ ← Run demo_ctx (NewReconciler (ReconcilerConfig.mk 0 0)) 1; mret None).

(** The id that [rand_Read] makes in these runs. *)
Definition demo_id : string := "ord_2a2a2a2a2a2a2a2a2a2a2a2a2a2a2a2a".

Definition healthy : demo := mkDemo (Approve "ref_1") None 7.
Definition declining : demo := mkDemo Decline None 7.
Definition rejecting : demo := mkDemo Reject None 7.
(** the charge times out for its caller but goes through *)
Definition timing_out : demo := mkDemo (TimeOut (Approved "ref_1")) None 7.

Lemma serve_request_reachable d n s : demo_reachable s → demo_reachable (serve_request d n s).
Proof. intros. by apply serve_reachable; [constructor|]. Qed.
Lemma serve_worker_reachable d s : demo_reachable s → demo_reachable (serve_worker d s).
Proof. intros. by apply serve_reachable; [constructor|]. Qed.
#[export] Hint Resolve serve_request_reachable serve_worker_reachable demo_start_reachable : ordersvc.

(** Approved, completed. *)
Definition completed_sys : demo_sys := serve_request healthy 1000 demo_start.
(** Declined, failed; then a second request that draws the same id. *)
Definition failed_sys : demo_sys := serve_request declining 1000 demo_start.
Definition failed_later_sys : demo_sys := serve_worker healthy (serve_request healthy 1000 failed_sys).
(** Timed out, then recovered by the worker. *)
Definition unknown_sys : demo_sys := serve_request timing_out 1000 demo_start.
Definition recovered_sys : demo_sys := serve_worker healthy unknown_sys.

Definition row_summary (s : demo_sys) : option (OrderStatus * string) :=
  (λ row, (Status row, PaymentReference row)) <$> db (wld s) !! demo_id.

Example completed_run : row_summary completed_sys = Some (OrderStatusCompleted, "ref_1").
Proof. vm_compute. reflexivity. Qed.
Example failed_run : row_summary failed_sys = Some (OrderStatusFailed, "").
Proof. vm_compute. reflexivity. Qed.
Example rejected_run :
  row_summary (serve_request rejecting 1000 demo_start) = Some (OrderStatusFailed, "").
Proof. vm_compute. reflexivity. Qed.
Example unknown_run : row_summary unknown_sys = Some (OrderStatusPaymentUnknown, "").
Proof. vm_compute. reflexivity. Qed.
Example recovered_run : row_summary recovered_sys = Some (OrderStatusCompleted, "ref_1").
Proof. vm_compute. reflexivity. Qed.
(** A crash right after the charge leaves the order pending; the worker completes it. *)
Example crash_run :
  row_summary (serve_request healthy 16 demo_start) = Some (OrderStatusPending, "") ∧
  charged (wld (serve_request healthy 16 demo_start)) = [demo_id] ∧
  row_summary (serve_worker healthy (serve_request healthy 16 demo_start)) =
    Some (OrderStatusCompleted, "ref_1").
Proof. vm_compute. done. Qed.

(** ** Witnesses of the safety theorems *)

Definition demo_row (s : demo_sys) : Order := default example_order (db (wld s) !! demo_id).

(** Two requests that drew the same id were served: one charge. *)
Lemma charged_at_most_once_witness :
  length (threads failed_later_sys) = 3 ∧ map PaymentRequest.OrderID (charges (wld failed_later_sys)) = [demo_id] ∧
  NoDup (map PaymentRequest.OrderID (charges (wld failed_later_sys))).
Proof.
  split; [vm_compute; reflexivity|]. split; [vm_compute; reflexivity|].
  apply (charged_at_most_once id). unfold failed_later_sys, failed_sys. auto with ordersvc.
Defined.

Lemma failed_never_charged_witness :
  ledger (prov (wld failed_later_sys)) demo_id = Declined ∨
  ledger (prov (wld failed_later_sys)) demo_id = Untouched.
Proof.
  apply (failed_never_charged id failed_sys failed_later_sys demo_id (demo_row failed_sys)).
  - unfold failed_sys. auto with ordersvc.
  - vm_compute. reflexivity.
  - vm_compute. reflexivity.
  - unfold failed_later_sys. etrans; apply serve_steps; constructor.
Defined.

Lemma paid_matches_ledger_witness :
  PaymentReference (demo_row recovered_sys) = "ref_1" ∧
  ledger (prov (wld recovered_sys)) demo_id = Approved (PaymentReference (demo_row recovered_sys)).
Proof.
  split; [vm_compute; reflexivity|].
  apply (paid_matches_ledger id recovered_sys demo_id).
  - unfold recovered_sys, unknown_sys. auto with ordersvc.
  - vm_compute. reflexivity.
  - right; right. vm_compute. reflexivity.
Defined.

(** The charge of a timed-out request, before recovery. *)
Lemma approved_charge_not_lost_witness :
  ∃ row, db (wld unknown_sys) !! demo_id = Some row ∧
    (settled_paid (Status row) ∧ PaymentReference row = "ref_1" ∨
     Status row = OrderStatusPending ∨ Status row = OrderStatusPaymentUnknown).
Proof.
  apply (approved_charge_not_lost id unknown_sys demo_id "ref_1").
  - unfold unknown_sys. auto with ordersvc.
  - vm_compute. reflexivity.
Defined.

Lemma charges_match_orders_witness :
  ∃ row, db (wld completed_sys) !! demo_id = Some row ∧ demo_id = ID row ∧
    "cust_1" = CustomerID row ∧ 3000%Z = Total row.
Proof.
  apply (charges_match_orders id completed_sys (PaymentRequest.mk demo_id "cust_1" 3000 demo_id)).
  - unfold completed_sys. auto with ordersvc.
  - apply list_elem_of_lookup. exists 0. vm_compute. reflexivity.
Defined.

Lemma reservations_are_paid_witness :
  ∃ row ref, db (wld completed_sys) !! demo_id = Some row ∧ demo_id = ID row ∧
    [mkOrderItem "sku_1" 2 1500] = Items row ∧
    ledger (prov (wld completed_sys)) (ID row) = Approved ref.
Proof.
  apply (reservations_are_paid id completed_sys
    (InventoryRequest.mk demo_id [mkOrderItem "sku_1" 2 1500] demo_id)).
  - unfold completed_sys. auto with ordersvc.
  - apply list_elem_of_lookup. exists 0. vm_compute. reflexivity.
Defined.

Lemma durable_orders_only_advance_witness :
  ∃ row', db (wld recovered_sys) !! demo_id = Some row' ∧
    rtc transition OrderStatusPaymentUnknown (Status row').
Proof.
  destruct (durable_orders_only_advance id unknown_sys recovered_sys demo_id (demo_row unknown_sys))
    as (row' & Hrow & _ & _ & _ & _ & Ht & _).
  - unfold unknown_sys. auto with ordersvc.
  - vm_compute. reflexivity.
  - unfold recovered_sys. apply serve_steps. constructor.
  - exists row'. split; [exact Hrow|exact Ht].
Defined.

Lemma no_thread_panics_witness :
  length (threads failed_later_sys) = 3 ∧ (Ret None : prog portE thread_result) ≠ Panic "nil".
Proof.
  split; [vm_compute; reflexivity|].
  apply (no_thread_panics id failed_later_sys).
  - unfold failed_later_sys, failed_sys. auto with ordersvc.
  - apply list_elem_of_lookup. exists 2. vm_compute. reflexivity.
Defined.
