(* ===== verification/Outcomes.v ===== *)
(** * The story of one request

What one create-order request does, call by call, and what its result says
about it: a protocol whose states record the calls made so far.  The usecase
and its decorators are verified against it, so the statements hold for every
execution, stopped at any call. *)

From S2P Require Import Prelude GoValues Prog Domain Ports CreateOrder Decorators System Simulator.

(** ** Classes of errors *)

(** The sentinels the layers above tell apart. *)
Definition validation_sentinels : list sentinel :=
  [ErrNilRequest; ErrInvalidCustomerTier; ErrEmptyCustomer; ErrEmptyOrder; ErrInvalidOrderItem].
Definition usecase_sentinels : list sentinel :=
  validation_sentinels ++
  [ErrPaymentUncertain; ErrPaymentRejected; ErrFulfillmentPending; ErrConcurrentStateChange].

(** [errors.Is] finds exactly the sentinels of [ks], of those above. *)
Definition kinds (ks : list sentinel) (err : error) : Prop :=
  ∀ s, s ∈ usecase_sentinels → errors_Is err s = ⟦s ∈ ks⟧.

(** The sentinel, possibly together with a concurrent change of state. *)
Definition with_conflict (s : sentinel) (err : error) : Prop :=
  kinds [s] err ∨ kinds [s; ErrConcurrentStateChange] err.

(** Errors of the collaborators: none of the sentinels of the usecase. *)
Definition plain (err : error) : Prop := kinds [] err.

Definition plain_option (err : option error) : Prop :=
  match err with Some err => plain err | None => True end.

(** ** States *)

Record story := mkStory {
  (** the order the request tried to insert *)
  tried : option Order;
  (** the order as the request last wrote it durably *)
  stored : option Order;
  charge_answer : option (PaymentResult.t * option error);
  reserve_answer : option (option error) }.

Definition no_story : story := mkStory None None None None.

Definition store (o : Order) (g : story) : story :=
  mkStory (tried g) (Some o) (charge_answer g) (reserve_answer g).

(** The status the answer of the Payment Service calls for. *)
Definition charge_verdict (ans : PaymentResult.t * option error) (o : Order) : Prop :=
  match ans with
  | (_, Some err) =>
      Status o = if PaymentOutcomeMayHaveCommitted err then OrderStatusPaymentUnknown
                 else OrderStatusFailed
  | (r, None) =>
      if ⟦PaymentResult.Status r = "declined"⟧ then Status o = OrderStatusFailed
      else if ⟦PaymentResult.Status r = "approved"⟧ then
        Status o = OrderStatusPaid ∧ PaymentReference o = PaymentResult.Reference r
      else Status o = OrderStatusPaymentUnknown
  end.

(** ... and the answer of the Inventory Service. *)
Definition reserve_verdict (ans : option error) (o : Order) : Prop :=
  Status o = match ans with
             | Some _ => OrderStatusFulfillmentPending
             | None => OrderStatusCompleted
             end.

(** ** The protocol *)

Definition same_order (o o' : Order) : Prop :=
  ID o' = ID o ∧ CustomerID o' = CustomerID o ∧ Items o' = Items o ∧ CreatedAt o' = CreatedAt o.

Definition reports_stored (g : story) (name : string) : Prop :=
  ∃ o, stored g = Some o ∧ name = event_name (Status o).

Definition may_call {R} (g : story) (e : portE R) : Prop :=
  match e with
  | Save _ o => g = no_story ∧ wf_order o ∧ Status o = OrderStatusPending ∧ PaymentReference o = ""
  | Charge _ req =>
      charge_answer g = None ∧ ∃ o, stored g = Some o ∧ Status o = OrderStatusPending ∧
        req = PaymentRequest.mk (ID o) (CustomerID o) (Total o) (ID o)
  | SaveIfStatus _ o expected =>
      ∃ prev, stored g = Some prev ∧ expected = Status prev ∧ same_order prev o ∧
        ((expected = OrderStatusPending ∧
            ∃ ans, charge_answer g = Some ans ∧ charge_verdict ans o) ∨
         (expected = OrderStatusPaid ∧ PaymentReference o = PaymentReference prev ∧
            ∃ ans, reserve_answer g = Some ans ∧ reserve_verdict ans o))
  | Reserve _ req =>
      reserve_answer g = None ∧ ∃ o, stored g = Some o ∧ Status o = OrderStatusPaid ∧
        req = InventoryRequest.mk (ID o) (Items o) (ID o)
  | AddEvent _ name _ => reports_stored g name
  | Info _ msg _ =>
      msg = "CreateOrder.request" ∨ msg = "CreateOrder.response" ∨ reports_stored g msg
  | LookupCharge _ _ | ListRecoverableIDs _ _ _ _ => False
  | _ => True
  end.

Definition may_answer {R} (g : story) (e : portE R) : R → story → Prop :=
  match e in portE R return R → story → Prop with
  | rand_Read _ => λ ans g', plain_option ans.2 ∧ g' = g
  | Save _ o => λ err g', plain_option err ∧
      g' = mkStory (Some o) (match err with None => Some o | Some _ => None end) None None
  | SaveIfStatus _ o _ => λ ans g',
      match ans with
      | (true, None) => g' = store o g
      | (false, None) => g' = g
      | (_, Some err) => plain err ∧ g' = g
      end
  | FindByID _ id => λ ans g', g' = g ∧
      match ans with
      | (Some o, None) => ID o = id
      | (None, Some err) => plain err
      | _ => False
      end
  | Charge _ _ => λ ans g', plain_option ans.2 ∧
      g' = mkStory (tried g) (stored g) (Some ans) (reserve_answer g)
  | Reserve _ _ => λ ans g', plain_option ans ∧
      g' = mkStory (tried g) (stored g) (charge_answer g) (Some ans)
  | _ => λ _ g', g' = g
  end.

Definition tale : protocol portE := Protocol portE story (@may_call) (@may_answer).

(** ** What a result says *)

Definition is_approved (ans : PaymentResult.t * option error) : Prop :=
  ans.2 = None ∧ PaymentResult.Status ans.1 = "approved".
Definition is_declined (ans : PaymentResult.t * option error) : Prop :=
  ans.2 = None ∧ PaymentResult.Status ans.1 = "declined".
Definition is_rejected (ans : PaymentResult.t * option error) : Prop :=
  ∃ err, ans.2 = Some err ∧ PaymentOutcomeMayHaveCommitted err = false.

(** [o] is the order this request stored, possibly read again later. *)
Definition of_story (g : story) (o : Order) : Prop := ∃ st, stored g = Some st ∧ ID o = ID st.

(** [o] is the order as this request last stored it. *)
Definition is_stored (g : story) (o : Order) : Prop :=
  ∃ st, stored g = Some st ∧ ID o = ID st ∧ Status o = Status st.

(** Every way a request can end. *)
Inductive ending (g : story) : option Order * option error → Prop :=
| end_refused s err :
    s ∈ validation_sentinels → kinds [s] err → g = no_story → ending g (None, Some err)
| end_not_saved err :
    plain err → stored g = None → charge_answer g = None → ending g (None, Some err)
| end_completed o ans :
    is_stored g o → Status o = OrderStatusCompleted → charge_answer g = Some ans → is_approved ans →
    reserve_answer g = Some None → ending g (Some o, None)
| end_declined o ans :
    is_stored g o → Status o = OrderStatusFailed → charge_answer g = Some ans → is_declined ans →
    reserve_answer g = None → ending g (Some o, None)
| end_rejected o err ans :
    is_stored g o → kinds [ErrPaymentRejected] err → charge_answer g = Some ans → is_rejected ans →
    Status o = OrderStatusFailed ∨ Status o = OrderStatusPending →
    reserve_answer g = None → ending g (Some o, Some err)
| end_decline_not_recorded o err ans :
    is_stored g o → plain err → charge_answer g = Some ans → is_declined ans →
    Status o = OrderStatusPending → reserve_answer g = None → ending g (Some o, Some err)
| end_uncertain o err ans :
    of_story g o → with_conflict ErrPaymentUncertain err →
    charge_answer g = Some ans → reserve_answer g = None → ending g (Some o, Some err)
| end_fulfillment_pending o err ans r :
    of_story g o → with_conflict ErrFulfillmentPending err →
    charge_answer g = Some ans → is_approved ans → reserve_answer g = Some r →
    ending g (Some o, Some err).

(** ** Lemmas on errors *)

Lemma kinds_Is ks err s : kinds ks err → s ∈ usecase_sentinels → errors_Is err s = true → s ∈ ks.
Proof. intros H Hs. rewrite H by done. apply bool_decide_eq_true. Qed.

Lemma kinds_sentinel s : kinds [s] (Sentinel s).
Proof. intros s' _. simpl. apply bool_decide_ext. rewrite list_elem_of_singleton. naive_solver. Qed.

Lemma kinds_wrapf ks text err : kinds ks err → kinds ks (wrapf text err).
Proof. intros H s Hs. rewrite errors_Is_wrapf. by apply H. Qed.

(** [fmt.Errorf("%w<text>%w", sentinel, err)] adds a sentinel to a chain. *)
Lemma kinds_wrap_head s text ks err :
  kinds ks err → kinds (s :: ks) (Errorf [Wrap (Sentinel s); Lit text; Wrap err]).
Proof.
  intros H s' Hs. cbn [errors_Is existsb]. rewrite H by done. simpl. rewrite !orb_false_r.
  rewrite <- bool_decide_or. apply bool_decide_ext. rewrite elem_of_cons. naive_solver.
Qed.

(** [fmt.Errorf("%w<text>%w", err, err')]. *)
Lemma kinds_wrap_two ks err text err' :
  kinds ks err → plain err' → kinds ks (Errorf [Wrap err; Lit text; Wrap err']).
Proof.
  intros H H' s Hs. cbn [errors_Is existsb]. rewrite H, H' by done. simpl.
  by rewrite !orb_false_r.
Qed.

Lemma kinds_head_text s text : kinds [s] (Errorf [Wrap (Sentinel s); Lit text]).
Proof. intros s' Hs. cbn [errors_Is existsb]. simpl. rewrite orb_false_r. by apply kinds_sentinel. Qed.

(** A flattened error ([%v]) leaves no sentinel behind. *)
Lemma kinds_flattened s ks text err text' err' :
  kinds ks err' →
  kinds (s :: ks) (Errorf [Wrap (Sentinel s); Lit text; Verb err; Lit text'; Wrap err']).
Proof. intros H s' Hs. by rewrite <- (kinds_wrap_head s text ks err' H s' Hs). Qed.

Lemma plain_Is err : plain err → errors_Is err ErrConcurrentStateChange = false.
Proof. intros H. by rewrite H by by apply (bool_decide_unpack _). Qed.

Lemma conflict_Is err :
  kinds [ErrConcurrentStateChange] err → errors_Is err ErrConcurrentStateChange = true.
Proof. intros H. by rewrite H by by apply (bool_decide_unpack _). Qed.

(** ** Rules for the calls *)

(** Calls the protocol leaves free. *)
Definition free {R} (e : portE R) : bool :=
  match e with
  | Now | ctx_Err _ | Start _ _ | SpanFromContext _ | RecordError _ _ | End_ _ | LogError _ _ _ _
  | IncOrdersCreated _ _ | ObserveStepDuration _ _ _ => true
  | _ => false
  end.

Lemma wp_free {R A} (e : portE R) (k : R → prog portE A) Q g :
  free e = true → (∀ r, wp tale (k r) Q g) → wp tale (Vis e k) Q g.
Proof.
  intros He Hk. apply (wp_trigger tale e k).
  - by destruct e.
  - intros r g' Hg. assert (g' = g) as -> by (by destruct e). apply Hk.
Qed.

(** Steps through the free calls and the structure of a program. *)
Ltac tale_step :=
  match goal with
  | |- wp _ (mret _) _ _ => apply wp_ret
  | |- wp _ (Ret _) _ _ => apply wp_ret
  | |- wp tale (mret ?a ≫= ?f) ?Q ?g => change (wp tale (f a) Q g); cbv beta
  | |- wp tale (deref (Some ?a) ≫= ?f) ?Q ?g => change (wp tale (f a) Q g); cbv beta
  | |- wp tale (trigger ?e ≫= ?k) ?Q ?g => apply (wp_free e k); [reflexivity|intros ?]
  | |- wp _ (Vis _ _) _ _ => apply wp_free; [reflexivity|intros ?]
  | |- wp _ ((_ ≫= _) ≫= _) _ _ => apply wp_bind
  | |- wp tale (trigger ?e) ?Q ?g => apply (wp_proper tale (trigger e ≫= Ret)); [reflexivity|]
  end.

Lemma tale_observe_since ctx step t (Q : unit → story → Prop) g :
  Q tt g → wp tale (observe_since ctx step t) Q g.
Proof. intros HQ. unfold observe_since. repeat tale_step. by destruct r0. Qed.

Lemma tale_emit_each ctx span es (Q : unit → story → Prop) g :
  Forall (λ e, reports_stored g (Name e)) es → Q tt g → wp tale (emit_each ctx span es) Q g.
Proof.
  intros Hes HQ. induction Hes as [|e es He _ IH]; cbn [emit_each]; [by tale_step|].
  apply wp_trigger; [done|]. intros _ g' ->. apply wp_trigger; [by right; right|]. by intros _ g' ->.
Qed.

(** Events are emitted only for the state just stored. *)
Lemma tale_emitDomainEvents ctx o (Q : Order → story → Prop) g :
  Forall (λ e, reports_stored g (Name e)) (events o) → Q (set_events [] o) g →
  wp tale (emitDomainEvents ctx o) Q g.
Proof.
  intros He HQ. unfold emitDomainEvents. tale_step. simpl.
  apply wp_bind. apply tale_emit_each; [done|]. by tale_step.
Qed.

(** A conflicting or failed save. *)
Definition save_failed (previous : Order) (r : option Order * option error) : Prop :=
  ∃ o err, r = (Some o, Some err) ∧ ID o = ID previous ∧
    (plain err ∧ o = previous ∨ kinds [ErrConcurrentStateChange] err).

Lemma tale_saveTransition ctx previous next (Q : option Order * option error → story → Prop) g :
  may_call g (SaveIfStatus ctx next (Status previous)) →
  Forall (λ e, Name e = event_name (Status next)) (events next) →
  Q (Some (set_events [] next), None) (store next g) →
  (∀ r, save_failed previous r → Q r g) →
  wp tale (saveTransition ctx previous next) Q g.
Proof.
  intros Hmay Hes Hok Herr. unfold saveTransition. apply wp_trigger; [done|].
  intros [updated err] g1 Hg1. simpl in Hg1. destruct err as [err|].
  { assert (plain err ∧ g1 = g) as [Hp ->] by by destruct updated. tale_step. apply Herr.
    exists previous, err. auto. }
  destruct updated; subst g1; cbn [negb].
  - apply wp_bind. apply tale_emitDomainEvents; [|by tale_step].
    eapply Forall_impl; [done|]. intros e He. by exists next.
  - apply wp_trigger; [done|]. intros [[o|] [err|]] g1 [-> Hf]; try done; tale_step; apply Herr.
    + exists o, (Sentinel ErrConcurrentStateChange). auto using kinds_sentinel.
    + exists previous. eexists. split_and!; [done|done|]. right. by apply kinds_wrap_head.
Qed.

Lemma advance_events o c :
  events o = [] → Forall (λ e, Name e = event_name (Status (advance o c))) (events (advance o c)).
Proof.
  intros He. simpl. rewrite He. constructor; [|constructor].
  rewrite op_event_name. unfold event_name. by destruct c.
Qed.

(** ** The usecase follows the protocol *)

(** The order in hand is the one the request stored. *)
Definition in_hand (g : story) (o : Order) : Prop :=
  events o = [] ∧
  ∃ st, stored g = Some st ∧ same_order st o ∧ Status st = Status o ∧
    PaymentReference st = PaymentReference o.

Lemma in_hand_of_story g o o' : in_hand g o → ID o' = ID o → of_story g o'.
Proof. intros (_ & st & Hst & (Hid & _) & _) H. exists st. by rewrite H, Hid. Qed.

Lemma in_hand_is_stored g o : in_hand g o → is_stored g o.
Proof. intros (_ & st & Hst & (Hid & _) & Hs & _). by exists st. Qed.

Lemma stored_after_save g o c : is_stored (store (advance o c) g) (set_events [] (advance o c)).
Proof. by exists (advance o c). Qed.

Lemma in_hand_after_save g o c :
  in_hand (store (advance o c) g) (set_events [] (advance o c)).
Proof. split; [done|]. by exists (advance o c). Qed.

(** The branch of a transition method that the current status allows. *)
Ltac accept_call o c :=
  let H := fresh "Hop" in
  pose proof (apply_op_accept o c) as H; cbn [apply_op op_target] in H;
  rewrite H by (cbn [Status cloneOrder];
    match goal with Hs : Status _ = _ |- _ => rewrite Hs end; constructor);
  clear H.

Lemma may_save_charged g o ctx c ans :
  in_hand g o → Status o = OrderStatusPending → charge_answer g = Some ans →
  charge_verdict ans (advance o c) →
  may_call g (SaveIfStatus ctx (advance (cloneOrder o) c) (Status o)).
Proof.
  intros (_ & st & Hst & (Hi & Hc & Hit & Ht) & Hs & Hr) Hp Ha Hv.
  exists st. split_and!; try done. left. split; [done|]. exists ans. split; [done|]. by destruct o.
Qed.

Lemma may_save_reserved g o ctx c ans :
  in_hand g o → Status o = OrderStatusPaid → reserve_answer g = Some ans →
  reserve_verdict ans (advance o c) → op_reference o c = PaymentReference o →
  may_call g (SaveIfStatus ctx (advance (cloneOrder o) c) (Status o)).
Proof.
  intros (_ & st & Hst & (Hi & Hc & Hit & Ht) & Hs & Hr) Hp Ha Hv Href.
  exists st. split_and!; try done. right. split; [done|]. split; [|exists ans; split; [done|by destruct o]].
  rewrite Hr, <- Href. by destruct o.
Qed.

Lemma advance_clone_events o c :
  events o = [] →
  Forall (λ e, Name e = event_name (Status (advance (cloneOrder o) c)))
    (events (advance (cloneOrder o) c)).
Proof. intros. by apply advance_events. Qed.
#[local] Hint Resolve advance_clone_events : ordersvc.

Lemma tale_fulfillOrder ctx o g ans :
  in_hand g o → Status o = OrderStatusPaid → charge_answer g = Some ans → is_approved ans →
  reserve_answer g = None →
  wp tale (fulfillOrder ctx o) (λ r g', ending g' r) g.
Proof.
  intros Hin Hs Ha Happ Hres. unfold fulfillOrder. tale_step.
  apply wp_trigger.
  { pose proof Hin as (_ & st & Hst & (Hi & _ & Hit & _) & Hst2 & _). split; [done|]. exists st.
    split; [done|]. split; [by rewrite Hst2|by rewrite Hi, Hit]. }
  intros rerr g1 [Hplain ->]. set (g1 := mkStory _ _ _ _).
  assert (in_hand g1 o) as Hin1 by exact Hin.
  apply wp_bind, tale_observe_since. destruct rerr as [rerr|]; cbv beta zeta; tale_step.
  - accept_call (cloneOrder o) (OpMarkFulfillmentPending r0 "inventory_reservation_error").
    apply wp_bind, tale_saveTransition.
    + by eapply may_save_reserved.
    + destruct Hin. auto with ordersvc.
    + tale_step. eapply end_fulfillment_pending; try done.
      * by apply (in_hand_of_story _ _ _ (in_hand_after_save g1 (cloneOrder o) _)).
      * left. by apply kinds_wrap_head.
    + intros ? (o' & err & -> & Hid & Hk). tale_step.
      eapply end_fulfillment_pending; try done; [by eapply in_hand_of_story|].
      destruct Hk as [[Hk ->]|Hk]; [left|right]; by apply kinds_flattened.
  - accept_call (cloneOrder o) (OpComplete r0).
    apply wp_bind, tale_saveTransition.
    + by eapply may_save_reserved.
    + destruct Hin. auto with ordersvc.
    + tale_step. eapply end_completed; try done. apply stored_after_save.
    + intros ? (o' & err & -> & Hid & Hk). tale_step.
      eapply end_fulfillment_pending; try done; [by eapply in_hand_of_story|].
      destruct Hk as [[Hk ->]|Hk]; [left|right]; by apply kinds_wrap_head.
Qed.

(** What leaves the payment step. *)
Definition payment_done (g : story) (r : (option Order * option error) + Order) : Prop :=
  match r with
  | inl r => ending g r
  | inr o => in_hand g o ∧ Status o = OrderStatusPaid ∧ reserve_answer g = None ∧
      ∃ ans, charge_answer g = Some ans ∧ is_approved ans
  end.

(** A charged order saved as failed or unknown: how it ends. *)
Lemma tale_save_charged {A} ctx o c ans (k : option Order * option error → prog portE A) Q g :
  in_hand g o → Status o = OrderStatusPending → charge_answer g = Some ans →
  charge_verdict ans (advance o c) →
  wp tale (k (Some (set_events [] (advance (cloneOrder o) c)), None)) Q
    (store (advance (cloneOrder o) c) g) →
  (∀ r, save_failed o r → wp tale (k r) Q g) →
  wp tale (saveTransition ctx o (advance (cloneOrder o) c) ≫= k) Q g.
Proof.
  intros Hin Hs Ha Hv Hok Herr. apply wp_bind, tale_saveTransition; [| |done|done].
  - by eapply may_save_charged.
  - destruct Hin. auto with ordersvc.
Qed.

Section settle.
Context (ctx : Ctx) (o : Order) (g : story).
Context (Hin : in_hand g o) (Hs : Status o = OrderStatusPending) (Hres : reserve_answer g = None).

(** An uncertain ending, whatever the save did. *)
Lemma payment_uncertain o' err ans :
  ID o' = ID o → charge_answer g = Some ans → with_conflict ErrPaymentUncertain err →
  payment_done g (inl (Some o', Some err)).
Proof using Hin Hres.
  intros Hid Ha Hk. eapply end_uncertain; try done. by eapply in_hand_of_story.
Qed.

Lemma payment_uncertain_saved c err ans :
  charge_answer g = Some ans → with_conflict ErrPaymentUncertain err →
  payment_done (store (advance (cloneOrder o) c) g)
    (inl (Some (set_events [] (advance (cloneOrder o) c)), Some err)).
Proof using Hin Hres.
  intros Ha Hk. eapply end_uncertain; try done.
  by apply (in_hand_of_story _ _ _ (in_hand_after_save g (cloneOrder o) c)).
Qed.

Lemma tale_charge_error err r0 :
  charge_answer g = Some (r0, Some err) → plain err →
  wp tale (settlePayment ctx o r0 (Some err)) (λ r g', payment_done g' r) g.
Proof using All.
  intros Ha Hp. cbn [settlePayment]. cbv zeta. tale_step.
  destruct (PaymentOutcomeMayHaveCommitted err) eqn:Hc.
  - accept_call (cloneOrder o) (OpMarkPaymentUnknown r "ambiguous_provider_error").
    eapply tale_save_charged; try done; [by simpl; rewrite Hc| |].
    + tale_step. eapply payment_uncertain_saved; [done|]. left. by apply kinds_wrap_head.
    + intros ? (o' & e & -> & Hid & [[Hk ->]|Hk]); cbv beta iota;
        first [rewrite (plain_Is _ Hk) | rewrite (conflict_Is _ Hk)]; tale_step; eapply payment_uncertain; try done.
      * left. apply kinds_wrap_two; [by apply kinds_wrap_head|done].
      * right. by apply kinds_wrap_head.
  - accept_call (cloneOrder o) (OpMarkFailed r "payment_request_rejected").
    assert (is_rejected (r0, Some err)) as Hr by by exists err.
    eapply tale_save_charged; try done; [by simpl; rewrite Hc| |].
    + tale_step. eapply end_rejected; try done; [apply stored_after_save|by apply kinds_wrap_head|by left].
    + intros ? (o' & e & -> & Hid & [[Hk ->]|Hk]); cbv beta iota;
        first [rewrite (plain_Is _ Hk) | rewrite (conflict_Is _ Hk)]; tale_step.
      * eapply end_rejected; try done; [by apply in_hand_is_stored| |by right].
        apply kinds_wrap_two; [by apply kinds_wrap_head|done].
      * eapply payment_uncertain; try done. right. by apply kinds_wrap_head.
Qed.

Lemma tale_declined r0 :
  charge_answer g = Some (r0, None) → PaymentResult.Status r0 = "declined" →
  wp tale (settlePayment ctx o r0 None) (λ r g', payment_done g' r) g.
Proof using All.
  intros Ha Hd. cbn [settlePayment]. rewrite bool_decide_eq_true_2 by done. cbv zeta. tale_step.
  accept_call (cloneOrder o) (OpMarkFailed r "payment_declined").
  eapply tale_save_charged; try done; [by simpl; rewrite bool_decide_eq_true_2| |].
  - tale_step. eapply end_declined; try done. apply stored_after_save.
  - intros ? (o' & e & -> & Hid & [[Hk ->]|Hk]); cbv beta iota;
      first [rewrite (plain_Is _ Hk) | rewrite (conflict_Is _ Hk)]; tale_step.
    + eapply end_decline_not_recorded; try done; [by apply in_hand_is_stored|by apply kinds_wrapf].
    + eapply payment_uncertain; try done. right. by apply kinds_wrap_head.
Qed.

Lemma tale_approved r0 :
  charge_answer g = Some (r0, None) → PaymentResult.Status r0 = "approved" →
  wp tale (settlePayment ctx o r0 None) (λ r g', payment_done g' r) g.
Proof using All.
  intros Ha Hd. cbn [settlePayment].
  rewrite bool_decide_eq_false_2, bool_decide_eq_true_2 by (by rewrite ?Hd). cbv zeta. tale_step.
  accept_call (cloneOrder o) (OpMarkPaid r (PaymentResult.Reference r0)).
  eapply tale_save_charged; try done.
  - unfold charge_verdict. by rewrite bool_decide_eq_false_2, bool_decide_eq_true_2 by (by rewrite ?Hd).
  - repeat tale_step. split_and!; [apply in_hand_after_save|done|done|]. by exists (r0, None).
  - intros ? (o' & e & -> & Hid & Hk); cbv beta iota; tale_step. eapply payment_uncertain; try done.
    destruct Hk as [[Hk _]|Hk]; [left|right]; by apply kinds_wrap_head.
Qed.

Lemma tale_invalid_status r0 :
  charge_answer g = Some (r0, None) →
  PaymentResult.Status r0 ≠ "approved" → PaymentResult.Status r0 ≠ "declined" →
  wp tale (settlePayment ctx o r0 None) (λ r g', payment_done g' r) g.
Proof using All.
  intros Ha Hna Hnd. cbn [settlePayment]. rewrite !bool_decide_eq_false_2 by done. cbv zeta. tale_step.
  accept_call (cloneOrder o) (OpMarkPaymentUnknown r "invalid_provider_status").
  eapply tale_save_charged; try done.
  - unfold charge_verdict. by rewrite !bool_decide_eq_false_2 by done.
  - tale_step. eapply payment_uncertain_saved; [done|]. left. apply kinds_head_text.
  - intros ? (o' & e & -> & Hid & Hk); cbv beta iota; tale_step. eapply payment_uncertain; try done.
    destruct Hk as [[Hk _]|Hk]; [left|right]; by apply kinds_wrap_head.
Qed.
End settle.

Lemma tale_settlePayment ctx o g r0 err :
  in_hand g o → Status o = OrderStatusPending → reserve_answer g = None →
  charge_answer g = Some (r0, err) → plain_option err →
  wp tale (settlePayment ctx o r0 err) (λ r g', payment_done g' r) g.
Proof.
  intros. destruct err as [err|]; [by apply tale_charge_error|].
  destruct (decide (PaymentResult.Status r0 = "declined")); [by apply tale_declined|].
  destruct (decide (PaymentResult.Status r0 = "approved")); [by apply tale_approved|].
  by apply tale_invalid_status.
Qed.

Lemma tale_processOrder ctx o :
  wf_order o → Status o = OrderStatusPending → PaymentReference o = "" →
  Forall (λ e, Name e = event_name (Status o)) (events o) →
  wp tale (processOrder ctx o) (λ r g', ending g' r) no_story.
Proof.
  intros Hwf Hs Hr Hev. unfold processOrder. apply wp_trigger; [done|].
  intros [err|] g1 [Hp ->].
  { tale_step. apply end_not_saved; [|done|done]. by apply kinds_wrapf. }
  apply wp_bind, tale_emitDomainEvents.
  { eapply Forall_impl; [done|]. intros e He. by exists o. }
  tale_step. apply wp_trigger.
  { split; [done|]. exists o. by destruct o. }
  intros [r0 err] g2 [Hp2 ->]. cbn [tried stored charge_answer reserve_answer].
  apply wp_bind, tale_observe_since.
  eapply wp_bind_mono; [apply tale_settlePayment; try done|].
  - split; [done|]. by exists o.
  - intros [ret|o'] g3 Hdone; [by tale_step|]. destruct Hdone as (Hin & Hs' & Hres & ans & Ha & Happ).
    by eapply tale_fulfillOrder.
Qed.

Lemma end_refused_at s err : s ∈ validation_sentinels → kinds [s] err →
  ending no_story (None, Some err).
Proof. intros. by eapply end_refused. Qed.

Lemma tale_Execute ctx req : wp tale (Execute ctx req) (λ r g', ending g' r) no_story.
Proof.
  assert (∀ s, bool_decide (s ∈ validation_sentinels) = true → s ∈ validation_sentinels) as Hv
    by (intros s; apply bool_decide_eq_true).
  unfold Execute. tale_step. destruct req as [req|].
  2: { apply wp_bind, tale_observe_since. tale_step.
       apply (end_refused_at ErrNilRequest); [by apply Hv|apply kinds_sentinel]. }
  destruct (negb _).
  { apply wp_bind, tale_observe_since. tale_step.
    apply (end_refused_at ErrInvalidCustomerTier); [by apply Hv|apply kinds_sentinel]. }
  unfold newOrderID. apply wp_bind. apply wp_trigger; [done|]. intros [buf rerr] g1 [Hp ->].
  destruct rerr as [rerr|]; tale_step.
  { apply wp_bind, tale_observe_since. tale_step. apply end_not_saved; [|done|done].
    by apply kinds_wrapf. }
  tale_step. destruct (NewOrder _ _ _ _) as [o err] eqn:Hn.
  apply wp_bind, tale_observe_since. destruct err as [err|].
  - destruct o as [o|]; [by apply NewOrder_inv in Hn as (_ & _ & _ & ? & _)|].
    apply NewOrder_None in Hn as (s & [= ->] & Hs). tale_step.
    apply (end_refused_at s); [|apply kinds_wrapf, kinds_sentinel].
    unfold validation_sentinels. set_solver.
  - destruct o as [o|]; [|by apply NewOrder_None in Hn as (? & ? & _)].
    pose proof (new_wf _ _ _ _ _ _ Hn) as Hwf. tale_step.
    apply NewOrder_inv in Hn as (_ & _ & _ & _ & ->).
    apply tale_processOrder; [done|done|done|by repeat constructor].
Qed.

(** ** The decorators follow the protocol *)

(** A usecase whose requests follow the protocol and end like that. *)
Class TellingUsecase (u : CreateOrderUsecase) : Prop :=
  telling ctx req : wp tale (uc_Execute u ctx req) (λ r g, ending g r) no_story.

#[global] Instance Interactor_telling : TellingUsecase Interactor.
Proof. intros ctx req. apply tale_Execute. Qed.

Lemma tale_traced {A} span (err : A → option error) (body : prog portE A) Q g :
  wp tale body Q g → wp tale (traced span err body) Q g.
Proof.
  intros Hb. unfold traced. eapply wp_bind_mono; [done|]. intros a g' Ha.
  apply wp_bind. destruct (err a); repeat tale_step; by apply Ha.
Qed.

Lemma tale_trigger_once {R} (e : portE R) g :
  may_call g e → wp tale (trigger e) (may_answer g e) g.
Proof. intros He. apply (wp_proper tale (trigger e ≫= Ret)); [done|]. by apply wp_trigger. Qed.

#[global] Instance core_telling : TellingUsecase core.
Proof.
  intros ctx req.
  refine (wp_interp _ _ _ _ TracingOrderRepository _ _ _ _ (tale_Execute ctx req)).
  intros R e g1 He. change (wp tale (TracingOrderRepository R e) (may_answer g1 e) g1).
  destruct e; try exact (tale_trigger_once _ _ He); cbn [TracingOrderRepository];
    tale_step; destruct r as [ctx' span]; apply tale_traced.
  - exact (tale_trigger_once (Save ctx' order) g1 He).
  - exact (tale_trigger_once (SaveIfStatus ctx' order expected) g1 He).
  - exact (tale_trigger_once (FindByID ctx' id) g1 He).
Qed.

#[global] Instance MetricsInteractor_telling u `{!TellingUsecase u} : TellingUsecase (MetricsInteractor u).
Proof.
  intros ctx req. simpl. eapply wp_bind_mono; [apply telling|].
  intros [[o|] err] g' Hr; cbv zeta; repeat tale_step; done.
Qed.

Lemma tale_Info ctx msg kv (k : unit → prog portE (option Order * option error)) Q g :
  msg = "CreateOrder.request" ∨ msg = "CreateOrder.response" →
  wp tale (k tt) Q g → wp tale (trigger (Info ctx msg kv) ≫= k) Q g.
Proof. intros Hm Hk. apply wp_trigger; [by destruct Hm; [left|right; left]|]. by intros [] g' ->. Qed.

#[global] Instance LoggingInteractor_telling u `{!TellingUsecase u} : TellingUsecase (LoggingInteractor u).
Proof.
  intros ctx req. simpl. tale_step. apply tale_Info; [by left|].
  eapply wp_bind_mono; [apply telling|].
  intros [order [err|]] g' Hr; tale_step; cbv zeta; [tale_step; by tale_step|].
  destruct order as [o|]; [|by inversion Hr]. tale_step.
  apply tale_Info; [by right|]. by tale_step.
Qed.

#[global] Instance TracingInteractor_telling u `{!TellingUsecase u} : TellingUsecase (TracingInteractor u).
Proof. intros ctx req. simpl. tale_step. destruct r. apply tale_traced, telling. Qed.

Lemma createOrder_telling : TellingUsecase createOrder.
Proof. apply _. Qed.

(** C7: Every execution of a create-order request through the deployed stack,
stopped at any call or run to its end, makes its calls in order: one insert of
the validated pending order before anything else, one charge and only for that
stored order and its total, one reservation and only once the paid state is
stored, conditional saves only to the status the answer just received calls for,
and domain events only for the state just stored; and when it returns, its
result is one of the eight endings and says truly what was done. *)
Theorem request_tells_its_story (ctx : Ctx) (req : option CreateOrderRequest.t)
    (tr : list (call portE)) (o : outcome (option Order * option error)) (g : story)
    (ran : exec (uc_Execute createOrder ctx req) tr o)
    (answered : follows tale no_story tr g) :
  (∀ tr1 c tr2, tr = tr1 ++ c :: tr2 →
     ∃ g1, follows tale no_story tr1 g1 ∧ call_allowed tale g1 c) ∧
  match o with
  | Returned r => ending g r
  | Panicked _ => False
  | Interrupted => True
  end.
Proof. exact (wp_exec tale _ _ _ _ _ _ (createOrder_telling ctx req) ran answered). Qed.

(** ** Witness: a request that is charged and completed *)

Definition demo_story : prog portE (option Order * option error) :=
  uc_Execute createOrder demo_ctx demo_request.
Definition demo_tale_trace : list (call portE) :=
  run_trace (demo_handler healthy) demo_story (wld demo_start).
Definition demo_tale_result : outcome (option Order * option error) :=
  (run (demo_handler healthy) demo_story (wld demo_start)).1.

(** The story a list of calls tells. *)
Definition retell_call (g : story) (c : call portE) : story :=
  match c with
  | Call e r =>
      match e in portE R return R → story with
      | Save _ o => λ err, mkStory (Some o) (match err with None => Some o | _ => None end) None None
      | SaveIfStatus _ o _ => λ ans, match ans with (true, None) => store o g | _ => g end
      | Charge _ _ => λ ans, mkStory (tried g) (stored g) (Some ans) (reserve_answer g)
      | Reserve _ _ => λ ans, mkStory (tried g) (stored g) (charge_answer g) (Some ans)
      | _ => λ _, g
      end r
  end.

Lemma demo_tale_follows :
  follows tale no_story demo_tale_trace (foldl retell_call no_story demo_tale_trace).
Proof.
  let t := eval vm_compute in demo_tale_trace in change demo_tale_trace with t.
  match goal with |- follows _ _ _ ?g => let g' := eval vm_compute in g in change g with g' end.
  cbn [follows].
  repeat (eexists; split; [first [reflexivity|split; [exact I|reflexivity]]|]). reflexivity.
Qed.

Lemma request_tells_its_story_witness :
  ∃ o g, demo_tale_result = Returned (Some o, None) ∧ Status o = OrderStatusCompleted ∧
    ending g (Some o, None).
Proof.
  pose proof (request_tells_its_story demo_ctx demo_request demo_tale_trace demo_tale_result _
    (run_exec (demo_handler healthy) demo_story (wld demo_start)) demo_tale_follows) as [_ H].
  do 2 eexists. split; [vm_compute; reflexivity|]. split; [vm_compute; reflexivity|].
  exact H.
Defined.
