(* ===== verification/Transparency.v ===== *)
(** * What the decorators add

Metrics, logging and tracing change neither the result of the usecase nor the
calls it makes to the store and the services: a complete execution of the
deployed stack is one of the bare usecase with the decorators' own calls around
it, each made exactly once and about the result it reports. *)

From S2P Require Import Prelude GoValues Prog Domain Ports CreateOrder Decorators System Simulator.

(** ** What each decorator calls *)

(** The end of a span: its error, if any, and [End]. *)
Definition closing (span : Span) (err : option error) : list (call portE) :=
  match err with
  | Some err => [Call (RecordError span err) tt; Call (End_ span) tt]
  | None => [Call (End_ span) tt]
  end.

(** The span that [TracingOrderRepository] puts around a repository call. *)
Inductive traced_call : call portE → list (call portE) → Prop :=
| traced_Save ctx o r ctx' span :
    traced_call (Call (Save ctx o) r)
      (Call (Start ctx "orders.repository.save") (ctx', span) :: Call (Save ctx' o) r ::
       closing span r)
| traced_SaveIfStatus ctx o expected r ctx' span :
    traced_call (Call (SaveIfStatus ctx o expected) r)
      (Call (Start ctx "orders.repository.save_if_status") (ctx', span) ::
       Call (SaveIfStatus ctx' o expected) r :: closing span r.2)
| traced_FindByID ctx id r ctx' span :
    traced_call (Call (FindByID ctx id) r)
      (Call (Start ctx "orders.repository.find_by_id") (ctx', span) ::
       Call (FindByID ctx' id) r :: closing span r.2)
| traced_other R (e : portE R) r :
    match e with Save _ _ | SaveIfStatus _ _ _ | FindByID _ _ => False | _ => True end →
    traced_call (Call e r) [Call e r].

Inductive traced_calls : list (call portE) → list (call portE) → Prop :=
| traced_nil : traced_calls [] []
| traced_cons c cs tr tr' :
    traced_call c cs → traced_calls tr tr' → traced_calls (c :: tr) (cs ++ tr').

(** The one count of a request that has an order to show. *)
Definition counted (req : option CreateOrderRequest.t) (r : option Order * option error)
    : list (call portE) :=
  match r.1 with
  | Some o =>
      [Call (IncOrdersCreated
               (if ⟦r.2 = None ∧ Status o = OrderStatusCompleted⟧ then "success" else "failure")
               (tier_label req)) tt]
  | None => []
  end.

(** The two log lines of a request. *)
Definition logged_request (ctx : Ctx) (req : option CreateOrderRequest.t) : call portE :=
  Call (Info ctx "CreateOrder.request"
    [VString "item_count";
     VInt (match req with Some req => Z.of_nat (length (CreateOrderRequest.Items req)) | None => 0 end);
     VString "customer_tier"; VString (tier_label req)]) tt.

Definition logged_response (ctx : Ctx) (took : Duration) (r : option Order * option error)
    : call portE :=
  let ms := [VString "duration_ms"; VInt64 (Milliseconds took)] in
  match r with
  | (None, Some err) =>
      Call (LogError ctx "CreateOrder.response" err
        (ms ++ [VString "outcome"; VString "failure"])) tt
  | (Some o, Some err) =>
      Call (LogError ctx "CreateOrder.response" err
        (ms ++ [VString "outcome"; VString "failure"; VString "order_id"; VString (ID o);
                VString "last_known_status"; VString (Status o)])) tt
  | (Some o, None) =>
      Call (Info ctx "CreateOrder.response"
        (ms ++ [VString "outcome";
                VString (if ⟦Status o = OrderStatusCompleted⟧ then "success" else "failure");
                VString "order_id"; VString (ID o); VString "status"; VString (Status o)])) tt
  | (None, None) => Call Now 0%Z
  end.

(** ** Each decorator *)

Lemma exec_last {E R A} (e : E R) (a : A) tr b :
  exec (trigger e ≫= λ _, mret a) tr (Returned b) ↔ ∃ r, tr = [Call e r] ∧ b = a.
Proof.
  rewrite exec_trigger. setoid_rewrite exec_ret. naive_solver.
Qed.

Lemma exec_traced {A} span (err : A → option error) (body : prog portE A) tr a :
  exec (traced span err body) tr (Returned a) ↔
  ∃ tr0, exec body tr0 (Returned a) ∧ tr = tr0 ++ closing span (err a).
Proof.
  unfold traced. rewrite exec_bind. split.
  - intros (a' & tr1 & tr2 & -> & H1 & H2). unfold closing. destruct (err a') as [e|] eqn:He.
    + apply exec_trigger in H2 as ([] & tr3 & -> & H2). apply exec_last in H2 as ([] & -> & ->).
      rewrite He. eauto.
    + apply exec_last in H2 as ([] & -> & ->). rewrite He. eauto.
  - intros (tr0 & H & ->). exists a, tr0, (closing span (err a)). split_and!; [done|done|].
    unfold closing. destruct (err a) as [e|].
    + apply exec_trigger. do 2 eexists. split; [done|]. apply exec_last. eauto.
    + apply exec_last. eauto.
Qed.

Lemma exec_single {E R} (e : E R) tr r : exec (trigger e) tr (Returned r) ↔ tr = [Call e r].
Proof.
  simpl. split.
  - intros [[_ ?]|(r' & tr' & -> & [[_ ?]|[-> [= ->]]])]; done.
  - intros ->. right. exists r, []. auto.
Qed.

Lemma exec_TracingOrderRepository R (e : portE R) tr r :
  exec (TracingOrderRepository R e) tr (Returned r) → traced_call (Call e r) tr.
Proof.
  destruct e; cbn [TracingOrderRepository];
    try (intros ->%exec_single; by constructor);
    intros ([ctx' span] & tr' & -> & (tr0 & ->%exec_single & ->)%exec_traced)%exec_trigger;
    constructor.
Qed.

Lemma exec_traced_repository {A} (p : prog portE A) tr a :
  exec (interp TracingOrderRepository p) tr (Returned a) →
  ∃ tr0, exec p tr0 (Returned a) ∧ traced_calls tr0 tr.
Proof.
  revert tr. induction p as [a'|msg|R e k IH]; intros tr.
  - intros [-> ->]%exec_ret. exists []. split; [by apply exec_ret|constructor].
  - intros [[_ ?]|[_ ?]]; done.
  - intros (r & tr1 & tr2 & -> & He%exec_TracingOrderRepository & Hk)%(exec_bind (TracingOrderRepository R e)).
    apply IH in Hk as (tr0 & Hk & Ht). exists (Call e r :: tr0). split; [right; eauto|by constructor].
Qed.

Lemma exec_MetricsInteractor u ctx req tr r :
  exec (uc_Execute (MetricsInteractor u) ctx req) tr (Returned r) →
  ∃ tr0, exec (uc_Execute u ctx req) tr0 (Returned r) ∧ tr = tr0 ++ counted req r.
Proof.
  intros ([o err] & tr1 & tr2 & -> & Hu & Hm)%exec_bind. exists tr1. destruct o as [o|].
  - apply exec_last in Hm as ([] & -> & ->). by split.
  - apply exec_ret in Hm as [-> ->]. by split.
Qed.

Lemma exec_LoggingInteractor u ctx req tr r :
  exec (uc_Execute (LoggingInteractor u) ctx req) tr (Returned r) →
  ∃ start stop tr0, exec (uc_Execute u ctx req) tr0 (Returned r) ∧
    tr = Call Now start :: logged_request ctx req ::
         tr0 ++ [Call Now stop; logged_response ctx (Sub stop start) r] ∧ r ≠ (None, None).
Proof.
  intros (start & tr1 & -> & H)%exec_trigger. apply exec_trigger in H as ([] & tr2 & -> & H).
  apply exec_bind in H as ([o err] & tr0 & tr3 & -> & Hu & H).
  apply exec_trigger in H as (stop & tr4 & -> & H). exists start, stop, tr0. cbv zeta in H.
  destruct err as [err|].
  - apply exec_last in H as ([] & -> & ->). split_and!; [done| |done]. by destruct o.
  - destruct o as [o|]; [|by destruct H as [[_ ?]|[_ ?]]].
    apply exec_last in H as ([] & -> & ->). by split_and!.
Qed.

(** C22: The decorators are transparent and report faithfully: every complete
execution of the deployed stack is an execution of the bare usecase with the
same answers and the same result, each repository call inside one span, and
around it exactly one root span, one request line before, and after it, if there
is an order, one count with the outcome and a bounded tier label, then one
response line about that result, the error recorded on the span, and its end. *)
Theorem decorators_are_transparent (ctx : Ctx) (req : option CreateOrderRequest.t)
    (tr : list (call portE)) (r : option Order * option error)
    (ran : exec (uc_Execute createOrder ctx req) tr (Returned r)) :
  ∃ ctx' span start stop bare traced,
    exec (Execute ctx' req) bare (Returned r) ∧ traced_calls bare traced ∧
    tr = [Call (Start ctx "CreateOrder.Execute") (ctx', span);
          Call Now start; logged_request ctx' req] ++
         traced ++ counted req r ++
         [Call Now stop; logged_response ctx' (Sub stop start) r] ++ closing span r.2 ∧
    r ≠ (None, None) ∧ tier_label req ∈ ["free"; "premium"; "unknown"].
Proof.
  apply exec_trigger in ran as ([ctx' span] & tr1 & -> & ran).
  apply exec_traced in ran as (tr2 & ran & ->).
  apply exec_LoggingInteractor in ran as (start & stop & tr3 & ran & -> & Hne).
  apply exec_MetricsInteractor in ran as (tr4 & ran & ->).
  apply exec_traced_repository in ran as (bare & ran & Ht).
  exists ctx', span, start, stop, bare, tr4. split_and!; [done|done| |done|].
  - simpl. by rewrite <- !app_assoc.
  - unfold tier_label, normalizedCustomerTier. destruct req as [req|]; [|set_solver].
    repeat case_bool_decide; set_solver.
Qed.

(** ** Witness *)

Definition demo_stack : prog portE (option Order * option error) :=
  uc_Execute createOrder demo_ctx demo_request.
Definition demo_completed : Order :=
  mkOrder demo_id "cust_1" example_items OrderStatusCompleted 7 "ref_1" [].

Lemma demo_stack_run :
  (run (demo_handler healthy) demo_stack (wld demo_start)).1 = Returned (Some demo_completed, None).
Proof. vm_compute. reflexivity. Qed.

Lemma demo_stack_exec :
  exec demo_stack (run_trace (demo_handler healthy) demo_stack (wld demo_start))
    (Returned (Some demo_completed, None)).
Proof. rewrite <- demo_stack_run. apply run_exec. Qed.

Lemma decorators_are_transparent_witness :
  ∃ ctx' bare, exec (Execute ctx' demo_request) bare (Returned (Some demo_completed, None)).
Proof.
  destruct (decorators_are_transparent demo_ctx demo_request _ _ demo_stack_exec)
    as (ctx' & _ & _ & _ & bare & _ & Hran & _).
  exists ctx', bare. exact Hran.
Defined.
