(* ===== verification/Recovery.v ===== *)
(** * Recovery makes progress

The liveness side of the reconciler, in the running system of System.v: paging
cannot starve an order, a failing order stops neither its page nor the worker,
and an order whose charge is settled reaches its final state within a number of
passes that the orders of the store and the failed calls bound, whatever the other
threads do meanwhile.  The worker is verified against a protocol ([watched]) that
sees of the world only the status of the order at stake and how many faults are
still to come; the system lives up to it. *)

From S2P Require Import Prelude GoValues Prog Domain Ports CreateOrder Reconciler Decorators Provider Store Safety System Simulator.

(** ** Counting *)

Section count.
Context {A : Type}.

Definition count (f : A → Prop) `{!∀ u, Decision (f u)} (l : list A) : nat := length (filter f l).

Lemma count_le f1 f2 `{!∀ u, Decision (f1 u), !∀ u, Decision (f2 u)} l :
  (∀ u, f1 u → f2 u) → count f1 l <= count f2 l.
Proof.
  intros Hf. unfold count. induction l as [|u l IH]; [done|]. rewrite !filter_cons.
  repeat case_decide; simpl; try lia. exfalso. auto.
Qed.

Lemma count_lt f1 f2 `{!∀ u, Decision (f1 u), !∀ u, Decision (f2 u)} l u :
  (∀ u, f1 u → f2 u) → u ∈ l → f2 u → ¬ f1 u → count f1 l < count f2 l.
Proof.
  intros Hf. unfold count. induction l as [|v l IH]; [by intros ?%elem_of_nil|].
  rewrite elem_of_cons, !filter_cons. intros [<-|Hin] H2 H1.
  - rewrite decide_False, decide_True by done. simpl.
    pose proof (count_le f1 f2 l Hf). unfold count in *. lia.
  - specialize (IH Hin H2 H1). repeat case_decide; simpl; try lia. exfalso. auto.
Qed.

Lemma count_disjoint f1 f2 `{!∀ u, Decision (f1 u), !∀ u, Decision (f2 u)} l :
  (∀ u, f1 u → f2 u → False) → count f1 l + count f2 l <= length l.
Proof.
  intros Hf. unfold count. induction l as [|u l IH]; [done|]. rewrite !filter_cons.
  repeat case_decide; simpl; try lia. exfalso. eauto.
Qed.
End count.

(** A status is recoverable until it is final. *)
Lemma recoverable_rank s : s ∈ recoverable_statuses ↔ s ∈ known_statuses ∧ rank s < 4.
Proof.
  unfold recoverable_statuses, known_statuses. rewrite !elem_of_cons, elem_of_nil. split.
  - intros Hs. destruct_or! Hs; subst; try done; (split; [tauto|vm_compute; lia]).
  - intros [Hs Hr]. destruct_or! Hs; subst; try done; try tauto; vm_compute in Hr; lia.
Qed.

Section recovery.
(** Text order, and the empty cursor before the order at stake. *)
Context (id_le : relation string) `{!RelDecision id_le, !PartialOrder id_le}.
(** The order at stake, with the settled state of its charge, among the ids that
are ever recoverable. *)
Context (x : string) (outcome : charge_state) (U : list string).
Context (x_after : strict id_le "" x).

(** ** The protocol

Between two calls of the worker the order may advance along the lifecycle by the
hand of others, and up to [faults] calls may be answered badly. *)

Record view := View { seen : OrderStatus; faults : nat }.

(** An answer that does its part, when the order is in [s] before the call and
in [s'] after it. *)
Definition well {R} (s s' : OrderStatus) (e : portE R) : R → Prop :=
  match e in portE R return R → Prop with
  | ctx_Err _ => λ ans, ans = None
  | ListRecoverableIDs _ afterID _ limit => λ ans,
      ∃ ids el, ans = (ids, None) ∧ page_spec id_le el afterID limit ids ∧
        (s ∈ recoverable_statuses → el x) ∧ ∀ id, el id → id ∈ U
  | FindByID _ id => λ ans, id = x → ∃ o, ans = (Some o, None) ∧ ID o = x ∧ Status o = s
  | LookupCharge _ key => λ ans, key = x → ∃ r, ans = (r, true, None) ∧ result_state r = Some outcome
  | SaveIfStatus _ o expected => λ ans, ID o = x →
      (ans = (true, None) ∧ s = expected ∧ s' = Status o) ∨ (ans = (false, None) ∧ s ≠ expected)
  | Reserve _ req => λ ans, InventoryRequest.IdempotencyKey req = x → ans = None
  | _ => λ _, True
  end.

(** What every answer keeps to. *)
Definition told {R} (e : portE R) : R → Prop :=
  match e in portE R return R → Prop with
  | FindByID _ _ => λ ans, match ans with (Some _, None) | (None, Some _) => True | _ => False end
  | _ => λ _, True
  end.

Definition watched_answer {R} (v : view) (e : portE R) (ans : R) (v' : view) : Prop :=
  rtc transition (seen v) (seen v') ∧ told e ans ∧
  (faults v = S (faults v') ∨
   faults v = faults v' ∧ ∃ s, rtc transition (seen v) s ∧ rtc transition s (seen v') ∧ well s (seen v') e ans).

(** The reconciler never charges and never inserts. *)
Definition watched_call {R} (v : view) (e : portE R) : Prop :=
  match e with Charge _ _ | Save _ _ => False | _ => True end.

Definition watched : protocol portE := Protocol portE view (@watched_call) (@watched_answer).

(** ** Views only rise *)

Definition rise (v v' : view) : Prop := rtc transition (seen v) (seen v') ∧ faults v' <= faults v.

#[local] Instance rise_preorder : PreOrder rise.
Proof. split; [by intros v; split|]. intros v1 v2 v3 [H1 H2] [H3 H4]. split; [by etrans|lia]. Qed.

(** The steps the order still has to take, and the faults it may still meet. *)
Definition measure (v : view) : nat := 4 - rank (seen v) + faults v.

Definition gains (v v' : view) : Prop := rise v v' ∧ measure v' < measure v.

Lemma rtc_rank s s' : rtc transition s s' → rank s <= rank s'.
Proof. intros [->|]%rtc_transition_rank; lia. Qed.

Lemma rise_measure v v' : rise v v' → measure v' <= measure v.
Proof. intros [H%rtc_rank Hf]. unfold measure. pose proof (rank_bound (seen v')). lia. Qed.

Lemma gains_rise v0 v v' : gains v0 v → rise v v' → gains v0 v'.
Proof. intros [H1 H2] H. split; [by etrans|]. apply rise_measure in H. lia. Qed.

Lemma rise_gains v0 v v' : rise v0 v → gains v v' → gains v0 v'.
Proof. intros H [H1 H2]. split; [by etrans|]. apply rise_measure in H. lia. Qed.

Lemma advance_gains v v' : rise v v' → rank (seen v) < rank (seen v') → gains v v'.
Proof.
  intros H Hr. split; [done|]. destruct H as [_ Hf]. unfold measure.
  pose proof (rank_bound (seen v')). lia.
Qed.

Lemma moved_gains v v' : rise v v' → seen v' ≠ seen v → gains v v'.
Proof.
  intros H Hne. apply advance_gains; [done|]. destruct H as [[Heq|]%rtc_transition_rank _]; [|done].
  by rewrite Heq in Hne.
Qed.

Lemma answer_rise {R} v (e : portE R) ans v' : watched_answer v e ans v' → rise v v'.
Proof. intros (Hr & _ & Hf). split; [done|]. destruct Hf as [->|[-> _]]; lia. Qed.

(** An answer that gains nothing is a good one that leaves the view alone. *)
Lemma answer_cases {R} v (e : portE R) ans v' : watched_answer v e ans v' →
  gains v v' ∨ v' = v ∧ well (seen v) (seen v) e ans.
Proof.
  intros H. pose proof (answer_rise _ _ _ _ H) as Hrise. destruct H as (Hr & _ & Hf).
  destruct (decide (seen v' = seen v)) as [Heq|]; [|left; by apply moved_gains].
  destruct Hf as [Hf|(Hf & s & H1 & H2 & Hw)].
  - left. split; [done|]. unfold measure. rewrite Heq, Hf. lia.
  - right. assert (s = seen v) as ->.
    { symmetry. apply rtc_transition_antisym; [by rewrite Heq in H2|done]. }
    rewrite Heq in Hw. split; [|done]. destruct v, v'; simpl in *. by subst.
Qed.

(** ** Rules *)

Definition rising {A} (p : prog portE A) : Prop := ∀ v, wp watched p (λ _, rise v) v.

Lemma rising_ret {A} (a : A) : rising (Ret a).
Proof. intros v. by apply wp_ret. Qed.

Lemma rising_call {R A} (e : portE R) (k : R → prog portE A) :
  (∀ v, watched_call v e) → (∀ r, told e r → rising (k r)) → rising (trigger e ≫= k).
Proof.
  intros Hc Hk v. apply wp_trigger; [apply Hc|]. intros r v' Hr.
  eapply wp_mono; [apply Hk; apply Hr|]. intros ? v'' H. simpl in *. etrans; [by eapply answer_rise|done].
Qed.

Lemma rising_trigger {R} (e : portE R) : (∀ v, watched_call v e) → rising (trigger e).
Proof.
  intros Hc v. apply (wp_proper _ (trigger e ≫= Ret)); [reflexivity|].
  apply rising_call; [done|]. intros r _. apply rising_ret.
Qed.

Lemma rising_bind {A B} (p : prog portE A) (f : A → prog portE B) :
  rising p → (∀ a, rising (f a)) → rising (p ≫= f).
Proof.
  intros Hp Hf v. eapply wp_bind_mono; [apply Hp|]. intros a v' H.
  eapply wp_mono; [apply Hf|]. intros ? v'' H'. simpl in *. by etrans.
Qed.

(** What is gained stays gained. *)
Lemma wp_gained {A} (p : prog portE A) v0 v :
  rising p → gains v0 v → wp watched p (λ _, gains v0) v.
Proof. intros Hp Hg. eapply wp_mono; [apply Hp|]. intros ? v' H. by eapply gains_rise. Qed.

Lemma gain_call {R A} (e : portE R) (k : R → prog portE A) v :
  watched_call v e → (∀ r, told e r → rising (k r)) →
  (∀ r, well (seen v) (seen v) e r → wp watched (k r) (λ _, gains v) v) →
  wp watched (trigger e ≫= k) (λ _, gains v) v.
Proof.
  intros Hc Hr Hk. apply wp_trigger; [done|]. intros r v' Ha.
  pose proof (proj1 (proj2 Ha)) as Ht. destruct (answer_cases _ _ _ _ Ha) as [Hg|[-> Hw]].
  - apply wp_gained; [by apply Hr|done].
  - by apply Hk.
Qed.

(** A conditional save of the order over the status it was seen in gains. *)
Lemma gain_save {A} ctx o v (k : bool * option error → prog portE A) :
  ID o = x → transition (seen v) (Status o) → (∀ r, rising (k r)) →
  wp watched (trigger (SaveIfStatus ctx o (seen v)) ≫= k) (λ _, gains v) v.
Proof.
  intros Hid Ht Hk. apply gain_call; [done|by intros|]. simpl. intros r Hr.
  destruct (Hr Hid) as [(_ & _ & Hs)|[_ Hs]]; [|done]. exfalso. apply (transition_irrefl (seen v)).
  by rewrite Hs at 2.
Qed.

Ltac rising_step :=
  match goal with
  | |- rising (mret _) => apply rising_ret
  | |- rising (Ret _) => apply rising_ret
  | |- rising (mret ?a ≫= ?f) => change (rising (f a)); cbv beta
  | |- rising (deref (Some ?a) ≫= ?f) => change (rising (f a)); cbv beta
  | |- rising (trigger (FindByID _ _) ≫= _) =>
      apply rising_call; [done|intros [[?|] [?|]]; cbn [told]; intros []]
  | |- rising (trigger _ ≫= _) => apply rising_call; [done|intros ? _]
  | |- rising (trigger _) => by apply rising_trigger
  | |- rising (_ ≫= _) => apply rising_bind; [|intros ?]
  | |- rising (match ?y with _ => _ end) => destruct y
  end; cbv zeta.

Lemma emit_each_rising ctx span es : rising (emit_each ctx span es).
Proof. induction es as [|e es IH]; cbn [emit_each]; repeat rising_step; done. Qed.

Lemma emitDomainEvents_rising ctx o : rising (emitDomainEvents ctx o).
Proof. unfold emitDomainEvents. repeat rising_step. apply emit_each_rising. Qed.

Lemma fulfill_rising ctx o : rising (fulfill ctx o).
Proof. unfold fulfill. repeat rising_step; apply emitDomainEvents_rising. Qed.

Lemma applyCharge_rising o result : rising (applyCharge o result).
Proof. unfold applyCharge. repeat rising_step. Qed.

Lemma reconcileOrder_rising ctx id : rising (reconcileOrder ctx id).
Proof.
  unfold reconcileOrder.
  repeat first [rising_step | apply applyCharge_rising | apply emitDomainEvents_rising | apply fulfill_rising].
Qed.

Lemma ReconcileOrder_rising ctx id : rising (ReconcileOrder ctx id).
Proof. unfold ReconcileOrder. repeat first [apply reconcileOrder_rising | rising_step]. Qed.

Lemma reconcilePage_rising ctx r ids fs : rising (reconcilePage ctx r ids fs).
Proof.
  revert r fs. induction ids as [|id ids IH]; intros r fs; cbn [reconcilePage]; [apply rising_ret|].
  apply rising_bind; [apply ReconcileOrder_rising|intros err]. apply IH.
Qed.

Lemma RunOnce_rising ctx r : rising (RunOnce ctx r).
Proof. unfold RunOnce. repeat first [rising_step | apply reconcilePage_rising]. Qed.

Lemma Run_rising ctx r ticks : rising (Run ctx r ticks).
Proof.
  revert r. induction ticks as [|ticks IH]; intros r; cbn [Run];
    repeat first [apply RunOnce_rising | apply IH | rising_step].
Qed.

Ltac rising_once := repeat first [rising_step | apply reconcilePage_rising].

(** ** A visit to the order *)

Context (outcome_final : match outcome with Approved ref => ref ≠ "" | Declined => True | _ => False end).

Ltac rising_tac :=
  repeat first [rising_step | apply applyCharge_rising | apply emitDomainEvents_rising | apply fulfill_rising].
Ltac reassoc :=
  match goal with
  | |- wp _ ((trigger ?e ≫= ?f) ≫= ?k) ?Q ?g =>
      change (wp watched (trigger e ≫= λ r, f r ≫= k) Q g); cbv beta
  end.
Ltac gain_step :=
  apply gain_call; [done|intros ? _; rising_tac|cbn [well]].

Lemma fulfill_gains ctx o v :
  ID o = x → Status o = seen v → Status o = OrderStatusPaid ∨ Status o = OrderStatusFulfillmentPending →
  wp watched (fulfill ctx o) (λ _, gains v) v.
Proof.
  intros Hid Hs Hst. unfold fulfill.
  gain_step. intros err Hw. rewrite Hw by done. cbv zeta. gain_step. intros now _.
  assert (transition (Status o) OrderStatusCompleted) as Ht by (destruct Hst as [-> | ->]; constructor).
  pose proof (apply_op_accept o (OpComplete now) Ht) as Hop. simpl in Hop. rewrite Hop, Hs.
  apply gain_save; [done|by rewrite <- Hs|]. intros ?. rising_tac.
Qed.

(** What a final outcome makes of an unpaid order, and then its save. *)
Lemma applyCharge_gains o result v (k : error + Order → prog portE (option error)) :
  ID o = x → Status o = seen v → Status o = OrderStatusPending ∨ Status o = OrderStatusPaymentUnknown →
  result_state result = Some outcome → (∀ a, rising (k a)) →
  (∀ o', ID o' = x → transition (seen v) (Status o') → wp watched (k (inr o')) (λ _, gains v) v) →
  wp watched (applyCharge o result ≫= k) (λ _, gains v) v.
Proof.
  intros Hid Hsv Hs Hr Hk Hgo. unfold applyCharge. unfold result_state in Hr.
  assert (transition (Status o) OrderStatusPaid ∧ transition (Status o) OrderStatusFailed)
    as [Htp Htf] by (destruct Hs as [-> | ->]; split; constructor).
  case_bool_decide as Ha.
  - injection Hr as Hr. rewrite bool_decide_eq_false_2 by (by rewrite <- Hr in outcome_final).
    reassoc. apply gain_call; [done|intros ? _; repeat first [apply Hk | rising_step]|intros now _].
    pose proof (apply_op_accept o (OpMarkPaid now (PaymentResult.Reference result)) Htp) as Hop.
    simpl in Hop. rewrite Hop. apply (Hgo (advance o _)); [done|by rewrite <- Hsv].
  - case_bool_decide; [|done].
    reassoc. apply gain_call; [done|intros ? _; repeat first [apply Hk | rising_step]|intros now _].
    pose proof (apply_op_accept o (OpMarkFailed now "payment_reconciled_declined") Htf) as Hop.
    simpl in Hop. rewrite Hop. apply (Hgo (advance o _)); [done|by rewrite <- Hsv].
Qed.

(** Reconciling the order gains a step, unless a fault was met. *)
Lemma reconcileOrder_gains ctx v :
  seen v ∈ recoverable_statuses → wp watched (reconcileOrder ctx x) (λ _, gains v) v.
Proof.
  intros Hrec. unfold reconcileOrder.
  apply gain_call; [done|intros [[?|] [?|]]; cbn [told]; intros []; rising_tac|cbn [well]; intros ans Hw].
  destruct (Hw eq_refl) as (o & -> & Hid & Hs). clear Hw. cbv beta iota.
  change (deref (Some o)) with (mret (M := prog portE) o). cbn [mret prog_mret mbind prog_mbind prog_bind].
  case_bool_decide as Hst; [|case_bool_decide as Hp].
  - apply (gain_call (LookupCharge ctx (ID o))); [done|intros ? _; rising_tac|cbn [well]; intros ans Hl].
    destruct (Hl Hid) as (result & -> & Hr). cbn [negb]. cbv zeta.
    apply applyCharge_gains; [done..|intros ?; rising_tac|]. intros o' Hid' Ht. rewrite Hs.
    apply gain_save; [done|done|]. intros ?. rising_tac.
  - by apply fulfill_gains.
  - exfalso. unfold recoverable_statuses in Hrec. rewrite !elem_of_cons, elem_of_nil, <- Hs in Hrec. tauto.
Qed.

Lemma ReconcileOrder_gains ctx v :
  seen v ∈ recoverable_statuses → wp watched (ReconcileOrder ctx x) (λ _, gains v) v.
Proof.
  intros Hrec. unfold ReconcileOrder. apply gain_call; [done|intros ? _|intros [ctx' span] _].
  - repeat first [apply reconcileOrder_rising | rising_step].
  - eapply wp_bind_mono; [by apply reconcileOrder_gains|]. intros err v' Hg.
    apply wp_gained; [rising_tac|done].
Qed.

(** ** Pages *)

Definition cursor_after (r : Reconciler) (ids : list string) : Reconciler :=
  mkReconciler (config r) (default (afterID r) (last ids)).

(** A page moves the cursor past its ids; one that holds the order gains. *)
Definition paged (v : view) (ids : list string) (v' : view) : Prop :=
  rise v v' ∧ (x ∈ ids → seen v ∈ recoverable_statuses → gains v v').

Lemma rise_final_gains v v' :
  seen v ∈ recoverable_statuses → rise v v' → seen v' ∉ recoverable_statuses → gains v v'.
Proof. intros Hr H Hn. apply moved_gains; [done|]. by intros Heq; rewrite Heq in Hn. Qed.

Lemma reconcilePage_paged ctx r ids fs v :
  wp watched (reconcilePage ctx r ids fs) (λ ret v', paged v ids v' ∧ ret.2 = cursor_after r ids) v.
Proof.
  revert r fs v. induction ids as [|id ids IH]; intros r fs v; cbn [reconcilePage]; cbv zeta.
  { apply wp_ret. split; [|by destruct r]. split; [done|]. by intros ?%elem_of_nil. }
  eapply (wp_bind_mono watched _ _ (λ _ (v' : view), rise v v' ∧ (id = x → seen v ∈ recoverable_statuses → gains v v'))).
  - destruct (decide (id = x ∧ seen v ∈ recoverable_statuses)) as [[-> Hrec]|Hn].
    + eapply wp_mono; [by apply ReconcileOrder_gains|]. by intros ? v' [H1 H2].
    + eapply wp_mono; [apply ReconcileOrder_rising|]. intros ? v' H. split; [done|tauto].
  - intros err v1 [Hr1 Hg1]. eapply wp_mono; [apply IH|]. intros [fs' r'] v' [[Hr Hg] Hcur].
    simpl in *. split; [split; [by etrans|]|].
    + intros Hin Hrec. apply elem_of_cons in Hin as [<-|Hin]; [eapply gains_rise; [by apply Hg1|done]|].
      destruct (decide (seen v1 ∈ recoverable_statuses)) as [H1|H1].
      * eapply rise_gains; [done|auto].
      * eapply gains_rise; [by apply rise_final_gains|done].
    + rewrite Hcur. unfold cursor_after. simpl. by rewrite last_cons; destruct (last ids).
Qed.

(** ** Passes

How far the cursor is from the order: the recoverable ids it still has to pass. *)

Definition distance (c : string) : nat :=
  if decide (strict id_le c x)
  then count (λ u, strict id_le c u ∧ strict id_le u x) U
  else count (λ u, strict id_le c u) U + 1 + count (λ u, strict id_le u x) U.

Lemma distance_bound c : distance c <= S (length U).
Proof.
  unfold distance. case_decide as Hc.
  - pose proof (count_disjoint (λ u, strict id_le c u ∧ strict id_le u x) (λ u, u ≠ u) U ltac:(naive_solver)).
    unfold count in *. lia.
  - pose proof (count_disjoint (λ u, strict id_le c u) (λ u, strict id_le u x) U).
    rewrite Nat.add_comm, Nat.add_assoc. unfold count in *. enough (∀ u, strict id_le c u → strict id_le u x → False) by (specialize (H H0); lia).
    intros u H1 H2. apply Hc. by trans u.
Qed.

(** A page that misses the order moves the cursor towards it. *)
Lemma page_closer el c limit ids :
  page_spec id_le el c limit ids → el x → (∀ id, el id → id ∈ U) → (0 < limit)%Z → x ∉ ids →
  ids ≠ [] → distance (default c (last ids)) < distance c.
Proof.
  intros [Hsort _ Hsound Hcomp] Hx HU Hlim Hnin Hne.
  destruct (last ids) as [c'|] eqn:Hlast; [|by apply last_None in Hlast]. simpl.
  assert (c' ∈ ids) as Hin by by apply last_Some_elem_of.
  rewrite Forall_forall in Hsound. destruct (Hsound _ Hin) as [Hcc' Hel].
  unfold distance. destruct (decide (strict id_le c x)) as [Hcx|Hcx].
  - destruct (Hcomp x Hcx Hx) as [?|[_ Hall]]; [done|]. rewrite Forall_forall in Hall.
    specialize (Hall _ Hin). rewrite decide_True by done.
    apply (count_lt _ _ U c'); [|by apply HU|done|].
    + intros u [H1 H2]. split; [by trans c'|done].
    + intros [[_ H] _]. by apply H.
  - rewrite decide_False. 2: { intros H. apply Hcx. by trans c'. }
    pose proof (count_lt (λ u, strict id_le c' u) (λ u, strict id_le c u) U c'
      ltac:(intros u H; by trans c') (HU _ Hel) Hcc' ltac:(intros [_ H]; by apply H)). lia.
Qed.

(** The first page, after the cursor passed every id. *)
Lemma wrapped_page_closer el c limit ids :
  page_spec id_le el "" limit ids → el x → (0 < limit)%Z → x ∉ ids → ¬ strict id_le c x →
  distance (default "" (last ids)) < distance c.
Proof.
  intros [_ _ Hsound Hcomp] Hx Hlim Hnin Hcx.
  destruct (Hcomp x x_after Hx) as [?|[Hlen Hall]]; [done|].
  destruct (last ids) as [c'|] eqn:Hlast; [|apply last_None in Hlast; subst; simpl in Hlen; lia].
  simpl. rewrite Forall_forall in Hall. unfold distance.
  rewrite decide_True by (by apply Hall, last_Some_elem_of). rewrite decide_False by done.
  pose proof (count_le (λ u, strict id_le c' u ∧ strict id_le u x) (λ u, strict id_le u x) U
    ltac:(by intros u [_ ?])). lia.
Qed.

(** What one pass achieves while the order waits: a step gained, or a cursor that
is closer. *)
Definition progress (c : string) (v : view) (c' : string) (v' : view) : Prop :=
  rise v v' ∧ (seen v ∈ recoverable_statuses → gains v v' ∨ distance c' < distance c).

Abbreviation progresses c v p := (wp watched p (λ ret v', progress c v (afterID ret.2) v') v).

Lemma progress_call {R} (e : portE R) (k : R → prog portE (option error * Reconciler)) c v :
  watched_call v e → (∀ r, told e r → rising (k r)) →
  (∀ r, well (seen v) (seen v) e r → progresses c v (k r)) → progresses c v (trigger e ≫= k).
Proof.
  intros Hc Hr Hk. apply wp_trigger; [done|]. intros r v' Ha.
  pose proof (proj1 (proj2 Ha)) as Ht. destruct (answer_cases _ _ _ _ Ha) as [Hg|[-> Hw]]; [|by apply Hk].
  eapply wp_mono; [by apply wp_gained; [apply Hr|]|]. intros ret v'' Hg'. split; [apply Hg'|by left].
Qed.

Lemma page_progress ctx c r ids v :
  (seen v ∈ recoverable_statuses → x ∉ ids → distance (default (afterID r) (last ids)) < distance c) →
  progresses c v ('(failures, r) ← reconcilePage ctx r ids []; mret (errors_Join failures, r)).
Proof.
  intros Hd. eapply wp_bind_mono; [apply reconcilePage_paged|].
  intros [fs r'] v' [[Hr Hg] Hr']. simpl in Hr'. subst r'. apply wp_ret.
  split; [done|]. intros Hrec. simpl. destruct (decide (x ∈ ids)); [left|right]; auto.
Qed.

Lemma RunOnce_progress ctx r v :
  (0 < ReconcilerConfig.BatchSize (config r))%Z → progresses (afterID r) v (RunOnce ctx r).
Proof.
  intros Hb. unfold RunOnce. apply progress_call; [done|intros ? _; rising_once|cbn [well]; intros ? ->].
  apply progress_call; [done|intros ? _; rising_once|intros now _]. cbv zeta.
  apply progress_call; [done|intros ? _; rising_once|cbn [well]].
  intros ans (ids & el & -> & Hpage & Hx & HU). case_bool_decide as Hwrap.
  - destruct Hwrap as [Hids%nil_length_inv Hne]. subst ids.
    apply progress_call; [done|intros ? _; rising_once|cbn [well]].
    intros ans (ids & el' & -> & Hpage' & Hx' & HU'). apply page_progress. intros Hrec Hnin.
    apply Hx in Hrec as Helx. apply Hx' in Hrec. eapply wrapped_page_closer; [done..|]. intros Hlt.
    destruct (page_complete _ _ _ _ _ Hpage x Hlt Helx) as [?%elem_of_nil|[? _]]; [done|].
    simpl in *. lia.
  - apply page_progress. intros Hrec Hnin. apply Hx in Hrec as Helx.
    eapply page_closer; try done. intros ->. apply Hwrap. split; [done|]. intros Hc0.
    rewrite Hc0 in Hpage.
    destruct (page_complete _ _ _ _ _ Hpage x x_after Helx) as [?%elem_of_nil|[? _]]; [done|].
    simpl in *. lia.
Qed.

Lemma RunOnce_config ctx r v : wp watched (RunOnce ctx r) (λ ret _, config ret.2 = config r) v.
Proof.
  assert (∀ r ids v, wp watched ('(failures, r) ← reconcilePage ctx r ids []; mret (errors_Join failures, r))
    (λ ret _, config ret.2 = config r) v) as Hpage.
  { intros r1 ids v1. eapply wp_bind_mono; [apply reconcilePage_paged|]. intros [fs r'] v' [_ Hr']. simpl in Hr'. by subst. }
  unfold RunOnce. apply wp_trigger; [done|]. intros [err|] v1 _; [done|].
  apply wp_trigger; [done|]. intros now v2 _. cbv zeta.
  apply wp_trigger; [done|]. intros [ids [err|]] v3 _; [done|].
  case_bool_decide; [|apply Hpage].
  apply wp_trigger; [done|]. intros [ids' [err|]] v4 _; [done|]. apply (Hpage (set_afterID "" r)).
Qed.

(** ** The worker *)

(** The end of an iteration of the loop. *)
Definition log_failure (ctx : Ctx) (err : option error) : prog portE () :=
  match err with
  | Some err =>
      ctxErr ← trigger (ctx_Err ctx);
      match ctxErr with
      | None => trigger (LogError ctx "reconciliation.batch_failed" err [])
      | Some _ => mret tt
      end
  | None => mret tt
  end.

Lemma log_failure_rising ctx err : rising (log_failure ctx err).
Proof. unfold log_failure. repeat rising_step. Qed.

(** Enough passes for every step and fault, from a cursor. *)
Definition passes_for (v : view) (c : string) : nat := measure v * (length U + 2) + distance c.

Lemma passes_for_progress c v c' v' :
  seen v ∈ recoverable_statuses → progress c v c' v' →
  passes_for v' c' < passes_for v c.
Proof.
  intros Hrec [Hr H]. unfold passes_for. pose proof (distance_bound c'). apply rise_measure in Hr.
  destruct (H Hrec) as [[_ Hg]|Hd]; nia.
Qed.

Lemma settled_stays v v' :
  seen v ∈ known_statuses → seen v ∉ recoverable_statuses → rise v v' → seen v' ∉ recoverable_statuses.
Proof.
  rewrite !recoverable_rank. intros Hk Hn [Hr%rtc_rank _] [_ Hlt]. apply Hn. split; [done|lia].
Qed.

Lemma rise_known v v' : seen v ∈ known_statuses → rise v v' → seen v' ∈ known_statuses.
Proof.
  intros Hk [Hr _]. revert Hk. induction Hr as [|s1 s2 s3 Ht _ IH]; intros Hk; [done|].
  apply IH. apply (transition_known _ _ Ht).
Qed.

Lemma passes_for_rise v v' c : rise v v' → passes_for v' c <= passes_for v c.
Proof. intros H%rise_measure. unfold passes_for. nia. Qed.

(** A pass and its log entry. *)
Lemma iteration_progress ctx r v (k : Reconciler → prog portE Reconciler) (Q : Reconciler → view → Prop) :
  (0 < ReconcilerConfig.BatchSize (config r))%Z → seen v ∈ recoverable_statuses →
  (∀ r' v', config r' = config r → rise v v' → passes_for v' (afterID r') < passes_for v (afterID r) →
     wp watched (k r') Q v') →
  wp watched ('(err, r) ← RunOnce ctx r; _ ← log_failure ctx err; k r) Q v.
Proof.
  intros Hb Hrec Hk.
  eapply wp_bind_mono; [apply wp_and; [by apply RunOnce_progress|apply RunOnce_config]|].
  intros [err r'] v1 [Hp Hcfg]. simpl in *.
  eapply wp_bind_mono; [apply log_failure_rising|]. intros ? v2 Hr. simpl in Hr.
  apply Hk; [done|by etrans; [apply Hp|]|].
  eapply Nat.le_lt_trans; [by apply passes_for_rise|]. by apply passes_for_progress.
Qed.

Lemma Run_settles ctx r ticks v :
  (0 < ReconcilerConfig.BatchSize (config r))%Z → seen v ∈ known_statuses →
  passes_for v (afterID r) <= ticks →
  wp watched (Run ctx r ticks) (λ _ v', seen v' ∉ recoverable_statuses) v.
Proof.
  revert r v. induction ticks as [|ticks IH]; intros r v Hb Hk He;
    (destruct (decide (seen v ∈ recoverable_statuses)) as [Hrec|Hn];
     [|eapply wp_mono; [apply Run_rising|]; intros ? v' Hr; by eapply settled_stays]).
  - apply (iteration_progress ctx r v mret); [done..|]. intros r' v' _ _ Hlt. lia.
  - apply (iteration_progress ctx r v (λ r, Run ctx r ticks)); [done..|]. intros r' v' Hcfg Hr Hlt.
    apply IH; [by rewrite Hcfg|by eapply rise_known|lia].
Qed.

Lemma measure_bound v : measure v <= 4 + faults v.
Proof. unfold measure. lia. Qed.

Lemma NewReconciler_batch cfg : (0 < ReconcilerConfig.BatchSize (config (NewReconciler cfg)))%Z.
Proof.
  unfold NewReconciler. cbv zeta. destruct (ReconcilerConfig.MinAge cfg <=? 0)%Z; simpl;
    (destruct (ReconcilerConfig.BatchSize cfg <=? 0)%Z eqn:H; simpl; [lia|by apply Z.leb_gt in H]).
Qed.

(** The worker of [main], with any configuration and cursor. *)
Lemma worker_settles ctx cfg cursor ticks v :
  seen v ∈ known_statuses → (faults v + 5) * (length U + 2) <= ticks →
  wp watched (Run ctx (set_afterID cursor (NewReconciler cfg)) ticks)
    (λ _ v', seen v' ∉ recoverable_statuses) v.
Proof.
  intros Hk He. apply Run_settles; [apply NewReconciler_batch|done|]. simpl.
  unfold passes_for. pose proof (distance_bound cursor). pose proof (measure_bound v). nia.
Qed.
End recovery.

(** ** The worker in the system *)

Section converges.
Context {P : Type} `{!PaymentProvider P} (timestamptz : Time → Time).
Context (id_le : relation string) `{!RelDecision id_le, !PartialOrder id_le}.
(** The order at stake. *)
Context (x : string).

Abbreviation sys := (sys (P := P)).
Abbreviation world := (world (P := P)).

(** An answer of the world that does its part for the order: no call about it
fails, its charge is found, and the scan lists its page exactly, with a cutoff
that the order is old enough for. *)
Definition served_well (w : world) {R} (e : portE R) : R → Prop :=
  match e in portE R return R → Prop with
  | ctx_Err _ => λ ans, ans = None
  | ListRecoverableIDs _ afterID cutoff limit => λ ans,
      ∃ ids, ans = (ids, None) ∧ list_spec id_le (db w) afterID (timestamptz cutoff) limit ids ∧
        ∀ row, db w !! x = Some row → (CreatedAt row <= timestamptz cutoff)%Z
  | FindByID _ id => λ ans, id = x → ans.2 = None
  | LookupCharge _ key => λ ans, key = x → ∃ r, ans = (r, true, None) ∧ is_Some (result_state r)
  | SaveIfStatus _ o _ => λ ans, ID o = x → ans.2 = None
  | Reserve _ req => λ ans, InventoryRequest.IdempotencyKey req = x → ans = None
  | _ => λ _, True
  end.

(** Steps of the system in which thread [i] is not killed and at most [n] of its
calls are not served well; the other threads do as they please. *)
Inductive served (i : nat) : nat → sys → sys → Prop :=
| served_refl n s : served i n s s
| served_others n s1 s2 s3 :
    sys_step timestamptz s1 s2 → threads s2 !! i = threads s1 !! i → served i n s2 s3 → served i n s1 s3
| served_call n R (e : portE R) k r w w' ts s :
    ts !! i = Some (Vis e k) → port_step timestamptz w e r w' → served_well w e r →
    served i n (Sys w' (<[i := k r]> ts)) s → served i n (Sys w ts) s
| served_fault n R (e : portE R) k r w w' ts s :
    ts !! i = Some (Vis e k) → port_step timestamptz w e r w' →
    served i n (Sys w' (<[i := k r]> ts)) s → served i (S n) (Sys w ts) s.

Lemma served_steps i n s s' : served i n s s' → rtc (sys_step timestamptz) s s'.
Proof.
  induction 1; [done|by eapply rtc_l|eapply rtc_l; [by eapply step_call|done]..].
Qed.

Lemma served_weaken i a b s s' : served i a s s' → a <= b → served i b s s'.
Proof.
  intros H. revert b. induction H as [n s|n s1 s2 s3 Hst Hth _ IH|n R e k r w w' ts s Hi Hs Hw _ IH
    |n R e k r w w' ts s Hi Hs _ IH]; intros b Hb.
  - apply served_refl.
  - eapply served_others; [done|done|auto].
  - eapply served_call; [done|done|done|auto].
  - destruct b as [|b]; [lia|]. eapply served_fault; [done|done|apply IH; lia].
Qed.

(** A settled charge stays settled. *)
Lemma port_step_final w R (e : portE R) r w' k :
  port_step timestamptz w e r w' → final (ledger (prov w) k) → ledger (prov w') k = ledger (prov w) k.
Proof.
  intros Hs Hf. destruct e; simpl in Hs; try (by subst); try (by destruct Hs as (? & _ & ->)).
  - by destruct Hs as [_ ->].
  - destruct Hs as (p & Hp & ->). simpl. by apply charge_ok in Hp as [_ Hfin _ _]; apply Hfin.
  - destruct Hs as (p & Hp & ->). simpl. by apply lookup_ok in Hp as [Hfr _].
Qed.

Lemma sys_step_final s s' k :
  sys_step timestamptz s s' → final (ledger (prov (wld s)) k) →
  ledger (prov (wld s')) k = ledger (prov (wld s)) k.
Proof.
  intros [i R e k' r w w' ts Hi Hs|p w ts Hp|i w ts|w p ts Hp] Hf; simpl in *; [|done|done|].
  - by eapply port_step_final.
  - by apply settle_ok in Hp as [_ Hfin]; apply Hfin.
Qed.

Context (U : list string).

(** The world answers as the protocol has it. *)
Lemma port_step_told w R (e : portE R) r w' :
  port_step timestamptz w e r w' → told e r.
Proof. destruct e; try done. intros [Hf _]. by destruct r as [[] []]. Qed.

Lemma served_save_well w ctx o expected r w' row row' :
  port_step timestamptz w (SaveIfStatus ctx o expected) r w' → (ID o = x → r.2 = None) →
  db w !! x = Some row → db w' !! x = Some row' →
  well id_le x (ledger (prov w) x) U (Status row) (Status row') (SaveIfStatus ctx o expected) r.
Proof.
  intros (m & Hm & ->) Hw Hrow Hrow' Hid. specialize (Hw Hid). destruct r as [[] [err|]]; try done; simpl in *.
  - left. split; [done|]. apply store_cas_Some in Hm as (row1 & Hrow1 & <- & ->).
    rewrite Hid in *. rewrite lookup_insert_eq in Hrow'. simplify_eq. done.
  - right. split; [done|]. destruct Hm as [Hnone ->]. unfold store_cas in Hnone.
    rewrite Hid, Hrow in Hnone. by case_bool_decide.
Qed.

Lemma served_well_well w R (e : portE R) r w' row row' :
  port_step timestamptz w e r w' → served_well w e r →
  (∀ id, id ∈ dom (db w) → id ∈ U) → db w !! x = Some row → db w' !! x = Some row' → ID row = x →
  well id_le x (ledger (prov w) x) U (Status row) (Status row') e r.
Proof.
  intros Hs Hw HU Hrow Hrow' Hid. destruct e; try done.
  - by eapply served_save_well.
  - intros Hx. specialize (Hw Hx). destruct Hs as [Hf ->]. destruct r as [[o|] [err|]]; try done.
    simpl in Hf. rewrite Hx, Hrow in Hf. injection Hf as <-. by exists row.
  - destruct Hw as (ids & -> & Hpage & Hold). exists ids, (recoverable (db w) (timestamptz olderThan)).
    split_and!; [done|done| |].
    + intros Hrec. exists row. split_and!; [done|by apply Hold|done].
    + intros id (o & Ho & _). apply HU, elem_of_dom. by eexists.
  - intros Hx. destruct (Hw Hx) as (res & -> & [c Hc]). exists res. split; [done|].
    destruct Hs as (p & Hp & _). apply lookup_ok in Hp as [_ Hans].
    specialize (Hans c eq_refl eq_refl Hc). by rewrite Hx in Hans; rewrite Hans.
Qed.

(** Nothing the others do to the order harms the worker. *)
Lemma watched_answer_earlier c {R} (e : portE R) r v v1 v' :
  rise v v1 → faults v1 = faults v → watched_answer id_le x c U v1 e r v' → watched_answer id_le x c U v e r v'.
Proof.
  intros [H1 _] Hf (H2 & Ht & Hw). rewrite Hf in Hw. split; [by etrans|]. split; [done|].
  destruct Hw as [?|(? & s & Hs & ? & ?)]; [by left|]. right. split; [done|]. exists s.
  split_and!; [by etrans|done..].
Qed.

Lemma wp_others {A} c (p : prog portE A) (Q : A → view → Prop) v v1 :
  (∀ a v1 v2, Q a v1 → rise v1 v2 → Q a v2) → rise v v1 → faults v1 = faults v →
  wp (watched id_le x c U) p Q v → wp (watched id_le x c U) p Q v1.
Proof.
  intros HQ Hr Hf. destruct p as [a|m|R e k]; [by intros H; eapply HQ|done|].
  intros [Ha Hk]. split; [done|]. intros r v' H. apply Hk. by eapply watched_answer_earlier.
Qed.

Lemma sys_ok_row s id row : sys_ok s → db (wld s) !! id = Some row → row_ok (wld s) id row.
Proof. intros (gs & Hw & _). by apply (rows_ok _ _ Hw). Qed.

Lemma step_row s s' row : sys_ok s → sys_step timestamptz s s' → db (wld s) !! x = Some row →
  sys_ok s' ∧ ∃ row', db (wld s') !! x = Some row' ∧ rtc transition (Status row) (Status row').
Proof.
  intros Hok Hs Hrow. destruct (sys_step_keeps _ _ _ Hok Hs) as [Hok' Hle]. split; [done|].
  destruct (Hle _ _ Hrow) as (row' & Hrow' & _ & _ & _ & _ & Ht & _). by exists row'.
Qed.

(** The worker's own call. *)
Lemma own_call i R (e : portE R) k r w w' ts row :
  sys_ok (Sys w ts) → ts !! i = Some (Vis e k) → port_step timestamptz w e r w' →
  db w !! x = Some row → final (ledger (prov w) x) →
  sys_ok (Sys w' (<[i:=k r]> ts)) ∧ <[i:=k r]> ts !! i = Some (k r) ∧
  ledger (prov w') x = ledger (prov w) x ∧
  ∃ row', db w' !! x = Some row' ∧ rtc transition (Status row) (Status row').
Proof.
  intros Hok Hi Hs Hrow Hfin.
  destruct (step_row (Sys w ts) (Sys w' (<[i:=k r]> ts)) row Hok) as [Hok' Hrow']; [by eapply step_call|done|].
  split_and!; [done| |by eapply port_step_final|done].
  apply list_lookup_insert_eq. by eapply lookup_lt_Some.
Qed.

Lemma served_ids i n s s' : sys_ok s → served i n s s' →
  (∀ id, id ∈ dom (db (wld s')) → id ∈ U) → ∀ id, id ∈ dom (db (wld s)) → id ∈ U.
Proof.
  intros Hok Hs HU id [o Ho]%elem_of_dom. apply HU.
  destruct (steps_keep timestamptz s s' Hok) as [_ Hle]; [by eapply served_steps|].
  destruct (Hle _ _ Ho) as (o' & Ho' & _). apply elem_of_dom. by eexists.
Qed.

(** The worker keeps its postcondition in sight along its steps. *)
Lemma served_wp (Q : thread_result → view → Prop) i n (s s' : sys) :
  (∀ a v1 v2, Q a v1 → rise v1 v2 → Q a v2) →
  served i n s s' → ∀ p row f, sys_ok s → threads s !! i = Some p → db (wld s) !! x = Some row →
  final (ledger (prov (wld s)) x) → (∀ id, id ∈ dom (db (wld s')) → id ∈ U) → n <= f →
  wp (watched id_le x (ledger (prov (wld s)) x) U) p Q (View (Status row) f) →
  ∃ p' row' f', threads s' !! i = Some p' ∧ db (wld s') !! x = Some row' ∧
    wp (watched id_le x (ledger (prov (wld s)) x) U) p' Q (View (Status row') f').
Proof.
  intros HQ Hserved. induction Hserved as [n s|n s1 s2 s3 Hst Hth Hrest IH|n R e k r w w' ts s Hi Hs Hw Hrest IH
    |n R e k r w w' ts s Hi Hs Hrest IH]; intros p row f Hok Hp Hrow Hfin HU Hf Hwp.
  - by exists p, row, f.
  - destruct (step_row _ _ _ Hok Hst Hrow) as (Hok2 & row2 & Hrow2 & Ht).
    pose proof (sys_step_final _ _ x Hst Hfin) as Hled. rewrite <- Hled in *.
    apply (IH p row2 f); try done; [by rewrite Hth|].
    apply (wp_others _ _ Q (View (Status row) f)); [done|by split|done|exact Hwp].
  - simpl in *. assert (p = Vis e k) as -> by congruence.
    destruct (own_call _ _ _ _ _ _ _ _ _ Hok Hi Hs Hrow Hfin) as (Hok2 & Hi2 & Hled & row2 & Hrow2 & Ht).
    rewrite <- Hled in Hwp, Hfin |- *. apply (IH (k r) row2 f); try done.
    apply Hwp. split; [done|]. split; [by eapply port_step_told|]. right. split; [done|]. exists (Status row).
    split_and!; [done|done|]. rewrite Hled. eapply served_well_well; try done.
    + eapply (served_ids i n (Sys w ts) s); [done|by eapply served_call|done].
    + by apply (row_id _ _ _ (sys_ok_row _ _ _ Hok Hrow)).
  - simpl in *. assert (p = Vis e k) as -> by congruence. destruct f as [|f]; [lia|].
    destruct (own_call _ _ _ _ _ _ _ _ _ Hok Hi Hs Hrow Hfin) as (Hok2 & Hi2 & Hled & row2 & Hrow2 & Ht).
    rewrite <- Hled in Hwp, Hfin |- *. apply (IH (k r) row2 f); try done; [lia|].
    apply Hwp. split; [done|]. split; [by eapply port_step_told|]. by left.
Qed.
End converges.

Section theorem.
Context {P : Type} `{!PaymentProvider P} (timestamptz : Time → Time).
Context (id_le : relation string) `{!RelDecision id_le, !PartialOrder id_le}.

Lemma steps_final s s' k :
  rtc (sys_step timestamptz) s s' → final (ledger (prov (wld s)) k) →
  ledger (prov (wld s')) k = ledger (prov (wld s)) k.
Proof.
  induction 1 as [|s1 s2 s3 Hst _ IH]; intros Hf; [done|].
  pose proof (sys_step_final _ _ _ k Hst Hf) as Heq. rewrite IH; [done|by rewrite Heq].
Qed.

Definition settled_known (_ : thread_result) (v : view) : Prop :=
  seen v ∈ known_statuses ∧ seen v ∉ recoverable_statuses.

Lemma settled_known_rise a v1 v2 : settled_known a v1 → rise v1 v2 → settled_known a v2.
Proof. intros [Hk Hn] Hr. split; [by eapply rise_known|by eapply settled_stays]. Qed.

(** The thread of a worker. *)
Definition worker_thread (ctx : Ctx) (cfg : ReconcilerConfig.t) (cursor : string) (ticks : nat) : prog portE thread_result :=
  _ ← Run ctx (set_afterID cursor (NewReconciler cfg)) ticks; mret None.

Lemma worker_thread_settles x outcome U ctx cfg cursor ticks v :
  strict id_le "" x → match outcome with Approved ref => ref ≠ "" | Declined => True | _ => False end →
  seen v ∈ known_statuses → (faults v + 5) * (length U + 2) <= ticks →
  wp (watched id_le x outcome U) (worker_thread ctx cfg cursor ticks) settled_known v.
Proof.
  intros Hx Hout Hk He. eapply wp_bind_mono.
  - apply wp_and; [by apply worker_settles|apply Run_rising].
  - intros r v' [Hn Hr]. split; [by eapply rise_known|done].
Qed.

(** A settled row that the invariant of the system allows. *)
Lemma settled_row_ok w id row :
  row_ok w id row → final (ledger (prov w) id) → Status row ∉ recoverable_statuses →
  match ledger (prov w) id with
  | Approved ref => Status row = OrderStatusCompleted ∧ PaymentReference row = ref
  | _ => Status row = OrderStatusFailed
  end.
Proof.
  intros [_ _ Hk Hp _ Hf] Hfin Hn.
  assert (Status row = OrderStatusCompleted ∨ Status row = OrderStatusFailed) as [Hs|Hs].
  { unfold recoverable_statuses in Hn. unfold known_statuses in Hk.
    rewrite !elem_of_cons, elem_of_nil in Hk. rewrite !elem_of_cons, elem_of_nil in Hn. tauto. }
  - rewrite Hp by (unfold settled_paid; tauto). done.
  - destruct (Hf Hs) as [Hl|[Hl _]]; rewrite Hl in *; done.
Qed.

(** Recovery converges.  In the running system, once the charge of a stored
order is settled, a worker with any configuration and cursor that runs to its end
leaves the order in its final state: completed with the reference of the charge, or
failed if it was declined.  The other threads (requests, other workers, retries,
crashes, late settlements) interleave with it and write as they please, and any
number [faults] of the worker's own calls may be answered badly; five passes more
than there are faults, times two more than there are orders, are enough. *)
Theorem recovery_converges (s s' : sys (P := P)) (i : nat) (ctx : Ctx) (cfg : ReconcilerConfig.t)
    (cursor x : string) (row : Order) (ticks faults : nat)
    (Hs : reachable timestamptz s)
    (worker : threads s !! i = Some (worker_thread ctx cfg cursor ticks))
    (stored : db (wld s) !! x = Some row) (named : strict id_le "" x)
    (settled : final (ledger (prov (wld s)) x) ∧ ledger (prov (wld s)) x ≠ Approved "")
    (runs : served timestamptz id_le x i faults s s') (ended : threads s' !! i = Some (Ret None))
    (enough : (faults + 5) * (size (db (wld s')) + 2) <= ticks) :
  ∃ row', db (wld s') !! x = Some row' ∧
    match ledger (prov (wld s)) x with
    | Approved ref => Status row' = OrderStatusCompleted ∧ PaymentReference row' = ref
    | _ => Status row' = OrderStatusFailed
    end.
Proof.
  destruct settled as [Hfin Hne]. pose proof (reachable_ok _ _ Hs) as Hok.
  set (U := elements (dom (db (wld s')))).
  destruct (served_wp timestamptz id_le x U settled_known i faults s s' settled_known_rise runs
    (worker_thread ctx cfg cursor ticks) row faults) as (p' & row' & f' & Hp' & Hrow' & Hwp); try done.
  - intros id Hid. by apply elem_of_elements.
  - apply worker_thread_settles; [done| | |].
    + destruct (ledger _ x); try done. by intros ->.
    + apply (row_status _ _ _ (sys_ok_row _ _ _ Hok stored)).
    + unfold U. change (length (elements (dom (db (wld s'))))) with (size (dom (db (wld s')))). by rewrite size_dom.
  - rewrite Hp' in ended. injection ended as ->. destruct Hwp as [_ Hn]. exists row'. split; [done|].
    pose proof (served_steps _ _ _ _ _ _ _ runs) as Hrun.
    destruct (steps_keep timestamptz s s' Hok Hrun) as [Hok' _].
    rewrite <- (steps_final s s' x Hrun Hfin). apply settled_row_ok; [by apply sys_ok_row| |done].
    by rewrite (steps_final s s' x Hrun Hfin).
Qed.
End theorem.

(** ** Witness *)

Abbreviation demo_served := (served (P := gmap string charge_state) id String.le).

(** Whether [demo_handler] answers a call well for the order [x]. *)
Definition demo_serves (d : demo) (x : string) {R} (e : portE R) (w : demo_world) : bool :=
  match e with
  | ListRecoverableIDs _ _ cutoff _ =>
      match db w !! x with Some row => ⟦(CreatedAt row <= cutoff)%Z⟧ | None => false end
  | FindByID _ _ => ⟦is_Some (db w !! x)⟧
  | LookupCharge _ _ =>
      match ledger_map (prov w) x with Approved _ | Declined => true | _ => false end
  | Reserve _ _ => ⟦demo_reserve d = None⟧
  | _ => true
  end.

Lemma demo_serves_well d x R (e : portE R) w :
  demo_serves d x e w = true → served_well id String.le x w e (demo_handler d R e w).1.
Proof.
  destruct e; simpl; try done.
  - by destruct (store_cas _ _ _).
  - case_bool_decide as H; [|done]. intros _ ->. destruct H as [o Ho]. by rewrite Ho.
  - destruct (db w !! x) as [row|] eqn:Hrow; [|done]. case_bool_decide; [|done]. intros _.
    eexists. split; [done|]. split; [apply demo_selected_page|]. by intros ? [= <-].
  - intros H ->. destruct (ledger_map (prov w) x); try done; by (eexists; split; [done|eexists]).
  - case_bool_decide; [|done]. by intros.
Qed.

(** The calls answered badly among the next [n] of a program. *)
Fixpoint run_faults {A} (d : demo) (x : string) (n : nat) (p : prog portE A) (w : demo_world) : nat :=
  match n, p with
  | S n, Vis e k =>
      (if demo_serves d x e w then 0 else 1) +
      (let '(r, w') := demo_handler d _ e w in run_faults d x n (k r) w')
  | _, _ => 0
  end.

Lemma run_calls_served d x n i p w ts p' w' :
  ts !! i = Some p → run_calls (demo_handler d) n p w = (p', w') →
  demo_served x i (run_faults d x n p w) (Sys w ts) (Sys w' (<[i := p']> ts)).
Proof.
  revert p w ts. induction n as [|n IH]; intros p w ts Hi Hr; simpl in Hr.
  { simplify_eq. rewrite list_insert_id by done. apply served_refl. }
  destruct p as [a|m|R e k]; [simplify_eq; rewrite list_insert_id by done; apply served_refl..|].
  pose proof (demo_handler_ok d R e w) as Hstep. pose proof (demo_serves_well d x R e w) as Hw.
  simpl. destruct (demo_handler d R e w) as [r w1]. simpl in Hstep, Hw.
  assert (<[i := k r]> ts !! i = Some (k r)) as Hi1
    by (apply list_lookup_insert_eq; by eapply lookup_lt_Some).
  pose proof (IH (k r) w1 (<[i := k r]> ts) Hi1 Hr) as Hrest. rewrite list_insert_insert_eq in Hrest.
  destruct (demo_serves d x e w); [by eapply served_call; eauto|by eapply served_fault].
Qed.

Lemma served_trans x i a b s1 s2 s3 : demo_served x i a s1 s2 → demo_served x i b s2 s3 →
  demo_served x i (a + b) s1 s3.
Proof.
  intros H H'. revert H'. induction H as [n s|n s1 s2 s' Hst Hth _ IH|n R e k r w w' ts s Hi Hs Hw _ IH
    |n R e k r w w' ts s Hi Hs _ IH]; intros H'.
  - eapply served_weaken; [done|lia].
  - eapply served_others; [done|done|auto].
  - eapply served_call; [done|done|done|auto].
  - eapply (served_fault _ _ _ _ (n + b)); [done|done|auto].
Qed.

(** [n] more calls of a thread. *)
Definition resume (d : demo) (n i : nat) (s : demo_sys) : demo_sys :=
  match threads s !! i with
  | Some p => let '(p', w') := run_calls (demo_handler d) n p (wld s) in Sys w' (<[i := p']> (threads s))
  | None => s
  end.
Definition resume_faults (d : demo) (x : string) (n i : nat) (s : demo_sys) : nat :=
  match threads s !! i with Some p => run_faults d x n p (wld s) | None => 0 end.

Lemma resume_served d x n i s : demo_served x i (resume_faults d x n i s) s (resume d n i s).
Proof.
  unfold resume, resume_faults. destruct (threads s !! i) as [p|] eqn:Hi; [|apply served_refl].
  destruct (run_calls (demo_handler d) n p (wld s)) as [p' w'] eqn:Hr. destruct s as [w ts]. by apply run_calls_served.
Qed.

(** Another thread that is started and runs [n] calls. *)
Lemma run_calls_others d x n i j p w ts p' w' :
  i ≠ j → ts !! j = Some p → run_calls (demo_handler d) n p w = (p', w') →
  demo_served x i 0 (Sys w ts) (Sys w' (<[j := p']> ts)).
Proof.
  intros Hij. revert p w ts. induction n as [|n IH]; intros p w ts Hj Hr; simpl in Hr.
  { simplify_eq. rewrite list_insert_id by done. apply served_refl. }
  destruct p as [a|m|R e k]; [simplify_eq; rewrite list_insert_id by done; apply served_refl..|].
  pose proof (demo_handler_ok d R e w) as Hstep. destruct (demo_handler d R e w) as [r w1]. simpl in Hstep.
  assert (<[j := k r]> ts !! j = Some (k r)) as Hj1
    by (apply list_lookup_insert_eq; by eapply lookup_lt_Some).
  pose proof (IH (k r) w1 (<[j := k r]> ts) Hj1 Hr) as Hrest. rewrite list_insert_insert_eq in Hrest.
  eapply served_others; [by eapply step_call| |done]. by apply list_lookup_insert_ne.
Qed.

Lemma serve_served d x n i p s : spawnable p → i < length (threads s) → demo_served x i 0 s (serve d n p s).
Proof.
  intros Hp Hi. destruct s as [w ts]. simpl in Hi. unfold serve. simpl.
  destruct (run_calls (demo_handler d) n p w) as [p' w'] eqn:Hr.
  eapply served_others; [by apply step_spawn|by apply lookup_app_l|].
  replace (ts ++ [p']) with (<[length ts := p']> (ts ++ [p]))
    by (rewrite insert_app_r_alt, Nat.sub_diag by lia; done).
  eapply run_calls_others; [lia|by rewrite list_lookup_middle|done].
Qed.

(** A worker finds the order of a charge that timed out, and the inventory is down
at first.  Before the next calls another request is served, which draws the same
id. *)
Definition out_of_stock : demo := an_hour_later (mkDemo (Approve "ref_1") (Some (demo_error "no stock")) 7).
Definition recovering_sys : demo_sys :=
  serve healthy 0 (worker_thread demo_ctx (ReconcilerConfig.mk 0 0) "ord_7" 20) unknown_sys.
Definition interrupted_sys : demo_sys := resume out_of_stock 20 1 recovering_sys.
Definition crowded_sys : demo_sys := serve_request healthy 1000 interrupted_sys.
Definition converged_sys : demo_sys := resume (an_hour_later healthy) 2000 1 crowded_sys.
Definition demo_faults : nat :=
  resume_faults out_of_stock demo_id 20 1 recovering_sys +
  (0 + resume_faults (an_hour_later healthy) demo_id 2000 1 crowded_sys).

Example converging :
  row_summary recovering_sys = Some (OrderStatusPaymentUnknown, "") ∧
  row_summary crowded_sys = Some (OrderStatusFulfillmentPending, "ref_1") ∧
  demo_faults = 1 ∧ length (threads converged_sys) = 3.
Proof. vm_compute. done. Qed.

Lemma recovery_converges_witness :
  ∃ row', db (wld converged_sys) !! demo_id = Some row' ∧
    Status row' = OrderStatusCompleted ∧ PaymentReference row' = "ref_1".
Proof.
  refine (recovery_converges id String.le recovering_sys converged_sys 1
    demo_ctx (ReconcilerConfig.mk 0 0) "ord_7" demo_id (demo_row recovering_sys) 20 demo_faults _ _ _ _ _ _ _ _).
  - unfold recovering_sys, unknown_sys. apply serve_reachable; [constructor|auto with ordersvc].
  - apply list_lookup_middle. vm_compute. reflexivity.
  - vm_compute. reflexivity.
  - split; vm_compute; [reflexivity|intros H; exact H].
  - vm_compute. split; [exact I|discriminate].
  - eapply served_trans; [apply resume_served|]. eapply served_trans; [|apply resume_served].
    apply serve_served; [constructor|]. vm_compute. repeat constructor.
  - vm_compute. reflexivity.
  - apply (bool_decide_unpack _). vm_compute. exact I.
Defined.
