(* ===== verification/Json.v ===== *)
(** * JSON values and encoding/json

The data model of JSON and the part of Go's [encoding/json] the service uses:
decoding into structs, strings, 64-bit integers and slices (field matching,
null, type mismatches, unknown fields, repeated keys), and decoders over a body. *)

From S2P Require Import Prelude GoValues.

(** ** Values *)

(** [JNum] is a number written as an integer literal, [JFloat] any other number
literal.  An object keeps its members in the order of the text. *)
#[warnings="-register-all"]
Inductive json :=
| JNull
| JBool (b : bool)
| JNum (z : Z)
| JFloat (literal : string)
| JStr (s : string)
| JArr (elems : list json)
| JObj (members : list (string * json)).

(** ** Field matching *)

Definition upper_ascii (c : Ascii.ascii) : Ascii.ascii :=
  let n := Ascii.N_of_ascii c in
  if ((97 <=? n) && (n <=? 122))%N then Ascii.ascii_of_N (n - 32)%N else c.

(** [foldName]: ASCII letters fold to upper case, and so do the two non-ASCII
runes whose case orbit holds an ASCII letter, U+212A (Kelvin sign) and U+017F
(long s), here as their UTF-8 bytes. *)
Fixpoint fold_name (s : string) : string :=
  match s with
  | String "226"%char (String "132"%char (String "170"%char s)) => String "K"%char (fold_name s)
  | String "197"%char (String "191"%char s) => String "S"%char (fold_name s)
  | String c s => String (upper_ascii c) (fold_name s)
  | EmptyString => EmptyString
  end.

(** ** Decoding *)

(** How one member updates the target; [None] is a decoding error. *)
Definition field_decoder (S : Type) : Type := json → S → option S.

(** A struct type: its JSON field names with their decoders. *)
Definition struct_type (S : Type) : Type := list (string * field_decoder S).

(** An exact match of the name wins over a case-insensitive one. *)
Definition find_field {S} (fields : struct_type S) (key : string) : option (field_decoder S) :=
  match list_find (λ f, f.1 = key) fields with
  | Some (_, f) => Some f.2
  | None =>
      match list_find (λ f, fold_name f.1 = fold_name key) fields with
      | Some (_, f) => Some f.2
      | None => None
      end
  end.

(** One member; [strict] is [DisallowUnknownFields]. *)
Definition decode_member {S} (strict : bool) (fields : struct_type S)
    (acc : option S) (kv : string * json) : option S :=
  match acc with
  | None => None
  | Some s =>
      match find_field fields kv.1 with
      | Some decode => decode kv.2 s
      | None => if strict then None else Some s
      end
  end.

(** Decoding into a struct that already holds [s]. *)
Definition decode_struct {S} (strict : bool) (fields : struct_type S) : field_decoder S :=
  λ j s,
  match j with
  | JNull => Some s
  | JObj members => foldl (decode_member strict fields) (Some s) members
  | _ => None
  end.

Definition decode_string : field_decoder string :=
  λ j s, match j with JNull => Some s | JStr s' => Some s' | _ => None end.

(** [int] and [int64]: integer literals in range only. *)
Definition decode_int64 : field_decoder Z :=
  λ j z,
  match j with
  | JNull => Some z
  | JNum z' => if ⟦int64_range z'⟧ then Some z' else None
  | _ => None
  end.

(** A slice, with what its array holds beyond its length: a key that occurs again
decodes over the elements that are there. *)
Record slice (A : Type) := Slice { elems : list A; spare : list A }.
#[global] Arguments Slice {A} _ _.
#[global] Arguments elems {A} _.
#[global] Arguments spare {A} _.

Definition nil_slice {A} : slice A := Slice [] [].
Definition backing {A} (s : slice A) : list A := elems s ++ spare s.

(** Element [i] is decoded over the element the array has at [i], or over the zero
value. *)
Fixpoint decode_elems {A} (decode : field_decoder A) (zero : A) (js : list json) (old : list A)
    : option (list A) :=
  match js with
  | [] => Some []
  | j :: js =>
      match decode j (default zero (head old)) with
      | None => None
      | Some a =>
          match decode_elems decode zero js (tail old) with
          | None => None
          | Some l => Some (a :: l)
          end
      end
  end.

(** null makes the slice nil and an empty array makes it a new one; otherwise the
elements are decoded in place and the length is set. *)
Definition decode_slice {A} (decode : field_decoder A) (zero : A) : field_decoder (slice A) :=
  λ j old,
  match j with
  | JNull | JArr [] => Some nil_slice
  | JArr js =>
      match decode_elems decode zero js (backing old) with
      | Some l => Some (Slice l (drop (length l) (backing old)))
      | None => None
      end
  | _ => None
  end.

(** A field of a struct, given its getter and setter. *)
Definition field {S A} (name : string) (decode : field_decoder A) (get : S → A) (set : A → S → S)
    : string * field_decoder S :=
  (name, λ j s, match decode j (get s) with Some a => Some (set a s) | None => None end).

(** ** Members by name *)

(** The value a name has in an object, names compared like struct fields. *)
Definition member (ms : list (string * json)) (name : string) : option json :=
  match list_find (λ kv, fold_name kv.1 = fold_name name) ms with
  | Some (_, (_, j)) => Some j
  | None => None
  end.

(** No two members of the object stand for the same field. *)
Definition names_distinct (j : json) : Prop :=
  match j with JObj ms => NoDup (map (λ kv, fold_name kv.1) ms) | _ => True end.

(** ** Streams of values

A request or response body as a [json.Decoder] sees it: the JSON values of its
text, each with the byte offset at which it is complete, the size of the body,
and how it goes on after the last value ([None]: white space up to the end). *)
Record body := mkBody {
  body_values : list (json * N);
  body_size : N;
  body_rest : option error }.

(** [decoder.Decode] on a body behind a reader that gives [limit] bytes and
then fails with [over]: the value and the body after it, or the error. *)
Definition Decode (limit : N) (over : error) (b : body) : (json * body) + error :=
  match body_values b with
  | (j, stop) :: vs =>
      if (stop <=? limit)%N then inl (j, mkBody vs (body_size b) (body_rest b)) else inr over
  | [] =>
      match body_rest b with
      | Some err => inr err
      | None => if (body_size b <=? limit)%N then inr (Sentinel io_EOF) else inr over
      end
  end.

(** ** Lemmas *)

Lemma decode_member_None {S} strict (fields : struct_type S) kvs :
  foldl (decode_member strict fields) None kvs = None.
Proof. by induction kvs. Qed.

Lemma decode_int64_in_range z z' : int64_range z → decode_int64 (JNum z) z' = Some z.
Proof. intros. unfold decode_int64. by rewrite bool_decide_eq_true_2. Qed.

Lemma decode_int64_range j z z' :
  int64_range z → decode_int64 j z = Some z' → int64_range z'.
Proof. destruct j; simpl; intros; simplify_eq; go_cases; done. Qed.

(** Elements decoded one by one satisfy what each of them satisfies; [V] is what
is known of the values. *)
Lemma decode_elems_Forall_of {A} (V : json → Prop) (decode : field_decoder A) zero (I : A → Prop) js old l :
  Forall V js → I zero → Forall I old → (∀ j a a', V j → I a → decode j a = Some a' → I a') →
  decode_elems decode zero js old = Some l → Forall I l.
Proof.
  intros Hjs Hz Hold Hd. revert old l Hold.
  induction Hjs as [|j js Hj _ IH]; intros old l Hold; simpl; [naive_solver|].
  destruct (decode j _) as [a|] eqn:Ha; [|done].
  destruct (decode_elems decode zero js (tail old)) as [l'|] eqn:Hl; [|done]. intros [= <-].
  constructor.
  - eapply Hd; [exact Hj| |done]. by destruct Hold.
  - eapply IH; [|done]. by destruct Hold.
Qed.

(** The same of a slice, whose array may be met again. *)
Lemma decode_slice_Forall {A} (V : json → Prop) (decode : field_decoder A) zero (I : A → Prop) j old s :
  match j with JArr js => Forall V js | _ => True end → I zero → Forall I (backing old) →
  (∀ j a a', V j → I a → decode j a = Some a' → I a') →
  decode_slice decode zero j old = Some s → Forall I (backing s).
Proof.
  intros Hj Hz Hold Hd. destruct j as [| | | | |js|]; try done; [by intros [= <-]|].
  destruct js as [|j js]; [by intros [= <-]|]. unfold decode_slice.
  destruct (decode_elems _ _ _ _) as [l|] eqn:Hl; [|done]. intros [= <-]. apply Forall_app. split.
  - by eapply decode_elems_Forall_of.
  - by apply Forall_drop.
Qed.

(** Decoding into a fresh slice. *)
Lemma decode_slice_fresh {A} (decode : field_decoder A) zero js l :
  decode_elems decode zero js [] = Some l → decode_slice decode zero (JArr js) nil_slice = Some (Slice l []).
Proof.
  intros H. destruct js as [|j js]; [by injection H as <-|]. unfold decode_slice.
  change (backing nil_slice) with (@nil A). by rewrite H, drop_nil.
Qed.

(** Every decoder of a struct that keeps an invariant makes the struct decoder
keep it; [V] is what is known of the members' values. *)
Lemma decode_struct_ind_of {S} (V : json → Prop) strict (fields : struct_type S) (I : S → Prop) j s s' :
  (∀ ms, j = JObj ms → Forall (λ kv, V kv.2) ms) →
  (∀ name d, (name, d) ∈ fields → ∀ j s s', V j → I s → d j s = Some s' → I s') →
  I s → decode_struct strict fields j s = Some s' → I s'.
Proof.
  intros Hv Hf Hs. destruct j as [| | | | | |kvs]; simpl; try naive_solver. specialize (Hv kvs eq_refl).
  revert s Hs. induction Hv as [|[k v] kvs Hkv _ IH]; intros s Hs; simpl; [naive_solver|].
  destruct (find_field fields k) as [d|] eqn:Hd.
  - destruct (d v s) as [s1|] eqn:H1; [|by rewrite decode_member_None]. apply IH.
    unfold find_field in Hd.
    destruct (list_find (λ f, f.1 = k) fields) as [[i f]|] eqn:Hl;
      [|destruct (list_find (λ f, fold_name f.1 = fold_name k) fields) as [[i f]|] eqn:Hl2; [|done]];
      simplify_eq; destruct f as [n d'];
      match goal with H : list_find _ _ = _ |- _ => apply list_find_Some in H as (Hi & _ & _) end;
      eapply Hf; eauto using list_elem_of_lookup_2.
  - destruct strict; [by rewrite decode_member_None|by apply IH].
Qed.

Lemma decode_struct_ind {S} strict (fields : struct_type S) (I : S → Prop) j s s' :
  (∀ name d, (name, d) ∈ fields → ∀ j s s', I s → d j s = Some s' → I s') →
  I s → decode_struct strict fields j s = Some s' → I s'.
Proof.
  intros Hf. apply (decode_struct_ind_of (λ _, True)); [|by eauto].
  intros ms _. by apply Forall_true.
Qed.

Lemma member_cons k j ms name :
  member ((k, j) :: ms) name = if ⟦fold_name k = fold_name name⟧ then Some j else member ms name.
Proof.
  unfold member. simpl. case_decide; case_bool_decide; try done.
  by destruct (list_find _ ms) as [[i [k' j']]|].
Qed.

Lemma member_None ms name :
  fold_name name ∉ map (λ kv : string * json, fold_name kv.1) ms → member ms name = None.
Proof.
  induction ms as [|[k j] ms IH]; [done|]. simpl. rewrite not_elem_of_cons, member_cons.
  intros [Hk Hms]. rewrite bool_decide_eq_false_2; [by apply IH|by apply not_eq_sym].
Qed.

(** What a string field holds after decoding: the string of its member, or what
it held before when there is none, or null. *)
Definition string_after (m : option json) (before after : string) : Prop :=
  match m with
  | Some (JStr s) => after = s
  | Some JNull | None => after = before
  | Some _ => False
  end.

(** Decoding an object with distinct names reads each string field from its
own member, in whatever order the members come. *)
Lemma decode_string_field {S} strict (fields : struct_type S) name (get : S → string) set :
  (∀ v s, get (set v s) = v) →
  (∀ k, fold_name k = fold_name name → find_field fields k = Some (field name decode_string get set).2) →
  (∀ k d, fold_name k ≠ fold_name name → find_field fields k = Some d →
     ∀ j s s', d j s = Some s' → get s' = get s) →
  ∀ ms s s', names_distinct (JObj ms) → decode_struct strict fields (JObj ms) s = Some s' →
    string_after (member ms name) (get s) (get s').
Proof.
  intros Hset Hfind Hother ms. cbn [decode_struct names_distinct].
  induction ms as [|[k j] ms IH]; intros s s' Hnd; cbn [foldl map] in *; [by intros [= <-]|].
  apply NoDup_cons in Hnd as [Hk Hnd]. cbn [fst] in Hk. rewrite member_cons. cbn [decode_member fst snd].
  case_bool_decide as Heq.
  - rewrite Hfind by done. rewrite Heq in Hk. pose proof (member_None _ _ Hk) as Hm. cbn [field snd].
    destruct (decode_string j (get s)) as [v|] eqn:Hv; [|by rewrite decode_member_None].
    intros Hd. apply IH in Hd; [|done]. rewrite Hm, Hset in Hd. simpl in Hd. rewrite Hd.
    by destruct j; simplify_eq/=.
  - destruct (find_field fields k) as [d|] eqn:Hd.
    + destruct (d j s) as [s1|] eqn:Hs1; [|by rewrite decode_member_None].
      intros H. apply IH in H; [|done]. by rewrite (Hother _ _ Heq Hd _ _ _ Hs1) in H.
    + destruct strict; [by rewrite decode_member_None|]. intros H. by apply IH.
Qed.
