(* ===== verification/JsonText.v ===== *)
(** * The text of JSON

The bytes that encoding/json writes for a value and the values it reads from
bytes: escapes, invalid UTF-8, numbers, nesting, white space, and the stream of
values a [json.Decoder] finds in a body.  What is written reads back. *)

From S2P Require Import Prelude GoValues Text Json.

(** ** Characters *)

Definition is_char (a : ascii) (r : rune) : bool := (code r =? N_of_ascii a)%N.

(** [isSpace] of the scanner. *)
Definition is_ws (r : rune) : bool := is_char " " r || is_char "009" r || is_char "010" r || is_char "013" r.

Fixpoint skip_ws (s : list rune) : list rune :=
  match s with
  | r :: s' => if is_ws r then skip_ws s' else s
  | [] => []
  end.

Definition ascii_runes (s : string) : list rune := map rune_of (String.list_ascii_of_string s).

Definition hex_rune (n : N) : rune := rune_of (ascii_of_N (if (n <? 10)%N then 48 + n else 87 + n)%N).

(** ** Writing *)

(** One rune inside a string: quotes, backslashes, control characters and the
characters that HTML gives a meaning are escaped, so are U+2028 and U+2029, and
an invalid byte becomes the escape of U+FFFD. *)
Definition escape (r : rune) : list rune :=
  let c := code r in
  if is_char "034" r then ascii_runes "\" ++ [r]
  else if is_char "\" r then ascii_runes "\" ++ [r]
  else if is_char "008" r then ascii_runes "\b"
  else if is_char "012" r then ascii_runes "\f"
  else if is_char "010" r then ascii_runes "\n"
  else if is_char "013" r then ascii_runes "\r"
  else if is_char "009" r then ascii_runes "\t"
  else if (c <? 32)%N || is_char "<" r || is_char ">" r || is_char "&" r then
    ascii_runes "\u00" ++ [hex_rune (c / 16); hex_rune (c mod 16)]
  else if ((c =? 8232) || (c =? 8233))%N then ascii_runes "\u202" ++ [hex_rune (c mod 16)]
  else if invalid_rune r then ascii_runes "\ufffd"
  else [r].

Definition quote : rune := rune_of "034".

Definition string_text (s : string) : list rune := quote :: (runes s ≫= escape) ++ [quote].

Definition separated {A} (text : A → list rune) : list A → list rune :=
  fix go l := match l with
              | [] => []
              | [a] => text a
              | a :: l => text a ++ rune_of "," :: go l
              end.

Fixpoint value_text (j : json) : list rune :=
  match j with
  | JNull => ascii_runes "null"
  | JBool true => ascii_runes "true"
  | JBool false => ascii_runes "false"
  | JNum z => ascii_runes (pretty z)
  | JFloat literal => ascii_runes literal
  | JStr s => string_text s
  | JArr elems => rune_of "[" :: separated value_text elems ++ [rune_of "]"]
  | JObj members =>
      rune_of "{" :: separated (λ kv, string_text kv.1 ++ rune_of ":" :: value_text kv.2) members ++ [rune_of "}"]
  end.

(** [json.Marshal]. *)
Definition Marshal (j : json) : string := concat_bytes (value_text j).

(** ** Reading a string *)

Definition hex_of_rune (r : rune) : option N :=
  let c := code r in
  if ((48 <=? c) && (c <=? 57))%N then Some (c - 48)%N
  else if ((97 <=? c) && (c <=? 102))%N then Some (c - 87)%N
  else if ((65 <=? c) && (c <=? 70))%N then Some (c - 55)%N
  else None.

(** [getu4], after the [\u]. *)
Definition hex4 (s : list rune) : option (N * list rune) :=
  match s with
  | a :: b :: c :: d :: s =>
      match hex_of_rune a, hex_of_rune b, hex_of_rune c, hex_of_rune d with
      | Some a, Some b, Some c, Some d => Some (((a * 16 + b) * 16 + c) * 16 + d, s)%N
      | _, _, _, _ => None
      end
  | _ => None
  end.

(** The second half of a surrogate pair: [utf16.DecodeRune] after the first, [u]. *)
Definition low_half (u : N) (s : list rune) : option (N * list rune) :=
  match s with
  | b :: e :: s =>
      if is_char "\" b && is_char "u" e then
        match hex4 s with
        | Some (l, s) =>
            if ((u <? 56320) && (56320 <=? l) && (l <? 57344))%N
            then Some ((u - 55296) * 1024 + (l - 56320) + 65536, s)%N else None
        | None => None
        end
      else None
  | _ => None
  end.

Definition simple_escape (r : rune) : option rune :=
  if is_char "034" r || is_char "\" r || is_char "/" r then Some r
  else if is_char "b" r then Some (rune_of "008")
  else if is_char "f" r then Some (rune_of "012")
  else if is_char "n" r then Some (rune_of "010")
  else if is_char "r" r then Some (rune_of "013")
  else if is_char "t" r then Some (rune_of "009")
  else None.

(** One character of a string, escaped or not, and what follows it. *)
Definition read_char (s : list rune) : option (rune * list rune) :=
  match s with
  | [] => None
  | r :: s =>
      if is_char "\" r then
        match s with
        | [] => None
        | e :: s =>
            match simple_escape e with
            | Some a => Some (a, s)
            | None =>
                if is_char "u" e then
                  match hex4 s with
                  | Some (u, s) =>
                      if surrogate u then
                        match low_half u s with
                        | Some (c, s) => Some (mkRune c (EncodeRune c), s)
                        | None => Some (replacement, s)
                        end
                      else Some (mkRune u (EncodeRune u), s)
                  | None => None
                  end
                else None
            end
        end
      else if is_char "034" r || (code r <? 32)%N then None
      else Some (repair r, s)
  end.

(** The characters up to the closing quote. *)
Fixpoint read_chars (fuel : nat) (s : list rune) : option (list rune * list rune) :=
  match fuel with
  | 0 => None
  | S fuel =>
      match s with
      | [] => None
      | r :: s' =>
          if is_char "034" r then Some ([], s')
          else match read_char s with
               | Some (c, s) =>
                   match read_chars fuel s with
                   | Some (cs, s) => Some (c :: cs, s)
                   | None => None
                   end
               | None => None
               end
      end
  end.

(** A string literal. *)
Definition read_string (s : list rune) : option (string * list rune) :=
  match s with
  | q :: s =>
      if is_char "034" q then
        match read_chars (length s) s with
        | Some (cs, s) => Some (concat_bytes cs, s)
        | None => None
        end
      else None
  | [] => None
  end.

(** ** Reading a number *)

Definition is_digit (r : rune) : bool := ((48 <=? code r) && (code r <=? 57))%N.

Fixpoint digits (s : list rune) : list rune * list rune :=
  match s with
  | r :: s' => if is_digit r then let '(ds, rest) := digits s' in (r :: ds, rest) else ([], s)
  | [] => ([], [])
  end.

Definition digits_value (ds : list rune) : Z :=
  foldl (λ acc r, acc * 10 + Z.of_N (code r - 48))%Z 0%Z ds.

(** [0] or digits that do not start with it. *)
Definition integer_part (s : list rune) : option (list rune * list rune) :=
  match s with
  | r :: s' =>
      if is_char "0" r then Some ([r], s')
      else if is_digit r then let '(ds, rest) := digits s' in Some (r :: ds, rest)
      else None
  | [] => None
  end.

(** A fraction or an exponent, if there is one. *)
Definition fraction (s : list rune) : option (list rune * list rune) :=
  match s with
  | r :: s' =>
      if is_char "." r then
        match digits s' with ([], _) => None | (ds, rest) => Some (r :: ds, rest) end
      else Some ([], s)
  | [] => Some ([], [])
  end.

Definition exponent (s : list rune) : option (list rune * list rune) :=
  match s with
  | r :: s' =>
      if is_char "e" r || is_char "E" r then
        let '(sign, s'') := match s' with
                            | g :: s'' => if is_char "+" g || is_char "-" g then ([g], s'') else ([], s')
                            | [] => ([], [])
                            end in
        match digits s'' with ([], _) => None | (ds, rest) => Some (r :: sign ++ ds, rest) end
      else Some ([], s)
  | [] => Some ([], [])
  end.

Definition read_number (s : list rune) : option (json * list rune) :=
  let '(sign, s1) := match s with
                     | r :: s1 => if is_char "-" r then ([r], s1) else ([], s)
                     | [] => ([], [])
                     end in
  match integer_part s1 with
  | None => None
  | Some (ds, s2) =>
      match fraction s2 with
      | None => None
      | Some (f, s3) =>
          match exponent s3 with
          | None => None
          | Some (e, s4) =>
              let literal := match f ++ e with
                             | [] => JNum (if ⟦sign = []⟧ then digits_value ds else - digits_value ds)
                             | _ => JFloat (concat_bytes (sign ++ ds ++ f ++ e))
                             end in
              Some (literal, s4)
          end
      end
  end.

(** ** Reading a value *)

Fixpoint strip (word s : list rune) : option (list rune) :=
  match word, s with
  | [], _ => Some s
  | w :: word, r :: s => if (code w =? code r)%N then strip word s else None
  | _, [] => None
  end.

(** A value without white space before it, nested at most [depth] deep. *)
Fixpoint read_value (fuel : nat) (depth : N) (s : list rune) : option (json * list rune) :=
  match fuel with
  | 0 => None
  | S fuel =>
      match s with
      | [] => None
      | r :: s' =>
          if is_char "{" r then
            if (depth =? 0)%N then None
            else match skip_ws s' with
                 | c :: rest => if is_char "}" c then Some (JObj [], rest)
                                else match read_members fuel (depth - 1) (c :: rest) with
                                     | Some (ms, rest) => Some (JObj ms, rest)
                                     | None => None
                                     end
                 | [] => None
                 end
          else if is_char "[" r then
            if (depth =? 0)%N then None
            else match skip_ws s' with
                 | c :: rest => if is_char "]" c then Some (JArr [], rest)
                                else match read_elems fuel (depth - 1) (c :: rest) with
                                     | Some (js, rest) => Some (JArr js, rest)
                                     | None => None
                                     end
                 | [] => None
                 end
          else if is_char "034" r then
            match read_string s with Some (t, rest) => Some (JStr t, rest) | None => None end
          else match strip (ascii_runes "null") s with
               | Some rest => Some (JNull, rest)
               | None =>
                   match strip (ascii_runes "true") s with
                   | Some rest => Some (JBool true, rest)
                   | None =>
                       match strip (ascii_runes "false") s with
                       | Some rest => Some (JBool false, rest)
                       | None => read_number s
                       end
                   end
               end
      end
  end
(** The elements of an array, up to its bracket. *)
with read_elems (fuel : nat) (depth : N) (s : list rune) : option (list json * list rune) :=
  match fuel with
  | 0 => None
  | S fuel =>
      match read_value fuel depth (skip_ws s) with
      | None => None
      | Some (j, s) =>
          match skip_ws s with
          | c :: s =>
              if is_char "," c then
                match read_elems fuel depth s with Some (js, s) => Some (j :: js, s) | None => None end
              else if is_char "]" c then Some ([j], s)
              else None
          | [] => None
          end
      end
  end
(** The members of an object, up to its brace. *)
with read_members (fuel : nat) (depth : N) (s : list rune) : option (list (string * json) * list rune) :=
  match fuel with
  | 0 => None
  | S fuel =>
      match read_string (skip_ws s) with
      | None => None
      | Some (k, s) =>
          match skip_ws s with
          | c :: s =>
              if is_char ":" c then
                match read_value fuel depth (skip_ws s) with
                | None => None
                | Some (j, s) =>
                    match skip_ws s with
                    | c :: s =>
                        if is_char "," c then
                          match read_members fuel depth s with
                          | Some (ms, s) => Some ((k, j) :: ms, s)
                          | None => None
                          end
                        else if is_char "}" c then Some ([(k, j)], s)
                        else None
                    | [] => None
                    end
                end
              else None
          | [] => None
          end
      end
  end.

(** [maxNestingDepth] of the scanner. *)
Definition maxNestingDepth : N := 10000.

Definition read_json (s : list rune) : option (json * list rune) :=
  read_value (2 * length s) maxNestingDepth s.

(** The value of a text that is one value, white space aside: what
[json.Unmarshal] starts from. *)
Definition document (text : string) : option json :=
  match read_json (skip_ws (runes text)) with
  | Some (j, rest) => match skip_ws rest with [] => Some j | _ => None end
  | None => None
  end.

(** ** Streams *)

Definition byte_size (s : list rune) : N := N.of_nat (String.length (concat_bytes s)).

(** A value in brackets is complete with its last byte; any other needs the byte
after it, or the end of the text. *)
Definition in_brackets (j : json) : bool := match j with JArr _ | JObj _ => true | _ => false end.

Section body_of_text.
(** The error of [Decode] on a text that goes on with no value, and the error
that ends the stream in place of its end. *)
Context (syntax_error : string → error) (failure : option error).

Fixpoint values_of (fuel : nat) (total : N) (s : list rune) : list (json * N) * option error :=
  match fuel with
  | 0 => ([], failure)
  | S fuel =>
      match skip_ws s with
      | [] => ([], failure)
      | s =>
          match read_json s with
          | None => ([], Some (syntax_error (concat_bytes s)))
          | Some (j, rest) =>
              if in_brackets j then
                let '(vs, e) := values_of fuel total rest in ((j, total - byte_size rest)%N :: vs, e)
              else match rest, failure with
                   | [], Some err => ([], Some err)
                   | [], None => ([(j, total)], None)
                   | _ :: _, _ =>
                       let '(vs, e) := values_of fuel total rest in ((j, total - byte_size rest + 1)%N :: vs, e)
                   end
          end
      end
  end.

(** What a decoder finds in a stream of the bytes of [text]. *)
Definition body_of_text (text : string) : body :=
  let s := runes text in
  let '(vs, e) := values_of (S (length s)) (byte_size s) s in mkBody vs (byte_size s) e.
End body_of_text.

(** ** Lemmas: strings *)

(** A rune as decoding gives it. *)
Definition decoded_rune (r : rune) : Prop :=
  invalid_rune r = true ∨
  (r = mkRune (code r) (EncodeRune (code r)) ∧ invalid_rune r = false ∧
   (code r < 1114112)%N ∧ surrogate (code r) = false).

Lemma runes_decoded s : Forall decoded_rune (runes s).
Proof.
  apply runes_Forall. intros t r t' Hd. destruct (invalid_rune r) eqn:Hr; [by left|right].
  destruct (decode_rune_encoded _ _ _ Hd Hr) as (Hb & ? & ?). split_and!; try done.
  destruct r; simpl in *. by rewrite Hb.
Qed.

Lemma small_codes (P : N → Prop) : Forall P (map N.of_nat (seq 0 128)) → ∀ c, (c < 128)%N → P c.
Proof.
  intros H c Hc. rewrite Forall_forall in H. apply H. apply list_elem_of_fmap. exists (N.to_nat c).
  split; [lia|]. apply elem_of_seq. lia.
Qed.

Lemma is_char_big a r : (128 <= code r)%N → (N_of_ascii a < 128)%N → is_char a r = false.
Proof. intros. apply N.eqb_neq. lia. Qed.

(** What is written for a rune reads back as the rune, repaired. *)
Lemma read_escape r rest :
  decoded_rune r →
  read_char (escape r ++ rest) = Some (repair r, rest) ∧
  ∃ h t, escape r = h :: t ∧ is_char "034" h = false.
Proof.
  assert (∀ r, (128 <= code r)%N → escape r =
    if ((code r =? 8232) || (code r =? 8233))%N then ascii_runes "\u202" ++ [hex_rune (code r mod 16)]
    else if invalid_rune r then ascii_runes "\ufffd" else [r]) as Hbig.
  { intros x Hx. unfold escape. rewrite !is_char_big by done. by rewrite (proj2 (N.ltb_ge _ 32)) by lia. }
  intros [Hinv|(Hr & Hinv & _ & _)].
  - unfold repair. rewrite Hinv. unfold invalid_rune in Hinv. apply andb_true_iff in Hinv as [Hc%N.eqb_eq Hl].
    rewrite Hbig by lia. unfold invalid_rune. rewrite Hc, Hl. split; [reflexivity|]. by do 2 eexists.
  - unfold repair. rewrite Hinv. destruct (N.ltb_spec (code r) 128) as [Hc|Hc].
    + rewrite Hr. generalize (code r), Hc. clear.
      apply (small_codes (λ c, read_char (escape (mkRune c (EncodeRune c)) ++ rest) =
        Some (mkRune c (EncodeRune c), rest) ∧ ∃ h t, escape (mkRune c (EncodeRune c)) = h :: t ∧ is_char "034" h = false)).
      vm_compute map. repeat constructor; by do 2 eexists.
    + rewrite Hbig, Hinv by done. destruct (_ || _) eqn:Hsep.
      * apply orb_true_iff in Hsep as [E%N.eqb_eq|E%N.eqb_eq]; rewrite Hr, E;
          (split; [reflexivity|by do 2 eexists]).
      * cbn [app read_char]. rewrite !is_char_big by done. rewrite (proj2 (N.ltb_ge _ 32)) by lia.
        unfold repair. rewrite Hinv. split; [done|]. exists r, []. by rewrite is_char_big.
Qed.

Lemma read_chars_text rs rest n :
  Forall decoded_rune rs → length rs < n →
  read_chars n ((rs ≫= escape) ++ quote :: rest) = Some (map repair rs, rest).
Proof.
  intros Hrs. revert n. induction Hrs as [|r rs Hr _ IH]; intros n Hn; (destruct n as [|n]; [simpl in Hn; lia|]); [done|].
  cbn [mbind list_bind]. rewrite <- app_assoc. destruct (read_escape r (mbind escape rs ++ quote :: rest) Hr)
    as (Hread & h & t & Hesc & Hq).
  cbn [read_chars]. rewrite Hesc in *. cbn [app] in *. rewrite Hq, Hread, IH by (simpl in Hn; lia). done.
Qed.

Lemma escape_length rs : Forall decoded_rune rs → length rs <= length (rs ≫= escape).
Proof.
  induction 1 as [|r rs Hr _ IH]; [done|]. cbn [mbind list_bind]. rewrite length_app.
  destruct (read_escape r [] Hr) as (_ & h & t & -> & _). simpl in *. lia.
Qed.

Lemma read_string_text s rest :
  read_string (string_text s ++ rest) = Some (to_valid s, rest).
Proof.
  unfold string_text. cbn [app read_string]. change (is_char "034" quote) with true. cbv iota.
  rewrite <- app_assoc. cbn [app]. pose proof (runes_decoded s) as Hd. pose proof (escape_length _ Hd).
  rewrite read_chars_text; [done|done|]. rewrite length_app. simpl. lia.
Qed.

(** ** Lemmas: numbers *)

(** No number goes on here. *)
Definition number_stops (s : list rune) : Prop :=
  match s with
  | [] => True
  | r :: _ => is_digit r = false ∧ is_char "." r = false ∧ is_char "e" r = false ∧ is_char "E" r = false
  end.

Lemma digits_all ds rest :
  Forall (λ r, is_digit r = true) ds → match rest with [] => True | r :: _ => is_digit r = false end →
  digits (ds ++ rest) = (ds, rest).
Proof.
  intros Hds Hrest. induction Hds as [|r ds Hr _ IH]; cbn [app digits].
  - destruct rest as [|r rest]; [done|]. cbn [digits]. by rewrite Hrest.
  - by rewrite Hr, IH.
Qed.

Lemma digit_char x : (x < 10)%N →
  is_digit (rune_of (pretty_N_char x)) = true ∧ Z.of_N (code (rune_of (pretty_N_char x)) - 48) = Z.of_N x ∧
  (is_char "0" (rune_of (pretty_N_char x)) = true → x = 0%N).
Proof.
  intros Hx. assert (x ∈ [0; 1; 2; 3; 4; 5; 6; 7; 8; 9]%N) as Hin.
  { rewrite !elem_of_cons. lia. }
  revert x Hin Hx. rewrite <- Forall_forall. repeat constructor; done.
Qed.

Lemma pretty_N_go_digits x s :
  ∃ ds, ascii_runes (pretty_N_go x s) = ds ++ ascii_runes s ∧ Forall (λ r, is_digit r = true) ds ∧
    (∀ acc, foldl (λ acc r, acc * 10 + Z.of_N (code r - 48))%Z acc ds = acc * 10 ^ Z.of_nat (length ds) + Z.of_N x)%Z ∧
    (0 < x → ∃ d ds', ds = d :: ds' ∧ is_char "0" d = false)%N.
Proof.
  revert s. induction (N.lt_wf_0 x) as [x _ IH]. intros s.
  destruct (decide (x = 0)%N) as [->|Hx].
  { exists []. rewrite pretty_N_go_0. split_and!; [done|constructor|intros; simpl; lia|lia]. }
  rewrite pretty_N_go_step by lia.
  destruct (IH (x / 10)%N ltac:(apply N.div_lt; lia) (String (pretty_N_char (x mod 10)) s))
    as (ds & Hds & Hall & Hval & Hhd).
  pose proof (N.mod_lt x 10 ltac:(lia)) as Hmod. destruct (digit_char _ Hmod) as (Hd & Hv & Hz).
  pose proof (N.div_mod' x 10) as Hdm.
  exists (ds ++ [rune_of (pretty_N_char (x mod 10))]). split_and!.
  - rewrite Hds. cbn. by rewrite <- app_assoc.
  - apply Forall_app. split; [done|]. by constructor.
  - intros acc. rewrite foldl_app. cbn [foldl]. rewrite Hval, Hv, length_app. cbn [length].
    replace (Z.of_nat (length ds + 1)) with (Z.succ (Z.of_nat (length ds))) by lia.
    rewrite Z.pow_succ_r by lia. lia.
  - intros _. destruct (decide (x / 10 = 0)%N) as [Hq|Hq].
    + destruct ds as [|d ds]; [|].
      * do 2 eexists. split; [reflexivity|]. destruct (is_char _ _) eqn:Hc; [|done]. specialize (Hz eq_refl). lia.
      * exfalso. specialize (Hval 0%Z). rewrite Hq in Hds. rewrite pretty_N_go_0 in Hds. simpl in Hds.
        apply (f_equal length) in Hds. simpl in Hds. rewrite length_app in Hds. simpl in Hds. lia.
    + destruct Hhd as (d & ds' & -> & Hd0); [lia|]. by exists d, (ds' ++ [rune_of (pretty_N_char (x mod 10))]).
Qed.

(** The digits of a positive number. *)
Lemma pretty_pos_digits p :
  ∃ d ds, ascii_runes (pretty (N.pos p)) = d :: ds ∧ is_char "0" d = false ∧ is_digit d = true ∧
    Forall (λ r, is_digit r = true) ds ∧ digits_value (d :: ds) = Z.pos p.
Proof.
  destruct (pretty_N_go_digits (N.pos p) "") as (l & Hl & Hall & Hval & Hhd).
  destruct Hhd as (d & ds & -> & Hd); [lia|]. cbn in Hl. rewrite app_nil_r in Hl.
  apply Forall_cons in Hall as [Hdd Hall]. exists d, ds. split_and!; try done.
  unfold digits_value. rewrite Hval. simpl. lia.
Qed.

Lemma read_digits d ds rest :
  is_char "0" d = false → is_digit d = true → Forall (λ r, is_digit r = true) ds → number_stops rest →
  integer_part ((d :: ds) ++ rest) = Some (d :: ds, rest) ∧ fraction rest = Some ([], rest) ∧
  exponent rest = Some ([], rest).
Proof.
  intros H0 Hd Hds Hrest. cbn [app integer_part]. rewrite H0, Hd, digits_all.
  - split; [done|]. destruct rest as [|r rest]; [done|]. destruct Hrest as (_ & Hp & He & HE).
    unfold fraction, exponent. by rewrite Hp, He, HE.
  - done.
  - destruct rest; [done|]. apply Hrest.
Qed.

Lemma is_digit_not_minus d : is_digit d = true → is_char "-" d = false.
Proof.
  unfold is_digit, is_char. intros [H%N.leb_le _]%andb_true_iff. apply N.eqb_neq.
  change (N_of_ascii "-") with 45%N. lia.
Qed.

Lemma read_number_text z rest :
  number_stops rest → read_number (ascii_runes (pretty z) ++ rest) = Some (JNum z, rest).
Proof.
  intros Hrest. destruct z as [|p|p].
  - change (ascii_runes (pretty 0%Z)) with [rune_of "0"]. unfold read_number. cbn [app].
    change (is_char "-" (rune_of "0")) with false. cbv iota beta zeta. cbn [integer_part].
    change (is_char "0" (rune_of "0")) with true. cbv iota. destruct rest as [|r rest]; [done|].
    destruct Hrest as (_ & Hp & He & HE). unfold fraction, exponent. by rewrite Hp, He, HE.
  - destruct (pretty_pos_digits p) as (d & ds & Ht & H0 & Hd & Hds & Hv).
    change (pretty (Z.pos p)) with (pretty (N.pos p)). rewrite Ht.
    destruct (read_digits d ds rest H0 Hd Hds Hrest) as (Hi & Hf & He).
    unfold read_number. cbn [app] in *. rewrite (is_digit_not_minus d Hd). by rewrite Hi, Hf, He, Hv.
  - destruct (pretty_pos_digits p) as (d & ds & Ht & H0 & Hd & Hds & Hv).
    change (ascii_runes (pretty (Z.neg p))) with (rune_of "-" :: ascii_runes (pretty (N.pos p))). rewrite Ht.
    destruct (read_digits d ds rest H0 Hd Hds Hrest) as (Hi & Hf & He).
    unfold read_number. cbn [app] in *. change (is_char "-" (rune_of "-")) with true. cbv iota beta zeta.
    by rewrite Hi, Hf, He, Hv.
Qed.

(** ** What is written reads back *)

Section json_ind.
Context (P : json → Prop).
Context (P_null : P JNull) (P_bool : ∀ b, P (JBool b)) (P_num : ∀ z, P (JNum z)).
Context (P_float : ∀ l, P (JFloat l)) (P_str : ∀ s, P (JStr s)).
Context (P_arr : ∀ js, Forall P js → P (JArr js)).
Context (P_obj : ∀ ms, Forall (λ kv : string * json, P kv.2) ms → P (JObj ms)).

Lemma json_nested_ind : ∀ j, P j.
Proof using All.
  fix IH 1. intros [|b|z|l|s|js|ms].
  - apply P_null.
  - apply P_bool.
  - apply P_num.
  - apply P_float.
  - apply P_str.
  - apply P_arr. induction js as [|j js IHj]; constructor; [apply IH|exact IHj].
  - apply P_obj. induction ms as [|[k j] ms IHm]; constructor; [apply IH|exact IHm].
Qed.
End json_ind.

(** The value that is read for one that was written. *)
Fixpoint repaired (j : json) : json :=
  match j with
  | JStr s => JStr (to_valid s)
  | JArr js => JArr (map repaired js)
  | JObj ms => JObj (map (λ kv, (to_valid kv.1, repaired kv.2)) ms)
  | j => j
  end.

(** Within the nesting depth, and without numbers that are no integers, which
the service never writes. *)
Fixpoint writable (depth : N) (j : json) : bool :=
  match j with
  | JFloat _ => false
  | JArr js => negb (depth =? 0)%N && forallb (writable (depth - 1)) js
  | JObj ms => negb (depth =? 0)%N && forallb (λ kv, writable (depth - 1) kv.2) ms
  | _ => true
  end.

(** The first character of a value. *)
Lemma value_text_head depth j :
  writable depth j = true →
  ∃ h t, value_text j = h :: t ∧ is_ws h = false ∧ is_char "]" h = false.
Proof.
  destruct j as [|[]|z|l|s|js|ms]; intros Hw; try discriminate Hw;
    try (do 2 eexists; split_and!; reflexivity).
  cbn [value_text]. destruct z as [|p|p]; try (do 2 eexists; split_and!; reflexivity).
  destruct (pretty_pos_digits p) as (d & ds & Ht & H0 & Hd & _).
  change (pretty (Z.pos p)) with (pretty (N.pos p)). rewrite Ht. exists d, ds. split; [done|].
  unfold is_digit in Hd. apply andb_true_iff in Hd as [H1%N.leb_le H2%N.leb_le].
  unfold is_ws, is_char. split.
  - repeat (apply orb_false_iff; split); apply N.eqb_neq; vm_compute N_of_ascii; lia.
  - apply N.eqb_neq. vm_compute N_of_ascii. lia.
Qed.

Lemma skip_ws_head h t : is_ws h = false → skip_ws (h :: t) = h :: t.
Proof. intros H. cbn [skip_ws]. by rewrite H. Qed.

Lemma number_stops_char a rest :
  (match a with "," | "]" | "}" => true | _ => false end)%char = true → number_stops (rune_of a :: rest).
Proof. destruct a as [[] [] [] [] [] [] [] []]; intros H; try discriminate H; by vm_compute. Qed.

Section read_write.
(** What is to be shown of a value, at some depth. *)
Definition reads_back (depth : N) (j : json) : Prop :=
  ∀ n rest, 2 * length (value_text j) <= n → number_stops rest →
    read_value n depth (value_text j ++ rest) = Some (repaired j, rest).

Lemma separated_cons {A} (text : A → list rune) a a' l :
  separated text (a :: a' :: l) = text a ++ rune_of "," :: separated text (a' :: l).
Proof. reflexivity. Qed.

Lemma read_elems_text depth j js n rest :
  Forall (reads_back depth) (j :: js) → forallb (writable depth) (j :: js) = true →
  2 * length (separated value_text (j :: js)) < n →
  read_elems n depth (separated value_text (j :: js) ++ rune_of "]" :: rest) =
    Some (map repaired (j :: js), rest).
Proof.
  revert j n. induction js as [|j' js IH]; intros j n Hall Hw Hn; (destruct n as [|n]; [lia|]); cbn [read_elems].
  - apply Forall_cons in Hall as [Hj _]. cbn [separated] in *. simpl in Hw. rewrite andb_true_r in Hw.
    destruct (value_text_head _ _ Hw) as (h & t & Ht & Hws & _).
    rewrite Ht at 1. cbn [app]. rewrite skip_ws_head by done.
    change (h :: t ++ ?x) with ((h :: t) ++ x). rewrite <- Ht, Hj; [|lia|by apply number_stops_char].
    rewrite skip_ws_head by done. done.
  - apply Forall_cons in Hall as [Hj Hall]. rewrite separated_cons in Hn |- *.
    apply andb_true_iff in Hw as [Hwj Hw]. rewrite length_app in Hn. cbn [length] in Hn.
    destruct (value_text_head _ _ Hwj) as (h & t & Ht & Hws & _).
    rewrite <- app_assoc. rewrite Ht at 1. cbn [app]. rewrite skip_ws_head by done.
    change (h :: t ++ ?x) with ((h :: t) ++ x). rewrite <- Ht, Hj; [|lia|by apply number_stops_char].
    rewrite skip_ws_head by done. change (is_char "," (rune_of ",")) with true. cbv iota.
    rewrite IH; [done|done|done|lia].
Qed.

Abbreviation member_text := (λ kv : string * json, string_text kv.1 ++ rune_of ":" :: value_text kv.2).

Lemma read_member depth kv n rest :
  reads_back depth kv.2 → writable depth kv.2 = true → 2 * length (member_text kv) <= S n → number_stops rest →
  read_string (skip_ws (member_text kv ++ rest)) = Some (to_valid kv.1, rune_of ":" :: value_text kv.2 ++ rest) ∧
  read_value n depth (skip_ws (value_text kv.2 ++ rest)) = Some (repaired kv.2, rest).
Proof.
  destruct kv as [k j]. cbn [fst snd]. intros Hj Hw Hn Hrest. rewrite <- app_assoc. split.
  - unfold string_text at 1. cbn [app]. rewrite skip_ws_head by done.
    change (quote :: ?x ++ ?y) with (quote :: x ++ y). apply read_string_text.
  - destruct (value_text_head _ _ Hw) as (h & t & Ht & Hws & _).
    rewrite length_app in Hn. unfold string_text in Hn. cbn [length] in Hn.
    rewrite Ht at 1. cbn [app]. rewrite skip_ws_head by done.
    change (h :: t ++ ?x) with ((h :: t) ++ x). rewrite <- Ht. apply Hj; [lia|done].
Qed.

Lemma read_members_text depth kv ms n rest :
  Forall (λ kv : string * json, reads_back depth kv.2) (kv :: ms) →
  forallb (λ kv, writable depth kv.2) (kv :: ms) = true →
  2 * length (separated member_text (kv :: ms)) < n →
  read_members n depth (separated member_text (kv :: ms) ++ rune_of "}" :: rest) =
    Some (map (λ kv, (to_valid kv.1, repaired kv.2)) (kv :: ms), rest).
Proof.
  revert kv n. induction ms as [|kv' ms IH]; intros kv n Hall Hw Hn; (destruct n as [|n]; [lia|]); cbn [read_members].
  - apply Forall_cons in Hall as [Hj _]. simpl in Hw. rewrite andb_true_r in Hw.
    change (separated member_text [kv]) with (member_text kv) in *.
    destruct (read_member depth kv n (rune_of "}" :: rest) Hj Hw) as [Hk Hv]; [lia|by apply number_stops_char|].
    rewrite Hk, skip_ws_head by done. change (is_char ":" (rune_of ":")) with true. cbv iota.
    rewrite Hv, skip_ws_head by done. done.
  - apply Forall_cons in Hall as [Hj Hall]. rewrite separated_cons in Hn |- *.
    apply andb_true_iff in Hw as [Hwj Hw]. rewrite length_app in Hn. cbn [length] in Hn.
    rewrite <- app_assoc. set (more := (rune_of "," :: separated member_text (kv' :: ms)) ++ rune_of "}" :: rest).
    destruct (read_member depth kv n more Hj Hwj) as [Hk Hv]; [lia|by apply number_stops_char|].
    rewrite Hk, skip_ws_head by done. change (is_char ":" (rune_of ":")) with true. cbv iota.
    rewrite Hv. unfold more. cbn [app]. rewrite skip_ws_head by done.
    change (is_char "," (rune_of ",")) with true. cbv iota.
    rewrite IH; [done|done|done|lia].
Qed.

Lemma read_literal j word n depth rest :
  (j, word) ∈ [(JNull, "null"); (JBool true, "true"); (JBool false, "false")] → 0 < n →
  read_value n depth (ascii_runes word ++ rest) = Some (j, rest).
Proof.
  intros Hj Hn. destruct n; [lia|]. rewrite !elem_of_cons in Hj.
  destruct Hj as [[= -> ->]|[[= -> ->]|[[= -> ->]|?%elem_of_nil]]]; done.
Qed.

(** A value that starts like a number is read as one. *)
Lemma read_value_number n depth r s :
  is_digit r = true ∨ is_char "-" r = true → read_value (S n) depth (r :: s) = read_number (r :: s).
Proof.
  intros H. assert (45 <= code r <= 57)%N as Hr.
  { unfold is_digit, is_char in H. change (N_of_ascii "-") with 45%N in H.
    destruct H as [[H1%N.leb_le H2%N.leb_le]%andb_true_iff|H%N.eqb_eq]; lia. }
  assert (∀ a, (57 < N_of_ascii a ∨ N_of_ascii a < 45)%N → is_char a r = false) as Hne.
  { intros a Ha. apply N.eqb_neq. lia. }
  assert (∀ a w, (57 < N_of_ascii a)%N → strip (ascii_runes (String a w)) (r :: s) = None) as Hstrip.
  { intros a w Ha. cbn. destruct (N.eqb_spec (N_of_ascii a) (code r)); [lia|done]. }
  cbn [read_value]. rewrite !Hne by (vm_compute; auto). by rewrite !Hstrip by (vm_compute; auto).
Qed.

Lemma value_reads_back : ∀ j depth, writable depth j = true → reads_back depth j.
Proof.
  refine (json_nested_ind _ _ _ _ _ _ _ _).
  - intros depth _ n rest Hn _. apply (read_literal JNull "null"); [by left|simpl in Hn; lia].
  - intros [] depth _ n rest Hn _; [apply (read_literal (JBool true) "true")|apply (read_literal (JBool false) "false")];
      rewrite ?elem_of_cons; auto; simpl in Hn; lia.
  - intros z depth _ n rest Hn Hrest. cbn [value_text repaired] in *. destruct n as [|n].
    { exfalso. destruct (value_text_head depth (JNum z) eq_refl) as (h & t & Ht & _). cbn [value_text] in Ht.
      rewrite Ht in Hn. simpl in Hn. lia. }
    rewrite <- (read_number_text z rest) by done. destruct z as [|p|p].
    + apply read_value_number. by left.
    + destruct (pretty_pos_digits p) as (d & ds & Ht & _ & Hd & _).
      change (pretty (Z.pos p)) with (pretty (N.pos p)). rewrite Ht. apply read_value_number. by left.
    + apply read_value_number. by right.
  - done.
  - intros s depth _ n rest Hn _. destruct n as [|n]; [simpl in Hn; lia|].
    cbn [value_text repaired]. change (string_text s ++ rest) with (quote :: (((runes s ≫= escape) ++ [quote]) ++ rest)).
    cbn [read_value]. change (is_char "{" quote) with false. change (is_char "[" quote) with false.
    change (is_char "034" quote) with true. cbv iota.
    change (quote :: (((runes s ≫= escape) ++ [quote]) ++ rest)) with (string_text s ++ rest). by rewrite read_string_text.
  - intros js IH depth [Hd Hw]%andb_true_iff n rest Hn _. apply negb_true_iff in Hd.
    destruct n as [|n]; [simpl in Hn; lia|]. cbn [value_text repaired length] in *. rewrite length_app in Hn. cbn [length] in Hn.
    cbn [app read_value]. change (is_char "{" (rune_of "[")) with false. change (is_char "[" (rune_of "[")) with true.
    cbv iota. rewrite Hd, <- app_assoc. cbn [app]. destruct js as [|j js]; [done|].
    assert (Forall (reads_back (depth - 1)) (j :: js)) as Hall.
    { rewrite forallb_forall in Hw. rewrite Forall_forall in IH |- *. intros x Hx. apply IH; [done|].
      apply Hw. by apply list_elem_of_In. }
    pose proof (read_elems_text (depth - 1) j js n rest Hall Hw ltac:(lia)) as Hread.
    destruct (value_text_head (depth - 1) j) as (h & t & Ht & Hws & Hb); [by apply andb_true_iff in Hw as [? _]|].
    assert (∃ t', separated value_text (j :: js) = h :: t') as [t' Ht'].
    { destruct js; [by exists t|]. rewrite separated_cons, Ht. by eexists. }
    rewrite Ht' in *. cbn [app] in *. rewrite skip_ws_head by done. by rewrite Hb, Hread.
  - intros ms IH depth [Hd Hw]%andb_true_iff n rest Hn _. apply negb_true_iff in Hd.
    destruct n as [|n]; [simpl in Hn; lia|]. cbn [value_text repaired length] in *. rewrite length_app in Hn. cbn [length] in Hn.
    cbn [app read_value]. change (is_char "{" (rune_of "{")) with true.
    cbv iota. rewrite Hd, <- app_assoc. cbn [app]. destruct ms as [|kv ms]; [done|].
    assert (Forall (λ kv : string * json, reads_back (depth - 1) kv.2) (kv :: ms)) as Hall.
    { rewrite forallb_forall in Hw. rewrite Forall_forall in IH |- *. intros x Hx. apply IH; [done|].
      apply Hw. by apply list_elem_of_In. }
    pose proof (read_members_text (depth - 1) kv ms n rest Hall Hw ltac:(lia)) as Hread.
    assert (∃ t', separated member_text (kv :: ms) = quote :: t') as [t' Ht'].
    { destruct ms; [by eexists|]. rewrite separated_cons. by eexists. }
    rewrite Ht' in *. cbn [app] in *. rewrite skip_ws_head by done. change (is_char "}" quote) with false. cbv iota.
    by rewrite Hread.
Qed.
End read_write.
