(* ===== verification/JsonStream.v ===== *)
(** * Readers of JSON text

What the readers of JsonText.v leave of their input, that their fuel is enough,
that the texts they return are valid, and what a decoder finds in a body. *)

From S2P Require Import Prelude GoValues Text Json JsonText.

(** ** What a reader leaves *)

(** [leftover s rest]: [rest] is what is left of [s] after at least one rune. *)
Definition leftover (s rest : list rune) : Prop := ∃ c pre, s = c :: pre ++ rest.

Lemma leftover_cons c s : leftover (c :: s) s.
Proof. by exists c, []. Qed.
Lemma leftover_trans s1 s2 s3 : leftover s1 s2 → leftover s2 s3 → leftover s1 s3.
Proof. intros (c & p & ->) (d & q & ->). exists c, (p ++ d :: q). by rewrite <- app_assoc. Qed.
Lemma leftover_skip c s t : leftover s t → leftover (c :: s) t.
Proof. apply leftover_trans, leftover_cons. Qed.
Lemma leftover_length s t : leftover s t → length t < length s.
Proof. intros (c & p & ->). simpl. rewrite length_app. lia. Qed.
Lemma leftover_Forall (P : rune → Prop) s t : leftover s t → Forall P s → Forall P t.
Proof. intros (c & p & ->) [_ [_ ?]%Forall_app]%Forall_cons. done. Qed.

(** What may follow, or nothing at all. *)
Definition leftover_le (s rest : list rune) : Prop := s = rest ∨ leftover s rest.
Lemma leftover_le_l s1 s2 s3 : leftover_le s1 s2 → leftover s2 s3 → leftover s1 s3.
Proof. intros [->|?] ?; [done|by eapply leftover_trans]. Qed.
Lemma leftover_le_r s1 s2 s3 : leftover s1 s2 → leftover_le s2 s3 → leftover s1 s3.
Proof. intros ? [->|?]; [done|by eapply leftover_trans]. Qed.

#[local] Hint Resolve leftover_cons leftover_skip : core.

Lemma skip_ws_le s : leftover_le s (skip_ws s).
Proof.
  induction s as [|r s IH]; [by left|]. cbn [skip_ws]. destruct (is_ws r); [|by left]. right.
  eapply leftover_le_r; [apply leftover_cons|exact IH].
Qed.

Lemma digits_le s : leftover_le s (digits s).2.
Proof.
  induction s as [|r s IH]; [by left|]. cbn [digits]. destruct (is_digit r); [|by left]. right.
  destruct (digits s) as [ds rest]. eapply leftover_le_r; [apply leftover_cons|exact IH].
Qed.

Lemma hex4_left s u rest : hex4 s = Some (u, rest) → leftover s rest.
Proof. destruct s as [|a [|b [|c [|d s]]]]; simpl; try done. repeat case_match; intros [= _ ->]. auto. Qed.

Lemma low_half_left u s c rest : low_half u s = Some (c, rest) → leftover s rest.
Proof.
  destruct s as [|b [|e s]]; simpl; try done. destruct (_ && _); [|done].
  destruct (hex4 s) as [[l s']|] eqn:Hh; [|done]. apply hex4_left in Hh.
  destruct (_ && _); [|done]. intros [= _ <-]. auto.
Qed.

Lemma read_char_left s c rest : read_char s = Some (c, rest) → leftover s rest.
Proof.
  destruct s as [|r s]; [done|]. cbn [read_char]. destruct (is_char "\" r).
  - destruct s as [|e s]; [done|]. destruct (simple_escape e); [intros [= _ <-]; auto|].
    destruct (is_char "u" e); [|done]. destruct (hex4 s) as [[u s']|] eqn:Hh; [|done]. apply hex4_left in Hh.
    destruct (surrogate u); [|intros [= _ <-]; auto]. destruct (low_half u s') as [[l s2]|] eqn:Hl.
    + apply low_half_left in Hl. intros [= _ <-]. eauto using leftover_trans.
    + intros [= _ <-]. auto.
  - destruct (_ || _); [done|]. intros [= _ <-]. auto.
Qed.

Lemma read_chars_left n s cs rest : read_chars n s = Some (cs, rest) → leftover s rest.
Proof.
  revert s cs rest. induction n as [|n IH]; intros s cs rest; [done|]. cbn [read_chars].
  destruct s as [|r s]; [done|]. destruct (is_char _ r); [intros [= _ <-]; auto|].
  destruct (read_char _) as [[c s1]|] eqn:Hc; [|done]. apply read_char_left in Hc.
  destruct (read_chars n s1) as [[cs' s2]|] eqn:Hcs; [|done]. apply IH in Hcs.
  intros [= _ <-]. by eapply leftover_trans.
Qed.

Lemma read_string_left s t rest : read_string s = Some (t, rest) → leftover s rest.
Proof.
  destruct s as [|q s]; [done|]. cbn [read_string]. destruct (is_char _ q); [|done].
  destruct (read_chars _ s) as [[cs s1]|] eqn:Hc; [|done]. apply read_chars_left in Hc. intros [= _ <-]. auto.
Qed.

Lemma strip_le w s rest : strip w s = Some rest → leftover_le s rest.
Proof.
  revert s. induction w as [|a w IH]; intros s; cbn [strip]; [destruct s; intros [= <-]; by left|].
  destruct s as [|r s]; [done|]. destruct (_ =? _)%N; [|done]. intros H%IH. right.
  eapply leftover_le_r; [apply leftover_cons|done].
Qed.

Lemma strip_left a w r s rest : strip (a :: w) (r :: s) = Some rest → leftover (r :: s) rest.
Proof.
  cbn [strip]. destruct (_ =? _)%N; [|done]. intros H%strip_le. eapply leftover_le_r; [apply leftover_cons|done].
Qed.

Lemma fraction_le s f rest : fraction s = Some (f, rest) → leftover_le s rest.
Proof.
  destruct s as [|r s]; cbn [fraction]; [intros [= _ <-]; by left|].
  destruct (is_char _ r); [|intros [= _ <-]; by left]. pose proof (digits_le s) as Hd.
  destruct (digits s) as [[|d ds] rest']; [done|]. intros [= _ <-]. right.
  eapply leftover_le_r; [apply leftover_cons|done].
Qed.

Lemma exponent_le s e rest : exponent s = Some (e, rest) → leftover_le s rest.
Proof.
  destruct s as [|r s]; cbn [exponent]; [intros [= _ <-]; by left|].
  destruct (_ || _); [|intros [= _ <-]; by left].
  destruct s as [|g s]; [done|]. destruct (is_char "+" g || is_char "-" g).
  - pose proof (digits_le s) as Hd. destruct (digits s) as [[|d ds] rest']; [done|]. intros [= _ <-]. right.
    eapply leftover_le_r; [apply leftover_skip, leftover_cons|done].
  - pose proof (digits_le (g :: s)) as Hd. destruct (digits (g :: s)) as [[|d ds] rest']; [done|].
    intros [= _ <-]. right. eapply leftover_le_r; [apply leftover_cons|done].
Qed.

Lemma integer_part_left s ds rest : integer_part s = Some (ds, rest) → leftover s rest.
Proof.
  destruct s as [|r s]; [done|]. cbn [integer_part]. destruct (is_char _ r); [intros [= _ <-]; auto|].
  destruct (is_digit r); [|done]. pose proof (digits_le s) as Hd. destruct (digits s) as [ds' rest'].
  intros [= _ <-]. eapply leftover_le_r; [apply leftover_cons|done].
Qed.

Lemma read_number_left s j rest : read_number s = Some (j, rest) → leftover s rest.
Proof.
  unfold read_number. destruct (match s with [] => _ | _ => _ end) as [sign s1] eqn:Hs.
  assert (leftover_le s s1) as Hle.
  { destruct s as [|r s]; [injection Hs as <- <-; by left|].
    destruct (is_char _ r); injection Hs as <- <-; [right; auto|by left]. }
  destruct (integer_part s1) as [[ds s2]|] eqn:Hi; [|done]. apply integer_part_left in Hi.
  destruct (fraction s2) as [[f s3]|] eqn:Hf; [|done]. apply fraction_le in Hf.
  destruct (exponent s3) as [[e s4]|] eqn:He; [|done]. apply exponent_le in He. intros [= _ <-].
  eapply leftover_le_l; [exact Hle|]. eapply leftover_le_r; [|exact He]. by eapply leftover_le_r.
Qed.

(** The three readers of values, together. *)
Definition value_left n : Prop := ∀ d s j rest, read_value n d s = Some (j, rest) → leftover s rest.
Definition elems_left n : Prop := ∀ d s js rest, read_elems n d s = Some (js, rest) → leftover s rest.
Definition members_left n : Prop := ∀ d s ms rest, read_members n d s = Some (ms, rest) → leftover s rest.

Lemma value_left_step n : elems_left n → members_left n → value_left (S n).
Proof.
  intros IHe IHm d s x rest. cbn [read_value]. destruct s as [|r s]; [done|].
  pose proof (skip_ws_le s) as Hs.
  destruct (is_char "{" r); [|destruct (is_char "[" r)]; [destruct (d =? 0)%N; [done|]..|];
    [destruct (skip_ws s) as [|c s1]; [done|]..|].
  - destruct (is_char _ c).
    + intros [= _ <-]. apply leftover_skip. by eapply leftover_le_l.
    + destruct (read_members _ _ _) as [[ms s2]|] eqn:Hm; [|done]. apply IHm in Hm. intros [= _ <-].
      apply leftover_skip. by eapply leftover_le_l.
  - destruct (is_char _ c).
    + intros [= _ <-]. apply leftover_skip. by eapply leftover_le_l.
    + destruct (read_elems _ _ _) as [[js s2]|] eqn:Hm; [|done]. apply IHe in Hm. intros [= _ <-].
      apply leftover_skip. by eapply leftover_le_l.
  - destruct (is_char _ r).
    + destruct (read_string _) as [[t s1]|] eqn:Ht; [|done]. intros [= _ <-]. by eapply read_string_left.
    + destruct (strip (ascii_runes "null") _) eqn:H1; [intros [= _ <-]; exact (strip_left _ _ _ _ _ H1)|].
      destruct (strip (ascii_runes "true") _) eqn:H2; [intros [= _ <-]; exact (strip_left _ _ _ _ _ H2)|].
      destruct (strip (ascii_runes "false") _) eqn:H3; [intros [= _ <-]; exact (strip_left _ _ _ _ _ H3)|].
      apply read_number_left.
Qed.

Lemma elems_left_step n : value_left n → elems_left n → elems_left (S n).
Proof.
  intros IHv IHe d s x rest. cbn [read_elems]. pose proof (skip_ws_le s) as Hs0.
  destruct (read_value _ _ _) as [[j s1]|] eqn:Hv; [|done]. apply IHv in Hv.
  pose proof (skip_ws_le s1) as Hs. destruct (skip_ws s1) as [|c s2]; [done|].
  assert (leftover s s2) as Hl.
  { eapply leftover_le_l; [exact Hs0|]. eapply leftover_trans; [exact Hv|]. by eapply leftover_le_l. }
  destruct (is_char "," c).
  - destruct (read_elems _ _ _) as [[js s3]|] eqn:He; [|done]. apply IHe in He. intros [= _ <-].
    by eapply leftover_trans.
  - destruct (is_char "]" c); [|done]. by intros [= _ <-].
Qed.

Lemma members_left_step n : value_left n → members_left n → members_left (S n).
Proof.
  intros IHv IHm d s x rest. cbn [read_members]. pose proof (skip_ws_le s) as Hs0.
  destruct (read_string _) as [[k s1]|] eqn:Hk; [|done]. apply read_string_left in Hk.
  pose proof (skip_ws_le s1) as Hs. destruct (skip_ws s1) as [|c s2]; [done|].
  assert (leftover s s2) as Hl.
  { eapply leftover_le_l; [exact Hs0|]. eapply leftover_trans; [exact Hk|]. by eapply leftover_le_l. }
  destruct (is_char ":" c); [|done]. pose proof (skip_ws_le s2) as Hs2.
  destruct (read_value _ _ _) as [[j s3]|] eqn:Hv; [|done]. apply IHv in Hv.
  pose proof (skip_ws_le s3) as Hs3. destruct (skip_ws s3) as [|c' s4]; [done|].
  assert (leftover s s4) as Hl'.
  { eapply leftover_trans; [exact Hl|]. eapply leftover_le_l; [exact Hs2|].
    eapply leftover_trans; [exact Hv|]. by eapply leftover_le_l. }
  destruct (is_char "," c').
  - destruct (read_members _ _ _) as [[ms s5]|] eqn:Hm; [|done]. apply IHm in Hm. intros [= _ <-].
    by eapply leftover_trans.
  - destruct (is_char "}" c'); [|done]. by intros [= _ <-].
Qed.

Lemma readers_left n : value_left n ∧ elems_left n ∧ members_left n.
Proof.
  induction n as [|n (IHv & IHe & IHm)]; [done|].
  auto using value_left_step, elems_left_step, members_left_step.
Qed.

(** ** Fuel *)

(** Twice the length of the text is enough: more changes nothing. *)
Lemma read_value_fuel_step k s d n m :
  length s <= k →
  (∀ s d n m, length s < k → 2 * length s < n → 2 * length s < m → read_elems n d s = read_elems m d s) →
  (∀ s d n m, length s < k → 2 * length s < n → 2 * length s < m → read_members n d s = read_members m d s) →
  2 * length s <= n → 2 * length s <= m → read_value n d s = read_value m d s.
Proof.
  intros Hk He Hm Hn Hm'. destruct s as [|r s]; [by destruct n, m|]. simpl in *.
  destruct n as [|n]; [lia|]. destruct m as [|m]; [lia|]. cbn [read_value].
  assert (∀ c t, skip_ws s = c :: t → length (c :: t) <= length s) as Hskip.
  { intros c t <-. destruct (skip_ws_le s) as [<-|H]; [done|]. apply leftover_length in H. lia. }
  destruct (is_char "{" r); [|destruct (is_char "[" r); [|done]]; (destruct (d =? 0)%N; [done|]);
    (destruct (skip_ws s) as [|c t]; [done|]); specialize (Hskip c t eq_refl).
  - rewrite (Hm (c :: t) (d - 1)%N n m) by lia. done.
  - rewrite (He (c :: t) (d - 1)%N n m) by lia. done.
Qed.

Lemma read_fuel k :
  (∀ s d n m, length s <= k → 2 * length s <= n → 2 * length s <= m → read_value n d s = read_value m d s) ∧
  (∀ s d n m, length s <= k → 2 * length s < n → 2 * length s < m → read_elems n d s = read_elems m d s) ∧
  (∀ s d n m, length s <= k → 2 * length s < n → 2 * length s < m → read_members n d s = read_members m d s).
Proof.
  induction k as [k IH] using lt_wf_ind.
  assert (∀ s d n m, length s <= k → 2 * length s <= n → 2 * length s <= m → read_value n d s = read_value m d s) as Hv.
  { intros s d n m Hk. apply (read_value_fuel_step k); [done|..]; intros s' d' n' m' Hlt ? ?;
      (destruct (IH (length s') Hlt) as (_ & He & Hm)); auto. }
  assert (∀ s, length (skip_ws s) <= length s) as Hskip.
  { intros s. destruct (skip_ws_le s) as [<-|H]; [done|]. apply leftover_length in H. lia. }
  split_and!; [exact Hv| |]; intros s d [|n] [|m] Hk Hn Hm; try lia.
  - cbn [read_elems]. pose proof (Hskip s). rewrite (Hv (skip_ws s) d n m) by lia.
    destruct (read_value m d (skip_ws s)) as [[j s1]|] eqn:H1; [|done].
    apply (proj1 (readers_left m)), leftover_length in H1. pose proof (Hskip s1).
    destruct (skip_ws s1) as [|c s2]; [done|]. simpl in *.
    destruct (is_char "," c); [|done]. destruct (IH (length s2)) as (_ & He & _); [lia|].
    by rewrite (He s2 d n m) by lia.
  - cbn [read_members]. pose proof (Hskip s).
    destruct (read_string (skip_ws s)) as [[t s1]|] eqn:H1; [|done].
    apply read_string_left, leftover_length in H1. pose proof (Hskip s1).
    destruct (skip_ws s1) as [|c s2]; [done|]. simpl in *. destruct (is_char ":" c); [|done].
    pose proof (Hskip s2). rewrite (Hv (skip_ws s2) d n m) by lia.
    destruct (read_value m d (skip_ws s2)) as [[j s3]|] eqn:H3; [|done].
    apply (proj1 (readers_left m)), leftover_length in H3. pose proof (Hskip s3).
    destruct (skip_ws s3) as [|c' s4]; [done|]. simpl in *.
    destruct (is_char "," c'); [|done]. destruct (IH (length s4)) as (_ & _ & Hms); [lia|].
    by rewrite (Hms s4 d n m) by lia.
Qed.

Lemma read_json_fuel s n : 2 * length s <= n → read_value n maxNestingDepth s = read_json s.
Proof. intros. by apply (read_fuel (length s)). Qed.

(** ** Texts read are valid *)

Lemma decoded_repair r : decoded_rune r → self_delimiting (repair r).
Proof.
  unfold repair. intros [->|(Hr & Hinv & Hc & Hs)]; [apply replacement_self|]. rewrite Hinv, Hr.
  by apply EncodeRune_self.
Qed.

Lemma decoded_ascii r : decoded_rune r → (code r < 128)%N → self_delimiting r.
Proof.
  intros [Hinv|(Hr & _ & Hc & Hs)] Hlt.
  - unfold invalid_rune in Hinv. apply andb_true_iff in Hinv as [H%N.eqb_eq _]. lia.
  - rewrite Hr. by apply EncodeRune_self.
Qed.

Lemma is_char_code a r : is_char a r = true → code r = N_of_ascii a.
Proof. apply N.eqb_eq. Qed.

Lemma simple_escape_self e a : decoded_rune e → simple_escape e = Some a → self_delimiting a.
Proof.
  unfold simple_escape. intros He.
  destruct (_ || _) eqn:H; [|repeat case_match; intros [= <-]; by apply rune_of_self].
  intros [= <-]. apply decoded_ascii; [done|].
  repeat (apply orb_true_iff in H as [H|H]); apply is_char_code in H; rewrite H; by vm_compute.
Qed.

Lemma hex_of_rune_bound r n : hex_of_rune r = Some n → (n < 16)%N.
Proof.
  unfold hex_of_rune. cbv zeta. intros H. repeat case_match; simplify_eq;
    match goal with H : (_ && _) = true |- _ => apply andb_true_iff in H as [?%N.leb_le ?%N.leb_le] end; lia.
Qed.

Lemma hex4_bound s u rest : hex4 s = Some (u, rest) → (u < 65536)%N.
Proof.
  destruct s as [|a [|b [|c [|d s]]]]; try done. cbn [hex4]. intros H. repeat case_match; simplify_eq.
  repeat match goal with H : hex_of_rune _ = Some _ |- _ => apply hex_of_rune_bound in H end. lia.
Qed.

Lemma low_half_bound u s c rest :
  surrogate u = true → low_half u s = Some (c, rest) → (c < 1114112)%N ∧ surrogate c = false.
Proof.
  intros [H1%N.leb_le H2%N.leb_le]%andb_true_iff. destruct s as [|b [|e s]]; simpl; try done.
  destruct (is_char _ b && _); [|done]. destruct (hex4 s) as [[l s']|]; [|done].
  destruct ((u <? 56320) && _ && _)%N eqn:H; [|done]. intros [= <- _].
  apply andb_true_iff in H as [[Hu%N.ltb_lt Hl%N.leb_le]%andb_true_iff Hl'%N.ltb_lt].
  split; [lia|]. unfold surrogate. apply andb_false_iff. right. apply N.leb_gt. lia.
Qed.

Lemma read_char_self s c rest : Forall decoded_rune s → read_char s = Some (c, rest) → self_delimiting c.
Proof.
  intros Hs. destruct s as [|r s]; [done|]. apply Forall_cons in Hs as [Hr Hs]. cbn [read_char].
  destruct (is_char "\" r).
  - destruct s as [|e s]; [done|]. apply Forall_cons in Hs as [He Hs].
    destruct (simple_escape e) as [a|] eqn:Ha; [intros [= <- _]; by eapply simple_escape_self|].
    destruct (is_char "u" e); [|done]. destruct (hex4 s) as [[u s']|] eqn:Hh; [|done]. apply hex4_bound in Hh.
    destruct (surrogate u) eqn:Hsur.
    + destruct (low_half u s') as [[l s2]|] eqn:Hl; intros [= <- _]; [|apply replacement_self].
      destruct (low_half_bound _ _ _ _ Hsur Hl). by apply EncodeRune_self.
    + intros [= <- _]. apply EncodeRune_self; [lia|done].
  - destruct (_ || _); [done|]. intros [= <- _]. by apply decoded_repair.
Qed.

Lemma read_chars_self n s cs rest :
  Forall decoded_rune s → read_chars n s = Some (cs, rest) → Forall self_delimiting cs.
Proof.
  revert s cs rest. induction n as [|n IH]; intros s cs rest Hs; [done|]. cbn [read_chars].
  destruct s as [|r s]; [done|]. destruct (is_char _ r); [by intros [= <- _]|].
  destruct (read_char _) as [[c s1]|] eqn:Hc; [|done]. pose proof (read_char_left _ _ _ Hc) as Hl.
  apply read_char_self in Hc; [|done].
  destruct (read_chars n s1) as [[cs' s2]|] eqn:Hcs; [|done]. apply IH in Hcs; [|by eapply leftover_Forall].
  intros [= <- _]. by constructor.
Qed.

Lemma read_string_valid s t rest : Forall decoded_rune s → read_string s = Some (t, rest) → valid_text t.
Proof.
  intros Hs. destruct s as [|q s]; [done|]. apply Forall_cons in Hs as [_ Hs]. cbn [read_string].
  destruct (is_char _ q); [|done]. destruct (read_chars _ s) as [[cs s1]|] eqn:Hc; [|done].
  intros [= <- _]. by eapply valid_text_self, read_chars_self.
Qed.

(** A value all of whose texts are valid. *)
Definition valid_json (j : json) : Prop := repaired j = j.

Lemma read_number_valid s j rest : read_number s = Some (j, rest) → valid_json j.
Proof.
  unfold read_number. destruct (match s with [] => _ | _ => _ end) as [sign s1].
  destruct (integer_part s1) as [[ds s2]|]; [|done]. destruct (fraction s2) as [[f s3]|]; [|done].
  destruct (exponent s3) as [[e s4]|]; [|done]. intros [= <- _]. by destruct (f ++ e).
Qed.

Lemma readers_valid n :
  (∀ d s j rest, Forall decoded_rune s → read_value n d s = Some (j, rest) → valid_json j) ∧
  (∀ d s js rest, Forall decoded_rune s → read_elems n d s = Some (js, rest) → map repaired js = js) ∧
  (∀ d s ms rest, Forall decoded_rune s → read_members n d s = Some (ms, rest) →
     map (λ kv, (to_valid kv.1, repaired kv.2)) ms = ms).
Proof.
  assert (∀ s, Forall decoded_rune s → Forall decoded_rune (skip_ws s)) as Hskip.
  { intros s Hs. destruct (skip_ws_le s) as [<-|Hl]; [done|by eapply leftover_Forall]. }
  induction n as [|n (IHv & IHe & IHm)]; [done|]. split_and!; intros d s x rest Hs.
  - cbn [read_value]. destruct s as [|r s]; [done|]. pose proof Hs as [_ Hs']%Forall_cons. apply Hskip in Hs'.
    destruct (is_char "{" r); [|destruct (is_char "[" r)]; [destruct (d =? 0)%N; [done|]..|];
      [destruct (skip_ws s) as [|c s1]; [done|]..|].
    + destruct (is_char _ c); [by intros [= <- _]|]. destruct (read_members _ _ _) as [[ms s2]|] eqn:Hm; [|done].
      intros [= <- _]. exact (f_equal JObj (IHm _ _ _ _ Hs' Hm)).
    + destruct (is_char _ c); [by intros [= <- _]|]. destruct (read_elems _ _ _) as [[js s2]|] eqn:Hm; [|done].
      intros [= <- _]. exact (f_equal JArr (IHe _ _ _ _ Hs' Hm)).
    + destruct (is_char _ r).
      * destruct (read_string _) as [[t s1]|] eqn:Ht; [|done]. intros [= <- _].
        exact (f_equal JStr (read_string_valid _ _ _ Hs Ht)).
      * repeat (destruct (strip _ _); [by intros [= <- _]|]). apply read_number_valid.
  - cbn [read_elems]. destruct (read_value _ _ _) as [[j s1]|] eqn:Hv; [|done].
    pose proof (proj1 (readers_left n) _ _ _ _ Hv) as Hl. apply IHv in Hv; [|auto].
    apply (leftover_Forall decoded_rune) in Hl; [|auto]. apply Hskip in Hl.
    destruct (skip_ws s1) as [|c s2]; [done|]. apply Forall_cons in Hl as [_ Hl]. destruct (is_char "," c).
    + destruct (read_elems _ _ _) as [[js s3]|] eqn:He; [|done]. apply IHe in He; [|done].
      intros [= <- _]. cbn [map]. by rewrite He, Hv.
    + destruct (is_char "]" c); [|done]. intros [= <- _]. cbn [map]. by rewrite Hv.
  - cbn [read_members]. destruct (read_string _) as [[k s1]|] eqn:Hk; [|done].
    pose proof (read_string_left _ _ _ Hk) as Hl. apply read_string_valid in Hk; [|auto].
    apply (leftover_Forall decoded_rune) in Hl; [|auto]. apply Hskip in Hl.
    destruct (skip_ws s1) as [|c s2]; [done|]. apply Forall_cons in Hl as [_ Hl]. destruct (is_char ":" c); [|done].
    destruct (read_value _ _ _) as [[j s3]|] eqn:Hv; [|done].
    pose proof (proj1 (readers_left n) _ _ _ _ Hv) as Hl'. apply IHv in Hv; [|auto].
    apply (leftover_Forall decoded_rune) in Hl'; [|auto]. apply Hskip in Hl'.
    destruct (skip_ws s3) as [|c' s4]; [done|]. apply Forall_cons in Hl' as [_ Hl'].
    destruct (is_char "," c').
    + destruct (read_members _ _ _) as [[ms s5]|] eqn:Hm; [|done]. apply IHm in Hm; [|done].
      intros [= <- _]. cbn [map fst snd]. by rewrite Hm, Hk, Hv.
    + destruct (is_char "}" c'); [|done]. intros [= <- _]. cbn [map fst snd]. by rewrite Hk, Hv.
Qed.

(** ** The bytes that are written *)

Lemma ascii_runes_self s :
  forallb (λ a, (N_of_ascii a <? 128)%N) (String.list_ascii_of_string s) = true →
  Forall self_delimiting (ascii_runes s).
Proof.
  unfold ascii_runes. induction (String.list_ascii_of_string s) as [|a l IH]; [by constructor|].
  intros [Ha%N.ltb_lt Hl]%andb_true_iff. cbn [map]. constructor; [by apply rune_of_self|auto].
Qed.

Lemma small_rune_self r : is_digit r = true → r = rune_of (ascii_of_N (code r)) → self_delimiting r.
Proof.
  unfold is_digit. intros [_ H%N.leb_le]%andb_true_iff ->. apply rune_of_self.
  rewrite N_ascii_embedding by lia. lia.
Qed.

Lemma pretty_self (z : Z) : Forall self_delimiting (ascii_runes (pretty z)).
Proof.
  assert (∀ p, Forall self_delimiting (ascii_runes (pretty (N.pos p)))) as Hpos.
  { intros p. destruct (pretty_pos_digits p) as (d & ds & Ht & _ & Hd & Hds & _).
    assert (Forall (λ r, is_digit r = true) (ascii_runes (pretty (N.pos p)))) as Hall
      by (rewrite Ht; by constructor).
    revert Hall. unfold ascii_runes. generalize (String.list_ascii_of_string (pretty (N.pos p))). intros l.
    induction l as [|a l IH]; [by constructor|]. intros [Ha Hl]%Forall_cons. constructor; [|auto].
    apply small_rune_self; [done|]. simpl. by rewrite ascii_N_embedding. }
  destruct z as [|p|p].
  - by apply ascii_runes_self.
  - apply Hpos.
  - change (ascii_runes (pretty (Z.neg p))) with (rune_of "-" :: ascii_runes (pretty (N.pos p))).
    constructor; [by apply rune_of_self|apply Hpos].
Qed.

Lemma hex_rune_self n : (n < 16)%N → self_delimiting (hex_rune n).
Proof.
  intros Hn. apply rune_of_self. destruct (N.ltb_spec n 10); rewrite N_ascii_embedding by lia; lia.
Qed.

Lemma escape_self r : decoded_rune r → Forall self_delimiting (escape r).
Proof.
  intros Hr. unfold escape. cbv zeta.
  assert (∀ a, (N_of_ascii a < 128)%N → is_char a r = true → self_delimiting r) as Hchar.
  { intros a Ha Hc%is_char_code. apply decoded_ascii; [done|lia]. }
  destruct (is_char "034" r) eqn:E1; [apply Forall_app; split; [by apply ascii_runes_self|];
    constructor; [by apply (Hchar "034"%char)|done]|].
  destruct (is_char "\" r) eqn:E2; [apply Forall_app; split; [by apply ascii_runes_self|];
    constructor; [by apply (Hchar "\"%char)|done]|].
  repeat match goal with
  | |- Forall _ (if is_char ?a r then ascii_runes _ else _) => destruct (is_char a r); [by apply ascii_runes_self|]
  end.
  destruct ((_ <? 32)%N || _ || _ || _) eqn:E3.
  { apply Forall_app. split; [by apply ascii_runes_self|]. apply Forall_cons_2, Forall_cons_2, Forall_nil_2;
      apply hex_rune_self; [|by apply N.mod_lt].
    apply N.Div0.div_lt_upper_bound. rewrite !orb_true_iff in E3.
      destruct E3 as [[[H%N.ltb_lt|H]|H]|H]; [lia|..]; apply is_char_code in H; rewrite H; by vm_compute. }
  destruct ((_ =? 8232)%N || _).
  { apply Forall_app. split; [by apply ascii_runes_self|]. apply Forall_cons_2, Forall_nil_2.
    by apply hex_rune_self, N.mod_lt. }
  destruct (invalid_rune r) eqn:E4; [by apply ascii_runes_self|]. constructor; [|done].
  pose proof (decoded_repair r Hr) as H. unfold repair in H. by rewrite E4 in H.
Qed.

Lemma string_text_self s : Forall self_delimiting (string_text s).
Proof.
  unfold string_text. constructor; [by apply rune_of_self|]. apply Forall_app. split; [|apply Forall_cons_2, Forall_nil_2; by apply rune_of_self].
  pose proof (runes_decoded s) as Hd. induction Hd as [|r rs Hr _ IH]; [done|].
  cbn [mbind list_bind]. apply Forall_app. split; [by apply escape_self|done].
Qed.

Lemma separated_self {A} (text : A → list rune) l :
  Forall (λ a, Forall self_delimiting (text a)) l → Forall self_delimiting (separated text l).
Proof.
  induction 1 as [|a l Ha Hl IH]; [done|]. destruct l as [|b l]; [done|]. rewrite separated_cons.
  apply Forall_app. split; [done|]. constructor; [by apply rune_of_self|done].
Qed.

Lemma value_text_self : ∀ j depth, writable depth j = true → Forall self_delimiting (value_text j).
Proof.
  refine (json_nested_ind _ _ _ _ _ _ _ _); cbn [writable value_text].
  - intros _ _. by apply ascii_runes_self.
  - intros [] _ _; by apply ascii_runes_self.
  - intros z _ _. apply pretty_self.
  - done.
  - intros s _ _. apply string_text_self.
  - intros js IH depth [_ Hw]%andb_true_iff. constructor; [by apply rune_of_self|].
    apply Forall_app. split; [|apply Forall_cons_2, Forall_nil_2; by apply rune_of_self]. apply separated_self.
    rewrite forallb_forall in Hw. rewrite Forall_forall in IH |- *. intros j Hj.
    eapply IH; [done|]. by apply Hw, list_elem_of_In.
  - intros ms IH depth [_ Hw]%andb_true_iff. constructor; [by apply rune_of_self|].
    apply Forall_app. split; [|apply Forall_cons_2, Forall_nil_2; by apply rune_of_self]. apply separated_self.
    rewrite forallb_forall in Hw. rewrite Forall_forall in IH |- *. intros [k j] Hj. cbn [fst snd].
    apply Forall_app. split; [apply string_text_self|]. constructor; [by apply rune_of_self|].
    eapply (IH (k, j)); [done|]. by apply (Hw (k, j)), list_elem_of_In.
Qed.

(** ** Documents *)

Lemma read_json_text j rest :
  writable maxNestingDepth j = true → number_stops rest →
  read_json (value_text j ++ rest) = Some (repaired j, rest).
Proof. intros Hw Hrest. apply value_reads_back; [done| |done]. rewrite length_app. lia. Qed.

(** What [Marshal] writes is one document, the value with its texts repaired. *)
Lemma document_Marshal j :
  writable maxNestingDepth j = true → document (Marshal j) = Some (repaired j).
Proof.
  intros Hw. unfold document, Marshal. rewrite runes_concat_self by (by eapply value_text_self).
  destruct (value_text_head _ _ Hw) as (h & t & Ht & Hws & _).
  replace (skip_ws (value_text j)) with (value_text j ++ []).
  - by rewrite read_json_text.
  - rewrite app_nil_r, Ht. symmetry. by apply skip_ws_head.
Qed.

(** Texts of values that have only valid texts. *)
Lemma document_valid text j : document text = Some j → valid_json j.
Proof.
  unfold document. destruct (read_json _) as [[j' rest]|] eqn:Hj; [|done].
  destruct (skip_ws rest); [|done]. intros [= <-]. eapply (readers_valid _); [|exact Hj].
  destruct (skip_ws_le (runes text)) as [<-|Hl]; [apply runes_decoded|].
  eapply leftover_Forall; [exact Hl|apply runes_decoded].
Qed.

(** ** Bodies *)

Section bodies.
Context (syntax_error : string → error) (failure : option error).

(** Every value found in a body has valid texts, whatever its bytes. *)
Lemma values_of_valid n total s :
  Forall decoded_rune s → Forall (λ v, valid_json v.1) (values_of syntax_error failure n total s).1.
Proof.
  revert s. induction n as [|n IH]; intros s Hs; [constructor|]. cbn [values_of].
  assert (Forall decoded_rune (skip_ws s)) as Hws.
  { destruct (skip_ws_le s) as [<-|Hl]; [done|by eapply leftover_Forall]. }
  destruct (skip_ws s) as [|c t]; [constructor|].
  destruct (read_json (c :: t)) as [[j rest]|] eqn:Hj; [|constructor].
  pose proof (proj1 (readers_valid _) _ _ _ _ Hws Hj) as Hv.
  apply (proj1 (readers_left _)), (leftover_Forall decoded_rune) in Hj; [|done]. specialize (IH rest Hj).
  destruct (values_of _ _ n total rest) as [vs e].
  destruct (in_brackets j); [by constructor|]. destruct rest, failure; by repeat constructor.
Qed.

Lemma body_of_text_valid text :
  Forall (λ v, valid_json v.1) (body_values (body_of_text syntax_error failure text)).
Proof.
  unfold body_of_text. cbv zeta. pose proof (values_of_valid (S (length (runes text))) (byte_size (runes text))
    (runes text) (runes_decoded text)) as H. by destruct (values_of _ _ _ _ _).
Qed.

Lemma size_app s t : byte_size (s ++ t) = (byte_size s + byte_size t)%N.
Proof. unfold byte_size. rewrite concat_bytes_app, String_length_app. lia. Qed.

(** An object or array as [Marshal] writes it, before a tail of white space, is
the only value of the body, complete at its last byte. *)
Lemma body_of_Marshal j tail :
  writable maxNestingDepth j = true → in_brackets j = true → Forall (λ r, is_ws r = true) (runes tail) →
  body_of_text syntax_error failure (Marshal j +:+ tail) =
    mkBody [(repaired j, N.of_nat (String.length (Marshal j)))]
      (N.of_nat (String.length (Marshal j) + String.length tail)) failure.
Proof.
  intros Hw Hb Htail. unfold body_of_text. cbv zeta.
  pose proof (value_text_self _ _ Hw) as Hself. unfold Marshal at 1 2 3.
  rewrite runes_self by done. assert (byte_size (value_text j ++ runes tail) =
    N.of_nat (String.length (Marshal j) + String.length tail)) as Hsize.
  { rewrite size_app. unfold byte_size. rewrite concat_runes. unfold Marshal. lia. }
  destruct (value_text_head _ _ Hw) as (h & t & Ht & Hws & _).
  assert (read_json (value_text j ++ runes tail) = Some (repaired j, runes tail)) as Hread.
  { apply read_json_text; [done|].
    destruct Htail as [|r l Hr _]; [done|]. unfold is_ws in Hr. cbn [number_stops].
      repeat (apply orb_true_iff in Hr as [Hr|Hr]); apply is_char_code in Hr;
        unfold is_digit, is_char; rewrite Hr; by vm_compute. }
  cbn [values_of]. rewrite Hsize.
  replace (skip_ws (value_text j ++ runes tail)) with (value_text j ++ runes tail)
    by (rewrite Ht; symmetry; by apply skip_ws_head).
  rewrite Ht in Hread |- * at 1. cbn [app]. cbn [app] in Hread. rewrite Hread.
  assert (in_brackets (repaired j) = true) as -> by by destruct j.
  assert (values_of syntax_error failure (length (value_text j ++ runes tail))
    (N.of_nat (String.length (Marshal j) + String.length tail)) (runes tail) = ([], failure)) as ->.
  { destruct (length _); [done|]. cbn [values_of]. replace (skip_ws (runes tail)) with (@nil rune); [done|].
    clear -Htail. induction Htail as [|r l Hr _ IH]; [done|]. cbn [skip_ws]. by rewrite Hr. }
  unfold byte_size. rewrite !concat_runes, String_length_app. repeat f_equal. lia.
Qed.
End bodies.
