(* ===== verification/Http.v ===== *)
(** * Outgoing HTTP

What the adapters use of net/http, net/url and strings: building a request and
sending it, with the repetitions and redirects of net/http, the classes of response
codes, path escaping. *)

From S2P Require Import Prelude GoValues Prog Ports Json.

(** ** Requests and responses *)

(** The body is the text that is sent. *)
Record http_request := mkRequest {
  Method : string;
  URL : string;
  Header : list (string * string);
  Body : option string }.

(** [Location] is what [resp.Location()] gives: the header, resolved, if there is one. *)
Record http_response := mkResponse {
  StatusCode : Z;
  Location : option string;
  ResponseBody : body }.

Definition MethodGet : string := "GET".
Definition MethodPost : string := "POST".

(** ** Clients *)

(** [http.RoundTripper]: the default one, another, or [otelhttp.NewTransport] of one,
which injects the trace context and records a client span. *)
Inductive RoundTripper :=
| DefaultTransport
| OtherTransport (n : N)
| OtelTransport (base : RoundTripper).

(** [http.Client] with the default redirect policy; no [Timeout] is zero, no
[Transport] is nil. *)
Record http_client := mkHttpClient {
  Timeout : Z;
  Transport : option RoundTripper }.

(** What the constructors of the adapters do with the client they are given: they
work on a copy, which has a traced transport. *)
Definition instrumented (httpClient : option http_client) : http_client :=
  let clientCopy := default (mkHttpClient 0 None) httpClient in
  let transport := default DefaultTransport (Transport clientCopy) in
  mkHttpClient (Timeout clientCopy) (Some (OtelTransport transport)).

(** ** Calls *)

(** [http.NewRequestWithContext], [client.Do], and what is done with the body of
the response in hand: [io.Copy(io.Discard, io.LimitReader(resp.Body, limit))], whose
results are ignored, and [resp.Body.Close()]. *)
Inductive httpE : Type → Type :=
| NewRequest (ctx : Ctx) (method url : string) : httpE (option error)
| Do (ctx : Ctx) (req : http_request) : httpE (http_response + error)
| Discard (limit : N) : httpE unit
| CloseBody : httpE unit.

(** ** What one [Do] sends

net/http may send a request more than once.  The transport repeats it when the
connection fails and the request is replayable: it is a GET, or it carries an
Idempotency-Key and its body can be read again, which [bytes.NewReader] allows.  And
the client follows redirects: with the same method and body after 307 and 308, with a
bodiless GET after 301, 302 and 303, with the headers of the request each time.  Of
the headers only those that the code sets are modelled; some versions of net/http also
drop Content-Type from the bodiless GET. *)
Definition replayable (req : http_request) : bool :=
  ⟦Method req = MethodGet⟧ || ⟦"Idempotency-Key" ∈ (Header req).*1⟧.

Definition redirected (resp : http_response) (req : http_request) : option http_request :=
  match Location resp with
  | None => None
  | Some url =>
      if ⟦StatusCode resp ∈ [301; 302; 303]%Z⟧ then Some (mkRequest MethodGet url (Header req) None)
      else if ⟦StatusCode resp ∈ [307; 308]%Z⟧ then
        Some (mkRequest (Method req) url (Header req) (Body req))
      else None
  end.

Section sends.
(** How a server with states [S] may take and answer one request; an error is a
connection that failed before the answer, whatever the server did. *)
Context {S : Type} (exchange : S → http_request → http_response + error → S → Prop).

(** [Do] of a request takes the server from one state to another, with the requests
that were sent and the answer that is returned. *)
Inductive sends : http_request → S → list http_request → http_response + error → S → Prop :=
(** it gives up: no connection, a timeout, too many redirects *)
| sends_nothing req s err : as_PaymentFailure err = None → sends req s [] (inr err) s
| sends_last req s ans s' :
    exchange s req ans s' → match ans with inl resp => redirected resp req = None | inr _ => True end →
    sends req s [req] ans s'
| sends_again req s err s1 more ans s' :
    exchange s req (inr err) s1 → replayable req = true → sends req s1 more ans s' →
    sends req s (req :: more) ans s'
| sends_on req s resp s1 req' more ans s' :
    exchange s req (inl resp) s1 → redirected resp req = Some req' → sends req' s1 more ans s' →
    sends req s (req :: more) ans s'.

(** The same, without what was sent. *)
Definition delivery (s : S) (req : http_request) (ans : http_response + error) (s' : S) : Prop :=
  ∃ sent, sends req s sent ans s'.
End sends.

(** What may be sent for a request: the request itself, to whatever URL, or a GET with
its headers. *)
Definition transmission (req r : http_request) : Prop :=
  Header r = Header req ∧
  (Method r = Method req ∧ Body r = Body req ∨ Method r = MethodGet ∧ Body r = None).

Lemma transmission_refl req : transmission req req.
Proof. split; [done|by left]. Qed.

Lemma redirected_transmission resp req r' req' :
  redirected resp req = Some req' → transmission req' r' → transmission req r'.
Proof.
  unfold redirected. destruct (Location resp) as [url|]; [|done].
  intros Hreq [Hh Hr]. repeat case_bool_decide; simplify_eq; split; simpl in *; try done.
  right. by destruct Hr.
Qed.

Lemma sends_transmissions {S} (exchange : S → http_request → http_response + error → S → Prop) req s sent ans s' :
  sends exchange req s sent ans s' → Forall (transmission req) sent.
Proof.
  induction 1 as [| |req s err s1 more ans s' _ _ _ IH|req s resp s1 req' more ans s' _ Hred _ IH].
  - constructor.
  - constructor; [apply transmission_refl|constructor].
  - constructor; [apply transmission_refl|done].
  - constructor; [apply transmission_refl|]. eapply Forall_impl; [exact IH|].
    intros r. by eapply redirected_transmission.
Qed.

(** A call of [Do]: the request, what was sent for it, and the answer. *)
Record submission := mkSubmission {
  submitted : http_request;
  transmitted : list http_request;
  answered : http_response + error }.

(** Only what may be sent for the request was. *)
Definition transmits (x : submission) : Prop := Forall (transmission (submitted x)) (transmitted x).

(** [code < http.StatusOK || code >= http.StatusMultipleChoices] is refused. *)
Definition success_code (code : Z) : bool := negb ((code <? 200)%Z || (code >=? 300)%Z).

(** The call was answered with success. *)
Definition acknowledged (x : submission) : Prop :=
  match answered x with inl resp => success_code (StatusCode resp) = true | inr _ => False end.

(** [io.LimitReader(body, 1<<20)] ends the stream inside a value. *)
Definition body_limit : N := 1048576.
Definition unexpected_EOF : error := Foreign "unexpected EOF" None.

(** Talking to a server with states [S], given by how it may answer a request. *)
Definition wire {S : Type} (exchange : S → http_request → http_response + error → S → Prop)
    : protocol httpE :=
  Protocol httpE S (λ _ _ _, True) (λ R s (e : httpE R),
    match e in httpE R return R → S → Prop with
    | NewRequest _ _ _ => λ _ s', s' = s
    | Do _ req => λ ans s', exchange s req ans s'
    | Discard _ | CloseBody => λ _ s', s' = s
    end).

(** ** Closing the body

The clients defer the draining and the closing of the body as soon as they have a
response; [closing a] is what remains once the result [a] is computed. *)
Definition closing {A} (a : A) : prog httpE A :=
  _ ← trigger (Discard body_limit);
  _ ← trigger CloseBody;
  mret a.

(** The calls that follow an answer: its body is drained and closed, once. *)
Definition closed (ans : http_response + error) : list (call httpE) :=
  match ans with
  | inl _ => [Call (Discard body_limit) tt; Call CloseBody tt]
  | inr _ => []
  end.

Lemma exec_closing {A} (a b : A) tr :
  exec (closing a) tr (Returned b) ↔ b = a ∧ tr = [Call (Discard body_limit) tt; Call CloseBody tt].
Proof.
  split.
  - intros [[_ ?]|([] & tr1 & -> & [[_ ?]|([] & tr2 & -> & [[_ ?]|[-> [= ->]]])])]; done.
  - intros [-> ->]. right. do 2 eexists. split; [done|]. right. do 2 eexists. split; [done|]. by right.
Qed.

Lemma wp_closing {A} (P : protocol httpE) (a : A) Q g :
  (∀ R (e : httpE R) g, match e with Discard _ | CloseBody => allowed P g e | _ => True end) →
  (∀ R (e : httpE R) g r g', match e with Discard _ | CloseBody => answers P g e r g' → g' = g | _ => True end) →
  Q a g → wp P (closing a) Q g.
Proof.
  intros Ha Hs HQ. apply wp_trigger; [exact (Ha _ (Discard body_limit) g)|].
  intros [] g1 ->%(Hs _ (Discard body_limit)).
  apply wp_trigger; [exact (Ha _ CloseBody g)|]. by intros [] g2 ->%(Hs _ CloseBody).
Qed.

(** Steps through a concrete run. *)
Ltac run_step := right; do 2 eexists; (split; [reflexivity|]).

(** Ends a run of a client: with a body to close, or without. *)
Ltac wp_done := first [apply wp_closing; [by intros ? []|by intros ? []|] | apply wp_ret].

(** ** Strings *)

(** [strings.TrimRight(s, "/")]. *)
Fixpoint TrimRight_slash (s : string) : string :=
  match s with
  | EmptyString => EmptyString
  | String c s =>
      match TrimRight_slash s with
      | EmptyString => if ⟦c = "/"%char⟧ then EmptyString else String c EmptyString
      | s' => String c s'
      end
  end.

(** [shouldEscape(c, encodePathSegment)] of net/url. *)
Definition unescaped (c : ascii) : bool :=
  let n := N_of_ascii c in
  ((97 <=? n) && (n <=? 122) || (65 <=? n) && (n <=? 90) || (48 <=? n) && (n <=? 57))%N
  || ⟦c ∈ ["-"; "_"; "."; "~"; "$"; "&"; "+"; ":"; "="; "@"]%char⟧.

Definition upper_hex (n : N) : ascii := ascii_of_N (if (n <? 10)%N then 48 + n else 55 + n)%N.

(** [url.PathEscape]. *)
Fixpoint PathEscape (s : string) : string :=
  match s with
  | EmptyString => EmptyString
  | String c s =>
      if unescaped c then String c (PathEscape s)
      else let n := N_of_ascii c in
           String "%" (String (upper_hex (n / 16)) (String (upper_hex (n mod 16)) (PathEscape s)))
  end.

(** ** Lemmas *)

Definition hex_value (c : ascii) : N :=
  let n := N_of_ascii c in if (n <? 58)%N then n - 48 else n - 55.

(** Reads an escaped segment back. *)
Fixpoint unescape (s : string) : string :=
  match s with
  | String "%" (String a (String b s)) =>
      String (ascii_of_N (16 * hex_value a + hex_value b)) (unescape s)
  | String c s => String c (unescape s)
  | EmptyString => EmptyString
  end.

(** A decidable property of every byte. *)
Lemma all_ascii (f : ascii → bool) :
  forallb f (map ascii_of_N (map N.of_nat (List.seq 0 256))) = true → ∀ c, f c = true.
Proof.
  intros H c. rewrite forallb_forall in H. apply H. rewrite in_map_iff.
  exists (N_of_ascii c). split; [apply ascii_N_embedding|]. rewrite in_map_iff.
  exists (N.to_nat (N_of_ascii c)). split; [lia|]. apply in_seq. split; [lia|].
  pose proof (N_ascii_bounded c). lia.
Qed.

Lemma unescape_escaped c s :
  unescaped c = false →
  unescape (String "%" (String (upper_hex (N_of_ascii c / 16))
    (String (upper_hex (N_of_ascii c mod 16)) s))) = String c (unescape s).
Proof.
  intros _. cbn [unescape]. f_equal.
  enough (bool_decide (ascii_of_N (16 * hex_value (upper_hex (N_of_ascii c / 16)) +
    hex_value (upper_hex (N_of_ascii c mod 16))) = c) = true) as H by by apply bool_decide_eq_true in H.
  revert c. apply all_ascii. vm_compute. reflexivity.
Qed.

Lemma unescaped_not_percent c : unescaped c = true → c ≠ "%"%char.
Proof. by intros H ->. Qed.

Lemma unescape_PathEscape s : unescape (PathEscape s) = s.
Proof.
  induction s as [|c s IH]; [done|]. cbn [PathEscape]. destruct (unescaped c) eqn:Hc.
  - apply unescaped_not_percent in Hc. rewrite <- IH at 2.
    destruct c as [[] [] [] [] [] [] [] []]; done.
  - cbv zeta. by rewrite unescape_escaped, IH.
Qed.

#[global] Instance PathEscape_inj : Inj (=) (=) PathEscape.
Proof. intros s t H. by rewrite <- (unescape_PathEscape s), H, unescape_PathEscape. Qed.

Lemma string_app_inj_l (a b c : string) : a +:+ b = a +:+ c → b = c.
Proof. induction a as [|x a IH]; simpl; [done|]. intros [= H]. by apply IH. Qed.
