(* ===== verification/PaymentClient.v ===== *)
(** * The Payment Service client (src/internal/paymentclient/client.go)

[Charge] and [LookupCharge] over HTTP, and the proof that they keep the
promises of Provider.v when the service behind them keeps its HTTP contract. *)

From S2P Require Import Prelude GoValues Prog Domain Ports Text Json JsonText JsonStream Http Provider.

(** ** The client *)

Module PaymentClient.

Record Client := mkClient { baseURL : string; http : http_client }.

Definition New (baseURL : string) (httpClient : option http_client) : Client :=
  mkClient (TrimRight_slash baseURL) (instrumented httpClient).

(** [json.Marshal(chargeRequest{...})]. *)
Definition chargeRequest (req : PaymentRequest.t) : json :=
  JObj [("order_id", JStr (PaymentRequest.OrderID req));
        ("customer_id", JStr (PaymentRequest.CustomerID req));
        ("amount_cents", JNum (PaymentRequest.AmountCents req))].

Record chargeResponse := mkChargeResponse {
  Reference : string;
  Status : string }.

Definition response_fields : struct_type chargeResponse :=
  [field "reference" decode_string Reference (λ v r, mkChargeResponse v (Status r));
   field "status" decode_string Status (λ v r, mkChargeResponse (Reference r) v)].

Definition decodeChargeResponse (b : body) : PaymentResult.t * option error :=
  let decode_error err := (PaymentResult.zero, Some (wrapf "decode charge response: " err)) in
  match Decode body_limit unexpected_EOF b with
  | inr err => decode_error err
  | inl (j, _) =>
      match decode_struct false response_fields j (mkChargeResponse "" "") with
      | None => decode_error (Foreign "json" None)
      | Some out =>
          if ⟦Status out = "approved"⟧ then
            if ⟦Reference out = ""⟧ then
              (PaymentResult.zero, Some (Errorf [Wrap (Sentinel ErrInvalidResponse);
                                                 Lit ": approved response has no reference"]))
            else (PaymentResult.mk (Reference out) (Status out), None)
          else if ⟦Status out = "declined"⟧ then
            (PaymentResult.mk (Reference out) (Status out), None)
          else
            (PaymentResult.zero, Some (Errorf [Wrap (Sentinel ErrInvalidResponse);
                                               Lit ": unknown status"]))
      end
  end.

Definition charges_url (c : Client) : string := baseURL c +:+ "/v1/charges".
Definition lookup_url (c : Client) (key : string) : string :=
  baseURL c +:+ ("/v1/charges/by-idempotency-key/" +:+ PathEscape key).

Definition charge_http (c : Client) (req : PaymentRequest.t) : http_request :=
  mkRequest MethodPost (charges_url c)
    [("Content-Type", "application/json"); ("Accept", "application/json");
     ("Idempotency-Key", PaymentRequest.IdempotencyKey req)] (Some (Marshal (chargeRequest req))).

Definition Charge (c : Client) (ctx : Ctx) (req : PaymentRequest.t)
    : prog httpE (PaymentResult.t * option error) :=
  err ← trigger (NewRequest ctx MethodPost (charges_url c));
  match err with
  | Some err => mret (PaymentResult.zero, Some (wrapf "build charge request: " err))
  | None =>
      resp ← trigger (Do ctx (charge_http c req));
      match resp with
      | inr err => mret (PaymentResult.zero, Some (wrapf "call payment service: " err))
      | inl resp =>
          if negb (success_code (StatusCode resp)) then
            closing (PaymentResult.zero, Some (HTTPStatusError PaymentAdapter (StatusCode resp)))
          else closing (decodeChargeResponse (ResponseBody resp))
      end
  end.

Definition lookup_http (c : Client) (idempotencyKey : string) : http_request :=
  mkRequest MethodGet (lookup_url c idempotencyKey) [("Accept", "application/json")] None.

Definition LookupCharge (c : Client) (ctx : Ctx) (idempotencyKey : string)
    : prog httpE (PaymentResult.t * bool * option error) :=
  err ← trigger (NewRequest ctx MethodGet (lookup_url c idempotencyKey));
  match err with
  | Some err => mret (PaymentResult.zero, false, Some (wrapf "build charge lookup request: " err))
  | None =>
      resp ← trigger (Do ctx (lookup_http c idempotencyKey));
      match resp with
      | inr err => mret (PaymentResult.zero, false, Some (wrapf "look up payment charge: " err))
      | inl resp =>
          if ⟦StatusCode resp = 404%Z⟧ then closing (PaymentResult.zero, false, None)
          else if negb (success_code (StatusCode resp)) then
            closing (PaymentResult.zero, false, Some (HTTPStatusError PaymentAdapter (StatusCode resp)))
          else
            let '(result, err) := decodeChargeResponse (ResponseBody resp) in
            match err with
            | Some err => closing (PaymentResult.zero, false, Some err)
            | None => closing (result, true, None)
            end
      end
  end.

(** ** Decoded responses *)

(** A result of the client is approved with a reference, or declined. *)
Definition proper (r : PaymentResult.t) : Prop :=
  PaymentResult.Status r = "approved" ∧ PaymentResult.Reference r ≠ "" ∨
  PaymentResult.Status r = "declined".

Lemma decodeChargeResponse_cases b :
  match decodeChargeResponse b with
  | (r, None) => proper r
  | (r, Some err) => r = PaymentResult.zero ∧
      (as_PaymentFailure err = None ∨
       ∃ e, Decode body_limit unexpected_EOF b = inr e ∧ as_PaymentFailure err = as_PaymentFailure e)
  end.
Proof.
  unfold decodeChargeResponse. destruct (Decode _ _ _) as [[j b']|e] eqn:Hd; cbv zeta.
  2: { split; [done|]. right. exists e. by rewrite as_PaymentFailure_wrapf. }
  destruct (decode_struct _ _ _ _) as [out|]; [|by auto].
  case_bool_decide; [case_bool_decide|case_bool_decide]; try by auto.
  - left. simpl. auto.
  - right. simpl. auto.
Qed.

(** ** The HTTP contract of the Payment Service *)

(** A JSON document that states the outcome [c] of a charge. *)
Definition states_outcome (j : json) (c : charge_state) : Prop :=
  ∃ ms, j = JObj ms ∧
    match c with
    | Approved ref => member ms "status" = Some (JStr "approved") ∧
                      member ms "reference" = Some (JStr ref)
    | Declined => member ms "status" = Some (JStr "declined")
    | _ => False
    end.

(** The response carries a readable document: its first value names no field
twice, and what it states holds in the ledger for [key]. *)
Definition truthful (ledger : string → charge_state) (key : string) (resp : http_response) : Prop :=
  ∀ j stop vs, success_code (StatusCode resp) = true →
    body_values (ResponseBody resp) = (j, stop) :: vs →
    names_distinct j ∧ ∀ c, states_outcome j c → ledger key = c.

(** Failures of the transport do not claim that nothing was committed: neither
an error in place of a response nor one while its body is read. *)
Definition honest_transport (ans : http_response + error) : Prop :=
  match ans with
  | inr err => as_PaymentFailure err = None
  | inl resp => ∀ err, body_rest (ResponseBody resp) = Some err → as_PaymentFailure err = None
  end.

(** The statuses by which a service says it did not carry out the request: below
500, and none of 408 Request Timeout, 409 Conflict (a request with the same key
is still running), 425 Too Early, 429 Too Many Requests. *)
Definition refusal (code : Z) : Prop :=
  (code < 500)%Z ∧ code ≠ 408%Z ∧ code ≠ 409%Z ∧ code ≠ 425%Z ∧ code ≠ 429%Z.

(** What the Payment Service promises of each request it takes; one [Do] may send
several (Http.v). *)
Class PaymentService (S : Type) (c : Client) := {
  svc_ledger : S → string → charge_state;
  exchange : S → http_request → http_response + error → S → Prop;
  svc_settle : S → S → Prop;
  (** the requests that ask for the charge, or for the lookup, of a key: those that the
  client makes, and those to which the service redirects them *)
  svc_charges : http_request → string → Prop;
  svc_lookups : http_request → string → Prop;
  svc_charge_request req : svc_charges (charge_http c req) (PaymentRequest.IdempotencyKey req);
  svc_lookup_request key : svc_lookups (lookup_http c key) key;
  svc_redirect s r resp s' r' k : exchange s r (inl resp) s' → redirected resp r = Some r' →
    (svc_charges r k → svc_charges r' k) ∧ (svc_lookups r k → svc_lookups r' k);
  svc_transport s r ans s' : exchange s r ans s' → honest_transport ans;
  (** it changes only the charge of its key, never a final one, and leaves no trace of
  a charge out again *)
  svc_charge_frame s r k ans s' : svc_charges r k → exchange s r ans s' →
    (∀ k', k' ≠ k → svc_ledger s' k' = svc_ledger s k') ∧
    (∀ k', final (svc_ledger s k') → svc_ledger s' k' = svc_ledger s k') ∧
    (svc_ledger s k ≠ Untouched → svc_ledger s' k ≠ Untouched);
  (** its response is truthful, and only a key that no charge has touched is refused *)
  svc_charge_truth s r k resp s' : svc_charges r k → exchange s r (inl resp) s' →
    truthful (svc_ledger s') k resp;
  svc_charge_refused s r k resp s' : svc_charges r k → exchange s r (inl resp) s' →
    redirected resp r = None → success_code (StatusCode resp) = false →
    refusal (StatusCode resp) → svc_ledger s' k = Untouched;
  (** a lookup changes nothing and is truthful *)
  svc_lookup_frame s r k ans s' : svc_lookups r k → exchange s r ans s' →
    ∀ k', svc_ledger s' k' = svc_ledger s k';
  svc_lookup_truth s r k resp s' : svc_lookups r k → exchange s r (inl resp) s' →
    truthful (svc_ledger s) k resp;
  svc_settle_ok s s' : svc_settle s s' → settle_law (svc_ledger s) (svc_ledger s') }.

(** ** What one [Do] does to the ledger *)

Section delivered.
Context {S : Type} (c : Client) `{!PaymentService S c}.

Lemma sends_honest r s sent ans s' : sends exchange r s sent ans s' → honest_transport ans.
Proof. induction 1; try done. by eapply svc_transport. Qed.

(** However often it is sent and wherever it is redirected to, a charge keeps the
laws of one request. *)
Lemma charge_sends k r s sent ans s' :
  sends exchange r s sent ans s' → svc_charges r k →
  (∀ k', k' ≠ k → svc_ledger s' k' = svc_ledger s k') ∧
  (∀ k', final (svc_ledger s k') → svc_ledger s' k' = svc_ledger s k') ∧
  (svc_ledger s k ≠ Untouched → svc_ledger s' k ≠ Untouched).
Proof.
  assert (∀ r s ans s1 s', exchange s r ans s1 → svc_charges r k →
    (∀ k', k' ≠ k → svc_ledger s' k' = svc_ledger s1 k') ∧
    (∀ k', final (svc_ledger s1 k') → svc_ledger s' k' = svc_ledger s1 k') ∧
    (svc_ledger s1 k ≠ Untouched → svc_ledger s' k ≠ Untouched) →
    (∀ k', k' ≠ k → svc_ledger s' k' = svc_ledger s k') ∧
    (∀ k', final (svc_ledger s k') → svc_ledger s' k' = svc_ledger s k') ∧
    (svc_ledger s k ≠ Untouched → svc_ledger s' k ≠ Untouched)) as Hstep.
  { intros r1 s1 ans1 s2 s3 Hx Hr (F2 & G2 & T2).
    destruct (svc_charge_frame _ _ _ _ _ Hr Hx) as (F1 & G1 & T1). split_and!; [|..|by auto].
    - intros k' Hk. by rewrite F2, F1.
    - intros k' Hf. by rewrite G2, G1 by (rewrite ?G1; done). }
  induction 1 as [| |r s err s1 more ans s' Hx _ _ IH|r s resp s1 r' more ans s' Hx Hred _ IH]; intros Hr.
  - done.
  - by eapply svc_charge_frame.
  - eapply Hstep; [done..|auto].
  - eapply Hstep; [done..|]. by apply IH, (svc_redirect _ _ _ _ _ k Hx Hred).
Qed.

Lemma charge_sends_answer k r s sent resp s' :
  sends exchange r s sent (inl resp) s' → svc_charges r k →
  truthful (svc_ledger s') k resp ∧
  (success_code (StatusCode resp) = false → refusal (StatusCode resp) → svc_ledger s' k = Untouched).
Proof.
  remember (inl resp) as ans eqn:Hans.
  induction 1 as [| |r s err s1 more ans s' Hx _ _ IH|r s resp1 s1 r' more ans s' Hx Hred _ IH];
    intros Hr; simplify_eq/=.
  - split; [by eapply svc_charge_truth|]. intros. by eapply svc_charge_refused.
  - auto.
  - apply IH; [done|]. by apply (svc_redirect _ _ _ _ _ k Hx Hred).
Qed.

Lemma lookup_sends k r s sent ans s' :
  sends exchange r s sent ans s' → svc_lookups r k →
  (∀ k', svc_ledger s' k' = svc_ledger s k') ∧
  match ans with inl resp => truthful (svc_ledger s') k resp | inr _ => True end.
Proof.
  induction 1 as [|r s ans s' Hx Hred|r s err s1 more ans s' Hx _ _ IH|r s resp s1 r' more ans s' Hx Hred _ IH];
    intros Hr.
  - done.
  - pose proof (svc_lookup_frame _ _ _ _ _ Hr Hx) as Hf. split; [done|]. destruct ans as [resp|]; [|done].
    intros j stop vs Hc Hb. rewrite Hf. by eapply svc_lookup_truth.
  - destruct (IH Hr) as [Hf Ht]. split; [|done]. intros k'. by rewrite Hf, (svc_lookup_frame _ _ _ _ _ Hr Hx).
  - destruct IH as [Hf Ht]; [by apply (svc_redirect _ _ _ _ _ k Hx Hred)|].
    split; [|done]. intros k'. by rewrite Hf, (svc_lookup_frame _ _ _ _ _ Hr Hx).
Qed.
End delivered.

(** ** The client keeps the promises of a provider *)

(** The client takes exactly the refusals for definitive. *)
Lemma OutcomeMayHaveCommitted_refusal code :
  OutcomeMayHaveCommitted code = false ↔ refusal code.
Proof.
  unfold OutcomeMayHaveCommitted, refusal. case_match; [split; [done|lia]|].
  rewrite bool_decide_eq_false, !elem_of_cons, elem_of_nil. lia.
Qed.

Lemma find_field_response k :
  find_field response_fields k =
    if ⟦fold_name k = "REFERENCE"⟧ then
      Some (field "reference" decode_string Reference (λ v r, mkChargeResponse v (Status r))).2
    else if ⟦fold_name k = "STATUS"⟧ then
      Some (field "status" decode_string Status (λ v r, mkChargeResponse (Reference r) v)).2
    else None.
Proof.
  unfold find_field, response_fields. simpl. repeat case_decide; subst; simpl;
    repeat case_bool_decide; simplify_eq; try done; try (exfalso; by eauto).
Qed.

Lemma decoded_status strict ms r r' :
  names_distinct (JObj ms) → decode_struct strict response_fields (JObj ms) r = Some r' →
  string_after (member ms "status") (Status r) (Status r').
Proof.
  apply (decode_string_field strict response_fields "status" Status
    (λ v r, mkChargeResponse (Reference r) v)); [done|..]; intros k.
  - rewrite find_field_response. by intros ->.
  - intros d Hk. rewrite find_field_response, (bool_decide_eq_false_2 (_ = "STATUS")) by done.
    case_bool_decide; [|done]. intros [= <-] j s s'. simpl.
    destruct (decode_string j _); [|done]. by intros [= <-].
Qed.

Lemma decoded_reference strict ms r r' :
  names_distinct (JObj ms) → decode_struct strict response_fields (JObj ms) r = Some r' →
  string_after (member ms "reference") (Reference r) (Reference r').
Proof.
  apply (decode_string_field strict response_fields "reference" Reference
    (λ v r, mkChargeResponse v (Status r))); [done|..]; intros k.
  - rewrite find_field_response. by intros ->.
  - intros d Hk. rewrite find_field_response, (bool_decide_eq_false_2 (_ = "REFERENCE")) by done.
    case_bool_decide; [|done]. intros [= <-] j s s'. simpl.
    destruct (decode_string j _); [|done]. by intros [= <-].
Qed.

Lemma string_after_Some m before v :
  string_after m before v → before = "" → v ≠ "" → m = Some (JStr v).
Proof. by destruct m as [[]|]; simpl; intros; subst. Qed.

(** A decoded outcome is the one the first value of the body states. *)
Lemma decodeChargeResponse_states b r :
  decodeChargeResponse b = (r, None) →
  ∃ j stop vs, body_values b = (j, stop) :: vs ∧
    (names_distinct j → ∃ c, result_state r = Some c ∧ states_outcome j c).
Proof.
  unfold decodeChargeResponse, Decode.
  destruct (body_values b) as [|[j stop] vs]; [destruct (body_rest b); [done|by destruct (body_size b <=? body_limit)%N]|].
  destruct (stop <=? body_limit)%N; [|done].
  destruct (decode_struct _ _ _ _) as [out|] eqn:Hd; [|done]. intros Hr.
  exists j, stop, vs. split; [done|]. intros Hnd.
  assert (Status out ≠ "") as Hne.
  { intros H. rewrite H in Hr. revert Hr. by do 2 (rewrite bool_decide_eq_false_2 by done). }
  destruct j as [| | | | | |ms]; try done; [by injection Hd as <-|].
  pose proof (decoded_status _ _ _ _ Hnd Hd) as Hs.
  apply string_after_Some in Hs; [|done..].
  case_bool_decide as Ha; [case_bool_decide as Href; [done|]|case_bool_decide as Hdec; [|done]];
    injection Hr as <-; unfold result_state; simpl.
  - exists (Approved (Reference out)). rewrite bool_decide_eq_true_2 by done.
    split; [done|]. exists ms. split; [done|]. rewrite Hs, Ha. split; [done|].
    by apply (string_after_Some _ _ _ (decoded_reference _ _ _ _ Hnd Hd)).
  - exists Declined. rewrite bool_decide_eq_false_2, bool_decide_eq_true_2 by (by rewrite ?Hdec).
    split; [done|]. exists ms. by rewrite Hs, Hdec.
Qed.

Lemma truthful_result ledger key resp r c :
  success_code (StatusCode resp) = true → truthful ledger key resp →
  decodeChargeResponse (ResponseBody resp) = (r, None) → result_state r = Some c →
  ledger key = c.
Proof.
  intros Hcode Ht Hd Hr. destruct (decodeChargeResponse_states _ _ Hd) as (j & stop & vs & Hb & Hj).
  destruct (Ht _ _ _ Hcode Hb) as [Hnd Hc]. destruct (Hj Hnd) as (c' & Hr' & Hst).
  rewrite Hr in Hr'. injection Hr' as <-. by apply Hc.
Qed.

Lemma undecided_error err : as_PaymentFailure err = None → PaymentOutcomeMayHaveCommitted err = true.
Proof. unfold PaymentOutcomeMayHaveCommitted. by intros ->. Qed.

(** Errors of decoding are never definitive. *)
Lemma decode_error_undecided b r err :
  (∀ e, body_rest b = Some e → as_PaymentFailure e = None) →
  decodeChargeResponse b = (r, Some err) → PaymentOutcomeMayHaveCommitted err = true.
Proof.
  intros Hb Hd. pose proof (decodeChargeResponse_cases b) as Hc. rewrite Hd in Hc.
  destruct Hc as [_ [He|(e & He & Hee)]]; apply undecided_error; [done|]. rewrite Hee.
  revert He. unfold Decode. destruct (body_values b) as [|[j stop] vs].
  - destruct (body_rest b) as [e'|]; [intros [= <-]; by apply Hb|].
    by destruct (_ <=? _)%N; intros [= <-].
  - by destruct (_ <=? _)%N; intros [= <-].
Qed.

Section provider.
Context {S : Type} (c : Client) `{!PaymentService S c}.

Lemma Charge_law ctx req s :
  wp (wire (delivery exchange)) (Charge c ctx req)
    (λ ans s', charge_law (svc_ledger s) (svc_ledger s') req ans) s.
Proof.
  apply wp_trigger; [done|]. intros [err|] s1 Hs1; simpl in Hs1; subst s1.
  { apply wp_ret. split; by simplify_eq/=. }
  apply wp_trigger; [done|]. intros ans s' [sent Hx].
  destruct (charge_sends c _ _ _ _ _ _ Hx (svc_charge_request req)) as (Hframe & Hfinal & Htouched).
  pose proof (sends_honest c _ _ _ _ _ Hx) as Ht.
  destruct ans as [resp|err]; simpl in Ht.
  2: { apply wp_ret. split; [done|done|done|]. intros e [= <-].
       by rewrite PaymentOutcomeMayHaveCommitted_wrapf, (undecided_error _ Ht). }
  destruct (success_code (StatusCode resp)) eqn:Hcode; cbn [negb]; wp_done.
  - split; [done|done|..].
    + intros st Hans Hst. destruct (decodeChargeResponse _) as [r [err|]] eqn:Hd; [done|].
      eapply truthful_result; [done|eapply (charge_sends_answer c), svc_charge_request; exact Hx|done|done].
    + intros err Hans Hdef. destruct (decodeChargeResponse _) as [r e] eqn:Hd. simpl in Hans. subst e.
      by rewrite (decode_error_undecided _ _ _ Ht Hd) in Hdef.
  - split; [done|done|done|]. intros err [= <-] Hdef. apply OutcomeMayHaveCommitted_refusal in Hdef.
    destruct (charge_sends_answer c _ _ _ _ _ _ Hx (svc_charge_request req)) as [_ Hun].
    specialize (Hun Hcode Hdef). etrans; [exact Hun|]. symmetry.
    by destruct (decide (svc_ledger s (PaymentRequest.IdempotencyKey req) = Untouched)) as [|Hn];
      [|destruct (Htouched Hn)].
Qed.

Lemma LookupCharge_law ctx key s :
  wp (wire (delivery exchange)) (LookupCharge c ctx key)
    (λ ans s', lookup_law (svc_ledger s) (svc_ledger s') key ans) s.
Proof.
  apply wp_trigger; [done|]. intros [err|] s1 Hs1; simpl in Hs1; subst s1.
  { apply wp_ret. by split. }
  apply wp_trigger; [done|]. intros ans s' [sent Hx].
  destruct (lookup_sends c _ _ _ _ _ _ Hx (svc_lookup_request key)) as [Hf Htruth].
  destruct ans as [resp|err]; [|apply wp_ret; by split].
  case_bool_decide; [wp_done; by split|].
  destruct (success_code (StatusCode resp)) eqn:Hcode; cbn [negb]; [|wp_done; by split].
  destruct (decodeChargeResponse _) as [r [err|]] eqn:Hd; wp_done; split; try done.
  intros st _ _ Hst. rewrite <- Hf. by eapply truthful_result.
Qed.

(** The client as a provider: a call is a run of the client on the wire. *)
#[global] Program Instance http_provider : PaymentProvider S := {|
  ledger := svc_ledger;
  charge s req ans s' := ∃ ctx tr,
    exec (Charge c ctx req) tr (Returned ans) ∧ follows (wire (delivery exchange)) s tr s';
  lookup_charge s key ans s' := ∃ ctx tr,
    exec (LookupCharge c ctx key) tr (Returned ans) ∧ follows (wire (delivery exchange)) s tr s';
  settle := svc_settle |}.
Next Obligation. intros s req ans s' (ctx & tr & He & Hf). by apply (wp_exec _ _ _ _ _ _ _ (Charge_law ctx req s) He Hf). Qed.
Next Obligation. intros s key ans s' (ctx & tr & He & Hf). by apply (wp_exec _ _ _ _ _ _ _ (LookupCharge_law ctx key s) He Hf). Qed.
Next Obligation. apply svc_settle_ok. Qed.
End provider.

(** C16: The HTTP client turns the contract of the Payment Service into the
promises the usecases rely on: whatever the service and the network answer, a
[Charge] touches only its own idempotency key, an outcome it returns is the
ledger's, an error it classifies as definitive left the key untouched, and a
[LookupCharge] changes nothing and reports a charge only as the ledger has it. *)
Theorem client_keeps_provider_promises {S : Type} (c : Client) `{!PaymentService S c}
    (ctx : Ctx) (req : PaymentRequest.t) (key : string) (s : S) :
  wp (wire (delivery exchange)) (Charge c ctx req)
    (λ ans s', charge_law (svc_ledger s) (svc_ledger s') req ans) s ∧
  wp (wire (delivery exchange)) (LookupCharge c ctx key)
    (λ ans s', lookup_law (svc_ledger s) (svc_ledger s') key ans) s.
Proof. split; [apply Charge_law|apply LookupCharge_law]. Qed.

(** How [Charge] reads the answer to its only call of [Do]. *)
Definition charge_reading (ans : http_response + error) (ret : PaymentResult.t * option error) : Prop :=
  match ans, ret with
  | inr err, (r, Some err') => r = PaymentResult.zero ∧ err' = wrapf "call payment service: " err
  | inl resp, (r, None) => success_code (StatusCode resp) = true ∧ proper r
  | inl resp, (r, Some err) =>
      r = PaymentResult.zero ∧
      if success_code (StatusCode resp) then decodeChargeResponse (ResponseBody resp) = (r, Some err)
      else err = HTTPStatusError PaymentAdapter (StatusCode resp)
  | _, _ => False
  end.

(** C27: [Charge] on every branch: it sends nothing when the request cannot be
built, else it calls [Do] exactly once, with a POST that carries the order, the
amount and the idempotency key; the body of every response is drained and closed,
once; it returns a result only for a 2xx response that says approved with a reference
or declined, and otherwise the zero result with an error that keeps the status code or
the cause. *)
Theorem Charge_classifies (c : Client) (ctx : Ctx) (req : PaymentRequest.t)
    (tr : list (call httpE)) (ret : PaymentResult.t * option error)
    (ran : exec (Charge c ctx req) tr (Returned ret)) :
  (∃ err, tr = [Call (NewRequest ctx MethodPost (charges_url c)) (Some err)] ∧
     ret = (PaymentResult.zero, Some (wrapf "build charge request: " err))) ∨
  (∃ ans, tr = [Call (NewRequest ctx MethodPost (charges_url c)) None;
                Call (Do ctx (charge_http c req)) ans] ++ closed ans ∧ charge_reading ans ret).
Proof.
  destruct ran as [[_ ?]|(err & tr1 & -> & ran)]; [done|].
  destruct err as [err|]; cbn beta iota in ran.
  { destruct ran as [[_ ?]|[-> [= ->]]]; [done|]. left. by exists err. }
  right. destruct ran as [[_ ?]|(ans & tr2 & -> & ran)]; [done|]. exists ans.
  destruct ans as [resp|err]; [|destruct ran as [[_ ?]|[-> [= ->]]]; [done|by auto]].
  cbn [prog_mbind prog_bind] in ran.
  destruct (success_code (StatusCode resp)) eqn:Hcode; cbn [negb] in ran;
    apply exec_closing in ran as [-> ->]; split; try done.
  - pose proof (decodeChargeResponse_cases (ResponseBody resp)) as Hd.
    destruct (decodeChargeResponse _) as [r [e|]] eqn:Heq; simpl; [|done].
    rewrite Hcode, Heq. by destruct Hd as [-> _].
  - simpl. by rewrite Hcode.
Qed.

(** C28: A lookup is read-only and cautious: it calls [Do] at most once, with a GET
for the escaped key, the body of its response is drained and closed, once, a 404 is
neither a charge nor a decline nor an error, and a charge is reported found only from
a 2xx response that says approved with a reference or declined. *)
Theorem LookupCharge_classifies (c : Client) (ctx : Ctx) (key : string)
    (tr : list (call httpE)) (r : PaymentResult.t) (found : bool) (err : option error)
    (ran : exec (LookupCharge c ctx key) tr (Returned (r, found, err))) :
  (∃ e, tr = [Call (NewRequest ctx MethodGet (lookup_url c key)) (Some e)] ∧
     found = false ∧ is_Some err) ∨
  (∃ ans, tr = [Call (NewRequest ctx MethodGet (lookup_url c key)) None;
                Call (Do ctx (lookup_http c key)) ans] ++ closed ans ∧
     match ans with
     | inr _ => found = false ∧ is_Some err
     | inl resp =>
         (StatusCode resp = 404%Z → found = false ∧ err = None) ∧
         (found = true → err = None ∧ success_code (StatusCode resp) = true ∧ proper r) ∧
         (found = false → err = None → StatusCode resp = 404%Z)
     end).
Proof.
  destruct ran as [[_ ?]|(berr & tr1 & -> & ran)]; [done|].
  destruct berr as [e|]; cbn beta iota in ran.
  { destruct ran as [[_ ?]|[-> [= -> -> ->]]]; [done|]. left. eauto. }
  right. destruct ran as [[_ ?]|(ans & tr2 & -> & ran)]; [done|]. exists ans.
  destruct ans as [resp|e]; [|destruct ran as [[_ ?]|[-> [= -> -> ->]]]; [done|by eauto]].
  cbn [prog_mbind prog_bind] in ran. case_bool_decide as H404.
  { apply exec_closing in ran as [[= -> -> ->] ->]. naive_solver. }
  destruct (success_code (StatusCode resp)) eqn:Hcode; cbn [negb] in ran.
  - pose proof (decodeChargeResponse_cases (ResponseBody resp)) as Hd.
    destruct (decodeChargeResponse _) as [res [e|]] eqn:Heq; cbn [fst snd] in ran;
      apply exec_closing in ran as [[= -> -> ->] ->]; naive_solver.
  - apply exec_closing in ran as [[= -> -> ->] ->]. naive_solver.
Qed.

(** ** A concrete service

A deterministic service over a map: it approves, declines the customer "bad",
rejects the customer "invalid" with 400, loses the response for "slow" the first time
and redirects the charges of the customer "moved". *)

Definition outcome_document (c : charge_state) : json :=
  match c with
  | Approved ref => JObj [("reference", JStr ref); ("status", JStr "approved")]
  | Declined => JObj [("status", JStr "declined")]
  | _ => JNull
  end.

Definition responding (code : Z) (j : json) : http_response :=
  mkResponse code None (mkBody [(j, 64%N)] 64 None).

Definition decide_charge (customer key : string) : option charge_state :=
  if ⟦customer = "invalid"⟧ then None
  else if ⟦customer = "bad"⟧ then Some Declined
  else Some (Approved ("ch_" +:+ key)).

Definition header (name : string) (req : http_request) : string :=
  match list_find (λ kv, kv.1 = name) (Header req) with Some (_, (_, v)) => v | None => "" end.

Definition customer_of (req : http_request) : string :=
  match Body req ≫= document with
  | Some (JObj ms) => match member ms "customer_id" with Some (JStr s) => s | _ => "" end
  | _ => ""
  end.

Definition final_dec (c : charge_state) : bool :=
  match c with Approved _ | Declined => true | _ => false end.

Definition serve_post (m : gmap string charge_state) (req : http_request)
    : (http_response + error) * gmap string charge_state :=
  let key := header "Idempotency-Key" req in
  let prior := ledger_map m key in
  if final_dec prior then (inl (responding 200 (outcome_document prior)), m)
  else match decide_charge (customer_of req) key with
       | None => (inl (responding (if ⟦prior = Untouched⟧ then 400 else 409) JNull), m)
       | Some c =>
           let ans := if ⟦customer_of req = "slow"⟧
                      then inr (Foreign "timeout" None)
                      else inl (responding 201 (outcome_document c)) in
           (ans, <[key := c]> m)
       end.

Definition serve_get (c : Client) (m : gmap string charge_state) (req : http_request)
    : http_response + error :=
  match list_find (λ kv, lookup_url c kv.1 = URL req) (map_to_list m) with
  | Some (_, (key, st)) =>
      if final_dec st then inl (responding 200 (outcome_document st)) else inl (responding 404 JNull)
  | None => inl (responding 404 JNull)
  end.

Definition moved (c : Client) : http_response :=
  mkResponse 307 (Some (baseURL c +:+ "/v2/charges")) (mkBody [] 0 None).

Definition serve_http (c : Client) (m : gmap string charge_state) (req : http_request)
    : (http_response + error) * gmap string charge_state :=
  if ⟦Method req = MethodPost⟧ then
    if ⟦customer_of req = "moved"⟧ && ⟦URL req = charges_url c⟧ then (inl (moved c), m)
    else serve_post m req
  else (serve_get c m req, m).

(** A [Do] that follows the redirect. *)
Definition serve_do (c : Client) (m : gmap string charge_state) (req : http_request)
    : list http_request * (http_response + error) * gmap string charge_state :=
  let '(ans, m1) := serve_http c m req in
  match ans with
  | inl resp =>
      match redirected resp req with
      | Some req' => let '(ans', m2) := serve_http c m1 req' in ([req; req'], ans', m2)
      | None => ([req], ans, m1)
      end
  | inr _ => ([req], ans, m1)
  end.

Lemma outcome_document_truthful ledger key code c :
  ledger key = c → truthful ledger key (responding code (outcome_document c)).
Proof.
  intros <- j stop vs _. cbn [responding ResponseBody body_values]. intros [= <- <- <-].
  destruct (ledger key) as [| |ref|] eqn:Hk; cbn [outcome_document].
  1,2: split; [done|]; by intros c (ms & ? & _).
  - split; [apply (bool_decide_unpack _); by vm_compute|].
    intros [| |ref'|] (ms & [= <-] & Hc); try done; vm_compute in Hc; naive_solver.
  - split; [apply (bool_decide_unpack _); by vm_compute|].
    intros [| |ref'|] (ms & [= <-] & Hc); try done; vm_compute in Hc; naive_solver.
Qed.

Lemma refused_truthful ledger key code : success_code code = false →
  truthful ledger key (responding code JNull).
Proof. intros Hc j stop vs H. simpl in H. congruence. Qed.

Lemma final_dec_final c : final_dec c = true ↔ final c.
Proof. by destruct c. Qed.

(** The charge requests of the client, at any URL. *)
Definition asks_charge (c : Client) (r : http_request) (key : string) : Prop :=
  ∃ req, key = PaymentRequest.IdempotencyKey req ∧ Method r = MethodPost ∧
    Header r = Header (charge_http c req) ∧ Body r = Body (charge_http c req).

(** The answer of the concrete service to a charge, and what it leaves. *)
Lemma serve_post_ok m c r key ans m' :
  asks_charge c r key → serve_http c m r = (ans, m') →
  (m' = m ∨ ∃ st, ¬ final (ledger_map m key) ∧ st ≠ Untouched ∧ m' = <[key := st]> m ∧
     ∀ resp, ans = inl resp → success_code (StatusCode resp) = true) ∧
  ∀ resp, ans = inl resp → truthful (ledger_map m') key resp ∧
    (redirected resp r = None → success_code (StatusCode resp) = false →
     refusal (StatusCode resp) → ledger_map m' key = Untouched).
Proof.
  intros (req & -> & Hmethod & Hheader & Hbody) H.
  unfold serve_http in H. rewrite bool_decide_eq_true_2 in H by done.
  destruct (_ && _) in H.
  { injection H as <- <-. split; [by left|]. intros resp [= <-]. split; [done|].
    intros Hred. unfold redirected, moved in Hred. simpl in Hred. discriminate Hred. }
  unfold serve_post, header in H. rewrite Hheader in H.
  change (match list_find _ _ with Some _ => _ | None => _ end) with (PaymentRequest.IdempotencyKey req) in H.
  set (key := PaymentRequest.IdempotencyKey req) in *.
  destruct (final_dec (ledger_map m key)) eqn:Hf.
  { injection H as <- <-. split; [by left|].
    intros resp [= <-]. split; [by apply outcome_document_truthful|done]. }
  assert (¬ final (ledger_map m key)) as Hnf by (rewrite <-final_dec_final; congruence).
  destruct (decide_charge _ _) as [st|] eqn:Hst.
  - injection H as <- <-. split.
    + right. exists st. split_and!; [done| |done|by case_bool_decide; intros resp [= <-]].
      revert Hst. unfold decide_charge. case_bool_decide; [done|].
      case_bool_decide; by intros [= <-].
    + case_bool_decide; intros resp [= <-]. split; [|done]. apply outcome_document_truthful.
      by rewrite ledger_map_insert, decide_True.
  - injection H as <- <-. split; [by left|]. intros resp [= <-].
    split; [apply refused_truthful; by case_bool_decide|]. simpl. case_bool_decide; [done|].
    intros _ _ (_ & _ & ? & _). done.
Qed.

(** ... and to a lookup. *)
Lemma serve_get_ok m c key ans m' :
  serve_http c m (lookup_http c key) = (ans, m') →
  m' = m ∧ honest_transport ans ∧ ∀ resp, ans = inl resp → truthful (ledger_map m) key resp.
Proof.
  unfold serve_http. rewrite bool_decide_eq_false_2 by done. unfold serve_get.
  destruct (list_find _ _) as [[i [k st]]|] eqn:Hl.
  - apply list_find_Some in Hl as (Hi & Hurl & _). simpl in Hurl.
    apply string_app_inj_l, string_app_inj_l, (inj PathEscape) in Hurl. subst k.
    apply list_elem_of_lookup_2, elem_of_map_to_list in Hi.
    assert (ledger_map m key = st) as Hst by (unfold ledger_map; by rewrite Hi).
    destruct (final_dec st); intros [= <- <-]; (split_and!; [done|done|]); intros resp [= <-];
      [by apply outcome_document_truthful|by apply refused_truthful].
  - intros [= <- <-]. split_and!; [done|done|]. intros resp [= <-]. by apply refused_truthful.
Qed.

Lemma serve_transport m c req ans m' : serve_http c m req = (ans, m') → honest_transport ans.
Proof.
  unfold serve_http, serve_post, serve_get. intros H. go_cases; done.
Qed.

(** Only a charge at the first URL is redirected, and with the same headers and body. *)
Lemma serve_redirects c m r resp m' r' :
  serve_http c m r = (inl resp, m') → redirected resp r = Some r' →
  Method r = MethodPost ∧ URL r' ≠ charges_url c ∧
  Method r' = Method r ∧ Header r' = Header r ∧ Body r' = Body r.
Proof.
  intros H Hred. assert (resp = moved c ∧ Method r = MethodPost) as [-> ?].
  { revert H Hred. unfold serve_http, serve_post, serve_get. intros H Hred.
    go_cases; simplify_eq/=; done. }
  unfold redirected, moved in Hred. simpl in Hred. injection Hred as <-. simpl.
  split_and!; [done| |done..]. unfold charges_url. by intros ?%string_app_inj_l.
Qed.

Lemma serve_do_sends c m req sent ans m' :
  serve_do c m req = (sent, ans, m') →
  sends (λ m req ans m', serve_http c m req = (ans, m')) req m sent ans m'.
Proof.
  unfold serve_do. destruct (serve_http c m req) as [[resp|err] m1] eqn:H1.
  - destruct (redirected resp req) as [req'|] eqn:Hred.
    + destruct (serve_http c m1 req') as [ans' m2] eqn:H2. intros [= <- <- <-].
      eapply sends_on; [done|done|]. apply sends_last; [done|]. destruct ans' as [resp'|]; [|done].
      destruct (redirected resp' req') eqn:Hred'; [|done].
      destruct (serve_redirects _ _ _ _ _ _ H1 Hred) as (_ & Hurl & _).
      exfalso. revert H2 Hred'. unfold serve_http, serve_post, serve_get.
      rewrite (bool_decide_eq_false_2 (URL req' = _)), andb_false_r by done.
      intros H2 Hred'. go_cases; simplify_eq/=; done.
    + intros [= <- <- <-]. by apply sends_last.
  - intros [= <- <- <-]. by apply sends_last.
Qed.

#[global] Program Instance map_service (c : Client) : PaymentService (gmap string charge_state) c := {|
  svc_ledger := ledger_map;
  exchange m req ans m' := serve_http c m req = (ans, m');
  svc_settle := map_settle;
  svc_charges := asks_charge c;
  svc_lookups r key := r = lookup_http c key |}.
Next Obligation. intros c req. by exists req. Qed.
Next Obligation. done. Qed.
Next Obligation.
  intros c m r resp m' r' k H Hred.
  destruct (serve_redirects _ _ _ _ _ _ H Hred) as (Hpost & _ & Hm & Hh & Hb). split.
  - intros (req & -> & H1 & H2 & H3). exists req. split_and!; congruence.
  - intros ->. discriminate Hpost.
Qed.
Next Obligation. intros c m req ans m'. apply serve_transport. Qed.
Next Obligation.
  intros c m r k ans m' Hr [[->|(st & Hnf & Hst & -> & _)] _]%(serve_post_ok _ _ _ _ _ _ Hr); [done|].
  split_and!; intros; rewrite ledger_map_insert; case_decide; by subst.
Qed.
Next Obligation. intros c m r k resp m' Hr [_ H]%(serve_post_ok _ _ _ _ _ _ Hr). by apply H. Qed.
Next Obligation. intros c m r k resp m' Hr [_ H]%(serve_post_ok _ _ _ _ _ _ Hr). by apply H. Qed.
Next Obligation. by intros c m r k ans m' -> [-> _]%serve_get_ok. Qed.
Next Obligation. intros c m r k resp m' -> (_ & _ & H)%serve_get_ok. by apply H. Qed.
Next Obligation. intros c m m'. exact (@settle_ok _ map_provider m m'). Qed.

Definition example_client : Client := New "http://payments/" None.
Definition example_charge (customer : string) : PaymentRequest.t :=
  PaymentRequest.mk "ord/1" customer 3000 "ord/1".

(** Runs of the client against it. *)
Definition serve_wire (c : Client) : handler httpE (gmap string charge_state) := λ R e m,
  match e in httpE R return R * gmap string charge_state with
  | NewRequest _ _ _ => (None, m)
  | Do _ req => serve_http c m req
  | Discard _ | CloseBody => (tt, m)
  end.

Example client_runs :
  let charge customer := (run (serve_wire example_client)
    (Charge example_client (mkCtx 0) (example_charge customer)) ∅).1 in
  charge "good" = Returned (PaymentResult.mk "ch_ord/1" "approved", None) ∧
  charge "bad" = Returned (PaymentResult.mk "" "declined", None) ∧
  charge "invalid" = Returned (PaymentResult.zero, Some (HTTPStatusError PaymentAdapter 400)) ∧
  charge "slow" = Returned (PaymentResult.zero,
    Some (wrapf "call payment service: " (Foreign "timeout" None))) ∧
  (run (serve_wire example_client)
    (_ ← Charge example_client (mkCtx 0) (example_charge "slow");
     LookupCharge example_client (mkCtx 0) "ord/1") ∅).1 =
    Returned (PaymentResult.mk "ch_ord/1" "approved", true, None) ∧
  lookup_url example_client "ord/1" = "http://payments/v1/charges/by-idempotency-key/ord%2F1".
Proof. vm_compute. split_and!; reflexivity. Qed.

(** A charge whose response was lost is sent again by the transport, and one that is
redirected is sent to two URLs: one charge each. *)
Example charge_sent_twice :
  let slow := charge_http example_client (example_charge "slow") in
  let moving := charge_http example_client (example_charge "moved") in
  (∃ m', sends (exchange (c := example_client)) slow ∅ [slow; slow]
     (inl (responding 200 (outcome_document (Approved "ch_ord/1")))) m' ∧
     map_to_list m' = [("ord/1", Approved "ch_ord/1")]) ∧
  map URL (serve_do example_client ∅ moving).1.1 =
    ["http://payments/v1/charges"; "http://payments/v2/charges"] ∧
  map_to_list (serve_do example_client ∅ moving).2 = [("ord/1", Approved "ch_ord/1")].
Proof.
  split; [|split; vm_compute; reflexivity].
  exists (<["ord/1" := Approved "ch_ord/1"]> ∅). split; [|vm_compute; reflexivity].
  eapply (sends_again _ _ _ (Foreign "timeout" None)); [vm_compute; reflexivity..|].
  apply sends_last; [vm_compute; reflexivity|done].
Qed.

Lemma client_keeps_provider_promises_witness :
  wp (wire (delivery (exchange (c := example_client)))) (Charge example_client (mkCtx 0) (example_charge "slow"))
    (λ ans s', charge_law (ledger_map ∅) (ledger_map s') (example_charge "slow") ans) ∅.
Proof.
  exact (proj1 (client_keeps_provider_promises example_client (mkCtx 0) (example_charge "slow") "k" ∅)).
Defined.

Definition declined_response : http_response := responding 200 (outcome_document Declined).

Lemma Charge_classifies_witness :
  charge_reading (inl declined_response) (PaymentResult.mk "" "declined", None).
Proof.
  pose proof (Charge_classifies example_client (mkCtx 0) (example_charge "bad")
    [Call (NewRequest (mkCtx 0) MethodPost (charges_url example_client)) None;
     Call (Do (mkCtx 0) (charge_http example_client (example_charge "bad"))) (inl declined_response);
     Call (Discard body_limit) tt; Call CloseBody tt]
    (PaymentResult.mk "" "declined", None)) as H.
  destruct H as [(err & H & _)|(ans & _ & Hr)].
  - do 4 run_step. right. split; vm_compute; reflexivity.
  - apply (f_equal length) in H. discriminate H.
  - split; [vm_compute; reflexivity|]. right. vm_compute. reflexivity.
Defined.

Lemma LookupCharge_classifies_witness :
  ∃ tr, exec (LookupCharge example_client (mkCtx 0) "k") tr (Returned (PaymentResult.zero, false, None)) ∧
    length tr = 4.
Proof.
  exists [Call (NewRequest (mkCtx 0) MethodGet (lookup_url example_client "k")) None;
     Call (Do (mkCtx 0) (lookup_http example_client "k")) (inl (responding 404 JNull));
     Call (Discard body_limit) tt; Call CloseBody tt].
  assert (exec (LookupCharge example_client (mkCtx 0) "k")
    [Call (NewRequest (mkCtx 0) MethodGet (lookup_url example_client "k")) None;
     Call (Do (mkCtx 0) (lookup_http example_client "k")) (inl (responding 404 JNull));
     Call (Discard body_limit) tt; Call CloseBody tt]
    (Returned (PaymentResult.zero, false, None))) as Hrun.
  { do 4 run_step. right. split; vm_compute; reflexivity. }
  split; [exact Hrun|].
  destruct (LookupCharge_classifies _ _ _ _ _ _ _ Hrun) as [(e & H & _)|(ans & H & _)];
    apply (f_equal length) in H; [discriminate H|reflexivity].
Defined.
End PaymentClient.
