(* ===== verification/InventoryClient.v ===== *)
(** * The Inventory Service client (src/internal/inventoryclient/client.go)

[Reserve] over HTTP. *)

From S2P Require Import Prelude GoValues Prog Domain Ports Text Json JsonText JsonStream Http.

Module InventoryClient.

Record Client := mkClient { baseURL : string; http : http_client }.

Definition New (baseURL : string) (httpClient : option http_client) : Client :=
  mkClient (TrimRight_slash baseURL) (instrumented httpClient).

(** [reservationItem]: the product and the quantity, not the price. *)
Definition reservationItem (item : OrderItem) : json :=
  JObj [("product_id", JStr (ProductID item)); ("quantity", JNum (Quantity item))].

(** [json.Marshal(reservationRequest{...})]; [items] comes from [make], so an
empty list is []. *)
Definition reservationRequest (req : InventoryRequest.t) : json :=
  JObj [("order_id", JStr (InventoryRequest.OrderID req));
        ("items", JArr (map reservationItem (InventoryRequest.Items req)))].

Definition reservations_url (c : Client) : string := baseURL c +:+ "/v1/reservations".

Definition reserve_http (c : Client) (req : InventoryRequest.t) : http_request :=
  mkRequest MethodPost (reservations_url c)
    [("Content-Type", "application/json"); ("Accept", "application/json");
     ("Idempotency-Key", InventoryRequest.IdempotencyKey req)] (Some (Marshal (reservationRequest req))).

Definition Reserve (c : Client) (ctx : Ctx) (req : InventoryRequest.t) : prog httpE (option error) :=
  err ← trigger (NewRequest ctx MethodPost (reservations_url c));
  match err with
  | Some err => mret (Some (wrapf "build inventory reservation: " err))
  | None =>
      response ← trigger (Do ctx (reserve_http c req));
      match response with
      | inr err => mret (Some (wrapf "call inventory service: " err))
      | inl response =>
          if negb (success_code (StatusCode response)) then
            closing (Some (HTTPStatusError InventoryAdapter (StatusCode response)))
          else closing None
      end
  end.

(** ** The reservation as the service reads it *)

Record reservation_item := mkReservationItem { product_id : string; quantity : Z }.
Record reservation := mkReservation { order_id : string; items : list reservation_item }.

Definition item_type : struct_type reservation_item :=
  [field "product_id" decode_string product_id (λ v r, mkReservationItem v (quantity r));
   field "quantity" decode_int64 quantity (λ v r, mkReservationItem (product_id r) v)].
Definition reservation_type : struct_type reservation :=
  [field "order_id" decode_string order_id (λ v r, mkReservation v (items r));
   field "items" (decode_slice (decode_struct true item_type) (mkReservationItem "" 0))
     (λ r, Slice (items r) []) (λ v r, mkReservation (order_id r) (elems v))].

(** What is to be reserved for an order. *)
Definition reserved (req : InventoryRequest.t) : reservation :=
  mkReservation (InventoryRequest.OrderID req)
    (map (λ it, mkReservationItem (ProductID it) (Quantity it)) (InventoryRequest.Items req)).

Lemma reservation_item_decodes it z :
  int64_range (Quantity it) →
  decode_struct true item_type (reservationItem it) z =
    Some (mkReservationItem (ProductID it) (Quantity it)).
Proof.
  intros H. unfold decode_struct, reservationItem. cbn [foldl]. unfold decode_member. cbn [fst snd].
  change (find_field item_type "product_id") with
    (Some (field "product_id" decode_string product_id (λ v r, mkReservationItem v (quantity r))).2).
  change (find_field item_type "quantity") with
    (Some (field "quantity" decode_int64 quantity (λ v r, mkReservationItem (product_id r) v)).2).
  cbn -[decode_int64]. by rewrite decode_int64_in_range.
Qed.

Lemma reservation_items_decode its :
  Forall (λ it, int64_range (Quantity it)) its →
  decode_elems (decode_struct true item_type) (mkReservationItem "" 0) (map reservationItem its) [] =
    Some (map (λ it, mkReservationItem (ProductID it) (Quantity it)) its).
Proof.
  induction 1 as [|it its Hq _ IH]; [done|]. cbn [map decode_elems tail].
  by rewrite reservation_item_decodes, IH.
Qed.

Lemma reservation_decodes req :
  Forall (λ it, int64_range (Quantity it)) (InventoryRequest.Items req) →
  decode_struct true reservation_type (reservationRequest req) (mkReservation "" []) =
    Some (reserved req).
Proof.
  intros H. apply reservation_items_decode in H. unfold reserved.
  unfold reservationRequest, decode_struct at 1. cbn [foldl]. unfold decode_member. cbn [fst snd].
  change (find_field reservation_type "order_id") with
    (Some (field "order_id" decode_string order_id (λ v r, mkReservation v (items r))).2).
  change (find_field reservation_type "items") with
    (Some (field "items" (decode_slice (decode_struct true item_type) (mkReservationItem "" 0))
       (λ r, Slice (items r) []) (λ v r, mkReservation (order_id r) (elems v))).2).
  cbn [field snd decode_string items]. pose proof (decode_slice_fresh _ _ _ _ H) as Hs.
  unfold nil_slice in Hs. by rewrite Hs.
Qed.

Lemma reservation_document req :
  valid_text (InventoryRequest.OrderID req) ∧
  Forall (λ it, valid_text (ProductID it)) (InventoryRequest.Items req) →
  document (Marshal (reservationRequest req)) = Some (reservationRequest req).
Proof.
  intros [Hid Hitems]. rewrite document_Marshal.
  - unfold reservationRequest. cbn [repaired map fst snd]. rewrite Hid. do 6 f_equal.
    rewrite map_map. induction Hitems as [|it its Hit _ IH]; [done|]. cbn [map]. rewrite IH. f_equal.
    unfold reservationItem. cbn [repaired map fst snd]. by rewrite Hit.
  - unfold reservationRequest. cbn. rewrite !andb_true_r. apply forallb_forall.
    intros j (it & <- & _)%in_map_iff. done.
Qed.

(** C29: [Reserve] succeeds exactly when its POST was answered with a 2xx status:
nothing is sent when the request cannot be built, [Do] is called once otherwise, under
the idempotency key of the order, and the body of its response is drained and closed;
the bytes it carries are one JSON document that reads back, even strictly, as the order
id and the product and quantity of every item in order. *)
Theorem Reserve_reserves_the_items (c : Client) (ctx : Ctx) (req : InventoryRequest.t)
    (range : Forall (λ it, int64_range (Quantity it)) (InventoryRequest.Items req))
    (valid : valid_text (InventoryRequest.OrderID req) ∧
       Forall (λ it, valid_text (ProductID it)) (InventoryRequest.Items req))
    (tr : list (call httpE)) (ret : option error)
    (ran : exec (Reserve c ctx req) tr (Returned ret)) :
  (∃ err, tr = [Call (NewRequest ctx MethodPost (reservations_url c)) (Some err)] ∧ is_Some ret) ∨
  (∃ ans text doc, tr = [Call (NewRequest ctx MethodPost (reservations_url c)) None;
                    Call (Do ctx (reserve_http c req)) ans] ++ closed ans ∧
     ("Idempotency-Key", InventoryRequest.IdempotencyKey req) ∈ Header (reserve_http c req) ∧
     Body (reserve_http c req) = Some text ∧ document text = Some doc ∧
     decode_struct true reservation_type doc (mkReservation "" []) = Some (reserved req) ∧
     (ret = None ↔ ∃ resp, ans = inl resp ∧ success_code (StatusCode resp) = true)).
Proof.
  destruct ran as [[_ ?]|(berr & tr1 & -> & ran)]; [done|]. destruct berr as [e|].
  { destruct ran as [[_ ?]|[-> [= ->]]]; [done|]. left. eauto. }
  right. destruct ran as [[_ ?]|(ans & tr2 & -> & ran)]; [done|].
  exists ans, (Marshal (reservationRequest req)), (reservationRequest req).
  assert (tr2 = closed ans ∧ (ret = None ↔ ∃ resp, ans = inl resp ∧ success_code (StatusCode resp) = true))
    as [-> Hret].
  { destruct ans as [resp|e]; cbn [prog_mbind prog_bind] in ran.
    - destruct (success_code (StatusCode resp)) eqn:Hcode; cbn [negb] in ran;
        apply exec_closing in ran as [-> ->]; (split; [done|]); split.
      + intros _. by exists resp.
      + done.
      + done.
      + intros (? & [= <-] & ?). congruence.
    - destruct ran as [[_ ?]|[-> [= ->]]]; [done|]. split; [done|]. by split; [|intros (? & ? & _)]. }
  split_and!; try done; [|by apply reservation_document|by apply reservation_decodes].
  apply list_elem_of_In. simpl. auto.
Qed.

(** ** Witnesses *)

Definition example_client : Client := New "http://inventory" None.
Definition example_reservation : InventoryRequest.t :=
  InventoryRequest.mk "ord_1" example_items "ord_1".

Lemma Reserve_reserves_the_items_witness :
  ∃ text doc, Body (reserve_http example_client example_reservation) = Some text ∧
    document text = Some doc ∧
    decode_struct true reservation_type doc (mkReservation "" []) =
      Some (mkReservation "ord_1" [mkReservationItem "sku_1" 2]).
Proof.
  destruct (Reserve_reserves_the_items example_client (mkCtx 0) example_reservation
    ltac:(repeat constructor; vm_compute; intros [=])
    ltac:(apply (bool_decide_unpack _); vm_compute; exact I)
    [Call (NewRequest (mkCtx 0) MethodPost (reservations_url example_client)) None;
     Call (Do (mkCtx 0) (reserve_http example_client example_reservation))
       (inl (mkResponse 204 None (mkBody [] 0 None)));
     Call (Discard body_limit) tt; Call CloseBody tt] None) as [(err & H & _)|(ans & text & doc & _ & _ & Hb & Ht & Hd & _)].
  - do 4 run_step. right. split; vm_compute; reflexivity.
  - apply (f_equal length) in H. discriminate H.
  - exists text, doc. split; [exact Hb|split; [exact Ht|exact Hd]].
Defined.
End InventoryClient.
