(* ===== verification/HttpApi.v ===== *)
(** * The HTTP endpoint (src/internal/httpapi/handler.go)

POST /orders: reading the request, running the usecase, choosing the response. *)

From S2P Require Import Prelude GoValues Prog Domain Ports Json JsonText CreateOrder Decorators Http System Simulator Outcomes.

(** ** Requests *)

(** [createOrderRequestItem] and [createOrderRequest]. *)
Record createOrderRequestItem := mkRequestItem {
  item_ProductID : string;
  item_Quantity : Z;
  item_UnitPrice : Z }.

Record createOrderRequest := mkCreateOrderRequest {
  req_CustomerID : string;
  req_CustomerTier : CustomerTier;
  req_Items : slice createOrderRequestItem }.

Definition zero_request_item : createOrderRequestItem := mkRequestItem "" 0 0.
Definition zero_request : createOrderRequest := mkCreateOrderRequest "" "" nil_slice.

Definition request_item_type : struct_type createOrderRequestItem :=
  [field "product_id" decode_string item_ProductID
     (λ v r, mkRequestItem v (item_Quantity r) (item_UnitPrice r));
   field "quantity" decode_int64 item_Quantity
     (λ v r, mkRequestItem (item_ProductID r) v (item_UnitPrice r));
   field "unit_price_cents" decode_int64 item_UnitPrice
     (λ v r, mkRequestItem (item_ProductID r) (item_Quantity r) v)].

Definition request_type : struct_type createOrderRequest :=
  [field "customer_id" decode_string req_CustomerID
     (λ v r, mkCreateOrderRequest v (req_CustomerTier r) (req_Items r));
   field "customer_tier" decode_string req_CustomerTier
     (λ v r, mkCreateOrderRequest (req_CustomerID r) v (req_Items r));
   field "items" (decode_slice (decode_struct true request_item_type) zero_request_item) req_Items
     (λ v r, mkCreateOrderRequest (req_CustomerID r) (req_CustomerTier r) v)].

(** ** Responses *)

Record http_reply := mkReply {
  reply_status : Z;
  reply_content_type : string;
  reply_body : string }.

(** [Encode] ends the text with a newline. *)
Definition writeJSON (status : Z) (value : json) : http_reply :=
  mkReply status "application/json" (Marshal value +:+ String "010" EmptyString).

Definition error_body (text : string) : json := JObj [("error", JStr text)].
Definition orderResponse (o : Order) : json :=
  JObj [("id", JStr (ID o)); ("status", JStr (Status o))].

Definition isValidationError (err : error) : bool :=
  errors_Is err ErrNilRequest || errors_Is err ErrInvalidCustomerTier ||
  errors_Is err ErrEmptyCustomer || errors_Is err ErrEmptyOrder ||
  errors_Is err ErrInvalidOrderItem.

(** ** The handler *)

(** What [http.MaxBytesReader] fails with beyond its limit. *)
Definition body_too_large : error := Foreign "http: request body too large" None.

(** [err == io.EOF], the same error value. *)
Definition is_EOF (err : error) : bool :=
  match err with Sentinel s => ⟦s = io_EOF⟧ | _ => false end.

(** One more [Decode] must find the end of the body. *)
Definition ensureEOF (b : body) : option error :=
  match Decode body_limit body_too_large b with
  | inl _ => Some (Sentinel errExtraJSONValue)
  | inr err => if is_EOF err then None else Some err
  end.

(** The part of [CreateOrder] before the usecase: a refusal or the request. *)
Definition readRequest (b : body) : http_reply + CreateOrderRequest.t :=
  let refuse text := inl (writeJSON 400 (error_body text)) in
  match Decode body_limit body_too_large b with
  | inr err => refuse "invalid request body"
  | inl (j, b') =>
      match decode_struct true request_type j zero_request with
      | None => refuse "invalid request body"
      | Some parsed =>
          match ensureEOF b' with
          | Some err => refuse "request body must contain one JSON object"
          | None =>
              let items := map (λ item, mkOrderItem (item_ProductID item) (item_Quantity item)
                                          (item_UnitPrice item)) (elems (req_Items parsed)) in
              inr (CreateOrderRequest.mk (req_CustomerID parsed) (req_CustomerTier parsed) items)
          end
      end
  end.

(** The part after it. *)
Definition writeResult (order : option Order) (err : option error) : prog portE http_reply :=
  match err with
  | Some err =>
      match (errors_Is err ErrPaymentUncertain || errors_Is err ErrFulfillmentPending), order with
      | true, Some order => mret (writeJSON 202 (orderResponse order))
      | _, _ =>
          match errors_Is err ErrPaymentRejected, order with
          | true, Some order => mret (writeJSON 502 (orderResponse order))
          | _, _ =>
              if isValidationError err then mret (writeJSON 400 (error_body "invalid order"))
              else mret (writeJSON 500 (error_body "could not create order"))
          end
      end
  | None =>
      order ← deref order;
      let status := if ⟦Status order = OrderStatusFailed⟧ then 402%Z else 201%Z in
      mret (writeJSON status (orderResponse order))
  end.

Record Handler := mkHandler { h_createOrder : CreateOrderUsecase }.
Definition New (createOrder : CreateOrderUsecase) : Handler := mkHandler createOrder.

Definition HandleCreateOrder (h : Handler) (ctx : Ctx) (b : body) : prog portE http_reply :=
  match readRequest b with
  | inl reply => mret reply
  | inr req =>
      '(order, err) ← uc_Execute (h_createOrder h) ctx (Some req);
      writeResult order err
  end.

(** ** Accepted requests *)

Definition item_in_range (it : createOrderRequestItem) : Prop :=
  int64_range (item_Quantity it) ∧ int64_range (item_UnitPrice it).

Lemma request_item_range j s s' :
  item_in_range s → decode_struct true request_item_type j s = Some s' → item_in_range s'.
Proof.
  apply (decode_struct_ind true request_item_type item_in_range). intros name d Hd j' r r' [Hq Hu] Hr.
  unfold request_item_type in Hd. rewrite !elem_of_cons in Hd. unfold field in Hd.
  destruct Hd as [Hd|[Hd|[Hd|Hd]]]; [injection Hd as -> ->..|by apply elem_of_nil in Hd];
    match type of Hr with context [match ?x with _ => _ end] => destruct x eqn:Ha; [|done] end;
    injection Hr as <-; split; simpl; try done; by eapply decode_int64_range; [|exact Ha].
Qed.

Lemma request_items_range j s s' :
  Forall item_in_range (backing (req_Items s)) → decode_struct true request_type j s = Some s' →
  Forall item_in_range (backing (req_Items s')).
Proof.
  apply (decode_struct_ind true request_type (λ r, Forall item_in_range (backing (req_Items r)))).
  intros name d Hd j' r r' Hi Hr.
  unfold request_type in Hd. rewrite !elem_of_cons in Hd. unfold field in Hd.
  destruct Hd as [Hd|[Hd|[Hd|Hd]]]; [injection Hd as -> ->..|by apply elem_of_nil in Hd];
    match type of Hr with context [match ?x with _ => _ end] => destruct x eqn:Ha; [|done] end;
    injection Hr as <-; simpl; try done.
  eapply (decode_slice_Forall (λ _, True)); [| |exact Hi| |exact Ha].
  - destruct j'; try done. by apply Forall_true.
  - by apply (bool_decide_unpack _).
  - intros ??? _. apply request_item_range.
Qed.

(** Every name of an object that decodes strictly is a field. *)
Lemma decode_strict_known {S} (fields : struct_type S) ms s s' k v :
  decode_struct true fields (JObj ms) s = Some s' → (k, v) ∈ ms → is_Some (find_field fields k).
Proof.
  cbn [decode_struct]. revert s. induction ms as [|[k' v'] ms IH]; intros s; cbn [foldl].
  { by intros _ ?%elem_of_nil. }
  rewrite elem_of_cons. cbn [decode_member fst snd].
  destruct (find_field fields k') as [d|] eqn:Hd; [|by rewrite decode_member_None].
  destruct (d v' s) as [s1|]; [|by rewrite decode_member_None].
  intros H [[= -> ->]|Hin]; [by rewrite Hd|by eapply IH].
Qed.

(** C24: A body reaches the usecase only if it is, within one mebibyte, exactly
one JSON value that fits the request shape and nothing after it: an object's
names are all fields of a request, and every quantity and price is an integer of
64 bits; anything else is answered 400 and no collaborator is called. *)
Theorem accepted_body_is_one_request (h : Handler) (ctx : Ctx) (b : body) :
  match readRequest b with
  | inr req =>
      (∃ j stop, body_values b = [(j, stop)] ∧ (stop <= body_limit)%N ∧
        match body_rest b with
        | None => (body_size b <= body_limit)%N
        | Some err => err = Sentinel io_EOF
        end ∧
        is_Some (decode_struct true request_type j zero_request) ∧
        ∀ ms k v, j = JObj ms → (k, v) ∈ ms → is_Some (find_field request_type k)) ∧
      Forall (λ it, int64_range (Quantity it) ∧ int64_range (UnitPrice it))
        (CreateOrderRequest.Items req)
  | inl reply =>
      reply_status reply = 400%Z ∧ HandleCreateOrder h ctx b = mret reply
  end.
Proof.
  destruct (readRequest b) as [reply|req] eqn:Hr.
  { unfold HandleCreateOrder. rewrite Hr. split; [|done]. revert Hr. unfold readRequest.
    repeat case_match; by intros [= <-]. }
  revert Hr. unfold readRequest, ensureEOF, Decode.
  destruct (body_values b) as [|[j stop] vs] eqn:Hb; [by repeat case_match|].
  destruct (stop <=? body_limit)%N eqn:Hstop; [|done].
  destruct (decode_struct true request_type j zero_request) as [parsed|] eqn:Hd; [|done].
  cbn [body_values body_rest body_size].
  destruct vs as [|[j' stop'] vs]; [|by destruct (stop' <=? body_limit)%N].
  intros Hr.
  assert (match body_rest b with
          | None => (body_size b <= body_limit)%N
          | Some err => err = Sentinel io_EOF
          end ∧ req = CreateOrderRequest.mk (req_CustomerID parsed) (req_CustomerTier parsed)
             (map (λ item, mkOrderItem (item_ProductID item) (item_Quantity item)
                             (item_UnitPrice item)) (elems (req_Items parsed)))) as [Hend ->].
  { destruct (body_rest b) as [[s| | | |]|]; simplify_eq/=.
    - case_bool_decide; by simplify_eq/=.
    - destruct (body_size b <=? body_limit)%N eqn:Hsize; simplify_eq/=.
      split; [by apply N.leb_le|done]. }
  split.
  - exists j, stop. split_and!; try done; [by apply N.leb_le|]. intros ms k v -> Hin.
    by eapply decode_strict_known.
  - simpl. apply Forall_map. pose proof (request_items_range j zero_request parsed (Forall_nil_2 _) Hd) as Hi.
    by apply Forall_app in Hi as [Hi _].
Qed.

(** ** Responses *)

(** What a response may say about the request behind it. *)
Inductive reply_tells (g : story) : http_reply → Prop :=
(** 201 Created: charged, reserved and durably completed *)
| tells_created o ans :
    is_stored g o → Status o = OrderStatusCompleted → charge_answer g = Some ans → is_approved ans →
    reserve_answer g = Some None → reply_tells g (writeJSON 201 (orderResponse o))
(** 402 Payment Required: declined, durably failed, nothing reserved *)
| tells_declined o ans :
    is_stored g o → Status o = OrderStatusFailed → charge_answer g = Some ans → is_declined ans →
    reserve_answer g = None → reply_tells g (writeJSON 402 (orderResponse o))
(** 502 Bad Gateway: the provider definitively rejected the charge *)
| tells_rejected o ans :
    is_stored g o → Status o = OrderStatusFailed ∨ Status o = OrderStatusPending →
    charge_answer g = Some ans → is_rejected ans → reserve_answer g = None →
    reply_tells g (writeJSON 502 (orderResponse o))
(** 202 Accepted: the order is durable and its payment was attempted *)
| tells_accepted o ans :
    of_story g o → charge_answer g = Some ans → reply_tells g (writeJSON 202 (orderResponse o))
(** 400 Bad Request: nothing was stored or sent *)
| tells_bad_request text :
    g = no_story → reply_tells g (writeJSON 400 (error_body text))
(** 500: either no order was stored and nothing was charged ... *)
| tells_not_saved text :
    stored g = None → charge_answer g = None → reply_tells g (writeJSON 500 (error_body text))
(** ... or the charge was declined and the order is still pending *)
| tells_decline_not_recorded text o ans :
    is_stored g o → Status o = OrderStatusPending → charge_answer g = Some ans → is_declined ans →
    reserve_answer g = None → reply_tells g (writeJSON 500 (error_body text)).

(** [errors.Is] on an error of known kinds. *)
Ltac decide_kinds H :=
  repeat match goal with
  | |- context [errors_Is ?err ?s] =>
      rewrite (H s) by (apply (bool_decide_unpack _); vm_compute; reflexivity)
  end.

Lemma writeResult_tells r g :
  ending g r → wp tale (writeResult r.1 r.2) (λ reply g', reply_tells g' reply) g.
Proof.
  intros He. destruct He as [s err Hs Hk Hg|err Hk Hst Hc|o ans|o ans ? Hf|o err ans ? Hk|
    o err ans ? Hk|o err ans ? Hk|o err ans r ? Hk]; cbn [fst snd writeResult].
  - unfold validation_sentinels in Hs. rewrite !elem_of_cons in Hs.
    assert (isValidationError err = true ∧
      (errors_Is err ErrPaymentUncertain || errors_Is err ErrFulfillmentPending) = false ∧
      errors_Is err ErrPaymentRejected = false) as (-> & -> & ->).
    { unfold isValidationError. decide_kinds Hk.
      destruct Hs as [->|[->|[->|[->|[->|?%elem_of_nil]]]]]; by vm_compute. }
    apply wp_ret. by apply tells_bad_request.
  - unfold isValidationError. decide_kinds Hk. apply wp_ret. by apply tells_not_saved.
  - apply wp_ret. rewrite bool_decide_eq_false_2 by (by intros Hs; rewrite Hs in *).
    by eapply tells_created.
  - apply wp_ret. rewrite bool_decide_eq_true_2 by done. by eapply tells_declined.
  - decide_kinds Hk. apply wp_ret. by eapply tells_rejected.
  - unfold isValidationError. decide_kinds Hk. apply wp_ret. by eapply tells_decline_not_recorded.
  - destruct Hk as [Hk|Hk]; decide_kinds Hk; apply wp_ret; by eapply tells_accepted.
  - destruct Hk as [Hk|Hk]; decide_kinds Hk; apply wp_ret; by eapply tells_accepted.
Qed.

Lemma HandleCreateOrder_tells ctx b :
  wp tale (HandleCreateOrder (New createOrder) ctx b) (λ reply g, reply_tells g reply) no_story.
Proof.
  unfold HandleCreateOrder. destruct (readRequest b) as [reply|req] eqn:Hr.
  - apply wp_ret. revert Hr. unfold readRequest. repeat case_match;
      intros [= <-]; by apply tells_bad_request.
  - eapply wp_bind_mono; [apply createOrder_telling|]. intros [o err] g. apply writeResult_tells.
Qed.

(** C8: The status code never misleads the client, whatever the store, the
services and the clock answer: 201 means approved, reserved and durably
completed; 402 declined and durably failed; 502 definitively rejected; 202 a
durable order whose payment was attempted; 400 that nothing was stored or sent;
and 500 that nothing was charged, or a decline that could not be recorded. *)
Theorem response_tells_the_truth (ctx : Ctx) (b : body) :
  wp tale (HandleCreateOrder (New createOrder) ctx b) (λ reply g, reply_tells g reply) no_story.
Proof. apply HandleCreateOrder_tells. Qed.

(** ** Runs of the endpoint *)

Definition one_value (j : json) : body := mkBody [(j, 200%N)] 200 None.

Definition example_body (customer : string) : json :=
  JObj [("customer_id", JStr customer); ("customer_tier", JStr "premium");
        ("items", JArr [JObj [("product_id", JStr "sku_1"); ("quantity", JNum 2);
                              ("unit_price_cents", JNum 1500)]])].

Definition demo_status (d : demo) (b : body) : outcome Z :=
  match (run (demo_handler d) (HandleCreateOrder (New createOrder) demo_ctx b) (wld demo_start)).1 with
  | Returned reply => Returned (reply_status reply)
  | Panicked msg => Panicked msg
  | Interrupted => Interrupted
  end.

Example endpoint_runs :
  demo_status healthy (one_value (example_body "cust_1")) = Returned 201%Z ∧
  demo_status declining (one_value (example_body "cust_1")) = Returned 402%Z ∧
  demo_status rejecting (one_value (example_body "cust_1")) = Returned 502%Z ∧
  demo_status timing_out (one_value (example_body "cust_1")) = Returned 202%Z ∧
  demo_status healthy (one_value (example_body "")) = Returned 400%Z ∧
  demo_status healthy (one_value (JObj [("customer", JStr "cust_1")])) = Returned 400%Z ∧
  demo_status healthy (mkBody [(example_body "cust_1", 200%N); (JNull, 204%N)] 204 None) =
    Returned 400%Z ∧
  demo_status healthy (mkBody [(example_body "cust_1", 200%N)] 2000000 None) = Returned 400%Z.
Proof. vm_compute. split_and!; reflexivity. Qed.
