(* ===== verification/Tracing.v ===== *)
(** * Tracing (observability/tracing.go)

Setting up the tracer provider, translating attributes, reading trace ids and
exporting finished spans as JSON lines. *)

From S2P Require Import Prelude GoValues Text Prog Domain Ports.

(** ** Setup *)

(** An [io.Writer], [None] for nil. *)
Definition Writer : Type := N.

Record TraceConfig := mkTraceConfig {
  ServiceName : string;
  Exporter : string;
  Output : option Writer }.

Inductive sampler := ParentBasedAlways | NeverSample.

(** Where a provider sends spans: the JSON exporter over a writer ([None] is
[io.Discard]), the OTLP exporter, or nowhere. *)
Inductive span_sink := ToWriter (w : option Writer) | ToOTLP | ToNothing.

Record TracerProvider := mkProvider {
  service_name : string;
  provider_sampler : sampler;
  provider_sink : span_sink }.

(** [SetupTracingWithConfig]; [otlp] is the error of [otlptracehttp.New].  A
provider that is returned has also been installed globally, with the W3C
propagators. *)
Definition SetupTracingWithConfig (otlp : option error) (config : TraceConfig)
    : option TracerProvider * option error :=
  if ⟦ServiceName config = ""⟧ then (None, Some (Sentinel ErrServiceNameRequired))
  else
    let exporter := if ⟦Exporter config = ""⟧ then "stdout" else Exporter config in
    let kind := ToLower (TrimSpace exporter) in
    let install s sink := (Some (mkProvider (ServiceName config) s sink), None) in
    if ⟦kind = "stdout"⟧ then install ParentBasedAlways (ToWriter (Output config))
    else if ⟦kind = "otlp"⟧ then
      match otlp with
      | Some err => (None, Some (wrapf "create OTLP trace exporter: " err))
      | None => install ParentBasedAlways ToOTLP
      end
    else if ⟦kind = "none"⟧ then install NeverSample ToNothing
    else (None, Some (Errorf [Wrap (Sentinel ErrUnsupportedTraceExporter); Lit " "; Lit (quoted exporter);
                              Lit " (want stdout, otlp, or none)"])).

Definition SetupTracing (serviceName : string) (output : option Writer)
    : option TracerProvider * option error :=
  SetupTracingWithConfig None (mkTraceConfig serviceName "stdout" output).

(** ** Attributes *)

(** [attribute.Value]: the kinds [toAttributes] produces. *)
Inductive attr_value :=
| AString (s : string)
| AInt (z : Z)
| AInt64 (z : Z)
| ABool (b : bool).

(** [format] is [fmt.Sprintf("%v", v)] for the values of other types. *)
Definition toAttribute (format : any → string) (v : any) : attr_value :=
  match v with
  | VString s => AString s
  | VInt z => AInt z
  | VInt64 z => AInt64 z
  | VBool b => ABool b
  | v => AString (format v)
  end.

Definition toAttributes (format : any → string) (attrs : list (string * any))
    : list (string * attr_value) :=
  map (λ kv, (kv.1, toAttribute format kv.2)) attrs.

(** [attr.Value.AsInterface()]. *)
Definition AsInterface (v : attr_value) : any :=
  match v with
  | AString s => VString s
  | AInt z | AInt64 z => VInt64 z
  | ABool b => VBool b
  end.

(** Later attributes win over earlier ones with the same key. *)
Definition attributesToMap (attrs : list (string * attr_value)) : gmap string any :=
  foldl (λ m kv, <[kv.1 := AsInterface kv.2]> m) ∅ attrs.

(** ** Trace ids *)

(** [trace.SpanContext]: its ids in hex, [None] for an all-zero id. *)
Record SpanContext := mkSpanContext {
  TraceID : option string;
  SpanID : option string }.

Definition TraceIDFromContext (span_context : Ctx → SpanContext) (ctx : Ctx) : string :=
  default "" (TraceID (span_context ctx)).
Definition SpanIDFromContext (span_context : Ctx → SpanContext) (ctx : Ctx) : string :=
  default "" (SpanID (span_context ctx)).

(** ** The tracer port over OpenTelemetry *)

(** What the adapter calls of go.opentelemetry.io/otel/trace; the status it sets is
always [codes.Error]. *)
Inductive otelE : Type → Type :=
| otel_Start (ctx : Ctx) (spanName : string) : otelE (Ctx * Span)
| otel_SpanFromContext (ctx : Ctx) : otelE Span
| span_AddEvent (span : Span) (name : string) (attrs : list (string * attr_value)) : otelE unit
| span_RecordError (span : Span) (err : error) : otelE unit
| span_SetStatus_Error (span : Span) (description : string) : otelE unit
| span_End (span : Span) : otelE unit.

Definition Tracer_Start (ctx : Ctx) (spanName : string) : prog otelE (Ctx * Span) :=
  trigger (otel_Start ctx spanName).
Definition Tracer_SpanFromContext (ctx : Ctx) : prog otelE Span := trigger (otel_SpanFromContext ctx).

Definition otelSpan_AddEvent (format : any → string) (s : Span) (name : string)
    (attrs : list (string * any)) : prog otelE unit :=
  trigger (span_AddEvent s name (toAttributes format attrs)).

Definition otelSpan_RecordError (s : Span) (err : error) : prog otelE unit :=
  _ ← trigger (span_RecordError s err);
  trigger (span_SetStatus_Error s (Error_text err)).

Definition otelSpan_End (s : Span) : prog otelE unit := trigger (span_End s).

(** A program over the ports with its tracer calls carried out by OpenTelemetry. *)
Inductive tracedE (R : Type) : Type :=
| Otel (e : otelE R)
| Untraced (e : portE R).
Arguments Otel {R} e.
Arguments Untraced {R} e.

Definition otel_prog {A} (p : prog otelE A) : prog tracedE A := interp (λ R e, trigger (Otel e)) p.

Definition through_otel (format : any → string) : ∀ R, portE R → prog tracedE R :=
  λ R e,
  match e in portE R return prog tracedE R with
  | Start ctx spanName => otel_prog (Tracer_Start ctx spanName)
  | SpanFromContext ctx => otel_prog (Tracer_SpanFromContext ctx)
  | AddEvent s name attrs => otel_prog (otelSpan_AddEvent format s name attrs)
  | RecordError s err => otel_prog (otelSpan_RecordError s err)
  | End_ s => otel_prog (otelSpan_End s)
  | e => trigger (Untraced e)
  end.

(** ** The JSON exporter *)

(** An event and a finished span as the exporter reads them. *)
Record SpanEvent := mkSpanEvent {
  event_Name : string;
  event_Time : Time;
  event_Attributes : list (string * attr_value) }.

Record ReadOnlySpan := mkReadOnlySpan {
  span_TraceID : string;
  span_SpanID : string;
  span_ParentSpanID : string;
  span_Name : string;
  span_Kind : string;
  span_StartTime : Time;
  span_EndTime : Time;
  span_Status : string;
  span_Resource : list (string * attr_value);
  span_Attributes : list (string * attr_value);
  span_Events : list SpanEvent }.

Record event_record := mkEventRecord {
  rec_name : string;
  rec_at : Time;
  rec_event_attributes : gmap string any }.

(** The map the exporter encodes, one field per key. *)
Record span_record := mkSpanRecord {
  rec_type : string;
  rec_trace_id : string;
  rec_span_id : string;
  rec_parent_span_id : string;
  rec_span_name : string;
  rec_kind : string;
  rec_started_at : Time;
  rec_ended_at : Time;
  rec_status : string;
  rec_resource : gmap string any;
  rec_attributes : gmap string any;
  rec_events : list event_record }.

Definition record_of (span : ReadOnlySpan) : span_record :=
  let events := map (λ e, mkEventRecord (event_Name e) (event_Time e)
                            (attributesToMap (event_Attributes e))) (span_Events span) in
  mkSpanRecord "trace_span" (span_TraceID span) (span_SpanID span) (span_ParentSpanID span)
    (span_Name span) (span_Kind span) (span_StartTime span) (span_EndTime span) (span_Status span)
    (attributesToMap (span_Resource span)) (attributesToMap (span_Attributes span)) events.

(** What the exporter uses: the context, its mutex and the encoder. *)
Inductive exportE : Type → Type :=
| export_ctx_Err : exportE (option error)
| Lock : exportE unit
| Unlock : exportE unit
| Encode (r : span_record) : exportE (option error).

Fixpoint encode_spans (spans : list ReadOnlySpan) : prog exportE (option error) :=
  match spans with
  | [] => mret None
  | span :: spans =>
      err ← trigger (Encode (record_of span));
      match err with
      | Some err => mret (Some err)
      | None => encode_spans spans
      end
  end.

Definition ExportSpans (spans : list ReadOnlySpan) : prog exportE (option error) :=
  err ← trigger export_ctx_Err;
  match err with
  | Some err => mret (Some err)
  | None =>
      _ ← trigger Lock;
      err ← encode_spans spans;
      _ ← trigger Unlock;
      mret err
  end.

(** ** Theorems *)

(** The configured exporter, up to case and surrounding space. *)
Definition exporter_kind (config : TraceConfig) : string :=
  ToLower (TrimSpace (if ⟦Exporter config = ""⟧ then "stdout" else Exporter config)).

(** Tracing setup on every configuration: it fails without a service name,
for an exporter that is not stdout, otlp or none up to case and space, and when
the OTLP exporter cannot be made; otherwise the provider has the service name,
samples everything but for "none", and sends spans where the exporter says. *)
Theorem SetupTracing_cases (otlp : option error) (config : TraceConfig) :
  match SetupTracingWithConfig otlp config with
  | (Some p, None) =>
      ServiceName config ≠ "" ∧ service_name p = ServiceName config ∧
      ((exporter_kind config = "stdout" ∧ provider_sampler p = ParentBasedAlways ∧
          provider_sink p = ToWriter (Output config)) ∨
       (exporter_kind config = "otlp" ∧ otlp = None ∧ provider_sampler p = ParentBasedAlways ∧
          provider_sink p = ToOTLP) ∨
       (exporter_kind config = "none" ∧ provider_sampler p = NeverSample ∧
          provider_sink p = ToNothing))
  | (None, Some err) =>
      (ServiceName config = "" ∧ err = Sentinel ErrServiceNameRequired) ∨
      (exporter_kind config = "otlp" ∧ is_Some otlp) ∨
      (¬ exporter_kind config ∈ ["stdout"; "otlp"; "none"] ∧
         errors_Is err ErrUnsupportedTraceExporter = true)
  | _ => False
  end.
Proof.
  unfold SetupTracingWithConfig. cbv zeta. fold (exporter_kind config).
  case_bool_decide; [by left|]. case_bool_decide; [by split_and!; [..|left]|].
  case_bool_decide.
  - destruct otlp as [err|]; [right; left; by eauto|]. by split_and!; [..|right; left].
  - case_bool_decide; [by split_and!; [..|right; right]|]. right. right. split; [|done].
    rewrite !not_elem_of_cons. split_and!; try done. apply not_elem_of_nil.
Qed.

(** The calls OpenTelemetry sees for a port call. *)
Definition otel_calls (format : any → string) (c : call portE) : list (call tracedE) :=
  match c with
  | Call e r =>
      match e in portE R return R → list (call tracedE) with
      | Start ctx spanName => λ r, [Call (Otel (otel_Start ctx spanName)) r]
      | SpanFromContext ctx => λ r, [Call (Otel (otel_SpanFromContext ctx)) r]
      | AddEvent s name attrs => λ r, [Call (Otel (span_AddEvent s name (toAttributes format attrs))) r]
      | RecordError s err => λ r,
          [Call (Otel (span_RecordError s err)) tt; Call (Otel (span_SetStatus_Error s (Error_text err))) r]
      | End_ s => λ r, [Call (Otel (span_End s)) r]
      | e => λ r, [Call (Untraced e) r]
      end r
  end.

(** The tracer port loses and adds nothing: an execution over OpenTelemetry is one
over the ports with every span, event and end passed on in order, and every
recorded error also made the status of its span, with the error's text. *)
Theorem spans_reach_otel {A} (format : any → string) (p : prog portE A) tr a :
  exec (interp (through_otel format) p) tr (Returned a) →
  ∃ tr0, exec p tr0 (Returned a) ∧ tr = flat_map (otel_calls format) tr0.
Proof.
  revert tr. induction p as [a'|msg|R e k IH]; intros tr.
  - intros [-> ->]%exec_ret. exists []. split; [by apply exec_ret|done].
  - intros [[_ ?]|[_ ?]]; done.
  - intros (r & tr1 & tr2 & -> & He & Hk)%(exec_bind (through_otel format R e)).
    apply IH in Hk as (tr0 & Hk & ->). exists (Call e r :: tr0). split; [right; by eauto|].
    simpl. f_equal. destruct e; simpl in He;
      repeat match goal with
      | H : _ ∨ _ |- _ => destruct H
      | H : _ ∧ _ |- _ => destruct H
      | H : ∃ _, _ |- _ => destruct H
      | H : Returned _ = Returned _ |- _ => injection H as <-
      end; simplify_eq; try done.
    by destruct x.
Qed.

(** The spans of a trace that were encoded, with the answers. *)
Fixpoint encoded (tr : list (call exportE)) : list (span_record * option error) :=
  match tr with
  | [] => []
  | Call e r :: tr =>
      match e in exportE R return R → list (span_record * option error) with
      | Encode rec => λ err, [(rec, err)]
      | _ => λ _, []
      end r ++ encoded tr
  end.

Lemma encode_spans_trace spans tr err :
  exec (encode_spans spans) tr (Returned err) →
  ∃ answers, encoded tr = zip (map record_of spans) answers ∧
    tr = map (λ ra, Call (Encode ra.1) ra.2) (encoded tr) ∧
    match err with
    | None => answers = map (λ _, None) spans
    | Some e => ∃ n, n < length spans ∧ answers = repeat None n ++ [Some e]
    end.
Proof.
  revert tr. induction spans as [|span spans IH]; intros tr; cbn [encode_spans].
  - intros [-> ->]%exec_ret. exists []. done.
  - intros (r & tr' & -> & H)%exec_trigger. destruct r as [e|].
    + apply exec_ret in H as [-> ->]. exists [Some e]. simpl. split_and!; [by destruct spans|done|].
      exists 0. split; [lia|done].
    + destruct (IH _ H) as (answers & He & Ht & Hr). exists (None :: answers). simpl.
      rewrite He. split_and!; [done|by rewrite <- He, <- Ht|].
      destruct err as [e|]; [|by rewrite Hr]. destruct Hr as (n & Hn & ->).
      exists (S n). split; [simpl; lia|done].
Qed.

(** C40: The JSON exporter writes every span exactly once and in order, holding
its lock; it stops at the first span the encoder refuses and returns that error,
writes nothing once the context is done, and always releases the lock. *)
Theorem ExportSpans_in_order (spans : list ReadOnlySpan) (tr : list (call exportE))
    (err : option error) (ran : exec (ExportSpans spans) tr (Returned err)) :
  (∃ e, tr = [Call export_ctx_Err (Some e)] ∧ err = Some e) ∨
  (∃ answers, let written := zip (map record_of spans) answers in
     tr = ([Call export_ctx_Err None; Call Lock tt] ++
           map (λ ra, Call (Encode ra.1) ra.2) written ++ [Call Unlock tt]) ∧
     match err with
     | None => answers = map (λ _, None) spans
     | Some e => ∃ n, n < length spans ∧ answers = repeat None n ++ [Some e]
     end).
Proof.
  apply exec_trigger in ran as (cerr & tr1 & -> & ran). destruct cerr as [e|].
  { apply exec_ret in ran as [-> ->]. left. by exists e. }
  apply exec_trigger in ran as ([] & tr2 & -> & ran).
  apply exec_bind in ran as (e & tr3 & tr4 & -> & He & ran).
  apply exec_trigger in ran as ([] & tr5 & -> & ran). apply exec_ret in ran as [-> ->].
  apply encode_spans_trace in He as (answers & He & Ht & Hr). right. exists answers.
  split; [|done]. rewrite Ht, He. done.
Qed.

Definition example_span : ReadOnlySpan :=
  mkReadOnlySpan "t" "s" "p" "CreateOrder.Execute" "internal" 1 2 "Unset" []
    [("k", AInt 1); ("k", AString "v")] [].

Lemma ExportSpans_in_order_witness :
  attributesToMap (span_Attributes example_span) = {["k" := VString "v"]} ∧
  ∃ tr, exec (ExportSpans [example_span]) tr (Returned None) ∧ length tr = 4.
Proof.
  split; [vm_compute; reflexivity|].
  assert (exec (ExportSpans [example_span])
    [Call export_ctx_Err None; Call Lock tt; Call (Encode (record_of example_span)) None;
     Call Unlock tt] (Returned None)) as Hran.
  { do 4 (right; do 2 eexists; split; [reflexivity|]). right. split; reflexivity. }
  eexists. split; [exact Hran|].
  destruct (ExportSpans_in_order _ _ _ Hran) as [(e & H & _)|(answers & H & Ha)].
  - apply (f_equal length) in H. discriminate H.
  - cbv zeta in H. rewrite H, Ha. reflexivity.
Defined.
