(* ===== verification/Logging.v ===== *)
(** * The logger (observability/logging.go)

Redaction by key, at any depth of nesting, and by pattern in texts, at the
logging boundary. *)

From S2P Require Import Prelude GoValues Text Regexp Prog Domain Ports Tracing.

(** ** Patterns *)

Definition in_range (lo hi c : N) : bool := ((lo <=? c) && (c <=? hi))%N.
Definition digit (c : N) : bool := in_range 48 57 c.
Definition letter (c : N) : bool := in_range 65 90 c || in_range 97 122 c.
(** Under (?i) a class of letters also has the runes that fold to K and S. *)
Definition letter_fold (c : N) : bool := letter c || ⟦c = 8490%N⟧ || ⟦c = 383%N⟧.
Definition one (a : ascii) (c : N) : bool := ⟦c = N_of_ascii a⟧.
Definition one_of (l : list ascii) (c : N) : bool := existsb (λ a, one a c) l.
Definition either_case (upper lower : ascii) (c : N) : bool := one upper c || one lower c.

Definition star (r : regex) : regex := Rep true 0 None r.
Definition plus (r : regex) : regex := Rep true 1 None r.

(** [(?i)\b[A-Z0-9._%+\-]+@[A-Z0-9.\-]+\.[A-Z]{2,}\b] *)
Definition emailPattern : regex :=
  Seq Bound (Seq (plus (Cls (λ c, letter_fold c || digit c || one_of ["."; "_"; "%"; "+"; "-"]%char c)))
  (Seq (Cls (one "@"))
  (Seq (plus (Cls (λ c, letter_fold c || digit c || one_of ["."; "-"]%char c)))
  (Seq (Cls (one "."))
  (Seq (Rep true 2 None (Cls letter_fold)) Bound))))).

(** [\b(?:[0-9][ -]*?){13,19}\b] *)
Definition cardPattern : regex :=
  Seq Bound (Seq (Rep true 13 (Some 19)
    (Seq (Cls digit) (Rep false 0 None (Cls (one_of [" "; "-"]%char))))) Bound).

(** [(?i)\bbearer\s+[A-Za-z0-9._~+/\-]+=*] *)
Definition bearerPattern : regex :=
  Seq Bound (literal [either_case "B" "b"; either_case "E" "e"; either_case "A" "a";
                      either_case "R" "r"; either_case "E" "e"; either_case "R" "r"]
  (Seq (plus (Cls (λ c, ⟦c ∈ [9; 10; 12; 13; 32]%N⟧)))
  (Seq (plus (Cls (λ c, letter_fold c || digit c || one_of ["."; "_"; "~"; "+"; "/"; "-"]%char c)))
       (star (Cls (one "=")))))).

Definition sanitizeText (value : string) : string :=
  let value := ReplaceAllString emailPattern value "[REDACTED_EMAIL]" in
  let value := ReplaceAllString cardPattern value "[REDACTED_CARD]" in
  ReplaceAllString bearerPattern value "[REDACTED_TOKEN]".

(** No pattern matches an empty text, so replacing terminates by itself
([replace_all_fuel]). *)
Example patterns_consume :
  forallb consumes [emailPattern; cardPattern; bearerPattern] = true.
Proof. reflexivity. Qed.

(** ** Keys and values *)

Definition redactedKeys : list string :=
  ["password"; "card_number"; "cvv"; "ssn"; "email"; "customer_id"; "payment_ref";
   "authorization"; "token"; "idempotency_key"].

Definition normalizeKey (key : string) : string := hyphens_to_underscores (ToLower key).

Definition sensitive (key : string) : bool := ⟦normalizeKey key ∈ redactedKeys⟧.

Fixpoint sanitizeValue (value : any) : any :=
  match value with
  | VString s => VString (sanitizeText s)
  | VError e => VString (sanitizeText (Error_text e))
  | VMap entries =>
      VMap (map (λ kv, (kv.1, if sensitive kv.1 then VString "[REDACTED]" else sanitizeValue kv.2))
              entries)
  | VSlice elems => VSlice (map sanitizeValue elems)
  | value => value
  end.

(** [key, _ := kv[i].(string)]. *)
Definition key_of (v : any) : string := match v with VString s => s | _ => "" end.

(** Pairs only: a last key without a value is dropped. *)
Fixpoint redact (kv : list any) : list any :=
  match kv with
  | k :: v :: kv =>
      if sensitive (key_of k) then k :: VString "[REDACTED]" :: redact kv
      else k :: sanitizeValue v :: redact kv
  | _ => []
  end.

(** ** The logger *)

Inductive level := LevelInfo | LevelError.

(** A call of the underlying [slog.Logger]. *)
Record log_call := mkLogCall {
  log_level : level;
  log_msg : string;
  log_args : list any }.

Section logger.
(** The span context of a context, and [string(debug.Stack())]. *)
Context (span_context : Ctx → SpanContext) (stack : string).

Definition contextAttrs (ctx : Ctx) : list any :=
  [VString "trace_id"; VString (TraceIDFromContext span_context ctx);
   VString "span_id"; VString (SpanIDFromContext span_context ctx)].

Definition Logger_Info (ctx : Ctx) (msg : string) (kv : list any) : log_call :=
  mkLogCall LevelInfo msg (contextAttrs ctx ++ redact kv).

Definition Logger_Error (ctx : Ctx) (msg : string) (err : option error) (kv : list any) : log_call :=
  let errorText := match err with Some err => Error_text err | None => "<nil>" end in
  let kv := kv ++ [VString "error"; VString errorText; VString "stack"; VString stack] in
  mkLogCall LevelError msg (contextAttrs ctx ++ redact kv).
End logger.

(** ** Non-interference *)

(** Values that agree on everything that is not under a sensitive key. *)
Inductive same_public : any → any → Prop :=
| same_value v : same_public v v
| same_map es es' : same_entries es es' → same_public (VMap es) (VMap es')
| same_slice l l' : same_elems l l' → same_public (VSlice l) (VSlice l')
with same_entries : list (string * any) → list (string * any) → Prop :=
| entries_nil : same_entries [] []
| entries_hidden k v v' es es' :
    sensitive k = true → same_entries es es' → same_entries ((k, v) :: es) ((k, v') :: es')
| entries_public k v v' es es' :
    same_public v v' → same_entries es es' → same_entries ((k, v) :: es) ((k, v') :: es')
with same_elems : list any → list any → Prop :=
| elems_nil : same_elems [] []
| elems_cons v v' l l' : same_public v v' → same_elems l l' → same_elems (v :: l) (v' :: l').

(** Key-value lists that agree on everything not under a sensitive key. *)
Inductive same_public_kv : list any → list any → Prop :=
| kv_nil : same_public_kv [] []
| kv_dangling k k' : same_public_kv [k] [k']
| kv_hidden k v v' kv kv' :
    sensitive (key_of k) = true → same_public_kv kv kv' →
    same_public_kv (k :: v :: kv) (k :: v' :: kv')
| kv_public k v v' kv kv' :
    same_public v v' → same_public_kv kv kv' → same_public_kv (k :: v :: kv) (k :: v' :: kv').

Scheme same_public_mut := Minimality for same_public Sort Prop
  with same_entries_mut := Minimality for same_entries Sort Prop
  with same_elems_mut := Minimality for same_elems Sort Prop.

Lemma sanitize_same v v' : same_public v v' → sanitizeValue v = sanitizeValue v'.
Proof.
  revert v v'. apply (same_public_mut (λ v v', sanitizeValue v = sanitizeValue v')
    (λ es es', sanitizeValue (VMap es) = sanitizeValue (VMap es'))
    (λ l l', sanitizeValue (VSlice l) = sanitizeValue (VSlice l'))); try done.
  - intros k v v' es es' Hk _ IH. cbn [sanitizeValue map fst snd] in *. injection IH as IH.
    by rewrite Hk, IH.
  - intros k v v' es es' _ Hv _ IH. cbn [sanitizeValue map fst snd] in *. injection IH as IH.
    by rewrite Hv, IH.
  - intros v v' l l' _ Hv _ IH. cbn [sanitizeValue map] in *. injection IH as IH. by rewrite Hv, IH.
Qed.

Lemma redact_app kv kv' : Nat.Even (length kv) → redact (kv ++ kv') = redact kv ++ redact kv'.
Proof.
  intros [n Hn]. revert kv Hn. induction n as [|n IH]; intros kv Hn.
  - by destruct kv.
  - destruct kv as [|k [|v kv]]; simpl in Hn; [done|lia|]. cbn [redact app].
    rewrite IH by lia. by destruct (sensitive (key_of k)).
Qed.

Lemma redact_same kv kv' : same_public_kv kv kv' → redact kv = redact kv'.
Proof.
  induction 1 as [|k k'|k v v' kv kv' Hk _ IH|k v v' kv kv' Hv _ IH]; cbn [redact]; [done|done|..].
  - by rewrite Hk, IH.
  - by rewrite IH, (sanitize_same _ _ Hv).
Qed.

Lemma redact_length kv : length (redact kv) = 2 * (length kv / 2).
Proof.
  induction kv as [kv IH] using (induction_ltof1 _ length). destruct kv as [|k [|v kv]]; [done|done|].
  cbn [redact length]. replace (S (S (length kv)) / 2) with (S (length kv / 2)).
  2: { replace (S (S (length kv))) with (length kv + 1 * 2) by lia. rewrite Nat.div_add by lia. lia. }
  assert (ltof _ length kv (k :: v :: kv)) as Hlt by (unfold ltof; simpl; lia).
  specialize (IH kv Hlt). destruct (sensitive (key_of k)); cbn [length]; rewrite IH; lia.
Qed.

(** C39: Secrets do not reach the log through their keys: whatever the context,
the message and the error, two sets of fields that agree on everything not under
a sensitive key, at any depth of nested maps and slices, and however the key is
cased or hyphenated, produce exactly the same log line. *)
Theorem log_lines_hide_sensitive_keys (span_context : Ctx → SpanContext) (stack : string)
    (ctx : Ctx) (msg : string) (err : option error) (kv kv' : list any)
    (same : same_public_kv kv kv') (pairs : Nat.Even (length kv) ∧ Nat.Even (length kv')) :
  Logger_Info span_context ctx msg kv = Logger_Info span_context ctx msg kv' ∧
  Logger_Error span_context stack ctx msg err kv = Logger_Error span_context stack ctx msg err kv'.
Proof.
  destruct pairs. unfold Logger_Info, Logger_Error. cbv zeta.
  by rewrite !redact_app, (redact_same _ _ same) by done.
Qed.

(** Redaction keeps the shape of the fields: every pair keeps its key, in
order, a value under a sensitive key becomes the marker, any other value is
sanitised, and only a last key without a value is dropped; numbers, booleans and
times pass unchanged. *)
Theorem redact_pairwise (kv : list any) (i : nat) (k v : any)
    (at_key : kv !! (2 * i) = Some k) (at_value : kv !! S (2 * i) = Some v) :
  redact kv !! (2 * i) = Some k ∧
  redact kv !! S (2 * i) =
    Some (if sensitive (key_of k) then VString "[REDACTED]" else sanitizeValue v) ∧
  length (redact kv) = 2 * (length kv / 2) ∧
  (sensitive (key_of k) = false →
   match v with VInt _ | VInt64 _ | VBool _ | VTime _ => True | _ => False end →
   redact kv !! S (2 * i) = Some v).
Proof.
  assert (redact kv !! (2 * i) = Some k ∧ redact kv !! S (2 * i) =
    Some (if sensitive (key_of k) then VString "[REDACTED]" else sanitizeValue v)) as [Hk Hv].
  { revert kv at_key at_value. induction i as [|i IH]; intros kv Hk Hv.
    - destruct kv as [|k' [|v' kv]]; simplify_eq/=. by destruct (sensitive (key_of k)).
    - destruct kv as [|k' [|v' kv]]; [done|by rewrite Nat.mul_succ_r in Hk; simpl in Hk|].
      replace (2 * S i) with (S (S (2 * i))) in * by lia. cbn in Hk, Hv.
      destruct (IH kv Hk Hv) as [IH1 IH2]. cbn [redact].
      destruct (sensitive (key_of k')); by cbn. }
  split_and!; [done|done|apply redact_length|]. intros Hs Hnum. rewrite Hv, Hs. by destruct v.
Qed.

(** ** Witnesses and runs *)

Example sanitized_texts :
  sanitizeText "mail bob@example.com now" = "mail [REDACTED_EMAIL] now" ∧
  sanitizeText "card 4111 1111 1111 1111." = "card [REDACTED_CARD]." ∧
  sanitizeText "Authorization: Bearer abc.def==" = "Authorization: [REDACTED_TOKEN]" ∧
  sanitizeText "order ord_2a2a2a2a2a2a2a2a failed" = "order ord_2a2a2a2a2a2a2a2a failed" ∧
  sanitizeText "call 555-123-4567" = "call 555-123-4567".
Proof. vm_compute. split_and!; reflexivity. Qed.

Example redacted_keys :
  map sensitive ["Customer-ID"; "PASSWORD"; "idempotency-key"; "order_id"; "status"] =
    [true; true; true; false; false].
Proof. vm_compute. reflexivity. Qed.

Definition fields_with (secret : string) : list any :=
  [VString "order_id"; VString "ord_1"; VString "Card-Number"; VString secret;
   VString "request"; VMap [("Token", VString secret); ("n", VInt 2)]].

Lemma log_lines_hide_sensitive_keys_witness :
  Logger_Info (λ _, mkSpanContext None None) (mkCtx 0) "m" (fields_with "4111") =
  Logger_Info (λ _, mkSpanContext None None) (mkCtx 0) "m" (fields_with "other").
Proof.
  refine (proj1 (log_lines_hide_sensitive_keys (λ _, mkSpanContext None None) "" (mkCtx 0) "m" None
    (fields_with "4111") (fields_with "other") _ _)).
  - apply kv_public; [apply same_value|]. apply kv_hidden; [vm_compute; reflexivity|].
    apply kv_public; [|apply kv_nil]. apply same_map.
    apply entries_hidden; [vm_compute; reflexivity|]. apply entries_public; [apply same_value|].
    apply entries_nil.
  - split; exists 3; reflexivity.
Defined.

Lemma redact_pairwise_witness :
  redact (fields_with "4111") !! 3 = Some (VString "[REDACTED]").
Proof.
  exact (proj1 (proj2 (redact_pairwise (fields_with "4111") 1 (VString "Card-Number") (VString "4111")
    eq_refl eq_refl))).
Defined.
