(* ===== verification/Redaction.v ===== *)
(** * What redaction leaves (observability/logging.go)

No text that went through [sanitizeText] holds an e-mail address, a card number
or a bearer token as the patterns of logging.go describe them, and sanitising
it again changes nothing. *)

From S2P Require Import Prelude GoValues Text Regexp Prog Domain Ports Tracing Logging.

(** ** The patterns *)

(** Every rune but the brackets of the replacements. *)
Definition no_bracket (c : N) : bool := negb (c =? 91)%N && negb (c =? 93)%N.

Definition open_bracket : rune := rune_of "["%char.
Definition close_bracket : rune := rune_of "]"%char.
Definition marker (name : string) : list rune := open_bracket :: runes name ++ [close_bracket].

(** The patterns with the names in their replacements. *)
Definition redactions : list (regex * string) :=
  [(emailPattern, "REDACTED_EMAIL"); (cardPattern, "REDACTED_CARD"); (bearerPattern, "REDACTED_TOKEN")].

Lemma within_no_bracket (g : N → bool) :
  g 91%N = false → g 93%N = false → ∀ c, g c = true → no_bracket c = true.
Proof.
  intros H1 H2 c Hc. unfold no_bracket.
  destruct (N.eqb_spec c 91); [congruence|]. destruct (N.eqb_spec c 93); [congruence|]. done.
Qed.

Lemma patterns_within : Forall (λ pn, within no_bracket pn.1) redactions.
Proof.
  repeat apply Forall_cons_2; [..|done]; cbn [within fst literal emailPattern cardPattern bearerPattern plus star];
    repeat match goal with
    | |- _ ∧ _ => split
    | |- True => exact I
    | |- ∀ _, _ => apply within_no_bracket; vm_compute; reflexivity
    end.
Qed.

Lemma patterns_well_formed : Forall (λ pn, well_formed pn.1 = true ∧ consumes pn.1 = true) redactions.
Proof. repeat constructor. Qed.

Lemma markers_self : Forall (λ pn, Forall self_delimiting (marker pn.2)) redactions.
Proof.
  assert (∀ name, Forall (λ r, r = rune_of (ascii_of_N (code r)) ∧ (code r < 128)%N) (marker name) →
    Forall self_delimiting (marker name)) as H.
  { intros name Hf. eapply Forall_impl; [exact Hf|]. intros r [Hr Hc]. rewrite Hr. apply rune_of_self.
    rewrite N_ascii_embedding; [done|lia]. }
  repeat constructor; apply H; apply (bool_decide_unpack _); vm_compute; exact I.
Qed.

Lemma markers_unmatched :
  Forall (λ pn, Forall (λ qn, no_match_b qn.1 (Some 65%N) (marker pn.2) = true) redactions) redactions.
Proof. repeat constructor. Qed.

Lemma patterns_start_at_words : Forall (λ pn, ∃ r, pn.1 = Seq Bound r) redactions.
Proof. repeat constructor; eexists; reflexivity. Qed.

(** ** Where the matches end *)

Fixpoint ends_in_bound (r : regex) : bool :=
  match r with Bound => true | Seq _ b => ends_in_bound b | _ => false end.

Lemma ends_in_bound_words r : well_formed r = true → ends_in_bound r = true → ends_words r.
Proof.
  intros Hwf Hend p s p' s' (y & Hy & [= <- <-])%(match_regex_sound _ Hwf). apply boundary_word_ends.
  clear Hwf. revert Hy. generalize (p, s). induction r as [|a _ b IH| |]; intros x; try done.
  - intros (z & _ & Hb). by apply (IH Hend z).
  - by intros [-> ?].
Qed.

Lemma match_seq {A} a b p s (k : option N → list rune → option A) v :
  well_formed a = true → match_regex (Seq a b) p s k = Some v →
  ∃ y : pos, match_regex b y.1 y.2 k = Some v.
Proof. intros Hwf (y & _ & ?)%(match_regex_sound a Hwf). by exists y. Qed.

Lemma star_total {A} f p s (k : option N → list rune → option A) :
  (∀ p s, is_Some (k p s)) → is_Some (match_regex (star (Cls f)) p s k).
Proof.
  intros Hk. apply (match_regex_complete (star (Cls f)) eq_refl (p, s) (p, s)); [|done].
  exists 0. split_and!; [lia|done|constructor].
Qed.

Lemma star_end f x y : matches (star (Cls f)) x y → y = x ∨ ∃ c, y.1 = Some c ∧ f c = true.
Proof.
  intros (n & _ & _ & Hn). induction Hn as [x|n x y z (c & _ & Hf & Hy) _ IH]; [by left|]. right.
  destruct IH as [->|?]; [by eauto|done].
Qed.

(** A greedy run of word characters and more, then of characters that are not
word characters. *)
Lemma greedy_tail_ends (f g : N → bool) p s p' s' :
  (∀ c, word_char c = true → f c = true) → (∀ c, g c = true → word_char c = false) →
  match_regex (Seq (plus (Cls f)) (star (Cls g))) p s (λ p s, Some (p, s)) = Some (p', s') →
  word_ends p' s'.
Proof.
  intros Hf Hg. cbn [match_regex plus]. intros (p1 & s1 & H1 & Hhead & Hlast)%greedy_class_maximal;
    [|intros; by apply star_total; eauto|lia].
  destruct (match_regex_sound (star (Cls g)) eq_refl _ _ _ _ H1) as ([p2 s2] & Hm & [= -> ->]).
  destruct (star_end _ _ _ Hm) as [[= -> ->]|(c & Hc & Hgc)]; intros Hw.
  - exfalso. destruct (head s1) as [c|] eqn:Hs; [|done]. simpl in *. by rewrite Hf in Hhead.
  - simpl in Hc. rewrite Hc. by apply Hg.
Qed.

Lemma patterns_end_words : Forall (λ pn, ends_words pn.1) redactions.
Proof.
  repeat constructor; [by apply ends_in_bound_words..|].
  intros p s p' s' H. unfold bearerPattern in H. cbn [literal fst] in H.
  do 8 (apply match_seq in H as [? H]; [|reflexivity]).
  refine (greedy_tail_ends _ _ _ _ _ _ _ _ H); [|by intros c ->%bool_decide_eq_true]. intros c Hc.
  unfold letter_fold, letter, digit, in_range, one_of, one, word_char in *. simpl.
  repeat (apply orb_true_iff in Hc as [Hc|Hc]);
    first [by rewrite Hc, ?orb_true_r|by apply N.eqb_eq in Hc as ->].
Qed.

(** ** Sanitised text *)

(** One replacement leaves no match of its own pattern, and none of a pattern
that had none. *)
Lemma replacement_leaves_none P name Q nameQ s :
  (P, name) ∈ redactions → (Q, nameQ) ∈ redactions →
  Q = P ∨ no_match Q None (runes s) →
  no_match Q None (runes (ReplaceAllString P s (concat_bytes (marker name)))).
Proof.
  intros HP HQ Hno.
  destruct (proj1 (Forall_forall _ _) patterns_well_formed _ HP) as [HwfP HcP].
  destruct (proj1 (Forall_forall _ _) patterns_well_formed _ HQ) as [HwfQ HcQ].
  pose proof (proj1 (Forall_forall _ _) patterns_end_words _ HP) as Hends.
  pose proof (proj1 (Forall_forall _ _) markers_self _ HP) as Hself.
  pose proof (proj1 (Forall_forall _ _) patterns_within _ HQ) as HwQ.
  destruct (proj1 (Forall_forall _ _) patterns_start_at_words _ HP) as [rest Hstart].
  pose proof (proj1 (Forall_forall _ _) (proj1 (Forall_forall _ _) markers_unmatched _ HP) _ HQ) as Hm.
  cbn [fst snd] in *. unfold ReplaceAllString. cbv zeta.
  destruct (replace_all_replaced P (marker name) None (runes s) HwfP HcP Hends) as (out & Hout & ->).
  destruct (replaced_decoded P (marker name) None (runes s) out) as [Hdec _];
    [exact Hself|by exists "["%char, (runes name ++ [close_bracket])|exact Hout|apply decoded_runes|].
  rewrite Hdec. apply (replaced_no_match no_bracket P Q (runes name) open_bracket close_bracket) with None (runes s);
    [done..| | |exact Hout|exact Hno|by left].
  - rewrite Hstart. by intros x y (? & [-> ?] & _).
  - intros p. apply (no_match_any no_bracket); [done..|]. exact (no_match_b_correct Q _ _ HwfQ Hm).
Qed.

(** No pattern matches anywhere in the text. *)
Definition clean_text (s : string) : Prop := Forall (λ pn, no_match pn.1 None (runes s)) redactions.

Lemma sanitizeText_clean value : clean_text (sanitizeText value).
Proof.
  unfold sanitizeText. cbv zeta.
  change "[REDACTED_EMAIL]" with (concat_bytes (marker "REDACTED_EMAIL")).
  change "[REDACTED_CARD]" with (concat_bytes (marker "REDACTED_CARD")).
  change "[REDACTED_TOKEN]" with (concat_bytes (marker "REDACTED_TOKEN")).
  assert (∀ s Q n P m, (P, m) ∈ redactions → (Q, n) ∈ redactions → no_match Q None (runes s) →
    no_match Q None (runes (ReplaceAllString P s (concat_bytes (marker m))))) as Hkeep
    by (intros; eapply replacement_leaves_none; eauto).
  assert (∀ s P m, (P, m) ∈ redactions →
    no_match P None (runes (ReplaceAllString P s (concat_bytes (marker m))))) as Hown
    by (intros; eapply replacement_leaves_none; eauto).
  assert ((emailPattern, "REDACTED_EMAIL") ∈ redactions) by (apply list_elem_of_here).
  assert ((cardPattern, "REDACTED_CARD") ∈ redactions)
    by (apply list_elem_of_further, list_elem_of_here).
  assert ((bearerPattern, "REDACTED_TOKEN") ∈ redactions)
    by (do 2 apply list_elem_of_further; apply list_elem_of_here).
  repeat apply Forall_cons_2; eauto.
Qed.

Lemma replace_all_unmatched r by_ p s :
  well_formed r = true → no_match r p s → replace_all (length s) r by_ p s = concat_bytes s.
Proof.
  intros Hwf. revert p. induction s as [|c s IH]; intros p [Hno Hs]; [done|].
  cbn [replace_all length]. destruct (match_regex _ _ _ _) as [[p' s']|] eqn:Hm.
  - destruct (match_regex_sound r Hwf _ _ _ _ Hm) as (y & Hy & _). by destruct (Hno y).
  - simpl. by rewrite IH.
Qed.

Lemma ReplaceAllString_unmatched r s by_ :
  well_formed r = true → no_match r None (runes s) → ReplaceAllString r s by_ = s.
Proof.
  intros. unfold ReplaceAllString. cbv zeta. rewrite replace_all_unmatched by done. apply concat_runes.
Qed.

(** A clean text is not touched. *)
Lemma sanitizeText_unmatched value : clean_text value → sanitizeText value = value.
Proof.
  intros [H1 [H2 [H3 _]%Forall_cons]%Forall_cons]%Forall_cons. unfold sanitizeText. cbv zeta.
  rewrite (ReplaceAllString_unmatched emailPattern), (ReplaceAllString_unmatched cardPattern) by done.
  by apply ReplaceAllString_unmatched.
Qed.

(** ** Log lines *)








(** *** The ids of the context *)

Definition hex_rune (c : N) : bool := in_range 48 57 c || in_range 97 102 c.




(** C11: Sanitised text is free of what the patterns of logging.go describe: at no
position of it, byte sequences that are not UTF-8 included, does the e-mail, the
card or the bearer pattern match anything, however the matches overlapped and
whatever their replacement brought together.  So sanitising is idempotent, and a
text in which no pattern matches is kept byte for byte. *)
Theorem sanitized_text_matches_nothing (value : string) (P : regex)
    (pattern : P ∈ [emailPattern; cardPattern; bearerPattern]) :
  (∀ before after y, runes (sanitizeText value) = before ++ after →
     ¬ matches P (code <$> last before, after) y) ∧
  sanitizeText (sanitizeText value) = sanitizeText value ∧
  (clean_text value → sanitizeText value = value).
Proof.
  split_and!; [|apply sanitizeText_unmatched, sanitizeText_clean|apply sanitizeText_unmatched].
  assert (no_match P None (runes (sanitizeText value))) as Hno.
  { pose proof (sanitizeText_clean value) as [H1 [H2 [H3 _]%Forall_cons]%Forall_cons]%Forall_cons.
    set_unfold. by destruct pattern as [->|[->|[->|[]]]]. }
  intros before after y. revert Hno. change (@None N) with (code <$> last ([] : list rune)) at 1.
  generalize (runes (sanitizeText value)). intros s Hno ->. revert Hno.
  assert (∀ p, no_match P p (before ++ after) → no_match P (from_option (λ c, Some (code c)) p (last before)) after) as Hsuf.
  { induction before as [|c before IH]; intros p Hp; [done|]. destruct Hp as [_ Hp%IH].
    rewrite last_cons. by destruct (last before). }
  intros Hno%Hsuf Hy. destruct after as [|c after]; destruct Hno as [Hno _]; apply (Hno y);
    by destruct (last before).
Qed.



(** A span id may be sixteen decimal digits, which the card pattern takes for a card. *)
Example card_like_span_id :
  no_match_b cardPattern None (runes "1234567890123456") = false ∧
  Forall (λ r, hex_rune (code r) = true) (runes "1234567890123456").
Proof. split; [reflexivity|by apply (bool_decide_unpack _)]. Qed.



Lemma sanitized_text_matches_nothing_witness :
  sanitizeText (sanitizeText "a@b.co@c.org Bearer x=y 4111 1111 1111 1111-1") =
    sanitizeText "a@b.co@c.org Bearer x=y 4111 1111 1111 1111-1".
Proof.
  refine (proj1 (proj2 (sanitized_text_matches_nothing "a@b.co@c.org Bearer x=y 4111 1111 1111 1111-1"
    emailPattern _))).
  apply list_elem_of_here.
Defined.
