(* ===== verification/Metrics.v ===== *)
(** * The metrics (observability/metrics.go)

The Prometheus recorder: labels clamped to fixed sets, exemplars instead of
per-request labels, and a gauge read from the store. *)

From S2P Require Import Prelude GoValues Prog Domain Ports CreateOrder Decorators Tracing.

(** ** State *)

(** One observation: the duration and the trace it links to, if any. *)
Definition observation : Type := Duration * option string.

(** The series of each instrument, by label values. *)
Record PrometheusMetrics := mkMetrics {
  ordersCreated : gmap (string * string) N;
  stepDuration : gmap string (list observation);
  pendingCollectionErrors : N }.

Definition no_metrics : PrometheusMetrics := mkMetrics ∅ ∅ 0.

(** What an instrument is registered under, and the names of its labels. *)
Record Opts := mkOpts {
  opts_Name : string;
  opts_Help : string;
  opts_labels : list string }.

Definition ordersCreatedOpts : Opts :=
  mkOpts "orders_created_total" "Orders created, by outcome and customer tier."
    ["status"; "customer_tier"].
Definition stepDurationOpts : Opts :=
  mkOpts "order_processing_duration_seconds" "Order processing duration by pipeline step." ["step"].
Definition pendingCollectionErrorsOpts : Opts :=
  mkOpts "orders_pending_collection_errors_total"
    "Failures while collecting the authoritative pending-order gauge." [].
Definition pendingOrdersOpts : Opts :=
  mkOpts "orders_pending_count" "Orders currently pending payment or fulfillment." [].

(** [register registered c] is the registry's answer to the collector [c] once it has
[registered]; [MustRegister] takes them in order and panics on the first error. *)
Fixpoint MustRegister (register : list Opts → Opts → option error) (registered collectors : list Opts)
    : option string :=
  match collectors with
  | [] => None
  | c :: collectors =>
      match register registered c with
      | Some err => Some (Error_text err)
      | None => MustRegister register (registered ++ [c]) collectors
      end
  end.

Definition NewPrometheusMetrics (register : list Opts → Opts → option error) (registered : list Opts)
    : outcome PrometheusMetrics :=
  let m := no_metrics in
  match MustRegister register registered
          [ordersCreatedOpts; stepDurationOpts; pendingOrdersOpts; pendingCollectionErrorsOpts] with
  | Some msg => Panicked msg
  | None => Returned m
  end.

(** A registry that refuses a collector only for a name it has already lets the
service start, unless one of its four names is taken. *)
Theorem NewPrometheusMetrics_registers (register : list Opts → Opts → option error) (registered : list Opts)
    (names : ∀ rs c, opts_Name c ∉ map opts_Name rs → register rs c = None)
    (free : Forall (λ name, name ∉ map opts_Name registered)
       ["orders_created_total"; "order_processing_duration_seconds"; "orders_pending_count";
        "orders_pending_collection_errors_total"]) :
  NewPrometheusMetrics register registered = Returned no_metrics.
Proof.
  rewrite !Forall_cons in free. destruct free as (H1 & H2 & H3 & H4 & _).
  unfold NewPrometheusMetrics. cbn [MustRegister].
  rewrite !names; [done|..]; rewrite ?map_app, ?not_elem_of_app; split_and?; try done;
    by apply (bool_decide_unpack _).
Qed.

(** ** Operations *)

Definition clamp_status (status : string) : string :=
  if ⟦status = "success" ∨ status = "failure"⟧ then status else "failure".
Definition clamp_tier (customerTier : string) : string :=
  if ⟦customerTier = "free" ∨ customerTier = "premium" ∨ customerTier = "unknown"⟧
  then customerTier else "unknown".
Definition clamp_step (step : string) : string :=
  if ⟦step = "validation" ∨ step = "payment" ∨ step = "fulfillment"⟧ then step else "unknown".

(** [counter.WithLabelValues(...).Inc()] makes the series if it is new. *)
Definition recordOrdersCreated (status customerTier : string) (m : PrometheusMetrics)
    : PrometheusMetrics :=
  let key := (clamp_status status, clamp_tier customerTier) in
  mkMetrics (<[key := (default 0 (ordersCreated m !! key) + 1)%N]> (ordersCreated m))
    (stepDuration m) (pendingCollectionErrors m).

(** [exemplars]: the observer implements [ExemplarObserver]. *)
Definition recordStepDuration (span_context : Ctx → SpanContext) (exemplars : bool)
    (ctx : Ctx) (step : string) (d : Duration) (m : PrometheusMetrics) : PrometheusMetrics :=
  let step := clamp_step step in
  let traceID := TraceIDFromContext span_context ctx in
  let observe o :=
    mkMetrics (ordersCreated m) (<[step := default [] (stepDuration m !! step) ++ [o]]> (stepDuration m))
      (pendingCollectionErrors m) in
  if ⟦traceID = ""⟧ then observe (d, None)
  else if exemplars then observe (d, Some traceID)
  else observe (d, None).

(** [PendingOrderCounter]: a value with a [CountPending] method, for the context
that the gauge makes. *)
Definition PendingOrderCounter (E : Type → Type) : Type := Ctx → prog E (Z * option error).

(** A scrape of the pending-orders gauge, given the answer of [CountPending]:
the value (float64 is exact up to 2^53), [None] for NaN. *)
Definition collectPending (answer : Z * option error) (m : PrometheusMetrics)
    : option Z * PrometheusMetrics :=
  let '(count, err) := answer in
  match err with
  | Some err => (None, mkMetrics (ordersCreated m) (stepDuration m) (pendingCollectionErrors m + 1))
  | None => (Some count, m)
  end.

(** The function of the gauge. *)
Definition pendingOrders {E} (pending : PendingOrderCounter E) (ctx : Ctx) (m : PrometheusMetrics)
    : prog E (option Z * PrometheusMetrics) :=
  answer ← pending ctx;
  mret (collectPending answer m).

(** What happens to the metrics over the life of the process. *)
Inductive metric_op :=
| RecordOrder (status customerTier : string)
| RecordStep (ctx : Ctx) (step : string) (d : Duration)
| Scrape (answer : Z * option error).

Definition apply_metric (span_context : Ctx → SpanContext) (exemplars : bool)
    (m : PrometheusMetrics) (o : metric_op) : PrometheusMetrics :=
  match o with
  | RecordOrder status tier => recordOrdersCreated status tier m
  | RecordStep ctx step d => recordStepDuration span_context exemplars ctx step d m
  | Scrape answer => (collectPending answer m).2
  end.

(** ** Bounds *)

Definition order_series : list (string * string) :=
  [("success", "free"); ("success", "premium"); ("success", "unknown");
   ("failure", "free"); ("failure", "premium"); ("failure", "unknown")].
Definition step_series : list string := ["validation"; "payment"; "fulfillment"; "unknown"].

Lemma clamp_order_series status tier : (clamp_status status, clamp_tier tier) ∈ order_series.
Proof.
  unfold clamp_status, clamp_tier.
  case_bool_decide as Hs; case_bool_decide as Ht;
    repeat match goal with H : _ ∨ _ |- _ => destruct H end; subst;
    by apply (bool_decide_unpack _).
Qed.

Lemma clamp_step_series step : clamp_step step ∈ step_series.
Proof.
  unfold clamp_step. case_bool_decide as Hs;
    repeat match goal with H : _ ∨ _ |- _ => destruct H end; subst; by apply (bool_decide_unpack _).
Qed.

(** The label an outcome is counted under, the one a tier is, and the one a step is:
what METRICS.md promises, said without the code. *)
Definition counted_status (given label : string) : Prop :=
  label = "success" ∧ given = "success" ∨ label = "failure" ∧ given ≠ "success".
Definition counted_tier (given label : string) : Prop :=
  label = "free" ∧ given = "free" ∨ label = "premium" ∧ given = "premium" ∨
  label = "unknown" ∧ given ≠ "free" ∧ given ≠ "premium".
Definition counted_step (given label : string) : Prop :=
  label = "validation" ∧ given = "validation" ∨ label = "payment" ∧ given = "payment" ∨
  label = "fulfillment" ∧ given = "fulfillment" ∨
  label = "unknown" ∧ given ≠ "validation" ∧ given ≠ "payment" ∧ given ≠ "fulfillment".

#[global] Instance counted_status_dec given label : Decision (counted_status given label).
Proof. unfold counted_status. apply _. Defined.
#[global] Instance counted_tier_dec given label : Decision (counted_tier given label).
Proof. unfold counted_tier. apply _. Defined.
#[global] Instance counted_step_dec given label : Decision (counted_step given label).
Proof. unfold counted_step. apply _. Defined.

Lemma counted_status_clamp given label : counted_status given label ↔ clamp_status given = label.
Proof. unfold counted_status, clamp_status. case_bool_decide; naive_solver. Qed.
Lemma counted_tier_clamp given label : counted_tier given label ↔ clamp_tier given = label.
Proof. unfold counted_tier, clamp_tier. case_bool_decide; naive_solver. Qed.
Lemma counted_step_clamp given label : counted_step given label ↔ clamp_step given = label.
Proof. unfold counted_step, clamp_step. case_bool_decide; naive_solver. Qed.

Lemma counted_order_clamp status tier key :
  ⟦counted_status status key.1 ∧ counted_tier tier key.2⟧ = ⟦(clamp_status status, clamp_tier tier) = key⟧.
Proof.
  apply bool_decide_ext. rewrite counted_status_clamp, counted_tier_clamp. destruct key. naive_solver.
Qed.

(** What the calls add up to, by series. *)
Definition orders_recorded (key : string * string) (ops : list metric_op) : nat :=
  length (List.filter (λ o, match o with
                            | RecordOrder status tier => ⟦counted_status status key.1 ∧ counted_tier tier key.2⟧
                            | _ => false
                            end) ops).
Definition failed_scrapes (ops : list metric_op) : nat :=
  length (List.filter (λ o, match o with Scrape (_, Some _) => true | _ => false end) ops).

Section metrics.
Context (span_context : Ctx → SpanContext) (exemplars : bool).
Abbreviation after ops := (foldl (apply_metric span_context exemplars) no_metrics ops).

(** The observation of one call: it links to the trace of its context, if any. *)
Definition observed (ctx : Ctx) (d : Duration) : observation :=
  let traceID := TraceIDFromContext span_context ctx in
  (d, if ⟦traceID ≠ ""⟧ && exemplars then Some traceID else None).

Definition steps_recorded (step : string) (ops : list metric_op) : list observation :=
  omap (λ o, match o with
             | RecordStep ctx s d => if ⟦counted_step s step⟧ then Some (observed ctx d) else None
             | _ => None
             end) ops.

Record metrics_ok (ops : list metric_op) (m : PrometheusMetrics) : Prop := {
  orders_bounded : ∀ key, key ∈ dom (ordersCreated m) → key ∈ order_series;
  steps_bounded : ∀ step, step ∈ dom (stepDuration m) → step ∈ step_series;
  orders_exact : ∀ key, default 0%N (ordersCreated m !! key) = N.of_nat (orders_recorded key ops);
  steps_exact : ∀ step, default [] (stepDuration m !! step) = steps_recorded step ops;
  errors_exact : pendingCollectionErrors m = N.of_nat (failed_scrapes ops) }.

Lemma recordStepDuration_eq ctx step d m :
  recordStepDuration span_context exemplars ctx step d m =
    mkMetrics (ordersCreated m)
      (<[clamp_step step := default [] (stepDuration m !! clamp_step step) ++ [observed ctx d]]> (stepDuration m))
      (pendingCollectionErrors m).
Proof.
  unfold recordStepDuration, observed. cbv zeta. rewrite bool_decide_not.
  case_bool_decide; [done|]. by destruct exemplars.
Qed.

Lemma recorded_ok ops m o :
  metrics_ok ops m → metrics_ok (ops ++ [o]) (apply_metric span_context exemplars m o).
Proof.
  intros [Ho Hs Heo Hes Hee].
  destruct o as [status tier|ctx step d|[n [err|]]]; cbn [apply_metric];
    rewrite ?recordStepDuration_eq; (split; [intros key|intros s|intros key|intros s|]);
    unfold orders_recorded, steps_recorded, failed_scrapes in *;
    rewrite ?List.filter_app, ?omap_app, ?length_app; cbn;
    rewrite ?app_nil_r, ?Nat.add_0_r; auto.
  - rewrite dom_insert. intros [->%elem_of_singleton|]%elem_of_union; auto using clamp_order_series.
  - rewrite (counted_order_clamp status tier key), lookup_insert.
    specialize (Heo key). case_bool_decide; case_decide; subst; try done; simpl in *; lia.
  - rewrite dom_insert. intros [->%elem_of_singleton|]%elem_of_union; auto using clamp_step_series.
  - rewrite (bool_decide_ext _ _ (counted_step_clamp step s)), lookup_insert.
    case_bool_decide; case_decide; subst; try done; simpl; by rewrite ?app_nil_r, ?Hes.
  - lia.
Qed.

(** C37: The metrics stay bounded and exact: whatever statuses, tiers and steps are
recorded, in whatever order with scrapes, the counter has at most its six label
pairs and the histogram at most four steps; each counter is the number of orders
recorded for its labels, where "success", "free" and "premium" are counted as such
and any other outcome as "failure", any other tier as "unknown"; each histogram has
the observations of its step, "unknown" for any but the three, in their order and
linked to the trace of their context; and every failed scrape is counted. *)
Theorem metrics_bounded_and_exact (ops : list metric_op) :
  size (ordersCreated (after ops)) <= 6 ∧ size (stepDuration (after ops)) <= 4 ∧
  (∀ key, default 0%N (ordersCreated (after ops) !! key) = N.of_nat (orders_recorded key ops)) ∧
  (∀ key, orders_recorded key ops ≠ 0 → key ∈ order_series) ∧
  (∀ step, default [] (stepDuration (after ops) !! step) = steps_recorded step ops) ∧
  (∀ step, steps_recorded step ops ≠ [] → step ∈ step_series) ∧
  pendingCollectionErrors (after ops) = N.of_nat (failed_scrapes ops).
Proof.
  assert (metrics_ok ops (after ops)) as [Ho Hs Heo Hes Hee].
  { induction ops as [|o ops IH] using rev_ind; [by split; set_solver|].
    rewrite foldl_app. by apply recorded_ok. }
  split_and!; try done.
  - rewrite <- size_dom. etrans; [apply (subseteq_size _ (list_to_set order_series)); set_solver|].
    by vm_compute.
  - rewrite <- size_dom. etrans; [apply (subseteq_size _ (list_to_set step_series)); set_solver|].
    by vm_compute.
  - intros key Hne. apply Ho, elem_of_dom. destruct (ordersCreated (after ops) !! key) eqn:Hk; [done|].
    specialize (Heo key). rewrite Hk in Heo. simpl in Heo. lia.
  - intros step Hne. apply Hs, elem_of_dom. destruct (stepDuration (after ops) !! step) eqn:Hk; [done|].
    specialize (Hes step). rewrite Hk in Hes. simpl in Hes. by rewrite <- Hes in Hne.
Qed.
End metrics.
