(* ===== verification/Sha256.v ===== *)
(** * SHA-256 (crypto/sha256)

The digest behind the checksums of migrations, as FIPS 180-4 defines it, on
32-bit words kept in [N]. *)

From S2P Require Import Prelude.

Definition word_mask : N := 4294967295.
Definition add32 (a b : N) : N := N.land (a + b) word_mask.
Definition rotr (n x : N) : N :=
  N.lor (N.shiftr x n) (N.land (N.shiftl x (32 - n)) word_mask).

(** The greatest [r] with [r ^ k <= n], one bit at a time from [2 ^ bits] down. *)
Fixpoint root_from (k n : N) (bits : nat) (r : N) : N :=
  let r' := (r + N.shiftl 1 (N.of_nat bits))%N in
  let r := if (r' ^ k <=? n)%N then r' else r in
  match bits with
  | 0 => r
  | S bits => root_from k n bits r
  end.

Definition is_prime (n : nat) : bool := forallb (λ d, negb (n mod d =? 0)) (seq 2 (n - 2)).
Definition first_primes : list nat := List.filter is_prime (seq 2 310).

(** The first 32 bits of the fractional part of the [k]-th root of [p]. *)
Definition root_fraction (k : N) (p : nat) : N :=
  N.land (root_from k (N.shiftl (N.of_nat p) (32 * k)) 40 0) word_mask.

(** Cube roots of the first 64 primes, square roots of the first eight. *)
Definition round_constants : list N := Eval vm_compute in map (root_fraction 3) first_primes.
Definition initial_state : list N := Eval vm_compute in map (root_fraction 2) (take 8 first_primes).

(** The bytes of [n], big-endian. *)
Fixpoint be_bytes (len : nat) (n : N) : list N :=
  match len with
  | 0 => []
  | S len => N.land (N.shiftr n (8 * N.of_nat len)) 255 :: be_bytes len n
  end.

Definition pad (msg : list N) : list N :=
  let zeros := (119 - length msg mod 64) mod 64 in
  msg ++ 128%N :: repeat 0%N zeros ++ be_bytes 8 (8 * N.of_nat (length msg)).

Fixpoint words_of (bytes : list N) : list N :=
  match bytes with
  | a :: b :: c :: d :: bytes =>
      (a * 16777216 + b * 65536 + c * 256 + d)%N :: words_of bytes
  | _ => []
  end.

Fixpoint blocks_of (fuel : nat) (ws : list N) : list (list N) :=
  match fuel, ws with
  | S fuel, _ :: _ => take 16 ws :: blocks_of fuel (drop 16 ws)
  | _, _ => []
  end.

(** The message schedule; [ws] holds the words so far, latest first. *)
Fixpoint extend (n : nat) (ws : list N) : list N :=
  match n with
  | 0 => ws
  | S n =>
      let w i := nth (i - 1) ws 0%N in
      let s0 := N.lxor (N.lxor (rotr 7 (w 15)) (rotr 18 (w 15))) (N.shiftr (w 15) 3) in
      let s1 := N.lxor (N.lxor (rotr 17 (w 2)) (rotr 19 (w 2))) (N.shiftr (w 2) 10) in
      extend n (add32 (add32 (w 16) s0) (add32 (w 7) s1) :: ws)
  end.

Definition sha_round (st : list N) (kw : N * N) : list N :=
  match st with
  | [a; b; c; d; e; f; g; h] =>
      let S1 := N.lxor (N.lxor (rotr 6 e) (rotr 11 e)) (rotr 25 e) in
      let ch := N.lxor (N.land e f) (N.land (N.lxor e word_mask) g) in
      let temp1 := add32 (add32 (add32 h S1) (add32 ch kw.1)) kw.2 in
      let S0 := N.lxor (N.lxor (rotr 2 a) (rotr 13 a)) (rotr 22 a) in
      let maj := N.lxor (N.lxor (N.land a b) (N.land a c)) (N.land b c) in
      [add32 temp1 (add32 S0 maj); a; b; c; add32 d temp1; e; f; g]
  | st => st
  end.

Definition compress (st : list N) (block : list N) : list N :=
  let ws := rev (extend 48 (rev block)) in
  zip_with add32 st (foldl sha_round st (zip round_constants ws)).

Definition sha256 (msg : list N) : list N :=
  let ws := words_of (pad msg) in
  flat_map (be_bytes 4) (foldl compress initial_state (blocks_of (length ws) ws)).

Definition string_bytes (s : string) : list N := map N_of_ascii (String.list_ascii_of_string s).
Definition sha256_string (s : string) : list N := sha256 (string_bytes s).

Fixpoint hex_of (bytes : list N) : string :=
  let digit n := ascii_of_N (if (n <? 10)%N then 48 + n else 87 + n)%N in
  match bytes with
  | [] => ""
  | b :: bytes => String (digit (b / 16)%N) (String (digit (b mod 16)%N) (hex_of bytes))
  end.

(** The test vectors of the standard: one block, the empty message, two blocks. *)
Example sha256_abc : hex_of (sha256_string "abc") =
  "ba7816bf8f01cfea414140de5dae2223b00361a396177a9cb410ff61f20015ad".
Proof. vm_compute. reflexivity. Qed.
Example sha256_empty : hex_of (sha256_string "") =
  "e3b0c44298fc1c149afbf4c8996fb92427ae41e4649b934ca495991b7852b855".
Proof. vm_compute. reflexivity. Qed.
Example sha256_two_blocks :
  hex_of (sha256_string "abcdbcdecdefdefgefghfghighijhijkijkljklmklmnlmnomnopnopq") =
  "248d6a61d20638b8e5c026930c3e6039a33ce45964ff2167f6ecedd419db06c1".
Proof. vm_compute. reflexivity. Qed.
