(* ===== verification/Migrations.v ===== *)
(** * Schema migrations (src/internal/repository/postgres/migrations.go)

[Migrate] over the statements of its session, the migration ledger it keeps,
and the proof that every outcome leaves the ledger and the schema in step. *)

From S2P Require Import Prelude GoValues Prog Ports Sha256.

(** ** The session *)

(** An entry of the embedded directory. *)
Record DirEntry := mkDirEntry { entry_name : string; IsDir : bool }.

Inductive migrationE : Type → Type :=
| db_Conn (ctx : Ctx) : migrationE (option error)
| conn_Close : migrationE unit
| pg_advisory_lock (ctx : Ctx) (key : Z) : migrationE (option error)
| pg_advisory_unlock (key : Z) : migrationE (option error)
| CreateLedger (ctx : Ctx) : migrationE (option error)
| ReadDir : migrationE (list DirEntry + error)
| ReadFile (name : string) : migrationE (string + error)
| SelectChecksum (ctx : Ctx) (version : string) : migrationE (string + error)
| BeginTx (ctx : Ctx) : migrationE (option error)
| tx_Exec (ctx : Ctx) (sql : string) : migrationE (option error)
| tx_Insert (ctx : Ctx) (version checksum : string) : migrationE (option error)
| tx_Rollback : migrationE unit
| tx_Commit : migrationE (option error).

(** ** Migrate *)

Definition checksum_of (migration : string) : string := hex_of (sha256_string migration).

Definition named (verb name : string) (err : error) : option error :=
  Some (Errorf [Lit verb; Lit name; Lit ": "; Wrap err]).

(** The transaction of one migration. *)
Definition applyMigration (ctx : Ctx) (name migration : string) : prog migrationE (option error) :=
  err ← trigger (BeginTx ctx);
  match err with
  | Some err => mret (named "begin migration " name err)
  | None =>
      err ← trigger (tx_Exec ctx migration);
      match err with
      | Some err => _ ← trigger tx_Rollback; mret (named "apply migration " name err)
      | None =>
          err ← trigger (tx_Insert ctx name (checksum_of migration));
          match err with
          | Some err => _ ← trigger tx_Rollback; mret (named "record migration " name err)
          | None =>
              err ← trigger tx_Commit;
              match err with
              | Some err => mret (named "commit migration " name err)
              | None => mret None
              end
          end
      end
  end.

Fixpoint migrateEntries (ctx : Ctx) (entries : list DirEntry) : prog migrationE (option error) :=
  match entries with
  | [] => mret None
  | entry :: entries =>
      if IsDir entry then migrateEntries ctx entries
      else
        let name := entry_name entry in
        file ← trigger (ReadFile name);
        match file with
        | inr err => mret (named "read migration " name err)
        | inl migration =>
            let checksum := checksum_of migration in
            row ← trigger (SelectChecksum ctx name);
            match row with
            | inl appliedChecksum =>
                if ⟦appliedChecksum ≠ checksum⟧ then
                  mret (Some (Errorf [Wrap (Sentinel ErrMigrationChecksumChanged); Lit ": migration ";
                                      Lit name; Lit ": applied "; Lit appliedChecksum;
                                      Lit ", embedded "; Lit checksum]))
                else migrateEntries ctx entries
            | inr err =>
                if negb (errors_Is err sql_ErrNoRows) then
                  mret (named "read migration ledger for " name err)
                else
                  err ← applyMigration ctx name migration;
                  match err with
                  | Some err => mret (Some err)
                  | None => migrateEntries ctx entries
                  end
            end
        end
  end.

Definition name_le (a b : DirEntry) : Prop := String.le (entry_name a) (entry_name b).
#[global] Instance name_le_dec : RelDecision name_le.
Proof. intros a b. unfold name_le. apply _. Defined.

Definition migrationLockKey : Z := 7191114272026%Z.

(** The part under the lock. *)
Definition migrateLocked (ctx : Ctx) : prog migrationE (option error) :=
  err ← trigger (CreateLedger ctx);
  match err with
  | Some err => mret (Some (wrapf "create migration ledger: " err))
  | None =>
      dir ← trigger ReadDir;
      match dir with
      | inr err => mret (Some (wrapf "read migrations: " err))
      | inl entries => migrateEntries ctx (merge_sort name_le entries)
      end
  end.

(** The two deferred calls run last in, first out. *)
Definition Migrate (ctx : Ctx) : prog migrationE (option error) :=
  err ← trigger (db_Conn ctx);
  match err with
  | Some err => mret (Some (wrapf "acquire migration connection: " err))
  | None =>
      err ← trigger (pg_advisory_lock ctx migrationLockKey);
      match err with
      | Some err => _ ← trigger conn_Close; mret (Some (wrapf "acquire migration lock: " err))
      | None =>
          err ← migrateLocked ctx;
          _ ← trigger (pg_advisory_unlock migrationLockKey);
          _ ← trigger conn_Close;
          mret err
      end
  end.

(** ** The database *)

(** The database behind the session: the ledger in order of application, the
migration texts executed, the open transaction with what it would commit, and the
session: whether it holds the lock, whether the answer of a lock or unlock
statement was an error, so that it may hold it unknowingly, and whether there is a
connection.  Other processes that migrate are kept out by the lock. *)
Record mdb := mkMdb {
  ledger : list (string * string);
  executed : list string;
  tx : option (list (string * string) * list string);
  locked : bool;
  lock_in_doubt : bool;
  connected : bool }.

Definition set_tx t (d : mdb) : mdb := mkMdb (ledger d) (executed d) t (locked d) (lock_in_doubt d) (connected d).
Definition set_connected c (d : mdb) : mdb :=
  mkMdb (ledger d) (executed d) (tx d) (locked d) (lock_in_doubt d) c.
Definition set_locked l (d : mdb) : mdb :=
  mkMdb (ledger d) (executed d) (tx d) l (lock_in_doubt d) (connected d).
(** The lock after a lock or unlock statement that failed. *)
Definition in_doubt l (d : mdb) : mdb := mkMdb (ledger d) (executed d) (tx d) l true (connected d).
(** No lock is held unknowingly. *)
Definition lock_released (d : mdb) : Prop := locked d = true → lock_in_doubt d = true.

Section migrations.
(** The embedded files, by name, and the directory that lists them. *)
Context (entries : list DirEntry) (content : string → string).

(** Statements are sent only by the session that holds the lock of the migrations; a transaction
is committed only with one new migration and its record. *)
Definition may_send {R} (d : mdb) (e : migrationE R) : Prop :=
  match e with
  | db_Conn _ => connected d = false
  | pg_advisory_lock _ key => key = migrationLockKey ∧ connected d = true ∧ locked d = false
  | conn_Close => connected d = true ∧ tx d = None ∧ lock_released d
  | ReadDir | ReadFile _ => True
  | pg_advisory_unlock key => key = migrationLockKey ∧ locked d = true ∧ tx d = None
  | CreateLedger _ | SelectChecksum _ _ | BeginTx _ => locked d = true ∧ tx d = None
  | tx_Exec _ _ | tx_Insert _ _ _ | tx_Rollback => locked d = true ∧ is_Some (tx d)
  | tx_Commit => locked d = true ∧ ∃ name, ¬ name ∈ (ledger d).*1 ∧
      tx d = Some (ledger d ++ [(name, checksum_of (content name))], executed d ++ [content name])
  end.

Definition answer {R} (d : mdb) (e : migrationE R) : R → mdb → Prop :=
  match e in migrationE R return R → mdb → Prop with
  | db_Conn _ => λ err d', d' = match err with None => set_connected true d | Some _ => d end
  | conn_Close => λ _ d', d' = set_connected false d
  | pg_advisory_lock _ _ => λ err d',
      match err with
      | None => d' = set_locked true d
      | Some _ => ∃ l, d' = in_doubt l d
      end
  | pg_advisory_unlock _ => λ err d',
      match err with
      | None => d' = set_locked false d
      | Some _ => ∃ l, d' = in_doubt l d
      end
  | CreateLedger _ => λ _ d', d' = d
  | ReadDir => λ ans d', d' = d ∧ match ans with inl es => es = entries | inr _ => True end
  | ReadFile name => λ ans d', d' = d ∧ match ans with inl s => s = content name | inr _ => True end
  | SelectChecksum _ version => λ ans d', d' = d ∧
      match ans with
      | inl c => (version, c) ∈ ledger d
      | inr err => errors_Is err sql_ErrNoRows = true → ¬ version ∈ (ledger d).*1
      end
  | BeginTx _ => λ err d',
      d' = match err with None => set_tx (Some (ledger d, executed d)) d | Some _ => d end
  | tx_Exec _ sql => λ err d', ∀ l e, tx d = Some (l, e) →
      d' = match err with None => set_tx (Some (l, e ++ [sql])) d | Some _ => d end
  | tx_Insert _ version checksum => λ err d', ∀ l e, tx d = Some (l, e) →
      d' = match err with None => set_tx (Some (l ++ [(version, checksum)], e)) d | Some _ => d end
  | tx_Rollback => λ _ d', d' = set_tx None d
  | tx_Commit => λ err d', ∀ l e, tx d = Some (l, e) →
      d' = mkMdb l e None (locked d) (lock_in_doubt d) (connected d) ∨ (is_Some err ∧ d' = set_tx None d)
  end.

Definition session : protocol migrationE := Protocol migrationE mdb (@may_send) (@answer).

(** ** What is to be applied *)

Definition file_names (es : list DirEntry) : list string :=
  entry_name <$> filter (λ e, IsDir e = false) es.
Definition pending (d : mdb) (names : list string) : list string :=
  filter (λ n, ¬ n ∈ (ledger d).*1) names.
Definition record_of (name : string) : string * string := (name, checksum_of (content name)).

(** [d'] is [d] after the migrations [names], each executed and recorded. *)
Definition applied (d : mdb) (names : list string) (d' : mdb) : Prop :=
  ledger d' = ledger d ++ map record_of names ∧ executed d' = executed d ++ map content names ∧
  tx d' = None.

(** ** Lemmas *)

Context (entries_distinct : NoDup (file_names entries)).

Definition same_session (d d' : mdb) : Prop :=
  locked d' = locked d ∧ connected d' = connected d ∧ lock_in_doubt d' = lock_in_doubt d.

Lemma applied_nil d : tx d = None → applied d [] d.
Proof. intros. unfold applied. simpl. by rewrite !app_nil_r. Qed.

Lemma applied_app d1 d2 d3 l l' : applied d1 l d2 → applied d2 l' d3 → applied d1 (l ++ l') d3.
Proof.
  intros (H1 & H2 & _) (H3 & H4 & H5). unfold applied. by rewrite H3, H4, H1, H2, !map_app, !app_assoc.
Qed.

Lemma applyMigration_ok ctx name d :
  locked d = true → tx d = None → ¬ name ∈ (ledger d).*1 →
  wp session (applyMigration ctx name (content name))
    (λ err d', same_session d d' ∧
       (applied d [name] d' ∨ is_Some err ∧ applied d [] d')) d.
Proof.
  intros Hl Ht Hn. unfold applyMigration.
  pose proof (applied_nil d Ht) as Hnil.
  apply wp_trigger; [by split|]. intros [err|] d1 ->; [apply wp_ret; split; [done|by eauto]|].
  apply wp_trigger; [by eauto|]. intros err d2 H2. specialize (H2 _ _ eq_refl).
  destruct err as [err|]; subst d2.
  { apply wp_trigger; [by eauto|]. intros [] d3 ->. apply wp_ret. split; [done|].
    right. split; [by eauto|]. by destruct d; simpl in *; subst. }
  apply wp_trigger; [by eauto|]. intros err d3 H3. specialize (H3 _ _ eq_refl).
  destruct err as [err|]; subst d3.
  { apply wp_trigger; [by eauto|]. intros [] d3 ->. apply wp_ret. split; [done|].
    right. split; [by eauto|]. by destruct d; simpl in *; subst. }
  apply wp_trigger; [split; [done|by exists name]|]. intros err d4 H4.
  specialize (H4 _ _ eq_refl). destruct H4 as [->|[[err' ->] ->]].
  - destruct err; apply wp_ret; (split; [done|left; done]).
  - apply wp_ret. split; [done|]. right. split; [by eauto|]. by destruct d; simpl in *; subst.
Qed.

Lemma applied_names d names d' n :
  applied d names d' → n ∈ (ledger d').*1 ↔ n ∈ (ledger d).*1 ∨ n ∈ names.
Proof.
  intros (-> & _). rewrite fmap_app, elem_of_app.
  assert ((map record_of names).*1 = names) as ->; [|done].
  induction names as [|x names IH]; [done|]. exact (f_equal (cons x) IH).
Qed.

Lemma pending_after d d1 name names :
  applied d [name] d1 → ¬ name ∈ names → pending d1 names = pending d names.
Proof.
  intros Ha. unfold pending. induction names as [|n names IH]; [done|].
  rewrite not_elem_of_cons, !filter_cons. intros [Hne Hn]. rewrite IH by done.
  assert (n ∈ (ledger d1).*1 ↔ n ∈ (ledger d).*1) as Hiff
    by (rewrite (applied_names _ _ _ _ Ha); set_solver).
  repeat case_decide; by tauto.
Qed.

Lemma same_session_trans d d1 d2 : same_session d d1 → same_session d1 d2 → same_session d d2.
Proof. unfold same_session. intuition congruence. Qed.

(** What a run over some files leaves. *)
Definition migrated (d : mdb) (names : list string) (err : option error) (d' : mdb) : Prop :=
  same_session d d' ∧ ∃ done_, applied d done_ d' ∧ done_ `prefix_of` pending d names ∧
    (err = None → done_ = pending d names ∧ ∀ n, n ∈ names → record_of n ∈ ledger d').

Lemma migrated_stop d names err : tx d = None → migrated d names (Some err) d.
Proof.
  intros. split; [done|]. exists []. split_and!; [by apply applied_nil|apply prefix_nil|done].
Qed.

Lemma file_names_cons e es :
  file_names (e :: es) = if IsDir e then file_names es else entry_name e :: file_names es.
Proof. unfold file_names. rewrite filter_cons. by destruct (IsDir e). Qed.

Lemma migrateEntries_ok ctx es d :
  NoDup (file_names es) → locked d = true → tx d = None →
  wp session (migrateEntries ctx es) (λ err d', migrated d (file_names es) err d') d.
Proof.
  revert d. induction es as [|e es IH]; intros d Hnd Hl Ht; cbn [migrateEntries].
  { apply wp_ret. split; [done|]. exists []. split_and!; [by apply applied_nil|done|].
    intros _. split; [done|]. by intros n ?%elem_of_nil. }
  rewrite file_names_cons in *. destruct (IsDir e); [by apply IH|]. set (name := entry_name e) in *. apply NoDup_cons in Hnd as [Hn Hnd].
  cbv zeta. apply wp_trigger; [done|]. intros [migration|err] d0 [-> Hfile];
    [|apply wp_ret; by apply migrated_stop]. subst migration.
  apply wp_trigger; [by split|]. intros [c|err] d0 [-> Hrow].
  - case_bool_decide as Hc; [apply wp_ret; by apply migrated_stop|].
    assert (c = checksum_of (content name)) as -> by (by destruct (decide (c = checksum_of (content name)))).
    eapply wp_mono; [by apply IH|]. intros err d' [Hs (l & Ha & Hp & Hok)]. split; [done|].
    assert (pending d (name :: file_names es) = pending d (file_names es)) as Hpend.
    { unfold pending. rewrite filter_cons, decide_False; [done|]. intros Hno. apply Hno.
      apply list_elem_of_fmap. by exists (name, checksum_of (content name)). }
    exists l. rewrite Hpend. split_and!; [done|done|]. intros Herr. destruct (Hok Herr) as [-> Hall].
    split; [done|]. intros n [->|Hin]%elem_of_cons; [|by apply Hall].
    destruct Ha as (-> & _). apply elem_of_app. by left.
  - destruct (errors_Is err sql_ErrNoRows) eqn:Hno; cbn [negb]; [|apply wp_ret; by apply migrated_stop].
    specialize (Hrow eq_refl).
    assert (pending d (name :: file_names es) = name :: pending d (file_names es)) as Hpend
      by (unfold pending; by rewrite filter_cons, decide_True).
    eapply wp_bind_mono; [by apply applyMigration_ok|]. intros [aerr|] d1 [Hs Ha].
    + apply wp_ret. split; [done|]. rewrite Hpend. destruct Ha as [Ha|[_ Ha]].
      * exists [name]. split_and!; [done|by apply prefix_cons, prefix_nil|done].
      * exists []. split_and!; [done|apply prefix_nil|done].
    + destruct Ha as [Ha|[[? ?] _]]; [|done]. pose proof (pending_after _ _ _ _ Ha Hn) as Hpa.
      pose proof Ha as (_ & _ & Ht1). pose proof Hs as [Hs1 _].
      eapply wp_mono; [apply IH; [done|by rewrite Hs1|done]|].
      intros err' d' [Hs' (l & Ha' & Hp & Hok)]. split; [by eapply same_session_trans|].
      exists (name :: l). rewrite Hpend. rewrite Hpa in *.
      pose proof (applied_app _ _ _ _ _ Ha Ha') as Ha2. split_and!; [done|by apply prefix_cons|].
      intros Herr. destruct (Hok Herr) as [-> Hall]. split; [done|].
      intros n [->|Hin]%elem_of_cons; [|by apply Hall].
      destruct Ha2 as (-> & _). apply elem_of_app. right. simpl. apply elem_of_cons. by left.
Qed.

Lemma NoDup_fst_inj {A B} (l : list (A * B)) a b b' :
  (a, b) ∈ l → (a, b') ∈ l → NoDup l.*1 → b = b'.
Proof.
  induction l as [|[x y] l IH]; [by intros ?%elem_of_nil|]. rewrite !elem_of_cons.
  intros H H' Hl. rewrite fmap_cons in Hl. apply NoDup_cons in Hl as [Hn Hnd]. simpl in Hn.
  assert (∀ b, (x, b) ∈ l → x ∈ l.*1) as Hfst by (intros b0 Hb; apply list_elem_of_fmap; by exists (x, b0)).
  destruct H as [[= -> ->]|H], H' as [[= ->]|H']; [done|exfalso; eauto..|by apply IH].
Qed.

Lemma sorted_names_distinct : NoDup (file_names (merge_sort name_le entries)).
Proof using entries_distinct.
  unfold file_names. by rewrite merge_sort_Permutation.
Qed.

(** C19: Migrations are all or nothing, in order and repeatable: on every outcome
the session closed after giving the lock back (or after a lock statement whose
answer was an error), no transaction is left open, and the
migrations applied now, each executed once and recorded with its checksum in one
commit, are the first of those not yet in the ledger, in order of their names;
on success they are all of them, so a second run applies nothing; and if an
applied migration has since changed, there is no success. *)
Theorem Migrate_applies_pending (ctx : Ctx) (d : mdb)
    (idle : connected d = false ∧ locked d = false ∧ tx d = None) (keys : NoDup (ledger d).*1) :
  let names := file_names (merge_sort name_le entries) in
  wp session (Migrate ctx)
    (λ err d', connected d' = false ∧ lock_released d' ∧
       ∃ done_, applied d done_ d' ∧ done_ `prefix_of` pending d names ∧
         (err = None →
            done_ = pending d names ∧ (∀ n, n ∈ names → record_of n ∈ ledger d') ∧
            ∀ n c, n ∈ names → (n, c) ∈ ledger d → c = checksum_of (content n))) d.
Proof using entries_distinct.
  destruct idle as (Hc & Hl & Ht). intros names. unfold Migrate.
  pose proof (applied_nil d Ht) as Hnil. pose proof sorted_names_distinct as Hnd.
  apply wp_trigger; [done|]. intros [err|] d1 ->.
  { apply wp_ret. split; [done|]. split; [by unfold lock_released; rewrite Hl|].
    exists []. by split_and!; [|apply prefix_nil|]. }
  apply wp_trigger; [done|]. intros [err|] d1 Hlock.
  { destruct Hlock as [l ->]. apply wp_trigger; [by split_and!|]. intros [] d1 ->. apply wp_ret.
    split_and!; try done. exists []. by split_and!; [|apply prefix_nil|]. }
  simpl in Hlock. subst d1. set (d1 := set_locked _ _).
  apply (wp_bind_mono session _ _ (λ err d', migrated d1 names err d')).
  - unfold migrateLocked. apply wp_trigger; [done|]. intros [err|] d2 ->.
    { apply wp_ret. by apply migrated_stop. }
    apply wp_trigger; [done|]. intros [es|err] d2 [-> Hes]; [|apply wp_ret; by apply migrated_stop].
    subst es. by apply migrateEntries_ok.
  - intros err d2 [(Hl2 & Hc2 & _) (l & Ha & Hp & Hok)]. simpl in Hl2, Hc2.
    pose proof Ha as (Hled & _ & Ht2).
    apply wp_trigger; [done|]. intros uerr d3 Hunlock.
    assert (∃ b q, d3 = mkMdb (ledger d2) (executed d2) (tx d2) b q (connected d2) ∧ lock_released d3)
      as (b & q & -> & Hrel).
    { destruct uerr; [destruct Hunlock as [b ->]; by exists b, true|].
      simpl in Hunlock. subst d3. by exists false, (lock_in_doubt d2). }
    apply wp_trigger; [by split_and!|].
    intros [] d4 ->. apply wp_ret. split_and!; try done. exists l. split_and!; [done|done|].
    intros Herr. destruct (Hok Herr) as [Hl3 Hall]. split_and!; [done|done|].
    intros n c Hin Hold. specialize (Hall n Hin). simpl in Hled. rewrite Hled in Hall.
    apply elem_of_app in Hall as [Hr|Hr].
    + by apply (NoDup_fst_inj (ledger d) n c).
    + exfalso. rewrite Hl3 in Hr. apply list_elem_of_fmap in Hr as (n' & [= ->] & Hn').
      unfold pending in Hn'. apply list_elem_of_filter in Hn' as [Hn' _]. apply Hn'.
      apply list_elem_of_fmap. by exists (n', c).
Qed.
End migrations.

(** ** The embedded migrations *)

Definition migration_001 : string :=
"CREATE TABLE IF NOT EXISTS orders (
    id TEXT PRIMARY KEY CHECK (id <> ''),
    customer_id TEXT NOT NULL CHECK (customer_id <> ''),
    items JSONB NOT NULL CHECK (jsonb_typeof(items) = 'array'),
    status TEXT NOT NULL CHECK (
        status IN ('pending', 'paid', 'failed', 'payment_unknown', 'completed')
    ),
    created_at TIMESTAMPTZ NOT NULL,
    payment_reference TEXT NULL
);

CREATE INDEX IF NOT EXISTS orders_pending_status_idx
    ON orders (status)
    WHERE status IN ('pending', 'payment_unknown');
".

Definition migration_002 : string :=
"ALTER TABLE orders DROP CONSTRAINT orders_status_check;

ALTER TABLE orders ADD CONSTRAINT orders_status_check CHECK (
    status IN ('pending', 'paid', 'failed', 'payment_unknown', 'fulfillment_pending', 'completed')
);

DROP INDEX orders_pending_status_idx;

CREATE INDEX orders_pending_status_idx
    ON orders (status)
    WHERE status IN ('pending', 'payment_unknown', 'paid', 'fulfillment_pending');
".

Definition migrationFiles : list DirEntry :=
  [mkDirEntry "002_fulfillment_pending.sql" false; mkDirEntry "001_orders.sql" false].
Definition migration_content (name : string) : string :=
  if ⟦name = "001_orders.sql"⟧ then migration_001
  else if ⟦name = "002_fulfillment_pending.sql"⟧ then migration_002 else "".

(** A database on which every statement succeeds. *)
Definition healthy_db : handler migrationE mdb := λ R e d,
  match e in migrationE R return R * mdb with
  | db_Conn _ => (None, set_connected true d)
  | conn_Close => (tt, set_connected false d)
  | pg_advisory_lock _ _ => (None, set_locked true d)
  | pg_advisory_unlock _ => (None, set_locked false d)
  | CreateLedger _ => (None, d)
  | ReadDir => (inl migrationFiles, d)
  | ReadFile name => (inl (migration_content name), d)
  | SelectChecksum _ version =>
      (match list_find (λ r, r.1 = version) (ledger d) with
       | Some (_, (_, c)) => inl c
       | None => inr (Sentinel sql_ErrNoRows)
       end, d)
  | BeginTx _ => (None, set_tx (Some (ledger d, executed d)) d)
  | tx_Exec _ sql => (None, match tx d with Some (l, e) => set_tx (Some (l, e ++ [sql])) d | None => d end)
  | tx_Insert _ v c =>
      (None, match tx d with Some (l, e) => set_tx (Some (l ++ [(v, c)], e)) d | None => d end)
  | tx_Rollback => (tt, set_tx None d)
  | tx_Commit => (None, match tx d with
                        | Some (l, e) => mkMdb l e None (locked d) (lock_in_doubt d) (connected d)
                        | None => d
                        end)
  end.

Definition empty_db : mdb := mkMdb [] [] None false false false.
Definition migrate_twice : list (outcome (option error) * list string) :=
  let '(r1, d1) := run healthy_db (Migrate (mkCtx 0)) empty_db in
  let '(r2, d2) := run healthy_db (Migrate (mkCtx 0)) d1 in
  [(r1, (ledger d1).*1); (r2, map fst (ledger d2))].

(** The first start applies both in order, the second nothing; a changed file is
refused. *)
Example migrations_run :
  migrate_twice = [(Returned None, ["001_orders.sql"; "002_fulfillment_pending.sql"]);
                   (Returned None, ["001_orders.sql"; "002_fulfillment_pending.sql"])] ∧
  match (run healthy_db (Migrate (mkCtx 0)) (mkMdb [("001_orders.sql", "0")] [""] None false false false)).1 with
  | Returned (Some err) => errors_Is err ErrMigrationChecksumChanged = true
  | _ => False
  end.
Proof. vm_compute. split; reflexivity. Qed.

Lemma migration_names_distinct : NoDup (file_names migrationFiles).
Proof. apply (bool_decide_unpack _). vm_compute. exact I. Qed.

Lemma Migrate_applies_pending_witness :
  file_names (merge_sort name_le migrationFiles) = ["001_orders.sql"; "002_fulfillment_pending.sql"] ∧
  wp (session migrationFiles migration_content) (Migrate (mkCtx 0))
    (λ err d', connected d' = false ∧ lock_released d' ∧
       ∃ done_, applied migration_content empty_db done_ d' ∧
         done_ `prefix_of` pending empty_db (file_names (merge_sort name_le migrationFiles)) ∧
         (err = None →
            done_ = pending empty_db (file_names (merge_sort name_le migrationFiles)) ∧
            (∀ n, n ∈ file_names (merge_sort name_le migrationFiles) →
               record_of migration_content n ∈ ledger d') ∧
            ∀ n c, n ∈ file_names (merge_sort name_le migrationFiles) → (n, c) ∈ ledger empty_db →
              c = checksum_of (migration_content n))) empty_db.
Proof.
  split; [vm_compute; reflexivity|].
  refine (Migrate_applies_pending migrationFiles migration_content migration_names_distinct (mkCtx 0)
    empty_db _ _); [split; [|split]; reflexivity|constructor].
Defined.
