(* ===== verification/Repository.v ===== *)
(** * The Postgres repository (src/internal/repository/postgres/order_repo.go)

The adapter's methods as programs over the SQL statements they send, the
orders table those statements act on (its CHECK constraints from the
migrations included), and the proof that the adapter implements Store.v. *)

From S2P Require Import Prelude GoValues Prog Domain Ports Store Text Json JsonText JsonStream.

(** ** Items as JSON *)

Definition zero_item : OrderItem := mkOrderItem "" 0 0.

(** [domain.OrderItem] has no JSON tags: its members are the Go field names. *)
Definition item_fields : struct_type OrderItem :=
  [field "ProductID" decode_string ProductID (λ v it, mkOrderItem v (Quantity it) (UnitPrice it));
   field "Quantity" decode_int64 Quantity (λ v it, mkOrderItem (ProductID it) v (UnitPrice it));
   field "UnitPrice" decode_int64 UnitPrice (λ v it, mkOrderItem (ProductID it) (Quantity it) v)].

Definition marshal_item (it : OrderItem) : json :=
  JObj [("ProductID", JStr (ProductID it)); ("Quantity", JNum (Quantity it));
        ("UnitPrice", JNum (UnitPrice it))].
(** [json.Marshal(order.Items)]: a nil slice is null.  [Save] gets only orders of
[NewOrder], which refuses an order without items. *)
Definition marshal_items (items : list OrderItem) : json :=
  match items with [] => JNull | _ => JArr (map marshal_item items) end.

(** [json.Unmarshal(itemsJSON, &items)] into a nil slice. *)
Definition unmarshal_items (j : json) : option (list OrderItem) :=
  elems <$> decode_slice (decode_struct false item_fields) zero_item j nil_slice.

(** ** SQL statements *)

(** The columns of a row of [orders]. *)
Record orow := mkRow {
  c_customer_id : string;
  c_items : json;
  c_status : string;
  c_created_at : Time;
  c_payment_reference : option string }.

(** The result of an UPDATE: [RowsAffected()]. *)
Definition sql_result : Type := Z * option error.

(** The rows of a cursor: each [Scan], and [rows.Err()] after the last one. *)
Record rows := mkRows {
  scans : list (string + error);
  rows_Err : option error }.

(** The statements of the adapter with their arguments. *)
Inductive sqlE : Type → Type :=
| InsertOrder (ctx : Ctx) (id customer_id : string) (items : string) (status : string)
    (created_at : Time) (payment_reference : option string) : sqlE (option error)
| UpdateIfStatus (ctx : Ctx) (id expected status : string) (payment_reference : option string)
    : sqlE (sql_result * option error)
| SelectRecoverable (ctx : Ctx) (afterID : string) (olderThan : Time) (limit : Z)
    : sqlE (rows * option error)
(** [rows.Close()], whose error is ignored *)
| CloseRows : sqlE unit
| UpdateOrderStatus (ctx : Ctx) (id status : string) : sqlE (sql_result * option error)
| SelectOrder (ctx : Ctx) (id : string) : sqlE ((string * orow) + error)
| SelectCount (ctx : Ctx) : sqlE (Z + error).

(** ** The adapter *)

Definition nullableString (value : string) : option string :=
  if ⟦value = ""⟧ then None else Some value.

(** [sql.NullString.String]. *)
Definition NullString_String (v : option string) : string := default "" v.

(** [fmt.Errorf("<verb> order %s: %w", id, err)]. *)
Definition order_error (verb id : string) (err : error) : error :=
  Errorf [Lit verb; Lit " order "; Lit id; Lit ": "; Wrap err].

(** [json.Marshal] of order items cannot fail; the statement carries its bytes. *)
Definition repo_Save (ctx : Ctx) (order : Order) : prog sqlE (option error) :=
  let items := Marshal (marshal_items (Items order)) in
  err ← trigger (InsertOrder ctx (ID order) (CustomerID order) items (Status order)
                   (CreatedAt order) (nullableString (PaymentReference order)));
  match err with
  | Some err => mret (Some (order_error "save" (ID order) err))
  | None => mret None
  end.

Definition repo_SaveIfStatus (ctx : Ctx) (order : Order) (expected : OrderStatus)
    : prog sqlE (bool * option error) :=
  '(result, err) ← trigger (UpdateIfStatus ctx (ID order) expected (Status order)
                              (nullableString (PaymentReference order)));
  match err with
  | Some err => mret (false, Some (order_error "conditionally save" (ID order) err))
  | None =>
      let '(rows, err) := result : sql_result in
      match err with
      | Some err => mret (false, Some (order_error "conditionally save" (ID order) err))
      | None => mret (⟦rows = 1%Z⟧, None)
      end
  end.

Fixpoint scan_ids (scans : list (string + error)) (ids : list string)
    : list string * option error :=
  match scans with
  | [] => (ids, None)
  | inr err :: _ => ([], Some (wrapf "scan recoverable order: " err))
  | inl id :: scans => scan_ids scans (ids ++ [id])
  end.

Definition repo_ListRecoverableIDs (ctx : Ctx) (afterID : string) (olderThan : Time) (limit : Z)
    : prog sqlE (list string * option error) :=
  '(rows, err) ← trigger (SelectRecoverable ctx afterID olderThan limit);
  match err with
  | Some err => mret ([], Some (wrapf "list recoverable orders: " err))
  | None =>
      let ret := match scan_ids (scans rows) [] with
        | (_, Some err) => ([], Some err)
        | (ids, None) =>
            match rows_Err rows with
            | Some err => ([], Some (wrapf "iterate recoverable orders: " err))
            | None => (ids, None)
            end
        end in
      _ ← trigger CloseRows;
      mret ret
  end.

Definition repo_UpdateStatus (ctx : Ctx) (id : string) (status : OrderStatus)
    : prog sqlE (option error) :=
  let fail err := Errorf [Lit "update order "; Lit id; Lit " status: "; Wrap err] in
  '(res, err) ← trigger (UpdateOrderStatus ctx id status);
  match err with
  | Some err => mret (Some (fail err))
  | None =>
      let '(rows, err) := res : sql_result in
      match err with
      | Some err => mret (Some (fail err))
      | None =>
          if ⟦rows = 0%Z⟧ then
            mret (Some (Errorf [Lit "order "; Lit id; Lit ": "; Wrap (Sentinel ErrNotFound)]))
          else mret None
      end
  end.

Definition repo_FindByID (ctx : Ctx) (id : string) : prog sqlE (option Order * option error) :=
  row ← trigger (SelectOrder ctx id);
  match row with
  | inr err =>
      if errors_Is err sql_ErrNoRows then
        mret (None, Some (Errorf [Lit "order "; Lit id; Lit ": "; Wrap (Sentinel ErrNotFound)]))
      else mret (None, Some (order_error "find" id err))
  | inl (orderID, row) =>
      match unmarshal_items (c_items row) with
      | None =>
          mret (None, Some (Errorf [Lit "unmarshal items for order "; Lit id; Lit ": ";
                                    Wrap (Foreign "json" None)]))
      | Some items =>
          mret (Some (mkOrder orderID (c_customer_id row) items (c_status row) (c_created_at row)
                        (NullString_String (c_payment_reference row)) []), None)
      end
  end.

Definition repo_CountPending (ctx : Ctx) : prog sqlE (Z * option error) :=
  count ← trigger (SelectCount ctx);
  match count with
  | inr err => mret (0%Z, Some (wrapf "count pending orders: " err))
  | inl count => mret (count, None)
  end.

(** ** The orders table *)

Abbreviation table := (gmap string orow).

(** Postgres keeps no zero byte: not in a text, which is valid UTF-8 besides, and not
as an escape in a jsonb string. *)
Fixpoint no_zero (s : string) : bool :=
  match s with EmptyString => true | String c s => ⟦c ≠ "000"%char⟧ && no_zero s end.

Definition text_storable (s : string) : bool := ⟦valid_text s⟧ && no_zero s.

Fixpoint json_storable (j : json) : bool :=
  match j with
  | JStr s => no_zero s
  | JArr elems => forallb json_storable elems
  | JObj members => forallb (λ kv, no_zero kv.1 && json_storable kv.2) members
  | _ => true
  end.

(** The CHECK constraint on [status], per migration. *)
Definition statuses_001 : list string :=
  ["pending"; "paid"; "failed"; "payment_unknown"; "completed"].
Definition statuses_002 : list string :=
  ["pending"; "paid"; "failed"; "payment_unknown"; "fulfillment_pending"; "completed"].

(** [jsonb_typeof(items) = 'array']. *)
Definition is_json_array (j : json) : bool := match j with JArr _ => true | _ => false end.

(** The CHECK constraints of the table under a list of allowed statuses. *)
Definition row_checks (allowed : list string) (id : string) (row : orow) : bool :=
  ⟦id ≠ ""⟧ && ⟦c_customer_id row ≠ ""⟧ && is_json_array (c_items row) && ⟦c_status row ∈ allowed⟧.

Definition set_c_status (status : string) (ref : option string) (row : orow) : orow :=
  mkRow (c_customer_id row) (c_items row) status (c_created_at row) ref.

(** The statuses of the scan, the gauge and the partial index. *)
Definition sql_recoverable : list string :=
  ["pending"; "payment_unknown"; "paid"; "fulfillment_pending"].

Section table.
(** Postgres: the precision of timestamps, the order in which a jsonb object
gives back its members, and the collation of text. *)
Context (timestamptz : Time → Time).
Context (key_order : list (string * json) → list (string * json)).
Context (id_le : relation string) `{!RelDecision id_le}.

Fixpoint jsonb_out (j : json) : json :=
  match j with
  | JArr elems => JArr (map jsonb_out elems)
  | JObj members => JObj (key_order (map (λ kv, (kv.1, jsonb_out kv.2)) members))
  | j => j
  end.

(** The jsonb value of a text, which may be refused. *)
Definition jsonb_in (text : string) : option json :=
  match document text with
  | Some j => if json_storable j then Some (jsonb_out j) else None
  | None => None
  end.

Definition insert_row (t : table) (id : string) (row : orow) : option table :=
  match t !! id with
  | Some _ => None
  | None => if row_checks statuses_002 id row then Some (<[id := row]> t) else None
  end.

(** [INSERT INTO orders (id, customer_id, items, status, created_at,
payment_reference)]: the table, or nothing when a value or the row is refused. *)
Definition insert_order (t : table) (id customer_id items status : string) (created_at : Time)
    (ref : option string) : option table :=
  if forallb text_storable [id; customer_id; status; default "" ref] then
    match jsonb_in items with
    | Some items => insert_row t id (mkRow customer_id items status (timestamptz created_at) ref)
    | None => None
    end
  else None.

(** [UPDATE orders SET status, payment_reference WHERE id AND status]: the rows
affected and the table, or nothing when a value or the row is refused. *)
Definition update_if_status (t : table) (id expected status : string) (ref : option string)
    : option (Z * table) :=
  if forallb text_storable [id; expected; status; default "" ref] then
    match t !! id with
    | Some row =>
        if ⟦c_status row = expected⟧ then
          if ⟦status ∈ statuses_002⟧ then Some (1%Z, <[id := set_c_status status ref row]> t) else None
        else Some (0%Z, t)
    | None => Some (0%Z, t)
    end
  else None.

Definition update_status (t : table) (id status : string) : option (Z * table) :=
  if forallb text_storable [id; status] then
    match t !! id with
    | Some row =>
        if ⟦status ∈ statuses_002⟧
        then Some (1%Z, <[id := set_c_status status (c_payment_reference row) row]> t) else None
    | None => Some (0%Z, t)
    end
  else None.

(** [SELECT id ... WHERE id > $1 AND created_at <= $2 AND status IN (...)
ORDER BY id LIMIT $3]. *)
Definition selected (t : table) (afterID : string) (olderThan : Time) : list string :=
  merge_sort id_le (map fst (filter (λ kv : string * orow,
    id_le afterID kv.1 ∧ afterID ≠ kv.1 ∧ (c_created_at kv.2 <= timestamptz olderThan)%Z ∧
    c_status kv.2 ∈ sql_recoverable) (map_to_list t))).

Definition page (t : table) (afterID : string) (olderThan : Time) (limit : Z) : list string :=
  take (Z.to_nat limit) (selected t afterID olderThan).

Definition count_recoverable (t : table) : Z :=
  Z.of_nat (length (filter (λ kv : string * orow, c_status kv.2 ∈ sql_recoverable) (map_to_list t))).

(** One statement.  An error may be reported before or after it took effect. *)
Definition sql_step (t : table) {R} (e : sqlE R) : R → table → Prop :=
  match e in sqlE R return R → table → Prop with
  | InsertOrder _ id cust items status at_ ref => λ err t',
      let done_ := insert_order t id cust items status at_ ref in
      match err with
      | None => done_ = Some t'
      | Some _ => t' = t ∨ done_ = Some t'
      end
  | UpdateIfStatus _ id expected status ref => λ ans t',
      let done_ := update_if_status t id expected status ref in
      match ans with
      | ((n, None), None) => done_ = Some (n, t')
      | _ => t' = t ∨ ∃ n, done_ = Some (n, t')
      end
  | UpdateOrderStatus _ id status => λ ans t',
      let done_ := update_status t id status in
      match ans with
      | ((n, None), None) => done_ = Some (n, t')
      | _ => t' = t ∨ ∃ n, done_ = Some (n, t')
      end
  | SelectRecoverable _ afterID olderThan limit => λ ans t',
      t' = t ∧
      match ans with
      | (rs, None) =>
          (∀ err, inr err ∉ scans rs) → rows_Err rs = None →
          scans rs = map inl (page t afterID olderThan limit)
      | _ => True
      end
  | CloseRows => λ _ t', t' = t
  | SelectOrder _ id => λ ans t',
      t' = t ∧
      match ans with
      | inl (id', row) => id' = id ∧ t !! id = Some row
      | inr err => errors_Is err sql_ErrNoRows = true → t !! id = None
      end
  | SelectCount _ => λ ans t',
      t' = t ∧ match ans with inl n => n = count_recoverable t | inr _ => True end
  end.

(** The protocol of a program that talks to the table: every statement is
allowed, and answers as the table does. *)
Definition sql : protocol sqlE :=
  Protocol sqlE table (λ _ _ _, True) (λ R t e r t', sql_step t e r t').

(** ** Abstraction to the store *)

Definition row_order (id : string) (row : orow) : option Order :=
  match unmarshal_items (c_items row) with
  | Some items =>
      Some (mkOrder id (c_customer_id row) items (c_status row) (c_created_at row)
              (NullString_String (c_payment_reference row)) [])
  | None => None
  end.

Definition abs (t : table) : gmap string Order := map_imap row_order t.

(** Every row satisfies the constraints and holds readable items. *)
Definition table_ok (t : table) : Prop :=
  ∀ id row, t !! id = Some row → row_checks statuses_002 id row = true ∧ is_Some (row_order id row).

(** Items that JSON text can hold: valid UTF-8 and 64-bit integers, which is what
items decoded from a request are. *)
Definition items_representable (items : list OrderItem) : Prop :=
  Forall (λ it, valid_text (ProductID it) ∧ int64_range (Quantity it) ∧ int64_range (UnitPrice it)) items.

(** A row with another status and everything else as it was. *)
Definition status_updated (t : table) (id : string) (status : OrderStatus) (t' : table) : Prop :=
  ∃ row, t !! id = Some row ∧ status ∈ statuses_002 ∧
    t' = <[id := mkRow (c_customer_id row) (c_items row) status (c_created_at row)
                   (c_payment_reference row)]> t.
End table.

(** ** Items through the database *)

Section correct.
Context (timestamptz : Time → Time).
Context (key_order : list (string * json) → list (string * json)).
Context (id_le : relation string) `{!RelDecision id_le}.
(** jsonb keeps the members of an object, in an order of its own. *)
Context (key_order_perm : ∀ ms, NoDup ms.*1 → key_order ms ≡ₚ ms).

Lemma permutation3 {A} (l : list A) a b c :
  l ≡ₚ [a; b; c] →
  l ∈ [[a; b; c]; [a; c; b]; [b; a; c]; [b; c; a]; [c; a; b]; [c; b; a]].
Proof.
  intros H%symmetry%permutations_Permutation. revert H. cbn.
  rewrite !list_elem_of_In. cbn. tauto.
Qed.

Lemma member_ProductID p it :
  decode_member false item_fields (Some it) ("ProductID", JStr p) =
    Some (mkOrderItem p (Quantity it) (UnitPrice it)).
Proof. done. Qed.

Lemma member_Quantity q it :
  int64_range q →
  decode_member false item_fields (Some it) ("Quantity", JNum q) =
    Some (mkOrderItem (ProductID it) q (UnitPrice it)).
Proof.
  intros. unfold decode_member.
  change (find_field item_fields _) with
    (Some (nth 1 item_fields (field "" decode_int64 Quantity (λ _ it, it))).2).
  cbn -[decode_int64]. by rewrite decode_int64_in_range.
Qed.

Lemma member_UnitPrice u it :
  int64_range u →
  decode_member false item_fields (Some it) ("UnitPrice", JNum u) =
    Some (mkOrderItem (ProductID it) (Quantity it) u).
Proof.
  intros. unfold decode_member.
  change (find_field item_fields _) with
    (Some (nth 2 item_fields (field "" decode_int64 Quantity (λ _ it, it))).2).
  cbn -[decode_int64]. by rewrite decode_int64_in_range.
Qed.

Lemma item_roundtrip it z :
  int64_range (Quantity it) → int64_range (UnitPrice it) →
  decode_struct false item_fields (jsonb_out key_order (marshal_item it)) z = Some it.
Proof.
  intros Hq Hu. destruct it as [p q u]. simpl in *.
  assert (key_order [("ProductID", JStr p); ("Quantity", JNum q); ("UnitPrice", JNum u)] ≡ₚ
    [("ProductID", JStr p); ("Quantity", JNum q); ("UnitPrice", JNum u)]) as Hp.
  { apply key_order_perm. cbn. repeat constructor; rewrite ?list_elem_of_In; cbn; naive_solver. }
  apply permutation3 in Hp. revert Hp. generalize (key_order
    [("ProductID", JStr p); ("Quantity", JNum q); ("UnitPrice", JNum u)]). intros l Hl.
  rewrite list_elem_of_In in Hl. cbn in Hl.
  repeat destruct Hl as [<-|Hl]; try done; cbn [decode_struct foldl];
    repeat first [rewrite member_ProductID | rewrite member_Quantity by exact Hq
      | rewrite member_UnitPrice by exact Hu]; done.
Qed.

Lemma items_roundtrip items :
  items_representable items → unmarshal_items (jsonb_out key_order (marshal_items items)) = Some items.
Proof.
  destruct items as [|it items]; [done|].
  intros H. unfold marshal_items, unmarshal_items. change (jsonb_out key_order ?j) with
    (JArr (map (jsonb_out key_order) (map marshal_item (it :: items)))).
  enough (decode_elems (decode_struct false item_fields) zero_item
    (map (jsonb_out key_order) (map marshal_item (it :: items))) [] = Some (it :: items)) as Hd
    by by rewrite (decode_slice_fresh _ _ _ _ Hd).
  revert H. generalize (it :: items). clear it items.
  induction 1 as [|x l (_ & Hq & Hu) _ IH]; [done|]. cbn [map decode_elems tail].
  by rewrite item_roundtrip, IH.
Qed.

Lemma marshal_items_writable items : writable maxNestingDepth (marshal_items items) = true.
Proof.
  destruct items as [|it items]; [done|]. apply forallb_forall. by intros j (x & <- & _)%in_map_iff.
Qed.

Lemma marshal_items_repaired items :
  items_representable items → repaired (marshal_items items) = marshal_items items.
Proof.
  destruct items as [|it items]; [done|]. unfold marshal_items. cbn [repaired]. intros H. f_equal.
  rewrite map_map. induction H as [|x l (Hx & _) _ IH]; [done|]. cbn [map]. rewrite IH. f_equal.
  unfold marshal_item. cbn [repaired map fst snd]. by rewrite Hx.
Qed.

(** The jsonb value of marshalled items: refused for a zero byte, else readable. *)
Lemma marshal_items_storable items :
  json_storable (repaired (marshal_items items)) =
    forallb (λ it, no_zero (to_valid (ProductID it))) items.
Proof.
  destruct items as [|it items]; [done|]. unfold marshal_items. cbn [repaired json_storable].
  rewrite map_map. generalize (it :: items). intros l.
  induction l as [|x l IH]; [done|]. cbn [map forallb]. rewrite IH. f_equal.
  unfold marshal_item. cbn [repaired map json_storable forallb fst snd]. by rewrite !andb_true_r.
Qed.

Lemma jsonb_in_items items :
  jsonb_in key_order (Marshal (marshal_items items)) =
    if forallb (λ it, no_zero (to_valid (ProductID it))) items
    then Some (jsonb_out key_order (repaired (marshal_items items))) else None.
Proof.
  unfold jsonb_in. by rewrite document_Marshal, marshal_items_storable by apply marshal_items_writable.
Qed.

Lemma stored_items_spec items :
  items_representable items →
  jsonb_in key_order (Marshal (marshal_items items)) ≫= unmarshal_items =
    if forallb (λ it, no_zero (ProductID it)) items then Some items else None.
Proof.
  intros Hi. rewrite jsonb_in_items.
  replace (forallb (λ it, no_zero (to_valid (ProductID it))) items)
    with (forallb (λ it, no_zero (ProductID it)) items).
  - destruct (forallb _ _); [|done]. simpl. by rewrite marshal_items_repaired, items_roundtrip.
  - induction Hi as [|it items (Hv & _) _ IH]; [done|]. simpl. by rewrite Hv, IH.
Qed.

Lemma stored_items items stored :
  items_representable items → jsonb_in key_order (Marshal (marshal_items items)) = Some stored →
  unmarshal_items stored = Some items.
Proof.
  intros Hi. rewrite jsonb_in_items. destruct (forallb _ _); [|done]. intros [= <-].
  by rewrite marshal_items_repaired, items_roundtrip.
Qed.

(** ** Rows and orders *)

Lemma nullable_roundtrip ref : NullString_String (nullableString ref) = ref.
Proof. unfold nullableString. by case_bool_decide; subst. Qed.

Lemma nullable_NullString r :
  r ≠ Some "" → nullableString (NullString_String r) = r.
Proof. unfold nullableString. destruct r; cbn; [|done]. intros. rewrite bool_decide_eq_false_2; naive_solver. Qed.

Lemma abs_lookup t id : abs t !! id = t !! id ≫= row_order id.
Proof. apply map_lookup_imap. Qed.

Lemma abs_insert t id row o :
  row_order id row = Some o → abs (<[id := row]> t) = <[id := o]> (abs t).
Proof.
  intros H. apply map_eq. intros i. rewrite abs_lookup.
  destruct (decide (i = id)) as [->|]; [by rewrite !lookup_insert_eq|].
  by rewrite !lookup_insert_ne, abs_lookup by done.
Qed.

Lemma table_ok_insert t id row :
  table_ok t → row_checks statuses_002 id row = true → is_Some (row_order id row) →
  table_ok (<[id := row]> t).
Proof.
  intros Ht Hc Ho i r. rewrite lookup_insert_Some. intros [[<- <-]|[_ H]]; [done|]. by apply Ht.
Qed.

(** The row an INSERT stores reads back as the durable part of the order. *)
Lemma inserted_row_order o stored :
  unmarshal_items stored = Some (Items o) →
  row_order (ID o) (mkRow (CustomerID o) stored (Status o)
    (timestamptz (CreatedAt o)) (nullableString (PaymentReference o))) = Some (durable timestamptz o).
Proof. intros Hi. unfold row_order. simpl. by rewrite Hi, nullable_roundtrip. Qed.

Lemma set_c_status_order id row r o :
  row_order id row = Some r →
  row_order id (set_c_status (Status o) (nullableString (PaymentReference o)) row) =
    Some (write_status o r).
Proof.
  unfold row_order. simpl. destruct (unmarshal_items _) as [items|]; [|done].
  intros [= <-]. by rewrite nullable_roundtrip.
Qed.

Lemma set_c_status_checks id row status ref :
  row_checks statuses_002 id row = true → status ∈ statuses_002 →
  row_checks statuses_002 id (set_c_status status ref row) = true.
Proof.
  unfold row_checks. rewrite !andb_true_iff, !bool_decide_eq_true. simpl. tauto.
Qed.

(** ** The statements on the store *)

Lemma insert_order_abs t o t' :
  items_representable (Items o) → table_ok t →
  insert_order timestamptz key_order t (ID o) (CustomerID o) (Marshal (marshal_items (Items o))) (Status o)
    (CreatedAt o) (nullableString (PaymentReference o)) = Some t' →
  table_ok t' ∧ store_insert timestamptz (abs t) o = Some (abs t').
Proof.
  intros Hi Ht. unfold insert_order. destruct (forallb _ _); [|done].
  destruct (jsonb_in _ _) as [stored|] eqn:Hj; [|done]. apply stored_items in Hj; [|done].
  unfold insert_row. destruct (t !! ID o) eqn:Hid; [done|].
  destruct (row_checks _ _ _) eqn:Hc; [|done]. intros [= <-].
  pose proof (inserted_row_order o stored Hj) as Ho. split; [by eapply table_ok_insert|].
  rewrite (abs_insert _ _ _ _ Ho). apply store_insert_Some. by rewrite abs_lookup, Hid.
Qed.

Lemma update_if_status_abs t o expected n t' :
  table_ok t →
  update_if_status t (ID o) expected (Status o) (nullableString (PaymentReference o)) = Some (n, t') →
  table_ok t' ∧
  ((n = 1%Z ∧ store_cas (abs t) o expected = Some (abs t')) ∨
   (n = 0%Z ∧ t' = t ∧ store_cas (abs t) o expected = None)).
Proof.
  intros Ht. unfold update_if_status, store_cas. destruct (forallb _ _); [|done]. rewrite abs_lookup.
  destruct (t !! ID o) as [row|] eqn:Hid; simpl; [|intros [= <- <-]; by auto].
  destruct (Ht _ _ Hid) as [Hc [r Hr]]. rewrite Hr.
  assert (Status r = c_status row) as ->.
  { revert Hr. unfold row_order. destruct (unmarshal_items _); by intros [= <-]. }
  destruct (decide (c_status row = expected)); [|
    rewrite !bool_decide_eq_false_2 by done; intros [= <- <-]; by auto].
  rewrite !(bool_decide_eq_true_2 (c_status row = expected)) by done.
  case_bool_decide; [|done]. intros [= <- <-].
  pose proof (set_c_status_order _ _ _ o Hr) as Hs. split.
  - eapply table_ok_insert; [done| |by eauto]. by apply set_c_status_checks.
  - left. by rewrite (abs_insert _ _ _ _ Hs).
Qed.

(** ** The methods *)

Abbreviation P := (sql timestamptz key_order id_le).

Lemma repo_Save_spec ctx o t :
  table_ok t → items_representable (Items o) →
  wp P (repo_Save ctx o)
    (λ err t', table_ok t' ∧ save_spec timestamptz (abs t) o err (abs t')) t.
Proof.
  intros ok range. apply wp_trigger; [done|]. intros err t' Hstep. simpl in Hstep.
  destruct err as [err|]; apply wp_ret; simpl; [|by apply insert_order_abs].
  destruct Hstep as [->|H]; [by auto|]. apply insert_order_abs in H as [? ?]; [|done..].
  split; [done|]. by right.
Qed.

Lemma repo_SaveIfStatus_spec ctx o expected t :
  table_ok t →
  wp P (repo_SaveIfStatus ctx o expected)
    (λ ans t', table_ok t' ∧ cas_spec (abs t) o expected ans (abs t')) t.
Proof.
  intros ok. apply wp_trigger; [done|]. intros [[n rerr] err] t' Hstep. simpl in Hstep.
  assert (table_ok t' ∧ (abs t' = abs t ∨ store_cas (abs t) o expected = Some (abs t'))) as Hany.
  { destruct rerr, err; (destruct Hstep as [->|[m H]] || rename Hstep into H); auto;
      apply update_if_status_abs in H as [? [[_ ?]|(_ & -> & _)]]; auto. }
  destruct err; [apply wp_ret; simpl; naive_solver|].
  destruct rerr; [apply wp_ret; simpl; naive_solver|].
  apply update_if_status_abs in Hstep as [? [[-> ?]|(-> & -> & ?)]]; [| |done]; by apply wp_ret.
Qed.

Lemma repo_FindByID_spec ctx id t :
  table_ok t →
  wp P (repo_FindByID ctx id) (λ ans t', t' = t ∧ find_spec (abs t) id ans) t.
Proof.
  intros ok. apply wp_trigger; [done|]. intros [[id' row]|err] t' [-> Hans].
  - destruct Hans as [-> Hrow]. destruct (ok _ _ Hrow) as [_ [r Hr]].
    pose proof (abs_lookup t id) as Habs. rewrite Hrow in Habs. simpl in Habs. rewrite Hr in Habs.
    revert Hr. unfold row_order. destruct (unmarshal_items _); [|done]. intros [= <-].
    by apply wp_ret.
  - destruct (errors_Is _ _); by apply wp_ret.
Qed.

(** C17: The Postgres adapter implements the order store: on a table whose rows
satisfy the constraints, [Save] inserts the durable form of the order or reports
an error, [SaveIfStatus] is a compare-and-set on the status column that reports
whether it wrote, and [FindByID] returns exactly the stored order; whatever
statement fails before or after taking effect, and all three keep the table
readable. *)
Theorem repository_implements_store (ctx : Ctx) (t : table) (o : Order) (expected : OrderStatus)
    (ok : table_ok t) (range : items_representable (Items o)) :
  wp P (repo_Save ctx o)
    (λ err t', table_ok t' ∧ save_spec timestamptz (abs t) o err (abs t')) t ∧
  wp P (repo_SaveIfStatus ctx o expected)
    (λ ans t', table_ok t' ∧ cas_spec (abs t) o expected ans (abs t')) t ∧
  wp P (repo_FindByID ctx (ID o))
    (λ ans t', t' = t ∧ find_spec (abs t) (ID o) ans) t.
Proof.
  split_and!; [by apply repo_Save_spec|by apply repo_SaveIfStatus_spec|by apply repo_FindByID_spec].
Qed.

(** C23: An order survives the database: what [FindByID] returns after a
successful [Save] is the saved order, its items through JSON and jsonb
included, with the timestamp at the precision of the database and without its
recorded events. *)
Theorem saved_order_reads_back (ctx : Ctx) (t : table) (o : Order)
    (ok : table_ok t) (range : items_representable (Items o)) :
  wp P (err ← repo_Save ctx o;
        match err with
        | Some err => mret (None, Some err)
        | None => repo_FindByID ctx (ID o)
        end)
    (λ ans _, match ans with
              | (Some o', None) => o' = durable timestamptz o
              | (None, Some _) => True
              | _ => False
              end) t.
Proof.
  eapply wp_bind_mono; [by apply repo_Save_spec|]. intros [err|] t' [Hok Hs]; [by apply wp_ret|].
  apply store_insert_Some in Hs as [_ Hs].
  eapply wp_mono; [by apply repo_FindByID_spec|]. intros [[o'|] [err|]] _ [_ Hf]; try done.
  simpl in Hf. rewrite Hs, lookup_insert_eq in Hf. by injection Hf.
Qed.

(** ** Pages *)

Context `{!PartialOrder id_le} {id_total : base.Total id_le}.

Lemma row_order_fields id row o :
  row_order id row = Some o → Status o = c_status row ∧ CreatedAt o = c_created_at row.
Proof. unfold row_order. destruct (unmarshal_items _); [|done]. by intros [= <-]. Qed.

Lemma selected_elem t afterID olderThan id :
  table_ok t →
  id ∈ selected timestamptz id_le t afterID olderThan ↔
  strict id_le afterID id ∧ recoverable (abs t) (timestamptz olderThan) id.
Proof using Type*.
  intros Ht. unfold selected, recoverable. rewrite merge_sort_Permutation, list_elem_of_fmap. split.
  - intros ([i row] & -> & [(Hle & Hne & Hold & Hst) Hrow%elem_of_map_to_list]%list_elem_of_filter).
    simpl in *. destruct (Ht _ _ Hrow) as [_ [o Ho]]. split; [by apply (strict_elim _)|]. exists o.
    destruct (row_order_fields _ _ _ Ho) as [-> ->]. by rewrite abs_lookup, Hrow.
  - intros ([Hle Hnle] & o & Hid & Hold & Hst). rewrite abs_lookup in Hid.
    apply bind_Some in Hid as (row & Hrow & Ho).
    destruct (row_order_fields _ _ _ Ho) as [Hs Hc]. rewrite Hs in Hst. rewrite Hc in Hold.
    exists (id, row). split; [done|]. apply list_elem_of_filter. split; [|by apply elem_of_map_to_list].
    simpl. split_and!; try done. intros ->. by apply Hnle.
Qed.

Lemma selected_NoDup t afterID olderThan : NoDup (selected timestamptz id_le t afterID olderThan).
Proof.
  unfold selected. rewrite merge_sort_Permutation.
  eapply sublist_NoDup; [apply (NoDup_fst_map_to_list t)|].
  apply fmap_sublist, sublist_filter.
Qed.

Lemma page_list_spec t afterID olderThan limit :
  table_ok t →
  list_spec id_le (abs t) afterID (timestamptz olderThan) limit
    (page timestamptz id_le t afterID olderThan limit).
Proof using Type*.
  intros Ht. apply take_page_spec; [|by intros; apply selected_elem].
  apply sorted_strict; [apply _|apply selected_NoDup|]. apply StronglySorted_merge_sort; apply _.
Qed.

Lemma scan_ids_ok (ids acc : list string) : scan_ids (map inl ids) acc = (acc ++ ids, None).
Proof.
  revert acc. induction ids as [|id ids IH]; intros acc; simpl; [by rewrite app_nil_r|].
  by rewrite IH, <- app_assoc.
Qed.

Lemma scan_ids_inv (rs : list (string + error)) acc ids :
  scan_ids rs acc = (ids, None) → ∀ err, inr err ∉ rs.
Proof.
  revert acc. induction rs as [|[id|err] rs IH]; intros acc; simpl; [set_solver| |done].
  intros H err. apply IH with (err := err) in H. set_solver.
Qed.

(** C18: The recovery scan returns exact pages: [ListRecoverableIDs] changes
nothing and, when it succeeds, returns in strictly increasing order of id the
first [limit] ids after the cursor whose order is recoverable and old enough,
all of them if there are fewer; on an error, of a scan or of the cursor, it
returns no ids. *)
Theorem ListRecoverableIDs_exact (ctx : Ctx) (t : table) (afterID : string) (olderThan : Time)
    (limit : Z) (ok : table_ok t) :
  wp (sql timestamptz key_order id_le) (repo_ListRecoverableIDs ctx afterID olderThan limit)
    (λ ans t', t' = t ∧
       match ans with
       | (ids, None) => list_spec id_le (abs t) afterID (timestamptz olderThan) limit ids
       | (ids, Some _) => ids = []
       end) t.
Proof using Type*.
  apply wp_trigger; [done|]. intros [rs err] t' [-> Hrs]. simpl in Hrs.
  destruct err as [err|]; [by apply wp_ret|].
  apply wp_trigger; [done|]. intros [] t' ->. apply wp_ret. split; [done|].
  destruct (scan_ids (scans rs) []) as [ids [err|]] eqn:Hscan; [done|].
  destruct (rows_Err rs) as [err|]; [done|].
  specialize (Hrs (scan_ids_inv _ _ _ Hscan) eq_refl). rewrite Hrs, scan_ids_ok in Hscan.
  injection Hscan as <-. by apply page_list_spec.
Qed.

(** A cursor that was opened is closed, whatever the scan met. *)
Lemma ListRecoverableIDs_closes ctx afterID olderThan limit tr ret :
  exec (repo_ListRecoverableIDs ctx afterID olderThan limit) tr (Returned ret) →
  ∃ rs err, tr = Call (SelectRecoverable ctx afterID olderThan limit) (rs, err) ::
    match err with Some _ => [] | None => [Call CloseRows tt] end.
Proof.
  intros [[_ ?]|([rs err] & tr1 & -> & ran)]; [done|]. exists rs, err. destruct err as [err|].
  - by destruct ran as [[_ ?]|[-> _]].
  - destruct ran as [[_ ?]|([] & tr2 & -> & [[_ ?]|[-> _]])]; done.
Qed.

(** ** The other operations and the schema *)

Lemma size_filter_list {A} (f : string * A → Prop) `{!∀ kv, Decision (f kv)} (m : gmap string A) :
  size (filter f m) = length (filter f (map_to_list m)).
Proof.
  rewrite <- length_map_to_list, map_filter_alt, map_to_list_to_map; [done|].
  eapply sublist_NoDup; [apply (NoDup_fst_map_to_list m)|]. apply fmap_sublist, sublist_filter.
Qed.

Lemma count_recoverable_abs t :
  table_ok t →
  count_recoverable t =
    Z.of_nat (size (filter (λ kv : string * Order, Status kv.2 ∈ recoverable_statuses) (abs t))).
Proof.
  intros Ht. unfold count_recoverable. rewrite <- size_filter_list, <- !size_dom. do 2 f_equal.
  apply set_eq. intros id. rewrite !elem_of_dom. unfold is_Some.
  setoid_rewrite map_lookup_filter_Some. setoid_rewrite abs_lookup. simpl. split.
  - intros (row & Hrow & Hst). destruct (Ht _ _ Hrow) as [_ [o Ho]]. exists o. rewrite Hrow.
    by destruct (row_order_fields _ _ _ Ho) as [-> _].
  - intros (o & (row & Hrow & Ho)%bind_Some & Hst). exists row.
    by destruct (row_order_fields _ _ _ Ho) as [<- _].
Qed.

(** [UpdateStatus] is a dirty-field update: when it succeeds the order
exists, its status column is the new one and every other column and row is as
before; when it fails the table is unchanged or updated like that; an unknown
id and a status the schema does not know are errors that change nothing. *)
Theorem UpdateStatus_touches_status_only (ctx : Ctx) (t : table) (id : string)
    (status : OrderStatus) :
  wp (sql timestamptz key_order id_le) (repo_UpdateStatus ctx id status)
    (λ err t',
       match err with
       | None => status_updated t id status t'
       | Some err => t' = t ∨ status_updated t id status t'
       end ∧
       (t !! id = None ∨ status ∉ statuses_002 → is_Some err ∧ t' = t)) t.
Proof using Type.
  apply wp_trigger; [done|]. intros [[n rerr] err] t' Hstep. simpl in Hstep.
  assert (∀ n, update_status t id status = Some (n, t') →
    t !! id = None ∧ n = 0%Z ∧ t' = t ∨
    n = 1%Z ∧ ∃ row, t !! id = Some row ∧ status ∈ statuses_002 ∧
      t' = <[id := set_c_status status (c_payment_reference row) row]> t) as Hup.
  { intros m. unfold update_status. destruct (forallb _ _); [|done]. destruct (t !! id) as [row|]; [|naive_solver].
    case_bool_decide; naive_solver. }
  assert (t' = t ∨ ∃ m, update_status t id status = Some (m, t')) as Hany.
  { destruct rerr, err; eauto. }
  assert ((t' = t ∨ status_updated t id status t') ∧ (t !! id = None ∨ status ∉ statuses_002 → t' = t)) as [Hor Hno].
  { destruct Hany as [->|[m H%Hup]]; [by auto|].
    destruct H as [(? & ? & ->)|(? & row & ? & ? & ->)]; [by auto|].
    split; [right; by exists row|naive_solver]. }
  destruct err as [err|]; [apply wp_ret; simpl; by eauto|].
  destruct rerr as [rerr|]; [apply wp_ret; simpl; by eauto|].
  destruct (Hup _ Hstep) as [(? & -> & ->)|(-> & row & ? & ? & ->)].
  - apply wp_ret. simpl. split; [by left|]. naive_solver.
  - apply wp_ret. simpl. split; [by exists row|]. naive_solver.
Qed.

(** [CountPending] is the number of orders the recovery scan still has to
see: it changes nothing and, when it succeeds, counts exactly the orders in a
recoverable status. *)
Theorem CountPending_exact (ctx : Ctx) (t : table) (ok : table_ok t) :
  wp (sql timestamptz key_order id_le) (repo_CountPending ctx)
    (λ ans t', t' = t ∧
       match ans with
       | (n, None) =>
           n = Z.of_nat (size (filter (λ kv : string * Order, Status kv.2 ∈ recoverable_statuses)
                                (abs t)))
       | (n, Some _) => n = 0%Z
       end) t.
Proof using Type.
  apply wp_trigger; [done|]. intros [n|err] t' [-> Hn]; apply wp_ret; [|done].
  split; [done|]. by rewrite Hn, count_recoverable_abs.
Qed.

(** An order whose texts Postgres can keep, its product ids as JSON has them. *)
Definition order_storable (o : Order) : bool :=
  forallb text_storable [ID o; CustomerID o; Status o; PaymentReference o] &&
  forallb (λ it, no_zero (to_valid (ProductID it))) (Items o).

(** C36: The schema fits the domain: the constraints of the migrated table refuse no
well-formed order, so its INSERT is refused exactly when the id is taken or a text
holds a zero byte or is not UTF-8, which no validation of the service rules out; the
first migration alone refuses exactly the fulfillment_pending status. *)
Theorem schema_accepts_orders (t : table) (o : Order)
    (wf : wf_order o) (id : ID o ≠ "") (fresh : t !! ID o = None) :
  let row := mkRow (CustomerID o) (jsonb_out key_order (repaired (marshal_items (Items o)))) (Status o)
    (timestamptz (CreatedAt o)) (nullableString (PaymentReference o)) in
  insert_order timestamptz key_order t (ID o) (CustomerID o) (Marshal (marshal_items (Items o))) (Status o)
    (CreatedAt o) (nullableString (PaymentReference o)) =
    (if order_storable o then Some (<[ID o := row]> t) else None) ∧
  (row_checks statuses_001 (ID o) row = true ↔ Status o ≠ OrderStatusFulfillmentPending).
Proof using Type.
  destruct wf as [Hc Hi _ Hs]. intros row.
  assert (is_json_array (c_items row) = true) as Ha by (unfold row, marshal_items; by destruct (Items o)).
  assert (∀ l, row_checks l (ID o) row = ⟦Status o ∈ l⟧) as Hchecks.
  { intros l. unfold row_checks. rewrite Ha. by rewrite !(bool_decide_eq_true_2 (_ ≠ _)) by done. }
  assert (Status o ∈ statuses_002 ∧ (Status o ∈ statuses_001 ↔ Status o ≠ OrderStatusFulfillmentPending))
    as [H2 H1].
  { unfold known_statuses in Hs. rewrite list_elem_of_In in Hs. simpl in Hs.
    repeat destruct Hs as [<-|Hs]; try done; (split; [by apply (bool_decide_unpack _)|]);
      (split; [intros H; apply (bool_decide_pack _) in H; by vm_compute in H|
        intros H; apply (bool_decide_unpack _); by vm_compute]). }
  split; [|by rewrite Hchecks, bool_decide_eq_true].
  unfold insert_order, order_storable. fold (NullString_String (nullableString (PaymentReference o))).
  rewrite nullable_roundtrip, jsonb_in_items. destruct (forallb text_storable _); [|done].
  destruct (forallb _ (Items o)); [|done]. unfold insert_row. rewrite fresh. fold row.
  by rewrite Hchecks, bool_decide_eq_true_2.
Qed.
End correct.

(** ** Concrete instances *)

(** Microseconds, the precision of timestamptz. *)
Definition microseconds (t : Time) : Time := (t / 1000 * 1000)%Z.

(** jsonb sorts keys by length, then bytewise. *)
Definition jsonb_key_le (a b : string) : Prop :=
  String.length a < String.length b ∨ String.length a = String.length b ∧ String.le a b.
#[global] Instance jsonb_key_le_dec : RelDecision jsonb_key_le.
Proof. intros a b. unfold jsonb_key_le. apply _. Defined.

Definition jsonb_key_order (members : list (string * json)) : list (string * json) :=
  merge_sort (λ a b, jsonb_key_le a.1 b.1) members.

Lemma jsonb_key_order_perm ms : NoDup ms.*1 → jsonb_key_order ms ≡ₚ ms.
Proof. intros _. apply merge_sort_Permutation. Qed.

Definition example_row (status : string) : orow :=
  mkRow "customer" (default JNull (jsonb_in jsonb_key_order (Marshal (marshal_items [mkOrderItem "sku" 2 1500]))))
    status 0 None.

Definition example_table : table :=
  <["a" := example_row "pending"]> (<["b" := example_row "completed"]>
    (<["c" := example_row "paid"]> ∅)).

Lemma example_table_ok : table_ok example_table.
Proof.
  assert (table_ok ∅) as H by by intros id row ?%lookup_empty_Some.
  unfold example_table.
  apply table_ok_insert; [|vm_compute; reflexivity|eexists; vm_compute; reflexivity].
  apply table_ok_insert; [|vm_compute; reflexivity|eexists; vm_compute; reflexivity].
  by apply table_ok_insert; [|vm_compute; reflexivity|eexists; vm_compute; reflexivity].
Qed.

(** The scan pages past settled orders; jsonb stores "Quantity" first. *)
Example example_pages :
  page microseconds String.le example_table "" 1 10 = ["a"; "c"] ∧
  page microseconds String.le example_table "" 1 1 = ["a"] ∧
  page microseconds String.le example_table "a" 1 1 = ["c"] ∧
  c_items (example_row "paid") =
    JArr [JObj [("Quantity", JNum 2); ("ProductID", JStr "sku"); ("UnitPrice", JNum 1500)]].
Proof. vm_compute. split_and!; reflexivity. Qed.

Lemma example_items_representable : items_representable (Items example_order).
Proof. unfold items_representable. apply (bool_decide_unpack _). vm_compute. done. Qed.

Lemma repository_implements_store_witness :
  wp (sql microseconds jsonb_key_order String.le) (repo_Save (mkCtx 0) example_order)
    (λ err t', table_ok t' ∧ save_spec microseconds (abs example_table) example_order err (abs t'))
    example_table.
Proof.
  exact (proj1 (repository_implements_store microseconds jsonb_key_order String.le
    jsonb_key_order_perm (mkCtx 0) example_table example_order OrderStatusPending
    example_table_ok example_items_representable)).
Defined.

Lemma saved_order_reads_back_witness :
  wp (sql microseconds jsonb_key_order String.le)
    (err ← repo_Save (mkCtx 0) example_order;
     match err with
     | Some err => mret (None, Some err)
     | None => repo_FindByID (mkCtx 0) (ID example_order)
     end)
    (λ ans _, match ans with
              | (Some o', None) => o' = durable microseconds example_order
              | (None, Some _) => True
              | _ => False
              end) example_table.
Proof.
  exact (saved_order_reads_back microseconds jsonb_key_order String.le jsonb_key_order_perm
    (mkCtx 0) example_table example_order example_table_ok example_items_representable).
Defined.

Lemma ListRecoverableIDs_exact_witness :
  wp (sql microseconds jsonb_key_order String.le) (repo_ListRecoverableIDs (mkCtx 0) "a" 1 1)
    (λ ans t', t' = example_table ∧
       match ans with
       | (ids, None) => list_spec String.le (abs example_table) "a" (microseconds 1) 1 ids
       | (ids, Some _) => ids = []
       end) example_table.
Proof.
  exact (ListRecoverableIDs_exact microseconds jsonb_key_order String.le jsonb_key_order_perm
    (id_total := String.le_total) (mkCtx 0) example_table "a" 1 1 example_table_ok).
Defined.

(** A zero byte in a text. *)
Definition zero_byte : string := String "000"%char "".

Lemma schema_accepts_orders_witness :
  is_Some (insert_order microseconds jsonb_key_order example_table (ID example_order) (CustomerID example_order)
    (Marshal (marshal_items (Items example_order))) (Status example_order) (CreatedAt example_order)
    (nullableString (PaymentReference example_order))).
Proof.
  assert (wf_order example_order) as Hwf
    by (split; [done|done|repeat constructor; done|apply (bool_decide_unpack _); vm_compute; done]).
  rewrite (proj1 (schema_accepts_orders microseconds jsonb_key_order example_table example_order Hwf
    ltac:(discriminate) ltac:(vm_compute; reflexivity))).
  vm_compute. by eexists.
Defined.

Example refused_texts :
  map (λ o, bool_decide (is_Some (insert_order microseconds jsonb_key_order ∅ (ID o) (CustomerID o)
      (Marshal (marshal_items (Items o))) (Status o) (CreatedAt o) (nullableString (PaymentReference o)))))
    [example_order;
     mkOrder "o" ("cust" +:+ zero_byte) [mkOrderItem "sku" 1 5] OrderStatusPending 0 "" [];
     mkOrder "o" "cust" [mkOrderItem zero_byte 1 5] OrderStatusPending 0 "" []] = [true; false; false].
Proof. vm_compute. reflexivity. Qed.
