(* ===== verification/Documents.v ===== *)
(** * Documents in bytes

The endpoint and the adapters over the texts of JSON: what a client can submit,
what the service makes of any bytes, and that what it sends and stores reads back.
Files: internal/httpapi/handler.go, the clients and order_repo.go. *)

From S2P Require Import Prelude GoValues Prog Domain Ports Text Json JsonText JsonStream CreateOrder Decorators Http System Simulator Outcomes HttpApi Store Repository PaymentClient InventoryClient.

(** ** Values with valid texts *)

Lemma valid_elems js : valid_json (JArr js) → Forall valid_json js.
Proof.
  unfold valid_json. cbn [repaired]. intros [= H]. induction js as [|j js IH]; [done|].
  cbn [map] in H. injection H as Hj H. constructor; [done|auto].
Qed.

Lemma valid_members ms : valid_json (JObj ms) → Forall (λ kv : string * json, valid_json kv.2) ms.
Proof.
  unfold valid_json. cbn [repaired]. intros [= H]. induction ms as [|[k j] ms IH]; [done|].
  cbn [map fst snd] in H. injection H as _ Hj H. constructor; [done|auto].
Qed.

Lemma decode_string_valid j s s' :
  valid_json j → valid_text s → decode_string j s = Some s' → valid_text s'.
Proof.
  destruct j; simpl; try done; [by intros _ ? [= <-]|]. intros Hj _ [= <-].
  unfold valid_json in Hj. cbn [repaired] in Hj. by injection Hj.
Qed.

(** ** Requests *)

Definition item_representable (it : createOrderRequestItem) : Prop :=
  valid_text (item_ProductID it) ∧ item_in_range it.

Lemma decoded_item_representable j it it' :
  valid_json j → item_representable it → decode_struct true request_item_type j it = Some it' →
  item_representable it'.
Proof.
  intros Hj [Hp Hr] Hd. split; [|by eapply request_item_range].
  revert Hp Hd. apply (decode_struct_ind_of valid_json true request_item_type (λ it, valid_text (item_ProductID it))).
  { intros ms ->. by apply valid_members. }
  intros name d Hf j' r r' Hj' Hv. unfold request_item_type, field in Hf. rewrite !elem_of_cons in Hf.
  destruct Hf as [Hf|[Hf|[Hf|Hf]]]; [injection Hf as -> ->..|by apply elem_of_nil in Hf]; intros Hd.
  - destruct (decode_string j' _) as [v|] eqn:Hs; [|done]. injection Hd as <-. by eapply decode_string_valid.
  - destruct (decode_int64 j' _); [|done]. by injection Hd as <-.
  - destruct (decode_int64 j' _); [|done]. by injection Hd as <-.
Qed.

Definition request_representable (r : createOrderRequest) : Prop :=
  valid_text (req_CustomerID r) ∧ valid_text (req_CustomerTier r) ∧ Forall item_representable (backing (req_Items r)).

Lemma decoded_request_representable j r r' :
  valid_json j → request_representable r → decode_struct true request_type j r = Some r' →
  request_representable r'.
Proof.
  intros Hj. apply (decode_struct_ind_of valid_json true request_type request_representable).
  { intros ms ->. by apply valid_members. }
  clear j r r' Hj. intros name d Hf j r r' Hj (Hc & Ht & Hi). unfold request_type, field in Hf.
  rewrite !elem_of_cons in Hf.
  destruct Hf as [Hf|[Hf|[Hf|Hf]]]; [injection Hf as -> ->..|by apply elem_of_nil in Hf]; intros Hd.
  - destruct (decode_string j _) as [v|] eqn:Hs; [|done]. injection Hd as <-.
    split_and!; [|done..]. by apply (decode_string_valid _ _ _ Hj Hc).
  - destruct (decode_string j _) as [v|] eqn:Hs; [|done]. injection Hd as <-.
    split_and!; [done| |done]. by apply (decode_string_valid _ _ _ Hj Ht).
  - destruct (decode_slice _ _ j _) as [v|] eqn:Hs; [|done]. injection Hd as <-.
    split_and!; [done..|].
    refine (decode_slice_Forall valid_json _ _ _ j _ v _ _ Hi _ Hs).
    + destruct j; try done. by apply valid_elems.
    + split; [by vm_compute|]. by apply (bool_decide_unpack _).
    + intros ???. apply decoded_item_representable.
Qed.

(** The request that a body stands for: the items of the domain. *)
Definition usecase_request (r : createOrderRequest) : CreateOrderRequest.t :=
  CreateOrderRequest.mk (req_CustomerID r) (req_CustomerTier r)
    (map (λ item, mkOrderItem (item_ProductID item) (item_Quantity item) (item_UnitPrice item)) (elems (req_Items r))).

Lemma readRequest_accepts b req :
  readRequest b = inr req →
  ∃ j stop b' parsed, body_values b = (j, stop) :: b' ∧
    decode_struct true request_type j zero_request = Some parsed ∧ req = usecase_request parsed.
Proof.
  unfold readRequest, Decode. destruct (body_values b) as [|[j stop] vs]; [by repeat case_match|].
  destruct (stop <=? body_limit)%N; [|done].
  destruct (decode_struct true request_type j zero_request) as [parsed|] eqn:Hd; [|done].
  destruct (ensureEOF _); [done|]. intros [= <-]. by exists j, stop, vs, parsed.
Qed.

(** What the endpoint reads from the bytes of a body, given the errors of the decoder
and of the connection that delivers them. *)
Definition read_bytes (syntax_error : string → error) (failure : option error) (text : string) :=
  readRequest (body_of_text syntax_error failure text).

Section texts.
Context (syntax_error : string → error) (failure : option error).
Context (key_order : list (string * json) → list (string * json)).
Context (key_order_perm : ∀ ms, NoDup ms.*1 → key_order ms ≡ₚ ms).

Lemma accepted_representable text req :
  read_bytes syntax_error failure text = inr req →
  valid_text (CreateOrderRequest.CustomerID req) ∧ valid_text (CreateOrderRequest.CustomerTier req) ∧
  items_representable (CreateOrderRequest.Items req).
Proof.
  intros (j & stop & vs & parsed & Hb & Hd & ->)%readRequest_accepts.
  pose proof (body_of_text_valid syntax_error failure text) as Hv. rewrite Hb in Hv.
  apply Forall_cons in Hv as [Hj _]. apply (decoded_request_representable _ _ _ Hj) in Hd as (Hc & Ht & Hi).
  - apply Forall_app in Hi as [Hi _]. split_and!; [done..|]. apply Forall_map. eapply Forall_impl; [exact Hi|].
    by intros it (? & ? & ?).
  - by split_and!; [vm_compute..|].
Qed.

(** The document of a charge. *)
Lemma charge_document req :
  valid_text (PaymentRequest.OrderID req) → valid_text (PaymentRequest.CustomerID req) →
  document (Marshal (PaymentClient.chargeRequest req)) = Some (PaymentClient.chargeRequest req).
Proof.
  intros Ho Hc. rewrite document_Marshal by done. unfold PaymentClient.chargeRequest.
  cbn [repaired map fst snd]. by rewrite Ho, Hc.
Qed.

(** *** What a client submits *)

Definition item_document (it : OrderItem) : json :=
  JObj [("product_id", JStr (ProductID it)); ("quantity", JNum (Quantity it));
        ("unit_price_cents", JNum (UnitPrice it))].
Definition request_document (req : CreateOrderRequest.t) : json :=
  JObj [("customer_id", JStr (CreateOrderRequest.CustomerID req));
        ("customer_tier", JStr (CreateOrderRequest.CustomerTier req));
        ("items", JArr (map item_document (CreateOrderRequest.Items req)))].

Definition parsed_item (it : OrderItem) : createOrderRequestItem :=
  mkRequestItem (ProductID it) (Quantity it) (UnitPrice it).

Lemma item_document_decodes it z :
  int64_range (Quantity it) → int64_range (UnitPrice it) →
  decode_struct true request_item_type (item_document it) z = Some (parsed_item it).
Proof.
  intros Hq Hu. unfold decode_struct, item_document. cbn [foldl]. unfold decode_member. cbn [fst snd].
  change (find_field request_item_type "product_id") with (Some (nth 0 request_item_type ("", λ _ _, None)).2).
  change (find_field request_item_type "quantity") with (Some (nth 1 request_item_type ("", λ _ _, None)).2).
  change (find_field request_item_type "unit_price_cents") with (Some (nth 2 request_item_type ("", λ _ _, None)).2).
  cbn -[decode_int64]. rewrite decode_int64_in_range by done. cbn -[decode_int64].
  by rewrite decode_int64_in_range by done.
Qed.

Lemma item_documents_decode its :
  items_representable its →
  decode_elems (decode_struct true request_item_type) zero_request_item (map item_document its) [] =
    Some (map parsed_item its).
Proof.
  induction 1 as [|it its (_ & Hq & Hu) _ IH]; [done|]. cbn [map decode_elems tail].
  by rewrite item_document_decodes, IH.
Qed.

Lemma request_document_decodes req :
  items_representable (CreateOrderRequest.Items req) →
  decode_struct true request_type (request_document req) zero_request =
    Some (mkCreateOrderRequest (CreateOrderRequest.CustomerID req) (CreateOrderRequest.CustomerTier req)
            (Slice (map parsed_item (CreateOrderRequest.Items req)) [])).
Proof.
  intros Hi%item_documents_decode. unfold request_document, decode_struct at 1. cbn [foldl].
  unfold decode_member. cbn [fst snd].
  change (find_field request_type "customer_id") with (Some (nth 0 request_type ("", λ _ _, None)).2).
  change (find_field request_type "customer_tier") with (Some (nth 1 request_type ("", λ _ _, None)).2).
  change (find_field request_type "items") with (Some (nth 2 request_type ("", λ _ _, None)).2).
  cbn [nth request_type field snd decode_string zero_request req_Items].
  by rewrite (decode_slice_fresh _ _ _ _ Hi).
Qed.

Lemma request_document_repaired req :
  valid_text (CreateOrderRequest.CustomerID req) → valid_text (CreateOrderRequest.CustomerTier req) →
  items_representable (CreateOrderRequest.Items req) →
  writable maxNestingDepth (request_document req) = true ∧
  repaired (request_document req) = request_document req.
Proof.
  intros Hc Ht Hi. split.
  - unfold request_document. cbn. rewrite !andb_true_r. apply forallb_forall.
    by intros j (it & <- & _)%in_map_iff.
  - unfold request_document. cbn [repaired map fst snd]. rewrite Hc, Ht. do 8 f_equal. rewrite map_map.
    induction Hi as [|it its (Hp & _) _ IH]; [done|]. cbn [map]. rewrite IH. f_equal.
    unfold item_document. cbn [repaired map fst snd]. by rewrite Hp.
Qed.

(** C26: Every request can be submitted: the bytes of the JSON document of a request
with valid texts and 64-bit numbers, with any white space after it, within one
mebibyte, are read as exactly that request, item by item. *)
Theorem submitted_request_is_read (req : CreateOrderRequest.t) (tail : string)
    (texts : valid_text (CreateOrderRequest.CustomerID req) ∧ valid_text (CreateOrderRequest.CustomerTier req))
    (representable : items_representable (CreateOrderRequest.Items req))
    (space : Forall (λ r, is_ws r = true) (runes tail))
    (short : (N.of_nat (String.length (Marshal (request_document req)) + String.length tail) <= body_limit)%N) :
  read_bytes syntax_error None (Marshal (request_document req) +:+ tail) = inr req.
Proof.
  destruct texts as [Hc Ht]. destruct (request_document_repaired req Hc Ht representable) as [Hw Hrep].
  unfold read_bytes. rewrite body_of_Marshal, Hrep by done. unfold readRequest, Decode. cbn [body_values].
  rewrite (proj2 (N.leb_le _ _)) by lia. rewrite request_document_decodes by done.
  unfold ensureEOF, Decode. cbn [body_values body_rest body_size]. rewrite (proj2 (N.leb_le _ _)) by done.
  cbn. destruct req as [cust tier its]. cbn. do 2 f_equal. rewrite map_map. clear.
  induction its as [|[p q u] its IH]; [done|]. cbn [map]. by rewrite IH.
Qed.

(** C25: No bytes that the endpoint accepts are mangled on their way.  Whatever the
bytes of an accepted body, escapes, lone surrogates and invalid UTF-8 included,
the texts of the request are valid UTF-8 and its numbers fit 64 bits, so the items
of its order, unless a product id holds a zero byte, which jsonb refuses, read back
unchanged from the bytes that are stored, always from the bytes of the reservation,
and the charge document names its customer and amount. *)
Theorem accepted_bytes_survive (text : string) (req : CreateOrderRequest.t) (o : Order)
    (accepted : read_bytes syntax_error failure text = inr req)
    (ordered : CustomerID o = CreateOrderRequest.CustomerID req ∧ Items o = CreateOrderRequest.Items req ∧
               valid_text (ID o)) :
  (jsonb_in key_order (Marshal (marshal_items (Items o))) ≫= unmarshal_items =
     if forallb (λ it, no_zero (ProductID it)) (CreateOrderRequest.Items req)
     then Some (CreateOrderRequest.Items req) else None) ∧
  (let doc := InventoryClient.reservationRequest (InventoryRequest.mk (ID o) (Items o) (ID o)) in
   document (Marshal doc) = Some doc ∧
   decode_struct true InventoryClient.reservation_type doc (InventoryClient.mkReservation "" []) =
     Some (InventoryClient.reserved (InventoryRequest.mk (ID o) (CreateOrderRequest.Items req) (ID o)))) ∧
  document (Marshal (PaymentClient.chargeRequest (PaymentRequest.mk (ID o) (CustomerID o) (Total o) (ID o)))) =
    Some (JObj [("order_id", JStr (ID o)); ("customer_id", JStr (CreateOrderRequest.CustomerID req));
                ("amount_cents", JNum (Total o))]).
Proof.
  destruct ordered as (Hc & Hi & Hid). apply accepted_representable in accepted as (Hcust & _ & Hitems).
  rewrite <- Hc, <- Hi in *. cbv zeta. split_and!.
  - by apply stored_items_spec.
  - apply InventoryClient.reservation_document. split; [done|]. eapply Forall_impl; [exact Hitems|]. by intros ? (? & _).
  - apply InventoryClient.reservation_decodes. eapply Forall_impl; [exact Hitems|]. by intros ? (_ & ? & _).
  - by rewrite charge_document.
Qed.
End texts.

(** ** Bytes *)

(** Apostrophes for quotation marks. *)
Fixpoint with_quotes (s : string) : string :=
  match s with
  | String c s => String (if ⟦c = "'"%char⟧ then "034"%char else c) (with_quotes s)
  | EmptyString => EmptyString
  end.

Definition bytes_body (text : string) : body := body_of_text (λ _, Foreign "invalid character" None) None text.

Definition bytes_request (text : string) : option CreateOrderRequest.t :=
  match readRequest (bytes_body text) with inl _ => None | inr req => Some req end.

Definition example_bytes : string := with_quotes
  "{ 'customer_id':'cust\u005f1', 'customer_tier':'premium', 'items': [ {'product_id':'\ud83d\ude00\ud800',
     'quantity':2, 'unit_price_cents': 1500} ] } ".

Definition example_parsed : CreateOrderRequest.t :=
  CreateOrderRequest.mk "cust_1" "premium"
    [mkOrderItem (EncodeRune 128512 +:+ EncodeRune 65533) 2 1500].

Example example_bytes_parsed : readRequest (bytes_body example_bytes) = inr example_parsed.
Proof. vm_compute. reflexivity. Qed.

(** A repeated key decodes over what the array of the slice still holds. *)
Example repeated_items :
  CreateOrderRequest.Items <$> bytes_request (with_quotes
    "{'items':[{'product_id':'a'},{'product_id':'b','quantity':2}],'items':[{'quantity':1}],
      'items':[{},{'unit_price_cents':7}]}") =
    Some [mkOrderItem "a" 1 0; mkOrderItem "b" 2 7] ∧
  CreateOrderRequest.Items <$> bytes_request (with_quotes
    "{'items':[{'product_id':'a'}],'items':[],'items':[{'quantity':1}]}") = Some [mkOrderItem "" 1 0].
Proof. vm_compute. split; reflexivity. Qed.

Definition bytes_status (text : string) : outcome Z := demo_status healthy (bytes_body (with_quotes text)).

Example refused_bytes :
  map bytes_status
    ["{'customer_id':'c','items':[{'product_id':'p','quantity':1,'unit_price_cents':5}]}";
     "{'customer_id':'c','items':[{'product_id':'p','quantity':1,'unit_price_cents':5}]}{}";
     "{'customer_id':'c','items':[{'product_id':'p','quantity':1.0,'unit_price_cents':5}]}";
     "{'customer_id':'c','items':[{'product_id':'p','quantity':01,'unit_price_cents':5}]}";
     "{'customer_id':'c','items':[{'product_id':'p','quantity':1,'unit_price_cents':5},]}";
     "{'customer_id':'c','items':[{'product_id':'p','quantity':1,'unit_price_cents':9223372036854775808}]}";
     "{'customer_id':'c','note':'x','items':[{'product_id':'p','quantity':1,'unit_price_cents':5}]}";
     "{'customer_id':'\x','items':[{'product_id':'p','quantity':1,'unit_price_cents':5}]}"; ""; "null"] =
  map Returned [201; 400; 400; 400; 400; 400; 400; 400; 400; 400]%Z.
Proof. vm_compute. reflexivity. Qed.

Example written_bytes :
  reply_body (writeJSON 400 (error_body "invalid order")) =
    with_quotes "{'error':'invalid order'}" +:+ String "010" EmptyString ∧
  Marshal (JObj [("id", JStr "a<b"); ("n", JNum (-12)); ("l", JArr [JNull; JBool true])]) =
    with_quotes "{'id':'a\u003cb','n':-12,'l':[null,true]}".
Proof. vm_compute. split; reflexivity. Qed.

Definition example_decoded : Order :=
  mkOrder "ord_1" "cust_1" (CreateOrderRequest.Items example_parsed) OrderStatusPending 0 "" [].

Lemma accepted_bytes_survive_witness :
  jsonb_in jsonb_key_order (Marshal (marshal_items (Items example_decoded))) ≫= unmarshal_items =
    Some (CreateOrderRequest.Items example_parsed).
Proof.
  refine (proj1 (accepted_bytes_survive (λ _, Foreign "invalid character" None) None jsonb_key_order
    jsonb_key_order_perm example_bytes example_parsed example_decoded _ _)).
  - exact example_bytes_parsed.
  - split; [reflexivity|]. split; [reflexivity|]. vm_compute. reflexivity.
Defined.

Lemma submitted_request_is_read_witness :
  read_bytes (λ _, Foreign "invalid character" None) None (Marshal (request_document example_parsed) +:+ " ") =
    inr example_parsed.
Proof.
  refine (submitted_request_is_read (λ _, Foreign "invalid character" None) example_parsed " " _ _ _ _).
  - split; vm_compute; reflexivity.
  - apply (bool_decide_unpack _). vm_compute. exact I.
  - apply (bool_decide_unpack _). vm_compute. exact I.
  - vm_compute. discriminate.
Defined.
