(* ===== verification/Deployment.v ===== *)
(** * The adapters under the usecase

The request-level theorems (Outcomes.v) rely on collaborators that never forge
the sentinels of the usecase; here the adapters are shown to be such
collaborators as long as the driver, the transport and the encoding are. *)

From S2P Require Import Prelude GoValues Prog Domain Ports Json Http PaymentClient InventoryClient Store Metrics Repository Outcomes.

(** ** Foreign errors *)

(** The HTTP library reports no sentinel of the usecase. *)
Definition plain_http : protocol httpE :=
  Protocol httpE unit (λ _ _ _, True) (λ R _ (e : httpE R),
    match e in httpE R return R → unit → Prop with
    | NewRequest _ _ _ => λ err _, plain_option err
    | Do _ _ => λ ans _,
        match ans with
        | inl resp => plain_option (body_rest (ResponseBody resp))
        | inr err => plain err
        end
    | Discard _ | CloseBody => λ _ _, True
    end).

(** Neither does the database driver. *)
Definition plain_sql : protocol sqlE :=
  Protocol sqlE unit (λ _ _ _, True) (λ R _ (e : sqlE R),
    match e in sqlE R return R → unit → Prop with
    | InsertOrder _ _ _ _ _ _ _ => λ err _, plain_option err
    | UpdateIfStatus _ _ _ _ _ | UpdateOrderStatus _ _ _ => λ ans _,
        plain_option ans.1.2 ∧ plain_option ans.2
    | SelectOrder _ _ => λ ans _, match ans with inr err => plain err | inl _ => True end
    | _ => λ _ _, True
    end).

(** ** Lemmas *)

Lemma plain_foreign text c : plain (Foreign text c).
Proof. intros s _. symmetry. apply bool_decide_eq_false_2, not_elem_of_nil. Qed.

Lemma plain_status a code : plain (HTTPStatusError a code).
Proof. intros s _. symmetry. apply bool_decide_eq_false_2, not_elem_of_nil. Qed.

(** Sentinels of the adapters and the standard library. *)
Lemma plain_sentinel s : bool_decide (s ∈ usecase_sentinels) = false → plain (Sentinel s).
Proof.
  intros Hs%bool_decide_eq_false s' Hs'.
  trans false; [apply bool_decide_eq_false_2; by intros ->|].
  symmetry. apply bool_decide_eq_false_2, not_elem_of_nil.
Qed.

(** A format that wraps only plain errors. *)
Lemma plain_Errorf segs :
  Forall (λ sg, match sg with Wrap e => plain e | _ => True end) segs → plain (Errorf segs).
Proof.
  intros H s Hs. trans false; [|symmetry; apply bool_decide_eq_false_2, not_elem_of_nil].
  induction H as [|sg segs Hsg _ IH]; [done|]. simpl in *. rewrite IH, orb_false_r.
  destruct sg as [t|e|e]; try done. rewrite (Hsg s Hs).
  apply bool_decide_eq_false_2, not_elem_of_nil.
Qed.

Ltac plain_tac :=
  repeat match goal with
  | |- plain (Errorf _) => apply plain_Errorf; repeat constructor; cbn beta iota
  | |- plain (wrapf _ _) => apply kinds_wrapf
  | |- plain (order_error _ _ _) => apply plain_Errorf; repeat constructor; cbn beta iota
  | |- plain (Foreign _ _) => apply plain_foreign
  | |- plain (HTTPStatusError _ _) => apply plain_status
  | |- plain (Sentinel _) => apply plain_sentinel; vm_compute; reflexivity
  | |- kinds [] ?e => change (plain e)
  end; try done.

Ltac plain_done := apply wp_closing; [by intros ? []|by intros ? [] [] ? []|].

Lemma decodeChargeResponse_plain b :
  plain_option (body_rest b) → plain_option (PaymentClient.decodeChargeResponse b).2.
Proof.
  intros Hb. unfold PaymentClient.decodeChargeResponse, Decode.
  destruct (body_values b) as [|[j stop] vs].
  - destruct (body_rest b) as [err|]; [simpl in *; plain_tac|].
    destruct (_ <=? _)%N; simpl; unfold unexpected_EOF; plain_tac.
  - destruct (_ <=? _)%N; [|simpl; unfold unexpected_EOF; plain_tac].
    destruct (decode_struct _ _ _ _); [|simpl; plain_tac].
    repeat case_bool_decide; simpl; plain_tac.
Qed.

Lemma Charge_plain pc ctx req :
  wp plain_http (PaymentClient.Charge pc ctx req) (λ ans _, plain_option ans.2) tt.
Proof.
  apply wp_trigger; [done|]. intros [err|] [] Herr; [apply wp_ret; simpl; plain_tac|].
  apply wp_trigger; [done|]. intros [resp|err] [] Hr; [|apply wp_ret; simpl; plain_tac].
  destruct (negb _); plain_done; [simpl; plain_tac|]. by apply decodeChargeResponse_plain.
Qed.

Lemma Reserve_plain ic ctx req :
  wp plain_http (InventoryClient.Reserve ic ctx req) (λ err _, plain_option err) tt.
Proof.
  apply wp_trigger; [done|]. intros [err|] [] Herr; [apply wp_ret; simpl; plain_tac|].
  apply wp_trigger; [done|]. intros [resp|err] [] Hr; [|apply wp_ret; simpl; plain_tac].
  destruct (negb _); plain_done; [simpl; plain_tac|done].
Qed.

Lemma Save_plain ctx o : wp plain_sql (repo_Save ctx o) (λ err _, plain_option err) tt.
Proof. apply wp_trigger; [done|]. intros [err|] [] Herr; apply wp_ret; simpl; plain_tac. Qed.

Lemma SaveIfStatus_plain ctx o expected :
  wp plain_sql (repo_SaveIfStatus ctx o expected) (λ ans _, plain_option ans.2) tt.
Proof.
  apply wp_trigger; [done|]. intros [[n e1] e2] [] [H1 H2]; simpl in H1, H2.
  destruct e2 as [e2|]; [apply wp_ret; simpl; plain_tac|].
  destruct e1 as [e1|]; apply wp_ret; simpl; plain_tac.
Qed.

Lemma FindByID_plain ctx id : wp plain_sql (repo_FindByID ctx id) (λ ans _, plain_option ans.2) tt.
Proof.
  apply wp_trigger; [done|]. intros [[oid row]|err] [] Herr.
  - destruct (unmarshal_items _); apply wp_ret; simpl; plain_tac.
  - destruct (errors_Is err sql_ErrNoRows); apply wp_ret; simpl; plain_tac.
Qed.

(** The adapters are collaborators the usecase can trust to keep its error
classes apart: as long as the HTTP library and the database driver report no
sentinel of the usecase, neither does any error of [Charge], [Reserve], [Save],
[SaveIfStatus] or [FindByID], so a response is never classified by an error that
came from below. *)
Theorem adapters_report_plain_errors (pc : PaymentClient.Client) (ic : InventoryClient.Client)
    (ctx : Ctx) (preq : PaymentRequest.t) (ireq : InventoryRequest.t)
    (o : Order) (expected : OrderStatus) (id : string) :
  wp plain_http (PaymentClient.Charge pc ctx preq) (λ ans _, plain_option ans.2) tt ∧
  wp plain_http (InventoryClient.Reserve ic ctx ireq) (λ err _, plain_option err) tt ∧
  wp plain_sql (repo_Save ctx o) (λ err _, plain_option err) tt ∧
  wp plain_sql (repo_SaveIfStatus ctx o expected) (λ ans _, plain_option ans.2) tt ∧
  wp plain_sql (repo_FindByID ctx id) (λ ans _, plain_option ans.2) tt.
Proof.
  split_and!; [apply Charge_plain|apply Reserve_plain|apply Save_plain|apply SaveIfStatus_plain|apply FindByID_plain].
Qed.

(** ** The gauge over the table *)

Section gauge.
Context (timestamptz : Time → Z) (key_order : list (string * json) → list (string * json))
  (id_le : relation string) `{!RelDecision id_le}.

Definition recoverable_orders (t : table) : nat :=
  size (filter (λ kv : string * Order, Status kv.2 ∈ recoverable_statuses) (abs t)).

(** The pending-orders gauge shows the store and nothing else: a scrape reads
the number of orders in the table that the recovery scan may still list, or NaN
and one more collection error when the query fails, and it changes no row and no
other metric. *)
Theorem pending_gauge_reads_the_table (ctx : Ctx) (t : table) (ok : table_ok t)
    (m : PrometheusMetrics) :
  wp (sql timestamptz key_order id_le) (pendingOrders repo_CountPending ctx m)
    (λ ans t', t' = t ∧
       (ans = (Some (Z.of_nat (recoverable_orders t)), m) ∨
        ans = (None, mkMetrics (ordersCreated m) (stepDuration m) (pendingCollectionErrors m + 1)))) t.
Proof.
  eapply wp_bind_mono; [by apply CountPending_exact|].
  intros [n [err|]] t' [-> Hn]; apply wp_ret; (split; [done|]); simpl; rewrite ?Hn; auto.
Qed.
End gauge.

Lemma pending_gauge_reads_the_table_witness :
  wp (sql microseconds jsonb_key_order String.le) (pendingOrders repo_CountPending (mkCtx 0) no_metrics)
    (λ ans t', t' = example_table ∧
       (ans = (Some (Z.of_nat (recoverable_orders example_table)), no_metrics) ∨
        ans = (None, mkMetrics ∅ ∅ 1))) example_table.
Proof.
  exact (pending_gauge_reads_the_table microseconds jsonb_key_order String.le (mkCtx 0) example_table
    example_table_ok no_metrics).
Defined.
