(* ===== verification/Replies.v ===== *)
(** * Replies in the running system

HttpApi.v says what a reply tells of the answers its own request was given.  Here
the request is a thread of System.v: what the reply says holds of the store and of
the ledger of the Payment Service when it is sent, whatever the other threads did
meanwhile, and ever after. *)

From S2P Require Import Prelude GoValues Prog Domain Ports Json JsonText CreateOrder Reconciler Decorators Saves Provider Store Safety System Simulator Outcomes HttpApi Deployment.

Section replies.
Context {P : Type} `{!PaymentProvider P} (timestamptz : Time → Time).

Abbreviation sys := (sys (P := P)).
Abbreviation world := (world (P := P)).

(** ** What other threads leave alone *)

(** A fact stays a fact, what was sent stays sent, what was reserved reserved. *)
Record world_le (w w' : world) : Prop := {
  le_db : db_le (db w) (db w');
  le_facts : ∀ f, holds w f → holds w' f;
  le_charges : ∀ req, req ∈ charges w → req ∈ charges w';
  le_confirmed : ∀ req, req ∈ confirmed w → req ∈ confirmed w' }.

#[global] Instance world_le_preorder : PreOrder world_le.
Proof.
  split; [intros w; by split|]. intros w1 w2 w3 [] []. split; [by etrans|auto..].
Qed.

Lemma port_step_sent w R (e : portE R) r w' :
  port_step timestamptz w e r w' →
  (∀ req, req ∈ charges w → req ∈ charges w') ∧ (∀ req, req ∈ confirmed w → req ∈ confirmed w').
Proof.
  intros Hs. destruct e; simpl in Hs; try (by subst); try (by destruct Hs as (? & _ & ->)).
  - by destruct Hs as [_ ->].
  - destruct Hs as (p & _ & ->). simpl. split; [|done]. intros. apply elem_of_app. by left.
  - subst w'. simpl. split; [done|]. intros. apply elem_of_app. by left.
Qed.

Lemma step_world_le s s' : sys_ok s → sys_step timestamptz s s' → world_le (wld s) (wld s').
Proof.
  intros Hok Hst. destruct (sys_step_keeps _ _ _ Hok Hst) as [_ Hdb]. destruct Hok as (gs & Hw & Hts).
  destruct Hst as [i R e k r w w' ts Hi Hs|p w ts Hp|i w ts|w p ts Hp]; simpl in *; [| done|done|].
  - destruct (Forall2_lookup_l _ _ _ _ _ Hts Hi) as (g & Hg & Hf & Hc & _).
    assert ((tokens <$> gs) !! i = Some (tokens g)) as Htok by (by rewrite list_lookup_fmap, Hg).
    rewrite (concat_split _ _ _ Htok) in Hw.
    destruct (port_step_keeps _ _ _ _ _ _ _ _ Hw Hf Hc Hs) as (g' & _ & _ & _ & Hm & _).
    destruct (port_step_sent _ _ _ _ _ Hs). by split.
  - destruct (settle_prov_le _ _ Hp) as [Hle _]. split; try done. intros f. by apply prov_le_holds.
Qed.

Lemma steps_world_le s s' :
  sys_ok s → rtc (sys_step timestamptz) s s' → sys_ok s' ∧ world_le (wld s) (wld s').
Proof.
  intros Hok Hst. induction Hst as [s|s1 s2 s3 Hst _ IH]; [done|].
  pose proof (step_world_le _ _ Hok Hst) as Hle. destruct (sys_step_keeps _ _ _ Hok Hst) as [Hok2 _].
  destruct (IH Hok2) as [Hok3 Hle']. split; [done|by etrans].
Qed.

(** ** What a request has been told *)

(** The charges and the orders among the calls of a request. *)
Definition charges_of (tr : list (call portE)) : list PaymentRequest.t :=
  omap (λ c, match c with
             | Call e _ => match e with Charge _ req => Some req | _ => None end
             end) tr.
Definition inserts_of (tr : list (call portE)) : list Order :=
  omap (λ c, match c with
             | Call e _ => match e with Save _ o => Some o | _ => None end
             end) tr.

(** The orders that were saved. *)
Definition saved_of (tr : list (call portE)) : list Order :=
  omap (λ c, match c with
             | Call e r =>
                 match e in portE R return R → option Order with
                 | Save _ o => λ err, match err with None => Some o | Some _ => None end
                 | _ => λ _, None
                 end r
             end) tr.

Lemma charges_of_app tr tr' : charges_of (tr ++ tr') = charges_of tr ++ charges_of tr'.
Proof. apply omap_app. Qed.
Lemma inserts_of_app tr tr' : inserts_of (tr ++ tr') = inserts_of tr ++ inserts_of tr'.
Proof. apply omap_app. Qed.
Lemma saved_of_app tr tr' : saved_of (tr ++ tr') = saved_of tr ++ saved_of tr'.
Proof. apply omap_app. Qed.

(** The row [id] keeps the customer and the items of an order that was saved. *)
Definition is_saved (tr : list (call portE)) (id : string) (row : Order) : Prop :=
  ∃ saved, saved ∈ saved_of tr ∧ ID saved = id ∧ CustomerID row = CustomerID saved ∧ Items row = Items saved.

Lemma is_saved_app tr tr' id row row' :
  is_saved tr id row → CustomerID row' = CustomerID row → Items row' = Items row → is_saved (tr ++ tr') id row'.
Proof.
  intros (saved & Hin & Hid & Hc & Hi) Hc' Hi'. exists saved.
  rewrite saved_of_app, elem_of_app. split_and!; [by left|congruence..].
Qed.

(** The story [g] of the calls [tr] holds in the world [w]. *)
Record told (w : world) (tr : list (call portE)) (g : story) : Prop := {
  told_stored o : stored g = Some o →
    ∃ row, db w !! ID o = Some row ∧ rtc transition (Status o) (Status row) ∧ is_saved tr (ID o) row;
  told_charge o ans : stored g = Some o → charge_answer g = Some ans →
    ID o ∈ charged w ∧
    (is_approved ans → holds w (FApproved (ID o) (PaymentResult.Reference ans.1))) ∧
    (is_declined ans → holds w (FDeclined (ID o))) ∧
    (is_rejected ans → holds w (FRefused (ID o)));
  told_reserved o : stored g = Some o → reserve_answer g = Some None →
    InventoryRequest.mk (ID o) (Items o) (ID o) ∈ confirmed w;
  told_charges : charge_answer g = None → charges_of tr = [];
  told_inserts : g = no_story → inserts_of tr = [] }.

Lemma told_nothing w : told w [] no_story.
Proof. by split. Qed.

(** The calls after which the story is the same. *)
Definition tells_nothing {R} (e : portE R) : Prop :=
  match e with Save _ _ | Charge _ _ => False | _ => True end.

Lemma told_on w w' tr g R (e : portE R) r :
  world_le w w' → tells_nothing e → told w tr g → told w' (tr ++ [Call e r]) g.
Proof.
  intros [Hdb Hf Hc Hr] He [H1 H2 H4 H5 H6].
  split.
  - intros o Ho. destruct (H1 o Ho) as (row & Hrow & Ht & Hsaved).
    destruct (Hdb _ _ Hrow) as (row' & Hrow' & _ & Hc' & Hi' & _ & Ht' & _). exists row'. split; [done|].
    split; [by etrans|]. by eapply is_saved_app.
  - intros o ans Ho Ha. destruct (H2 o ans Ho Ha) as ((req & Hreq & Hin)%list_elem_of_fmap & Happ & Hdec & Hrej).
    split_and!; [|intros; by apply Hf, Happ|intros; by apply Hf, Hdec|intros; by apply Hf, Hrej].
    apply list_elem_of_fmap. eauto.
  - eauto.
  - intros Ha. rewrite charges_of_app, H5 by done. by destruct e.
  - intros Ha. rewrite inserts_of_app, H6 by done. by destruct e.
Qed.

Lemma told_mono w w' tr g : world_le w w' → told w tr g → told w' tr g.
Proof.
  intros Hle Ht. pose proof (told_on w w' tr g _ Now 0%Z Hle I Ht) as [H1 H2 H3 _ _].
  destruct Ht as [_ _ _ H5 H6]. split; try done. intros o Ho.
  destruct (H1 o Ho) as (row & Hrow & Htr & Hsaved). exists row. split_and!; [done..|].
  unfold is_saved in *. by rewrite saved_of_app, app_nil_r in Hsaved.
Qed.

(** The collaborators report no sentinel of the usecase (Deployment.v). *)
Definition plain_answer {R} (e : portE R) : R → Prop :=
  match e in portE R return R → Prop with
  | rand_Read _ => λ ans, plain_option ans.2
  | Save _ _ => λ err, plain_option err
  | SaveIfStatus _ _ _ => λ ans, plain_option ans.2
  | FindByID _ _ => λ ans, plain_option ans.2
  | Charge _ _ => λ ans, plain_option ans.2
  | Reserve _ _ => λ err, plain_option err
  | _ => λ _, True
  end.

(** *** One call of the request *)

Lemma told_Save w ctx o err w' tr g :
  world_le w w' → told w tr g → may_call g (Save ctx o) →
  port_step timestamptz w (Save ctx o) err w' → plain_option err →
  ∃ g', may_answer g (Save ctx o) err g' ∧ told w' (tr ++ [Call (Save ctx o) err]) g'.
Proof.
  intros Hle Ht (-> & _) (m & Hs & ->) Hp. eexists. split; [split; [exact Hp|reflexivity]|].
  split; try done.
  - intros o' Ho. simpl in Ho. destruct err as [err|]; [done|]. injection Ho as <-.
    apply store_insert_Some in Hs as [_ ->]. exists (durable timestamptz o). simpl.
    rewrite lookup_insert_eq. split_and!; [done..|]. exists o. split; [|done].
    rewrite saved_of_app, elem_of_app. right. by left.
  - intros _. by rewrite charges_of_app, (told_charges _ _ _ Ht).
Qed.

Lemma told_SaveIfStatus w ctx o expected ans w' tr g :
  world_le w w' → told w tr g → may_call g (SaveIfStatus ctx o expected) →
  port_step timestamptz w (SaveIfStatus ctx o expected) ans w' → plain_option ans.2 →
  ∃ g', may_answer g (SaveIfStatus ctx o expected) ans g' ∧
    told w' (tr ++ [Call (SaveIfStatus ctx o expected) ans]) g'.
Proof.
  intros Hle Ht (prev & Hprev & _ & (Hid & _ & Hitems & _) & _) (m & Hs & ->) Hp.
  pose proof (told_on _ _ tr g _ (SaveIfStatus ctx o expected) ans Hle I Ht) as Hon.
  destruct ans as [updated [err|]]; simpl in Hp; [exists g; by destruct updated|].
  destruct updated; [|by exists g]. exists (store o g). split; [done|].
  destruct Hon as [_ H2 H3 H5 _]. split; [| | |exact H5|done].
  - intros o' [= <-]. simpl. apply store_cas_Some in Hs as (row & Hrow & _ & ->).
    exists (write_status o row). rewrite lookup_insert_eq. split_and!; [done..|]. rewrite Hid in *.
    destruct (told_stored _ _ _ Ht _ Hprev) as (row0 & Hrow0 & _ & Hsaved).
    replace row0 with row in Hsaved by congruence. by eapply is_saved_app.
  - intros o' ans [= <-]. rewrite Hid. by apply H2.
  - intros o' [= <-]. rewrite Hid, Hitems. by apply H3.
Qed.

Lemma told_Charge w ctx req ans w' tr g toks :
  world_ok w toks → NoDup (charged w') → told w tr g → world_le w w' → may_call g (Charge ctx req) →
  port_step timestamptz w (Charge ctx req) ans w' → plain_option ans.2 →
  ∃ g', may_answer g (Charge ctx req) ans g' ∧ told w' (tr ++ [Call (Charge ctx req) ans]) g'.
Proof.
  intros Hw Hnd Ht Hle (Hnone & o & Ho & _ & ->) (p & Hch & ->) Hp.
  rewrite charged_with_charge in Hnd. apply NoDup_app in Hnd as (_ & Hnot & _). simpl in Hnot.
  assert (ID o ∉ charged w) as Hfresh by (intros Hin; by apply (Hnot _ Hin), list_elem_of_singleton).
  pose proof (uncharged _ _ Hw _ Hfresh) as Hun.
  assert (ID o ∈ charged (with_charge p (PaymentRequest.mk (ID o) (CustomerID o) (Total o) (ID o)) w)) as Hin.
  { rewrite charged_with_charge, elem_of_app, list_elem_of_singleton. by right. }
  apply charge_ok in Hch as [_ _ Hans Hrej]. simpl in Hans, Hrej.
  eexists. split; [split; [exact Hp|reflexivity]|]. destruct Ht as [H1 H2 H3 H5 H6]. split; simpl; try done.
  { intros o' Ho'. destruct (H1 _ Ho') as (row & Hrow & Htr & Hsaved). exists row.
    split_and!; [done..|]. by eapply is_saved_app. }
  intros o' ans' Ho' [= <-]. assert (o' = o) as -> by congruence. split_and!; [done|..].
  - intros [Hok Hst]. simpl. apply Hans; [done|]. unfold result_state. by rewrite bool_decide_eq_true_2.
  - intros [Hok Hst]. simpl. apply Hans; [done|]. unfold result_state.
    by rewrite bool_decide_eq_false_2, bool_decide_eq_true_2 by (by rewrite ?Hst).
  - intros (err & Herr & Hdef). split; [|done]. simpl. by rewrite (Hrej err).
Qed.

Lemma told_Reserve w ctx req ans w' tr g :
  world_le w w' → told w tr g → may_call g (Reserve ctx req) →
  port_step timestamptz w (Reserve ctx req) ans w' → plain_option ans →
  ∃ g', may_answer g (Reserve ctx req) ans g' ∧ told w' (tr ++ [Call (Reserve ctx req) ans]) g'.
Proof.
  intros Hle Ht (_ & o & Ho & _ & ->) Hs Hp. simpl in Hs. subst w'. eexists. split; [split; [exact Hp|reflexivity]|].
  destruct (told_on _ _ tr g _ (Reserve ctx (InventoryRequest.mk (ID o) (Items o) (ID o))) ans Hle I Ht)
    as [H1 H2 _ H5 _].
  split; [exact H1|exact H2| |exact H5|done].
  intros o' Ho' Ha. simpl in Ho', Ha. assert (o' = o) as -> by congruence.
  injection Ha as ->. apply elem_of_app, or_intror, list_elem_of_singleton. reflexivity.
Qed.

Lemma told_call w R (e : portE R) r w' tr g toks :
  world_ok w toks → NoDup (charged w') → world_le w w' → told w tr g → may_call g e →
  port_step timestamptz w e r w' → plain_answer e r →
  ∃ g', may_answer g e r g' ∧ told w' (tr ++ [Call e r]) g'.
Proof.
  intros Hw Hnd Hle Ht Hmay Hs Hp.
  assert (∀ g', g' = g → tells_nothing e → may_answer g e r g' →
    ∃ g', may_answer g e r g' ∧ told w' (tr ++ [Call e r]) g') as Hquiet.
  { intros g' -> He Ha. exists g. split; [done|]. by eapply told_on. }
  destruct e; try done; try (by apply (Hquiet g)).
  - by eapply told_Save.
  - by eapply told_SaveIfStatus.
  - apply (Hquiet g); [done..|]. destruct Hs as [Hf ->]. split; [done|].
    destruct r as [[o|] [err|]]; try done. by apply (rows_ok _ _ Hw) in Hf as [].
  - by eapply told_Charge.
  - by eapply told_Reserve.
Qed.

(** *** Its thread in the system *)

(** Steps of the system in which thread [i], not killed, makes the calls [tr]. *)
Inductive observed (i : nat) : sys → list (call portE) → sys → Prop :=
| observed_nothing s : observed i s [] s
| observed_others s1 s2 s3 tr :
    sys_step timestamptz s1 s2 → threads s2 !! i = threads s1 !! i →
    observed i s2 tr s3 → observed i s1 tr s3
| observed_call R (e : portE R) k r w w' ts tr s :
    ts !! i = Some (Vis e k) → port_step timestamptz w e r w' → plain_answer e r →
    observed i (Sys w' (<[i := k r]> ts)) tr s → observed i (Sys w ts) (Call e r :: tr) s.

Lemma observed_steps i s tr s' : observed i s tr s' → rtc (sys_step timestamptz) s s'.
Proof. induction 1; [done|by eapply rtc_l|eapply rtc_l; [by eapply step_call|done]]. Qed.

Lemma sys_ok_world s : sys_ok s → ∃ toks, world_ok (wld s) toks ∧ NoDup (charged (wld s)).
Proof.
  intros (gs & Hw & _). eexists. split; [exact Hw|].
  by destruct (proj1 (NoDup_app _ _) (tokens_once _ _ Hw)) as (_ & _ & ?).
Qed.

Lemma observed_told i s tr s' :
  observed i s tr s' → ∀ p Q g tr0,
  sys_ok s → threads s !! i = Some p → wp tale p Q g → told (wld s) tr0 g →
  ∃ g' p', threads s' !! i = Some p' ∧ wp tale p' Q g' ∧ told (wld s') (tr0 ++ tr) g'.
Proof.
  induction 1 as [s|s1 s2 s3 tr Hst Hth _ IH|R e k r w w' ts tr s Hi Hs Hp _ IH];
    intros p Q g tr0 Hok Hthread Hwp Ht.
  - exists g, p. by rewrite app_nil_r.
  - destruct (sys_step_keeps _ _ _ Hok Hst) as [Hok2 _].
    apply (IH p Q g tr0); [done|by rewrite Hth|done|].
    apply (told_mono (wld s1)); [by apply step_world_le|done].
  - simpl in Hthread, Ht. rewrite Hi in Hthread. injection Hthread as <-. destruct Hwp as [Hmay Hk].
    assert (sys_step timestamptz (Sys w ts) (Sys w' (<[i := k r]> ts))) as Hst by by eapply step_call.
    pose proof (step_world_le _ _ Hok Hst) as Hle. destruct (sys_step_keeps _ _ _ Hok Hst) as [Hok2 _].
    destruct (sys_ok_world _ Hok) as (toks & Hw & _). destruct (sys_ok_world _ Hok2) as (_ & _ & Hnd).
    destruct (told_call _ _ _ _ _ _ _ _ Hw Hnd Hle Ht Hmay Hs Hp) as (g1 & Ha & Ht1).
    destruct (IH (k r) Q g1 (tr0 ++ [Call e r])) as (g' & p' & Hp' & Hwp' & Ht'); [done| |by apply Hk|done|].
    + simpl. apply list_lookup_insert_eq. by eapply lookup_lt_Some.
    + exists g', p'. by rewrite <- app_assoc in Ht'.
Qed.

(** ** What a reply says of the world *)

(** The row is the order that [req] asks for, inserted by one of the calls [tr]. *)
Record own_row (w : world) (req : CreateOrderRequest.t) (tr : list (call portE)) (id : string) (row : Order)
    : Prop := {
  own_stored : db w !! id = Some row;
  own_inserted : id ∈ map ID (saved_of tr);
  own_asked : asked_for req row }.

(** The reply to the request [req] that made the calls [tr], in the world [w]. *)
Inductive reply_holds (w : world) (req : CreateOrderRequest.t) (tr : list (call portE)) : http_reply → Prop :=
(** 201 Created: completed, charged with the reference it carries, reserved *)
| holds_created o row :
    own_row w req tr (ID o) row → Status o = OrderStatusCompleted → Status row = OrderStatusCompleted →
    ledger (prov w) (ID o) = Approved (PaymentReference row) →
    InventoryRequest.mk (ID o) (Items row) (ID o) ∈ confirmed w →
    reply_holds w req tr (writeJSON 201 (orderResponse o))
(** 402 Payment Required: failed, declined *)
| holds_declined o row :
    own_row w req tr (ID o) row → Status o = OrderStatusFailed → Status row = OrderStatusFailed →
    ledger (prov w) (ID o) = Declined → reply_holds w req tr (writeJSON 402 (orderResponse o))
(** 502 Bad Gateway: nothing was charged, and the row does not show as paid *)
| holds_rejected o row :
    own_row w req tr (ID o) row → ¬ settled_paid (Status row) → ID o ∈ charged w →
    ledger (prov w) (ID o) = Untouched → reply_holds w req tr (writeJSON 502 (orderResponse o))
(** 202 Accepted: the order is stored and its charge was sent *)
| holds_accepted o row :
    own_row w req tr (ID o) row → ID o ∈ charged w → reply_holds w req tr (writeJSON 202 (orderResponse o))
(** 400 Bad Request: the request inserted and charged nothing *)
| holds_bad_request text :
    inserts_of tr = [] → charges_of tr = [] → reply_holds w req tr (writeJSON 400 (error_body text))
(** 500: it charged nothing, or the charge of its order was declined *)
| holds_not_saved text :
    charges_of tr = [] → reply_holds w req tr (writeJSON 500 (error_body text))
| holds_decline_not_recorded text id row :
    own_row w req tr id row → ¬ settled_paid (Status row) → ledger (prov w) id = Declined →
    reply_holds w req tr (writeJSON 500 (error_body text)).

Lemma terminal_row s s' :
  s = OrderStatusFailed ∨ s = OrderStatusCompleted → rtc transition s s' → s' = s.
Proof. intros Hs [?|(y & Hst & _)]%rtc_inv; [done|]. by apply (terminal_stuck _ _ Hs) in Hst. Qed.

Lemma saved_inserted tr o : o ∈ saved_of tr → o ∈ inserts_of tr.
Proof.
  intros (c & Hc & Ho)%list_elem_of_omap. apply list_elem_of_omap. exists c. split; [done|].
  destruct c as [R e r]. destruct e; try done. by destruct r.
Qed.

Lemma told_own w req tr g o :
  told w tr g → Forall (asked_for req) (inserts_of tr) → stored g = Some o →
  ∃ row, own_row w req tr (ID o) row ∧ rtc transition (Status o) (Status row).
Proof.
  intros Ht Hask Ho. destruct (told_stored _ _ _ Ht _ Ho) as (row & Hrow & Htr & saved & Hin & Hid & Hc & Hi).
  exists row. split; [|done]. split; [done|rewrite <- Hid; by apply list_elem_of_fmap_2|].
  rewrite Forall_forall in Hask. destruct (Hask saved) as [? ?]; [by apply saved_inserted|].
  split; congruence.
Qed.

Lemma told_reply w toks req tr g reply :
  world_ok w toks → told w tr g → Forall (asked_for req) (inserts_of tr) → reply_tells g reply →
  reply_holds w req tr reply.
Proof.
  intros Hw Ht Hask Hr. pose proof (λ o, told_own _ _ _ _ o Ht Hask) as H1. destruct Ht as [_ H2 H4 H5 H6].
  destruct Hr as [o ans (st & Hst & Hid & Hs) Hc Ha Happ Hres|o ans (st & Hst & Hid & Hs) Hf Ha Hdec _
    |o ans (st & Hst & Hid & Hs) _ Ha Hrej _|o ans (st & Hst & Hid) Ha|text ->|text _ Ha
    |text o ans (st & Hst & Hid & Hs) _ Ha Hdec _];
    try (destruct (H1 _ Hst) as (row & Hown & Htr); pose proof (own_stored _ _ _ _ _ Hown) as Hrow;
         destruct (H2 _ _ Hst Ha) as (Hin & Hap & Hd & Hrf); rewrite <- Hid in *).
  - rewrite <- Hs, Hc in Htr. apply terminal_row in Htr; [|by right].
    specialize (H4 _ Hst Hres). rewrite <- Hid in H4.
    assert (Items st = Items row) as Hitems.
    { destruct (reservations_ok _ _ Hw _ (confirmed_ok _ _ Hw _ H4)) as (_ & _ & row' & Hrow' & Hitems). simpl in Hrow', Hitems.
      by replace row with row' by congruence. }
    rewrite Hitems in H4.
    eapply holds_created; try done. apply (rows_ok _ _ Hw _ _ Hrow). right. by right.
  - rewrite <- Hs, Hf in Htr. apply terminal_row in Htr; [|by left].
    eapply holds_declined; try done. by apply Hd.
  - destruct (Hrf Hrej) as [Hun _]. eapply holds_rejected; try done.
    intros Hp. apply (rows_ok _ _ Hw _ _ Hrow) in Hp. congruence.
  - by eapply holds_accepted.
  - apply holds_bad_request; auto.
  - apply holds_not_saved. auto.
  - specialize (Hd Hdec). eapply holds_decline_not_recorded; try done.
    intros Hp. apply (rows_ok _ _ Hw _ _ Hrow) in Hp. simpl in Hd. congruence.
Qed.

(** A thread inserts only what its program can. *)
Lemma observed_inserts i s tr s' ψ :
  observed i s tr s' → ∀ p, threads s !! i = Some p → calls_ok (@saves ψ) p → Forall ψ (inserts_of tr).
Proof.
  induction 1 as [s|s1 s2 s3 tr Hst Hth _ IH|R e k r w w' ts tr s Hi Hs Hp _ IH]; intros p Hthread Hok.
  - by constructor.
  - apply (IH p); [by rewrite Hth|done].
  - simpl in Hthread. rewrite Hi in Hthread. injection Hthread as <-. destruct Hok as [He Hk].
    assert (Forall ψ (inserts_of tr)) as Hrest.
    { apply (IH (k r)); [|done]. apply list_lookup_insert_eq. by eapply lookup_lt_Some. }
    destruct e; try done. by constructor.
Qed.

(** The thread of an accepted request. *)
Definition request_thread (ctx : Ctx) (req : CreateOrderRequest.t) : prog portE thread_result :=
  reply ← uc_Execute createOrder ctx (Some req); mret (Some reply).

(** A reply can be relied on.  A request runs among any other requests, workers,
retries, crashes and late settlements, and ends with a result that POST /orders turns
into [reply]; then what the status code says holds of the order it asked for, of the
store and of the ledger of the Payment Service, at that moment and in every later state. *)
Theorem replies_can_be_relied_on (s s' s'' : sys) (i : nat) (ctx : Ctx) (req : CreateOrderRequest.t)
    (order : option Order) (err : option error) (reply : http_reply) (tr : list (call portE))
    (Hs : reachable timestamptz s) (request : threads s !! i = Some (request_thread ctx req))
    (runs : observed i s tr s') (ended : threads s' !! i = Some (Ret (Some (order, err))))
    (replied : writeResult order err = mret reply) (later : rtc (sys_step timestamptz) s' s'') :
  reply_holds (wld s'') req tr reply.
Proof.
  pose proof (reachable_ok _ _ Hs) as Hok.
  destruct (observed_told _ _ _ _ runs (request_thread ctx req)
    (λ result g, match result with Some r => ending g r | None => False end) no_story [])
    as (g & p & Hp & Hend & Ht); [done|done| |apply told_nothing|].
  { eapply wp_bind_mono; [apply createOrder_telling|]. by intros. }
  rewrite Hp in ended. injection ended as ->. apply (writeResult_tells (order, err)) in Hend.
  simpl in Hend. rewrite replied in Hend.
  destruct (steps_world_le _ _ Hok (observed_steps _ _ _ _ runs)) as [Hok' _].
  destruct (steps_world_le _ _ Hok' later) as [Hok'' Hle].
  destruct (sys_ok_world _ Hok'') as (toks & Hw & _).
  eapply told_reply; [done|by eapply told_mono| |done].
  eapply observed_inserts; [done|done|]. apply calls_ok_bind; [|intros ?; exact I].
  by apply saves_createOrder.
Qed.
End replies.

(** ** Witness *)

Lemma demo_handler_plain R (e : portE R) w : plain_answer e (demo_handler healthy R e w).1.
Proof.
  destruct e; simpl; try done.
  - destruct (store_insert id (db w) order); [done|apply plain_foreign].
  - by destruct (store_cas (db w) order expected).
  - destruct (db w !! id); simpl; [done|]. apply kinds_wrapf, plain_sentinel. vm_compute. reflexivity.
  - unfold demo_charge. by destruct (ledger_map _ _).
Qed.

Lemma demo_observed i p w ts a w' :
  ts !! i = Some p → run (demo_handler healthy) p w = (Returned a, w') →
  observed (P := gmap string charge_state) id i (Sys w ts) (run_trace (demo_handler healthy) p w)
    (Sys w' (<[i := Ret a]> ts)).
Proof.
  revert w ts. induction p as [b|msg|R e k IH]; intros w ts Hi Hr; simpl in Hr; simplify_eq.
  { rewrite list_insert_id by done. apply observed_nothing. }
  pose proof (demo_handler_ok healthy R e w) as Hs. pose proof (demo_handler_plain R e w) as Hp.
  simpl. destruct (demo_handler healthy R e w) as [r w1]. simpl in Hs, Hp.
  eapply observed_call; [done|done|done|]. rewrite <- (list_insert_insert_eq ts i (Ret a) (k r)).
  apply (IH r); [|done]. apply list_lookup_insert_eq. by eapply lookup_lt_Some.
Qed.

Definition reply_request : CreateOrderRequest.t :=
  match readRequest (one_value (example_body "cust_1")) with
  | inr req => req
  | inl _ => CreateOrderRequest.mk "" "" []
  end.
Definition reply_thread : prog portE thread_result := request_thread demo_ctx reply_request.
Definition reply_run : outcome thread_result * demo_world := run (demo_handler healthy) reply_thread (wld demo_start).
Definition reply_result : option Order * option error :=
  match reply_run.1 with Returned (Some r) => r | _ => (None, None) end.
Definition reply_sent : http_reply :=
  match writeResult reply_result.1 reply_result.2 with Ret reply => reply | _ => writeJSON 0 JNull end.

Example reply_relied_on :
  reply_status reply_sent = 201%Z ∧
  reply_holds (P := gmap string charge_state) reply_run.2 reply_request
    (run_trace (demo_handler healthy) reply_thread (wld demo_start)) reply_sent.
Proof.
  split; [vm_compute; reflexivity|].
  refine (replies_can_be_relied_on id (Sys (wld demo_start) [reply_thread])
    (Sys reply_run.2 [Ret (Some reply_result)]) (Sys reply_run.2 [Ret (Some reply_result)]) 0 demo_ctx reply_request
    reply_result.1 reply_result.2 reply_sent _ _ _ _ _ _ (rtc_refl _ _)).
  - destruct demo_start_reachable as (s0 & ? & ?). exists s0. split; [done|]. eapply rtc_r; [done|].
    apply (step_spawn id reply_thread (wld demo_start) []), request.
  - done.
  - apply (demo_observed 0 reply_thread (wld demo_start) [reply_thread] (Some reply_result) reply_run.2); [done|].
    vm_compute. reflexivity.
  - simpl. by destruct reply_result.
  - vm_compute. reflexivity.
Qed.
