(* ===== verification/Wire.v ===== *)
(** * The adapters on the wire

The ports of the usecases as cmd/orderservice/main.go fills them: the adapters
(internal/repository/postgres, internal/paymentclient, internal/inventoryclient)
over SQL statements and HTTP requests, the deployment whose threads run them, and
the proof that each adapter is atomic: one of its calls has the whole effect of
the port call.  A call of [Do] is recorded with the requests that net/http sent for it
and its answer. *)

From S2P Require Import Prelude GoValues Prog Domain Ports CreateOrder Reconciler Decorators Saves Provider Store Safety System Simulator Recovery Json JsonText Http PaymentClient InventoryClient HttpApi Repository Documents Outcomes Deployment Replies.

(** ** Orders in range *)

(** Go's [int] and [int64] bound what is saved. *)
Definition saves_in_range {R} (e : portE R) : Prop := saves (λ o, items_representable (Items o)) e.

Abbreviation in_range p := (calls_ok (@saves_in_range) p).

(** ** The interface to the outside *)

(** Statements go to the database, requests to the services, the rest (clock,
randomness, contexts, telemetry) stays in the process. *)
Inductive wireE (R : Type) : Type :=
| Local (e : portE R)
| Sql (e : sqlE R)
| Payment (e : httpE R)
| Inventory (e : httpE R).
Arguments Local {R} e.
Arguments Sql {R} e.
Arguments Payment {R} e.
Arguments Inventory {R} e.

Section wire.
Context (timestamptz : Time → Time).
Context (key_order : list (string * json) → list (string * json)).
Context (id_le : relation string) `{!RelDecision id_le}.
Context (key_order_perm : ∀ ms, NoDup ms.*1 → key_order ms ≡ₚ ms).
Context {S : Type} (pc : PaymentClient.Client) `{!PaymentClient.PaymentService S pc}.
Context (ic : InventoryClient.Client).

(** The ports as cmd/orderservice/main.go fills them. *)
Definition adapters : ∀ R, portE R → prog wireE R :=
  λ R e,
  match e in portE R return prog wireE R with
  | Save ctx o => interp (λ _ e, trigger (Sql e)) (repo_Save ctx o)
  | SaveIfStatus ctx o expected => interp (λ _ e, trigger (Sql e)) (repo_SaveIfStatus ctx o expected)
  | FindByID ctx id => interp (λ _ e, trigger (Sql e)) (repo_FindByID ctx id)
  | ListRecoverableIDs ctx afterID olderThan limit =>
      interp (λ _ e, trigger (Sql e)) (repo_ListRecoverableIDs ctx afterID olderThan limit)
  | Charge ctx req => interp (λ _ e, trigger (Payment e)) (PaymentClient.Charge pc ctx req)
  | LookupCharge ctx key => interp (λ _ e, trigger (Payment e)) (PaymentClient.LookupCharge pc ctx key)
  | Reserve ctx req => interp (λ _ e, trigger (Inventory e)) (InventoryClient.Reserve ic ctx req)
  | e => trigger (Local e)
  end.

(** The table, the Payment Service, and what was submitted to the services: each call
of [Do], with the requests that were sent for it. *)
Record outside := mkOutside {
  orders : gmap string orow;
  service : S;
  payment_requests : list submission;
  inventory_requests : list submission }.

(** The Inventory Service may answer anything. *)
Definition any_answer (_ : unit) (_ : http_request) (_ : http_response + error) (_ : unit) : Prop := True.

(** One statement, or one call of [Do]. *)
Definition wire_step (w : outside) {R} (e : wireE R) : R → outside → Prop :=
  match e with
  | Local _ => λ _ w', w' = w
  | Sql e => λ r w', ∃ t, sql_step timestamptz key_order id_le (orders w) e r t ∧
      w' = mkOutside t (service w) (payment_requests w) (inventory_requests w)
  | Payment e =>
      match e in httpE R return R → outside → Prop with
      | NewRequest _ _ _ => λ _ w', w' = w
      | Do _ req => λ ans w', ∃ sent s, sends PaymentClient.exchange req (service w) sent ans s ∧
          w' = mkOutside (orders w) s (payment_requests w ++ [mkSubmission req sent ans]) (inventory_requests w)
      | Discard _ | CloseBody => λ _ w', w' = w
      end
  | Inventory e =>
      match e in httpE R return R → outside → Prop with
      | NewRequest _ _ _ => λ _ w', w' = w
      | Do _ req => λ ans w', ∃ sent, sends any_answer req tt sent ans tt ∧
          w' = mkOutside (orders w) (service w) (payment_requests w)
                 (inventory_requests w ++ [mkSubmission req sent ans])
      | Discard _ | CloseBody => λ _ w', w' = w
      end
  end.

(** An answer that does its part for the order [x]: the context is not done, no
statement about the order fails, the scan delivers its rows and starts at a cutoff
that the order is old enough for, requests can be built, the lookup of its charge
is answered with an outcome and its reservation with success. *)
Definition wire_well (x : string) (w : outside) {R} (e : wireE R) : R → Prop :=
  match e with
  | Local e =>
      match e in portE R return R → Prop with ctx_Err _ => λ ans, ans = None | _ => λ _, True end
  | Sql e =>
      match e in sqlE R return R → Prop with
      | SelectOrder _ id => λ ans, id = x → ∃ row, ans = inl row
      | UpdateIfStatus _ id _ _ _ => λ ans, id = x → ∃ n, ans = ((n, None), None)
      | SelectRecoverable _ _ olderThan _ => λ ans,
          ∃ rs, ans = (rs, None) ∧ (∀ err, inr err ∉ scans rs) ∧ rows_Err rs = None ∧
            ∀ row, orders w !! x = Some row → (c_created_at row <= timestamptz olderThan)%Z
      | _ => λ _, True
      end
  | Payment e =>
      match e in httpE R return R → Prop with
      | NewRequest _ _ _ => λ ans, ans = None
      | Do _ req => λ ans, req = PaymentClient.lookup_http pc x →
          ∃ resp r, ans = inl resp ∧ success_code (StatusCode resp) = true ∧
            PaymentClient.decodeChargeResponse (ResponseBody resp) = (r, None)
      | _ => λ _, True
      end
  | Inventory e =>
      match e in httpE R return R → Prop with
      | NewRequest _ _ _ => λ ans, ans = None
      | Do _ req => λ ans, ("Idempotency-Key", x) ∈ Header req →
          ∃ resp, ans = inl resp ∧ success_code (StatusCode resp) = true
      | _ => λ _, True
      end
  end.

(** An answer whose errors are none of the usecase's own (Deployment.v). *)
Definition wire_plain {R} (e : wireE R) : R → Prop :=
  match e with
  | Local e => plain_answer e
  | Sql e => λ r, answers plain_sql tt e r tt
  | Payment e | Inventory e => λ r, answers plain_http tt e r tt
  end.

Record deployment := mkDeployment {
  out : outside;
  running : list (prog wireE thread_result) }.

(** The same threads, over the adapters; a request is whatever the endpoint reads
from the bytes of a body. *)
Inductive deployable : prog portE thread_result → Prop :=
| deploy_request ctx syntax_error failure text req :
    read_bytes syntax_error failure text = inr req →
    deployable (reply ← uc_Execute createOrder ctx (Some req); mret (Some reply))
| deploy_worker ctx r ticks : deployable (_ ← Run ctx r ticks; mret None)
| deploy_operator ctx id : deployable (_ ← ReconcileOrder ctx id; mret None).

Inductive deployed_step : deployment → deployment → Prop :=
| deployed_call i R (e : wireE R) k r w w' ts :
    ts !! i = Some (Vis e k) → wire_step w e r w' →
    deployed_step (mkDeployment w ts) (mkDeployment w' (<[i := k r]> ts))
| deployed_spawn p w ts :
    deployable p → deployed_step (mkDeployment w ts) (mkDeployment w (ts ++ [interp adapters p]))
| deployed_crash i w ts : deployed_step (mkDeployment w ts) (mkDeployment w (<[i := Ret None]> ts))
| deployed_settle w s ts :
    PaymentClient.svc_settle (service w) s →
    deployed_step (mkDeployment w ts)
      (mkDeployment (mkOutside (orders w) s (payment_requests w) (inventory_requests w)) ts).

(** Migrated, and nothing served yet. *)
Definition fresh (d : deployment) : Prop :=
  orders (out d) = ∅ ∧ payment_requests (out d) = [] ∧ inventory_requests (out d) = [] ∧
  running d = [] ∧ ∀ k, PaymentClient.svc_ledger (service (out d)) k = Untouched.

Definition deployed_reachable (d : deployment) : Prop := ∃ d0, fresh d0 ∧ rtc deployed_step d0 d.

(** ** Simulation *)

Definition is_post (r : http_request) : Prop := Method r = MethodPost.
#[global] Instance is_post_dec r : Decision (is_post r).
Proof. unfold is_post. apply _. Defined.

(** The world of System.v that an outside stands for.  A port call counts as a
charge or a reservation even if its request could not be built. *)
Record stands_for (o : outside) (w : world (P := S)) : Prop := {
  table_readable : table_ok (orders o);
  same_orders : db w = abs (orders o);
  same_provider : prov w = service o;
  posts_charged :
    filter is_post (map submitted (payment_requests o)) `sublist_of`
      map (PaymentClient.charge_http pc) (charges w);
  requests_reserved :
    map submitted (inventory_requests o) `sublist_of` map (InventoryClient.reserve_http ic) (reservations w);
  confirmed_acknowledged req : req ∈ confirmed w →
    ∃ x, x ∈ inventory_requests o ∧ submitted x = InventoryClient.reserve_http ic req ∧ acknowledged x;
  only_transmits : Forall transmits (payment_requests o) ∧ Forall transmits (inventory_requests o) }.

(** Ids are kept in a total order. *)
Definition collates : Prop := PartialOrder id_le ∧ base.Total id_le.

(** The answer [a] to the port call [e] amounts to a step of System.v, and is a good
one for an order if [r] was the good answer to [f]. *)
Definition simulated_in_world {R X} (e : portE R) (a : R) (f : wireE X) (r : X) (o o' : outside) : Prop :=
  ∀ w, stands_for o w → ∃ w', port_step timestamptz w e a w' ∧ stands_for o' w' ∧
    (collates → ∀ x, wire_well x o f r → served_well timestamptz id_le x w e a).

(** ... and without an error of the usecase if [r] was. *)
Definition simulated {R X} (e : portE R) (a : R) (f : wireE X) (r : X) (o o' : outside) : Prop :=
  (wire_plain f r → plain_answer e a) ∧ simulated_in_world e a f r o o'.

(** The rest of an adapter once it has its result: calls that change nothing. *)
Fixpoint winds_down {R} (a : R) (q : prog wireE R) : Prop :=
  match q with
  | Ret b => b = a
  | Panic _ => False
  | Vis f k => ∀ o r o', wire_step o f r o' → o' = o ∧ winds_down a (k r)
  end.

(** In the run [q] of an adapter for [e], one call has the effect of the whole port
call; the ones before it and after it change nothing. *)
Fixpoint atomic {R} (e : portE R) (q : prog wireE R) : Prop :=
  match q with
  | Ret _ | Panic _ => False
  | Vis f k =>
      ∀ o r o', table_ok (orders o) → wire_step o f r o' →
        (∃ a, winds_down a (k r) ∧ simulated e a f r o o') ∨ (o' = o ∧ atomic e (k r))
  end.

(** ** The adapters are atomic *)

#[local] Arguments prog_bind : simpl nomatch.

(** A statement, and then at most the closing of its cursor. *)
Definition closes {R} (a : R) (q : prog sqlE R) : Prop :=
  q = Ret a ∨ q = (_ ← trigger CloseRows; mret a).

Lemma closes_winds_down {R} (a : R) q : closes a q → winds_down a (interp (λ _ e, trigger (Sql e)) q).
Proof. intros [->| ->]; [done|]. intros o r o' (t & -> & ->). by destruct o. Qed.

Lemma closes_wp {R} (a : R) q Q t :
  closes a q → wp (sql timestamptz key_order id_le) q Q t → Q a t.
Proof. intros [->| ->]; [done|]. intros [_ Hk]. by apply (Hk tt t). Qed.

Lemma closes_cursor {R} (a b : R) : closes a (_ ← trigger CloseRows; mret b) → a = b.
Proof.
  intros [Hq|Hq]; [done|].
  apply (f_equal (λ q : prog sqlE R, match q with
    | Vis e k =>
        match e in sqlE X return (X → prog sqlE R) → option R with
        | CloseRows => λ k, match k tt with Ret r => Some r | _ => None end
        | _ => λ _, None
        end k
    | _ => None
    end)) in Hq. by injection Hq as <-.
Qed.

Lemma atomic_sql {R X} (e : portE R) (f : sqlE X) k (Q : gmap string orow → R → gmap string orow → Prop) :
  (∀ r, ∃ a, closes a (k r)) →
  (∀ t, table_ok t → wp (sql timestamptz key_order id_le) (Vis f k) (Q t) t) →
  (∀ t a t' (w : world (P := S)), Q t a t' → db w = abs t →
     table_ok t' ∧ port_step timestamptz w e a (with_db (abs t') w)) →
  wp plain_sql (Vis f k) (λ a _, plain_answer e a) tt →
  (∀ o w r a t, stands_for o w → closes a (k r) → sql_step timestamptz key_order id_le (orders o) f r t →
     collates → ∀ x, wire_well x o (Sql f) r → served_well timestamptz id_le x w e a) →
  atomic e (interp (λ _ e, trigger (Sql e)) (Vis f k)).
Proof.
  intros Hret Hwp HQ [_ Hplain] Hwell o r o' Hok (t' & Hstep & ->). left. destruct (Hret r) as [a Ha]. exists a.
  split; [by apply closes_winds_down|]. split.
  { intros Hr. specialize (Hplain r tt Hr). destruct Ha as [Ha|Ha]; rewrite Ha in Hplain; [exact Hplain|].
    destruct Hplain as [_ Hk]. exact (Hk tt tt I). }
  intros w Hw. destruct (Hwp _ Hok) as [_ Hk].
  specialize (Hk r t' Hstep). apply (closes_wp a) in Hk; [|done].
  destruct (HQ _ _ _ w Hk (same_orders _ _ Hw)) as [Hok' Hport].
  exists (with_db (abs t') w). split_and!; [done|by destruct Hw|]. eauto.
Qed.

Lemma atomic_Save ctx o : items_representable (Items o) → atomic (Save ctx o) (adapters _ (Save ctx o)).
Proof.
  intros Hi. eapply (atomic_sql _ _ _ (λ t err t', table_ok t' ∧ save_spec timestamptz (abs t) o err (abs t'))).
  - intros [err|]; eexists; by left.
  - intros t Ht. by apply repo_Save_spec.
  - intros t a t' w [? ?] Hw. split; [done|]. simpl. rewrite Hw. by eauto.
  - apply Save_plain.
  - done.
Qed.

Lemma atomic_SaveIfStatus ctx o expected :
  atomic (SaveIfStatus ctx o expected) (adapters _ (SaveIfStatus ctx o expected)).
Proof.
  eapply (atomic_sql _ _ _ (λ t ans t', table_ok t' ∧ cas_spec (abs t) o expected ans (abs t'))).
  - intros [[n [err|]] [err'|]]; eexists; by left.
  - intros t Ht. by apply repo_SaveIfStatus_spec.
  - intros t a t' w [? ?] Hw. split; [done|]. simpl. rewrite Hw. by eauto.
  - apply SaveIfStatus_plain.
  - intros o1 w r a t _ Ha _ _ x Hw Hx. destruct (Hw Hx) as [n ->]. simpl in Ha.
    by destruct Ha as [[= <-]|Ha].
Qed.

Lemma with_db_id (w : world (P := S)) m : db w = m → with_db m w = w.
Proof. intros <-. by destruct w. Qed.

Lemma atomic_FindByID ctx id : atomic (FindByID ctx id) (adapters _ (FindByID ctx id)).
Proof.
  eapply (atomic_sql _ _ _ (λ t ans t', table_ok t ∧ t' = t ∧ find_spec (abs t) id ans)).
  - intros [[oid row]|err]; [destruct (unmarshal_items _) eqn:Hu|destruct (errors_Is _ _) eqn:He];
      eexists; left; simpl; by rewrite ?Hu, ?He.
  - intros t Ht. eapply wp_mono; [by apply repo_FindByID_spec|]. by intros a t' [? ?].
  - intros t a t' w (? & -> & ?) Hw. split; [done|]. simpl. rewrite Hw, with_db_id by done. done.
  - apply FindByID_plain.
  - intros o w r a t Hs Ha [_ Hstep] _ x Hw Hx. destruct (Hw Hx) as [[id' row] ->].
    destruct Hstep as [-> Hrow]. destruct (table_readable _ _ Hs _ _ Hrow) as [_ [order Ho]].
    unfold row_order in Ho. simpl in Ha. destruct (unmarshal_items _); [|done].
    by destruct Ha as [Ha|Ha]; [injection Ha as <-|].
Qed.

Lemma atomic_ListRecoverableIDs ctx afterID olderThan limit :
  atomic (ListRecoverableIDs ctx afterID olderThan limit)
    (adapters _ (ListRecoverableIDs ctx afterID olderThan limit)).
Proof.
  eapply (atomic_sql _ _ _ (λ t _ t', table_ok t ∧ t' = t)).
  - intros [rs [err|]]; eexists; [by left|by right].
  - intros t Ht. apply wp_trigger; [done|]. intros [rs err] t' [-> _].
    destruct err; [done|]. apply wp_trigger; [done|]. by intros [] t' ->.
  - intros t a t' w (? & ->) Hw. split; [done|]. simpl. by rewrite with_db_id.
  - apply wp_trigger; [done|]. intros [rs err] [] _. destruct err; [done|].
    apply wp_trigger; [done|]. by intros [] [] _.
  - intros o w r a t Hs Ha [_ Hrs] [? ?] x (rs & -> & Hscan & Herr & Hold). simpl in Hrs, Ha.
    specialize (Hrs Hscan Herr). rewrite Hrs, scan_ids_ok, Herr in Ha.
    apply closes_cursor in Ha as ->.
    exists (page timestamptz id_le (orders o) afterID olderThan limit). split; [done|].
    rewrite (same_orders _ _ Hs). split; [apply page_list_spec; try done; by destruct Hs|].
    intros order Ho. rewrite abs_lookup in Ho. apply bind_Some in Ho as (row & Hrow & Ho).
    apply row_order_fields in Ho as [_ ->]. by apply Hold.
Qed.

(** A client that has its answer: its result, and the body to close. *)
Definition finishes {R} (ans : http_response + error) (a : R) : prog httpE R :=
  match ans with inl _ => closing a | inr _ => Ret a end.

Lemma exec_finishes {R} ans (a : R) : exec (finishes ans a) (closed ans) (Returned a).
Proof. destruct ans; simpl; [by apply exec_closing|by right]. Qed.

Lemma follows_closed {T} (exch : T → http_request → http_response + error → T → Prop) ans s :
  follows (Http.wire exch) s (closed ans) s.
Proof. destruct ans; simpl; [by do 2 (eexists; split; [done|])|done]. Qed.

Lemma finishes_wp {R} ans (a : R) Q : wp plain_http (finishes ans a) (λ a _, Q a) tt → Q a.
Proof.
  destruct ans; [|done]. intros [_ Hd]. destruct (Hd tt tt I) as [_ Hc]. exact (Hc tt tt I).
Qed.

Section client.
Context (lift : ∀ R, httpE R → wireE R).
Context (plainly : ∀ R (f : httpE R) r, wire_plain (lift _ f) r → answers plain_http tt f r tt).
Context (idle : ∀ o R (f : httpE R) r o', wire_step o (lift _ f) r o' →
  match f with Do _ _ => True | _ => o' = o end).

Lemma finishes_winds_down {R} ans (a : R) : winds_down a (interp (λ _ e, trigger (lift _ e)) (finishes ans a)).
Proof.
  destruct ans; [|done]. intros o r o' ->%idle. split; [done|]. by intros o1 r1 o1' ->%idle.
Qed.

(** A client builds one request, sends it and finishes. *)
Lemma atomic_http {R} (e : portE R) ctx method url k req k2 :
  wp plain_http (Vis (NewRequest ctx method url) k) (λ a _, plain_answer e a) tt →
  (∀ err, ∃ a, k (Some err) = Ret a ∧
     ∀ o, simulated_in_world e a (lift _ (NewRequest ctx method url)) (Some err) o o) →
  k None = Vis (Do ctx req) k2 →
  (∀ ans, ∃ a, k2 ans = finishes ans a ∧
     ∀ o o', wire_step o (lift _ (Do ctx req)) ans o' → simulated_in_world e a (lift _ (Do ctx req)) ans o o') →
  atomic e (interp (λ _ e, trigger (lift _ e)) (Vis (NewRequest ctx method url) k)).
Proof.
  intros [_ Hplain] Hbuild Hsend Hsent o r o' _ ->%idle. destruct r as [err|].
  - left. destruct (Hbuild err) as (a & Ha & Hsim). exists a. split; [simpl; by rewrite Ha|].
    split; [|done]. intros Hr%plainly. specialize (Hplain (Some err) tt Hr). by rewrite Ha in Hplain.
  - right. split; [done|]. simpl. rewrite Hsend. intros o1 ans o2 _ Hstep. left.
    destruct (Hsent ans) as (a & Ha & Hsim). exists a. split; [simpl; rewrite Ha; apply finishes_winds_down|].
    split; [|by apply Hsim]. intros Hr%plainly. specialize (Hplain None tt I).
    rewrite Hsend in Hplain. destruct Hplain as [_ Hplain]. specialize (Hplain ans tt Hr).
    rewrite Ha in Hplain. by apply finishes_wp in Hplain.
Qed.
End client.

(** The runs of a client on the wire. *)
Lemma client_run {T R} (exch : T → http_request → http_response + error → T → Prop) ctx method url
    (k : option error → prog httpE R) req k2 ans a s s' :
  k None = Vis (Do ctx req) k2 → k2 ans = finishes ans a → exch s req ans s' →
  ∃ tr, exec (Vis (NewRequest ctx method url) k) tr (Returned a) ∧ follows (Http.wire exch) s tr s'.
Proof.
  intros Hk Hk2 Hx. exists ([Call (NewRequest ctx method url) None; Call (Do ctx req) ans] ++ closed ans).
  split.
  - run_step. rewrite Hk. run_step. rewrite Hk2. apply exec_finishes.
  - exists s. split; [done|]. exists s'. split; [done|]. apply follows_closed.
Qed.

Lemma client_unbuilt {T R} (exch : T → http_request → http_response + error → T → Prop) ctx method url
    (k : option error → prog httpE R) err a s :
  k (Some err) = Ret a →
  ∃ tr, exec (Vis (NewRequest ctx method url) k) tr (Returned a) ∧ follows (Http.wire exch) s tr s.
Proof.
  intros Hk. exists [Call (NewRequest ctx method url) (Some err)].
  split; [run_step; rewrite Hk; by right|by exists s].
Qed.

Lemma idle_payment o R (f : httpE R) r o' :
  wire_step o (Payment f) r o' → match f with Do _ _ => True | _ => o' = o end.
Proof. by destruct f. Qed.

Lemma idle_inventory o R (f : httpE R) r o' :
  wire_step o (Inventory f) r o' → match f with Do _ _ => True | _ => o' = o end.
Proof. by destruct f. Qed.

(** What the clients return for an answer. *)
Definition charge_reply (ans : http_response + error) : PaymentResult.t * option error :=
  match ans with
  | inr err => (PaymentResult.zero, Some (wrapf "call payment service: " err))
  | inl resp =>
      if success_code (StatusCode resp) then PaymentClient.decodeChargeResponse (ResponseBody resp)
      else (PaymentResult.zero, Some (HTTPStatusError PaymentAdapter (StatusCode resp)))
  end.

Definition lookup_reply (ans : http_response + error) : PaymentResult.t * bool * option error :=
  match ans with
  | inr err => (PaymentResult.zero, false, Some (wrapf "look up payment charge: " err))
  | inl resp =>
      if ⟦StatusCode resp = 404%Z⟧ then (PaymentResult.zero, false, None)
      else if success_code (StatusCode resp) then
        match PaymentClient.decodeChargeResponse (ResponseBody resp) with
        | (result, None) => (result, true, None)
        | (_, Some err) => (PaymentResult.zero, false, Some err)
        end
      else (PaymentResult.zero, false, Some (HTTPStatusError PaymentAdapter (StatusCode resp)))
  end.

Definition reserve_reply (ans : http_response + error) : option error :=
  match ans with
  | inr err => Some (wrapf "call inventory service: " err)
  | inl resp =>
      if success_code (StatusCode resp) then None
      else Some (HTTPStatusError InventoryAdapter (StatusCode resp))
  end.

(** Another submission of a client. *)
Lemma transmits_app {T} (exch : T → http_request → http_response + error → T → Prop) l req s sent ans s' :
  Forall transmits l → sends exch req s sent ans s' → Forall transmits (l ++ [mkSubmission req sent ans]).
Proof.
  intros Hl Hx. apply Forall_app. split; [done|]. apply Forall_singleton. by eapply sends_transmissions.
Qed.

Lemma atomic_Charge ctx req : atomic (Charge ctx req) (adapters _ (Charge ctx req)).
Proof.
  assert (∀ o w s, stands_for o w → stands_for (mkOutside (orders o) s (payment_requests o) (inventory_requests o))
    (with_charge s req w)) as Hunsent.
  { intros o w s [? ? ? Hposts ? ? ?]. split; try done. simpl. rewrite map_app. by apply sublist_inserts_r. }
  eapply (atomic_http (λ R e, Payment e) (λ _ _ _ Hr, Hr) idle_payment); [apply Charge_plain| |done|].
  - intros err. eexists. split; [done|]. intros o w Hw.
    exists (with_charge (service o) req w). split; [|split; [|done]].
    + exists (service o). split; [|done]. exists ctx. rewrite (same_provider _ _ Hw). by eapply client_unbuilt.
    + specialize (Hunsent _ _ (service o) Hw). by destruct o.
  - intros ans. exists (charge_reply ans).
    match goal with |- ?q = finishes _ _ ∧ _ => assert (q = finishes ans (charge_reply ans)) as Hfin end.
    { destruct ans as [resp|err]; [|done]. simpl. by destruct (success_code _). }
    split; [exact Hfin|]. intros o o' (sent & s & Hx & ->) w Hw.
    exists (with_charge s req w). split; [|split; [|done]].
    + exists s. split; [|done]. exists ctx. rewrite (same_provider _ _ Hw).
      eapply client_run; [reflexivity|exact Hfin|by exists sent].
    + destruct Hw as [? ? ? Hposts ? ? [? ?]]. split; try done; simpl.
      * rewrite !map_app, filter_app. by apply sublist_app.
      * split; [by eapply transmits_app|done].
Qed.

(** Nothing is asked of the errors of a lookup. *)
Lemma LookupCharge_plain ctx key :
  wp plain_http (PaymentClient.LookupCharge pc ctx key) (λ ans _, plain_answer (LookupCharge ctx key) ans) tt.
Proof.
  apply wp_trigger; [done|]. intros [err|] [] _; [done|].
  apply wp_trigger; [done|]. intros [resp|err] [] _; [|done].
  repeat (case_match; try (apply wp_closing; [by intros ? []|by intros ? [] [] ? []|done])).
Qed.

Lemma atomic_LookupCharge ctx key : atomic (LookupCharge ctx key) (adapters _ (LookupCharge ctx key)).
Proof.
  eapply (atomic_http (λ R e, Payment e) (λ _ _ _ Hr, Hr) idle_payment); [apply LookupCharge_plain| |done|].
  - intros err. eexists. split; [done|]. intros o w Hw. exists w. split; [|split; [done|]].
    + exists (service o). rewrite <- (same_provider _ _ Hw). split; [|by destruct w].
      exists ctx. by eapply client_unbuilt.
    + intros _ x Hbuilt. discriminate Hbuilt.
  - intros ans. exists (lookup_reply ans).
    match goal with |- ?q = finishes _ _ ∧ _ => assert (q = finishes ans (lookup_reply ans)) as Hfin end.
    { destruct ans as [resp|err]; [|done]. simpl. case_bool_decide; [done|].
      destruct (success_code _); [|done]. by destruct (PaymentClient.decodeChargeResponse _) as [? []]. }
    split; [exact Hfin|]. intros o o' (sent & s & Hx & ->) w Hw.
    exists (with_prov s w). split; [|split].
    + exists s. split; [|done]. exists ctx. rewrite (same_provider _ _ Hw).
      eapply client_run; [reflexivity|exact Hfin|by exists sent].
    + destruct Hw as [? ? ? Hposts ? ? [? ?]]. split; try done; simpl.
      * rewrite map_app, filter_app. by rewrite app_nil_r.
      * split; [by eapply transmits_app|done].
    + intros _ x Hwell ->. destruct (Hwell eq_refl) as (resp & r & -> & Hcode & Hd).
      exists r. simpl. rewrite Hcode, Hd.
      rewrite bool_decide_eq_false_2 by (by intros H404; rewrite H404 in Hcode). split; [done|].
      pose proof (PaymentClient.decodeChargeResponse_cases (ResponseBody resp)) as Hcases.
      rewrite Hd in Hcases. unfold result_state. destruct Hcases as [[-> _]| ->]; by eexists.
Qed.

Lemma atomic_Reserve ctx req : atomic (Reserve ctx req) (adapters _ (Reserve ctx req)).
Proof.
  eapply (atomic_http (λ R e, Inventory e) (λ _ _ _ Hr, Hr) idle_inventory); [apply Reserve_plain| |done|].
  - intros err. eexists. split; [done|]. intros o w [? ? ? ? Hreq Hconf ?].
    eexists. split; [reflexivity|]. split.
    + split; try done; simpl; [rewrite map_app; by apply sublist_inserts_r|].
      rewrite app_nil_r. exact Hconf.
    + intros _ x Hbuilt. discriminate Hbuilt.
  - intros ans. exists (reserve_reply ans). split.
    { destruct ans as [resp|err]; [|done]. simpl. by destruct (success_code _). }
    intros o o' (sent & Hx & ->) w [? ? ? ? Hreq Hconf [? ?]].
    eexists. split; [reflexivity|]. split.
    + split; try done; simpl.
      * rewrite !map_app. by apply sublist_app.
      * intros req' [Hin|Hin]%elem_of_app.
        { destruct (Hconf _ Hin) as (x & Hx' & ?). exists x. split; [|done]. apply elem_of_app. by left. }
        exists (mkSubmission (InventoryClient.reserve_http ic req) sent ans). split; [apply elem_of_app; right; by left|].
        destruct ans as [resp|err]; simpl in Hin; [|by apply elem_of_nil in Hin].
        destruct (success_code _) eqn:Hcode; [|by apply elem_of_nil in Hin].
        apply list_elem_of_singleton in Hin as ->. done.
      * split; [done|by eapply transmits_app].
    + intros _ x Hwell <-. destruct Hwell as (resp & -> & Hcode); [|simpl; by rewrite Hcode].
      simpl. rewrite !elem_of_cons. by do 2 right; left.
Qed.

Lemma local_atomic {R} (e : portE R) :
  (∀ (w : world (P := S)) r, port_step timestamptz w e r w) →
  (∀ o (w : world (P := S)) r x, wire_well x o (Local e) r → served_well timestamptz id_le x w e r) →
  atomic e (trigger (Local e)).
Proof.
  intros Hport Hwell o r o' _ Hs. assert (o' = o) as -> by exact Hs. left. exists r. split; [done|].
  split; [done|]. intros w Hw. exists w.
  split_and!; [by apply Hport|done|]. intros _ x. exact (Hwell o w r x).
Qed.

Lemma adapters_atomic {R} (e : portE R) : saves_in_range e → atomic e (adapters _ e).
Proof.
  intros He. destruct e; try (apply local_atomic; [done|]; by intros o w r x).
  - by apply atomic_Save.
  - apply atomic_SaveIfStatus.
  - apply atomic_FindByID.
  - apply atomic_ListRecoverableIDs.
  - apply atomic_Charge.
  - apply atomic_LookupCharge.
  - apply atomic_Reserve.
Qed.
End wire.
