(* ===== verification/EndToEnd.v ===== *)
(** * The deployed system

The system of System.v once more, now down to the wire: threads run the adapters
(internal/repository/postgres, internal/paymentclient, internal/inventoryclient)
and interleave statement by statement and request by request over the orders
table and the Payment Service.  It refines System.v, so what holds there of the
store and of the ports holds here of rows and of HTTP requests. *)

From S2P Require Import Prelude GoValues Prog Domain Ports CreateOrder Reconciler Decorators Saves Provider Store Safety System Simulator Recovery Json JsonText Http PaymentClient InventoryClient HttpApi Repository Documents Wire.

Section deployed.
Context (timestamptz : Time → Time).
Context (key_order : list (string * json) → list (string * json)).
Context (id_le : relation string) `{!RelDecision id_le}.
Context (key_order_perm : ∀ ms, NoDup ms.*1 → key_order ms ≡ₚ ms).
Context {S : Type} (pc : PaymentClient.Client) `{!PaymentClient.PaymentService S pc}.
Context (ic : InventoryClient.Client).

(** ** The deployment refines the system *)

Abbreviation outside := (outside (S := S)).
Abbreviation deployment := (deployment (S := S)).
Abbreviation adapters := (adapters pc ic).
Abbreviation wire_step := (wire_step timestamptz key_order id_le pc).
Abbreviation wire_well := (wire_well timestamptz pc).
Abbreviation stands_for := (stands_for pc ic).
Abbreviation fresh := (fresh pc).
Abbreviation winds_down := (winds_down timestamptz key_order id_le pc).
Abbreviation simulated := (simulated timestamptz id_le pc ic).
Abbreviation atomic := (atomic timestamptz key_order id_le pc ic).
Abbreviation deployed_step := (deployed_step timestamptz key_order id_le pc ic).
Abbreviation deployed_reachable := (deployed_reachable timestamptz key_order id_le pc ic).

(** A thread inside the adapter of a port call, or past the call that had its effect. *)
Inductive simulates : prog wireE thread_result → prog portE thread_result → Prop :=
| inside_call R (e : portE R) k q :
    (∀ r, in_range (k r)) → atomic e q →
    simulates (q ≫= (λ r, interp adapters (k r))) (Vis e k)
| after_call R (a : R) k q :
    in_range (k a) → winds_down a q →
    simulates (q ≫= (λ r, interp adapters (k r))) (k a).

Lemma between_calls p : in_range p → simulates (interp adapters p) p.
Proof. intros Hp. by apply (after_call () tt (λ _, p) (Ret tt)). Qed.

Definition refines (d : deployment) (s : sys (P := S)) : Prop :=
  stands_for (out d) (wld s) ∧ Forall2 simulates (running d) (threads s).

(** A call of a thread changes nothing, or is the call that has the effect of the
port call of the thread it stands for. *)
Definition call_simulated {X} (f : wireE X) (kd : X → prog wireE thread_result)
    (ps : prog portE thread_result) : Prop :=
  ∀ o r o', table_ok (orders o) → wire_step o f r o' →
    o' = o ∧ simulates (kd r) ps ∨
    ∃ R (e : portE R) k a, ps = Vis e k ∧ simulated e a f r o o' ∧ simulates (kd r) (k a).

Lemma simulated_inside {R X} (e : portE R) k (f : wireE X) kq :
  (∀ r, in_range (k r)) → atomic e (Vis f kq) →
  call_simulated f (λ x, kq x ≫= (λ r, interp adapters (k r))) (Vis e k).
Proof.
  intros Hk Hq o r o' Hok Hstep. destruct (Hq o r o' Hok Hstep) as [(a & Ha & Hsim)|[-> Hq']].
  - right. exists R, e, k, a. split_and!; [done..|]. by apply after_call.
  - left. split; [done|]. by apply inside_call.
Qed.

Lemma simulated_between p :
  in_range p → match interp adapters p with Vis f kd => call_simulated f kd p | _ => True end.
Proof.
  destruct p as [a|msg|R e k]; [done..|]. intros [He Hk]. cbn [interp].
  pose proof (adapters_atomic timestamptz key_order id_le key_order_perm pc ic e He) as Ha.
  destruct (adapters R e) as [?|?|X f kq]; [done..|]. by apply (simulated_inside e k f kq).
Qed.

Lemma simulated_call pd ps :
  simulates pd ps → match pd with Vis f kd => call_simulated f kd ps | _ => True end.
Proof.
  intros [R e k [a|msg|X f kq] Hk Hq|R a k [b|msg|X f kq] Hk Hq]; try done.
  - by apply (simulated_inside e k f kq).
  - simpl in Hq. subst b. by apply simulated_between.
  - intros o r o' _ Hstep. destruct (Hq _ _ _ Hstep) as [-> Hq']. left.
    split; [done|]. by apply after_call.
Qed.

Lemma deployable_spawnable p : deployable p → spawnable p ∧ in_range p.
Proof.
  intros [ctx syntax_error failure text req Hreq|ctx r ticks|ctx id]; (split; [constructor|]);
    (apply calls_ok_bind; [|intros ?; exact I]).
  - apply (saves_createOrder (λ o, items_representable (Items o))). intros o [_ ->].
    by eapply accepted_representable.
  - apply saves_Run.
  - apply saves_ReconcileOrder.
Qed.

(** A thread that has nothing left to do. *)
Lemma interp_ended (p : prog portE thread_result) a : in_range p → interp adapters p = Ret a → p = Ret a.
Proof.
  destruct p as [b|msg|R e k]; simpl; [congruence|done|]. intros [He _].
  pose proof (adapters_atomic timestamptz key_order id_le key_order_perm pc ic e He) as Ha.
  by destruct (adapters R e).
Qed.

Lemma simulates_ended pd ps : simulates pd ps → ∀ a, pd = Ret a → ps = Ret a.
Proof.
  intros [R e k [b|msg|X f kq] Hk Hq|R b k [b'|msg|X f kq] Hk Hq] a; try done.
  simpl in *. subst b'. by apply interp_ended.
Qed.

(** A call of a deployed thread is no step of the system, or one call of the thread
that stands for it. *)
Lemma refines_call i R (e : wireE R) k r o o' ts s :
  ts !! i = Some (Vis e k) → wire_step o e r o' → refines (mkDeployment o ts) s →
  o' = o ∧ refines (mkDeployment o' (<[i := k r]> ts)) s ∨
  ∃ R' (e' : portE R') k' a w', threads s !! i = Some (Vis e' k') ∧
    simulated e' a e r o o' ∧ port_step timestamptz (wld s) e' a w' ∧
    (collates id_le → ∀ x, wire_well x o e r → served_well timestamptz id_le x (wld s) e' a) ∧
    refines (mkDeployment o' (<[i := k r]> ts)) (Sys w' (<[i := k' a]> (threads s))).
Proof.
  intros Hi Hcall [Hw Hts]. destruct s as [w ts']. simpl in Hw, Hts |- *.
  destruct (Forall2_lookup_l _ _ _ _ _ Hts Hi) as (ps & Hps & Hsim). apply simulated_call in Hsim.
  destruct (Hsim _ _ _ (table_readable _ _ _ _ Hw) Hcall) as
    [[-> Hk]|(R' & e' & k' & a & -> & Ha & Hk)]; [left|right].
  - split; [done|]. split; [done|]. simpl. rewrite <- (list_insert_id ts' i ps) by done. by apply Forall2_insert.
  - pose proof Ha as [_ Hworld]. destruct (Hworld w Hw) as (w' & Hport & Hw' & Hwell).
    exists R', e', k', a, w'. split_and!; [done..|]. split; [done|]. by apply Forall2_insert.
Qed.

(** A call brings its thread forward. *)
Lemma call_moves {E A R} (e : E R) (k : R → prog E A) r : k r ≠ Vis e k.
Proof.
  set (child (q p : prog E A) := match p with Vis _ k => ∃ r, q = k r | _ => False end).
  assert (∀ p, ¬ child p p) as Hirr.
  { intros p. induction p as [a|msg|R' e' k' IH]; [by intros []|by intros []|]. intros [r' Hr'].
    apply (IH r'). rewrite <- Hr' at 2. by exists r'. }
  intros Hr. apply (Hirr (Vis e k)). by exists r.
Qed.

(** A thread that a step leaves alone is left alone by the step it stands for. *)
Lemma refines_step d d' s :
  deployed_step d d' → refines d s →
  ∃ s', (s' = s ∨ sys_step timestamptz s s') ∧ refines d' s' ∧
    ∀ i, running d' !! i = running d !! i → threads s' !! i = threads s !! i.
Proof.
  intros Hstep Href. pose proof Href as [Hw Hts]. pose proof (Forall2_length _ _ _ Hts) as Hlen.
  destruct s as [w ts']. simpl in Hw, Hts, Hlen.
  destruct Hstep as [i R e k r o o' ts Hi Hcall|p o ts Hp|i o ts|o p ts Hsettle]; simpl in Hw, Hts, Hlen |- *.
  - destruct (refines_call _ _ _ _ _ _ _ _ _ Hi Hcall Href) as
      [[_ Href']|(R' & e' & k' & a & w' & Hi' & _ & Hport & _ & Href')]; [by eauto|].
    exists (Sys w' (<[i := k' a]> ts')). split; [right; by eapply step_call|]. split; [done|].
    intros j Hj. simpl. destruct (decide (i = j)) as [<-|]; [|by apply list_lookup_insert_ne].
    rewrite Hi, list_lookup_insert_eq in Hj by (by eapply lookup_lt_Some).
    injection Hj as Hj. by apply call_moves in Hj.
  - apply deployable_spawnable in Hp as [Hp Hin]. exists (Sys w (ts' ++ [p])).
    split; [right; by apply step_spawn|]. split; [split; [done|]|].
    + apply Forall2_app; [done|]. constructor; [by apply between_calls|done].
    + intros j Hj. simpl. destruct (decide (j < length ts)) as [Hl|Hl]; [apply lookup_app_l; lia|].
      destruct (decide (j = length ts)) as [->|].
      * by rewrite list_lookup_middle, lookup_ge_None_2 in Hj.
      * rewrite !lookup_ge_None_2; [done|lia|rewrite length_app; simpl; lia].
  - exists (Sys w (<[i := Ret None]> ts')). split; [right; apply step_crash|]. split; [split; [done|]|].
    + apply Forall2_insert; [done|]. by apply (between_calls (Ret None)).
    + intros j Hj. simpl. destruct (decide (i = j)) as [<-|]; [|by apply list_lookup_insert_ne].
      destruct (ts !! i) as [pd|] eqn:Hi.
      * destruct (Forall2_lookup_l _ _ _ _ _ Hts Hi) as (ps & Hps & Hsim).
        rewrite list_lookup_insert_eq in Hj by (by eapply lookup_lt_Some). injection Hj as <-.
        rewrite (simulates_ended _ _ Hsim None eq_refl) in Hps. by rewrite list_insert_id.
      * apply lookup_ge_None_1 in Hi. by rewrite list_insert_ge by lia.
  - exists (Sys (with_prov p w) ts'). destruct Hw as [? ? Hprov ? ? ? ?].
    split; [right; apply step_settle; simpl; by rewrite Hprov|]. split; [by split|done].
Qed.

Lemma fresh_initial d : fresh d → ∃ s, initial s ∧ refines d s.
Proof.
  intros (Ho & Hp & Hi & Hr & Hl). exists (Sys (mkWorld ∅ (service (out d)) [] [] []) []).
  split; [by split_and!|]. split; [|by rewrite Hr].
  split; simpl; rewrite ?Ho, ?Hp, ?Hi; [by intros id row ?%lookup_empty_Some| |done..| |].
  - symmetry. apply map_empty. intros id. by rewrite abs_lookup, lookup_empty.
  - by intros req ?%elem_of_nil.
  - by split; constructor.
Qed.

Lemma refines_steps d d' s :
  rtc deployed_step d d' → refines d s → ∃ s', rtc (sys_step timestamptz) s s' ∧ refines d' s'.
Proof.
  intros Hsteps. revert s. induction Hsteps as [d|d d1 d2 Hstep _ IH]; intros s Href; [by exists s|].
  destruct (refines_step _ _ _ Hstep Href) as (s1 & Hs1 & Href1 & _).
  destruct (IH _ Href1) as (s' & Hs' & Href'). exists s'. split; [|done].
  destruct Hs1 as [->|Hs1]; [done|by eapply rtc_l].
Qed.

Lemma deployment_refines d :
  deployed_reachable d → ∃ s, reachable timestamptz s ∧ refines d s.
Proof.
  intros (d0 & Hfresh & Hsteps). apply fresh_initial in Hfresh as (s0 & Hs0 & Href).
  destruct (refines_steps _ _ _ Hsteps Href) as (s & Hs & Href'). exists s. split; [by exists s0|done].
Qed.

(** One more thread. *)
Definition start (p : prog portE thread_result) (d : deployment) : deployment :=
  mkDeployment (out d) (running d ++ [interp adapters p]).

Lemma refines_start p d s :
  in_range p → refines d s → refines (start p d) (Sys (wld s) (threads s ++ [p])).
Proof.
  intros Hp [Hw Hts]. split; [done|]. apply Forall2_app; [done|].
  constructor; [by apply between_calls|done].
Qed.

(** ** What holds of the deployment *)

Lemma stands_for_row (o : outside) w id order :
  stands_for o w → db w !! id = Some order →
  ∃ row, orders o !! id = Some row ∧ row_order id row = Some order.
Proof. intros [_ -> _ _ _ _ _]. rewrite abs_lookup. apply bind_Some. Qed.

Lemma row_stands_for (o : outside) w id row :
  stands_for o w → orders o !! id = Some row →
  ∃ order, db w !! id = Some order ∧ row_order id row = Some order.
Proof.
  intros [Hok -> _ _ _ _ _] Hrow. destruct (Hok _ _ Hrow) as [_ [order Ho]].
  exists order. by rewrite abs_lookup, Hrow.
Qed.

Lemma row_order_columns id row order :
  row_order id row = Some order →
  ID order = id ∧ CustomerID order = c_customer_id row ∧ Status order = c_status row ∧
  PaymentReference order = NullString_String (c_payment_reference row) ∧
  unmarshal_items (c_items row) = Some (Items order).
Proof. unfold row_order. destruct (unmarshal_items _); [|done]. by intros [= <-]. Qed.

(** A deployment with a world of the system that satisfies its invariant. *)
Lemma deployed_world d :
  deployed_reachable d → ∃ w toks, stands_for (out d) w ∧ world_ok w toks.
Proof.
  intros (s & [toks Hw]%reachable_world & Hs & _)%deployment_refines. by exists (wld s), toks.
Qed.

(** C6: The deployment refines the system of ports: whatever its threads,
statements and requests interleave to, the table, the Payment Service and the
requests sent are those of a reachable state of the abstract system, with the
table read back as orders and every request sent by a port call of that state. *)
Theorem deployment_refines_system (d : deployment) (Hd : deployed_reachable d) :
  ∃ s : sys (P := S), reachable timestamptz s ∧ stands_for (out d) (wld s) ∧
    length (threads s) = length (running d).
Proof.
  apply deployment_refines in Hd as (s & Hs & Hw & Hts). exists s. split_and!; [done..|].
  symmetry. by eapply Forall2_length.
Qed.

(** The POSTs that were submitted are charge requests of rows, under different keys. *)
Lemma submitted_charges d :
  deployed_reachable d →
  let posts := filter is_post (map submitted (payment_requests (out d))) in
  NoDup (map (PaymentClient.header "Idempotency-Key") posts) ∧
  ∀ r, r ∈ posts → ∃ id row order,
    orders (out d) !! id = Some row ∧ row_order id row = Some order ∧
    r = PaymentClient.charge_http pc (PaymentRequest.mk id (c_customer_id row) (Total order) id).
Proof.
  intros (w & toks & Hs & Hw)%deployed_world. pose proof (posts_charged _ _ _ _ Hs) as Hposts.
  intros posts. split.
  - pose proof (tokens_once _ _ Hw) as (_ & _ & Hnd)%NoDup_app.
    eapply sublist_NoDup; [exact Hnd|]. unfold charged.
    replace (map PaymentRequest.IdempotencyKey (charges w)) with
      (map (PaymentClient.header "Idempotency-Key") (map (PaymentClient.charge_http pc) (charges w)))
      by (rewrite map_map; by apply map_ext).
    by apply fmap_sublist.
  - intros r Hr. pose proof (elem_of_sublist _ _ _ Hr Hposts) as Hin.
    apply list_elem_of_fmap in Hin as (req & -> & Hreq).
    destruct (charges_ok _ _ Hw _ Hreq) as (Hk & o & Ho & Hc & Ha).
    destruct (stands_for_row _ _ _ _ Hs Ho) as (row & Hrow & Hord).
    exists (PaymentRequest.OrderID req), row, o. split_and!; [done..|].
    destruct (row_order_columns _ _ _ Hord) as (_ & <- & _). rewrite <- Hc, <- Ha, <- Hk at 1.
    destruct req; simpl in *. by subst.
Qed.

(** What was sent to the Payment Service, retries and redirects included. *)
Definition sent_to_payment (o : outside) : list http_request :=
  concat (map transmitted (payment_requests o)).

(** A POST that was sent repeats one that was submitted. *)
Lemma sent_post d r :
  deployed_reachable d → r ∈ sent_to_payment (out d) → is_post r →
  ∃ r', r' ∈ filter is_post (map submitted (payment_requests (out d))) ∧
    Header r = Header r' ∧ Body r = Body r'.
Proof.
  intros (w & toks & Hs & _)%deployed_world Hr Hpost.
  apply list_elem_of_In, in_concat in Hr as (l & Hl%list_elem_of_In & Hr%list_elem_of_In).
  apply list_elem_of_fmap in Hl as (x & -> & Hx).
  destruct (only_transmits _ _ _ _ Hs) as [Hall _]. rewrite Forall_forall in Hall.
  specialize (Hall _ Hx). unfold transmits in Hall. rewrite Forall_forall in Hall.
  destruct (Hall _ Hr) as [Hh [[Hm Hb]|[Hm _]]]; [|rewrite Hpost in Hm; discriminate Hm].
  exists (submitted x). split_and!; [|done..]. apply list_elem_of_filter. split.
  - unfold is_post in *. congruence.
  - by apply list_elem_of_fmap_2.
Qed.

(** C4: Down to the wire, an order is charged at most once.  In every reachable state
of the deployment, the charges submitted to net/http are one per Idempotency-Key, each
the charge request of a row of the table, with the customer and the total of that row
and its id as key.  And whatever net/http makes of them, repeating a POST after a lost
connection or a redirect, all POSTs that were sent to the Payment Service under one key
carry the same body and headers: the charge request of one row, which the service takes
for one charge. *)
Theorem deployed_charges_once (d : deployment) (Hd : deployed_reachable d) :
  let posts := filter is_post (map submitted (payment_requests (out d))) in
  let sent := filter is_post (sent_to_payment (out d)) in
  let key := PaymentClient.header "Idempotency-Key" in
  NoDup (map key posts) ∧
  (∀ r, r ∈ posts → ∃ id row order,
     orders (out d) !! id = Some row ∧ row_order id row = Some order ∧
     r = PaymentClient.charge_http pc (PaymentRequest.mk id (c_customer_id row) (Total order) id)) ∧
  (∀ r, r ∈ sent → ∃ r', r' ∈ posts ∧ Header r = Header r' ∧ Body r = Body r') ∧
  (∀ r1 r2, r1 ∈ sent → r2 ∈ sent → key r1 = key r2 → Header r1 = Header r2 ∧ Body r1 = Body r2).
Proof.
  destruct (submitted_charges d Hd) as [Hnd Hrows]. intros posts sent key.
  assert (∀ r, r ∈ sent → ∃ r', r' ∈ posts ∧ Header r = Header r' ∧ Body r = Body r') as Hsent.
  { intros r [Hpost Hr]%list_elem_of_filter. by apply sent_post. }
  split_and!; [exact Hnd|exact Hrows|exact Hsent|]. intros r1 r2 H1 H2 Hkey.
  destruct (Hsent _ H1) as (p1 & Hp1 & Hh1 & ->). destruct (Hsent _ H2) as (p2 & Hp2 & Hh2 & ->).
  assert (key p1 = key p2) as Hk by (unfold key, PaymentClient.header in *; by rewrite <- Hh1, <- Hh2).
  rewrite Hh1, Hh2, (NoDup_map_inj key posts p1 p2) by done. done.
Qed.

(** A completed order has its items reserved. *)
Lemma completed_reserved (o : outside) w toks id order row :
  stands_for o w → world_ok w toks → db w !! id = Some order → row_order id row = Some order →
  Status order = OrderStatusCompleted →
  ∃ items x, unmarshal_items (c_items row) = Some items ∧ x ∈ inventory_requests o ∧
    submitted x = InventoryClient.reserve_http ic (InventoryRequest.mk id items id) ∧ acknowledged x.
Proof.
  intros Hs Hw Ho Hord Hc. destruct (row_order_columns _ _ _ Hord) as (_ & _ & _ & _ & Hu).
  destruct (confirmed_acknowledged _ _ _ _ Hs _ (row_completed _ _ _ (rows_ok _ _ Hw _ _ Ho) Hc)) as (x & ? & ? & ?).
  exists (Items order), x. done.
Qed.

(** C5: Down to the tables, orders tell the truth: in every reachable state of the
deployment, a row that is paid, awaiting fulfillment or completed carries the
reference of the charge the Payment Service approved for it; a failed row was
declined or never charged; an approved charge is shown as paid or its row still
waits for recovery; a completed row has a reservation request, for exactly its items
and under its id, that the Inventory Service answered with success; and every
reservation submitted, and every request sent for it, is for the items of a row whose
charge is approved. *)
Theorem deployed_rows_match_ledger (d : deployment) (Hd : deployed_reachable d) :
  let ledger := PaymentClient.svc_ledger (service (out d)) in
  (∀ id row, orders (out d) !! id = Some row →
     (settled_paid (c_status row) →
        ledger id = Approved (NullString_String (c_payment_reference row))) ∧
     (c_status row = OrderStatusFailed → ledger id = Declined ∨ ledger id = Untouched) ∧
     (∀ ref, ledger id = Approved ref →
        settled_paid (c_status row) ∨ c_status row = OrderStatusPending ∨
        c_status row = OrderStatusPaymentUnknown) ∧
     (c_status row = OrderStatusCompleted → ∃ items x,
        unmarshal_items (c_items row) = Some items ∧ x ∈ inventory_requests (out d) ∧
        submitted x = InventoryClient.reserve_http ic (InventoryRequest.mk id items id) ∧
        acknowledged x)) ∧
  (∀ x, x ∈ inventory_requests (out d) → transmits x ∧ ∃ id row items ref,
     orders (out d) !! id = Some row ∧ unmarshal_items (c_items row) = Some items ∧
     ledger id = Approved ref ∧
     submitted x = InventoryClient.reserve_http ic (InventoryRequest.mk id items id)).
Proof.
  apply deployed_world in Hd as (w & toks & Hs & Hw). intros led.
  assert (∀ k, led k = Provider.ledger (prov w) k) as Hled by (intros k; by rewrite (same_provider _ _ _ _ Hs)).
  split.
  - intros id row Hrow. destruct (row_stands_for _ _ _ _ Hs Hrow) as (o & Ho & Hord).
    destruct (row_order_columns _ _ _ Hord) as (_ & _ & <- & <- & _). rewrite Hled.
    destruct (rows_ok _ _ Hw _ _ Ho) as [_ _ Hk Hpaid _ Hfailed _].
    split_and!; [done| | |].
    + intros Hf%Hfailed. naive_solver.
    + intros ref Happ. destruct (decide (settled_paid (Status o))) as [|Hn]; [by left|]. right.
      apply not_settled_early; [done..|]. intros [?|[? _]]%Hfailed; congruence.
    + by eapply completed_reserved.
  - intros x Hx. destruct (only_transmits _ _ _ _ Hs) as [_ Hall]. rewrite Forall_forall in Hall.
    split; [by apply Hall|].
    pose proof (elem_of_sublist _ _ _ (list_elem_of_fmap_2 submitted _ _ Hx) (requests_reserved _ _ _ _ Hs)) as Hin.
    apply list_elem_of_fmap in Hin as (req & Hsub & Hreq).
    destruct (reservations_ok _ _ Hw _ Hreq) as (Hk & [ref Href] & o & Ho & Hi).
    destruct (stands_for_row _ _ _ _ Hs Ho) as (row & Hrow & Hord).
    exists (InventoryRequest.OrderID req), row, (Items o), ref. rewrite Hled.
    destruct (row_order_columns _ _ _ Hord) as (_ & _ & _ & _ & Hu). split_and!; [done..|].
    rewrite Hsub, <- Hi. destruct req; simpl in *. by subst.
Qed.
End deployed.

(** ** A concrete deployment

The deterministic services and database of the other files, and a run of the
deployment against them. *)

Section demo.
Let pc := PaymentClient.example_client.
Let ic := InventoryClient.example_client.
Abbreviation demo_outside := (outside (S := gmap string charge_state)).
Abbreviation demo_wire_step := (wire_step microseconds jsonb_key_order String.le pc).
Abbreviation demo_deployed_step := (deployed_step microseconds jsonb_key_order String.le pc ic).

(** A database on which every legal statement succeeds. *)
Definition demo_sql {R} (e : sqlE R) (t : gmap string orow) : R * gmap string orow :=
  match e in sqlE R return R * gmap string orow with
  | InsertOrder _ id customer items status at_ ref =>
      match insert_order microseconds jsonb_key_order t id customer items status at_ ref with
      | Some t' => (None, t')
      | None => (Some (demo_error "constraint"), t)
      end
  | UpdateIfStatus _ id expected status ref =>
      match update_if_status t id expected status ref with
      | Some (n, t') => ((n, None, None), t')
      | None => ((0%Z, None, Some (demo_error "constraint")), t)
      end
  | SelectRecoverable _ afterID olderThan limit =>
      ((mkRows (map inl (page microseconds String.le t afterID olderThan limit)) None, None), t)
  | CloseRows => (tt, t)
  | UpdateOrderStatus _ id status =>
      match update_status t id status with
      | Some (n, t') => ((n, None, None), t')
      | None => ((0%Z, None, Some (demo_error "constraint")), t)
      end
  | SelectOrder _ id =>
      (match t !! id with Some row => inl (id, row) | None => inr (Sentinel sql_ErrNoRows) end, t)
  | SelectCount _ => (inl (count_recoverable t), t)
  end.

Definition demo_wire (d : demo) : handler wireE demo_outside := λ R e o,
  match e with
  | Local e => ((demo_handler d R e (mkWorld ∅ ∅ [] [] [])).1, o)
  | Sql e =>
      let '(r, t) := demo_sql e (orders o) in
      (r, mkOutside t (service o) (payment_requests o) (inventory_requests o))
  | Payment e =>
      match e in httpE R return R * demo_outside with
      | NewRequest _ _ _ => (None, o)
      | Do _ req =>
          let '(sent, ans, s) := PaymentClient.serve_do pc (service o) req in
          (ans, mkOutside (orders o) s (payment_requests o ++ [mkSubmission req sent ans]) (inventory_requests o))
      | Discard _ | CloseBody => (tt, o)
      end
  | Inventory e =>
      match e in httpE R return R * demo_outside with
      | NewRequest _ _ _ => (None, o)
      | Do _ req =>
          let ans := inl (PaymentClient.responding (match demo_reserve d with Some _ => 503 | None => 201 end) JNull) in
          (ans, mkOutside (orders o) (service o) (payment_requests o)
                  (inventory_requests o ++ [mkSubmission req [req] ans]))
      | Discard _ | CloseBody => (tt, o)
      end
  end.

Lemma demo_sql_ok {R} (e : sqlE R) t :
  sql_step microseconds jsonb_key_order String.le t e (demo_sql e t).1 (demo_sql e t).2.
Proof.
  destruct e; simpl; try done.
  - destruct (insert_order _ _ _ _ _ _ _ _ _) eqn:Hi; simpl; auto.
  - destruct (update_if_status _ _ _ _ _) as [[n t']|] eqn:Hu; simpl; auto.
  - destruct (update_status _ _ _) as [[n t']|] eqn:Hu; simpl; auto.
  - split; [done|]. by destruct (t !! id) eqn:Hid; simpl.
Qed.

Lemma demo_wire_ok d R (e : wireE R) o : demo_wire_step o e (demo_wire d R e o).1 (demo_wire d R e o).2.
Proof.
  destruct e as [e|e|e|e]; simpl.
  - done.
  - pose proof (demo_sql_ok e (orders o)) as H. destruct (demo_sql e (orders o)) as [r t]. by exists t.
  - destruct e as [|ctx req| |]; simpl; [done| |done..].
    destruct (PaymentClient.serve_do pc (service o) req) as [[sent ans] s] eqn:Hs.
    exists sent, s. split; [by apply PaymentClient.serve_do_sends|done].
  - destruct e as [|ctx req| |]; simpl; [done| |done..]. exists [req]. split; [|done].
    apply sends_last; [done|]. unfold redirected. simpl. done.
Qed.

Lemma demo_run_steps d i p o ts a o' :
  ts !! i = Some p → run (demo_wire d) p o = (Returned a, o') →
  rtc demo_deployed_step (mkDeployment o ts) (mkDeployment o' (<[i := Ret a]> ts)).
Proof.
  revert o ts. induction p as [b|msg|R e k IH]; intros o ts Hi Hr; simpl in Hr; simplify_eq.
  { by rewrite list_insert_id. }
  pose proof (demo_wire_ok d R e o) as Hstep. destruct (demo_wire d R e o) as [r o1]. simpl in Hstep.
  eapply rtc_l; [by eapply deployed_call|].
  rewrite <- (list_insert_insert_eq ts i (Ret a) (k r)). apply (IH r); [|done].
  apply list_lookup_insert_eq. by eapply lookup_lt_Some.
Qed.

(** One order is posted, then a worker passes. *)
Definition demo_deploy (o : demo_outside) (p : prog portE thread_result) : demo_outside :=
  (run (demo_wire healthy) (interp (adapters pc ic) p) o).2.

Definition demo_bytes : string := with_quotes
  "{'customer_id':'cust_1','customer_tier':'premium','items':[{'product_id':'sku_1','quantity':2,'unit_price_cents':1500}]}".

(** The thread of a request with these bytes. *)
Definition demo_posted (bytes : string) : prog portE thread_result :=
  match readRequest (bytes_body bytes) with
  | inr req => reply ← uc_Execute createOrder demo_ctx (Some req); mret (Some reply)
  | inl _ => Ret None
  end.

Definition demo_result (bytes : string) : thread_result :=
  match (run (demo_wire healthy) (interp (adapters pc ic) (demo_posted bytes)) (mkOutside ∅ ∅ [] [])).1 with
  | Returned result => result
  | _ => None
  end.

Definition demo_ordered : demo_outside := demo_deploy (mkOutside ∅ ∅ [] []) (demo_posted demo_bytes).
Definition demo_deployment : deployment := mkDeployment demo_ordered [Ret (demo_result demo_bytes)].

Example deployment_runs :
  map_to_list (orders demo_ordered) =
    [(demo_id, mkRow "cust_1"
       (JArr [JObj [("Quantity", JNum 2); ("ProductID", JStr "sku_1"); ("UnitPrice", JNum 1500)]])
       "completed" 0 (Some ("ch_" +:+ demo_id)))] ∧
  map (map URL ∘ transmitted) (payment_requests demo_ordered) = [["http://payments/v1/charges"]] ∧
  length (inventory_requests demo_ordered) = 1.
Proof. vm_compute. split_and!; reflexivity. Qed.

(** A product id with a zero byte is a valid order for the domain; Postgres refuses its
row, and the client reads 500 where an invalid order is 400. *)
Example zero_byte_request :
  let '(reply, o) := run (demo_wire healthy) (interp (adapters pc ic)
    (HandleCreateOrder (HttpApi.New createOrder) demo_ctx (bytes_body (with_quotes
      "{'customer_id':'c','items':[{'product_id':'a\u0000','quantity':1,'unit_price_cents':5}]}"))))
    (mkOutside ∅ ∅ [] []) in
  match reply with Returned r => Some (reply_status r) | _ => None end = Some 500%Z ∧
  map_to_list (orders o) = [] ∧ payment_requests o = [].
Proof. vm_compute. split_and!; reflexivity. Qed.

Lemma demo_posted_reachable bytes :
  match readRequest (bytes_body bytes) with inr _ => True | inl _ => False end →
  match (run (demo_wire healthy) (interp (adapters pc ic) (demo_posted bytes)) (mkOutside ∅ ∅ [] [])).1 with
  | Returned _ => True
  | _ => False
  end →
  deployed_reachable microseconds jsonb_key_order String.le pc ic
    (mkDeployment (demo_deploy (mkOutside ∅ ∅ [] []) (demo_posted bytes)) [Ret (demo_result bytes)]).
Proof.
  intros Hreq Hrun. exists (mkDeployment (mkOutside ∅ ∅ [] []) []). split; [by split_and!|].
  assert (deployable (demo_posted bytes)) as Hd.
  { unfold demo_posted. destruct (readRequest (bytes_body bytes)) as [|req] eqn:Hr; [done|].
    by eapply (deploy_request _ (λ _, Foreign "invalid character" None) None). }
  eapply rtc_l; [by apply deployed_spawn|].
  unfold demo_deploy, demo_result. set (p := interp (adapters pc ic) (demo_posted bytes)) in *.
  destruct (run (demo_wire healthy) p (mkOutside ∅ ∅ [] [])) as [[a|m|] o] eqn:Hr; try done.
  by apply (demo_run_steps healthy 0 p (mkOutside ∅ ∅ [] []) [p] a).
Qed.

Lemma demo_deployment_reachable :
  deployed_reachable microseconds jsonb_key_order String.le pc ic demo_deployment.
Proof. by apply demo_posted_reachable; vm_compute. Qed.

Lemma deployment_refines_system_witness :
  length (running demo_deployment) = 1 ∧
  ∃ s : sys (P := gmap string charge_state),
    @reachable _ (PaymentClient.http_provider pc) microseconds s ∧
    stands_for pc ic (out demo_deployment) (wld s) ∧ length (threads s) = length (running demo_deployment).
Proof.
  split; [reflexivity|].
  exact (deployment_refines_system microseconds jsonb_key_order String.le jsonb_key_order_perm pc ic
    demo_deployment demo_deployment_reachable).
Defined.

(** The order of a customer whose charges the Payment Service redirects. *)
Definition moved_bytes : string := with_quotes
  "{'customer_id':'moved','items':[{'product_id':'sku_1','quantity':2,'unit_price_cents':1500}]}".
Definition moved_deployment : deployment :=
  mkDeployment (demo_deploy (mkOutside ∅ ∅ [] []) (demo_posted moved_bytes)) [Ret (demo_result moved_bytes)].

Lemma moved_deployment_reachable :
  deployed_reachable microseconds jsonb_key_order String.le pc ic moved_deployment.
Proof. by apply demo_posted_reachable; vm_compute. Qed.

Lemma deployed_charges_once_witness :
  length (filter is_post (map submitted (payment_requests (out moved_deployment)))) = 1 ∧
  map URL (sent_to_payment (out moved_deployment)) =
    ["http://payments/v1/charges"; "http://payments/v2/charges"] ∧
  ∀ r1 r2, r1 ∈ filter is_post (sent_to_payment (out moved_deployment)) →
    r2 ∈ filter is_post (sent_to_payment (out moved_deployment)) →
    PaymentClient.header "Idempotency-Key" r1 = PaymentClient.header "Idempotency-Key" r2 →
    Header r1 = Header r2 ∧ Body r1 = Body r2.
Proof.
  split; [vm_compute; reflexivity|]. split; [vm_compute; reflexivity|].
  destruct (deployed_charges_once microseconds jsonb_key_order String.le jsonb_key_order_perm pc ic
    moved_deployment moved_deployment_reachable) as (_ & _ & _ & H). exact H.
Defined.

Definition demo_order_row : orow := default (example_row "none") (orders (out demo_deployment) !! demo_id).

Lemma deployed_rows_match_ledger_witness :
  c_status demo_order_row = OrderStatusCompleted ∧
  PaymentClient.svc_ledger (c := pc) (service (out demo_deployment)) demo_id =
    Approved (NullString_String (c_payment_reference demo_order_row)) ∧
  ∃ x, x ∈ inventory_requests (out demo_deployment) ∧ acknowledged x.
Proof.
  assert (c_status demo_order_row = OrderStatusCompleted) as Hc by (vm_compute; reflexivity).
  split; [exact Hc|].
  pose proof (proj1 (deployed_rows_match_ledger microseconds jsonb_key_order String.le
    jsonb_key_order_perm pc ic demo_deployment demo_deployment_reachable) demo_id demo_order_row) as Hrow.
  assert (orders (out demo_deployment) !! demo_id = Some demo_order_row) as Hstored by (vm_compute; reflexivity).
  destruct (Hrow Hstored) as (Hpaid & _ & _ & Hres). split.
  - apply Hpaid. right. right. exact Hc.
  - destruct (Hres Hc) as (items & x & _ & Hx & _ & Ha). exists x. split; [exact Hx|exact Ha].
Defined.
End demo.
