(* ===== verification/Convergence.v ===== *)
(** * Deployed recovery

Recovery.v down to the wire: a worker thread of the deployment, whose statements
and requests interleave with those of every other thread, brings an order whose
charge is settled to its final state. *)

From S2P Require Import Prelude GoValues Prog Domain Ports CreateOrder Reconciler Decorators Saves Provider Store Safety System Simulator Recovery Json JsonText Http PaymentClient InventoryClient HttpApi Repository Documents Wire EndToEnd.

Section converges.
Context (timestamptz : Time → Time).
Context (key_order : list (string * json) → list (string * json)).
Context (id_le : relation string) `{!RelDecision id_le, !PartialOrder id_le, !base.Total id_le}.
Context (key_order_perm : ∀ ms, NoDup ms.*1 → key_order ms ≡ₚ ms).
Context {S : Type} (pc : PaymentClient.Client) `{!PaymentClient.PaymentService S pc}.
Context (ic : InventoryClient.Client).

Abbreviation outside := (outside (S := S)).
Abbreviation deployment := (deployment (S := S)).
Abbreviation start := (start pc ic).
Abbreviation refines := (refines timestamptz key_order id_le pc ic).

(** Steps of the deployment in which thread [i] is not killed and at most [n] of its
statements and requests are not answered well for the order [x]; the other threads
do as they please. *)
Inductive deployed_served (x : string) (i : nat) : nat → deployment → deployment → Prop :=
| deployed_served_refl n d : deployed_served x i n d d
| deployed_served_others n d1 d2 d3 :
    deployed_step timestamptz key_order id_le pc ic d1 d2 → running d2 !! i = running d1 !! i →
    deployed_served x i n d2 d3 → deployed_served x i n d1 d3
| deployed_served_call n R (e : wireE R) k r (o o' : outside) ts d :
    ts !! i = Some (Vis e k) → wire_step timestamptz key_order id_le pc o e r o' →
    wire_well timestamptz pc x o e r →
    deployed_served x i n (mkDeployment o' (<[i := k r]> ts)) d →
    deployed_served x i n (mkDeployment o ts) d
| deployed_served_fault n R (e : wireE R) k r (o o' : outside) ts d :
    ts !! i = Some (Vis e k) → wire_step timestamptz key_order id_le pc o e r o' →
    deployed_served x i n (mkDeployment o' (<[i := k r]> ts)) d →
    deployed_served x i (Datatypes.S n) (mkDeployment o ts) d.

(** A thread served on the wire is served in the system: one call on the wire is at
most one call there, and answered as well. *)
Lemma deployed_served_simulated x i n d d' s :
  deployed_served x i n d d' → refines d s →
  ∃ s', served timestamptz id_le x i n s s' ∧ refines d' s'.
Proof.
  intros Hrun. revert s. induction Hrun as [n d|n d1 d2 d3 Hstep Hi _ IH|n R e k r o o' ts d Hi Hstep Hwell _ IH
    |n R e k r o o' ts d Hi Hstep _ IH]; intros s Href.
  - exists s. split; [apply served_refl|done].
  - destruct (refines_step _ _ _ key_order_perm _ _ _ _ _ Hstep Href) as (s1 & Hs & Href1 & Hth).
    destruct (IH _ Href1) as (s' & Hserved & Href'). exists s'. split; [|done].
    destruct Hs as [->|Hs]; [done|]. eapply served_others; [done|by apply Hth|done].
  - destruct (refines_call _ _ _ key_order_perm _ _ _ _ _ _ _ _ _ _ _ Hi Hstep Href) as
      [[_ Href1]|(R' & e' & k' & a & w' & Hi' & _ & Hport & Hgood & Href1)]; [by apply IH|].
    destruct (IH _ Href1) as (s' & Hserved & Href'). exists s'. split; [|done]. destruct s as [w ts'].
    eapply served_call; [done|done| |done]. by apply Hgood.
  - destruct (refines_call _ _ _ key_order_perm _ _ _ _ _ _ _ _ _ _ _ Hi Hstep Href) as
      [[_ Href1]|(R' & e' & k' & a & w' & Hi' & _ & Hport & _ & Href1)].
    + destruct (IH _ Href1) as (s' & Hserved & Href'). exists s'. split; [|done].
      eapply served_weaken; [done|lia].
    + destruct (IH _ Href1) as (s' & Hserved & Href'). exists s'. split; [|done]. destruct s as [w ts'].
      by eapply served_fault.
Qed.

Lemma stands_for_size (o : outside) w : stands_for pc ic o w → size (db w) <= size (orders o).
Proof.
  intros Hs. rewrite (same_orders _ _ _ _ Hs), <- !(size_dom (D := gset string)).
  apply subseteq_size. intros id. rewrite !elem_of_dom, abs_lookup.
  intros [order (row & Hrow & _)%bind_Some]. by eexists.
Qed.

(** C10: Recovery converges down to the wire.  In any state the deployment can be
in, once the charge of a stored order is settled, a worker that is started, with any
configuration and cursor, and runs to its end leaves the row in its final state:
completed with the reference of the charge, or failed if it was declined.  The
statements and requests of every other thread (requests, other workers, retries,
crashes, late settlements) interleave with its own, and any number [faults] of its
statements and requests may be answered badly; five passes more than there are
faults, times two more than there are rows, are enough. *)
Theorem deployed_recovery_converges (d d' : deployment) (ctx : Ctx) (cfg : ReconcilerConfig.t)
    (cursor x : string) (row : orow) (ticks faults : nat)
    (Hd : deployed_reachable timestamptz key_order id_le pc ic d)
    (stored : orders (out d) !! x = Some row) (named : strict id_le "" x)
    (settled : final (PaymentClient.svc_ledger (service (out d)) x) ∧
       PaymentClient.svc_ledger (service (out d)) x ≠ Approved "")
    (runs : deployed_served x (length (running d)) faults
       (start (worker_thread ctx cfg cursor ticks) d) d')
    (ended : running d' !! length (running d) = Some (Ret None))
    (enough : (faults + 5) * (size (orders (out d')) + 2) <= ticks) :
  ∃ row', orders (out d') !! x = Some row' ∧
    match PaymentClient.svc_ledger (service (out d)) x with
    | Approved ref =>
        c_status row' = OrderStatusCompleted ∧ NullString_String (c_payment_reference row') = ref
    | _ => c_status row' = OrderStatusFailed
    end.
Proof.
  destruct (deployment_refines _ _ _ key_order_perm _ _ _ Hd) as (s & Hs & Href).
  pose proof Href as [Hw Hts]. pose proof (Forall2_length _ _ _ Hts) as Hlen.
  assert (in_range (worker_thread ctx cfg cursor ticks)) as Hin.
  { apply calls_ok_bind; [apply saves_Run|intros ?; exact I]. }
  pose proof (refines_start _ _ _ _ _ _ _ _ Hin Href) as Hstart.
  destruct (deployed_served_simulated _ _ _ _ _ _ runs Hstart) as (s' & Hserved & [Hw' Hts']).
  destruct (Forall2_lookup_l _ _ _ _ _ Hts' ended) as (ps & Hps & Hsim).
  rewrite (simulates_ended _ _ _ key_order_perm _ _ _ _ Hsim None eq_refl) in Hps.
  destruct (row_stands_for _ _ _ _ _ _ Hw stored) as (order & Horder & _).
  rewrite <- (same_provider _ _ _ _ Hw) in settled |- *.
  destruct (recovery_converges timestamptz id_le (Sys (wld s) (threads s ++ [worker_thread ctx cfg cursor ticks]))
    s' (length (running d)) ctx cfg cursor x order ticks faults) as (order' & Horder' & Hfinal); try done.
  - destruct Hs as (s0 & ? & Hsteps). exists s0. split; [done|]. eapply rtc_r; [exact Hsteps|].
    destruct s as [w ts]. apply step_spawn, worker.
  - simpl. by rewrite Hlen, list_lookup_middle.
  - etrans; [|exact enough]. apply Nat.mul_le_mono_l, Nat.add_le_mono_r. by eapply stands_for_size.
  - destruct (stands_for_row _ _ _ _ _ _ Hw' Horder') as (row' & Hrow' & Hord).
    exists row'. split; [done|]. destruct (row_order_columns _ _ _ Hord) as (_ & _ & <- & <- & _). exact Hfinal.
Qed.
End converges.

(** ** A worker of the concrete deployment *)

Section demo.
Let pc := PaymentClient.example_client.
Let ic := InventoryClient.example_client.
Abbreviation demo_outside := (outside (S := gmap string charge_state)).
Abbreviation demo_deployed_served :=
  (deployed_served microseconds jsonb_key_order String.le pc ic).

(** Whether [demo_wire] answers a call well for the order [x]. *)
Definition demo_wire_serves (d : demo) (x : string) {R} (e : wireE R) (o : demo_outside) : bool :=
  match e with
  | Local _ => true
  | Sql (SelectOrder _ _) => ⟦is_Some (orders o !! x)⟧
  | Sql (UpdateIfStatus _ id expected status ref) =>
      ⟦is_Some (update_if_status (orders o) id expected status ref)⟧
  | Sql (SelectRecoverable _ _ olderThan _) =>
      match orders o !! x with
      | Some row => ⟦(c_created_at row <= microseconds olderThan)%Z⟧
      | None => true
      end
  | Payment (Do _ req) =>
      match (PaymentClient.serve_do pc (service o) req).1.2 with
      | inl resp =>
          success_code (StatusCode resp) &&
          match PaymentClient.decodeChargeResponse (ResponseBody resp) with (_, None) => true | _ => false end
      | inr _ => false
      end
  | Inventory (Do _ _) => ⟦demo_reserve d = None⟧
  | _ => true
  end.

Lemma demo_wire_serves_well d x R (e : wireE R) o :
  demo_wire_serves d x e o = true → wire_well microseconds pc x o e (demo_wire d R e o).1.
Proof.
  destruct e as [e|e|e|e]; destruct e; simpl; try done.
  - case_bool_decide as Hu; [|done]. intros _ _. destruct Hu as [[n t] ->]. simpl. by eexists.
  - intros Hold. eexists. split_and!; [done| |done|].
    + by intros err (? & ? & ?)%list_elem_of_fmap.
    + intros row Hrow. rewrite Hrow in Hold. by case_bool_decide.
  - case_bool_decide as Hrow; [|done]. intros _ ->. destruct Hrow as [row ->]. by eexists.
  - destruct (PaymentClient.serve_do _ _ _) as [[sent [resp|err]] s]; [|done]. simpl.
    intros [? Hd]%andb_prop _. destruct (PaymentClient.decodeChargeResponse _) as [r [err|]] eqn:Hr; [done|].
    by exists resp, r.
  - case_bool_decide as Hr; [|done]. rewrite Hr. intros _ _. by eexists.
Qed.

(** [n] more calls of thread [i], and how many of them are answered badly. *)
Definition advance (d : demo) (n i : nat) (s : deployment) : deployment :=
  match running s !! i with
  | Some p =>
      let '(p', o) := run_calls (demo_wire d) n p (out s) in mkDeployment o (<[i := p']> (running s))
  | None => s
  end.

Fixpoint wire_faults (d : demo) (x : string) (n : nat) (p : prog wireE thread_result) (o : demo_outside) : nat :=
  match n, p with
  | Datatypes.S n, Vis e k =>
      (if demo_wire_serves d x e o then 0 else 1) +
      (let '(r, o') := demo_wire d _ e o in wire_faults d x n (k r) o')
  | _, _ => 0
  end.

Definition advance_faults (d : demo) (x : string) (n i : nat) (s : deployment) : nat :=
  match running s !! i with Some p => wire_faults d x n p (out s) | None => 0 end.

Lemma run_calls_deployed d x n i p o ts p' o' :
  ts !! i = Some p → run_calls (demo_wire d) n p o = (p', o') →
  demo_deployed_served x i (wire_faults d x n p o) (mkDeployment o ts) (mkDeployment o' (<[i := p']> ts)).
Proof.
  revert p o ts. induction n as [|n IH]; intros p o ts Hi Hr; simpl in Hr.
  { simplify_eq. rewrite list_insert_id by done. apply deployed_served_refl. }
  destruct p as [a|m|R e k]; [simplify_eq; rewrite list_insert_id by done; apply deployed_served_refl..|].
  pose proof (demo_wire_ok d R e o) as Hstep. pose proof (demo_wire_serves_well d x R e o) as Hw.
  simpl. destruct (demo_wire d R e o) as [r o1]. simpl in Hstep, Hw.
  assert (<[i := k r]> ts !! i = Some (k r)) as Hi1
    by (apply list_lookup_insert_eq; by eapply lookup_lt_Some).
  pose proof (IH (k r) o1 (<[i := k r]> ts) Hi1 Hr) as Hrest. rewrite list_insert_insert_eq in Hrest.
  destruct (demo_wire_serves d x e o); [by eapply deployed_served_call; eauto|by eapply deployed_served_fault].
Qed.

Lemma advance_served d x n i s : demo_deployed_served x i (advance_faults d x n i s) s (advance d n i s).
Proof.
  unfold advance, advance_faults. destruct (running s !! i) as [p|] eqn:Hi; [|apply deployed_served_refl].
  destruct (run_calls (demo_wire d) n p (out s)) as [p' o'] eqn:Hr. destruct s as [o ts]. by apply run_calls_deployed.
Qed.

Lemma deployed_served_weaken x i a b (s s' : deployment) :
  demo_deployed_served x i a s s' → a <= b → demo_deployed_served x i b s s'.
Proof.
  intros Hrun. revert b. induction Hrun as [n d|n d1 d2 d3 Hstep Hi _ IH|n R e k r o o' ts d Hi Hstep Hwell _ IH
    |n R e k r o o' ts d Hi Hstep _ IH]; intros b Hb.
  - apply deployed_served_refl.
  - eapply deployed_served_others; [done|done|auto].
  - eapply deployed_served_call; [done|done|done|auto].
  - destruct b as [|b]; [lia|]. eapply deployed_served_fault; [done|done|apply IH; lia].
Qed.

Lemma deployed_served_trans x i a b (s1 s2 s3 : deployment) :
  demo_deployed_served x i a s1 s2 → demo_deployed_served x i b s2 s3 →
  demo_deployed_served x i (a + b) s1 s3.
Proof.
  intros Hrun. revert b s3. induction Hrun as [n d|n d1 d2 d3 Hstep Hi _ IH|n R e k r o o' ts d Hi Hstep Hwell _ IH
    |n R e k r o o' ts d Hi Hstep _ IH]; intros b s3 Hrest.
  - eapply deployed_served_weaken; [done|lia].
  - eapply deployed_served_others; [done|done|auto].
  - eapply deployed_served_call; [done|done|done|auto].
  - change (demo_deployed_served x i (Datatypes.S (n + b)) (mkDeployment o ts) s3).
    eapply deployed_served_fault; [done|done|auto].
Qed.

(** An order is posted and its charge times out, although it is approved; an hour
later a worker is started while the inventory is down; later the inventory is up. *)
Definition slow_bytes : string := with_quotes
  "{'customer_id':'slow','customer_tier':'premium','items':[{'product_id':'sku_1','quantity':2,'unit_price_cents':1500}]}".
Definition slow_deployment : deployment :=
  mkDeployment (demo_deploy (mkOutside ∅ ∅ [] []) (demo_posted slow_bytes)) [Ret (demo_result slow_bytes)].

Definition slow_worker : prog portE thread_result := worker_thread demo_ctx (ReconcilerConfig.mk 0 0) "" 20.
Definition hour_later (reserve : option error) : demo := an_hour_later (mkDemo (Approve "") reserve 7).
Definition slow_interrupted : deployment :=
  advance (hour_later (Some (demo_error "down"))) 25 1 (start pc ic slow_worker slow_deployment).
Definition slow_converged : deployment := advance (hour_later None) 2000 1 slow_interrupted.

Definition row_status (o : demo_outside) : option (string * option string) :=
  (λ row, (c_status row, c_payment_reference row)) <$> orders o !! demo_id.

Example slow_runs :
  row_status (out slow_deployment) = Some (OrderStatusPaymentUnknown, None) ∧
  row_status (out slow_interrupted) = Some (OrderStatusFulfillmentPending, Some ("ch_" +:+ demo_id)) ∧
  row_status (out slow_converged) = Some (OrderStatusCompleted, Some ("ch_" +:+ demo_id)) ∧
  advance_faults (hour_later (Some (demo_error "down"))) demo_id 25 1 (start pc ic slow_worker slow_deployment) = 1.
Proof. vm_compute. done. Qed.

Definition slow_faults : nat :=
  advance_faults (hour_later (Some (demo_error "down"))) demo_id 25 1 (start pc ic slow_worker slow_deployment) +
  advance_faults (hour_later None) demo_id 2000 1 slow_interrupted.

Definition slow_row : orow := default (example_row "none") (orders (out slow_deployment) !! demo_id).

Lemma slow_deployment_reachable :
  deployed_reachable microseconds jsonb_key_order String.le pc ic slow_deployment.
Proof. by apply demo_posted_reachable; vm_compute. Qed.

Lemma deployed_recovery_converges_witness :
  ∃ row', orders (out slow_converged) !! demo_id = Some row' ∧
    c_status row' = OrderStatusCompleted ∧
    NullString_String (c_payment_reference row') = "ch_" +:+ demo_id.
Proof.
  refine (deployed_recovery_converges microseconds jsonb_key_order String.le jsonb_key_order_perm pc ic
    slow_deployment slow_converged demo_ctx (ReconcilerConfig.mk 0 0) "" demo_id slow_row 20 slow_faults
    slow_deployment_reachable _ _ _ _ _ _).
  - vm_compute. reflexivity.
  - vm_compute. split; [exact I|intros Hlt; exact Hlt].
  - split; vm_compute; [exact I|discriminate].
  - eapply deployed_served_trans; apply advance_served.
  - vm_compute. reflexivity.
  - apply (bool_decide_unpack _). vm_compute. exact I.
Defined.
End demo.
