(* ===== verification/DeployedReplies.v ===== *)
(** * Replies of the deployment

Replies.v down to the wire: a request is a thread of the deployment, whose
statements and requests interleave with those of every other thread.  What its
status code says holds of the row of its order, of the ledger of the Payment Service
and of the requests sent to the services, when it is sent and ever after. *)

From S2P Require Import Prelude GoValues Prog Domain Ports CreateOrder Reconciler Decorators Saves Provider Store Safety System Simulator Outcomes Json JsonText Http PaymentClient InventoryClient HttpApi Repository Documents Deployment Replies Wire EndToEnd.

Section replies.
Context (timestamptz : Time → Time).
Context (key_order : list (string * json) → list (string * json)).
Context (id_le : relation string) `{!RelDecision id_le}.
Context (key_order_perm : ∀ ms, NoDup ms.*1 → key_order ms ≡ₚ ms).
Context {S : Type} (pc : PaymentClient.Client) `{!PaymentClient.PaymentService S pc}.
Context (ic : InventoryClient.Client).

Abbreviation outside := (outside (S := S)).
Abbreviation deployment := (deployment (S := S)).
Abbreviation world := (world (P := S)).
Abbreviation wire_step := (wire_step timestamptz key_order id_le pc).
Abbreviation deployed_step := (deployed_step timestamptz key_order id_le pc ic).
Abbreviation simulated := (simulated timestamptz id_le pc ic).
Abbreviation stands_for := (stands_for pc ic).
Abbreviation refines := (refines timestamptz key_order id_le pc ic).
Abbreviation start := (start pc ic).

(** ** The calls of one thread *)

(** Steps of the deployment in which thread [i], not killed, makes calls that take the
outside through [moves]: pairs of what it was and what it became. *)
Inductive deployed_observed (i : nat) : deployment → list (outside * outside) → deployment → Prop :=
| deployed_observed_nothing d : deployed_observed i d [] d
| deployed_observed_others d1 d2 d3 moves :
    deployed_step d1 d2 → running d2 !! i = running d1 !! i →
    deployed_observed i d2 moves d3 → deployed_observed i d1 moves d3
| deployed_observed_call R (e : wireE R) k r (o o' : outside) ts moves d :
    ts !! i = Some (Vis e k) → wire_step o e r o' → wire_plain e r →
    deployed_observed i (mkDeployment o' (<[i := k r]> ts)) moves d →
    deployed_observed i (mkDeployment o ts) ((o, o') :: moves) d.

(** A call that submitted and sent no charge, and one that inserted no row. *)
Definition charges_nothing (m : outside * outside) : Prop :=
  filter is_post (map submitted (payment_requests m.2)) = filter is_post (map submitted (payment_requests m.1)) ∧
  filter is_post (sent_to_payment m.2) = filter is_post (sent_to_payment m.1).
Definition inserts_nothing (m : outside * outside) : Prop :=
  dom (orders m.2) = dom (orders m.1).

(** One of the calls inserted the row [id]. *)
Definition inserted (moves : list (outside * outside)) (id : string) : Prop :=
  Exists (λ m, (id ∉ dom (orders m.1)) ∧ id ∈ dom (orders m.2)) moves.

(** ** What a call leaves alone *)

Lemma wire_step_posts o R (f : wireE R) r o' :
  wire_step o f r o' → ∃ more, payment_requests o' = payment_requests o ++ more ∧ Forall transmits more.
Proof.
  destruct f as [e|e|e|e]; simpl.
  - intros ->. exists []. by rewrite app_nil_r.
  - intros (t & _ & ->). exists []. by rewrite app_nil_r.
  - destruct e as [? ? ?|ctx req|n|]; try (intros ->; exists []; by rewrite app_nil_r).
    intros (sent & s & Hx & ->). exists [mkSubmission req sent r]. split; [done|].
    apply Forall_singleton. by eapply sends_transmissions.
  - destruct e; try (intros ->; exists []; by rewrite app_nil_r).
    intros (sent & _ & ->). exists []. by rewrite app_nil_r.
Qed.

(** No POST is sent for what is not one. *)
Lemma no_posts_sent (more : list submission) :
  Forall transmits more → filter is_post (map submitted more) = [] →
  filter is_post (concat (map transmitted more)) = [].
Proof.
  induction 1 as [|x more Hx _ IH]; [done|]. simpl. rewrite filter_cons. case_decide as Hpost; [done|].
  intros Hnone. rewrite filter_app, (IH Hnone), app_nil_r. unfold transmits in Hx.
  induction Hx as [|r rs [_ [[Hm _]|[Hm _]]] _ IHr]; [done|..]; rewrite filter_cons_False; try exact IHr.
  - unfold is_post. by rewrite Hm.
  - unfold is_post. by rewrite Hm.
Qed.

(** Charges are sent by [Charge] alone: in the world that has just the charges that
were sent, any other port call leaves no room for one more. *)
Lemma simulated_charges o o' w R (e : portE R) a X (f : wireE X) r :
  stands_for o w → wire_step o f r o' → simulated e a f r o o' →
  match e with Charge _ _ => False | _ => True end → charges_nothing (o, o').
Proof.
  intros [Htab Hord Hprov Hposts Hres Hconf Hsends] Hstep (_ & Hsim) He.
  destruct (sublist_map_inv _ _ _ Hposts) as (sent & _ & Hsent).
  destruct (Hsim (mkWorld (db w) (prov w) sent (reservations w) (confirmed w))) as (w' & Hport & Hw' & _).
  { split; try done. simpl. by rewrite Hsent. }
  assert (charges w' = sent) as Hsame.
  { destruct e; try done; simpl in Hport; try (by subst); try (by destruct Hport as (? & _ & ->)).
    by destruct Hport as [_ ->]. }
  destruct (wire_step_posts _ _ _ _ _ Hstep) as (more & Hmore & Hsends'). pose proof (posts_charged _ _ _ _ Hw') as Hlen.
  rewrite Hsame, Hsent, Hmore, map_app, filter_app in Hlen. apply sublist_length in Hlen. rewrite length_app in Hlen.
  assert (filter is_post (map submitted more) = []) as Hnone by (apply nil_length_inv; lia).
  unfold charges_nothing, sent_to_payment. simpl. rewrite Hmore, !map_app, concat_app, !filter_app.
  rewrite Hnone, (no_posts_sent more) by done. by rewrite !app_nil_r.
Qed.

Lemma abs_dom t : table_ok t → dom (abs t) = dom t.
Proof.
  intros Hok. apply set_eq. intros id. rewrite !elem_of_dom, abs_lookup. split.
  - intros [order (row & Hrow & _)%bind_Some]. by exists row.
  - intros [row Hrow]. destruct (Hok _ _ Hrow) as [_ [order Ho]]. exists order. by rewrite Hrow.
Qed.

Lemma cas_spec_dom db o expected ans db' : cas_spec db o expected ans db' → dom db' = dom db.
Proof.
  assert (∀ db1, store_cas db o expected = Some db1 → dom db1 = dom db) as Hcas.
  { intros db1 (row & Hrow & _ & ->)%store_cas_Some. by apply dom_insert_lookup_L. }
  destruct ans as [[] [err|]]; simpl; [intros [? _]; done|apply Hcas|intros [_ [->|?]]; eauto|by intros [_ ->]].
Qed.

(** Rows are inserted by [Save] alone. *)
Lemma simulated_inserts o o' w R (e : portE R) a X (f : wireE X) r :
  stands_for o w → simulated e a f r o o' →
  match e with Save _ _ => False | _ => True end → inserts_nothing (o, o').
Proof.
  intros Hw (_ & Hsim) He. destruct (Hsim w Hw) as (w' & Hport & Hw' & _).
  unfold inserts_nothing. simpl.
  rewrite <- (abs_dom (orders o')) by (by destruct Hw'). rewrite <- (abs_dom (orders o)) by (by destruct Hw).
  rewrite <- (same_orders _ _ _ _ Hw), <- (same_orders _ _ _ _ Hw').
  destruct e; try done; simpl in Hport; try (by subst); try (by destruct Hport as (? & _ & ->)).
  - destruct Hport as (m & Hs & ->). by apply cas_spec_dom in Hs.
  - by destruct Hport as [_ ->].
Qed.
(** What [Save] stores has its row from then on. *)
Lemma simulated_saves o o' w ctx order X (f : wireE X) r :
  stands_for o w → simulated (Save ctx order) None f r o o' →
  (ID order ∉ dom (orders o)) ∧ ID order ∈ dom (orders o').
Proof.
  intros Hw (_ & Hsim). destruct (Hsim w Hw) as (w' & (m & Hs & ->) & Hw' & _).
  apply store_insert_Some in Hs as [Hnone ->].
  rewrite <- (abs_dom (orders o')) by (by destruct Hw'). rewrite <- (abs_dom (orders o)) by (by destruct Hw).
  rewrite <- (same_orders _ _ _ _ Hw), <- (same_orders _ _ _ _ Hw'). simpl.
  split; [by apply not_elem_of_dom|]. rewrite dom_insert. set_solver.
Qed.

(** ** The thread in the system *)

(** What the calls [tr] of the thread in the system tell of its [moves] on the wire. *)
Record seen (tr : list (call portE)) (moves : list (outside * outside)) : Prop := {
  seen_saved id : id ∈ map ID (saved_of tr) → inserted moves id;
  seen_charges : charges_of tr = [] → Forall charges_nothing moves;
  seen_inserts : inserts_of tr = [] → Forall inserts_nothing moves }.

Lemma deployed_observed_steps i d moves d' : deployed_observed i d moves d' → rtc deployed_step d d'.
Proof. induction 1; [done|by eapply rtc_l|eapply rtc_l; [by eapply deployed_call|done]]. Qed.

(** One more move of the thread that is one more call of it. *)
Lemma seen_call {R} (e : portE R) a tr (o o' : outside) moves w X (f : wireE X) r :
  stands_for o w → wire_step o f r o' → simulated e a f r o o' →
  seen tr moves → seen (Call e a :: tr) ((o, o') :: moves).
Proof.
  intros Hw Hstep Hsim [Hsav Hch Hins]. split.
  - intros id Hin. assert (id ∈ map ID (saved_of tr) → inserted ((o, o') :: moves) id) as Hold
      by (intros ?; apply Exists_cons_tl; by apply Hsav).
    destruct e; try (by apply Hold). destruct a as [err|]; [by apply Hold|].
    apply elem_of_cons in Hin as [->|Hin]; [|by apply Hold]. apply Exists_cons_hd.
    by apply (simulated_saves _ _ _ _ _ _ _ _ Hw Hsim).
  - intros Hnone. apply Forall_cons. split; [|apply Hch; by destruct e].
    eapply simulated_charges; [done|done|done|]. by destruct e.
  - intros Hnone. apply Forall_cons. split; [|apply Hins; by destruct e].
    eapply simulated_inserts; [done|done|]. by destruct e.
Qed.

Lemma deployed_observed_simulated i d moves d' :
  deployed_observed i d moves d' → ∀ s, refines d s →
  ∃ tr s', observed timestamptz i s tr s' ∧ refines d' s' ∧ seen tr moves.
Proof.
  induction 1 as [d|d1 d2 d3 moves Hstep Hi Hrest IH|R e k r o o' ts moves d Hi Hstep Hplain Hrest IH];
    intros s Href.
  - exists [], s. split; [apply observed_nothing|]. split; [done|]. split; [by intros id ?%elem_of_nil|done..].
  - destruct (refines_step _ _ _ key_order_perm _ _ _ _ _ Hstep Href) as (s1 & Hs & Href1 & Hth).
    destruct (IH _ Href1) as (tr & s' & Hobs & Href' & Hseen). exists tr, s'. split; [|done].
    destruct Hs as [->|Hs]; [done|]. eapply observed_others; [done|by apply Hth|done].
  - destruct (refines_call _ _ _ key_order_perm _ _ _ _ _ _ _ _ _ _ _ Hi Hstep Href) as
      [[-> Href1]|(R' & e' & k' & a & w' & Hi' & Hsim & Hport & _ & Href1)].
    + destruct (IH _ Href1) as (tr & s' & Hobs & Href' & [Hsav Hc Hn]). exists tr, s'.
      split; [done|]. split; [done|]. split; [intros id ?; by apply Exists_cons_tl, Hsav| |];
        intros Hnone; apply Forall_cons; split; auto; done.
    + destruct (IH _ Href1) as (tr & s' & Hobs & Href' & Hseen). exists (Call e' a :: tr), s'.
      pose proof Hsim as [Hpl _]. destruct Href as [Hw _]. destruct s as [w ts'].
      split; [eapply observed_call; [done|done|by apply Hpl|done]|]. split; [done|].
      by eapply seen_call.
Qed.

(** ** What a reply says of the deployment *)

(** The row is the order that [req] asks for, inserted by one of the calls. *)
Record placed (o : outside) (req : CreateOrderRequest.t) (moves : list (outside * outside))
    (id : string) (row : orow) : Prop := {
  placed_stored : orders o !! id = Some row;
  placed_inserted : inserted moves id;
  placed_customer : c_customer_id row = CreateOrderRequest.CustomerID req;
  placed_items : unmarshal_items (c_items row) = Some (CreateOrderRequest.Items req) }.

(** The reply to the request [req] whose calls took the outside through [moves], with
the outside as it is now. *)
Inductive deployed_reply_holds (o : outside) (req : CreateOrderRequest.t) (moves : list (outside * outside))
    : http_reply → Prop :=
(** 201 Created: the row is completed, charged with the reference it carries, and the
reservation of the items of the request was answered with success *)
| deployed_created order row :
    placed o req moves (ID order) row →
    Status order = OrderStatusCompleted → c_status row = OrderStatusCompleted →
    PaymentClient.svc_ledger (service o) (ID order) = Approved (NullString_String (c_payment_reference row)) →
    (∃ x, x ∈ inventory_requests o ∧ acknowledged x ∧ submitted x =
       InventoryClient.reserve_http ic
         (InventoryRequest.mk (ID order) (CreateOrderRequest.Items req) (ID order))) →
    deployed_reply_holds o req moves (writeJSON 201 (orderResponse order))
(** 402 Payment Required: the row is failed, its charge declined *)
| deployed_declined order row :
    placed o req moves (ID order) row →
    Status order = OrderStatusFailed → c_status row = OrderStatusFailed →
    PaymentClient.svc_ledger (service o) (ID order) = Declined →
    deployed_reply_holds o req moves (writeJSON 402 (orderResponse order))
(** 502 Bad Gateway: nothing was charged, and the row does not show as paid *)
| deployed_rejected order row :
    placed o req moves (ID order) row → ¬ settled_paid (c_status row) →
    PaymentClient.svc_ledger (service o) (ID order) = Untouched →
    deployed_reply_holds o req moves (writeJSON 502 (orderResponse order))
(** 202 Accepted: the order has its row *)
| deployed_accepted order row :
    placed o req moves (ID order) row →
    deployed_reply_holds o req moves (writeJSON 202 (orderResponse order))
(** 400 Bad Request: no row was inserted and no charge sent *)
| deployed_bad_request text :
    Forall inserts_nothing moves → Forall charges_nothing moves →
    deployed_reply_holds o req moves (writeJSON 400 (error_body text))
(** 500: no charge was sent, or the charge of the order was declined *)
| deployed_not_saved text :
    Forall charges_nothing moves → deployed_reply_holds o req moves (writeJSON 500 (error_body text))
| deployed_decline_not_recorded text id row :
    placed o req moves id row → ¬ settled_paid (c_status row) →
    PaymentClient.svc_ledger (service o) id = Declined →
    deployed_reply_holds o req moves (writeJSON 500 (error_body text)).

Lemma own_row_placed o w req tr moves id order :
  stands_for o w → seen tr moves → own_row w req tr id order →
  ∃ row, placed o req moves id row ∧ Status order = c_status row ∧
    PaymentReference order = NullString_String (c_payment_reference row).
Proof.
  intros Hw Hseen [Ho Hsaved [Hc Hi]]. destruct (stands_for_row _ _ _ _ _ _ Hw Ho) as (row & Hrow & Hord).
  destruct (row_order_columns _ _ _ Hord) as (_ & Hcust & Hstatus & Href & Hitems).
  exists row. split; [|done]. split; [done|by apply (seen_saved _ _ Hseen)|congruence..].
Qed.

Lemma reply_holds_deployed o w req tr moves reply :
  stands_for o w → seen tr moves → reply_holds w req tr reply → deployed_reply_holds o req moves reply.
Proof.
  intros Hw Hseen Hreply. pose proof (same_provider _ _ _ _ Hw) as Hprov.
  pose proof Hseen as [_ Hch Hins].
  destruct Hreply as [order r Ho Hs Hsr Hl Hin|order r Ho Hs Hsr Hl|order r Ho Hs _ Hl|order r Ho _|text Hi Hc
    |text Hc|text id r Ho Hs Hl]; try rewrite Hprov in Hl;
    try (destruct (own_row_placed _ _ _ _ _ _ _ Hw Hseen Ho) as (row & Hrow & Hstatus & Href);
         rewrite ?Hstatus, ?Href in * ).
  - eapply deployed_created; try done. destruct (confirmed_acknowledged _ _ _ _ Hw _ Hin) as (x & ? & Hx & ?).
    exists x. split_and!; [done..|]. rewrite Hx. by destruct Ho as [_ _ [_ <-]].
  - by eapply deployed_declined.
  - by eapply deployed_rejected.
  - by eapply deployed_accepted.
  - apply deployed_bad_request; auto.
  - apply deployed_not_saved; auto.
  - by eapply deployed_decline_not_recorded.
Qed.

(** C9: A reply can be relied on, down to the wire.  In any state the deployment can
be in, a request whose bytes the endpoint accepts is started and runs to its end among
any other requests, workers, retries, crashes and late settlements; whatever POST
/orders then replies, what the status code says holds of the tables, of the ledger of
the Payment Service and of the requests sent, at that moment and in every later state:
201, the row that the request inserted, with the customer and the items it asked for, is
completed, charged with the reference it carries, and those items were reserved, with
an answer of success; 402,
that row is failed and its charge was declined; 502, nothing was charged for it and it
does not show as paid; 202, it is there; 400, the request inserted no row and sent no
charge; 500, it sent no charge, or the charge of its row was declined. *)
Theorem deployed_replies_hold (d d' d'' : deployment) (ctx : Ctx)
    (syntax_error : string → error) (failure : option error) (text : string)
    (req : CreateOrderRequest.t) (order : option Order) (err : option error) (reply : http_reply)
    (moves : list (outside * outside))
    (Hd : deployed_reachable timestamptz key_order id_le pc ic d)
    (accepted : read_bytes syntax_error failure text = inr req)
    (runs : deployed_observed (length (running d)) (start (request_thread ctx req) d) moves d')
    (ended : running d' !! length (running d) = Some (Ret (Some (order, err))))
    (replied : writeResult order err = mret reply)
    (later : rtc deployed_step d' d'') :
  deployed_reply_holds (out d'') req moves reply.
Proof.
  destruct (deployment_refines _ _ _ key_order_perm _ _ _ Hd) as (s & Hs & Href).
  assert (deployable (request_thread ctx req)) as Hdep by by eapply deploy_request.
  apply deployable_spawnable in Hdep as [Hsp Hin].
  pose proof (Forall2_length _ _ _ (proj2 Href)) as Hlen.
  pose proof (refines_start _ _ _ _ _ _ _ _ Hin Href) as Hstart.
  destruct (deployed_observed_simulated _ _ _ _ runs _ Hstart) as (tr & s' & Hobs & Href' & Hseen).
  destruct (Forall2_lookup_l _ _ _ _ _ (proj2 Href') ended) as (ps & Hps & Hsim).
  apply (simulates_ended _ _ _ key_order_perm _ _ _ _) with (a := Some (order, err)) in Hsim; [|done]. subst ps.
  destruct (refines_steps _ _ _ key_order_perm _ _ _ _ _ later Href') as (s'' & Hsteps & Href'').
  eapply (reply_holds_deployed _ (wld s'') req tr); [apply Href''|exact Hseen|].
  - set (s1 := Sys (wld s) (threads s ++ [request_thread ctx req])) in *.
    apply (replies_can_be_relied_on timestamptz s1 s' s'' (length (running d)) ctx req order err); try done.
    + destruct Hs as (s0 & ? & Hrun). exists s0. split; [done|]. eapply rtc_r; [exact Hrun|].
      destruct s as [w ts]. by apply step_spawn.
    + by apply list_lookup_middle.
Qed.
End replies.

(** ** A request of the concrete deployment

A second order is posted to the deployment of EndToEnd.v. *)

Section demo.
Let pc := PaymentClient.example_client.
Let ic := InventoryClient.example_client.
Abbreviation demo_outside := (outside (S := gmap string charge_state)).
Abbreviation demo_deployment_state := (deployment (S := gmap string charge_state)).
Abbreviation demo_observed := (deployed_observed microseconds jsonb_key_order String.le pc ic).

(** The adapters of the demo make no error that looks like one of the usecase. *)
Lemma demo_wire_plain R (e : wireE R) (o : demo_outside) : wire_plain e (demo_wire healthy R e o).1.
Proof.
  destruct e as [e|e|e|e].
  - apply demo_handler_plain.
  - destruct e; simpl; try done.
    + destruct (insert_order _ _ _ _ _ _ _ _ _); [done|]. apply plain_foreign.
    + destruct (update_if_status _ _ _ _ _) as [[n t]|]; [done|]. split; [done|]. apply plain_foreign.
    + destruct (update_status _ _ _) as [[n t]|]; [done|]. split; [done|]. apply plain_foreign.
    + destruct (orders o !! id); [done|]. simpl. plain_tac.
  - destruct e as [| ctx req | |]; simpl; try done.
    assert (∀ m r, match (PaymentClient.serve_http pc m r).1 with
      | inl resp => plain_option (body_rest (ResponseBody resp))
      | inr err => plain err
      end) as Hserve.
    { intros m r. destruct (PaymentClient.serve_http pc m r) as [ans m'] eqn:Hx. revert Hx.
      unfold PaymentClient.serve_http, PaymentClient.serve_post, PaymentClient.serve_get.
      intros Hx. go_cases; simplify_eq/=; try done; plain_tac. }
    unfold PaymentClient.serve_do. pose proof (Hserve (service o) req) as H1.
    destruct (PaymentClient.serve_http _ _ _) as [[resp|err] m1]; [|done].
    destruct (redirected resp req) as [r'|]; [|done]. pose proof (Hserve m1 r') as H2.
    by destruct (PaymentClient.serve_http _ _ _) as [ans m2].
  - by destruct e.
Qed.

(** The pairs of outsides that a run goes through. *)
Fixpoint run_moves {A} (p : prog wireE A) (o : demo_outside) : list (demo_outside * demo_outside) :=
  match p with
  | Vis e k => let '(r, o') := demo_wire healthy _ e o in (o, o') :: run_moves (k r) o'
  | _ => []
  end.

Lemma demo_run_observed i p o ts a o' :
  ts !! i = Some p → run (demo_wire healthy) p o = (Returned a, o') →
  demo_observed i (mkDeployment o ts) (run_moves p o) (mkDeployment o' (<[i := Ret a]> ts)).
Proof.
  revert o ts. induction p as [b|msg|R e k IH]; intros o ts Hi Hr; simpl in Hr; simplify_eq.
  { rewrite list_insert_id by done. apply deployed_observed_nothing. }
  pose proof (demo_wire_ok healthy R e o) as Hstep. pose proof (demo_wire_plain R e o) as Hp.
  simpl. destruct (demo_wire healthy R e o) as [r o1]. simpl in Hstep, Hp.
  eapply deployed_observed_call; [done|done|done|]. rewrite <- (list_insert_insert_eq ts i (Ret a) (k r)).
  apply (IH r); [|done]. apply list_lookup_insert_eq. by eapply lookup_lt_Some.
Qed.

(** An order is posted to a deployment that has served nothing; its reply is sent, and
a worker starts. *)
Definition nothing_served : demo_deployment_state := mkDeployment (mkOutside ∅ ∅ [] []) [].
Definition posted_request : CreateOrderRequest.t :=
  match readRequest (bytes_body demo_bytes) with
  | inr req => req
  | inl _ => CreateOrderRequest.mk "" "" []
  end.
Definition posted_thread : prog portE thread_result := request_thread demo_ctx posted_request.
Definition posted_run : outcome thread_result * demo_outside :=
  run (demo_wire healthy) (interp (adapters pc ic) posted_thread) (out nothing_served).
Definition posted_result : option Order * option error :=
  match posted_run.1 with Returned (Some r) => r | _ => (None, None) end.
Definition posted_reply : http_reply :=
  match writeResult posted_result.1 posted_result.2 with Ret reply => reply | _ => writeJSON 0 JNull end.
Definition posted_worker : prog portE thread_result :=
  _ ← Run demo_ctx (NewReconciler (ReconcilerConfig.mk 0 0)) 1; mret None.
Definition posted_deployment : demo_deployment_state := mkDeployment posted_run.2 [Ret (Some posted_result)].

Lemma posted_observed :
  demo_observed 0 (start pc ic posted_thread nothing_served)
    (run_moves (interp (adapters pc ic) posted_thread) (out nothing_served)) posted_deployment.
Proof.
  assert (posted_run.1 = Returned (Some posted_result)) as Hr by (vm_compute; reflexivity).
  revert Hr. unfold posted_deployment. generalize posted_result as result. unfold posted_run, start.
  set (p := interp (adapters pc ic) posted_thread). intros result Hr.
  apply (demo_run_observed 0 p (out nothing_served) [p] (Some result)); [reflexivity|].
  rewrite <- Hr. apply surjective_pairing.
Qed.

Lemma posted_ended :
  running posted_deployment !! 0 = Some (Ret (Some (posted_result.1, posted_result.2))).
Proof. by rewrite <- (surjective_pairing posted_result). Qed.

Lemma posted_later (d : demo_deployment_state) :
  rtc (deployed_step microseconds jsonb_key_order String.le pc ic) d (start pc ic posted_worker d).
Proof. destruct d as [o ts]. apply rtc_once, deployed_spawn, deploy_worker. Qed.

Lemma deployed_replies_hold_witness :
  reply_status posted_reply = 201%Z ∧
  deployed_reply_holds pc ic (out (start pc ic posted_worker posted_deployment)) posted_request
    (run_moves (interp (adapters pc ic) posted_thread) (out nothing_served)) posted_reply.
Proof.
  split; [vm_compute; reflexivity|].
  refine (deployed_replies_hold microseconds jsonb_key_order String.le jsonb_key_order_perm pc ic
    nothing_served posted_deployment (start pc ic posted_worker posted_deployment) demo_ctx
    (λ _, Foreign "invalid character" None) None demo_bytes posted_request
    posted_result.1 posted_result.2 posted_reply _ _ _ _ _ _ _).
  - exists nothing_served. split; [by split_and!|done].
  - vm_compute. reflexivity.
  - exact posted_observed.
  - exact posted_ended.
  - vm_compute. reflexivity.
  - exact (posted_later posted_deployment).
Defined.
End demo.
