(* ===== verification/Main.v ===== *)
(** * The process (src/cmd/orderservice/main.go)

Configuration from the environment, and the life of the process: what [run]
starts, in which order, and what it releases on every way out. *)

From Stdlib Require Import Floats.SpecFloat.
From S2P Require Import Prelude GoValues Prog Ports Reconciler Http PaymentClient InventoryClient.

(** ** time.ParseDuration *)

(** Float64 arithmetic, which the fractional part goes through. *)
Definition float64 : Type := spec_float.
Definition f64_of_Z (z : Z) : float64 := binary_normalize 53 1024 z 0 false.
Definition f64_mul : float64 → float64 → float64 := SFmul 53 1024.
Definition f64_div : float64 → float64 → float64 := SFdiv 53 1024.
(** [uint64(x)] of a non-negative finite number. *)
Definition f64_trunc (x : float64) : Z :=
  match x with
  | S754_finite _ m e => if (0 <=? e)%Z then (Zpos m * 2 ^ e)%Z else (Zpos m / 2 ^ (- e))%Z
  | _ => 0%Z
  end.

Definition two63 : Z := 2 ^ 63.

Definition digit_value (c : ascii) : option Z :=
  let n := Z.of_N (N_of_ascii c) in
  if ((48 <=? n) && (n <=? 57))%Z then Some (n - 48)%Z else None.

(** [leadingInt]: [None] is an overflow. *)
Fixpoint leadingInt (x : Z) (s : string) : option (Z * string) :=
  match s with
  | String c s' =>
      match digit_value c with
      | Some d =>
          if (x >? two63 / 10)%Z then None
          else let x := (x * 10 + d)%Z in if (x >? two63)%Z then None else leadingInt x s'
      | None => Some (x, s)
      end
  | EmptyString => Some (x, s)
  end.

(** [leadingFraction]: digits beyond the precision are dropped. *)
Fixpoint leadingFraction (overflow : bool) (x : Z) (scale : float64) (s : string)
    : Z * float64 * string :=
  match s with
  | String c s' =>
      match digit_value c with
      | Some d =>
          if overflow then leadingFraction true x scale s'
          else if (x >? (two63 - 1) / 10)%Z then leadingFraction true x scale s'
          else let y := (x * 10 + d)%Z in
               if (y >? two63)%Z then leadingFraction true x scale s'
               else leadingFraction false y (f64_mul scale (f64_of_Z 10)) s'
      | None => (x, scale, s)
      end
  | EmptyString => (x, scale, s)
  end.

Definition unit_end (c : ascii) : bool := ⟦c = "."%char⟧ || ⟦is_Some (digit_value c)⟧.
Fixpoint leadingUnit (s : string) : string * string :=
  match s with
  | String c s' => if unit_end c then (EmptyString, s)
                   else let '(u, rest) := leadingUnit s' in (String c u, rest)
  | EmptyString => (EmptyString, s)
  end.

(** [unitMap]; the two spellings of microseconds with a non-ASCII letter are
U+00B5 and U+03BC. *)
Definition unitMap : list (string * Z) :=
  [("ns", 1); ("us", 1000); ("µs", 1000); ("μs", 1000); ("ms", 1000000); ("s", 1000000000);
   ("m", 60000000000); ("h", 3600000000000)]%Z.

(** One term, a number with its unit; the sum so far is [d]. *)
Definition parse_term (d : Z) (s : string) : option (Z * string) :=
  if negb match s with
          | String c _ => ⟦c = "."%char⟧ || ⟦is_Some (digit_value c)⟧
          | EmptyString => false
          end then None
  else
    match leadingInt 0 s with
    | None => None
    | Some (v, s1) =>
        let pre := negb ⟦String.length s1 = String.length s⟧ in
        let '(f, scale, s2, post) :=
          match s1 with
          | String "." s1' =>
              let '(f, scale, s2) := leadingFraction false 0 (f64_of_Z 1) s1' in
              (f, scale, s2, negb ⟦String.length s2 = String.length s1'⟧)
          | _ => (0%Z, f64_of_Z 1, s1, false)
          end in
        if negb pre && negb post then None
        else
          let '(u, s3) := leadingUnit s2 in
          match list_find (λ kv, kv.1 = u) unitMap with
          | None => None
          | Some (_, (_, unit)) =>
              if (v >? two63 / unit)%Z then None
              else
                let v := (v * unit)%Z in
                let v := if (f >? 0)%Z
                         then (v + f64_trunc (f64_mul (f64_of_Z f) (f64_div (f64_of_Z unit) scale)))%Z
                         else v in
                if (v >? two63)%Z then None
                else let d := (d + v)%Z in
                     if (d >? two63)%Z then None else Some (d, s3)
          end
    end.

(** The loop over the terms. *)
Fixpoint parse_terms (fuel : nat) (d : Z) (s : string) : option Z :=
  match fuel, s with
  | _, EmptyString => Some d
  | 0, _ => None
  | S fuel, _ =>
      match parse_term d s with
      | None => None
      | Some (d, s) => parse_terms fuel d s
      end
  end.

(** [time.ParseDuration]; [None] is an error. *)
Definition ParseDuration (s : string) : option Duration :=
  let '(neg, s) := match s with
                   | String "-" s => (true, s)
                   | String "+" s => (false, s)
                   | _ => (false, s)
                   end in
  if ⟦s = "0"⟧ then Some 0%Z
  else if ⟦s = ""⟧ then None
  else match parse_terms (String.length s) 0 s with
       | None => None
       | Some d =>
           if (neg : bool) then Some (- d)%Z
           else if (d >? two63 - 1)%Z then None else Some d
       end.

Example durations :
  map ParseDuration ["1m30s"; "250ms"; "1.5h"; "0"; "-3s"; "3"; ""; "0.1us"; "9223372036854775807ns";
                     "9223372036854775808ns"; "1µs"; ".5s"; "1 s"; "-9223372036854775808ns"] =
    [Some 90000000000; Some 250000000; Some 5400000000000; Some 0; Some (-3000000000); None; None;
     Some 100; Some 9223372036854775807; None; Some 1000; Some 500000000; None;
     Some (-9223372036854775808)]%Z.
Proof. vm_compute. reflexivity. Qed.

(** ** The environment *)

(** [os.Getenv]: an unset variable is empty. *)
Definition environment : Type := string → string.

Definition envString (env : environment) (name fallback : string) : string :=
  if ⟦env name ≠ ""⟧ then env name else fallback.

Definition envDuration (env : environment) (name : string) (fallback : Duration) : Duration :=
  let value := env name in
  if ⟦value = ""⟧ then fallback
  else match ParseDuration value with
       | None => fallback
       | Some duration => if (duration <=? 0)%Z then fallback else duration
       end.

(** ** The server *)

Inductive endpoint := CreateOrderEndpoint | MetricsEndpoint | HealthEndpoint.

(** The patterns of the mux. *)
Definition mux : list (string * endpoint) :=
  [("POST /orders", CreateOrderEndpoint); ("GET /metrics", MetricsEndpoint);
   ("GET /healthz", HealthEndpoint)].

(** [http.Server]. *)
Record Server := mkServer {
  Addr : string;
  Handlers : list (string * endpoint);
  ReadHeaderTimeout : Duration;
  ReadTimeout : Duration;
  WriteTimeout : Duration;
  IdleTimeout : Duration }.

Definition seconds (n : Z) : Duration := (n * second)%Z.

Definition server (env : environment) : Server :=
  mkServer (envString env "HTTP_ADDR" ":8080") mux (seconds 5) (seconds 10) (seconds 15) (seconds 60).

(** The clients of the services, each over an HTTP client with its timeout, and the
worker. *)
Record wiring := mkWiring {
  payment : PaymentClient.Client;
  inventory : InventoryClient.Client;
  reconciler : Reconciler;
  reconcile_interval : Duration }.

Definition wire_up (env : environment) : wiring :=
  mkWiring
    (PaymentClient.New (env "PAYMENT_SERVICE_URL")
       (Some (mkHttpClient (envDuration env "PAYMENT_TIMEOUT" (seconds 3)) None)))
    (InventoryClient.New (env "INVENTORY_SERVICE_URL")
       (Some (mkHttpClient (envDuration env "INVENTORY_TIMEOUT" (seconds 3)) None)))
    (NewReconciler (ReconcilerConfig.mk (envDuration env "RECONCILE_MIN_AGE" minute) 0))
    (envDuration env "RECONCILE_INTERVAL" (seconds 30)).

(** ** run *)

(** What the [select] at the end wakes up for. *)
Inductive wakeup := SignalReceived | ServerStopped (err : error).

(** The effects of [run]. *)
Inductive mainE : Type → Type :=
| NotifyContext : mainE unit
| stop : mainE unit
| SetupTracingWith (exporter : string) : mainE (option error)
| ShutdownTracing : mainE unit
| OpenDatabase (url : string) : mainE (option error)
| CloseDatabase : mainE (option error)
| LogCloseFailed (err : error) : mainE unit
| PingDatabase : mainE (option error)
| MigrateDatabase : mainE (option error)
| cancelConnect : mainE unit
| GoReconciler (w : wiring) : mainE unit
| WaitReconciler : mainE unit
| GoServer (s : Server) : mainE unit
| Select : mainE wakeup
| ShutdownServer : mainE (option error)
| Fprintln (err : error) : mainE unit.

(** [defer cleanup] before [body]. *)
Definition deferring {A} (cleanup : prog mainE unit) (body : prog mainE A) : prog mainE A :=
  a ← body;
  _ ← cleanup;
  mret a.

Definition closeDatabase : prog mainE unit :=
  closeErr ← trigger CloseDatabase;
  match closeErr with
  | Some closeErr => trigger (LogCloseFailed closeErr)
  | None => mret tt
  end.

(** From the started worker to the end. *)
Definition serve_until_done (env : environment) : prog mainE (option error) :=
  _ ← trigger (GoServer (server env));
  event ← trigger Select;
  match event with
  | SignalReceived =>
      err ← trigger ShutdownServer;
      match err with
      | Some err => mret (Some (wrapf "shutdown HTTP server: " err))
      | None => mret None
      end
  | ServerStopped err =>
      if errors_Is err http_ErrServerClosed then mret None
      else mret (Some (wrapf "serve HTTP: " err))
  end.

(** With an open database: connect, migrate, start the worker, serve.  The metrics
are registered in between, on a fresh registry ([NewPrometheusMetrics_registers]). *)
Definition run_with_database (env : environment) : prog mainE (option error) :=
  deferring (trigger cancelConnect)
    (err ← trigger PingDatabase;
     match err with
     | Some err => mret (Some (wrapf "connect database: " err))
     | None =>
         err ← trigger MigrateDatabase;
         match err with
         | Some err => mret (Some (wrapf "migrate database: " err))
         | None =>
             _ ← trigger (GoReconciler (wire_up env));
             deferring (_ ← trigger stop; trigger WaitReconciler) (serve_until_done env)
         end
     end).

Definition run_configured (env : environment) : prog mainE (option error) :=
  if ⟦env "DATABASE_URL" = ""⟧ then mret (Some (Sentinel errDatabaseURLRequired))
  else if ⟦env "PAYMENT_SERVICE_URL" = ""⟧ then mret (Some (Sentinel errPaymentURLRequired))
  else if ⟦env "INVENTORY_SERVICE_URL" = ""⟧ then mret (Some (Sentinel errInventoryURLRequired))
  else
    err ← trigger (OpenDatabase (env "DATABASE_URL"));
    match err with
    | Some err => mret (Some (wrapf "open database: " err))
    | None => deferring closeDatabase (run_with_database env)
    end.

Definition run_main (env : environment) : prog mainE (option error) :=
  _ ← trigger NotifyContext;
  deferring (trigger stop)
    (err ← trigger (SetupTracingWith (envString env "OTEL_TRACES_EXPORTER" "stdout"));
     match err with
     | Some err => mret (Some (wrapf "configure tracing: " err))
     | None => deferring (trigger ShutdownTracing) (run_configured env)
     end).

(** [main]: the error goes to standard error and the exit code is 1; a return
exits with 0. *)
Definition main (env : environment) : prog mainE Z :=
  err ← run_main env;
  match err with
  | Some err =>
      _ ← trigger (Fprintln err);
      mret 1%Z
  | None => mret 0%Z
  end.

(** ** Resources *)

(** The HTTP server: it accepts requests; its listener is closed, but requests may
still run; or it is shut down, and none does. *)
Inductive server_state := NotStarted | Accepting | ListenerClosed | ShutDown.

(** What the process holds. *)
Record held := mkHeld {
  notified : bool;
  tracing_up : bool;
  database_open : bool;
  migrated : bool;
  worker_running : bool;
  stopping : bool;
  http_server : server_state;
  complaint : option error }.

Definition nothing_held : held := mkHeld false false false false false false NotStarted None.

(** An HTTP client that gives up after a while and is traced. *)
Definition bounded_client (c : http_client) : Prop :=
  (0 < Timeout c)%Z ∧ ∃ base, Transport c = Some (OtelTransport base).

(** When each effect is in order: the database opens on a full configuration,
the worker and the server start on a migrated database, the worker is awaited only
once told to stop and when the server accepts no more requests, the database closes
only after the worker ended and with no request to come, tracing goes down last, and
an error is reported when all is released. *)
Definition in_order (env : environment) {R} (h : held) (e : mainE R) : Prop :=
  match e with
  | NotifyContext => h = nothing_held
  | SetupTracingWith _ => notified h = true ∧ tracing_up h = false
  | OpenDatabase url =>
      tracing_up h = true ∧ database_open h = false ∧ url ≠ "" ∧
      env "PAYMENT_SERVICE_URL" ≠ "" ∧ env "INVENTORY_SERVICE_URL" ≠ ""
  | PingDatabase | MigrateDatabase => database_open h = true ∧ migrated h = false
  | GoReconciler w =>
      database_open h = true ∧ migrated h = true ∧ worker_running h = false ∧ stopping h = false ∧
      bounded_client (PaymentClient.http (payment w)) ∧ bounded_client (InventoryClient.http (inventory w)) ∧
      (0 < reconcile_interval w)%Z ∧
      (0 < ReconcilerConfig.MinAge (config (reconciler w)))%Z ∧
      (0 < ReconcilerConfig.BatchSize (config (reconciler w)))%Z
  | GoServer s => database_open h = true ∧ migrated h = true ∧ worker_running h = true ∧
      http_server h = NotStarted ∧ Addr s ≠ ""
  | Select | ShutdownServer => http_server h = Accepting
  | WaitReconciler => worker_running h = true ∧ stopping h = true ∧ http_server h ≠ Accepting
  | CloseDatabase => database_open h = true ∧ worker_running h = false ∧ http_server h ≠ Accepting
  | ShutdownTracing => tracing_up h = true ∧ database_open h = false
  | stop => notified h = true
  | Fprintln _ =>
      tracing_up h = false ∧ database_open h = false ∧ worker_running h = false ∧ stopping h = true ∧
      http_server h ≠ Accepting
  | cancelConnect | LogCloseFailed _ => True
  end.

(** What the effects do.  [Shutdown] closes the listener first and then waits for the
requests; [ListenAndServe] returns when its listener failed, and with
[http.ErrServerClosed] only after a shutdown. *)
Definition main_step {R} (h : held) (e : mainE R) : R → held → Prop :=
  let set n t d m w s v := mkHeld n t d m w s v (complaint h) in
  match e in mainE R return R → held → Prop with
  | NotifyContext => λ _ h', h' = set true (tracing_up h) (database_open h) (migrated h) (worker_running h) (stopping h) (http_server h)
  | stop => λ _ h', h' = set (notified h) (tracing_up h) (database_open h) (migrated h) (worker_running h) true (http_server h)
  | SetupTracingWith _ => λ err h',
      h' = match err with
           | None => set (notified h) true (database_open h) (migrated h) (worker_running h) (stopping h) (http_server h)
           | Some _ => h
           end
  | ShutdownTracing => λ _ h', h' = set (notified h) false (database_open h) (migrated h) (worker_running h) (stopping h) (http_server h)
  | OpenDatabase _ => λ err h',
      h' = match err with
           | None => set (notified h) (tracing_up h) true (migrated h) (worker_running h) (stopping h) (http_server h)
           | Some _ => h
           end
  | CloseDatabase => λ _ h', h' = set (notified h) (tracing_up h) false (migrated h) (worker_running h) (stopping h) (http_server h)
  | MigrateDatabase => λ err h',
      h' = match err with
           | None => set (notified h) (tracing_up h) (database_open h) true (worker_running h) (stopping h) (http_server h)
           | Some _ => h
           end
  | GoReconciler _ => λ _ h', h' = set (notified h) (tracing_up h) (database_open h) (migrated h) true (stopping h) (http_server h)
  | WaitReconciler => λ _ h', h' = set (notified h) (tracing_up h) (database_open h) (migrated h) false (stopping h) (http_server h)
  | GoServer _ => λ _ h', h' = set (notified h) (tracing_up h) (database_open h) (migrated h) (worker_running h) (stopping h) Accepting
  | Fprintln err => λ _ h', h' = mkHeld (notified h) (tracing_up h) (database_open h) (migrated h) (worker_running h) (stopping h) (http_server h) (Some err)
  | Select => λ event h',
      match event with
      | SignalReceived => h' = h
      | ServerStopped err =>
          (errors_Is err http_ErrServerClosed = true → http_server h = ShutDown) ∧
          h' = set (notified h) (tracing_up h) (database_open h) (migrated h) (worker_running h) (stopping h) ListenerClosed
      end
  | ShutdownServer => λ err h',
      h' = set (notified h) (tracing_up h) (database_open h) (migrated h) (worker_running h) (stopping h)
             match err with None => ShutDown | Some _ => ListenerClosed end
  | _ => λ _ h', h' = h
  end.

Definition life (env : environment) : protocol mainE :=
  Protocol mainE held (@in_order env) (@main_step).

Lemma envDuration_positive env name fallback :
  (0 < fallback)%Z → (0 < envDuration env name fallback)%Z.
Proof.
  unfold envDuration. intros. case_bool_decide; [done|].
  destruct (ParseDuration _) as [d|]; [|done]. destruct (d <=? 0)%Z eqn:Hd; [done|].
  by apply Z.leb_gt in Hd.
Qed.

Lemma envString_nonempty env name fallback : fallback ≠ "" → envString env name fallback ≠ "".
Proof. unfold envString. by case_bool_decide. Qed.

Lemma wire_up_positive env :
  let w := wire_up env in
  bounded_client (PaymentClient.http (payment w)) ∧ bounded_client (InventoryClient.http (inventory w)) ∧
  (0 < reconcile_interval w)%Z ∧
  (0 < ReconcilerConfig.MinAge (config (reconciler w)))%Z ∧
  (0 < ReconcilerConfig.BatchSize (config (reconciler w)))%Z.
Proof.
  cbv zeta. unfold wire_up, NewReconciler. simpl.
  pose proof (envDuration_positive env "RECONCILE_MIN_AGE" minute ltac:(done)) as Hm.
  rewrite (proj2 (Z.leb_gt _ _) Hm). simpl.
  unfold bounded_client. split_and!; try done; try (by apply envDuration_positive); by eexists.
Qed.

Lemma wp_deferring {A} (P : protocol mainE) (cleanup : prog mainE unit) (body : prog mainE A) Q h :
  wp P body (λ a h', wp P cleanup (λ _ h'', Q a h'') h') h → wp P (deferring cleanup body) Q h.
Proof.
  intros H. eapply wp_bind_mono; [exact H|]. intros a h' Hc.
  eapply wp_bind_mono; [exact Hc|]. intros [] h'' HQ. by apply wp_ret.
Qed.

Lemma wp_once {R} (P : protocol mainE) (e : mainE R) Q h :
  allowed P h e → (∀ r h', answers P h e r h' → Q r h') → wp P (trigger e) Q h.
Proof.
  intros Ha HQ. apply (wp_proper P (trigger e ≫= Ret)); [done|].
  apply wp_trigger; [done|]. intros r h' Hr. by apply wp_ret, HQ.
Qed.

(** The stages of the process: holding tracing, an open database, a worker. *)
Definition stage (db mig worker stopped : bool) (srv : server_state) : held :=
  mkHeld true true db mig worker stopped srv None.

(** The server is as the result says: it accepts nothing, and a success shut it down. *)
Definition served_until (r : option error) (srv : server_state) : Prop :=
  srv ≠ Accepting ∧ (r = None → srv = ShutDown).

Lemma serve_ok env h : h = stage true true true false NotStarted →
  wp (life env) (serve_until_done env)
    (λ r h', ∃ srv, h' = stage true true true false srv ∧ served_until r srv) h.
Proof.
  intros ->. unfold serve_until_done. apply wp_trigger.
  { split_and!; try done. by apply envString_nonempty. }
  intros [] h1 ->. apply wp_trigger; [done|]. intros [|err] h2 Hh2.
  - rewrite Hh2. apply wp_trigger; [done|]. intros [err|] h3 ->; apply wp_ret; by eexists.
  - destruct Hh2 as [Hclosed ->]. destruct (errors_Is _ _) eqn:He; [by specialize (Hclosed eq_refl)|].
    apply wp_ret. by eexists.
Qed.

Lemma run_with_database_ok env h : h = stage true false false false NotStarted →
  wp (life env) (run_with_database env)
    (λ r h', ∃ mig st srv, h' = stage true mig false st srv ∧ served_until r srv) h.
Proof.
  intros ->. unfold run_with_database. apply wp_deferring.
  assert (∀ (err : option error) mig st srv, served_until err srv →
    wp (life env) (trigger cancelConnect)
      (λ _ h', ∃ mig st srv, h' = stage true mig false st srv ∧ served_until err srv)
      (stage true mig false st srv)) as Hend.
  { intros err mig st srv Hs. apply wp_once; [done|]. intros [] h' ->. by do 3 eexists. }
  apply wp_trigger; [done|]. intros [err|] h1 ->; [apply wp_ret; by apply Hend|].
  apply wp_trigger; [done|]. intros [err|] h2 ->; [apply wp_ret; by apply Hend|].
  apply wp_trigger.
  { destruct (wire_up_positive env) as (? & ? & ? & ? & ?). by split_and!. }
  intros [] h3 ->. apply wp_deferring. eapply wp_mono; [by apply serve_ok|]. intros r h4 (srv & -> & Hr).
  apply wp_trigger; [done|]. intros [] h5 ->. apply wp_once; [by destruct Hr; split_and!|]. intros [] h6 ->.
  by apply Hend.
Qed.

Lemma run_configured_ok env h : h = stage false false false false NotStarted →
  wp (life env) (run_configured env)
    (λ r h', ∃ mig st srv, h' = stage false mig false st srv ∧ served_until r srv) h.
Proof.
  intros ->. unfold run_configured.
  do 3 (case_bool_decide; [apply wp_ret; by do 3 eexists|]).
  apply wp_trigger; [done|]. intros [err|] h1 ->; [apply wp_ret; by do 3 eexists|].
  apply wp_deferring. eapply wp_mono; [by apply run_with_database_ok|].
  intros r h2 (mig & st & srv & -> & Hr). apply wp_trigger; [by destruct Hr; split_and!|]. intros [err|] h3 ->.
  - apply wp_once; [done|]. intros [] h4 ->. by do 3 eexists.
  - apply wp_ret. by do 3 eexists.
Qed.

Lemma digit_value_nonneg c d : digit_value c = Some d → (0 <= d)%Z.
Proof.
  unfold digit_value. cbv zeta. destruct (_ && _) eqn:H; [|done]. intros [= <-].
  apply andb_true_iff in H as [H _]. apply Z.leb_le in H. lia.
Qed.

Lemma leadingInt_nonneg s x v s' : (0 <= x)%Z → leadingInt x s = Some (v, s') → (0 <= v)%Z.
Proof.
  revert x. induction s as [|c s IH]; intros x Hx; cbn [leadingInt]; [by intros [= <- _]|].
  destruct (digit_value c) as [d|] eqn:Hd; [|by intros [= <- _]]. apply digit_value_nonneg in Hd.
  destruct (_ >? _)%Z; [done|]. cbv zeta. destruct (_ >? _)%Z; [done|]. apply IH. lia.
Qed.

Lemma f64_trunc_nonneg x : (0 <= f64_trunc x)%Z.
Proof.
  destruct x as [?|?| |sgn m e]; simpl; try lia. destruct (0 <=? e)%Z eqn:He.
  - apply Z.leb_le in He. pose proof (Z.pow_nonneg 2 e). lia.
  - apply Z.leb_gt in He. apply Z.div_pos; [lia|]. apply Z.pow_pos_nonneg; lia.
Qed.

Lemma unitMap_nonneg u i kv : list_find (λ kv, kv.1 = u) unitMap = Some (i, kv) → (0 <= kv.2)%Z.
Proof.
  intros (Hi & _ & _)%list_find_Some. apply list_elem_of_lookup_2 in Hi. revert kv Hi.
  rewrite <- Forall_forall. unfold unitMap. repeat constructor; simpl; lia.
Qed.

Lemma leadingInt_length x s v s' : leadingInt x s = Some (v, s') → String.length s' <= String.length s.
Proof.
  revert x. induction s as [|c s IH]; intros x; simpl; [by intros [= <- <-]|].
  intros Hx. repeat case_match; simplify_eq; simpl; [|lia]. apply IH in Hx. lia.
Qed.

Lemma leadingFraction_length o x scale s :
  String.length (leadingFraction o x scale s).2 <= String.length s.
Proof.
  revert o x scale. induction s as [|c s IH]; intros o x scale; simpl; [done|].
  repeat case_match; simpl; try (etrans; [apply IH|lia]); lia.
Qed.

Lemma leadingUnit_length s u s' : leadingUnit s = (u, s') → String.length u + String.length s' = String.length s.
Proof.
  revert u. induction s as [|c s IH]; intros u; simpl; [by intros [= <- <-]|].
  destruct (unit_end c); [by intros [= <- <-]|]. destruct (leadingUnit s) as [u' rest].
  intros [= <- ->]. simpl. by rewrite (IH u').
Qed.

Lemma unitMap_nonempty u i kv : list_find (λ kv, kv.1 = u) unitMap = Some (i, kv) → 0 < String.length u.
Proof.
  intros (Hi & <- & _)%list_find_Some. apply list_elem_of_lookup_2 in Hi.
  assert (Forall (λ kv, 0 < String.length kv.1) unitMap) as Hall by (repeat constructor; simpl; lia).
  by eapply Forall_forall in Hall.
Qed.

(** A term adds a duration that is not negative and consumes input. *)
Lemma parse_term_progress d s d' s' :
  parse_term d s = Some (d', s') → (d <= d')%Z ∧ String.length s' < String.length s.
Proof.
  unfold parse_term. destruct (negb _); [done|].
  destruct (leadingInt 0 _) as [[v s1]|] eqn:Hv; [|done].
  pose proof (leadingInt_length _ _ _ _ Hv) as Hl1. apply leadingInt_nonneg in Hv; [|done]. cbv zeta.
  destruct (match s1 with String "." _ => _ | _ => _ end) as [[[f scale] s2] post] eqn:Hfrac.
  assert (String.length s2 <= String.length s1) as Hl2.
  { repeat case_match; simplify_eq; simpl; try done.
    match goal with H : leadingFraction ?o ?x ?sc ?t = _ |- _ =>
      pose proof (leadingFraction_length o x sc t) as Hl; rewrite H in Hl end.
    simpl in Hl. lia. }
  destruct (_ && _); [done|]. destruct (leadingUnit s2) as [u s3] eqn:Hunit.
  apply leadingUnit_length in Hunit.
  destruct (list_find _ unitMap) as [[i [u' unit]]|] eqn:Hu; [|done].
  pose proof (unitMap_nonempty _ _ _ Hu). apply unitMap_nonneg in Hu. simpl in Hu.
  pose proof (f64_trunc_nonneg (f64_mul (f64_of_Z f) (f64_div (f64_of_Z unit) scale))).
  destruct (_ >? _)%Z; [done|].
  destruct (f >? 0)%Z; (destruct (_ >? _)%Z; [done|]; destruct (_ >? _)%Z; [done|]);
    intros [= <- <-]; (split; [nia|lia]).
Qed.

Lemma parse_terms_nonneg fuel d s d' : (0 <= d)%Z → parse_terms fuel d s = Some d' → (0 <= d')%Z.
Proof.
  revert d s. induction fuel as [|fuel IH]; intros d s Hd; destruct s as [|c s]; cbn [parse_terms];
    try done; try by intros [= <-].
  destruct (parse_term d _) as [[d1 s1]|] eqn:Hp; [|done]. apply parse_term_progress in Hp.
  apply IH. lia.
Qed.

(** Fuel for the length of the text is enough. *)
Lemma parse_terms_fuel n d s :
  String.length s <= n → parse_terms n d s = parse_terms (String.length s) d s.
Proof.
  revert d s. induction n as [n IH] using lt_wf_ind. intros d s Hn.
  destruct s as [|c s]; [by destruct n|]. destruct n as [|n]; [simpl in Hn; lia|].
  cbn [String.length parse_terms].
  destruct (parse_term d _) as [[d1 s1]|] eqn:Hp; [|done]. apply parse_term_progress in Hp as [_ Hl].
  simpl in Hn, Hl. rewrite (IH n), (IH (String.length s)) by lia. done.
Qed.

Lemma ParseDuration_bound s d : ParseDuration s = Some d → (d <= max_int64)%Z.
Proof.
  unfold ParseDuration. destruct (match s with String "-" s => _ | _ => _ end) as [neg s'].
  case_bool_decide; [by intros [= <-]|]. case_bool_decide; [done|].
  destruct (parse_terms _ _ _) as [d'|] eqn:Hp; [|done]. destruct neg.
  - intros [= <-]. enough (0 <= d')%Z by (unfold max_int64; lia).
    by eapply parse_terms_nonneg.
  - destruct (d' >? two63 - 1)%Z eqn:Hd; [done|]. intros [= <-].
    unfold max_int64, two63 in *. lia.
Qed.

Lemma run_main_ok env :
  wp (life env) (run_main env)
    (λ r h, tracing_up h = false ∧ database_open h = false ∧ worker_running h = false ∧
       stopping h = true ∧ complaint h = None ∧ served_until r (http_server h)) nothing_held.
Proof.
  unfold run_main. apply wp_trigger; [done|]. intros [] h1 ->. apply wp_deferring.
  apply wp_trigger; [done|]. intros [err|] h2 ->.
  { apply wp_ret. apply wp_once; [done|]. by intros [] h3 ->. }
  apply wp_deferring. eapply wp_mono; [by apply run_configured_ok|].
  intros r h3 (mig & st & srv & -> & Hr). apply wp_once; [done|]. intros [] h4 ->.
  apply wp_once; [done|]. by intros [] h5 ->.
Qed.

(** C30: The process starts and stops in order, on every path.  The database is
opened only with the three addresses configured, the worker and the server start
only on a migrated database and with positive timeouts, periods and batch size
whatever the environment holds; on every way out the server accepts no more requests
before the worker is awaited, the worker is told to stop and awaited before the
database closes, and the database closes before tracing goes down.  At the end
tracing is down, the database closed, the worker gone and the server not accepting.
The exit code is 0 only if the server was shut down, with no request left running, and
nothing was reported; it is 1 exactly if an error was printed, after all of that. *)
Theorem run_in_order (env : environment) :
  wp (life env) (main env)
    (λ exit h, tracing_up h = false ∧ database_open h = false ∧ worker_running h = false ∧
       stopping h = true ∧ http_server h ≠ Accepting ∧
       ((exit = 0%Z ∧ complaint h = None ∧ http_server h = ShutDown) ∨
        (exit = 1%Z ∧ is_Some (complaint h)))) nothing_held.
Proof.
  unfold main. eapply wp_bind_mono; [apply run_main_ok|]. intros [err|] h (? & ? & ? & ? & ? & Hs & Hr).
  - apply wp_trigger; [done|]. intros [] h' ->. apply wp_ret. split_and!; eauto.
  - apply wp_ret. split_and!; eauto.
Qed.

(** Durations from the environment are always usable: a variable that is
unset, malformed, zero, negative or out of range gives the fallback, any other
its own value, which is positive and fits an int64. *)
Theorem envDuration_total (env : environment) (name : string) (fallback : Duration) :
  match ParseDuration (env name) with
  | Some d => if (0 <? d)%Z then envDuration env name fallback = d ∧ (0 < d <= max_int64)%Z
              else envDuration env name fallback = fallback
  | None => envDuration env name fallback = fallback
  end.
Proof.
  unfold envDuration. case_bool_decide as He.
  { rewrite He. by vm_compute. }
  destruct (ParseDuration (env name)) as [d|] eqn:Hp; [|done].
  apply ParseDuration_bound in Hp.
  destruct (d <=? 0)%Z eqn:Hd.
  - apply Z.leb_le in Hd. by rewrite (proj2 (Z.ltb_ge _ _) Hd).
  - apply Z.leb_gt in Hd. by rewrite (proj2 (Z.ltb_lt _ _) Hd).
Qed.

